(* ===== verification/_CoqProject ===== *)
-Q . S2P
Prelude.v
Rounding.v
Ieee754.v
Format.v
Views.v
AddSub.v
Mul.v
Div.v
FromInt.v
ToInt.v
Cmp.v
Simple.v
Special.v
Sqrt.v
Total.v
Inst.v
Machine.v
ByteMem.v
Branch.v
Dsemul.v
Cp1emu.v
Cp1Props.v
Safety.v
Linkage.v
Observations.v
Sort.v
Extable.v
Unaligned.v
Uasm.v
UasmProps.v
Tlbex.v
Tlbsim.v
TlbexProps.v
TlbexChange.v
TlbexSafe.v
TlbexR3000.v
TlbexCorrect.v
Rbtree.v
RbtreeRep.v
RbtreeOps.v
RbtreeInsert.v
RbtreeErase.v
RbtreeSpec.v
RbtreeWalk.v
RbtreeCorrect.v
Ktime.v
Hrtimer.v
HrtimerForward.v
HrtimerQueue.v
HrtimerSystem.v
HrtimerOps.v
HrtimerExpire.v
HrtimerCorrect.v
Kfifo.v
KfifoConc.v
KfifoInv.v
KfifoAlloc.v
KfifoCorrect.v
Timer.v
TimerWheel.v
TimerMigrate.v
TimerCorrect.v
