(* ===== verification/Prelude.v ===== *)
(** * Verification of core components of the MIPS Linux kernel

    The repository is a uClinux distribution for MIPS: a Linux 2.6 kernel
    ([src/linux-2.6.x]), the uClibc C library, busybox and other user
    programs, and build tools.  This development models two groups of
    components of the kernel.

    The traps a MIPS kernel answers in software, in [arch/mips]:

    - [math-emu/sp_*.c], [math-emu/dp_*.c], [math-emu/ieee754*]: an IEEE 754
      soft-float library for single and double precision;
    - [math-emu/cp1emu.c]: the emulator of the coprocessor 1 instructions,
      entered on every coprocessor unusable trap;
    - [math-emu/dsemul.c]: trampolines that run the delay slot of an emulated
      branch in user mode;
    - [math-emu/kernel_linkage.c]: the FPU context of a task;
    - [kernel/branch.c]: the emulation of branches;
    - [kernel/unaligned.c]: the emulation of unaligned loads and stores, with
      the exception tables ([lib/extable.c], [mm/extable.c]) that catch its own
      faults and the heapsort ([lib/sort.c]) that orders them;
    - [mm/tlbex.c]: the assembler that synthesizes the TLB handlers at boot,
      and the handlers;
    - the instruction formats of [include/asm-mips/inst.h].

    The containers and timers other code builds on:

    - [lib/rbtree.c], [include/linux/rbtree.h]: red-black trees;
    - [kernel/hrtimer.c], [include/linux/ktime.h]: high-resolution timers,
      queued in red-black trees, and their time values;
    - [kernel/timer.c]: the timer wheel;
    - [kernel/kfifo.c]: byte queues for one reader and one writer.

    A coprocessor trap calls [fpu_emulator_cop1Handler], which emulates
    instructions at [cp0_epc] until one is not for the FPU.  [cop1Emulate]
    fetches the instruction from user memory (emulating the branch before it
    when the trap was in a delay slot), and dispatches to loads, stores, moves,
    branches, or to [fpu_emu]/[fpux_emu], which read the register file, call the
    soft-float library and write the result, unless an enabled exception makes
    them return a signal.  The library keeps rounding mode, enables, causes and
    flags in the control register [fcr31].  The delay slot of an emulated branch
    runs in a trampoline that ends with an address error, which [do_ade] in
    [unaligned.c] recognises; other address errors are unaligned accesses.  A
    TLB miss runs code that [tlbex.c] wrote: the model of the synthesizer
    produces the instruction words and an interpreter of the processor runs
    them.

    ** Files

    - [Prelude]: machine integers, loops with fuel, a state monad with
      failure, tactics, generic lemmas.
    - [Rounding]: powers of two in the reals, IEEE rounding to a format with
      or without bounded exponent, sticky mantissas.
    - [Ieee754]: data, control register, exceptions, classification, rounding
      and packing ([ieee754.h], [ieee754int.h], [ieee754sp.h],
      [ieee754dp.h], [ieee754.c], [ieee754xcpt.c], [ieee754sp.c],
      [ieee754dp.c]).  Single and double precision copies are one definition
      over [fmt]; [ieee754sp_x] and [ieee754dp_x] are its instances.
    - [Format]: the value of data; the packing routine rounds correctly.
    - [Views]: the bit field views of the C unions are inverse.
    - [AddSub], [Mul], [Div], [Sqrt]: arithmetic, each with its correctness.
    - [FromInt], [ToInt]: conversions.  [Cmp]: comparison.
    - [Simple]: sign operations, modf, frexp, logb, scalb, floor, ceil,
      unsigned conversions.
    - [Special]: NaNs, infinities, division by zero.  [Total]: totality.
    - [Inst]: opcodes.  [Machine]: exception frame, FPU context, statistics,
      user memory as a class with its laws, the emulator's monad, the field
      macros.  [ByteMem]: an instance of user memory.
    - [Branch]: [__compute_return_epc].  [Dsemul]: trampolines.
    - [Cp1emu]: [cp1emu.c].  [Cp1Props]: its properties.  [Safety]: the
      invariant of the machine, totality, termination of the handler.
    - [Linkage]: [kernel_linkage.c].
    - [Observations]: corner cases in which the code does something other
      than its comments or the architecture say.
    - [Sort]: [lib/sort.c].  [Extable]: exception tables.  [Unaligned]:
      [unaligned.c], with both byte orders as parameter.
    - [Uasm]: the assembler of [tlbex.c] (instruction table, field builders,
      labels, relocations).  [UasmProps]: every word it emits decodes to the
      instruction asked for.
    - [Tlbex]: the synthesizer of the handlers.  [Tlbsim]: the processor, as
      specification.  [TlbexProps] (refill), [TlbexChange] (load, store,
      modify), [TlbexR3000], [TlbexSafe] (the synthesizer stays in its
      buffers), [TlbexCorrect] (the properties).
    - [Rbtree]: [rbtree.c] on a heap of nodes.  [RbtreeRep]: heaps that hold a
      tree, as a tree and a zipper.  [RbtreeOps], [RbtreeInsert],
      [RbtreeErase], [RbtreeWalk]: what the operations do to the tree.
      [RbtreeSpec]: the interface timers use.  [RbtreeCorrect].
    - [Ktime]: time values; the 64-bit and the two-halves representation are
      instances of the class [Ktime], with the laws [KtimeLaws].
    - [Hrtimer]: [hrtimer.c] over that class and [Rbtree].  [HrtimerForward],
      [HrtimerQueue] (one queue), [HrtimerSystem] (all queues), [HrtimerOps],
      [HrtimerExpire], [HrtimerCorrect].
    - [Kfifo]: [kfifo.c].  [KfifoConc]: interleavings of a reader and a writer
      as a step relation.  [KfifoInv], [KfifoAlloc], [KfifoCorrect].
    - [Timer]: the wheel of [timer.c].  [TimerWheel]: where a timer that is due
      at some time has to be, and every operation in these terms.
      [TimerMigrate], [TimerCorrect].

    ** What the theorems show

    For operands that are finite, [add], [sub], [mul], [div], single
    precision [sqrt], the conversions between the formats and of signed
    integers, [scalb] and the packing routine return
    the exact real result correctly rounded in the current mode, with exactly
    the IEEE inexact, overflow and underflow exceptions, and on overflow the
    infinity or largest number of IEEE 754 ([FPResult], [Delivers]);
    comparisons decide the order of the values; [modf], [floor], [ceil],
    [frexp], [logb] are exact.  For the four binary operations NaNs, infinities
    and division by zero give the results and exceptions IEEE 754 prescribes.
    Every routine returns, on every operand and control register.  An arithmetic
    instruction implements this from the register file to the register file,
    and an instruction that returns a signal changes no register (multiply-adds
    excepted, see [Observations]).  The emulator keeps the machine well-formed and its loop over instructions ends.  The control
    register moves, loads and stores, trampolines and context save and restore
    are round trips; branches agree between the two places that emulate them.

    Heapsort sorts every array of less than [2^31] bytes, at the widths of its
    counters; sorting and searching an exception table is a lookup; an unaligned
    load or store has the effect of the aligned instruction on the bytes of
    memory, or sends the right signal and changes neither memory nor registers
    (the pc moves on even then, against a comment of the source:
    [signal_advances_pc]).

    The assembler's words decode to what was asked for; the synthesizer never
    writes outside of its buffers on any configuration; on 32-bit kernels with
    4 KB pages, with 32-bit physical addresses, and with 64-bit ones on CPUs
    with 32-bit registers (the change handlers: without SMP), the
    refill handler loads the pair of entries the page tables give for the
    faulting address, and the load, store and modify handlers set exactly the
    flags of the access or leave for the slow path.

    Insertion into and removal from a red-black tree keep its order and its
    invariants and change no other node.  On this, starting and cancelling a
    timer and the expiry loop are proved to implement sorted queues: exactly
    the timers that are due run, in order.  The timer wheel implements a map
    from timers to due times: cascading never loses, delays or hastens a timer,
    although times wrap around; starting a timer on another CPU and the death of
    a CPU move it to another wheel.  Byte queues are bounded queues, and correct
    for one reader and one writer without lock, in every interleaving.

    ** Parameters

    [config] is the kernel configuration, CPU and link-time addresses the
    synthesizer reads; [big], [mips64], [fixade], [main], [mods], [junk] those
    of [Unaligned]; [K], [SMP], [LOW_RES], the clocks and the per-CPU bases
    those of [Hrtimer]; [BITS], [TVR_BITS], [TVN_BITS], [SMP], [this_cpu] and
    [jiffies] those of [Timer].  User memory, the callbacks of timers ([call]),
    the comparison of [sort] and the allocator of [kfifo_alloc] stand for code
    outside of the components; the theorems state what they assume of them.

    ** Bounds

    Loops run with fuel, and a loop that would need more returns [None]; the
    theorems exhibit [Some], so the fuel is enough.  It is 64 turns for loops
    over the bits of a mantissa, 32 for the digit recurrence of the square
    root, two rounds for [goto emul], the number of words above the program
    counter for the handler, the number of elements for [sort] and for the
    search, 64 instructions for a refill handler (32 or 64 for the R3000), more
    for a change handler whose store-conditional fails several times, the
    logarithm of the number of nodes for the trees, 31 for [ktime_divns], the
    number of timers that are due for the expiry loop, the number of ticks and
    of timers for the wheel.  Most arithmetic theorems are for the flush bit
    ([nod]) clear, its reset value.  Machine integers are [Z] with explicit
    wrap-around.

    ** Not modelled

    Debug output, preemption control, cache flushes, locks (functions are
    modelled as they run under their lock; only the byte queues are modelled
    with interleavings), pipeline hazards and timing of the processor; the
    arguments of the report printed for an enabled exception (the log records
    the operation and the result type).  The correct rounding of double
    precision [sqrt] is not proved; its termination, special cases and control
    register handling are.  The TLB handlers of the other configurations (64-bit
    kernels, other page sizes, 64-bit physical addresses on 64-bit registers or
    with SMP) are synthesized and shown to fit, but not executed.  The arrays of
    labels and relocations of the synthesizer are lists without a bound.  Of the timers: sleeping, which needs
    the scheduler, [next_timer_interrupt], the clocks and the system calls.
    The rest of the kernel, the C library and the user programs are outside
    the development: they are either drivers and glue, or code over the shared
    state of the whole kernel. *)

From Stdlib Require Export ZArith Lia Bool List String.
Export ListNotations.
#[global] Open Scope Z_scope.

(** ** Machine integers

    A [w]-bit unsigned value is a [Z] in [0 .. 2^w).  C assignments to an
    unsigned variable reduce modulo [2^w]; conversions to a signed type pick
    the representative in [-2^(w-1) .. 2^(w-1)). *)

Definition wrap (w x : Z) : Z := x mod 2 ^ w.

Definition swrap (w x : Z) : Z :=
  let u := x mod 2 ^ w in if u <? 2 ^ (w - 1) then u else u - 2 ^ w.

(** C's [x << k] on a [w]-bit unsigned operand. *)
Definition shl (w x k : Z) : Z := wrap w (Z.shiftl x k).

(** C's truth value of an integer, and of a comparison used as an integer. *)
Definition tst (x : Z) : bool := negb (x =? 0).
Definition b2z (b : bool) : Z := if b then 1 else 0.

(** ** Loops

    [while fuel c b s] runs [while (c s) s = b s]; [None] means that [fuel]
    iterations were not enough, so every theorem that exhibits [Some] is also
    a termination theorem. *)
Fixpoint while {S : Type} (fuel : nat) (c : S -> bool) (b : S -> S) (s : S)
  : option S :=
  if c s then
    match fuel with
    | O => None
    | Datatypes.S n => while n c b (b s)
    end
  else Some s.

(** ** A state monad with failure

    Code that reads and writes the floating point control register is written
    in this monad; [None] is a loop that exhausted its bound. *)
Definition ST (S A : Type) : Type := S -> option (A * S).

Definition ret {S A} (a : A) : ST S A := fun s => Some (a, s).
Definition bind {S A B} (m : ST S A) (k : A -> ST S B) : ST S B :=
  fun s => match m s with Some (a, s') => k a s' | None => None end.
Definition gets {S A} (f : S -> A) : ST S A := fun s => Some (f s, s).
Definition modify {S} (f : S -> S) : ST S unit := fun s => Some (tt, f s).
Definition lift {S A} (o : option A) : ST S A :=
  fun s => match o with Some a => Some (a, s) | None => None end.
Definition when {S} (b : bool) (m : ST S unit) : ST S unit :=
  if b then m else ret tt.

Declare Scope st_scope.
Delimit Scope st_scope with st.
Notation "x <- m ;; k" := (bind m (fun x => k))
  (at level 62, m at next level, right associativity) : st_scope.
Notation "' p <- m ;; k" := (bind m (fun x => match x with p => k end))
  (at level 62, p pattern, m at next level, right associativity) : st_scope.
Notation "m ;;; k" := (bind m (fun _ => k))
  (at level 62, right associativity) : st_scope.
#[global] Open Scope st_scope.

(** Equations of the monad, collected for [autorewrite with st]. *)
Section MonadLaws.
Context {S A B C : Type}.

Lemma run_ret (a : A) (s : S) : ret a s = Some (a, s).
Proof. reflexivity. Qed.

Lemma run_bind_some (m : ST S A) (k : A -> ST S B) s a s' :
  m s = Some (a, s') -> bind m k s = k a s'.
Proof. intros H; unfold bind; now rewrite H. Qed.

Lemma run_gets (f : S -> A) (s : S) : gets f s = Some (f s, s).
Proof. reflexivity. Qed.

Lemma run_modify (f : S -> S) (s : S) : modify f s = Some (tt, f s).
Proof. reflexivity. Qed.

Lemma run_bind_ret (a : A) (k : A -> ST S B) s : bind (ret a) k s = k a s.
Proof. reflexivity. Qed.

Lemma run_bind_gets (f : S -> A) (k : A -> ST S B) s :
  bind (gets f) k s = k (f s) s.
Proof. reflexivity. Qed.

Lemma run_bind_modify (f : S -> S) (k : unit -> ST S B) s :
  bind (modify f) k s = k tt (f s).
Proof. reflexivity. Qed.

Lemma run_bind_lift (a : A) (k : A -> ST S B) s :
  bind (lift (Some a)) k s = k a s.
Proof. reflexivity. Qed.

Lemma run_bind_bind (m : ST S A) (k : A -> ST S B) (h : B -> ST S C) s :
  bind (bind m k) h s = bind m (fun a => bind (k a) h) s.
Proof. unfold bind; destruct (m s) as [[? ?]|]; reflexivity. Qed.
End MonadLaws.

Create HintDb st.
Create Rewrite HintDb st.
#[export] Hint Rewrite @run_bind_ret @run_bind_gets @run_bind_modify
  @run_bind_lift @run_bind_bind @run_ret @run_gets @run_modify : st.

(** ** Automation *)

(** Turn boolean comparisons in the context into propositions. *)
Ltac zbool_step :=
  match goal with
  | H : (_ =? _) = true |- _ => apply Z.eqb_eq in H
  | H : (_ =? _) = false |- _ => apply Z.eqb_neq in H
  | H : (_ <? _) = true |- _ => apply Z.ltb_lt in H
  | H : (_ <? _) = false |- _ => apply Z.ltb_ge in H
  | H : (_ <=? _) = true |- _ => apply Z.leb_le in H
  | H : (_ <=? _) = false |- _ => apply Z.leb_gt in H
  | H : (_ >? _) = true |- _ => apply Z.gtb_lt in H
  | H : (_ >? _) = false |- _ => rewrite Z.gtb_ltb in H; apply Z.ltb_ge in H
  | H : (_ >=? _) = true |- _ => rewrite Z.geb_leb in H; apply Z.leb_le in H
  | H : (_ >=? _) = false |- _ => rewrite Z.geb_leb in H; apply Z.leb_gt in H
  | H : negb _ = true |- _ => apply negb_true_iff in H
  | H : negb _ = false |- _ => apply negb_false_iff in H
  | H : (_ && _) = true |- _ => apply andb_prop in H; destruct H
  | H : (_ || _) = false |- _ => apply orb_false_elim in H; destruct H
  | H : tst _ = true |- _ => unfold tst in H
  | H : tst _ = false |- _ => unfold tst in H
  end.
Ltac zbool := repeat zbool_step.

(** Case analysis on the first [if] of the goal. *)
Ltac case_if :=
  match goal with
  | |- context [if ?b then _ else _] => destruct b eqn:?; zbool
  end.

(** Closed conjunctions of comparisons and computations. *)
Ltac closed := repeat split; vm_compute; (reflexivity || discriminate).

(** Nonlinear goals about quotients and remainders. *)
Ltac divmod := Z.div_mod_to_equations; nia.

(** ** Powers of two *)

Lemma pow2_pos n : 0 <= n -> 0 < 2 ^ n.
Proof. intros; now apply Z.pow_pos_nonneg. Qed.
#[export] Hint Resolve pow2_pos : st.

Lemma pow2_split a b n : 0 <= a -> 0 <= b -> n = a + b -> 2 ^ n = 2 ^ a * 2 ^ b.
Proof. intros ? ? ->; now apply Z.pow_add_r. Qed.

Lemma pow2_le a b : 0 <= a <= b -> 2 ^ a <= 2 ^ b.
Proof. intros; apply Z.pow_le_mono_r; lia. Qed.

Lemma pow2_lt a b : 0 <= a < b -> 2 ^ a < 2 ^ b.
Proof. intros; apply Z.pow_lt_mono_r; lia. Qed.

Lemma wrap_small w x : 0 <= x < 2 ^ w -> wrap w x = x.
Proof. apply Z.mod_small. Qed.

Lemma wrap_range w x : 0 <= w -> 0 <= wrap w x < 2 ^ w.
Proof. intros; apply Z.mod_pos_bound, pow2_pos; lia. Qed.
Lemma swrap_small n z : 1 <= n -> - 2 ^ (n - 1) <= z < 2 ^ (n - 1) -> swrap n z = z.
Proof.
  intros Hn Hz; unfold swrap; assert (E : 2 ^ n = 2 * 2 ^ (n - 1)) by (apply (pow2_split 1); lia).
  destruct (Z.le_gt_cases 0 z).
  - rewrite Z.mod_small by lia; destruct (Z.ltb_spec z (2 ^ (n - 1))); lia.
  - replace (z mod 2 ^ n) with (z + 2 ^ n) by (apply (Z.mod_unique _ _ (-1)); lia).
    destruct (Z.ltb_spec (z + 2 ^ n) (2 ^ (n - 1))); lia.
Qed.

Lemma shl_small w x k : 0 <= k -> 0 <= x * 2 ^ k < 2 ^ w -> shl w x k = x * 2 ^ k.
Proof. intros; unfold shl; rewrite Z.shiftl_mul_pow2 by lia; now apply wrap_small. Qed.

Lemma shiftr_div x k : 0 <= k -> Z.shiftr x k = x / 2 ^ k.
Proof. intros; now apply Z.shiftr_div_pow2. Qed.

Lemma div_zero_iff a b : 0 <= a -> 0 < b -> (a / b = 0 <-> a < b).
Proof. intros; split; intros; divmod. Qed.

(** [m >> k] is nonzero exactly from [2^k] on. *)
Lemma tst_shiftr m k : 0 <= m -> 0 <= k -> tst (Z.shiftr m k) = (2 ^ k <=? m).
Proof.
  intros Hm Hk; unfold tst; rewrite shiftr_div by lia.
  pose proof (pow2_pos k Hk) as Hp; pose proof (div_zero_iff m (2 ^ k) Hm Hp).
  destruct (Z.leb_spec (2 ^ k) m); destruct (Z.eqb_spec (m / 2 ^ k) 0); cbn; lia.
Qed.

(** Masking with [2^k - 1] is reduction modulo [2^k]. *)
Lemma land_mask m k : 0 <= k -> Z.land m (2 ^ k - 1) = m mod 2 ^ k.
Proof. intros; rewrite <- Z.land_ones by lia; f_equal; rewrite Z.ones_equiv; lia. Qed.

Lemma land_1 m : Z.land m 1 = m mod 2.
Proof. exact (land_mask m 1 ltac:(lia)). Qed.

(** Testing bit [k] with a one-bit mask. *)
Lemma land_bit m k : 0 <= k -> Z.land m (2 ^ k) = if Z.testbit m k then 2 ^ k else 0.
Proof.
  intros Hk; apply Z.bits_inj'; intros i Hi.
  rewrite Z.land_spec, Z.pow2_bits_eqb by lia.
  destruct (Z.eqb_spec k i) as [->|Hne].
  - destruct (Z.testbit m i) eqn:E; cbn; [now rewrite Z.pow2_bits_true|now rewrite Z.bits_0].
  - rewrite andb_false_r; destruct (Z.testbit m k);
      [now rewrite Z.pow2_bits_false|now rewrite Z.bits_0].
Qed.

Lemma tst_land_bit m k : 0 <= k -> tst (Z.land m (2 ^ k)) = Z.testbit m k.
Proof.
  intros Hk; rewrite land_bit by lia; pose proof (pow2_pos k Hk).
  destruct (Z.testbit m k); unfold tst; cbn; [|reflexivity].
  destruct (Z.eqb_spec (2 ^ k) 0); [lia|reflexivity].
Qed.

(** A bit below which the number is bounded reads as a comparison. *)
Lemma testbit_top m k : 0 <= k -> 0 <= m < 2 ^ (k + 1) -> Z.testbit m k = (2 ^ k <=? m).
Proof.
  intros Hk Hm; rewrite Z.pow_add_r in Hm by lia; pose proof (pow2_pos k Hk).
  rewrite Z.testbit_eqb by lia.
  destruct (Z.leb_spec (2 ^ k) m).
  - replace (m / 2 ^ k) with 1 by divmod; reflexivity.
  - rewrite Z.div_small by lia; reflexivity.
Qed.

(** Setting and clearing a bit arithmetically. *)
Lemma lor_bit_add m k : 0 <= k -> 0 <= m < 2 ^ k -> Z.lor m (2 ^ k) = m + 2 ^ k.
Proof.
  intros Hk Hm; rewrite <- Z.lxor_lor, Z.add_nocarry_lxor; try reflexivity;
    rewrite land_bit by lia; rewrite testbit_top by (try rewrite Z.pow_add_r; lia);
    destruct (Z.leb_spec (2 ^ k) m); lia.
Qed.

Lemma land_lnot_bit m k :
  0 <= k -> Z.land m (Z.lnot (2 ^ k)) = m - (if Z.testbit m k then 2 ^ k else 0).
Proof.
  intros Hk; rewrite <- land_bit, <- Z.ldiff_land by lia.
  rewrite Z.sub_nocarry_ldiff.
  - apply Z.bits_inj'; intros i Hi; rewrite !Z.ldiff_spec, Z.land_spec.
    now destruct (Z.testbit m i), (Z.testbit (2 ^ k) i).
  - apply Z.bits_inj'; intros i Hi; rewrite Z.ldiff_spec, Z.land_spec, Z.bits_0.
    now destruct (Z.testbit m i), (Z.testbit (2 ^ k) i).
Qed.

Lemma lor_1 m : 0 <= m -> Z.lor m 1 = 2 * (m / 2) + 1.
Proof.
  intros Hm; apply Z.bits_inj'; intros i Hi.
  rewrite Z.lor_spec; destruct (Z.eqb_spec i 0) as [->|Hn].
  - rewrite Z.testbit_odd_0, orb_true_r; reflexivity.
  - replace i with (Z.succ (i - 1)) by lia.
    rewrite Z.testbit_odd_succ by lia.
    rewrite <- Z.div2_div, Z.div2_spec, Z.shiftr_spec by lia.
    replace (i - 1 + 1) with (Z.succ (i - 1)) by lia.
    rewrite (Z.bits_above_log2 1) by (cbn; lia). apply orb_false_r.
Qed.

Lemma lor_b2z m b : 0 <= m -> Z.lor m (b2z b) = if b then 2 * (m / 2) + 1 else m.
Proof. intros; destruct b; cbn; [now apply lor_1|apply Z.lor_0_r]. Qed.

(** Concatenation: a number below [2^k] or-ed into a multiple of [2^k]. *)
Lemma lor_concat a b k : 0 <= k -> 0 <= b < 2 ^ k -> Z.lor (a * 2 ^ k) b = a * 2 ^ k + b.
Proof.
  intros Hk Hb.
  assert (L : Z.land (a * 2 ^ k) b = 0).
  { apply Z.bits_inj'; intros i Hi; rewrite Z.land_spec, Z.bits_0.
    destruct (Z.lt_ge_cases i k); [rewrite Z.mul_pow2_bits_low by lia; reflexivity|].
    destruct (Z.eq_dec b 0) as [->|]; [rewrite Z.bits_0; apply andb_false_r|].
    rewrite (Z.bits_above_log2 b); [apply andb_false_r|lia|].
    apply Z.lt_le_trans with k; [apply Z.log2_lt_pow2|]; lia. }
  rewrite <- Z.lxor_lor by exact L; symmetry; apply Z.add_nocarry_lxor; exact L.
Qed.

(** ** Widths of bitwise combinations *)

Lemma testbit_high a n i : 0 <= a < 2 ^ n -> n <= i -> Z.testbit a i = false.
Proof.
  intros Ha Hi; destruct (Z.lt_ge_cases i 0); [now apply Z.testbit_neg_r|].
  rewrite Z.testbit_eqb by lia.
  rewrite Z.div_small; [reflexivity|]; split; [lia|].
  apply Z.lt_le_trans with (2 ^ n); [lia|apply Z.pow_le_mono_r; lia].
Qed.

Lemma bits_range a n : 0 <= n -> 0 <= a -> (forall i, n <= i -> Z.testbit a i = false) -> 0 <= a < 2 ^ n.
Proof.
  intros Hn Ha H; split; [exact Ha|]; apply Z.nle_gt; intros K; pose proof (pow2_pos n Hn).
  assert (L : n <= Z.log2 a) by (apply Z.log2_le_pow2; lia).
  specialize (H _ L); rewrite Z.bit_log2 in H by lia; discriminate.
Qed.

Lemma land_range a b n : 0 <= n -> 0 <= a < 2 ^ n -> 0 <= Z.land a b < 2 ^ n.
Proof.
  intros Hn Ha; apply bits_range; [lia|apply Z.land_nonneg; lia|].
  intros i Hi; rewrite Z.land_spec, (testbit_high a n) by lia; reflexivity.
Qed.

Lemma lor_range a b n : 0 <= n -> 0 <= a < 2 ^ n -> 0 <= b < 2 ^ n -> 0 <= Z.lor a b < 2 ^ n.
Proof.
  intros Hn Ha Hb; apply bits_range; [lia|apply Z.lor_nonneg; lia|].
  intros i Hi; rewrite Z.lor_spec, (testbit_high a n), (testbit_high b n) by lia; reflexivity.
Qed.

(** ** Loop lemmas *)

Section While.
Context {S : Type} (c : S -> bool) (b : S -> S).

Lemma while_stop n s : c s = false -> while n c b s = Some s.
Proof. destruct n; cbn; intros ->; reflexivity. Qed.

Lemma while_step n s : c s = true -> while (Datatypes.S n) c b s = while n c b (b s).
Proof. cbn; intros ->; reflexivity. Qed.

(** Hoare rule with a variant: an invariant kept by the body and a measure
    that decreases and stays below the fuel give termination in a state
    that satisfies the invariant and falsifies the condition. *)
Lemma while_rule (I : S -> Prop) (mu : S -> Z) n s :
  I s -> mu s <= Z.of_nat n ->
  (forall t, I t -> c t = true -> I (b t) /\ 0 <= mu (b t) < mu t) ->
  exists t, while n c b s = Some t /\ I t /\ c t = false.
Proof.
  revert s; induction n as [|n IH]; intros s Hs Hmu Hstep.
  - destruct (c s) eqn:E; [destruct (Hstep s Hs E); lia|].
    exists s; cbn; rewrite E; auto.
  - destruct (c s) eqn:E.
    + destruct (Hstep s Hs E) as [Hb Hd].
      destruct (IH (b s)) as (t & Ht & HI & Hc); [auto|lia|auto|].
      exists t; cbn; rewrite E; auto.
    + exists s; cbn; rewrite E; auto.
Qed.
End While.
