(* ===== verification/Rounding.v ===== *)
(** * Correct rounding: the abstract specification

    A floating point format is the set of reals [m * 2^e] with an integer
    significand of at most [p] bits and an exponent that is either bounded
    below (gradual underflow) or free.  [Rnd] says, without any algorithm,
    what it means for [z] to be the correctly rounded value of a real [v] in
    each of the four rounding modes; [Rnd_unique] shows that it determines
    [z].  [Sticky] relates a real to an integer that carries a sticky bit,
    and [round_sticky] is the one lemma from which every operation of the
    emulator gets its rounding: rounding the integer off its three low bits
    rounds the real. *)

From Stdlib Require Export Rbase Rfunctions Rbasic_fun.
From Stdlib Require Export Lra.
From S2P Require Import Prelude.

(** The four rounding modes, in the order of their two-bit encoding. *)
Inductive rmode := RN | RZ | RD | RU.

(** ** Powers of two in the reals *)

Definition bpow (e : Z) : R := powerRZ 2 e.

Lemma bpow_pos e : (0 < bpow e)%R.
Proof. apply powerRZ_lt; lra. Qed.
#[export] Hint Resolve bpow_pos : st.

Lemma bpow_plus a b : bpow (a + b) = (bpow a * bpow b)%R.
Proof. apply powerRZ_add; lra. Qed.

Lemma bpow_Z n : 0 <= n -> bpow n = IZR (2 ^ n).
Proof.
  intros Hn; unfold bpow; rewrite <- (Z2Nat.id n Hn), <- pow_powerRZ, pow_IZR.
  f_equal; f_equal; lia.
Qed.

Lemma bpow_0 : bpow 0 = 1%R.
Proof. reflexivity. Qed.

Lemma bpow_shift m e k : 0 <= k -> (IZR m * bpow (e + k))%R = (IZR (m * 2 ^ k) * bpow e)%R.
Proof. intros; rewrite bpow_plus, (bpow_Z k), mult_IZR by lia; ring. Qed.

Lemma bpow_le a b : a <= b -> (bpow a <= bpow b)%R.
Proof.
  intros; replace b with (a + (b - a)) by lia; rewrite bpow_plus, (bpow_Z (b - a)) by lia.
  assert (1 <= IZR (2 ^ (b - a)))%R
    by (apply IZR_le; pose proof (pow2_pos (b - a)); lia).
  pose proof (bpow_pos a); nra.
Qed.

Lemma bpow_lt a b : a < b -> (bpow a < bpow b)%R.
Proof.
  intros; apply Rlt_le_trans with (bpow (a + 1)); [|apply bpow_le; lia].
  rewrite bpow_plus, (bpow_Z 1) by lia; pose proof (bpow_pos a); cbn; lra.
Qed.

Lemma bpow_opp a : (bpow a * bpow (- a))%R = 1%R.
Proof. rewrite <- bpow_plus, Z.add_opp_diag_r; reflexivity. Qed.

(** Comparing two multiples of one power of two is comparing integers. *)
Lemma scaled_le a b e : (IZR a * bpow e <= IZR b * bpow e)%R <-> a <= b.
Proof.
  pose proof (bpow_pos e); split; intros.
  - apply le_IZR; nra.
  - apply IZR_le in H0; nra.
Qed.

Lemma scaled_lt a b e : (IZR a * bpow e < IZR b * bpow e)%R <-> a < b.
Proof.
  pose proof (bpow_pos e); split; intros.
  - apply lt_IZR; nra.
  - apply IZR_lt in H0; nra.
Qed.

(** The sign of a number as a factor. *)
Definition sgn (s : bool) : R := if s then (-1)%R else 1%R.

Lemma sgn_xorb a b : sgn (xorb a b) = (sgn a * sgn b)%R.
Proof. destruct a, b; cbn; lra. Qed.

Lemma sgn_sqr a : (sgn a * sgn a)%R = 1%R.
Proof. destruct a; cbn; lra. Qed.

(** ** Formats *)

(** [lo] is the least exponent, [None] for an unbounded exponent range. *)
Definition exp_ok (lo : option Z) (e : Z) : Prop :=
  match lo with Some k => k <= e | None => True end.

Lemma exp_ok_mono lo a b : exp_ok lo a -> a <= b -> exp_ok lo b.
Proof. destruct lo; cbn; lia. Qed.

Section Format.
Variables (lo : option Z) (p : Z).
Hypothesis p_pos : 1 <= p.

Definition InFmt (r : R) : Prop :=
  exists m e, r = (IZR m * bpow e)%R /\ Z.abs m < 2 ^ p /\ exp_ok lo e.

(** Numbers whose significand can be taken even. *)
Definition EvenFmt (r : R) : Prop :=
  exists m e, r = (IZR (2 * m) * bpow e)%R /\ Z.abs (2 * m) < 2 ^ p /\ exp_ok lo e.

(** [z] is the largest number of the format below [v], the least above. *)
Definition IsDown (v z : R) : Prop :=
  InFmt z /\ (z <= v)%R /\ forall g, InFmt g -> (g <= v)%R -> (g <= z)%R.
Definition IsUp (v z : R) : Prop :=
  InFmt z /\ (v <= z)%R /\ forall g, InFmt g -> (v <= g)%R -> (z <= g)%R.
Definition IsZero (v z : R) : Prop :=
  InFmt z /\ (Rabs z <= Rabs v)%R /\ (0 <= z * v)%R /\
  forall g, InFmt g -> (Rabs g <= Rabs v)%R -> (Rabs g <= Rabs z)%R.
(** [z] is a nearest number of the format, and in case of a tie the even one. *)
Definition IsNear (v z : R) : Prop :=
  InFmt z /\ (forall g, InFmt g -> (Rabs (z - v) <= Rabs (g - v))%R) /\
  forall g, InFmt g -> g <> z -> Rabs (g - v) = Rabs (z - v) -> EvenFmt z.

Definition Rnd (rm : rmode) : R -> R -> Prop :=
  match rm with RN => IsNear | RZ => IsZero | RD => IsDown | RU => IsUp end.

Lemma InFmt_opp r : InFmt r -> InFmt (- r).
Proof.
  intros (m & e & -> & Hm & He); exists (- m), e.
  rewrite opp_IZR; repeat split; [lra|lia|auto].
Qed.

Lemma EvenFmt_opp r : EvenFmt r -> EvenFmt (- r).
Proof.
  intros (m & e & -> & Hm & He); exists (- m), e.
  rewrite !mult_IZR, opp_IZR; repeat split; [lra|lia|auto].
Qed.

Lemma InFmt_scaled m e : Z.abs m < 2 ^ p -> exp_ok lo e -> InFmt (IZR m * bpow e).
Proof. intros; exists m, e; auto. Qed.

(** A significand of exactly [2^p] is still in the format. *)
Lemma InFmt_pow m e : Z.abs m <= 2 ^ p -> exp_ok lo e -> InFmt (IZR m * bpow e).
Proof.
  intros Hm He; destruct (Z.eq_dec (Z.abs m) (2 ^ p)) as [E|]; [|apply InFmt_scaled; auto; lia].
  assert (Hs : exists s, (s = 1 \/ s = -1) /\ m = s * 2 ^ p)
    by (destruct (Z.abs_spec m) as [[? ?]|[? ?]]; [exists 1|exists (-1)]; lia).
  destruct Hs as (s & Hs & ->); rewrite <- bpow_shift by lia.
  apply InFmt_scaled; [|apply exp_ok_mono with e; auto; lia].
  pose proof (pow2_le 1 p); lia.
Qed.

Lemma InFmt_bpow e : exp_ok lo e -> InFmt (bpow e).
Proof.
  intros; replace (bpow e) with (IZR 1 * bpow e)%R by lra.
  apply InFmt_scaled; auto; pose proof (pow2_le 1 p); lia.
Qed.

(** Strictly between two even numbers lies another number of the format. *)
Lemma even_between z1 z2 :
  EvenFmt z1 -> EvenFmt z2 -> (z1 < z2)%R ->
  exists g, InFmt g /\ (z1 < g < z2)%R.
Proof.
  intros (a & i & -> & Ha & Hi) (b & j & -> & Hb & Hj) Hlt.
  assert (Hev : 2 ^ p = 2 * 2 ^ (p - 1)) by (apply (pow2_split 1); lia).
  destruct (Z.le_gt_cases i j) as [Hij|Hij].
  - exists (IZR (2 * a + 1) * bpow i)%R; split; [apply InFmt_scaled; auto; lia|].
    replace j with (i + (j - i)) in * by lia; rewrite bpow_shift in * by lia.
    rewrite scaled_lt in Hlt; split; apply scaled_lt; [lia|].
    assert (2 * (b * 2 ^ (j - i) - a) > 0) by nia. nia.
  - exists (IZR (2 * b - 1) * bpow j)%R; split; [apply InFmt_scaled; auto; lia|].
    replace i with (j + (i - j)) in * by lia; rewrite bpow_shift in * by lia.
    rewrite scaled_lt in Hlt; split; apply scaled_lt; [|lia].
    assert (2 * (b - a * 2 ^ (i - j)) > 0) by nia. nia.
Qed.

Lemma near_unique v z1 z2 : IsNear v z1 -> IsNear v z2 -> z1 = z2.
Proof.
  intros (F1 & N1 & T1) (F2 & N2 & T2).
  assert (D : Rabs (z1 - v) = Rabs (z2 - v)) by (apply Rle_antisym; auto).
  destruct (Req_dec z1 z2) as [|Hne]; [assumption|exfalso].
  assert (E1 : EvenFmt z1) by (apply (T1 z2); auto).
  assert (E2 : EvenFmt z2) by (apply (T2 z1); auto).
  destruct (Rtotal_order z1 z2) as [H|[H|H]]; [|contradiction|].
  - destruct (even_between z1 z2 E1 E2 H) as (g & Hg & Hb).
    specialize (N1 g Hg); revert N1 D; unfold Rabs; repeat destruct Rcase_abs; lra.
  - destruct (even_between z2 z1 E2 E1 H) as (g & Hg & Hb).
    specialize (N1 g Hg); revert N1 D; unfold Rabs; repeat destruct Rcase_abs; lra.
Qed.

(** The specification determines the result. *)
Lemma Rnd_unique rm v z1 z2 : Rnd rm v z1 -> Rnd rm v z2 -> z1 = z2.
Proof.
  destruct rm; cbn; [apply near_unique| | |].
  - intros (F1 & L1 & S1 & M1) (F2 & L2 & S2 & M2).
    assert (A : Rabs z1 = Rabs z2) by (apply Rle_antisym; auto).
    revert A L1 L2; unfold Rabs; repeat destruct Rcase_abs; intros; try nra.
  - intros (F1 & L1 & M1) (F2 & L2 & M2); apply Rle_antisym; auto.
  - intros (F1 & L1 & M1) (F2 & L2 & M2); apply Rle_antisym; auto.
Qed.

(** Numbers of the format round to themselves. *)
Lemma Rnd_self rm v : InFmt v -> Rnd rm v v.
Proof.
  intros H; destruct rm; cbn; repeat split; auto; try lra; try nra.
  - intros; replace (v - v)%R with 0%R by lra; rewrite Rabs_R0; apply Rabs_pos.
  - intros g _ Hne E; replace (v - v)%R with 0%R in E by lra; rewrite Rabs_R0 in E.
    exfalso; apply Hne; revert E; unfold Rabs; destruct Rcase_abs; lra.
Qed.

(** ** From neighbours to all modes *)

Lemma down_opp v z : IsDown v z -> IsUp (- v) (- z).
Proof.
  intros (F & L & M); repeat split; [now apply InFmt_opp|lra|].
  intros g Hg H; enough (- g <= z)%R by lra; apply M; [now apply InFmt_opp|lra].
Qed.

Lemma up_opp v z : IsUp v z -> IsDown (- v) (- z).
Proof.
  intros (F & L & M); repeat split; [now apply InFmt_opp|lra|].
  intros g Hg H; enough (z <= - g)%R by lra; apply M; [now apply InFmt_opp|lra].
Qed.

Lemma zero_opp v z : IsZero v z -> IsZero (- v) (- z).
Proof.
  intros (F & L & S & M); repeat split; [now apply InFmt_opp|..].
  - now rewrite !Rabs_Ropp.
  - lra.
  - intros g Hg; rewrite !Rabs_Ropp; apply M; auto.
Qed.

Lemma near_opp v z : IsNear v z -> IsNear (- v) (- z).
Proof.
  intros (F & N & T).
  assert (E : forall a, Rabs (- a - - v) = Rabs (a - v))
    by (intros; rewrite <- Rabs_Ropp; f_equal; lra).
  assert (E' : forall g, Rabs (g - - v) = Rabs (- g - v))
    by (intros; rewrite <- Rabs_Ropp; f_equal; lra).
  split; [|split]; [now apply InFmt_opp| |].
  - intros g Hg; rewrite E, E'; apply N; now apply InFmt_opp.
  - intros g Hg Hne H; apply EvenFmt_opp; rewrite E, E' in H.
    apply (T (- g)%R); auto; [now apply InFmt_opp|intros K; apply Hne; lra].
Qed.

Lemma Rnd_opp rm v z :
  Rnd rm v z ->
  Rnd (match rm with RD => RU | RU => RD | m => m end) (- v) (- z).
Proof. destruct rm; cbn; auto using down_opp, up_opp, zero_opp, near_opp. Qed.

Lemma down_zero v z : (0 <= v)%R -> IsDown v z -> IsZero v z.
Proof.
  intros Hv (F & L & M).
  assert (Hz : (0 <= z)%R).
  { replace 0%R with (IZR 0 * bpow 0)%R by lra; apply M; [|lra].
    destruct F as (m & e & _ & _ & He); exists 0, e.
    repeat split; auto; [lra|apply pow2_pos; lia]. }
  repeat split; auto; [rewrite !Rabs_pos_eq by lra; lra|nra|].
  intros g Hg Hle; rewrite (Rabs_pos_eq z), (Rabs_pos_eq v) in * by lra.
  apply M; auto; unfold Rabs in *; destruct Rcase_abs; [now apply InFmt_opp|auto].
Qed.

(** Rounding to nearest picks the closer neighbour, the even one on a tie. *)
Lemma near_of_neighbours v d u z :
  IsDown v d -> IsUp v u ->
  (z = d /\ (v - d < u - v)%R \/ z = u /\ (u - v < v - d)%R \/
   (z = d \/ z = u) /\ (v - d = u - v)%R /\ EvenFmt z \/ z = v /\ d = u) ->
  IsNear v z.
Proof.
  intros (Fd & Ld & Md) (Fu & Lu & Mu) Hz.
  assert (G : forall g, InFmt g -> (g <= d)%R \/ (u <= g)%R)
    by (intros g Hg; destruct (Rle_or_lt g v); [left; auto|right; apply Mu; auto; lra]).
  assert (Fz : InFmt z).
  { destruct Hz as [[-> _]|[[-> _]|[[[->| ->] _]|[-> E]]]]; auto.
    replace v with d by lra; auto. }
  split; [|split]; auto; intros g Hg.
  - destruct (G g Hg); unfold Rabs; repeat destruct Rcase_abs; lra.
  - intros Hne HD; destruct Hz as [[-> H]|[[-> H]|[[H [H' E]]|[-> E]]]]; auto; exfalso;
      destruct (G g Hg); revert HD; unfold Rabs; repeat destruct Rcase_abs; intros; lra.
Qed.
End Format.

(** A value rounded with an unbounded exponent range is also rounded in the
    bounded format when it lies there. *)
Lemma Rnd_restrict k p rm v z :
  Rnd None p rm v z -> InFmt (Some k) p z -> EvenFmt (Some k) p z -> Rnd (Some k) p rm v z.
Proof.
  intros H F E.
  assert (Sub : forall g, InFmt (Some k) p g -> InFmt None p g)
    by (intros g (m & e & -> & Hm & _); exists m, e; cbn; auto).
  destruct rm; cbn in *; unfold IsNear, IsZero, IsDown, IsUp in *; intuition auto.
Qed.

Arguments Rnd_unique {lo p} _ {rm v z1 z2}.

(** ** Sticky integers

    [Sticky n u m]: the integer [m] compares with every multiple of [2^n] as
    the real [u] does.  An exact value is sticky for every [n]; dropping bits
    while or-ing them into the last one keeps [n >= 1]; doubling costs one. *)
Definition Sticky (n : Z) (u : R) (m : Z) : Prop :=
  forall k, ((IZR (2 ^ n * k) <= u)%R <-> 2 ^ n * k <= m) /\
            ((u <= IZR (2 ^ n * k))%R <-> m <= 2 ^ n * k).

Lemma sticky_exact n m : Sticky n (IZR m) m.
Proof. intros k; split; split; intros; first [now apply le_IZR|now apply IZR_le]. Qed.

Lemma sticky_weaken n n' u m : 0 <= n <= n' -> Sticky n u m -> Sticky n' u m.
Proof.
  intros Hn H k; replace (2 ^ n' * k) with (2 ^ n * (2 ^ (n' - n) * k)); [apply H|].
  rewrite (pow2_split n (n' - n) n') by lia; ring.
Qed.

Lemma sticky_shift n u m a : Sticky n u m -> Sticky n (u + IZR (2 ^ n * a)) (m + 2 ^ n * a).
Proof.
  intros H k; destruct (H (k - a)) as [H1 H2].
  rewrite Z.mul_sub_distr_l, minus_IZR in H1, H2.
  split; [rewrite <- Z.le_sub_le_add_r, <- H1|rewrite <- Z.le_add_le_sub_r in H2; rewrite <- H2];
    split; lra.
Qed.

Lemma sticky_opp n u m : Sticky n u m -> Sticky n (- u) (- m).
Proof.
  intros H k; destruct (H (- k)) as [H1 H2].
  rewrite Z.mul_opp_r, opp_IZR in H1, H2.
  split; split; intros.
  - enough (m <= - (2 ^ n * k)) by lia; apply H2; lra.
  - enough (u <= - IZR (2 ^ n * k))%R by lra; apply H2; lia.
  - enough (- (2 ^ n * k) <= m) by lia; apply H1; lra.
  - enough (- IZR (2 ^ n * k) <= u)%R by lra; apply H1; lia.
Qed.

Lemma sticky_double n u m : 0 <= n -> Sticky n u m -> Sticky (n + 1) (2 * u) (2 * m).
Proof.
  intros Hn H k; destruct (H k) as [H1 H2].
  rewrite (pow2_split n 1) by lia; change (2 ^ 1) with 2.
  replace (2 ^ n * 2 * k) with (2 * (2 ^ n * k)) by ring; rewrite mult_IZR.
  split; split; intros.
  - enough (2 ^ n * k <= m) by lia; apply H1; lra.
  - enough (IZR (2 ^ n * k) <= u)%R by lra; apply H1; lia.
  - enough (m <= 2 ^ n * k) by lia; apply H2; lra.
  - enough (u <= IZR (2 ^ n * k))%R by lra; apply H2; lia.
Qed.

(** Sticky right shift: drop [s] bits, keep a one in the last place when one
    of them was set. *)
Definition srs (m s : Z) : Z := Z.lor (m / 2 ^ s) (b2z (tst (m mod 2 ^ s))).

Lemma srs_cmp m s k : 0 <= m -> 0 <= s ->
  (2 * k <= srs m s <-> 2 * k * 2 ^ s <= m) /\ (srs m s <= 2 * k <-> m <= 2 * k * 2 ^ s).
Proof.
  intros Hm Hs; pose proof (pow2_pos s Hs) as Hp; unfold srs, tst.
  rewrite lor_b2z by (apply Z.div_pos; lia).
  pose proof (Z.div_mod m (2 ^ s)) as E; pose proof (Z.mod_pos_bound m (2 ^ s) Hp).
  set (q := m / 2 ^ s) in *; set (r := m mod 2 ^ s) in *; clearbody q r.
  destruct (Z.eqb_spec r 0); cbn [negb]; [nia|].
  assert (Hq : q = 2 * (q / 2) \/ q = 2 * (q / 2) + 1) by divmod.
  set (h := q / 2) in *; clearbody h. nia.
Qed.

Lemma srs_nonneg m s : 0 <= m -> 0 <= s -> 0 <= srs m s.
Proof. intros; destruct (srs_cmp m s 0) as [[_ H1] _]; auto; apply H1; lia. Qed.

Lemma sticky_srs n u m s :
  1 <= n -> 0 <= m -> 0 <= s -> Sticky n u m -> Sticky n (u * bpow (- s)) (srs m s).
Proof.
  intros Hn Hm Hs H k.
  replace (2 ^ n * k) with (2 * (2 ^ (n - 1) * k))
    by (rewrite (pow2_split 1 (n - 1) n) by lia; change (2 ^ 1) with 2; ring).
  destruct (srs_cmp m s (2 ^ (n - 1) * k)) as [C1 C2]; auto; rewrite C1, C2.
  replace (2 * (2 ^ (n - 1) * k) * 2 ^ s) with (2 ^ n * (k * 2 ^ s))
    by (rewrite (pow2_split 1 (n - 1) n) by lia; change (2 ^ 1) with 2; ring).
  destruct (H (k * 2 ^ s)) as [H1 H2]; rewrite <- H1, <- H2.
  replace (2 ^ n * (k * 2 ^ s)) with (2 * (2 ^ (n - 1) * k) * 2 ^ s)
    by (rewrite (pow2_split 1 (n - 1) n) by lia; change (2 ^ 1) with 2; ring).
  rewrite (mult_IZR _ (2 ^ s)), <- (bpow_Z s) by lia.
  pose proof (bpow_opp s); pose proof (bpow_pos s); pose proof (bpow_pos (- s)).
  set (c := IZR _); set (a := bpow s) in *; set (b := bpow (- s)) in *.
  assert (X : c = (c * a * b)%R) by (rewrite Rmult_assoc, H0; ring).
  split; split; intros K.
  - apply Rmult_le_reg_r with b; lra.
  - rewrite X; apply Rmult_le_compat_r; lra.
  - apply Rmult_le_reg_r with b; lra.
  - rewrite X; apply Rmult_le_compat_r; lra.
Qed.

(** ** Rounding off three bits *)

(** The integer the emulator keeps after rounding [m] and dropping its guard,
    round and sticky bits. *)
Definition roundoff (rm : rmode) (sn : bool) (m : Z) : Z :=
  if m mod 8 =? 0 then m / 8
  else match rm with
       | RN => (m + 3 + (m / 8) mod 2) / 8
       | RZ => m / 8
       | RU => if sn then m / 8 else m / 8 + 1
       | RD => if sn then m / 8 + 1 else m / 8
       end.

Lemma roundoff_cases rm sn m :
  roundoff rm sn m = m / 8 \/ roundoff rm sn m = m / 8 + 1 /\ m mod 8 <> 0.
Proof.
  unfold roundoff; destruct (Z.eqb_spec (m mod 8) 0); [auto|].
  destruct rm, sn; auto; divmod.
Qed.

Lemma mult8 e k : (IZR k * bpow e)%R = (IZR (8 * k) * bpow (e - 3))%R.
Proof.
  replace e with (e - 3 + 3) at 1 by lia; rewrite bpow_shift by lia.
  f_equal; f_equal; lia.
Qed.

Section RoundSticky.
Variables (lo : option Z) (p e m : Z) (u : R).
Hypothesis p_two : 2 <= p.
Hypothesis e_ok : exp_ok lo e.
Hypothesis m_range : 0 <= m < 2 ^ (p + 3).
Hypothesis m_normal : lo = Some e \/ 2 ^ (p + 2) <= m.
Hypothesis m_sticky : Sticky 2 u m.

Let v := (u * bpow (e - 3))%R.

Local Lemma cmp_le k : (IZR k * bpow e <= v)%R <-> 8 * k <= m.
Proof.
  rewrite mult8; unfold v; pose proof (bpow_pos (e - 3)).
  destruct (m_sticky (2 * k)) as [H1 _]; replace (2 ^ 2 * (2 * k)) with (8 * k) in H1 by ring.
  rewrite <- H1; split; intros; nra.
Qed.

Local Lemma cmp_ge k : (v <= IZR k * bpow e)%R <-> m <= 8 * k.
Proof.
  rewrite mult8; unfold v; pose proof (bpow_pos (e - 3)).
  destruct (m_sticky (2 * k)) as [_ H1]; replace (2 ^ 2 * (2 * k)) with (8 * k) in H1 by ring.
  rewrite <- H1; split; intros; nra.
Qed.

Local Lemma pow_p3 : 2 ^ (p + 3) = 8 * 2 ^ p /\ 2 ^ (p + 2) = 8 * 2 ^ (p - 1).
Proof.
  split; [apply (pow2_split 3); lia|].
  replace (p + 2) with (3 + (p - 1)) by lia; apply (pow2_split 3); lia.
Qed.

(** Around [v] the format is the grid of multiples of [2^e]. *)
Local Lemma grid g :
  InFmt lo p g ->
  (exists k, g = (IZR k * bpow e)%R) \/
  ((Rabs g < IZR (2 ^ (p - 1)) * bpow e)%R /\ 2 ^ (p + 2) <= m).
Proof.
  intros (a & i & -> & Ha & Hi); destruct (Z.le_gt_cases e i).
  - left; exists (a * 2 ^ (i - e)); replace i with (e + (i - e)) at 1 by lia.
    apply bpow_shift; lia.
  - right; destruct m_normal as [->|Hm]; [cbn in Hi; lia|]; split; auto.
    rewrite Rabs_mult, <- abs_IZR, (Rabs_pos_eq (bpow i)) by (apply Rlt_le, bpow_pos).
    replace e with (i + (e - i)) by lia; rewrite bpow_shift by lia; apply scaled_lt.
    apply Z.lt_le_trans with (2 ^ p); auto.
    rewrite <- Z.pow_add_r by lia; apply pow2_le; lia.
Qed.

Local Lemma sticky_down : IsDown lo p v (IZR (m / 8) * bpow e).
Proof.
  destruct pow_p3 as [P1 P2]; split; [|split].
  - apply InFmt_scaled; auto; rewrite Z.abs_eq by divmod; divmod.
  - apply cmp_le; divmod.
  - intros g Hg Hle; destruct (grid g Hg) as [[k ->]|[Hs Hm]].
    + apply scaled_le; apply cmp_le in Hle; divmod.
    + apply Rle_trans with (IZR (2 ^ (p - 1)) * bpow e)%R;
        [pose proof (Rle_abs g); lra|apply scaled_le; divmod].
Qed.

Local Lemma sticky_up k : 8 * (k - 1) < m <= 8 * k -> IsUp lo p v (IZR k * bpow e).
Proof.
  intros Hk; destruct pow_p3 as [P1 P2]; split; [|split].
  - apply InFmt_pow; auto; lia.
  - apply cmp_ge; lia.
  - intros g Hg Hle; destruct (grid g Hg) as [[j ->]|[Hs Hm]].
    + apply scaled_le; apply cmp_ge in Hle; lia.
    + exfalso; assert (IZR (2 ^ (p - 1)) * bpow e <= v)%R by (apply cmp_le; lia).
      pose proof (Rle_abs g); lra.
Qed.

(** The midpoint of the interval decides rounding to nearest. *)
Local Lemma cmp_mid k :
  ((IZR (2 * k + 1) * bpow (e - 1) <= v)%R <-> 8 * k + 4 <= m) /\
  ((v <= IZR (2 * k + 1) * bpow (e - 1))%R <-> m <= 8 * k + 4).
Proof.
  replace (e - 1) with (e - 3 + 2) by lia; rewrite bpow_shift by lia.
  unfold v; pose proof (bpow_pos (e - 3)).
  destruct (m_sticky (2 * k + 1)) as [H1 H2].
  replace (2 ^ 2 * (2 * k + 1)) with (8 * k + 4) in H1, H2 by ring.
  replace ((2 * k + 1) * 2 ^ 2) with (8 * k + 4) by ring.
  rewrite <- H1, <- H2; split; split; intros; nra.
Qed.

Local Lemma even_round k : Z.even k = true -> 0 <= k <= 2 ^ p -> EvenFmt lo p (IZR k * bpow e).
Proof.
  intros Hev Hk; apply Z.even_spec in Hev; destruct Hev as [j ->].
  destruct (Z.eq_dec (2 * j) (2 ^ p)) as [E|]; [|exists j, e; repeat split; auto; lia].
  exists 1, (e + (p - 1)); repeat split.
  - rewrite bpow_shift by lia; f_equal; f_equal.
    rewrite E, (pow2_split 1 (p - 1) p) by lia; reflexivity.
  - pose proof (pow2_lt 1 p); lia.
  - apply exp_ok_mono with e; auto; lia.
Qed.

Local Lemma sticky_near :
  IsNear lo p v (IZR (roundoff RN false m) * bpow e).
Proof.
  unfold roundoff; destruct pow_p3 as [P1 P2]; pose proof sticky_down as Dn.
  destruct (Z.eqb_spec (m mod 8) 0) as [E|E].
  - apply near_of_neighbours with (IZR (m / 8) * bpow e)%R (IZR (m / 8) * bpow e)%R; auto;
      [apply sticky_up; divmod|right; right; right; split; auto].
    apply Rle_antisym; [apply Dn|apply cmp_ge; divmod].
  - pose proof (sticky_up (m / 8 + 1) ltac:(divmod)) as Up.
    destruct (cmp_mid (m / 8)) as [M1 M2].
    assert (Mid : (IZR (2 * (m / 8) + 1) * bpow (e - 1) =
                   (IZR (m / 8) * bpow e + IZR (m / 8 + 1) * bpow e) / 2)%R).
    { replace e with (e - 1 + 1) at 2 3 by lia; rewrite !bpow_shift by lia.
      rewrite !mult_IZR, !plus_IZR, !mult_IZR; change (IZR (2 ^ 1)) with 2%R; field. }
    rewrite Mid in M1, M2.
    eapply near_of_neighbours; [exact Dn|exact Up|].
    set (q := m / 8) in *; assert (Hq : m = 8 * q + m mod 8) by (unfold q; divmod).
    assert (0 <= m mod 8 < 8) by (apply Z.mod_pos_bound; lia).
    destruct (Z.lt_trichotomy (m mod 8) 4) as [H4|[H4|H4]].
    + left; replace ((m + 3 + q mod 2) / 8) with q by divmod; split; auto.
      assert (~ (8 * q + 4 <= m)) by lia; rewrite <- M1 in *; lra.
    + right; right; left; assert (M3 : m <= 8 * q + 4) by lia; assert (M4 : 8 * q + 4 <= m) by lia.
      apply M1 in M4; apply M2 in M3; split; [|split; [lra|]].
      * replace ((m + 3 + q mod 2) / 8) with (q + q mod 2) by divmod.
        assert (q mod 2 = 0 \/ q mod 2 = 1) as [->| ->] by divmod; [rewrite Z.add_0_r|]; auto.
      * replace ((m + 3 + q mod 2) / 8) with (q + q mod 2) by divmod.
        apply even_round; [|divmod].
        rewrite Zeven_mod; apply Z.eqb_eq; divmod.
    + right; left; replace ((m + 3 + q mod 2) / 8) with (q + 1) by divmod; split; auto.
      assert (~ (m <= 8 * q + 4)) by lia; rewrite <- M2 in *; lra.
Qed.

(** Rounding the sticky integer rounds the real it stands for. *)
Lemma round_sticky rm sn :
  Rnd lo p rm (sgn sn * v) (sgn sn * (IZR (roundoff rm sn m) * bpow e)).
Proof.
  assert (Hv : (0 <= v)%R)
    by (replace 0%R with (IZR 0 * bpow e)%R by lra; apply cmp_le; lia).
  assert (Up : IsUp lo p v (IZR (roundoff RU false m) * bpow e))
    by (apply sticky_up; unfold roundoff; destruct (Z.eqb_spec (m mod 8) 0); divmod).
  assert (Dn : IsDown lo p v (IZR (roundoff RD false m) * bpow e))
    by (unfold roundoff; destruct (Z.eqb_spec (m mod 8) 0); apply sticky_down).
  assert (Hs : forall r, (sgn true * r)%R = (- r)%R) by (intros; cbn; lra).
  assert (Hp : forall r, (sgn false * r)%R = r) by (intros; cbn; lra).
  destruct sn; rewrite ?Hs, ?Hp; destruct rm; auto.
  - apply (Rnd_opp lo p ltac:(lia) RN), sticky_near.
  - apply (Rnd_opp lo p ltac:(lia) RZ), down_zero; auto; lia.
  - apply (Rnd_opp lo p ltac:(lia) RU), Up.
  - apply (Rnd_opp lo p ltac:(lia) RD), Dn.
  - apply sticky_near.
  - apply down_zero; auto; lia.
Qed.
End RoundSticky.
