(* ===== verification/Ieee754.v ===== *)
(** * Floating point data and the control/status register

    Models [ieee754.h], [ieee754int.h], [ieee754sp.h]/[ieee754dp.h],
    [ieee754.c], [ieee754xcpt.c] and the common part of
    [ieee754sp.c]/[ieee754dp.c].  The C sources write every routine twice,
    with the prefixes [SP]/[sp] and [DP]/[dp]; here both copies are one
    definition over [fmt], and [ieee754sp_*]/[ieee754dp_*] are its two
    instances.  Where the two copies differ the definition branches on the
    format. *)

From S2P Require Import Prelude Rounding.

(** ** Formats *)

Inductive fmt := SP | DP.

Definition MBITS (f : fmt) : Z := match f with SP => 23 | DP => 52 end.
Definition EBIAS (f : fmt) : Z := match f with SP => 127 | DP => 1023 end.
Definition EMIN (f : fmt) : Z := match f with SP => -126 | DP => -1022 end.
Definition EMAX (f : fmt) : Z := match f with SP => 127 | DP => 1023 end.
(** Width of the exponent field, and of the word that holds a mantissa
    ([unsigned] for single, [u64] for double precision). *)
Definition EBITS (f : fmt) : Z := match f with SP => 8 | DP => 11 end.
Definition WBITS (f : fmt) : Z := match f with SP => 32 | DP => 64 end.

Definition MBIT (x : Z) : Z := 2 ^ x.
Definition HIDDEN_BIT (f : fmt) : Z := MBIT (MBITS f).
Definition SIGN_BIT (f : fmt) : Z := MBIT (WBITS f - 1).

(** ** Values: the [parts] view of the unions and the [bits] view *)

Record ieee754 := mkfp { sign : bool; bexp : Z; mant : Z }.

Definition bits (f : fmt) (x : ieee754) : Z :=
  b2z (sign x) * 2 ^ (WBITS f - 1) + bexp x * 2 ^ MBITS f + mant x.

Definition of_bits (f : fmt) (b : Z) : ieee754 :=
  mkfp (Z.testbit b (WBITS f - 1)) ((b / 2 ^ MBITS f) mod 2 ^ EBITS f) (b mod 2 ^ MBITS f).

Definition wf (f : fmt) (x : ieee754) : Prop :=
  0 <= bexp x < 2 ^ EBITS f /\ 0 <= mant x < 2 ^ MBITS f.

(** Assignments to the bit fields truncate. *)
Definition build (f : fmt) (s : bool) (bx m : Z) : ieee754 :=
  mkfp s (bx mod 2 ^ EBITS f) (m mod 2 ^ MBITS f).

Definition with_sign (x : ieee754) (s : bool) : ieee754 := mkfp s (bexp x) (mant x).

(** ** Special values *)

Definition spstr (s : bool) (b m : Z) : ieee754 := mkfp s b m.
Definition dpstr (s : bool) (b mh ml : Z) : ieee754 := mkfp s b (mh * 2 ^ 32 + ml).

Definition dp_spcvals : list ieee754 :=
  let e := EBIAS DP in
  [ dpstr false (EMIN DP - 1 + e) 0 0; dpstr true (EMIN DP - 1 + e) 0 0;
    dpstr false e 0 0; dpstr true e 0 0;
    dpstr false (3 + e) 0x40000 0; dpstr true (3 + e) 0x40000 0;
    dpstr false (EMAX DP + 1 + e) 0 0; dpstr true (EMAX DP + 1 + e) 0 0;
    dpstr false (EMAX DP + 1 + e) 0x7FFFF 0xFFFFFFFF;
    dpstr false (EMAX DP + e) 0xFFFFF 0xFFFFFFFF; dpstr true (EMAX DP + e) 0xFFFFF 0xFFFFFFFF;
    dpstr false (EMIN DP + e) 0 0; dpstr true (EMIN DP + e) 0 0;
    dpstr false (EMIN DP - 1 + e) 0 1; dpstr true (EMIN DP - 1 + e) 0 1;
    dpstr false (31 + e) 0 0; dpstr false (63 + e) 0 0 ].

Definition sp_spcvals : list ieee754 :=
  let e := EBIAS SP in
  [ spstr false (EMIN SP - 1 + e) 0; spstr true (EMIN SP - 1 + e) 0;
    spstr false e 0; spstr true e 0;
    spstr false (3 + e) 0x200000; spstr true (3 + e) 0x200000;
    spstr false (EMAX SP + 1 + e) 0; spstr true (EMAX SP + 1 + e) 0;
    spstr false (EMAX SP + 1 + e) 0x3FFFFF;
    spstr false (EMAX SP + e) 0x7FFFFF; spstr true (EMAX SP + e) 0x7FFFFF;
    spstr false (EMIN SP + e) 0; spstr true (EMIN SP + e) 0;
    spstr false (EMIN SP - 1 + e) 1; spstr true (EMIN SP - 1 + e) 1;
    spstr false (31 + e) 0; spstr false (63 + e) 0 ].

Definition spcval (f : fmt) (n : nat) (sn : bool) : ieee754 :=
  let tab := match f with SP => sp_spcvals | DP => dp_spcvals end in
  nth (n + if sn then 1 else 0)%nat tab (mkfp false 0 0).

Definition ieee754_zero (f : fmt) (sn : bool) := spcval f 0 sn.
Definition ieee754_one (f : fmt) (sn : bool) := spcval f 2 sn.
Definition ieee754_ten (f : fmt) (sn : bool) := spcval f 4 sn.
Definition ieee754_inf (f : fmt) (sn : bool) := spcval f 6 sn.
Definition ieee754_indef (f : fmt) := spcval f 8 false.
Definition ieee754_max (f : fmt) (sn : bool) := spcval f 9 sn.
Definition ieee754_min (f : fmt) (sn : bool) := spcval f 11 sn.
Definition ieee754_mind (f : fmt) (sn : bool) := spcval f 13 sn.
Definition ieee754_1e31 (f : fmt) := spcval f 15 false.
Definition ieee754_1e63 (f : fmt) := spcval f 16 false.

(** ** The control/status register *)

Definition INEXACT : Z := 0x01.
Definition UNDERFLOW : Z := 0x02.
Definition OVERFLOW : Z := 0x04.
Definition ZERO_DIVIDE : Z := 0x08.
Definition INVALID_OPERATION : Z := 0x10.

Record csr := mkcsr {
  rm : rmode;     (* current rounding mode *)
  sx : Z;         (* exceptions total, 5 bits *)
  mx : Z;         (* exception enable mask, 5 bits *)
  cx : Z;         (* exceptions of this operation, 6 bits *)
  pad1 : Z;       (* 5 bits *)
  cond : bool;    (* condition *)
  nod : bool;     (* no denormalised numbers *)
  pad0 : Z        (* 7 bits *)
}.

Definition rm_code (r : rmode) : Z := match r with RN => 0 | RZ => 1 | RD => 2 | RU => 3 end.
Definition rm_of (z : Z) : rmode :=
  match z mod 4 with 0 => RN | 1 => RZ | 2 => RD | _ => RU end.

(** The register is a bit-field view of the word [fcr31]. *)
Definition field (w lo n : Z) : Z := (w / 2 ^ lo) mod 2 ^ n.

Definition csr_of (w : Z) : csr :=
  mkcsr (rm_of (field w 0 2)) (field w 2 5) (field w 7 5) (field w 12 6)
        (field w 18 5) (Z.testbit w 23) (Z.testbit w 24) (field w 25 7).

Definition csr_word (c : csr) : Z :=
  rm_code (rm c) + sx c * 2 ^ 2 + mx c * 2 ^ 7 + cx c * 2 ^ 12 + pad1 c * 2 ^ 18 +
  b2z (cond c) * 2 ^ 23 + b2z (nod c) * 2 ^ 24 + pad0 c * 2 ^ 25.

Definition csr_wf (c : csr) : Prop :=
  0 <= sx c < 2 ^ 5 /\ 0 <= mx c < 2 ^ 5 /\ 0 <= cx c < 2 ^ 6 /\
  0 <= pad1 c < 2 ^ 5 /\ 0 <= pad0 c < 2 ^ 7.

(** ** Machine state of the arithmetic: the register and the kernel log

    The only output of the arithmetic is the line [ieee754_xcpt] prints; the
    log keeps its two arguments, the operation and the result type. *)
Record fpst := mkst { fcsr : csr; klog : list (string * string) }.

Definition M (A : Type) : Type := ST fpst A.

Definition upd_csr (g : csr -> csr) (s : fpst) : fpst := mkst (g (fcsr s)) (klog s).

Definition clear_csr (c : csr) : csr :=
  mkcsr (rm c) (sx c) (mx c) 0 (pad1 c) (cond c) (nod c) (pad0 c).
Definition raise_csr (fl : Z) (c : csr) : csr :=
  mkcsr (rm c) (Z.lor (sx c) fl) (mx c) (Z.lor (cx c) fl) (pad1 c) (cond c) (nod c) (pad0 c).

Definition clear (s : fpst) : fpst := upd_csr clear_csr s.
Definition raise (fl : Z) (s : fpst) : fpst := upd_csr (raise_csr fl) s.

Definition CLEARCX : M unit := modify clear.
Definition SETCX (x : Z) : M unit := modify (raise x).
Definition SETANDTESTCX (x : Z) : M bool :=
  SETCX x ;;; gets (fun s => tst (Z.land (mx (fcsr s)) x)).
Definition tstx (s : fpst) : bool := tst (Z.land (cx (fcsr s)) (mx (fcsr s))).
Definition TSTX : M bool := gets tstx.

(** [ieee754_xcpt]: print the report; the handler does not change the value. *)
Inductive rt := RT_SP | RT_DP | RT_XP | RT_SI | RT_DI.
Definition rtnames (t : rt) : string :=
  match t with
  | RT_SP => "sp" | RT_DP => "dp" | RT_XP => "xp" | RT_SI => "si" | RT_DI => "di"
  end%string.
Definition report (op : string) (t : rt) (s : fpst) : fpst :=
  mkst (fcsr s) ((op, rtnames t) :: klog s).
Definition ieee754_xcpt (op : string) (t : rt) : M unit := modify (report op t).

Definition fmt_rt (f : fmt) : rt := match f with SP => RT_SP | DP => RT_DP end.

(** ** Classification *)

Inductive cls := NORM | ZERO | DNORM | INF | SNAN | QNAN.
Definition cls_code (c : cls) : Z :=
  match c with NORM => 0 | ZERO => 1 | DNORM => 2 | INF => 3 | SNAN => 4 | QNAN => 5 end.

Definition cls_eqb (a b : cls) : bool := cls_code a =? cls_code b.

(** The exploded form of an operand: the C variables [xc], [xs], [xe], [xm]. *)
Record comp := mkcomp { kc : cls; ks : bool; ke : Z; km : Z }.

Definition EXPLODE (f : fmt) (v : ieee754) : comp :=
  let vs := sign v in
  let ve := bexp v in
  let vm := mant v in
  if ve =? EMAX f + 1 + EBIAS f then
    if vm =? 0 then mkcomp INF vs ve vm
    else if tst (Z.land vm (MBIT (MBITS f - 1))) then mkcomp SNAN vs ve vm
    else mkcomp QNAN vs ve vm
  else if ve =? EMIN f - 1 + EBIAS f then
    if tst vm then mkcomp DNORM vs (EMIN f) vm
    else mkcomp ZERO vs ve vm
  else mkcomp NORM vs (ve - EBIAS f) (Z.lor vm (HIDDEN_BIT f)).

(** [FLUSH] may replace the operand itself as well as its exploded form. *)
Definition FLUSH (f : fmt) (v : ieee754) (k : comp) : M (ieee754 * comp) :=
  n <- gets (fun s => nod (fcsr s)) ;;
  if cls_eqb (kc k) DNORM && n then
    SETCX INEXACT ;;;
    ret (ieee754_zero f (ks k), mkcomp ZERO (ks k) (EMIN f - 1 + EBIAS f) 0)
  else ret (v, k).

Definition ieee754_class (f : fmt) (x : ieee754) : cls := kc (EXPLODE f x).
Definition ieee754_isnan (f : fmt) (x : ieee754) : bool :=
  cls_code (ieee754_class f x) >=? cls_code SNAN.
Definition ieee754_issnan (f : fmt) (x : ieee754) : bool :=
  match f with
  | SP => tst (Z.land (mant x) (MBIT (MBITS f - 1)))
  | DP => Z.land (mant x) (MBIT (MBITS f - 1)) =? MBIT (MBITS f - 1)
  end.

Definition ieee754f_xcpt (f : fmt) (r : ieee754) (op : string) : M ieee754 :=
  t <- TSTX ;;
  if negb t then ret r
  else ieee754_xcpt op (fmt_rt f) ;;; ret r.

Definition ieee754_nanxcpt (f : fmt) (r : ieee754) (op : string) : M ieee754 :=
  if negb (ieee754_issnan f r) then ret r
  else
    t <- SETANDTESTCX INVALID_OPERATION ;;
    if negb t then
      let r := mkfp (sign r) (bexp r) (Z.land (mant r) (Z.lnot (MBIT (MBITS f - 1)))) in
      if ieee754_isnan f r then ret r else ret (ieee754_indef f)
    else ieee754_xcpt op RT_SP ;;; ret r.

Definition ieee754_bestnan (x y : ieee754) : ieee754 :=
  if mant x >? mant y then x else y.

Definition ieee754si_xcpt (r : Z) (op : string) : M Z :=
  t <- TSTX ;; if negb t then ret r else ieee754_xcpt op RT_SI ;;; ret r.
Definition ieee754di_xcpt (r : Z) (op : string) : M Z :=
  t <- TSTX ;; if negb t then ret r else ieee754_xcpt op RT_DI ;;; ret r.

(** ** Mantissa shifts *)

(** [SPXSRSXn]/[XDPSRS]: sticky right shift of an extended mantissa. *)
Definition XSRS (f : fmt) (m s : Z) : Z :=
  if s >? MBITS f + 3 then 1
  else Z.lor (Z.shiftr m s) (b2z (tst (shl (WBITS f) m (WBITS f - s)))).

Definition XSRS1 (m : Z) : Z := Z.lor (Z.shiftr m 1) (Z.land m 1).

(** [while ((m >> k) == 0) { m <<= 1; e--; }], on a [w]-bit mantissa, at
    most one turn per bit. *)
Definition norm_loop (w k m e : Z) : option (Z * Z) :=
  while 64 (fun '(m, e) => Z.shiftr m k =? 0)
           (fun '(m, e) => (shl w m 1, e - 1)) (m, e).

(** [SPDNORMx]/[DPDNORMx]. *)
Definition DNORM_loop (f : fmt) (k : comp) : option comp :=
  match norm_loop (WBITS f) (MBITS f) (km k) (ke k) with
  | Some (m, e) => Some (mkcomp (kc k) (ks k) e m)
  | None => None
  end.

(** ** Rounding and packing *)

Definition get_rounding (f : fmt) (r : rmode) (sn : bool) (xm : Z) : Z :=
  if tst (Z.land xm (MBIT 3 - 1)) then
    match r with
    | RZ => xm
    | RN => wrap (WBITS f) (xm + (0x3 + Z.land (Z.shiftr xm 3) 1))
    | RU => if negb sn then wrap (WBITS f) (xm + 0x8) else xm
    | RD => if sn then wrap (WBITS f) (xm + 0x8) else xm
    end
  else xm.

(** What a result below the normal range becomes when [nod] is set. *)
Definition flushed_result (f : fmt) (r : rmode) (sn : bool) : ieee754 :=
  match r with
  | RN | RZ => ieee754_zero f sn
  | RU => if sn then ieee754_zero f true else ieee754_min f false
  | RD => if sn then ieee754_min f true else ieee754_zero f false
  end.

Definition overflow_result (f : fmt) (r : rmode) (sn : bool) : ieee754 :=
  match r with
  | RN => ieee754_inf f sn
  | RZ => ieee754_max f sn
  | RU => if sn then ieee754_max f true else ieee754_inf f false
  | RD => if sn then ieee754_inf f true else ieee754_max f false
  end.

(** Bring a tiny result to exponent [EMIN]. *)
Definition format_denorm (f : fmt) (r : rmode) (sn : bool) (xe xm : Z) : M (Z * Z) :=
  let es := EMIN f - xe in
  if (xe =? EMIN f - 1) && tst (Z.shiftr (get_rounding f r sn xm) (MBITS f + 1 + 3)) then
    (* not tiny after rounding *)
    SETCX INEXACT ;;;
    let xm := get_rounding f r sn xm in
    let xm := Z.shiftr xm 1 in
    let xm := Z.land xm (Z.lnot (MBIT 3 - 1)) in
    ret (xe + 1, xm)
  else ret (xe + es, XSRS f xm es).

(** Round off the three extra bits, flagging what was lost. *)
Definition format_round (f : fmt) (r : rmode) (sn : bool) (xe xm : Z) : M (Z * Z) :=
  if tst (Z.land xm (MBIT 3 - 1)) then
    SETCX INEXACT ;;;
    when (Z.land xm (shl (WBITS f) (HIDDEN_BIT f) 3) =? 0) (SETCX UNDERFLOW) ;;;
    let xm := get_rounding f r sn xm in
    if tst (Z.shiftr xm (MBITS f + 1 + 3)) then ret (xe + 1, Z.shiftr xm 1)
    else ret (xe, xm)
  else ret (xe, xm).

(** Range check and packing of the stripped mantissa. *)
Definition format_pack (f : fmt) (r : rmode) (sn : bool) (xe xm : Z) : M ieee754 :=
  if xe >? EMAX f then
    SETCX OVERFLOW ;;; SETCX INEXACT ;;; ret (overflow_result f r sn)
  else if Z.land xm (HIDDEN_BIT f) =? 0 then
    en <- gets (fun s => tst (Z.land (mx (fcsr s)) UNDERFLOW)) ;;
    when en (SETCX UNDERFLOW) ;;;
    ret (build f sn (EMIN f - 1 + EBIAS f) xm)
  else ret (build f sn (xe + EBIAS f) (Z.land xm (Z.lnot (HIDDEN_BIT f)))).

Definition ieee754_format (f : fmt) (sn : bool) (xe xm : Z) : M ieee754 :=
  r <- gets (fun s => rm (fcsr s)) ;;
  n <- gets (fun s => nod (fcsr s)) ;;
  if (xe <? EMIN f) && n then
    SETCX UNDERFLOW ;;; SETCX INEXACT ;;; ret (flushed_result f r sn)
  else
    '(xe, xm) <- (if xe <? EMIN f then format_denorm f r sn xe xm else ret (xe, xm)) ;;
    '(xe, xm) <- format_round f r sn xe xm ;;
    format_pack f r sn xe (Z.shiftr xm 3).

Definition ieee754sp_format := ieee754_format SP.
Definition ieee754dp_format := ieee754_format DP.

(** [SPNORMRET2]/[DPNORMRET2]: pack, then report if a trap is enabled. *)
Definition NORMRET (f : fmt) (s : bool) (e m : Z) (name : string) : M ieee754 :=
  V <- ieee754_format f s e m ;;
  t <- TSTX ;;
  if t then ieee754f_xcpt f V name else ret V.

(** ** The two copies *)

Definition EXPLODESP := EXPLODE SP.
Definition EXPLODEDP := EXPLODE DP.
Definition FLUSHSP := FLUSH SP.
Definition FLUSHDP := FLUSH DP.
Definition ieee754sp_class := ieee754_class SP.
Definition ieee754dp_class := ieee754_class DP.
Definition ieee754sp_isnan := ieee754_isnan SP.
Definition ieee754dp_isnan := ieee754_isnan DP.
Definition ieee754sp_issnan := ieee754_issnan SP.
Definition ieee754dp_issnan := ieee754_issnan DP.
Definition ieee754sp_xcpt := ieee754f_xcpt SP.
Definition ieee754dp_xcpt := ieee754f_xcpt DP.
Definition ieee754sp_nanxcpt := ieee754_nanxcpt SP.
Definition ieee754dp_nanxcpt := ieee754_nanxcpt DP.
Definition ieee754sp_bestnan := ieee754_bestnan.
Definition ieee754dp_bestnan := ieee754_bestnan.
Definition get_sp_rounding := get_rounding SP.
Definition get_dp_rounding := get_rounding DP.
Definition SPXSRSXn := XSRS SP.
Definition XDPSRS := XSRS DP.
Definition buildsp := build SP.
Definition builddp := build DP.
Definition SPDNORM := DNORM_loop SP.
Definition DPDNORM := DNORM_loop DP.
Definition SPNORMRET2 := NORMRET SP.
Definition DPNORMRET2 := NORMRET DP.

(** ** Data for examples

    The reset state (round to nearest, no trap enabled), and the numbers 1.5
    and -3 in either format. *)
Definition s0 : fpst := mkst (csr_of 0) [].
Definition one_half (f : fmt) : ieee754 := mkfp false (EBIAS f) (2 ^ (MBITS f - 1)).
Definition minus_three (f : fmt) : ieee754 := mkfp true (EBIAS f + 1) (2 ^ (MBITS f - 1)).
