(* ===== verification/Format.v ===== *)
(** * Values of floating point data, and correctness of rounding and packing

    [val] is the real a finite datum denotes; [FPResult] says that a datum and
    the three rounding exceptions are what IEEE 754 prescribes for an exact
    real [v].  The main lemma of the file, [format_rounds], shows that
    [ieee754_format] produces such a result from any sticky mantissa. *)

From S2P Require Import Prelude Rounding Ieee754.

(** ** Meaning of data *)

Definition PREC (f : fmt) : Z := MBITS f + 1.
Definition ELO (f : fmt) : Z := EMIN f - MBITS f.

Definition is_finite (f : fmt) (x : ieee754) : bool := negb (bexp x =? EMAX f + 1 + EBIAS f).

Definition val (f : fmt) (x : ieee754) : R :=
  if bexp x =? 0 then (sgn (sign x) * (IZR (mant x) * bpow (ELO f)))%R
  else (sgn (sign x) * (IZR (2 ^ MBITS f + mant x) * bpow (bexp x - EBIAS f - MBITS f)))%R.

Definition MAXV (f : fmt) : R := (IZR (2 ^ PREC f - 1) * bpow (EMAX f - MBITS f))%R.

(** Rounding in the format with gradual underflow and no upper bound, and in
    the format with an unbounded exponent range (to decide tininess). *)
Definition Rounded (f : fmt) := Rnd (Some (ELO f)) (PREC f).
Definition RoundedX (f : fmt) := Rnd None (PREC f).

Definition flags (i u o : bool) : Z :=
  Z.lor (if i then INEXACT else 0) (Z.lor (if u then UNDERFLOW else 0) (if o then OVERFLOW else 0)).

(** Tiny after rounding: nonzero and below the normal range when rounded with
    an unbounded exponent. *)
Definition Tiny (f : fmt) (c : csr) (v : R) : Prop :=
  exists z, RoundedX f (rm c) v z /\ (0 < Rabs z < bpow (EMIN f))%R.

Definition underflow_enabled (c : csr) : bool := tst (Z.land (mx c) UNDERFLOW).

(** The overflow results of IEEE 754 (section 7.3): the modes that round away
    from zero in the direction of the sign deliver an infinity, the others the
    number of largest magnitude. *)
Definition rounds_away (r : rmode) (negative : bool) : bool :=
  match r with RN => true | RZ => false | RU => negb negative | RD => negative end.
Definition OverflowValue (f : fmt) (r : rmode) (x : ieee754) : Prop :=
  if rounds_away r (sign x) then bexp x = EMAX f + 1 + EBIAS f /\ mant x = 0
  else is_finite f x = true /\ val f x = (sgn (sign x) * MAXV f)%R.

(** The datum [x] and the exceptions inexact [i], underflow [u] and overflow
    [o] are the IEEE 754 result for the exact value [v]:
    - [x] is the correctly rounded value, or the infinity or largest number
      that IEEE 754 prescribes when the rounded value exceeds that number;
    - inexact is signalled exactly when the delivered value is not [v];
    - overflow is signalled exactly when the rounded value is out of range;
    - underflow is signalled for every tiny inexact result, and otherwise
      only for a tiny result whose trap is enabled. *)
Record FPResult (f : fmt) (c : csr) (v : R) (x : ieee754) (i u o : bool) : Prop := {
  fr_wf : wf f x;
  fr_value : exists z, Rounded f (rm c) v z /\
    (if o then (MAXV f < Rabs z)%R /\ OverflowValue f (rm c) x /\ i = true
     else (Rabs z <= MAXV f)%R /\ is_finite f x = true /\ val f x = z /\ (i = true <-> z <> v));
  fr_underflow : u = true -> Tiny f c v /\ (i = true \/ underflow_enabled c = true);
  fr_tiny : Tiny f c v -> i = true -> u = true;
  fr_sign : ((v < 0)%R -> sign x = true) /\ ((0 < v)%R -> sign x = false)
}.

(** What the packing routine guarantees beyond that: a tiny result with the
    underflow trap enabled signals underflow even when it is exact. *)
Record Packed (f : fmt) (c : csr) (v : R) (x : ieee754) (i u o : bool) : Prop := {
  pk_result :> FPResult f c v x i u o;
  pk_trap : Tiny f c v -> underflow_enabled c = true -> u = true
}.

Lemma packed_intro f c v x (i u o : bool) :
  wf f x ->
  (exists z, Rounded f (rm c) v z /\
    (if o then (MAXV f < Rabs z)%R /\ OverflowValue f (rm c) x /\ i = true
     else (Rabs z <= MAXV f)%R /\ is_finite f x = true /\ val f x = z /\ (i = true <-> z <> v))) ->
  (u = true <-> Tiny f c v /\ (i = true \/ underflow_enabled c = true)) ->
  ((v < 0)%R -> sign x = true) /\ ((0 < v)%R -> sign x = false) ->
  Packed f c v x i u o.
Proof. intros; split; [split|]; tauto. Qed.

(** ** Facts about the two formats *)

Lemma fmt_facts f :
  23 <= MBITS f <= 52 /\ MBITS f + 9 <= WBITS f <= 64 /\ EMIN f = 1 - EBIAS f /\
  EMAX f = EBIAS f /\ 2 ^ EBITS f = 2 * EBIAS f + 2 /\ MBITS f < EBIAS f /\
  1 <= EBITS f /\ EBITS f + MBITS f + 1 = WBITS f.
Proof. destruct f; cbn; lia. Qed.

Lemma prec_pos f : 1 <= PREC f.
Proof. destruct f; cbn; lia. Qed.

(** Rewrite [2^(MBITS + k)] to [2^k * 2^MBITS] everywhere. *)
Lemma pow_mbits f k : 0 <= k -> 2 ^ (MBITS f + k) = 2 ^ k * 2 ^ MBITS f.
Proof. intros; pose proof (fmt_facts f); rewrite Z.pow_add_r by lia; ring. Qed.

Lemma hidden_pos f : 8388608 <= 2 ^ MBITS f.
Proof. pose proof (fmt_facts f); apply (pow2_le 23); lia. Qed.

Lemma hidden_word f k : 0 <= k <= 9 -> 2 ^ k * 2 ^ MBITS f <= 2 ^ WBITS f.
Proof.
  intros; pose proof (fmt_facts f); rewrite <- pow_mbits by lia; apply pow2_le; lia.
Qed.

Lemma prec_pow f : 2 ^ PREC f = 2 * 2 ^ MBITS f.
Proof. apply (pow_mbits f 1); lia. Qed.

Ltac mbits f :=
  unfold PREC in *; rewrite ?(pow_mbits f 1), ?(pow_mbits f 3), ?(pow_mbits f 4) in * by lia;
  change (2 ^ 1) with 2 in *; change (2 ^ 3) with 8 in *; change (2 ^ 4) with 16 in *;
  change (2 ^ 5) with 32 in *;
  pose proof (fmt_facts f); pose proof (hidden_pos f).

Lemma zero_eq f sn : ieee754_zero f sn = mkfp sn 0 0.
Proof. destruct f, sn; reflexivity. Qed.

Lemma inf_eq f sn : ieee754_inf f sn = mkfp sn (EMAX f + 1 + EBIAS f) 0.
Proof. destruct f, sn; reflexivity. Qed.

Lemma max_eq f sn : ieee754_max f sn = mkfp sn (EMAX f + EBIAS f) (2 ^ MBITS f - 1).
Proof. destruct f, sn; reflexivity. Qed.

(** ** Exceptions accumulate *)

Lemma raise_raise a b s : raise a (raise b s) = raise (Z.lor b a) s.
Proof.
  destruct s as [[] l]; unfold raise, upd_csr, raise_csr; cbn.
  now rewrite !Z.lor_assoc.
Qed.

Lemma raise_0 s : raise 0 s = s.
Proof. destruct s as [[] l]; unfold raise, upd_csr, raise_csr; cbn; now rewrite !Z.lor_0_r. Qed.

Lemma raise_rm a s : rm (fcsr (raise a s)) = rm (fcsr s).
Proof. reflexivity. Qed.
Lemma raise_mx a s : mx (fcsr (raise a s)) = mx (fcsr s).
Proof. reflexivity. Qed.
Lemma raise_nod a s : nod (fcsr (raise a s)) = nod (fcsr s).
Proof. reflexivity. Qed.
#[export] Hint Rewrite raise_raise raise_0 raise_rm raise_mx raise_nod : st.

Lemma flags_false : flags false false false = 0.
Proof. reflexivity. Qed.

(** ** Shifts *)

(** C's [(m >> s) | ((m << (w - s)) != 0)] on a [w]-bit word. *)
Lemma word_srs w m s k : 0 < s < w -> k = w - s ->
  Z.lor (Z.shiftr m s) (b2z (tst (shl w m k))) = srs m s.
Proof.
  intros Hs ->; unfold srs; rewrite shiftr_div by lia.
  do 2 f_equal; unfold shl, wrap; rewrite Z.shiftl_mul_pow2 by lia.
  rewrite (pow2_split s (w - s) w) by lia.
  rewrite Z.mul_mod_distr_r by (apply Z.pow_nonzero; lia).
  unfold tst; pose proof (pow2_pos (w - s)).
  destruct (Z.eqb_spec (m mod 2 ^ s) 0) as [->|]; [reflexivity|].
  destruct (Z.eqb_spec (m mod 2 ^ s * 2 ^ (w - s)) 0); [nia|reflexivity].
Qed.

Lemma XSRS_srs f m s : 0 < s <= MBITS f + 3 -> XSRS f m s = srs m s.
Proof.
  intros Hs; pose proof (fmt_facts f); unfold XSRS.
  destruct (Z.gtb_spec s (MBITS f + 3)); [lia|]; apply word_srs; lia.
Qed.

Lemma srs_small m s : 0 < m < 2 ^ s -> 0 <= s -> srs m s = 1.
Proof.
  intros Hm Hs; unfold srs; rewrite Z.div_small, Z.mod_small by lia.
  unfold tst; destruct (Z.eqb_spec m 0); [lia|reflexivity].
Qed.

Lemma XSRS1_srs m : 0 <= m -> XSRS1 m = srs m 1.
Proof.
  intros; unfold XSRS1, srs; rewrite shiftr_div by lia; f_equal.
  rewrite land_1; change (2 ^ 1) with 2; assert (m mod 2 = 0 \/ m mod 2 = 1) as [->| ->] by divmod; reflexivity.
Qed.

(** The shift is a sticky right shift for every distance. *)
Lemma XSRS_any f m s : 0 < m < 2 ^ (MBITS f + 4) -> 0 < s -> XSRS f m s = srs m s.
Proof.
  intros Hm Hs; pose proof (hidden_word f 4 ltac:(lia)); mbits f.
  destruct (Z.le_gt_cases s (MBITS f + 3)); [apply XSRS_srs; lia|].
  rewrite srs_small; [|split; [lia|]|lia].
  - unfold XSRS; destruct (Z.gtb_spec s (MBITS f + 3)); [reflexivity|lia].
  - apply Z.lt_le_trans with (2 ^ (MBITS f + 4)); [mbits f; lia|apply pow2_le; lia].
Qed.

Lemma srs_lt m s b : 0 <= m -> 0 <= s -> m <= 2 * b * 2 ^ s -> srs m s <= 2 * b.
Proof. intros; apply srs_cmp; auto. Qed.

Lemma srs_pos m s : 0 < m -> 0 <= s -> 0 < srs m s.
Proof.
  intros Hm Hs; pose proof (srs_nonneg m s) as Hn.
  destruct (srs_cmp m s 0) as [_ [H _]]; [lia..|].
  destruct (Z.eq_dec (srs m s) 0) as [E|]; [|lia]. rewrite E in H; lia.
Qed.

(** The normalisation loop ends with the top bit in place [k]. *)
Lemma norm_loop_spec w k m e :
  0 <= k < w -> w <= 64 -> 0 < m < 2 ^ (k + 1) ->
  exists n, 0 <= n /\ norm_loop w k m e = Some (m * 2 ^ n, e - n) /\
            2 ^ k <= m * 2 ^ n < 2 ^ (k + 1).
Proof.
  intros Hk Hw64 Hm.
  set (I := fun t : Z * Z => exists n, 0 <= n /\ t = (m * 2 ^ n, e - n) /\ m * 2 ^ n < 2 ^ (k + 1)).
  destruct (while_rule (fun '(m, _) => Z.shiftr m k =? 0)
              (fun '(m, e) => (shl w m 1, e - 1)) I
              (fun t => k - Z.log2 (fst t)) 64 (m, e)) as (t & Ht & (n & Hn & -> & Hlt) & Hc).
  - exists 0; split; [lia|]; rewrite Z.mul_1_r, Z.sub_0_r; split; [reflexivity|lia].
  - cbn [fst]; pose proof (Z.log2_nonneg m); lia.
  - intros [m' e'] (n & Hn & E & Hlt) Hc; injection E as -> ->; zbool.
    rewrite shiftr_div in Hc by lia; pose proof (pow2_pos k); pose proof (pow2_pos n).
    apply div_zero_iff in Hc; [|nia|lia].
    assert (Hw : 2 ^ (k + 1) <= 2 ^ w) by (apply pow2_le; lia).
    rewrite Z.pow_add_r in Hlt, Hw by lia.
    rewrite shl_small by (try rewrite Z.pow_1_r; nia).
    split.
    + exists (n + 1); rewrite !Z.pow_add_r by lia; split; [lia|split]; [f_equal; lia|nia].
    + cbn [fst]; rewrite Z.pow_1_r, (Z.mul_comm _ 2), Z.log2_double by nia.
      assert (Z.log2 (m * 2 ^ n) < k) by (apply Z.log2_lt_pow2; nia). lia.
  - zbool; exists n; split; [auto|split; [exact Ht|split; [|auto]]].
    rewrite shiftr_div in Hc by lia; pose proof (pow2_pos k); pose proof (pow2_pos n).
    assert (~ m * 2 ^ n < 2 ^ k) by (rewrite <- div_zero_iff; nia). lia.
Qed.

(** ** Rounding off the extra bits *)

Lemma tst_grs m : tst (Z.land m (MBIT 3 - 1)) = tst (m mod 8).
Proof. unfold MBIT; rewrite land_mask by lia; reflexivity. Qed.

Lemma get_rounding_spec f r sn m :
  0 <= m < 2 ^ (MBITS f + 4) ->
  get_rounding f r sn m / 8 = roundoff r sn m /\ 0 <= get_rounding f r sn m <= m + 8.
Proof.
  intros Hm; pose proof (hidden_word f 5 ltac:(lia)); mbits f.
  unfold get_rounding, roundoff; rewrite tst_grs; unfold tst.
  destruct (Z.eqb_spec (m mod 8) 0); cbn [negb]; [lia|].
  rewrite land_1, shiftr_div by lia; change (2 ^ 3) with 8.
  assert (0 <= (m / 8) mod 2 < 2) by (apply Z.mod_pos_bound; lia).
  pose proof (Z.div_add m 1 8 ltac:(lia)) as D; cbn [Z.mul Pos.mul] in D.
  destruct r, sn; cbn [negb]; rewrite ?wrap_small by lia; split; try lia; f_equal; lia.
Qed.

Lemma roundoff_range r sn m b : 0 <= m < 8 * b -> 0 <= roundoff r sn m <= b.
Proof. intros; destruct (roundoff_cases r sn m) as [->|[-> ?]]; divmod. Qed.

(** The exponent and mantissa after rounding [m] with a possible carry out. *)
Definition carried (f : fmt) (e M : Z) : Z * Z :=
  if M =? 2 ^ PREC f then (e + 1, 2 ^ MBITS f) else (e, M).

Lemma format_round_run f r sn xe xm s :
  0 <= xm < 2 ^ (MBITS f + 4) ->
  exists g, format_round f r sn xe xm s =
    Some ((fst (carried f xe (roundoff r sn xm)), g),
          raise (flags (tst (xm mod 8)) (tst (xm mod 8) && (xm <? 2 ^ (MBITS f + 3))) false) s) /\
    Z.shiftr g 3 = snd (carried f xe (roundoff r sn xm)).
Proof.
  intros Hm; destruct (get_rounding_spec f r sn xm Hm) as [G1 G2].
  unfold format_round, carried; rewrite tst_grs.
  pose proof (hidden_word f 4 ltac:(lia)); mbits f.
  destruct (tst (xm mod 8)) eqn:E.
  - unfold HIDDEN_BIT, MBIT; rewrite shl_small by (change (2 ^ 3) with 8 in *; lia).
    replace (2 ^ MBITS f * 2 ^ 3) with (2 ^ (MBITS f + 3)) by (rewrite pow_mbits by lia; ring).
    replace (Z.land xm (2 ^ (MBITS f + 3)) =? 0) with (xm <? 8 * 2 ^ MBITS f).
    2:{ pose proof (tst_land_bit xm (MBITS f + 3) ltac:(lia)) as T.
        rewrite testbit_top in T by (try (rewrite <- Z.add_assoc; cbn; mbits f); lia).
        unfold tst in T; rewrite <- (negb_involutive (_ =? 0)), T, <- Z.ltb_antisym.
        mbits f; reflexivity. }
    unfold SETCX, when; autorewrite with st.
    rewrite tst_shiftr by lia; replace (MBITS f + 1 + 3) with (MBITS f + 4) by lia; mbits f.
    replace (16 * 2 ^ MBITS f <=? get_rounding f r sn xm) with (roundoff r sn xm =? 2 * 2 ^ MBITS f).
    2:{ pose proof (roundoff_range r sn xm (2 * 2 ^ MBITS f)).
        destruct (Z.eqb_spec (roundoff r sn xm) (2 * 2 ^ MBITS f));
          destruct (Z.leb_spec (16 * 2 ^ MBITS f) (get_rounding f r sn xm)); auto; divmod. }
    destruct (xm <? 8 * 2 ^ MBITS f); autorewrite with st;
      destruct (Z.eqb_spec (roundoff r sn xm) (2 * 2 ^ MBITS f)); cbn [fst snd andb];
      (eexists; split; [reflexivity|]);
      rewrite ?Z.shiftr_shiftr, shiftr_div by lia; cbn [Z.add Pos.add];
      change (2 ^ 3) with 8; try exact G1; change (2 ^ 4) with 16; divmod.
  - unfold tst in E; zbool.
    assert (R : roundoff r sn xm = xm / 8) by (unfold roundoff; rewrite E; reflexivity).
    rewrite R; cbn [andb]; rewrite flags_false, raise_0.
    destruct (Z.eqb_spec (xm / 8) (2 * 2 ^ MBITS f)); [divmod|].
    eexists; split; [reflexivity|]; apply shiftr_div; lia.
Qed.

(** ** Packing *)

Lemma build_val f sn e m :
  EMIN f <= e <= EMAX f -> 2 ^ MBITS f <= m < 2 ^ PREC f ->
  let x := build f sn (e + EBIAS f) (Z.land m (Z.lnot (HIDDEN_BIT f))) in
  wf f x /\ is_finite f x = true /\ sign x = sn /\
  val f x = (sgn sn * (IZR m * bpow (e - MBITS f)))%R.
Proof.
  intros He Hm; mbits f; unfold HIDDEN_BIT, MBIT; rewrite land_lnot_bit by lia.
  rewrite testbit_top by (try rewrite Z.pow_add_r; lia).
  destruct (Z.leb_spec (2 ^ MBITS f) m); [|lia].
  unfold build, wf, is_finite, val; cbn [sign bexp mant].
  rewrite !Z.mod_small by lia.
  destruct (Z.eqb_spec (e + EBIAS f) (EMAX f + 1 + EBIAS f)); [lia|].
  destruct (Z.eqb_spec (e + EBIAS f) 0); [lia|].
  split; [split; lia|split; [reflexivity|split; [reflexivity|]]].
  do 3 f_equal; [f_equal|f_equal]; lia.
Qed.

Lemma build_val_sub f sn m :
  0 <= m < 2 ^ MBITS f ->
  let x := build f sn (EMIN f - 1 + EBIAS f) m in
  wf f x /\ is_finite f x = true /\ sign x = sn /\
  val f x = (sgn sn * (IZR m * bpow (ELO f)))%R.
Proof.
  intros Hm; mbits f; unfold build, wf, is_finite, val; cbn [sign bexp mant].
  replace (EMIN f - 1 + EBIAS f) with 0 by lia; rewrite !Z.mod_small by lia.
  destruct (Z.eqb_spec 0 (EMAX f + 1 + EBIAS f)); [lia|].
  repeat split; lia.
Qed.

Lemma overflow_result_sign f r sn :
  wf f (overflow_result f r sn) /\ sign (overflow_result f r sn) = sn.
Proof.
  mbits f; destruct r, sn; cbn [overflow_result]; rewrite ?inf_eq, ?max_eq;
    unfold wf; cbn [sign bexp mant]; repeat split; lia.
Qed.

Lemma max_val f sn : is_finite f (ieee754_max f sn) = true /\ val f (ieee754_max f sn) = (sgn sn * MAXV f)%R.
Proof.
  rewrite max_eq; unfold is_finite, val, MAXV; cbn [sign bexp mant]; mbits f.
  rewrite !(proj2 (Z.eqb_neq _ _)) by lia; split; [reflexivity|].
  replace (EMAX f + EBIAS f - EBIAS f - MBITS f) with (EMAX f - MBITS f) by lia.
  now replace (2 ^ MBITS f + (2 ^ MBITS f - 1)) with (2 * 2 ^ MBITS f - 1) by lia.
Qed.

Lemma overflow_result_value f r sn : OverflowValue f r (overflow_result f r sn).
Proof.
  pose proof (max_val f true); pose proof (max_val f false).
  unfold OverflowValue; rewrite (proj2 (overflow_result_sign f r sn)).
  destruct r, sn; cbn [overflow_result rounds_away negb]; rewrite ?inf_eq; cbn [bexp mant]; auto.
Qed.

(** Packing a normalised mantissa: overflow or an exact datum. *)
Lemma format_pack_normal f r sn xe m s :
  EMIN f <= xe -> 2 ^ MBITS f <= m < 2 ^ PREC f ->
  format_pack f r sn xe m s =
    if xe >? EMAX f then Some (overflow_result f r sn, raise (flags true false true) s)
    else Some (build f sn (xe + EBIAS f) (Z.land m (Z.lnot (HIDDEN_BIT f))), s).
Proof.
  intros He Hm; unfold format_pack, SETCX; autorewrite with st.
  destruct (xe >? EMAX f) eqn:E; [autorewrite with st; reflexivity|].
  pose proof (tst_land_bit m (MBITS f)) as T; mbits f.
  rewrite testbit_top in T by (try rewrite Z.pow_add_r; lia).
  unfold HIDDEN_BIT, MBIT, tst in *; destruct (Z.leb_spec (2 ^ MBITS f) m); [|lia].
  destruct (Z.land m (2 ^ MBITS f) =? 0); [cbn in T; lia|reflexivity].
Qed.

Lemma format_pack_sub f r sn m s :
  0 <= m < 2 ^ MBITS f ->
  format_pack f r sn (EMIN f) m s =
    Some (build f sn (EMIN f - 1 + EBIAS f) m,
          raise (flags false (tst (Z.land (mx (fcsr s)) UNDERFLOW)) false) s).
Proof.
  intros Hm; unfold format_pack, SETCX, when; autorewrite with st.
  pose proof (tst_land_bit m (MBITS f)) as T; mbits f.
  rewrite testbit_top in T by (try rewrite Z.pow_add_r; lia).
  destruct (Z.gtb_spec (EMIN f) (EMAX f)); [lia|].
  unfold HIDDEN_BIT, MBIT; unfold tst in T; destruct (Z.leb_spec (2 ^ MBITS f) m); [lia|].
  destruct (Z.land m (2 ^ MBITS f) =? 0); [|cbn in T; lia].
  autorewrite with st; destruct (tst _); autorewrite with st; reflexivity.
Qed.

(** ** Correctness of [ieee754_format] *)

Lemma Rabs_sgn s r : (0 <= r)%R -> Rabs (sgn s * r) = r.
Proof.
  intros; rewrite Rabs_mult, (Rabs_pos_eq r) by auto.
  destruct s; cbn; [rewrite Rabs_left by lra|rewrite Rabs_R1]; lra.
Qed.

Lemma scaled_nonneg m e : 0 <= m -> (0 <= IZR m * bpow e)%R.
Proof. intros; apply IZR_le in H; pose proof (bpow_pos e); nra. Qed.

Lemma sgn_sign s w b : (0 <= w)%R -> s = b ->
  ((sgn s * w < 0)%R -> b = true) /\ ((0 < sgn s * w)%R -> b = false).
Proof. intros Hw <-; destruct s; cbn; split; intros; auto; lra. Qed.

(** The rounded value differs from the exact one when a low bit is set. *)
Lemma roundoff_exact r sn u m e :
  Sticky 2 u m ->
  (tst (m mod 8) = true <->
   (sgn sn * (IZR (roundoff r sn m) * bpow e))%R <> (sgn sn * (u * bpow (e - 3)))%R).
Proof.
  intros St; rewrite mult8; pose proof (bpow_pos (e - 3)) as Hb.
  destruct (St (2 * roundoff r sn m)) as [S1 S2].
  replace (2 ^ 2 * (2 * roundoff r sn m)) with (8 * roundoff r sn m) in * by ring.
  assert (E : m = 8 * roundoff r sn m <-> m mod 8 = 0)
    by (unfold roundoff; destruct (Z.eqb_spec (m mod 8) 0); split; intros; divmod).
  unfold tst; destruct (Z.eqb_spec (m mod 8) 0) as [Z0|Z0]; cbn [negb]; split; intros; try congruence.
  - exfalso; apply H; do 2 f_equal; symmetry; apply Rle_antisym; [apply S2|apply S1]; lia.
  - intros K; assert (U : u = IZR (8 * roundoff r sn m))
      by (apply Rmult_eq_reg_r with (bpow (e - 3)); destruct sn; cbn [sgn] in K; lra).
    apply Z0, E, Z.le_antisymm; [apply S2|apply S1]; lra.
Qed.

Lemma carried_spec f e M :
  2 ^ MBITS f <= M <= 2 ^ PREC f ->
  2 ^ MBITS f <= snd (carried f e M) < 2 ^ PREC f /\ e <= fst (carried f e M) /\
  (IZR (snd (carried f e M)) * bpow (fst (carried f e M) - MBITS f) = IZR M * bpow (e - MBITS f))%R.
Proof.
  intros HM; unfold carried; mbits f.
  destruct (Z.eqb_spec M (2 * 2 ^ MBITS f)) as [->|]; cbn [fst snd]; repeat split; try lia.
  replace (e + 1 - MBITS f) with (e - MBITS f + 1) by lia; rewrite bpow_shift by lia.
  do 2 f_equal; lia.
Qed.

(** The largest number separates the packable results from the overflows. *)
Lemma maxv_cmp f e m :
  2 ^ MBITS f <= m < 2 ^ PREC f ->
  ((IZR m * bpow (e - MBITS f) <= MAXV f)%R <-> e <= EMAX f).
Proof.
  intros Hm; unfold MAXV; mbits f; split; intros.
  - destruct (Z.le_gt_cases e (EMAX f)); [auto|exfalso; revert H1; apply Rlt_not_le].
    replace (e - MBITS f) with (EMAX f - MBITS f + (e - EMAX f)) by lia.
    rewrite bpow_shift by lia; apply scaled_lt.
    pose proof (pow2_le 1 (e - EMAX f)); nia.
  - replace (EMAX f - MBITS f) with (e - MBITS f + (EMAX f - e)) by lia.
    rewrite bpow_shift by lia; apply scaled_le.
    pose proof (pow2_pos (EMAX f - e)); nia.
Qed.

(** A mantissa at or above the normal range. *)
Lemma format_normal f sn xe xm u s :
  EMIN f <= xe -> 2 ^ (MBITS f + 3) <= xm < 2 ^ (MBITS f + 4) -> Sticky 2 u xm ->
  let r := rm (fcsr s) in
  exists x i uf o, bind (format_round f r sn xe xm)
     (fun '(xe, xm) => format_pack f r sn xe (Z.shiftr xm 3)) s = Some (x, raise (flags i uf o) s) /\
    Packed f (fcsr s) (sgn sn * (u * bpow (xe - MBITS f - 3))) x i uf o.
Proof.
  intros He Hm St r; pose proof (fmt_facts f) as FF; pose proof (pow2_pos (MBITS f)).
  assert (Hm' : 0 <= xm < 2 ^ (MBITS f + 4)) by (mbits f; lia).
  destruct (format_round_run f r sn xe xm s Hm') as (g & Hg & Hs).
  rewrite (run_bind_some _ _ _ _ _ Hg), Hs.
  pose proof (roundoff_range r sn xm (2 ^ PREC f) ltac:(mbits f; lia)) as Hro.
  assert (Hlow : 2 ^ MBITS f <= roundoff r sn xm)
    by (mbits f; destruct (roundoff_cases r sn xm) as [->|[-> ?]]; divmod).
  destruct (carried_spec f xe (roundoff r sn xm) ltac:(lia)) as (C1 & C2 & C3).
  set (xe' := fst _) in *; set (m' := snd _) in *; clearbody xe' m'.
  replace (xm <? 2 ^ (MBITS f + 3)) with false by (symmetry; apply Z.ltb_ge; lia).
  rewrite andb_false_r, format_pack_normal by lia.
  assert (Rz : forall lo, exp_ok lo (xe - MBITS f) ->
      Rnd lo (PREC f) r (sgn sn * (u * bpow (xe - MBITS f - 3)))
        (sgn sn * (IZR m' * bpow (xe' - MBITS f)))).
  { intros lo Hlo; rewrite C3; apply round_sticky; auto; unfold PREC; try lia;
      replace (MBITS f + 1 + 3) with (MBITS f + 4) by lia; auto.
    right; replace (MBITS f + 1 + 2) with (MBITS f + 3) by lia; lia. }
  pose proof (roundoff_exact r sn u xm (xe - MBITS f) St) as Ex; rewrite <- C3 in Ex.
  assert (Nt : ~ Tiny f (fcsr s) (sgn sn * (u * bpow (xe - MBITS f - 3)))).
  { intros (z & Hz & _ & Hlt).
    rewrite (Rnd_unique (prec_pos f) Hz (Rz None I)) in Hlt.
    rewrite Rabs_sgn in Hlt by (apply scaled_nonneg; lia).
    revert Hlt; apply Rle_not_lt; apply Rle_trans with (IZR (2 ^ MBITS f) * bpow (xe' - MBITS f))%R.
    - rewrite <- bpow_Z, <- bpow_plus by lia; apply bpow_le; lia.
    - apply scaled_le; lia. }
  assert (Hu : (0 <= u * bpow (xe - MBITS f - 3))%R).
  { pose proof (bpow_pos (xe - MBITS f - 3)); destruct (St 0) as [[_ S0] _].
    rewrite Z.mul_0_r in S0; specialize (S0 ltac:(lia)); nra. }
  assert (Az : Rabs (sgn sn * (IZR m' * bpow (xe' - MBITS f))) = (IZR m' * bpow (xe' - MBITS f))%R)
    by (apply Rabs_sgn, scaled_nonneg; lia).
  destruct (Z.gtb_spec xe' (EMAX f)) as [Ho|Ho]; autorewrite with st.
  - destruct (overflow_result_sign f r sn) as [W1 W2].
    exists (overflow_result f r sn), true, false, true; split.
    { do 2 f_equal; f_equal; destruct (tst _); reflexivity. }
    apply packed_intro; [exact W1| | |rewrite W2; apply sgn_sign; auto].
    + eexists; split; [apply Rz; unfold ELO; cbn; lia|]; rewrite Az; split; [|split; [apply overflow_result_value|reflexivity]].
      apply Rnot_le_lt; rewrite maxv_cmp by lia; lia.
    + split; [discriminate|tauto].
  - destruct (build_val f sn xe' m' ltac:(lia) ltac:(lia)) as (W1 & W2 & W3 & W4).
    eexists _, (tst (xm mod 8)), false, false; split; [reflexivity|].
    apply packed_intro; [exact W1| | |rewrite W3; apply sgn_sign; auto].
    + eexists; split; [apply Rz; unfold ELO; cbn; lia|]; rewrite Az, W4; repeat split; auto; try apply Ex.
      apply maxv_cmp; lia.
    + split; [discriminate|tauto].
Qed.

Lemma format_denorm_carry f r sn xm s :
  2 ^ (MBITS f + 3) <= xm < 2 ^ (MBITS f + 4) -> roundoff r sn xm = 2 ^ PREC f ->
  format_denorm f r sn (EMIN f - 1) xm s = Some ((EMIN f, 2 ^ (MBITS f + 3)), raise INEXACT s).
Proof.
  intros Hm Hr; assert (Hm' : 0 <= xm < 2 ^ (MBITS f + 4)) by (mbits f; lia).
  destruct (get_rounding_spec f r sn xm Hm') as [G1 G2].
  unfold format_denorm; rewrite Z.eqb_refl, tst_shiftr by (mbits f; lia).
  replace (MBITS f + 1 + 3) with (MBITS f + 4) by lia; rewrite Hr in G1; mbits f.
  destruct (Z.leb_spec (16 * 2 ^ MBITS f) (get_rounding f r sn xm)); [|divmod].
  unfold SETCX; cbn [andb]; autorewrite with st; do 3 f_equal; [lia|].
  rewrite shiftr_div, <- Z.ldiff_land by lia; change (MBIT 3 - 1) with (Z.ones 3).
  rewrite Z.ldiff_ones_r, shiftr_div, Z.shiftl_mul_pow2 by lia.
  change (2 ^ 1) with 2; change (2 ^ 3) with 8.
  rewrite Z.div_div by lia; replace (get_rounding f r sn xm / (2 * 8)) with (2 ^ MBITS f); [lia|].
  divmod.
Qed.

Lemma format_denorm_shift f r sn xe xm s :
  xe < EMIN f -> 2 ^ (MBITS f + 3) <= xm < 2 ^ (MBITS f + 4) ->
  (xe = EMIN f - 1 -> roundoff r sn xm <> 2 ^ PREC f) ->
  format_denorm f r sn xe xm s = Some ((EMIN f, srs xm (EMIN f - xe)), s).
Proof.
  intros He Hm Hr; assert (Hm' : 0 <= xm < 2 ^ (MBITS f + 4)) by (mbits f; lia).
  destruct (get_rounding_spec f r sn xm Hm') as [G1 G2].
  unfold format_denorm; rewrite tst_shiftr, XSRS_any by (mbits f; lia).
  replace (xe + (EMIN f - xe)) with (EMIN f) by lia.
  replace (MBITS f + 1 + 3) with (MBITS f + 4) by lia; mbits f.
  destruct (Z.eqb_spec xe (EMIN f - 1)) as [E|]; [|reflexivity].
  destruct (Z.leb_spec (16 * 2 ^ MBITS f) (get_rounding f r sn xm)); [|reflexivity].
  exfalso; apply (Hr E); pose proof (roundoff_range r sn xm (2 * 2 ^ MBITS f)); divmod.
Qed.

(** The rounded value with an unbounded exponent range, for any exponent. *)
Lemma roundedX_format f r sn xe xm u :
  2 ^ (MBITS f + 3) <= xm < 2 ^ (MBITS f + 4) -> Sticky 2 u xm ->
  RoundedX f r (sgn sn * (u * bpow (xe - MBITS f - 3)))
    (sgn sn * (IZR (roundoff r sn xm) * bpow (xe - MBITS f))).
Proof.
  intros Hm St; mbits f; apply round_sticky; unfold PREC; cbn; auto; try lia.
  - replace (MBITS f + 1 + 3) with (MBITS f + 4) by lia; mbits f; lia.
  - right; replace (MBITS f + 1 + 2) with (MBITS f + 3) by lia; mbits f; lia.
Qed.

Lemma sticky_nonneg u m e : 0 <= m -> Sticky 2 u m -> (0 <= u * bpow e)%R.
Proof.
  intros Hm St; pose proof (bpow_pos e); destruct (St 0) as [[_ S0] _].
  rewrite Z.mul_0_r in S0; specialize (S0 Hm); nra.
Qed.

(** Just below the normal range, rounded up to its least number. *)
Lemma format_carry f sn xm u s :
  2 ^ (MBITS f + 3) <= xm < 2 ^ (MBITS f + 4) -> Sticky 2 u xm ->
  let r := rm (fcsr s) in
  roundoff r sn xm = 2 ^ PREC f ->
  let x := build f sn (EMIN f + EBIAS f) (Z.land (2 ^ MBITS f) (Z.lnot (HIDDEN_BIT f))) in
  Packed f (fcsr s) (sgn sn * (u * bpow (EMIN f - 1 - MBITS f - 3))) x true false false.
Proof.
  intros Hm St r Hr x; pose proof (roundedX_format f r sn (EMIN f - 1) xm u Hm St) as RX.
  rewrite Hr in RX; pose proof (fmt_facts f).
  replace (IZR (2 ^ PREC f) * bpow (EMIN f - 1 - MBITS f))%R with (bpow (EMIN f)) in RX
    by (rewrite <- bpow_Z, <- bpow_plus by (unfold PREC; lia); f_equal; unfold PREC; lia).
  destruct (build_val f sn (EMIN f) (2 ^ MBITS f)) as (W1 & W2 & W3 & W4); [lia|mbits f; lia|].
  assert (V : (IZR (2 ^ MBITS f) * bpow (EMIN f - MBITS f))%R = bpow (EMIN f))
    by (rewrite <- bpow_Z, <- bpow_plus by lia; f_equal; lia).
  rewrite V in W4; fold x in W1, W2, W3, W4.
  assert (Az : Rabs (sgn sn * bpow (EMIN f)) = bpow (EMIN f))
    by (apply Rabs_sgn, Rlt_le, bpow_pos).
  apply packed_intro; auto.
  - exists (sgn sn * bpow (EMIN f))%R; split; [|rewrite Az; repeat split; auto].
    + apply Rnd_restrict; auto; rewrite <- V.
      * exists (if sn then - 2 ^ MBITS f else 2 ^ MBITS f), (ELO f); mbits f.
        destruct sn; cbn [sgn exp_ok]; rewrite ?opp_IZR; unfold ELO; repeat split; lra || lia.
      * exists (if sn then - 2 ^ (MBITS f - 1) else 2 ^ (MBITS f - 1)), (ELO f); mbits f.
        assert (P : 2 ^ MBITS f = 2 * 2 ^ (MBITS f - 1)) by (apply (pow2_split 1); lia).
        rewrite P; destruct sn; cbn [sgn exp_ok]; rewrite ?mult_IZR, ?opp_IZR; unfold ELO;
          repeat split; lra || lia.
    + rewrite <- V; apply maxv_cmp; mbits f; lia.
    + intros _; pose proof (roundoff_exact r sn u xm (EMIN f - 1 - MBITS f) St) as [Ex _].
      rewrite Hr in Ex; replace (bpow (EMIN f)) with (IZR (2 ^ PREC f) * bpow (EMIN f - 1 - MBITS f))%R
        by (rewrite <- bpow_Z, <- bpow_plus by (unfold PREC; lia); f_equal; unfold PREC; lia).
      apply Ex; unfold tst; destruct (Z.eqb_spec (xm mod 8) 0); [exfalso|reflexivity].
      mbits f; destruct (roundoff_cases r sn xm) as [E|[E E']]; [|lia]; rewrite E in Hr; divmod.
  - split; [discriminate|]; intros [(z & Hz & _ & Hlt) _]; exfalso.
    rewrite (Rnd_unique (prec_pos f) Hz RX), Az in Hlt; lra.
  - rewrite W3; apply sgn_sign; auto; apply (sticky_nonneg u xm); auto; mbits f; lia.
Qed.

(** Without that carry a result below the normal range is tiny. *)
Lemma tiny_format f c sn xe xm u :
  let r := rm c in
  xe < EMIN f -> 2 ^ (MBITS f + 3) <= xm < 2 ^ (MBITS f + 4) -> Sticky 2 u xm ->
  (xe = EMIN f - 1 -> roundoff r sn xm <> 2 ^ PREC f) ->
  Tiny f c (sgn sn * (u * bpow (xe - MBITS f - 3))).
Proof.
  intros r He Hm St Hr; eexists; split; [now apply (roundedX_format f r sn xe xm u)|].
  pose proof (roundoff_range r sn xm (2 ^ PREC f) ltac:(mbits f; lia)).
  rewrite Rabs_sgn by (apply scaled_nonneg; lia); pose proof (fmt_facts f).
  assert (V : bpow (EMIN f) = (IZR (2 ^ (PREC f + (EMIN f - 1 - xe))) * bpow (xe - MBITS f))%R)
    by (unfold PREC; rewrite <- bpow_Z, <- bpow_plus by lia; f_equal; lia).
  assert (1 <= roundoff r sn xm)
    by (mbits f; destruct (roundoff_cases r sn xm) as [->|[-> ?]]; divmod).
  split; [apply Rmult_lt_0_compat; auto with st; apply IZR_lt; lia|].
  rewrite V; apply scaled_lt; destruct (Z.eq_dec xe (EMIN f - 1)) as [->|].
  - rewrite Z.sub_diag, Z.add_0_r; specialize (Hr eq_refl); lia.
  - apply Z.le_lt_trans with (2 ^ PREC f); [lia|apply pow2_lt; unfold PREC; lia].
Qed.

(** Packing a mantissa shifted down to the subnormal exponent. *)
Lemma format_sub_run f sn m s :
  0 <= m < 2 ^ (MBITS f + 3) ->
  let r := rm (fcsr s) in
  let i := tst (m mod 8) in
  let en := tst (Z.land (mx (fcsr s)) UNDERFLOW) in
  exists x, bind (format_round f r sn (EMIN f) m)
     (fun '(xe, xm) => format_pack f r sn xe (Z.shiftr xm 3)) s =
       Some (x, raise (flags i (i || en) false) s) /\
    wf f x /\ is_finite f x = true /\ sign x = sn /\
    val f x = (sgn sn * (IZR (roundoff r sn m) * bpow (ELO f)))%R.
Proof.
  intros Hm r i en; pose proof (fmt_facts f) as FF.
  destruct (format_round_run f r sn (EMIN f) m s ltac:(mbits f; lia)) as (g & Hg & Hs).
  rewrite (run_bind_some _ _ _ _ _ Hg), Hs.
  replace (m <? 2 ^ (MBITS f + 3)) with true by (symmetry; apply Z.ltb_lt; lia).
  rewrite andb_true_r; fold i.
  pose proof (roundoff_range r sn m (2 ^ MBITS f) ltac:(mbits f; lia)) as Hro.
  unfold carried; destruct (Z.eqb_spec (roundoff r sn m) (2 ^ PREC f)) as [E|_]; [mbits f; lia|].
  cbn [fst snd]; destruct (Z.eq_dec (roundoff r sn m) (2 ^ MBITS f)) as [E|E].
  - rewrite E, format_pack_normal by (mbits f; lia).
    destruct (Z.gtb_spec (EMIN f) (EMAX f)); [lia|].
    destruct (build_val f sn (EMIN f) (2 ^ MBITS f)) as (W1 & W2 & W3 & W4); [lia|mbits f; lia|].
    eexists; split; [|repeat split; eauto; apply W1].
    assert (i = true) as ->; [|reflexivity].
    unfold i, tst; destruct (Z.eqb_spec (m mod 8) 0) as [Z0|]; [exfalso|reflexivity].
    unfold roundoff in E; rewrite Z0 in E; mbits f; cbn in E; divmod.
  - rewrite format_pack_sub by lia; destruct (build_val_sub f sn (roundoff r sn m)) as (W1 & W2 & W3 & W4);
      [lia|].
    eexists; split; [|repeat split; eauto; apply W1].
    autorewrite with st; fold en; destruct i, en; reflexivity.
Qed.

Lemma format_tiny f sn xe xm u s :
  xe < EMIN f -> 2 ^ (MBITS f + 3) <= xm < 2 ^ (MBITS f + 4) -> Sticky 2 u xm ->
  let r := rm (fcsr s) in
  (xe = EMIN f - 1 -> roundoff r sn xm <> 2 ^ PREC f) ->
  exists x i uf o, bind (format_round f r sn (EMIN f) (srs xm (EMIN f - xe)))
     (fun '(xe, xm) => format_pack f r sn xe (Z.shiftr xm 3)) s = Some (x, raise (flags i uf o) s) /\
    Packed f (fcsr s) (sgn sn * (u * bpow (xe - MBITS f - 3))) x i uf o.
Proof.
  intros He Hm St r Hr; pose proof (fmt_facts f) as FF; set (es := EMIN f - xe).
  pose proof (sticky_srs 2 u xm es ltac:(lia) ltac:(mbits f; lia) ltac:(lia) St) as St'.
  assert (Hv : (u * bpow (xe - MBITS f - 3) = u * bpow (- es) * bpow (ELO f - 3))%R)
    by (rewrite Rmult_assoc, <- bpow_plus; do 2 f_equal; unfold ELO, es; lia).
  assert (Hr' : 0 <= srs xm es < 2 ^ (MBITS f + 3)).
  { split; [apply srs_nonneg; mbits f; lia|].
    apply Z.nle_gt; replace (2 ^ (MBITS f + 3)) with (2 * (4 * 2 ^ MBITS f)) by (mbits f; lia).
    rewrite (proj1 (srs_cmp xm es _ ltac:(mbits f; lia) ltac:(lia))).
    pose proof (pow2_le 1 es ltac:(lia)); mbits f; nia. }
  destruct (format_sub_run f sn (srs xm es) s Hr') as (x & Hx & W1 & W2 & W3 & W4); fold r in Hx, W4.
  eexists x, _, _, false; split; [exact Hx|].
  pose proof (roundoff_exact r sn _ _ (ELO f) St') as Ex.
  assert (Hn : (0 <= u * bpow (xe - MBITS f - 3))%R)
    by (apply (sticky_nonneg u xm); auto; mbits f; lia).
  pose proof (roundoff_range r sn (srs xm es) (2 ^ MBITS f) ltac:(mbits f; lia)) as Hro.
  apply packed_intro; auto.
  - eexists; split; [|split; [|split; [exact W2|split; [exact W4|rewrite Hv; exact Ex]]]].
    + rewrite Hv; apply round_sticky; auto; unfold PREC, ELO; cbn; try lia.
      replace (MBITS f + 1 + 3) with (MBITS f + 4) by lia; mbits f; lia.
    + rewrite Rabs_sgn by (apply scaled_nonneg; lia).
      apply Rle_trans with (IZR (2 ^ MBITS f) * bpow (EMIN f - MBITS f))%R;
        [apply scaled_le; lia|apply maxv_cmp; mbits f; lia].
  - rewrite orb_true_iff; pose proof (tiny_format f (fcsr s) sn xe xm u He Hm St Hr); tauto.
  - rewrite W3; apply sgn_sign; auto.
Qed.

Lemma format_rounds f sn xe xm u s :
  nod (fcsr s) = false -> 2 ^ (MBITS f + 3) <= xm < 2 ^ (MBITS f + 4) -> Sticky 2 u xm ->
  exists x i uf o, ieee754_format f sn xe xm s = Some (x, raise (flags i uf o) s) /\
    Packed f (fcsr s) (sgn sn * (u * bpow (xe - MBITS f - 3))) x i uf o.
Proof.
  intros Hn Hm St; unfold ieee754_format; autorewrite with st; rewrite Hn, andb_false_r.
  destruct (Z.ltb_spec xe (EMIN f)) as [He|He].
  - destruct (Z.eq_dec xe (EMIN f - 1)) as [Ee|Ee];
      [destruct (Z.eq_dec (roundoff (rm (fcsr s)) sn xm) (2 ^ PREC f)) as [Er|Er]|].
    + subst xe; pose proof (format_carry f sn xm u s Hm St Er) as FR.
      eexists _, true, false, false; split; [|exact FR].
      rewrite (run_bind_some _ _ _ _ _ (format_denorm_carry f _ sn xm s Hm Er)).
      unfold format_round; rewrite tst_grs; mbits f.
      replace (8 * 2 ^ MBITS f mod 8) with 0 by divmod; cbn [tst Z.eqb negb]; autorewrite with st.
      replace (Z.shiftr (8 * 2 ^ MBITS f) 3) with (2 ^ MBITS f)
        by (rewrite shiftr_div by lia; change (2 ^ 3) with 8; divmod).
      rewrite format_pack_normal by (mbits f; lia).
      destruct (Z.gtb_spec (EMIN f) (EMAX f)); [lia|reflexivity].
    + rewrite (run_bind_some _ _ _ _ _ (format_denorm_shift f _ sn xe xm s He Hm (fun _ => Er))).
      apply format_tiny; auto.
    + assert (Er : xe = EMIN f - 1 -> roundoff (rm (fcsr s)) sn xm <> 2 ^ PREC f) by lia.
      rewrite (run_bind_some _ _ _ _ _ (format_denorm_shift f _ sn xe xm s He Hm Er)).
      apply format_tiny; auto.
  - autorewrite with st; apply format_normal; auto.
Qed.

(** C5: [ieee754sp_format]/[ieee754dp_format], the common exit of all
    arithmetic, rounds correctly in all four modes: given the sign, exponent
    and a mantissa with guard, round and sticky bits of an exact value, it
    returns that value correctly rounded, into the subnormal range or to the
    overflow result where needed, with exactly the IEEE inexact, overflow and
    (after-rounding) underflow exceptions. *)
Theorem format_correct f sn xe xm u s :
  nod (fcsr s) = false -> 2 ^ (MBITS f + 3) <= xm < 2 ^ (MBITS f + 4) -> Sticky 2 u xm ->
  exists x i uf o, ieee754_format f sn xe xm s = Some (x, raise (flags i uf o) s) /\
    Packed f (fcsr s) (sgn sn * (u * bpow (xe - MBITS f - 3))) x i uf o.
Proof. exact (format_rounds f sn xe xm u s). Qed.

Lemma format_correct_witness :
  exists x i uf o, ieee754_format SP false 0 (2 ^ 26 + 1) s0 = Some (x, raise (flags i uf o) s0) /\
    Packed SP (fcsr s0) (sgn false * (IZR (2 ^ 26 + 1) * bpow (0 - MBITS SP - 3))) x i uf o.
Proof. apply (format_correct SP false 0 (2 ^ 26 + 1) (IZR (2 ^ 26 + 1)) s0); [closed..|apply sticky_exact]. Defined.

(** ** Delivering a result *)

(** The state after an operation that raised [fl] under the name [op]. *)
Definition finish (f : fmt) (op : string) (s : fpst) : fpst :=
  if tstx s then report op (fmt_rt f) s else s.

Lemma run_xcpt f r op s : ieee754f_xcpt f r op s = Some (r, finish f op s).
Proof.
  unfold ieee754f_xcpt, TSTX, finish, ieee754_xcpt; autorewrite with st.
  destruct (tstx s); reflexivity.
Qed.

(** Round and pack, reporting enabled exceptions. *)
Lemma NORMRET_rounds f sn xe xm u op s :
  nod (fcsr s) = false -> 2 ^ (MBITS f + 3) <= xm < 2 ^ (MBITS f + 4) -> Sticky 2 u xm ->
  exists x i uf o, NORMRET f sn xe xm op s = Some (x, finish f op (raise (flags i uf o) s)) /\
    FPResult f (fcsr s) (sgn sn * (u * bpow (xe - MBITS f - 3))) x i uf o.
Proof.
  intros Hn Hm St; destruct (format_rounds f sn xe xm u s Hn Hm St) as (x & i & uf & o & Hx & FR).
  exists x, i, uf, o; split; [|exact FR].
  unfold NORMRET, TSTX; rewrite (run_bind_some _ _ _ _ _ Hx); autorewrite with st.
  unfold finish; destruct (tstx _) eqn:E; [|reflexivity].
  rewrite run_xcpt; unfold finish; now rewrite E.
Qed.

(** ** Finite operands *)

(** The exploded form of a finite operand denotes its value. *)
Definition cval (f : fmt) (k : comp) : R :=
  (sgn (ks k) * (IZR (km k) * bpow (ke k - MBITS f)))%R.

Lemma explode_finite f x :
  wf f x -> is_finite f x = true ->
  ks (EXPLODE f x) = sign x /\
  (kc (EXPLODE f x) = ZERO /\ x = ieee754_zero f (sign x) /\ val f x = 0%R \/
   kc (EXPLODE f x) = DNORM /\ 0 < km (EXPLODE f x) < 2 ^ MBITS f /\ ke (EXPLODE f x) = EMIN f /\
     val f x = cval f (EXPLODE f x) \/
   kc (EXPLODE f x) = NORM /\ 2 ^ MBITS f <= km (EXPLODE f x) < 2 ^ PREC f /\
     EMIN f <= ke (EXPLODE f x) <= EMAX f /\ val f x = cval f (EXPLODE f x)).
Proof.
  destruct x as [sg be ma]; intros [Hb Hm] Hf; cbn in Hb, Hm.
  unfold is_finite in Hf; cbn in Hf; zbool; mbits f.
  unfold EXPLODE, val, cval; cbn [sign bexp mant].
  destruct (Z.eqb_spec be (EMAX f + 1 + EBIAS f)); [contradiction|].
  destruct (Z.eqb_spec be (EMIN f - 1 + EBIAS f)) as [->|].
  - unfold tst; destruct (Z.eqb_spec ma 0) as [->|]; cbn [negb kc ks ke km]; split; auto.
    + left; rewrite zero_eq; replace (EMIN f - 1 + EBIAS f) with 0 by lia.
      repeat split; cbn; lra.
    + right; left; replace (EMIN f - 1 + EBIAS f) with 0 by lia.
      split; [|split; [|split]]; auto; lia.
  - cbn [kc ks ke km]; split; auto; right; right.
    unfold HIDDEN_BIT, MBIT; rewrite lor_bit_add by lia.
    destruct (Z.eqb_spec be 0); [lia|]; rewrite (Z.add_comm ma).
    split; [|split; [|split]]; auto; lia.
Qed.

(** Normalising a denormal operand keeps its value. *)
Lemma dnorm_loop_spec f k :
  0 < km k < 2 ^ MBITS f -> ke k <= EMAX f ->
  exists k', DNORM_loop f k = Some k' /\ kc k' = kc k /\ ks k' = ks k /\
    2 ^ MBITS f <= km k' < 2 ^ PREC f /\ ke k' <= EMAX f /\ cval f k' = cval f k.
Proof.
  intros Hm He; destruct (norm_loop_spec (WBITS f) (MBITS f) (km k) (ke k)) as (n & Hn & Hl & Hr);
    [mbits f; lia..|].
  unfold DNORM_loop; rewrite Hl; eexists; split; [reflexivity|]; cbn [kc ks ke km].
  unfold cval; cbn [ks ke km].
  split; [|split; [|split; [|split]]]; auto; try lia; f_equal.
  rewrite <- bpow_shift by lia; do 2 f_equal; lia.
Qed.

(** [nod] clear: [FLUSH] does nothing. *)
Lemma FLUSH_nop f v k s : nod (fcsr s) = false -> FLUSH f v k s = Some ((v, k), s).
Proof. intros H; unfold FLUSH; autorewrite with st; rewrite H, andb_false_r; reflexivity. Qed.

Lemma clear_fields s :
  rm (fcsr (clear s)) = rm (fcsr s) /\ mx (fcsr (clear s)) = mx (fcsr s) /\
  nod (fcsr (clear s)) = nod (fcsr s).
Proof. repeat split. Qed.

(** [FPResult] only reads the rounding mode and the enable mask. *)
Lemma FPResult_csr f c c' v x i u o :
  rm c = rm c' -> mx c = mx c' -> FPResult f c v x i u o -> FPResult f c' v x i u o.
Proof.
  intros Hr Hx []; unfold Tiny, underflow_enabled in *; rewrite ?Hr, ?Hx in *; now split.
Qed.

(** An exact, representable result raises nothing. *)
Lemma val_bound f x : wf f x -> is_finite f x = true -> (Rabs (val f x) <= MAXV f)%R.
Proof.
  intros W F; destruct (explode_finite f x W F) as (Hs & [(K & _ & ->)|[(K & Hm & He & ->)|(K & Hm & He & ->)]]).
  - rewrite Rabs_R0; apply scaled_nonneg; mbits f; lia.
  - unfold cval; rewrite Rabs_sgn by (apply scaled_nonneg; lia); rewrite He.
    apply Rle_trans with (IZR (2 ^ MBITS f) * bpow (EMIN f - MBITS f))%R;
      [apply scaled_le; lia|apply maxv_cmp; mbits f; lia].
  - unfold cval; rewrite Rabs_sgn by (apply scaled_nonneg; mbits f; lia).
    apply maxv_cmp; lia.
Qed.

Lemma val_infmt f x : wf f x -> is_finite f x = true -> InFmt (Some (ELO f)) (PREC f) (val f x).
Proof.
  intros W F; destruct (explode_finite f x W F) as (Hs & [(K & _ & ->)|[(K & Hm & He & ->)|(K & Hm & He & ->)]]);
    [exists 0, (ELO f); mbits f; repeat split; cbn [exp_ok Z.abs]; lia || lra|..]; unfold cval;
    set (a := km _) in *; set (b := ke _) in *;
    exists (if ks (EXPLODE f x) then - a else a), (b - MBITS f); mbits f;
    destruct (ks _); cbn [sgn exp_ok]; rewrite ?opp_IZR; unfold ELO; repeat split; lra || lia.
Qed.

Lemma val_sign f x : wf f x ->
  ((val f x < 0)%R -> sign x = true) /\ ((0 < val f x)%R -> sign x = false).
Proof.
  intros [Hb Hm]; pose proof (pow2_pos (MBITS f)); pose proof (fmt_facts f).
  unfold val; destruct (bexp x =? 0); apply sgn_sign; auto; apply scaled_nonneg; lia.
Qed.

Lemma val_nonneg f x : wf f x -> sign x = false -> (0 <= val f x)%R.
Proof.
  intros W S; apply Rnot_lt_le; intros L; apply (val_sign f x W) in L; congruence.
Qed.

(** ** Normalising a sticky mantissa

    A mantissa with a set sticky bit may be shifted left by one place only;
    an exact one may be shifted freely. *)
Lemma sticky_norm u d k n :
  0 < d -> 0 <= n -> Sticky 1 u d -> (u = IZR d \/ 2 ^ (k - 1) <= d) -> 1 <= k ->
  d * 2 ^ n < 2 ^ (k + 1) -> Sticky 2 (u * bpow n) (d * 2 ^ n).
Proof.
  intros Hd Hn St [->|Hk] Hk1 Hlt.
  - rewrite bpow_Z, <- mult_IZR by lia; apply sticky_exact.
  - assert (n = 0 \/ n = 1) as [->| ->].
    { assert (n < 2); [|lia]; apply Z.nle_gt; intros H2.
      replace (k + 1) with (k - 1 + 2) in Hlt by lia; rewrite Z.pow_add_r in Hlt by lia.
      pose proof (pow2_le 2 n ltac:(lia)); pose proof (pow2_pos (k - 1)); nia. }
    + rewrite bpow_0, Rmult_1_r, Z.mul_1_r; now apply (sticky_weaken 1); [lia|].
    + rewrite Rmult_comm, Z.mul_comm, bpow_Z by lia; apply (sticky_double 1); [lia|exact St].
Qed.

Lemma norm_sticky f w e d u :
  MBITS f + 4 <= w <= 64 -> 0 < d < 2 ^ (MBITS f + 4) -> Sticky 1 u d ->
  (u = IZR d \/ 2 ^ (MBITS f + 2) <= d) ->
  exists n, norm_loop w (MBITS f + 3) d e = Some (d * 2 ^ n, e - n) /\
    2 ^ (MBITS f + 3) <= d * 2 ^ n < 2 ^ (MBITS f + 4) /\ Sticky 2 (u * bpow n) (d * 2 ^ n).
Proof.
  intros Hw Hd St Ex; pose proof (fmt_facts f).
  destruct (norm_loop_spec w (MBITS f + 3) d e) as (n & Hn0 & Hl & Hr); [lia|lia|..].
  { replace (MBITS f + 3 + 1) with (MBITS f + 4) by lia; lia. }
  replace (MBITS f + 3 + 1) with (MBITS f + 4) in Hr by lia.
  exists n; split; [exact Hl|split; [exact Hr|]].
  apply (sticky_norm u d (MBITS f + 3)); auto; try lia.
  - replace (MBITS f + 3 - 1) with (MBITS f + 2) by lia; auto.
  - replace (MBITS f + 3 + 1) with (MBITS f + 4) by lia; lia.
Qed.

Lemma norm_ret_rounds f sn e d u op s :
  nod (fcsr s) = false -> 0 < d < 2 ^ (MBITS f + 4) -> Sticky 1 u d ->
  (u = IZR d \/ 2 ^ (MBITS f + 2) <= d) ->
  exists x i uf o,
    bind (lift (norm_loop (WBITS f) (MBITS f + 3) d e)) (fun '(m, e) => NORMRET f sn e m op) s =
      Some (x, finish f op (raise (flags i uf o) s)) /\
    FPResult f (fcsr s) (sgn sn * (u * bpow (e - MBITS f - 3))) x i uf o.
Proof.
  intros Hn Hd St Ex; pose proof (fmt_facts f).
  destruct (norm_sticky f (WBITS f) e d u ltac:(lia) Hd St Ex) as (n & Hl & Hr & St2).
  rewrite Hl, run_bind_lift.
  destruct (NORMRET_rounds f sn (e - n) (d * 2 ^ n) (u * bpow n) op s Hn Hr St2)
    as (x & i & uf & o & Hx & FR).
  exists x, i, uf, o; split; [exact Hx|].
  replace (u * bpow (e - MBITS f - 3))%R with (u * bpow n * bpow (e - n - MBITS f - 3))%R; [exact FR|].
  rewrite Rmult_assoc, <- bpow_plus; do 2 f_equal; lia.
Qed.

(** ** Results of whole operations *)

Lemma exact_result f c x :
  wf f x -> is_finite f x = true -> FPResult f c (val f x) x false false false.
Proof.
  intros W F; split; auto; try discriminate; [|now apply val_sign].
  exists (val f x); repeat split; auto; try discriminate; try congruence.
  - apply Rnd_self, val_infmt; auto.
  - now apply val_bound.
Qed.

Lemma zero_facts f sn :
  wf f (ieee754_zero f sn) /\ is_finite f (ieee754_zero f sn) = true /\ val f (ieee754_zero f sn) = 0%R.
Proof.
  rewrite zero_eq; unfold wf, is_finite, val; cbn [sign bexp mant]; rewrite Z.eqb_refl.
  mbits f; repeat split; try lia; try lra.
Qed.

Lemma zero_result f c sn : FPResult f c 0 (ieee754_zero f sn) false false false.
Proof.
  destruct (zero_facts f sn) as (W & F & V); rewrite <- V; now apply exact_result.
Qed.

(** [out] is the outcome of an operation named [op] started in [s] whose exact
    result is [v]: the IEEE result, with its exceptions the current ones and
    accumulated in the sticky ones, reported if one of them is enabled. *)
Definition Delivers (f : fmt) (op : string) (s : fpst) (v : R) (out : option (ieee754 * fpst)) : Prop :=
  exists x i u o, out = Some (x, finish f op (raise (flags i u o) (clear s))) /\
    FPResult f (fcsr s) v x i u o.

Lemma finish_clear f op s : finish f op (clear s) = clear s.
Proof. reflexivity. Qed.

Lemma delivers_exact f op s v x :
  wf f x -> is_finite f x = true -> v = val f x -> Delivers f op s v (Some (x, clear s)).
Proof.
  intros W F ->; exists x, false, false, false; split; [|now apply exact_result].
  now rewrite flags_false, raise_0, finish_clear.
Qed.

Lemma delivers_zero f op s v sn : v = 0%R -> Delivers f op s v (Some (ieee754_zero f sn, clear s)).
Proof. intros ->; destruct (zero_facts f sn) as (W & F & V); now apply delivers_exact. Qed.

Lemma delivers_of f op s v out :
  (exists x i u o, out = Some (x, finish f op (raise (flags i u o) (clear s))) /\
     FPResult f (fcsr (clear s)) v x i u o) -> Delivers f op s v out.
Proof.
  intros (x & i & u & o & E & FR); exists x, i, u, o; split; auto.
  now apply (FPResult_csr f (fcsr (clear s))).
Qed.

(** Representable results are exact. *)

Lemma delivers_representable f op s v out :
  Delivers f op s v out -> InFmt (Some (ELO f)) (PREC f) v -> (Rabs v <= MAXV f)%R ->
  (v = 0 \/ bpow (EMIN f) <= Rabs v)%R ->
  exists x, out = Some (x, clear s) /\ wf f x /\ is_finite f x = true /\ val f x = v.
Proof.
  intros (x & i & u & o & E & [W (z & Hz & Ho) Hu _ _]) Fm Mx Nt.
  assert (z = v) as -> by (apply (Rnd_unique (prec_pos f) Hz), Rnd_self; auto).
  destruct o; [lra|]; destruct Ho as (_ & Fi & V & Hi).
  assert (i = false) as -> by (destruct i; [|reflexivity]; destruct (proj1 Hi eq_refl); reflexivity).
  assert (u = false) as ->.
  { destruct u; [|reflexivity]; destruct (Hu eq_refl) as [(z & Hz' & B) _].
    assert (InFmt None (PREC f) v) by (destruct Fm as (m & e & ? & ? & _); exists m, e; cbn; auto).
    assert (z = v) as -> by (apply (Rnd_unique (prec_pos f) Hz'), Rnd_self; auto).
    destruct Nt as [->|]; [rewrite Rabs_R0 in B|]; lra. }
  exists x; rewrite flags_false, raise_0, finish_clear in E; auto.
Qed.

(** Integers of at most [PREC] bits are representable. *)
Lemma int_representable f n :
  Z.abs n < 2 ^ PREC f ->
  InFmt (Some (ELO f)) (PREC f) (IZR n) /\ (Rabs (IZR n) <= MAXV f)%R /\
  (IZR n = 0 \/ bpow (EMIN f) <= Rabs (IZR n))%R.
Proof.
  intros Hn; pose proof (fmt_facts f) as FF; rewrite <- abs_IZR; repeat split.
  - exists n, 0; rewrite bpow_0, Rmult_1_r; repeat split; auto; unfold ELO; cbn; lia.
  - unfold MAXV; rewrite <- (Rmult_1_r (IZR (Z.abs n))).
    apply Rmult_le_compat; [apply IZR_le; lia|lra|apply IZR_le; lia|].
    rewrite <- bpow_0; apply bpow_le; lia.
  - destruct (Z.eq_dec n 0) as [->|]; [left; reflexivity|right].
    apply Rle_trans with 1%R; [rewrite <- bpow_0; apply bpow_le; lia|apply IZR_le; lia].
Qed.

(** Enter an operation: clear the causes and skip the flushes. *)
Ltac enter Hn :=
  unfold CLEARCX; autorewrite with st;
  repeat (rewrite (run_bind_some _ _ _ _ _ (FLUSH_nop _ _ _ (clear _) Hn)); cbv beta iota).

(** Case analysis on the class of a finite operand. *)
Ltac classify W F :=
  let K := fresh "K" in let E := fresh "E" in let V := fresh "V" in
  let Hm := fresh "Hm" in let He := fresh "He" in let Hs := fresh "Hs" in
  destruct (explode_finite _ _ W F) as
    (Hs & [(K & E & V)|[(K & Hm & He & V)|(K & Hm & He & V)]]); rewrite ?K.

Lemma val_nonzero f x : wf f x -> is_finite f x = true -> ieee754_class f x <> ZERO -> val f x <> 0%R.
Proof.
  intros W F C; unfold ieee754_class in C; classify W F; [contradiction| |];
    rewrite V; unfold cval; pose proof (bpow_pos (ke (EXPLODE f x) - MBITS f));
    (assert (0 < IZR (km (EXPLODE f x)))%R by (apply IZR_lt; mbits f; lia));
    destruct (ks _); cbn [sgn]; nra.
Qed.

(** Flipping the sign bit negates. *)
Lemma negate_wf f x b : wf f x -> wf f (with_sign x b).
Proof. auto. Qed.
Lemma negate_finite f x b : is_finite f x = true -> is_finite f (with_sign x b) = true.
Proof. auto. Qed.
Lemma negate_val f x : val f (with_sign x (negb (sign x))) = (- val f x)%R.
Proof.
  unfold val, with_sign; cbn [sign bexp mant].
  destruct (bexp x =? 0), (sign x); cbn [sgn negb]; lra.
Qed.

Lemma shl3 f m : 2 ^ MBITS f <= m < 2 ^ PREC f -> shl (WBITS f) m 3 = 8 * m.
Proof.
  intros Hm; pose proof (hidden_word f 5 ltac:(lia)); mbits f.
  rewrite shl_small by (change (2 ^ 3) with 8; lia); change (2 ^ 3) with 8; lia.
Qed.

(** Normalise a denormal operand and use the loop's specification. *)
Ltac dnorm Hm :=
  let k := fresh "k" in let D := fresh "D" in let B := fresh "B" in let Q := fresh "Q" in
  let S := fresh "S" in
  match type of Hm with
  | 0 < km ?t < _ =>
      destruct (dnorm_loop_spec _ t Hm ltac:(mbits_of t)) as (k & D & _ & S & B & _ & Q);
      rewrite D; autorewrite with st
  end
with mbits_of t := match goal with H : ke t = EMIN ?f |- _ => rewrite H; destruct f; cbn; lia end.
