(* ===== verification/Views.v ===== *)
(** * The two views of data and of the control register

    The C unions and the alias [ieee754_csr] let the code use a datum or the
    register as one word or as fields; here the two views are inverse. *)

From S2P Require Import Prelude Rounding Ieee754 Format.

Lemma of_bits_bits f x : wf f x -> of_bits f (bits f x) = x.
Proof.
  destruct x as [s e m]; intros [He Hm]; cbn [bexp mant] in *; pose proof (fmt_facts f) as FF.
  unfold of_bits, bits; cbn [sign bexp mant].
  assert (P : 2 ^ (WBITS f - 1) = 2 ^ EBITS f * 2 ^ MBITS f)
    by (rewrite <- Z.pow_add_r by lia; f_equal; lia).
  pose proof (pow2_pos (MBITS f) ltac:(lia)) as PM; pose proof (pow2_pos (EBITS f) ltac:(lia)) as PE.
  set (b := b2z s); assert (Hb : b = 0 \/ b = 1) by (unfold b; destruct s; cbn; lia).
  replace (b * 2 ^ (WBITS f - 1) + e * 2 ^ MBITS f + m) with ((b * 2 ^ EBITS f + e) * 2 ^ MBITS f + m)
    by (rewrite P; ring).
  f_equal.
  - rewrite testbit_top by (try replace (WBITS f - 1 + 1) with (1 + (WBITS f - 1)) by lia;
      rewrite ?Z.pow_add_r by lia; change (2 ^ 1) with 2; rewrite ?P; nia).
    rewrite P; unfold b; destruct s; cbn [b2z]; [apply Z.leb_le|apply Z.leb_gt]; nia.
  - rewrite Z.div_add_l, Z.div_small, Z.add_0_r by lia.
    rewrite Z.add_comm, Z.mod_add, Z.mod_small by lia; reflexivity.
  - rewrite Z.add_comm, Z.mod_add, Z.mod_small by lia; reflexivity.
Qed.

Lemma bits_of_bits f b : 0 <= b < 2 ^ WBITS f -> bits f (of_bits f b) = b.
Proof.
  intros Hb; pose proof (fmt_facts f) as FF; unfold of_bits, bits; cbn [sign bexp mant].
  assert (P : 2 ^ (WBITS f - 1) = 2 ^ MBITS f * 2 ^ EBITS f)
    by (rewrite <- Z.pow_add_r by lia; f_equal; lia).
  assert (P2 : 2 ^ WBITS f = 2 * 2 ^ (WBITS f - 1)) by (apply (pow2_split 1); lia).
  rewrite testbit_top by (try replace (WBITS f - 1 + 1) with (WBITS f) by lia; lia).
  pose proof (pow2_pos (MBITS f) ltac:(lia)) as PM; pose proof (pow2_pos (EBITS f) ltac:(lia)) as PE.
  pose proof (Z.div_mod b (2 ^ MBITS f) ltac:(lia)) as D1.
  pose proof (Z.div_mod (b / 2 ^ MBITS f) (2 ^ EBITS f) ltac:(lia)) as D2.
  rewrite Z.div_div, <- P in D2 by lia.
  replace (b2z (2 ^ (WBITS f - 1) <=? b)) with (b / 2 ^ (WBITS f - 1)); [nia|].
  pose proof (pow2_pos (WBITS f - 1) ltac:(lia)).
  destruct (Z.leb_spec (2 ^ (WBITS f - 1)) b); cbn [b2z]; [|apply Z.div_small; lia].
  symmetry; apply Z.div_unique with (b - 2 ^ (WBITS f - 1)); lia.
Qed.

Lemma rm_of_code r : rm_of (rm_code r) = r.
Proof. destruct r; reflexivity. Qed.

Lemma rm_code_of z : 0 <= z < 4 -> rm_code (rm_of z) = z.
Proof.
  intros; assert (z = 0 \/ z = 1 \/ z = 2 \/ z = 3) as [->|[->|[->| ->]]] by lia; reflexivity.
Qed.

Lemma b2z_testbit w k : 0 <= k -> b2z (Z.testbit w k) = (w / 2 ^ k) mod 2.
Proof. intros; rewrite Z.testbit_spec' by lia; destruct (Z.testbit w k); reflexivity. Qed.

Lemma csr_word_of w : 0 <= w < 2 ^ 32 -> csr_word (csr_of w) = w.
Proof.
  intros Hw; unfold csr_word, csr_of, field; cbn [rm sx mx cx pad1 cond nod pad0].
  rewrite rm_code_of, !b2z_testbit by (try apply Z.mod_pos_bound; lia).
  Z.div_mod_to_equations; lia.
Qed.

Lemma csr_of_wf w : csr_wf (csr_of w).
Proof. repeat split; cbn; apply Z.mod_pos_bound; lia. Qed.

Lemma csr_of_word c : csr_wf c -> csr_of (csr_word c) = c.
Proof.
  destruct c as [r s x c p b n q]; intros (Hs & Hx & Hc & Hp & Hq); cbn [sx mx cx pad1 pad0] in *.
  unfold csr_word, csr_of, field; cbn [rm sx mx cx pad1 cond nod pad0].
  assert (Hr : 0 <= rm_code r < 4) by (destruct r; cbn; lia).
  assert (Hb : 0 <= b2z b < 2) by (destruct b; cbn; lia).
  assert (Hn : 0 <= b2z n < 2) by (destruct n; cbn; lia).
  assert (T : forall a d, b2z a = b2z d -> a = d) by (intros [] []; cbn; lia || auto).
  f_equal.
  - rewrite <- (rm_of_code r) at 2; f_equal; Z.div_mod_to_equations; lia.
  - Z.div_mod_to_equations; lia.
  - Z.div_mod_to_equations; lia.
  - Z.div_mod_to_equations; lia.
  - Z.div_mod_to_equations; lia.
  - apply T; rewrite b2z_testbit by lia; Z.div_mod_to_equations; lia.
  - apply T; rewrite b2z_testbit by lia; Z.div_mod_to_equations; lia.
  - Z.div_mod_to_equations; lia.
Qed.

Lemma csr_word_range c : csr_wf c -> 0 <= csr_word c < 2 ^ 32.
Proof.
  destruct c as [r s x c p b n q]; intros (Hs & Hx & Hc & Hp & Hq); cbn [sx mx cx pad1 pad0] in *.
  unfold csr_word; cbn [rm sx mx cx pad1 cond nod pad0].
  destruct r, b, n; cbn [rm_code b2z]; lia.
Qed.

(** the field view and the word view of floating point data and of the
    control register are inverse to each other. *)
Theorem views_inverse f x b w c :
  wf f x -> 0 <= b < 2 ^ WBITS f -> 0 <= w < 2 ^ 32 -> csr_wf c ->
  of_bits f (bits f x) = x /\ bits f (of_bits f b) = b /\
  csr_word (csr_of w) = w /\ csr_of (csr_word c) = c.
Proof. auto using of_bits_bits, bits_of_bits, csr_word_of, csr_of_word. Qed.

Lemma views_inverse_witness :
  of_bits DP (bits DP (one_half DP)) = one_half DP /\ bits DP (of_bits DP 5) = 5 /\
  csr_word (csr_of 0x80000f83) = 0x80000f83 /\ csr_of (csr_word (fcsr s0)) = fcsr s0.
Proof. apply (views_inverse DP (one_half DP) 5 0x80000f83 (fcsr s0)); closed. Defined.

(** Raising and clearing exceptions keeps the register well formed. *)
Lemma raise_wf fl c : 0 <= fl < 2 ^ 5 -> csr_wf c -> csr_wf (raise_csr fl c).
Proof.
  intros Hf (Hs & Hx & Hc & Hp & Hq).
  split; [apply lor_range; auto; lia|split; [exact Hx|split; [apply lor_range; lia|split; assumption]]].
Qed.

Lemma clear_wf c : csr_wf c -> csr_wf (clear_csr c).
Proof. intros (? & ? & ? & ? & ?); repeat split; cbn; lia. Qed.

Lemma flags_range i u o : 0 <= flags i u o < 2 ^ 5.
Proof. unfold flags, INEXACT, UNDERFLOW, OVERFLOW; destruct i, u, o; cbn; lia. Qed.
