(* ===== verification/AddSub.v ===== *)
(** * Addition and subtraction

    Models [sp_add.c], [dp_add.c], [sp_sub.c] and [dp_sub.c]: the operand
    classification switch, the alignment of the mantissas with a sticky right
    shift, the addition or subtraction of the magnitudes and the
    normalisation before packing. *)

From S2P Require Import Prelude Rounding Ieee754 Format.

(** ** The code *)

(** The part shared word for word by [add] and [sub] once the mantissas have
    a common exponent: add or subtract magnitudes, normalise and pack. *)
Definition add_mants (f : fmt) (xs ys : bool) (xe xm ym : Z) (op : string) : M ieee754 :=
  if Bool.eqb xs ys then
    let xm := wrap (WBITS f) (xm + ym) in
    let '(xe, xm) :=
      if tst (Z.shiftr xm (MBITS f + 1 + 3)) then (xe + 1, XSRS1 xm) else (xe, xm) in
    NORMRET f xs xe xm op
  else
    let '(xm, xs) :=
      if xm >=? ym then (wrap (WBITS f) (xm - ym), xs) else (wrap (WBITS f) (ym - xm), ys) in
    if xm =? 0 then
      r <- gets (fun s => rm (fcsr s)) ;;
      ret (ieee754_zero f (match r with RD => true | _ => false end))
    else
      '(xm, xe) <- lift (norm_loop (WBITS f) (MBITS f + 3) xm xe) ;;
      NORMRET f xs xe xm op.

(** Guard, round and sticky space, then alignment. *)
Definition add_align (f : fmt) (kx ky : comp) (op : string) : M ieee754 :=
  let xm := shl (WBITS f) (km kx) 3 in
  let ym := shl (WBITS f) (km ky) 3 in
  let xe := ke kx in
  let ye := ke ky in
  if xe >? ye then
    let s := xe - ye in
    add_mants f (ks kx) (ks ky) xe xm (XSRS f ym s) op
  else if ye >? xe then
    let s := ye - xe in
    add_mants f (ks kx) (ks ky) (xe + s) (XSRS f xm s) ym op
  else add_mants f (ks kx) (ks ky) xe xm ym op.

Definition ieee754_add (f : fmt) (x y : ieee754) : M ieee754 :=
  let kx := EXPLODE f x in
  let ky := EXPLODE f y in
  CLEARCX ;;;
  '(x, kx) <- FLUSH f x kx ;;
  '(y, ky) <- FLUSH f y ky ;;
  match kc kx, kc ky with
  | SNAN, _ | _, SNAN =>
      SETCX INVALID_OPERATION ;;; ieee754_nanxcpt f (ieee754_indef f) "add"
  | QNAN, _ => ret x
  | _, QNAN => ret y
  | INF, INF =>
      if Bool.eqb (ks kx) (ks ky) then ret x
      else SETCX INVALID_OPERATION ;;; ieee754f_xcpt f (ieee754_indef f) "add"
  | _, INF => ret y
  | INF, _ => ret x
  | ZERO, ZERO =>
      if Bool.eqb (ks kx) (ks ky) then ret x
      else r <- gets (fun s => rm (fcsr s)) ;;
           ret (ieee754_zero f (match r with RD => true | _ => false end))
  | _, ZERO => ret x
  | ZERO, _ => ret y
  | DNORM, DNORM =>
      kx <- lift (DNORM_loop f kx) ;; ky <- lift (DNORM_loop f ky) ;; add_align f kx ky "add"
  | NORM, DNORM => ky <- lift (DNORM_loop f ky) ;; add_align f kx ky "add"
  | DNORM, NORM => kx <- lift (DNORM_loop f kx) ;; add_align f kx ky "add"
  | NORM, NORM => add_align f kx ky "add"
  end.

Definition flip (k : comp) : comp := mkcomp (kc k) (negb (ks k)) (ke k) (km k).

Definition ieee754_sub (f : fmt) (x y : ieee754) : M ieee754 :=
  let kx := EXPLODE f x in
  let ky := EXPLODE f y in
  CLEARCX ;;;
  '(x, kx) <- FLUSH f x kx ;;
  '(y, ky) <- FLUSH f y ky ;;
  match kc kx, kc ky with
  | SNAN, _ | _, SNAN =>
      SETCX INVALID_OPERATION ;;; ieee754_nanxcpt f (ieee754_indef f) "sub"
  | QNAN, _ => ret x
  | _, QNAN => ret y
  | INF, INF =>
      if negb (Bool.eqb (ks kx) (ks ky)) then ret x
      else SETCX INVALID_OPERATION ;;; ieee754f_xcpt f (ieee754_indef f) "sub"
  | _, INF => ret (ieee754_inf f (negb (ks ky)))
  | INF, _ => ret x
  | ZERO, ZERO =>
      if negb (Bool.eqb (ks kx) (ks ky)) then ret x
      else r <- gets (fun s => rm (fcsr s)) ;;
           ret (ieee754_zero f (match r with RD => true | _ => false end))
  | _, ZERO => ret x
  | ZERO, _ => ret (with_sign y (negb (sign y)))
  | DNORM, DNORM =>
      kx <- lift (DNORM_loop f kx) ;; ky <- lift (DNORM_loop f ky) ;;
      add_align f kx (flip ky) "sub"
  | NORM, DNORM => ky <- lift (DNORM_loop f ky) ;; add_align f kx (flip ky) "sub"
  | DNORM, NORM => kx <- lift (DNORM_loop f kx) ;; add_align f kx (flip ky) "sub"
  | NORM, NORM => add_align f kx (flip ky) "sub"
  end.

Definition ieee754sp_add := ieee754_add SP.
Definition ieee754dp_add := ieee754_add DP.
Definition ieee754sp_sub := ieee754_sub SP.
Definition ieee754dp_sub := ieee754_sub DP.

(** ** Correctness *)

(** The sign of an exact zero sum. *)
Definition zero_sign (r : rmode) : bool := match r with RD => true | _ => false end.

(** What an addition delivers for the exact sum [v]: the IEEE result, or the
    zero of the rounding mode's sign when operands cancel. *)
Definition SumResult (f : fmt) (op : string) (s : fpst) (v : R) (out : option (ieee754 * fpst)) : Prop :=
  (v = 0%R /\ out = Some (ieee754_zero f (zero_sign (rm (fcsr s))), s)) \/
  (exists x i u o, v <> 0%R /\ out = Some (x, finish f op (raise (flags i u o) s)) /\
     FPResult f (fcsr s) v x i u o).

(** Aligned mantissas: sums and differences are sticky, and a difference
    small enough to be shifted left by two places is exact. *)
Record Aligned (f : fmt) (ux uy : R) (xm ym : Z) : Prop := {
  al_sum : Sticky 1 (ux + uy) (xm + ym);
  al_diff : Sticky 1 (ux - uy) (xm - ym);
  al_x : 0 < xm < 2 ^ (MBITS f + 4);
  al_y : 0 < ym < 2 ^ (MBITS f + 4);
  al_big : 2 ^ (MBITS f + 3) <= xm + ym;
  al_near : (ux = IZR xm /\ uy = IZR ym) \/ 2 ^ (MBITS f + 2) <= Z.abs (xm - ym)
}.

Lemma aligned_sym f ux uy xm ym : Aligned f ux uy xm ym -> Aligned f uy ux ym xm.
Proof.
  intros [A B C D E N]; split; auto; try lia.
  - now rewrite Rplus_comm, Z.add_comm.
  - apply sticky_opp in B; replace (uy - ux)%R with (- (ux - uy))%R by lra.
    now replace (ym - xm) with (- (xm - ym)) by lia.
  - destruct N as [[? ?]|?]; [left; auto|right; lia].
Qed.

Lemma add_mants_same f xs e xm ym ux uy op s :
  nod (fcsr s) = false -> Aligned f ux uy xm ym ->
  exists x i u o, add_mants f xs xs e xm ym op s = Some (x, finish f op (raise (flags i u o) s)) /\
    FPResult f (fcsr s) (sgn xs * ((ux + uy) * bpow (e - MBITS f - 3))) x i u o.
Proof.
  intros Hn [Sum _ Hx Hy Big _]; unfold add_mants; rewrite Bool.eqb_reflx.
  pose proof (hidden_word f 5 ltac:(lia)); mbits f.
  rewrite wrap_small, tst_shiftr by lia.
  replace (MBITS f + 1 + 3) with (MBITS f + 4) by lia; mbits f.
  destruct (Z.leb_spec (16 * 2 ^ MBITS f) (xm + ym)).
  - rewrite XSRS1_srs by lia.
    pose proof (sticky_srs 1 _ (xm + ym) 1 ltac:(lia) ltac:(lia) ltac:(lia) Sum) as St.
    apply (sticky_weaken 1 2) in St; [|lia].
    assert (Hr : 2 ^ (MBITS f + 3) <= srs (xm + ym) 1 < 2 ^ (MBITS f + 4)).
    { replace (2 ^ (MBITS f + 3)) with (2 * (4 * 2 ^ MBITS f)) by (mbits f; lia).
      replace (2 ^ (MBITS f + 4)) with (2 * (8 * 2 ^ MBITS f)) by (mbits f; lia).
      rewrite Z.lt_nge, !(proj1 (srs_cmp (xm + ym) 1 _ ltac:(lia) ltac:(lia))); lia. }
    destruct (NORMRET_rounds f xs (e + 1) _ _ op s Hn Hr St) as (x & i & u & o & HX & FR).
    exists x, i, u, o; split; [exact HX|].
    replace ((ux + uy) * bpow (e - MBITS f - 3))%R
      with ((ux + uy) * bpow (- (1)) * bpow (e + 1 - MBITS f - 3))%R; [exact FR|].
    rewrite Rmult_assoc, <- bpow_plus; do 2 f_equal; lia.
  - apply NORMRET_rounds; auto; [mbits f; lia|apply (sticky_weaken 1); [lia|exact Sum]].
Qed.

Lemma add_mants_diff f xs e xm ym ux uy op s :
  nod (fcsr s) = false -> Aligned f ux uy xm ym ->
  SumResult f op s (sgn xs * ((ux - uy) * bpow (e - MBITS f - 3)))
    (add_mants f xs (negb xs) e xm ym op s).
Proof.
  intros Hn Al; pose proof (aligned_sym _ _ _ _ _ Al) as Al'.
  destruct Al as [_ Df Hx Hy _ Near], Al' as [_ Df' _ _ _ _].
  unfold add_mants; replace (Bool.eqb xs (negb xs)) with false by (destruct xs; reflexivity).
  pose proof (hidden_word f 5 ltac:(lia)); pose proof (fmt_facts f).
  assert (Hw : 2 ^ (MBITS f + 4) <= 2 ^ WBITS f) by (apply pow2_le; lia).
  assert (Go : forall sg d u v, Sticky 1 u d -> 0 <= d < 2 ^ (MBITS f + 4) ->
     (u = IZR d \/ 2 ^ (MBITS f + 2) <= d) -> v = (sgn sg * (u * bpow (e - MBITS f - 3)))%R ->
     SumResult f op s v
       ((if d =? 0 then r <- gets (fun s => rm (fcsr s)) ;; ret (ieee754_zero f (match r with RD => true | _ => false end))
         else '(m, e) <- lift (norm_loop (WBITS f) (MBITS f + 3) d e) ;; NORMRET f sg e m op) s)).
  { intros sg d u v St Hd Ex ->; pose proof (bpow_pos (e - MBITS f - 3)) as Hb.
    destruct (St 0) as [[S1 S1'] [S2 S2']]; rewrite Z.mul_0_r in *.
    destruct (Z.eqb_spec d 0) as [->|Hd0].
    - left; split; [|reflexivity].
      replace u with 0%R by (apply Rle_antisym; [apply S1'|apply S2']; lia); lra.
    - right; destruct (norm_ret_rounds f sg e d u op s Hn ltac:(lia) St Ex) as (x & i & uf & o & HX & FR).
      exists x, i, uf, o; split; [|split; auto].
      assert (0 < u)%R by (apply Rnot_le_lt; intros K; apply S2 in K; lia).
      destruct sg; cbn [sgn]; nra. }
  destruct (Z.geb_spec xm ym); rewrite wrap_small by lia.
  - apply (Go xs (xm - ym) (ux - uy)%R); auto; [lia|].
    destruct Near as [[-> ->]|?]; [left; now rewrite minus_IZR|right; lia].
  - apply (Go (negb xs) (ym - xm) (uy - ux)%R); auto; [lia| |].
    + destruct Near as [[-> ->]|?]; [left; now rewrite minus_IZR|right; lia].
    + destruct xs; cbn [sgn negb]; lra.
Qed.

(** A mantissa shifted right by [s] places against one that stays. *)
Lemma align_one f a b s :
  2 ^ MBITS f <= a < 2 ^ PREC f -> 2 ^ MBITS f <= b < 2 ^ PREC f -> 0 <= s ->
  Aligned f (IZR (8 * a)) (IZR (8 * b) * bpow (- s)) (8 * a) (srs (8 * b) s).
Proof.
  intros Ha Hb Hs; mbits f.
  pose proof (sticky_srs 1 _ (8 * b) s ltac:(lia) ltac:(lia) Hs (sticky_exact 1 (8 * b))) as St.
  pose proof (srs_pos (8 * b) s ltac:(lia) Hs) as Hpos.
  assert (Hlt : srs (8 * b) s < 2 * (8 * 2 ^ MBITS f)).
  { apply Z.nle_gt; rewrite (proj1 (srs_cmp (8 * b) s _ ltac:(lia) Hs)).
    pose proof (pow2_pos s Hs); nia. }
  split; try (mbits f; lia).
  - rewrite Rplus_comm, Z.add_comm; replace (8 * a) with (2 ^ 1 * (4 * a)) by lia.
    now apply sticky_shift.
  - apply sticky_opp in St; replace (8 * a) with (2 ^ 1 * (4 * a)) by lia.
    replace (IZR (2 ^ 1 * (4 * a)) - IZR (8 * b) * bpow (- s))%R
      with (- (IZR (8 * b) * bpow (- s)) + IZR (2 ^ 1 * (4 * a)))%R by lra.
    replace (2 ^ 1 * (4 * a) - srs (8 * b) s) with (- srs (8 * b) s + 2 ^ 1 * (4 * a)) by lia.
    now apply sticky_shift.
  - destruct (Z.le_gt_cases s 3) as [H3|H3].
    + left; split; [reflexivity|].
      assert (E : 8 * b = b * 2 ^ (3 - s) * 2 ^ s)
        by (rewrite <- Z.mul_assoc, <- Z.pow_add_r, Z.sub_add by lia; change (2 ^ 3) with 8; lia).
      unfold srs; rewrite E, Z.div_mul, Z.mod_mul by (apply Z.pow_nonzero; lia); cbn [tst Z.eqb negb b2z].
      rewrite Z.lor_0_r, (mult_IZR (b * 2 ^ (3 - s))), <- (bpow_Z s), Rmult_assoc, bpow_opp by lia; lra.
    + right; enough (srs (8 * b) s <= 2 * 2 ^ MBITS f).
      { rewrite pow_mbits by lia; change (2 ^ 2) with 4; lia. }
      apply srs_lt; try lia; pose proof (pow2_le 4 s ltac:(lia)); nia.
Qed.

(** A normalised operand in units of its guard bits. *)
Lemma cval8 f k e :
  cval f k = (sgn (ks k) * (IZR (8 * km k) * bpow (ke k - e) * bpow (e - MBITS f - 3)))%R.
Proof.
  unfold cval; rewrite Rmult_assoc, <- bpow_plus.
  rewrite mult8; do 3 f_equal; lia.
Qed.

Lemma add_mants_rounds f xs ys e xm ym ux uy op s :
  nod (fcsr s) = false -> Aligned f ux uy xm ym ->
  SumResult f op s (sgn xs * (ux * bpow (e - MBITS f - 3)) + sgn ys * (uy * bpow (e - MBITS f - 3)))
    (add_mants f xs ys e xm ym op s).
Proof.
  intros Hn Al; pose proof (bpow_pos (e - MBITS f - 3)) as Hb.
  destruct (Bool.bool_dec ys (negb xs)) as [->|Hy].
  - pose proof (add_mants_diff f xs e xm ym ux uy op s Hn Al) as D.
    replace (sgn xs * (ux * bpow (e - MBITS f - 3)) + sgn (negb xs) * (uy * bpow (e - MBITS f - 3)))%R
      with (sgn xs * ((ux - uy) * bpow (e - MBITS f - 3)))%R; [exact D|].
    destruct xs; cbn [sgn negb]; lra.
  - assert (ys = xs) as -> by (destruct ys, xs; cbn in *; congruence).
    destruct (add_mants_same f xs e xm ym ux uy op s Hn Al) as (x & i & u & o & HX & FR).
    right; exists x, i, u, o; split; [|split; [exact HX|]].
    + destruct Al as [Sum _ Hx Hy' _ _]; destruct (Sum 0) as [_ [S2 _]]; rewrite Z.mul_0_r in S2.
      assert (0 < ux + uy)%R by (apply Rnot_le_lt; intros K; apply S2 in K; lia).
      destruct xs; cbn [sgn]; nra.
    + replace (sgn xs * (ux * bpow (e - MBITS f - 3)) + sgn xs * (uy * bpow (e - MBITS f - 3)))%R
        with (sgn xs * ((ux + uy) * bpow (e - MBITS f - 3)))%R by ring.
      exact FR.
Qed.

(** Two normalised operands. *)
Lemma add_align_rounds f kx ky op s :
  nod (fcsr s) = false ->
  2 ^ MBITS f <= km kx < 2 ^ PREC f -> 2 ^ MBITS f <= km ky < 2 ^ PREC f ->
  SumResult f op s (cval f kx + cval f ky) (add_align f kx ky op s).
Proof.
  intros Hn Hx Hy; unfold add_align; rewrite !shl3 by auto.
  assert (R : 0 < 8 * km kx < 2 ^ (MBITS f + 4) /\ 0 < 8 * km ky < 2 ^ (MBITS f + 4)) by (mbits f; lia).
  assert (B0 : forall e, bpow (e - e) = 1%R) by (intros; rewrite Z.sub_diag; reflexivity).
  destruct (Z.gtb_spec (ke kx) (ke ky)) as [H|H]; [|destruct (Z.gtb_spec (ke ky) (ke kx)) as [H'|H']].
  - rewrite XSRS_any by lia.
    pose proof (align_one f (km kx) (km ky) (ke kx - ke ky) Hx Hy ltac:(lia)) as Al.
    rewrite (cval8 f kx (ke kx)), (cval8 f ky (ke kx)), B0, Rmult_1_r.
    replace (ke ky - ke kx) with (- (ke kx - ke ky)) by lia.
    now apply add_mants_rounds.
  - rewrite XSRS_any by lia.
    pose proof (aligned_sym _ _ _ _ _ (align_one f (km ky) (km kx) (ke ky - ke kx) Hy Hx ltac:(lia))) as Al.
    rewrite (cval8 f kx (ke ky)), (cval8 f ky (ke ky)), B0, Rmult_1_r.
    replace (ke kx + (ke ky - ke kx)) with (ke ky) by lia.
    replace (ke kx - ke ky) with (- (ke ky - ke kx)) by lia.
    now apply add_mants_rounds.
  - assert (E : ke ky = ke kx) by lia.
    pose proof (align_one f (km kx) (km ky) 0 Hx Hy ltac:(lia)) as Al.
    rewrite (cval8 f kx (ke kx)), (cval8 f ky (ke kx)), E, !B0, !Rmult_1_r.
    change (- 0) with 0 in Al; rewrite bpow_0, Rmult_1_r in Al; unfold srs in Al; rewrite Z.div_1_r, Z.mod_1_r, Z.lor_0_r in Al.
    now apply add_mants_rounds.
Qed.

(** The sum of two finite data, with the sign rule for exact zeros. *)
Definition SumSpec (f : fmt) (op : string) (s : fpst) (v : R) (same : option bool)
  (out : option (ieee754 * fpst)) : Prop :=
  Delivers f op s v out /\
  (v = 0%R -> out = Some (ieee754_zero f (match same with
     | Some sn => sn | None => zero_sign (rm (fcsr s)) end), clear s)).

Lemma sum_spec_align f op s v kx ky :
  nod (fcsr s) = false ->
  2 ^ MBITS f <= km kx < 2 ^ PREC f -> 2 ^ MBITS f <= km ky < 2 ^ PREC f ->
  v = (cval f kx + cval f ky)%R -> SumSpec f op s v None (add_align f kx ky op (clear s)).
Proof.
  intros Hn Hx Hy ->.
  destruct (add_align_rounds f kx ky op (clear s) Hn Hx Hy) as [[V0 ->]|(x & i & u & o & V0 & -> & FR)].
  - split; [now apply delivers_zero|reflexivity].
  - split; [|contradiction].
    exists x, i, u, o; split; auto; now apply (FPResult_csr f (fcsr (clear s))).
Qed.

Lemma flip_cval f k : cval f (flip k) = (- cval f k)%R.
Proof. unfold cval, flip; cbn [ks km ke]; destruct (ks k); cbn [sgn negb]; lra. Qed.

Definition same_zero (f : fmt) (x y : ieee754) (sy : bool) : option bool :=
  match ieee754_class f x, ieee754_class f y with
  | ZERO, ZERO => if Bool.eqb (sign x) sy then Some (sign x) else None
  | _, _ => None
  end.

Lemma add_spec f x y s :
  wf f x -> wf f y -> is_finite f x = true -> is_finite f y = true -> nod (fcsr s) = false ->
  SumSpec f "add" s (val f x + val f y) (same_zero f x y (sign y)) (ieee754_add f x y s).
Proof.
  intros Wx Wy Fx Fy Hn; unfold ieee754_add, same_zero, ieee754_class; enter Hn.
  pose proof (val_nonzero f x Wx Fx) as Nx; pose proof (val_nonzero f y Wy Fy) as Ny.
  unfold ieee754_class in Nx, Ny; classify Wx Fx; classify Wy Fy.
  - rewrite Hs, Hs0; destruct (Bool.eqb (sign x) (sign y)); autorewrite with st; split.
    + apply delivers_exact; auto; lra.
    + intros _; now rewrite <- E.
    + apply delivers_zero; lra.
    + reflexivity.
  - rewrite V, Rplus_0_l; split; [apply delivers_exact; auto|intros Z0; elim Ny; congruence].
  - rewrite V, Rplus_0_l; split; [apply delivers_exact; auto|intros Z0; elim Ny; congruence].
  - rewrite V0, Rplus_0_r; split; [apply delivers_exact; auto|intros Z0; elim Nx; congruence].
  - dnorm Hm; dnorm Hm0; apply sum_spec_align; auto; congruence.
  - dnorm Hm; apply sum_spec_align; auto; congruence.
  - rewrite V0, Rplus_0_r; split; [apply delivers_exact; auto|intros Z0; elim Nx; congruence].
  - dnorm Hm0; apply sum_spec_align; auto; congruence.
  - apply sum_spec_align; auto; congruence.
Qed.

(** C1: [ieee754sp_add]/[ieee754dp_add] on finite operands: the routine
    terminates and delivers the correctly rounded sum of the two exact values
    in the current rounding mode, with the IEEE 754 inexact, underflow and
    overflow exceptions; an exact zero sum is the zero of the operands' common
    sign, or of the sign the rounding mode prescribes. *)
Theorem ieee754_add_correct f x y s :
  wf f x -> wf f y -> is_finite f x = true -> is_finite f y = true -> nod (fcsr s) = false ->
  SumSpec f "add" s (val f x + val f y) (same_zero f x y (sign y)) (ieee754_add f x y s).
Proof. exact (add_spec f x y s). Qed.

Lemma ieee754_add_correct_witness :
  SumSpec DP "add" s0 (val DP (one_half DP) + val DP (minus_three DP))
    (same_zero DP (one_half DP) (minus_three DP) (sign (minus_three DP)))
    (ieee754_add DP (one_half DP) (minus_three DP) s0).
Proof. apply (ieee754_add_correct DP (one_half DP) (minus_three DP) s0); closed. Defined.

Lemma sub_spec f x y s :
  wf f x -> wf f y -> is_finite f x = true -> is_finite f y = true -> nod (fcsr s) = false ->
  SumSpec f "sub" s (val f x - val f y) (same_zero f x y (negb (sign y))) (ieee754_sub f x y s).
Proof.
  intros Wx Wy Fx Fy Hn; unfold ieee754_sub, same_zero, ieee754_class; enter Hn.
  pose proof (val_nonzero f x Wx Fx) as Nx; pose proof (val_nonzero f y Wy Fy) as Ny.
  unfold ieee754_class in Nx, Ny; classify Wx Fx; classify Wy Fy.
  - rewrite Hs, Hs0; replace (negb (Bool.eqb (sign x) (sign y))) with (Bool.eqb (sign x) (negb (sign y)))
      by (destruct (sign x), (sign y); reflexivity).
    destruct (Bool.eqb (sign x) (negb (sign y))); autorewrite with st; split.
    + apply delivers_exact; auto; lra.
    + intros _; now rewrite <- E.
    + apply delivers_zero; lra.
    + reflexivity.
  - split; [apply delivers_exact; auto using negate_wf, negate_finite; rewrite negate_val; lra|].
    intros Z0; elim Ny; [congruence|lra].
  - split; [apply delivers_exact; auto using negate_wf, negate_finite; rewrite negate_val; lra|].
    intros Z0; elim Ny; [congruence|lra].
  - split; [apply delivers_exact; auto; lra|intros Z0; elim Nx; [congruence|lra]].
  - dnorm Hm; dnorm Hm0; apply sum_spec_align; auto; rewrite flip_cval; lra.
  - dnorm Hm; apply sum_spec_align; auto; rewrite flip_cval; lra.
  - split; [apply delivers_exact; auto; lra|intros Z0; elim Nx; [congruence|lra]].
  - dnorm Hm0; apply sum_spec_align; auto; rewrite flip_cval; lra.
  - apply sum_spec_align; auto; rewrite flip_cval; lra.
Qed.

(** C2: [ieee754sp_sub]/[ieee754dp_sub] on finite operands: the correctly
    rounded difference, exceptions and zero signs as for addition. *)
Theorem ieee754_sub_correct f x y s :
  wf f x -> wf f y -> is_finite f x = true -> is_finite f y = true -> nod (fcsr s) = false ->
  SumSpec f "sub" s (val f x - val f y) (same_zero f x y (negb (sign y))) (ieee754_sub f x y s).
Proof. exact (sub_spec f x y s). Qed.

Lemma ieee754_sub_correct_witness :
  SumSpec DP "sub" s0 (val DP (one_half DP) - val DP (minus_three DP))
    (same_zero DP (one_half DP) (minus_three DP) (negb (sign (minus_three DP))))
    (ieee754_sub DP (one_half DP) (minus_three DP) s0).
Proof. apply (ieee754_sub_correct DP (one_half DP) (minus_three DP) s0); closed. Defined.
