(* ===== verification/Mul.v ===== *)
(** * Multiplication

    Models [sp_mul.c] and [dp_mul.c]: the double-width product of the
    mantissas is assembled from half-word products with explicit carries, its
    low word folded into a sticky bit. *)

From S2P Require Import Prelude Rounding Ieee754 Format.

(** ** The code *)

(** One of the two middle partial products [t] added into [hrm:lrm]:
    [at = lrm + (t << h); hrm += at < lrm; lrm = at; hrm = hrm + (t >> h)]. *)
Definition mul_acc (w h t : Z) (hl : Z * Z) : Z * Z :=
  let '(hrm, lrm) := hl in
  let at' := wrap w (lrm + shl w t h) in
  let hrm := wrap w (hrm + b2z (at' <? lrm)) in
  let lrm := at' in
  (wrap w (hrm + Z.shiftr t h), lrm).

(** High word of the product with stickiness, by half words. *)
Definition mul_high (f : fmt) (xm ym : Z) : Z :=
  let w := WBITS f in
  let h := w / 2 in
  let lxm := wrap h xm in
  let hxm := wrap h (Z.shiftr xm h) in
  let lym := wrap h ym in
  let hym := wrap h (Z.shiftr ym h) in
  let lrm := wrap w (lxm * lym) in
  let hrm := wrap w (hxm * hym) in
  let hl := mul_acc w h (wrap w (lxm * hym)) (hrm, lrm) in
  let '(hrm, lrm) := mul_acc w h (wrap w (hxm * lym)) hl in
  Z.lor hrm (b2z (tst lrm)).

(** Both operands normalised. *)
Definition mul_mants (f : fmt) (kx ky : comp) : M ieee754 :=
  let w := WBITS f in
  let re := ke kx + ke ky in
  let rs := xorb (ks kx) (ks ky) in
  let xm := shl w (km kx) (w - (MBITS f + 1)) in
  let ym := shl w (km ky) (w - (MBITS f + 1)) in
  let rm := mul_high f xm ym in
  let '(rm, re) :=
    if swrap w rm <? 0 then
      (Z.lor (Z.shiftr rm (w - (MBITS f + 1 + 3))) (b2z (tst (shl w rm (MBITS f + 1 + 3)))), re + 1)
    else
      (Z.lor (Z.shiftr rm (w - (MBITS f + 1 + 3 + 1))) (b2z (tst (shl w rm (MBITS f + 1 + 3 + 1)))), re) in
  NORMRET f rs re rm "mul".

Definition ieee754_mul (f : fmt) (x y : ieee754) : M ieee754 :=
  let kx := EXPLODE f x in
  let ky := EXPLODE f y in
  CLEARCX ;;;
  '(x, kx) <- FLUSH f x kx ;;
  '(y, ky) <- FLUSH f y ky ;;
  match kc kx, kc ky with
  | SNAN, _ | _, SNAN =>
      SETCX INVALID_OPERATION ;;; ieee754_nanxcpt f (ieee754_indef f) "mul"
  | QNAN, _ => ret x
  | _, QNAN => ret y
  | INF, ZERO | ZERO, INF =>
      SETCX INVALID_OPERATION ;;; ieee754f_xcpt f (ieee754_indef f) "mul"
  | INF, _ | _, INF => ret (ieee754_inf f (xorb (ks kx) (ks ky)))
  | ZERO, _ | _, ZERO => ret (ieee754_zero f (xorb (ks kx) (ks ky)))
  | DNORM, DNORM =>
      kx <- lift (DNORM_loop f kx) ;; ky <- lift (DNORM_loop f ky) ;; mul_mants f kx ky
  | NORM, DNORM => ky <- lift (DNORM_loop f ky) ;; mul_mants f kx ky
  | DNORM, NORM => kx <- lift (DNORM_loop f kx) ;; mul_mants f kx ky
  | NORM, NORM => mul_mants f kx ky
  end.

Definition ieee754sp_mul := ieee754_mul SP.
Definition ieee754dp_mul := ieee754_mul DP.

(** ** The double-width product *)

Section HalfWords.
Variables w h : Z.
Hypothesis h_pos : 1 <= h.
Hypothesis w_double : w = h + h.

Lemma half_square : 2 ^ w = 2 ^ h * 2 ^ h.
Proof. apply pow2_split; lia. Qed.

(** Adding a middle product never loses a carry while the sum fits. *)
Lemma mul_acc_spec hrm lrm t :
  0 <= hrm < 2 ^ w -> 0 <= lrm < 2 ^ w -> 0 <= t < 2 ^ w ->
  hrm * 2 ^ w + lrm + t * 2 ^ h < 2 ^ w * 2 ^ w ->
  exists hrm' lrm', mul_acc w h t (hrm, lrm) = (hrm', lrm') /\
    0 <= hrm' < 2 ^ w /\ 0 <= lrm' < 2 ^ w /\
    hrm' * 2 ^ w + lrm' = hrm * 2 ^ w + lrm + t * 2 ^ h.
Proof.
  intros Hh Hl Ht Hs; pose proof half_square as HB; pose proof (pow2_pos h ltac:(lia)) as Bp.
  set (B := 2 ^ h) in *; set (W := 2 ^ w) in *.
  unfold mul_acc, shl, wrap; rewrite Z.shiftl_mul_pow2, shiftr_div by lia; fold B W.
  set (c := (t * B) mod W).
  assert (Hc : t * B = t / B * W + c /\ 0 <= c < W).
  { split; [|apply Z.mod_pos_bound; nia].
    pose proof (Z.div_mod (t * B) W ltac:(nia)) as D; fold c in D.
    replace (t * B / W) with (t / B) in D; [lia|].
    rewrite HB, Z.div_mul_cancel_r by lia; reflexivity. }
  destruct Hc as [Hc Hcr].
  assert (Ha : exists b, (lrm + c) mod W = lrm + c - b2z b * W /\ ((lrm + c) mod W <? lrm) = b).
  { destruct (Z.lt_ge_cases (lrm + c) W).
    - exists false; rewrite Z.mod_small by lia; cbn; split; [lia|apply Z.ltb_ge; lia].
    - exists true; rewrite <- (Z.mod_unique (lrm + c) W 1 (lrm + c - W)) by lia.
      cbn [b2z]; split; [lia|apply Z.ltb_lt; lia]. }
  destruct Ha as (b & Ha & Hb).
  assert (Hb' : b2z b = 0 \/ b2z b = 1) by (destruct b; auto).
  assert (0 <= t / B) by (apply Z.div_pos; lia).
  pose proof (Z.mod_pos_bound (lrm + c) W ltac:(nia)) as Hm.
  eexists _, _; split; [reflexivity|]; rewrite Hb.
  rewrite (Z.mod_small (hrm + b2z b)) by nia; rewrite (Z.mod_small (_ + t / B)) by nia.
  nia.
Qed.
End HalfWords.

Lemma half_split w h m : 1 <= h -> w = h + h -> 0 <= m < 2 ^ w ->
  exists hi lo, wrap h (Z.shiftr m h) = hi /\ wrap h m = lo /\ m = hi * 2 ^ h + lo /\
    0 <= hi < 2 ^ h /\ 0 <= lo < 2 ^ h.
Proof.
  intros Hh Hw Hm; pose proof (pow2_pos h ltac:(lia)); rewrite (half_square w h Hh Hw) in Hm.
  eexists _, _; split; [reflexivity|split; [reflexivity|]].
  rewrite shiftr_div by lia; unfold wrap.
  assert (m / 2 ^ h < 2 ^ h) by (apply Z.div_lt_upper_bound; lia).
  assert (0 <= m / 2 ^ h) by (apply Z.div_pos; lia).
  rewrite (Z.mod_small (m / 2 ^ h)) by lia.
  pose proof (Z.mod_pos_bound m (2 ^ h)); pose proof (Z.div_mod m (2 ^ h)); lia.
Qed.

(** The half-word algorithm computes the sticky high word of the product. *)
Lemma mul_high_srs f xm ym :
  0 <= xm < 2 ^ WBITS f -> 0 <= ym < 2 ^ WBITS f -> mul_high f xm ym = srs (xm * ym) (WBITS f).
Proof.
  intros Hx Hy; set (w := WBITS f) in *; set (h := w / 2).
  assert (Hh : 1 <= h) by (unfold h, w; destruct f; cbn; lia).
  assert (Hw : w = h + h) by (unfold h, w; destruct f; reflexivity).
  pose proof (half_square w h Hh Hw) as HB; pose proof (pow2_pos h ltac:(lia)).
  unfold mul_high; fold w h.
  destruct (half_split w h xm Hh Hw Hx) as (hx & lx & -> & -> & Ex & Rhx & Rlx).
  destruct (half_split w h ym Hh Hw Hy) as (hy & ly & -> & -> & Ey & Rhy & Rly).
  rewrite !wrap_small by nia.
  destruct (mul_acc_spec w h Hh Hw (hx * hy) (lx * ly) (lx * hy)) as (h1 & l1 & E1 & A1 & B1 & C1);
    [nia..|].
  rewrite E1.
  destruct (mul_acc_spec w h Hh Hw h1 l1 (hx * ly)) as (h2 & l2 & E2 & A2 & B2 & C2); [nia..|].
  rewrite E2; unfold srs.
  assert (P : xm * ym = h2 * 2 ^ w + l2) by nia.
  rewrite P, Z.div_add_l, Z.div_small, Z.add_0_r, Z.add_comm, Z.mod_add, Z.mod_small by lia.
  reflexivity.
Qed.

(** ** Correctness *)

Lemma swrap_neg w m : 0 < w -> 0 <= m < 2 ^ w -> (swrap w m <? 0) = (2 ^ (w - 1) <=? m).
Proof.
  intros Hw Hm; unfold swrap; rewrite Z.mod_small by lia.
  assert (2 ^ w = 2 * 2 ^ (w - 1)) by (apply (pow2_split 1); lia).
  destruct (Z.ltb_spec m (2 ^ (w - 1))); destruct (Z.leb_spec (2 ^ (w - 1)) m); lia.
Qed.

(** A mantissa shunted to the top of the word. *)
Lemma shunt f m : 2 ^ MBITS f <= m < 2 ^ PREC f ->
  let w := WBITS f in
  shl w m (w - (MBITS f + 1)) = m * 2 ^ (w - PREC f) /\
  2 ^ (w - 1) <= m * 2 ^ (w - PREC f) < 2 ^ w.
Proof.
  intros Hm w; pose proof (fmt_facts f) as FF; fold (PREC f).
  assert (0 < PREC f < w) by (unfold PREC, w; lia).
  pose proof (pow2_pos (w - PREC f) ltac:(lia)).
  assert (E1 : 2 ^ w = 2 ^ PREC f * 2 ^ (w - PREC f)) by (apply pow2_split; lia).
  assert (E2 : 2 ^ (w - 1) = 2 ^ MBITS f * 2 ^ (w - PREC f))
    by (apply pow2_split; unfold PREC in *; lia).
  split; [apply shl_small; nia|nia].
Qed.

(** Shifting a sticky word of known magnitude to the rounding position. *)
Lemma srs_range m s a b : 0 <= m -> 0 <= s -> 2 * a * 2 ^ s <= m < 2 * b * 2 ^ s ->
  2 * a <= srs m s < 2 * b.
Proof.
  intros Hm Hs [H1 H2]; split; [now apply srs_cmp|].
  apply Z.nle_gt; rewrite (proj1 (srs_cmp m s b Hm Hs)); lia.
Qed.

Lemma mul_step f u m e re s w :
  nod (fcsr s) = false -> Sticky 1 u m -> 0 <= e ->
  2 ^ (MBITS f + 3) * 2 ^ e <= m < 2 ^ (MBITS f + 4) * 2 ^ e ->
  exists x i uf o, NORMRET f w re (srs m e) "mul" s = Some (x, finish f "mul" (raise (flags i uf o) s)) /\
    FPResult f (fcsr s) (sgn w * (u * bpow (re - MBITS f - 3 - e))) x i uf o.
Proof.
  intros Hn St He Hm; pose proof (pow2_pos e He); mbits f.
  assert (Hr : 2 * (4 * 2 ^ MBITS f) <= srs m e < 2 * (8 * 2 ^ MBITS f)) by (apply srs_range; nia).
  apply (sticky_srs 1) with (s := e) in St; [|nia..].
  apply (sticky_weaken 1 2) in St; [|lia].
  destruct (NORMRET_rounds f w re (srs m e) _ "mul" s Hn ltac:(mbits f; lia) St)
    as (x & i & uf & o & HX & FR).
  exists x, i, uf, o; split; [exact HX|].
  replace (u * bpow (re - MBITS f - 3 - e))%R with (u * bpow (- e) * bpow (re - MBITS f - 3))%R;
    [exact FR|].
  rewrite Rmult_assoc, <- bpow_plus; do 2 f_equal; lia.
Qed.

Lemma mul_mants_rounds f kx ky s :
  nod (fcsr s) = false ->
  2 ^ MBITS f <= km kx < 2 ^ PREC f -> 2 ^ MBITS f <= km ky < 2 ^ PREC f ->
  exists x i uf o, mul_mants f kx ky s = Some (x, finish f "mul" (raise (flags i uf o) s)) /\
    FPResult f (fcsr s) (cval f kx * cval f ky) x i uf o.
Proof.
  intros Hn Hx Hy; pose proof (fmt_facts f) as FF; set (w := WBITS f) in *; unfold mul_mants; fold w.
  destruct (shunt f _ Hx) as [Ex Rx]; destruct (shunt f _ Hy) as [Ey Ry]; fold w in Ex, Rx, Ey, Ry.
  rewrite Ex, Ey, mul_high_srs by (fold w; lia); fold w.
  set (P := km kx * 2 ^ (w - PREC f) * (km ky * 2 ^ (w - PREC f))).
  assert (HP : 2 * 2 ^ (w - 3) * 2 ^ w <= P < 2 * 2 ^ (w - 1) * 2 ^ w).
  { assert (E1 : 2 ^ w = 2 * 2 ^ (w - 1)) by (apply (pow2_split 1); lia).
    assert (E2 : 2 ^ (w - 1) = 4 * 2 ^ (w - 3)) by (apply (pow2_split 2); lia).
    unfold P; split; nia. }
  pose proof (srs_range P w (2 ^ (w - 3)) (2 ^ (w - 1)) ltac:(nia) ltac:(lia) HP) as HR.
  assert (St : Sticky 1 (IZR P * bpow (- w)) (srs P w)) by (apply sticky_srs, sticky_exact; lia).
  assert (E3 : forall k, 1 <= k <= w -> 2 ^ (w - k) * 2 ^ (k - 1) = 2 ^ (w - 1))
    by (intros; rewrite <- Z.pow_add_r by lia; f_equal; lia).
  assert (HW : 2 * 2 ^ (w - 1) = 2 ^ w) by (symmetry; apply (pow2_split 1); lia).
  assert (Hv : (cval f kx * cval f ky)%R =
     (sgn (xorb (ks kx) (ks ky)) * (IZR P * bpow (- w) * bpow (ke kx + ke ky + 2 - w)))%R).
  { unfold cval, P; rewrite sgn_xorb, !mult_IZR, <- !bpow_Z by (unfold PREC; lia).
    replace (IZR (km kx) * bpow (w - PREC f) * (IZR (km ky) * bpow (w - PREC f)) * bpow (- w) *
             bpow (ke kx + ke ky + 2 - w))%R
      with (IZR (km kx) * IZR (km ky) *
            (bpow (w - PREC f) * bpow (w - PREC f) * bpow (- w) * bpow (ke kx + ke ky + 2 - w)))%R by ring.
    rewrite <- !bpow_plus.
    replace (w - PREC f + (w - PREC f) + - w + (ke kx + ke ky + 2 - w))
      with (ke kx - MBITS f + (ke ky - MBITS f)) by (unfold PREC; lia).
    rewrite bpow_plus; ring. }
  rewrite Hv, swrap_neg by lia; destruct (Z.leb_spec (2 ^ (w - 1)) (srs P w)).
  - rewrite word_srs by lia.
    replace (ke kx + ke ky + 2 - w)
      with (ke kx + ke ky + 1 - MBITS f - 3 - (w - (MBITS f + 1 + 3))) by lia.
    apply mul_step; auto; [lia|]; rewrite <- !Z.pow_add_r by lia; split.
    + replace (MBITS f + 3 + (w - (MBITS f + 1 + 3))) with (w - 1) by lia; lia.
    + replace (MBITS f + 4 + (w - (MBITS f + 1 + 3))) with w by lia; lia.
  - rewrite word_srs by lia.
    replace (ke kx + ke ky + 2 - w)
      with (ke kx + ke ky - MBITS f - 3 - (w - (MBITS f + 1 + 3 + 1))) by lia.
    apply mul_step; auto; [lia|]; rewrite <- !Z.pow_add_r by lia; split.
    + replace (MBITS f + 3 + (w - (MBITS f + 1 + 3 + 1))) with (1 + (w - 3)) by lia.
      rewrite Z.pow_add_r by lia; lia.
    + replace (MBITS f + 4 + (w - (MBITS f + 1 + 3 + 1))) with (w - 1) by lia; lia.
Qed.

Lemma mul_spec f x y s :
  wf f x -> wf f y -> is_finite f x = true -> is_finite f y = true -> nod (fcsr s) = false ->
  Delivers f "mul" s (val f x * val f y) (ieee754_mul f x y s) /\
  (val f x * val f y = 0 ->
     ieee754_mul f x y s = Some (ieee754_zero f (xorb (sign x) (sign y)), clear s))%R.
Proof.
  intros Wx Wy Fx Fy Hn; unfold ieee754_mul; enter Hn.
  pose proof (val_nonzero f x Wx Fx) as Nx; pose proof (val_nonzero f y Wy Fy) as Ny.
  unfold ieee754_class in Nx, Ny; classify Wx Fx; classify Wy Fy.
  1, 2, 3, 4, 7: rewrite Hs, Hs0; split; [apply delivers_zero; rewrite ?V, ?V0; lra|reflexivity].
  all: (split; [apply delivers_of|
          intros Z0; exfalso; apply Rmult_integral in Z0; destruct Z0; [apply Nx|apply Ny]; congruence]).
  - dnorm Hm; dnorm Hm0; rewrite V, V0, <- Q, <- Q0; now apply mul_mants_rounds.
  - dnorm Hm; rewrite V, V0, <- Q; now apply mul_mants_rounds.
  - dnorm Hm0; rewrite V, V0, <- Q; now apply mul_mants_rounds.
  - rewrite V, V0; now apply mul_mants_rounds.
Qed.

(** C3: [ieee754sp_mul]/[ieee754dp_mul] on finite operands: the routine
    terminates and delivers the correctly rounded product with its IEEE 754
    exceptions; the sign of the result is the exclusive or of the operands'. *)
Theorem ieee754_mul_correct f x y s :
  wf f x -> wf f y -> is_finite f x = true -> is_finite f y = true -> nod (fcsr s) = false ->
  Delivers f "mul" s (val f x * val f y) (ieee754_mul f x y s) /\
  (val f x * val f y = 0 ->
     ieee754_mul f x y s = Some (ieee754_zero f (xorb (sign x) (sign y)), clear s))%R.
Proof. exact (mul_spec f x y s). Qed.

Lemma ieee754_mul_correct_witness :
  Delivers DP "mul" s0 (val DP (one_half DP) * val DP (minus_three DP))
    (ieee754_mul DP (one_half DP) (minus_three DP) s0).
Proof. apply (ieee754_mul_correct DP (one_half DP) (minus_three DP) s0); closed. Defined.
