(* ===== verification/Div.v ===== *)
(** * Division

    Models [sp_div.c] and [dp_div.c]: one quotient bit per turn of a
    restoring division loop that stops early on a zero remainder, then a
    sticky bit from the remainder and at most one normalising shift. *)

From S2P Require Import Prelude Rounding Ieee754 Format.

(** ** The code *)

(** Loop state: remainder, quotient, bit, and whether [break] was taken. *)
Record divst := mkdiv { dxm : Z; drm : Z; dbm : Z; dbrk : bool }.

Definition div_cond (t : divst) : bool := tst (dbm t) && negb (dbrk t).

Definition div_body (f : fmt) (ym : Z) (t : divst) : divst :=
  if dxm t >=? ym then
    let xm := wrap (WBITS f) (dxm t - ym) in
    let rm := Z.lor (drm t) (dbm t) in
    if xm =? 0 then mkdiv xm rm (dbm t) true
    else mkdiv (shl (WBITS f) xm 1) rm (Z.shiftr (dbm t) 1) false
  else mkdiv (shl (WBITS f) (dxm t) 1) (drm t) (Z.shiftr (dbm t) 1) false.

Definition div_loop (f : fmt) (xm ym : Z) : option divst :=
  while 64 div_cond (div_body f ym) (mkdiv xm 0 (MBIT (MBITS f + 2)) false).

Definition div_mants (f : fmt) (kx ky : comp) : M ieee754 :=
  let xm := shl (WBITS f) (km kx) 3 in
  let ym := shl (WBITS f) (km ky) 3 in
  let re := ke kx - ke ky in
  t <- lift (div_loop f xm ym) ;;
  let rm := shl (WBITS f) (drm t) 1 in
  let rm := if tst (dxm t) then Z.lor rm 1 else rm in
  '(rm, re) <- lift (norm_loop (WBITS f) (MBITS f + 3) rm re) ;;
  NORMRET f (if Bool.eqb (ks kx) (ks ky) then false else true) re rm "div".

Definition ieee754_div (f : fmt) (x y : ieee754) : M ieee754 :=
  let kx := EXPLODE f x in
  let ky := EXPLODE f y in
  CLEARCX ;;;
  '(x, kx) <- FLUSH f x kx ;;
  '(y, ky) <- FLUSH f y ky ;;
  match kc kx, kc ky with
  | SNAN, _ | _, SNAN =>
      SETCX INVALID_OPERATION ;;; ieee754_nanxcpt f (ieee754_indef f) "div"
  | QNAN, _ => ret x
  | _, QNAN => ret y
  | INF, INF => SETCX INVALID_OPERATION ;;; ieee754f_xcpt f (ieee754_indef f) "div"
  | _, INF => ret (ieee754_zero f (xorb (ks kx) (ks ky)))
  | INF, _ => ret (ieee754_inf f (xorb (ks kx) (ks ky)))
  | ZERO, ZERO => SETCX INVALID_OPERATION ;;; ieee754f_xcpt f (ieee754_indef f) "div"
  | _, ZERO =>
      SETCX ZERO_DIVIDE ;;; ieee754f_xcpt f (ieee754_inf f (xorb (ks kx) (ks ky))) "div"
  | ZERO, _ => ret (ieee754_zero f (if Bool.eqb (ks kx) (ks ky) then false else true))
  | DNORM, DNORM =>
      kx <- lift (DNORM_loop f kx) ;; ky <- lift (DNORM_loop f ky) ;; div_mants f kx ky
  | NORM, DNORM => ky <- lift (DNORM_loop f ky) ;; div_mants f kx ky
  | DNORM, NORM => kx <- lift (DNORM_loop f kx) ;; div_mants f kx ky
  | NORM, NORM => div_mants f kx ky
  end.

Definition ieee754sp_div := ieee754_div SP.
Definition ieee754dp_div := ieee754_div DP.

(** ** The restoring division loop *)

Lemma lor_low_bit m j : 0 < j -> m mod 2 ^ j = 0 -> Z.lor m (2 ^ (j - 1)) = m + 2 ^ (j - 1).
Proof.
  intros Hj Hm; rewrite <- Z.lxor_lor, Z.add_nocarry_lxor; try reflexivity;
    rewrite land_bit by lia; replace m with (m / 2 ^ j * 2 ^ j) by
      (pose proof (Z.div_mod m (2 ^ j)); pose proof (pow2_pos j); lia);
    rewrite Z.mul_pow2_bits_low by lia; reflexivity.
Qed.

Section DivLoop.
Variables (f : fmt) (X Y : Z).
Hypothesis Y_range : 0 < Y /\ 2 * Y < 2 ^ WBITS f.
Hypothesis X_range : 0 <= X < 2 * Y.

(** After the bits above place [j] have been produced. *)
Definition div_inv (t : divst) : Prop :=
  exists j, 0 <= j <= MBITS f + 3 /\
    2 ^ (MBITS f + 3) * X = 2 * drm t * Y + dxm t * 2 ^ j /\
    0 <= drm t /\
    if dbrk t then dxm t = 0
    else 0 <= dxm t < 2 * Y /\ drm t mod 2 ^ j = 0 /\
         dbm t = (if j =? 0 then 0 else 2 ^ (j - 1)).

Lemma div_body_inv t : div_inv t -> div_cond t = true ->
  div_inv (div_body f Y t) /\
  (dbrk (div_body f Y t) = true \/ Z.log2 (2 * dbm (div_body f Y t)) < Z.log2 (2 * dbm t)).
Proof.
  intros (j & Hj & Eq & Hq & Hb) Hc; unfold div_cond in Hc; zbool.
  rewrite H0 in Hb; destruct Hb as (Hx & Hmod & Hbm).
  destruct (Z.eqb_spec j 0) as [->|Hj0]; [contradiction|].
  assert (P : 2 ^ j = 2 * 2 ^ (j - 1)) by (apply (pow2_split 1); lia).
  pose proof (pow2_pos (j - 1) ltac:(lia)) as Pp.
  assert (L : Z.log2 (2 * dbm t) = j) by (rewrite Hbm, <- P; apply Z.log2_pow2; lia).
  assert (B' : Z.shiftr (dbm t) 1 = (if j - 1 =? 0 then 0 else 2 ^ (j - 1 - 1)) /\
               Z.log2 (2 * Z.shiftr (dbm t) 1) < j).
  { rewrite shiftr_div, Hbm by lia; destruct (Z.eqb_spec (j - 1) 0) as [E1|E1].
    - rewrite E1; split; [reflexivity|cbn; lia].
    - assert (Q : 2 ^ (j - 1) / 2 ^ 1 = 2 ^ (j - 1 - 1)) by (rewrite <- Z.pow_sub_r by lia; reflexivity).
      pose proof (pow2_pos (j - 1 - 1) ltac:(lia)).
      rewrite Q, Z.log2_double, Z.log2_pow2 by lia; split; [reflexivity|lia]. }
  destruct B' as [B' L']; rewrite L.
  assert (Md : (drm t + 2 ^ (j - 1)) mod 2 ^ (j - 1) = 0 /\ drm t mod 2 ^ (j - 1) = 0).
  { rewrite P in Hmod; pose proof (Z.div_mod (drm t) (2 * 2 ^ (j - 1)) ltac:(lia)) as D.
    rewrite Hmod, Z.add_0_r in D; rewrite D.
    replace (2 * 2 ^ (j - 1) * (drm t / (2 * 2 ^ (j - 1))))
      with (2 * (drm t / (2 * 2 ^ (j - 1))) * 2 ^ (j - 1)) by ring.
    rewrite Z.mod_mul, Z.add_comm, Z.mod_add, Z.mod_same by lia; auto. }
  unfold div_body; destruct (Z.geb_spec (dxm t) Y) as [HY|HY].
  - rewrite wrap_small by lia; destruct (Z.eqb_spec (dxm t - Y) 0) as [Hz|Hz].
    + split; [|left; reflexivity]; exists j; cbn [dxm drm dbm dbrk].
      rewrite Hbm, lor_low_bit by (auto; lia); repeat split; try lia; nia.
    + rewrite shl_small by (change (2 ^ 1) with 2; lia); change (2 ^ 1) with 2.
      split; [|right; exact L'].
      exists (j - 1); cbn [dxm drm dbm dbrk]; rewrite B'.
      rewrite Hbm, lor_low_bit by (auto; lia); repeat split; try lia; try nia; apply Md.
  - rewrite shl_small by (change (2 ^ 1) with 2; lia); change (2 ^ 1) with 2.
    split; [|right; exact L'].
    exists (j - 1); cbn [dxm drm dbm dbrk]; rewrite B'; repeat split; try lia; try nia; apply Md.
Qed.

(** The loop ends; quotient and remainder satisfy the division equation. *)
Lemma div_loop_spec :
  exists t, div_loop f X Y = Some t /\ 0 <= drm t /\ 0 <= dxm t < 2 * Y /\
    2 ^ (MBITS f + 3) * X = 2 * drm t * Y + dxm t.
Proof.
  pose proof (fmt_facts f) as FF; unfold div_loop.
  destruct (while_rule div_cond (div_body f Y) div_inv
    (fun t => if dbrk t then 0 else Z.log2 (2 * dbm t) + 1) 64
    (mkdiv X 0 (MBIT (MBITS f + 2)) false)) as (t & Ht & (j & Hj & Eq & Hq & Hb) & Hc).
  - exists (MBITS f + 3); cbn [dxm drm dbm dbrk]; unfold MBIT.
    replace (MBITS f + 3 - 1) with (MBITS f + 2) by lia.
    destruct (Z.eqb_spec (MBITS f + 3) 0); [lia|].
    repeat split; try lia; apply Z.mod_0_l; apply Z.pow_nonzero; lia.
  - cbn [dbrk dbm]; unfold MBIT.
    rewrite <- (Z.pow_1_r 2) at 1; rewrite <- Z.pow_add_r, Z.log2_pow2 by lia; lia.
  - intros t HI Hc; destruct (div_body_inv t HI Hc) as [HI' Hd]; split; [exact HI'|].
    unfold div_cond in Hc; zbool; rewrite H0; pose proof (Z.log2_nonneg (2 * dbm t)).
    destruct (dbrk (div_body f Y t)); [lia|destruct Hd; [discriminate|]].
    pose proof (Z.log2_nonneg (2 * dbm (div_body f Y t))); lia.
  - exists t; split; [exact Ht|split; [exact Hq|]]; unfold div_cond in Hc.
    destruct (dbrk t) eqn:Eb; [rewrite Hb in *; lia|].
    destruct Hb as (Hx & _ & Hbm); rewrite andb_true_r in Hc; unfold tst in Hc; zbool.
    destruct (Z.eqb_spec j 0) as [->|]; [rewrite Z.mul_1_r in Eq; auto|].
    pose proof (pow2_pos (j - 1)); lia.
Qed.
End DivLoop.

(** ** Correctness *)

(** A quotient and a remainder as a sticky integer. *)
Lemma sticky_quotient q r n d : 0 < d -> 0 <= r < 2 * d -> n = 2 * q * d + r ->
  Sticky 1 (IZR n / IZR d) (2 * q + b2z (tst r)).
Proof.
  intros Hd Hr -> k; change (2 ^ 1) with 2.
  assert (Dp : (0 < IZR d)%R) by (now apply IZR_lt).
  assert (C : forall a, ((IZR a <= IZR (2 * q * d + r) / IZR d)%R <-> a * d <= 2 * q * d + r) /\
                        ((IZR (2 * q * d + r) / IZR d <= IZR a)%R <-> 2 * q * d + r <= a * d)).
  { intros a; assert (X : (IZR a = IZR (a * d) / IZR d)%R) by (rewrite mult_IZR; field; lra).
    rewrite X; unfold Rdiv; pose proof (Rinv_0_lt_compat _ Dp).
    split; split; intros K;
      [apply le_IZR; nra|apply IZR_le in K; apply Rmult_le_compat_r; lra|
       apply le_IZR; nra|apply IZR_le in K; apply Rmult_le_compat_r; lra]. }
  destruct (C (2 * k)) as [C1 C2]; rewrite C1, C2; unfold tst.
  destruct (Z.eqb_spec r 0); cbn [negb b2z]; nia.
Qed.

(** The quotient with its sticky bit, before normalisation: at most one
    place short of the rounding position. *)
Lemma div_mants_position f kx ky :
  2 ^ MBITS f <= km kx < 2 ^ PREC f -> 2 ^ MBITS f <= km ky < 2 ^ PREC f ->
  exists t, div_loop f (8 * km kx) (8 * km ky) = Some t /\ 0 <= dxm t < 2 * (8 * km ky) /\
    2 ^ (MBITS f + 3) * (8 * km kx) = 2 * drm t * (8 * km ky) + dxm t /\
    (let R := if tst (dxm t) then Z.lor (shl (WBITS f) (drm t) 1) 1 else shl (WBITS f) (drm t) 1 in
     R = 2 * drm t + b2z (tst (dxm t)) /\ 2 ^ (MBITS f + 2) <= R < 2 ^ (MBITS f + 4)).
Proof.
  intros Hx Hy; pose proof (hidden_word f 6 ltac:(lia)) as HW; change (2 ^ 6) with 64 in HW.
  destruct (div_loop_spec f (8 * km kx) (8 * km ky)) as (t & Ht & Hq & Hr & Eq); [mbits f; lia..|].
  assert (Hq2 : 2 * 2 ^ MBITS f <= drm t < 8 * 2 ^ MBITS f) by (mbits f; split; nia).
  assert (E : (if tst (dxm t) then Z.lor (shl (WBITS f) (drm t) 1) 1 else shl (WBITS f) (drm t) 1) =
              2 * drm t + b2z (tst (dxm t))).
  { rewrite shl_small by (change (2 ^ 1) with 2; lia); change (2 ^ 1) with 2.
    destruct (tst (dxm t)); cbn [b2z]; [rewrite lor_1 by lia; divmod|lia]. }
  exists t; split; [exact Ht|split; [exact Hr|split; [exact Eq|]]]; cbv zeta; rewrite E; split; [reflexivity|].
  rewrite !pow_mbits by (pose proof (fmt_facts f); lia); change (2 ^ 2) with 4; change (2 ^ 4) with 16.
  destruct (tst (dxm t)); cbn [b2z]; lia.
Qed.

Lemma div_mants_rounds f kx ky s :
  nod (fcsr s) = false ->
  2 ^ MBITS f <= km kx < 2 ^ PREC f -> 2 ^ MBITS f <= km ky < 2 ^ PREC f ->
  exists x i uf o, div_mants f kx ky s = Some (x, finish f "div" (raise (flags i uf o) s)) /\
    FPResult f (fcsr s) (cval f kx / cval f ky) x i uf o.
Proof.
  intros Hn Hx Hy; unfold div_mants; rewrite !shl3 by auto.
  destruct (div_mants_position f kx ky Hx Hy) as (t & Ht & Hr & Eq & E & HR); cbv zeta in E, HR.
  rewrite Ht, run_bind_lift; rewrite E in HR |- *; set (R := 2 * drm t + b2z (tst (dxm t))) in *.
  assert (St : Sticky 1 (IZR (2 ^ (MBITS f + 3) * (8 * km kx)) / IZR (8 * km ky)) R)
    by (apply sticky_quotient; mbits f; lia).
  assert (Hs : (if Bool.eqb (ks kx) (ks ky) then false else true) = xorb (ks kx) (ks ky))
    by (destruct (ks kx), (ks ky); reflexivity).
  rewrite Hs.
  assert (HR' : 0 < R < 2 ^ (MBITS f + 4))
    by (pose proof (fmt_facts f); pose proof (pow2_pos (MBITS f + 2)); lia).
  destruct (norm_ret_rounds f (xorb (ks kx) (ks ky)) (ke kx - ke ky) R _ "div" s Hn HR' St
      (or_intror (proj1 HR))) as (x & i & uf & o & HX & FR).
  exists x, i, uf, o; split; [exact HX|].
  replace (cval f kx / cval f ky)%R with (sgn (xorb (ks kx) (ks ky)) *
    (IZR (2 ^ (MBITS f + 3) * (8 * km kx)) / IZR (8 * km ky) * bpow (ke kx - ke ky - MBITS f - 3)))%R;
    [exact FR|].
  pose proof (fmt_facts f); unfold cval; rewrite sgn_xorb, !mult_IZR, <- (bpow_Z (MBITS f + 3)) by lia.
  replace (ke kx - MBITS f) with (MBITS f + 3 + (ke kx - ke ky - MBITS f - 3) + (ke ky - MBITS f)) by lia.
  rewrite !bpow_plus; pose proof (bpow_pos (ke ky - MBITS f)); pose proof (bpow_pos (MBITS f)).
  assert (0 < IZR (km ky))%R by (apply IZR_lt; mbits f; lia).
  destruct (ks kx), (ks ky); cbn [sgn]; field; lra.
Qed.

Lemma div_spec f x y s :
  wf f x -> wf f y -> is_finite f x = true -> is_finite f y = true -> val f y <> 0%R ->
  nod (fcsr s) = false ->
  Delivers f "div" s (val f x / val f y) (ieee754_div f x y s) /\
  (val f x = 0%R ->
     ieee754_div f x y s = Some (ieee754_zero f (xorb (sign x) (sign y)), clear s)).
Proof.
  intros Wx Wy Fx Fy Ny Hn; unfold ieee754_div; enter Hn.
  pose proof (val_nonzero f x Wx Fx) as Nx; unfold ieee754_class in Nx.
  classify Wx Fx; classify Wy Fy; try contradiction.
  1, 2: replace (if Bool.eqb _ _ then false else true) with (xorb (sign x) (sign y))
      by (rewrite Hs, Hs0; destruct (sign x), (sign y); reflexivity);
    split; [apply delivers_zero; rewrite V; unfold Rdiv; lra|reflexivity].
  all: (split; [apply delivers_of|intros Z0; exfalso; apply Nx; congruence]).
  - dnorm Hm; dnorm Hm0; rewrite V, V0, <- Q, <- Q0; now apply div_mants_rounds.
  - dnorm Hm; rewrite V, V0, <- Q; now apply div_mants_rounds.
  - dnorm Hm0; rewrite V, V0, <- Q; now apply div_mants_rounds.
  - rewrite V, V0; now apply div_mants_rounds.
Qed.

(** C4: [ieee754sp_div]/[ieee754dp_div] on finite operands with a nonzero
    divisor: the loop terminates and the routine delivers the correctly
    rounded quotient with its IEEE 754 exceptions; a zero quotient has the
    exclusive or of the signs. *)
Theorem ieee754_div_correct f x y s :
  wf f x -> wf f y -> is_finite f x = true -> is_finite f y = true -> val f y <> 0%R ->
  nod (fcsr s) = false ->
  Delivers f "div" s (val f x / val f y) (ieee754_div f x y s) /\
  (val f x = 0%R ->
     ieee754_div f x y s = Some (ieee754_zero f (xorb (sign x) (sign y)), clear s)).
Proof. exact (div_spec f x y s). Qed.

Lemma ieee754_div_correct_witness :
  Delivers SP "div" s0 (val SP (one_half SP) / val SP (minus_three SP))
    (ieee754_div SP (one_half SP) (minus_three SP) s0).
Proof.
  apply (ieee754_div_correct SP (one_half SP) (minus_three SP) s0); try closed.
  apply val_nonzero; [closed|closed|discriminate].
Defined.
