(* ===== verification/FromInt.v ===== *)
(** * Conversions to floating point

    Models [sp_fint.c], [dp_fint.c], [sp_flong.c], [dp_flong.c] (integers to
    floating point, signed and unsigned), [sp_fdp.c] and [dp_fsp.c] (between
    the two formats). *)

From S2P Require Import Prelude Rounding Ieee754 Format AddSub.

(** ** The code *)

(** [xs = (x < 0); xm = ...]: sign and magnitude of an [n]-bit integer; the
    most negative one is not negated. *)
Definition int_mag (n x : Z) : Z :=
  if x <? 0 then (if x =? - 2 ^ (n - 1) then 2 ^ (n - 1) else wrap n (- x)) else x.

(** [while (xm >> (MBITS+1+3)) XSRSX1()]. *)
Definition shunt_loop (f : fmt) (m e : Z) : option (Z * Z) :=
  while 64 (fun '(m, e) => tst (Z.shiftr m (MBITS f + 1 + 3)))
           (fun '(m, e) => (XSRS1 m, e + 1)) (m, e).

(** The common shape of [sp_fint], [sp_flong] and [dp_flong]: an [n]-bit
    integer whose magnitude lives in an [n]-bit variable. *)
Definition from_int (f : fmt) (n x : Z) (op : string) : M ieee754 :=
  CLEARCX ;;;
  if x =? 0 then ret (ieee754_zero f false)
  else if (x =? 1) || (x =? -1) then ret (ieee754_one f (x <? 0))
  else if (x =? 10) || (x =? -10) then ret (ieee754_ten f (x <? 0))
  else
    let xs := x <? 0 in
    let xm := int_mag n x in
    let xe := MBITS f + 3 in
    '(xm, xe) <- lift (if tst (Z.shiftr xm (MBITS f + 1 + 3)) then shunt_loop f xm xe
                       else norm_loop n (MBITS f + 3) xm xe) ;;
    NORMRET f xs xe (wrap (WBITS f) xm) op.

Definition ieee754sp_fint (x : Z) : M ieee754 := from_int SP 32 x "fint".
Definition ieee754sp_flong (x : Z) : M ieee754 := from_int SP 64 x "sp_flong".
Definition ieee754dp_flong (x : Z) : M ieee754 := from_int DP 64 x "dp_flong".

(** [dp_fint.c]: every [int] is exact, so the result is built directly. *)
Definition ieee754dp_fint (x : Z) : M ieee754 :=
  CLEARCX ;;;
  if x =? 0 then ret (ieee754_zero DP false)
  else if (x =? 1) || (x =? -1) then ret (ieee754_one DP (x <? 0))
  else if (x =? 10) || (x =? -10) then ret (ieee754_ten DP (x <? 0))
  else
    let xs := x <? 0 in
    let xm := int_mag 32 x in
    '(xm, xe) <- lift (norm_loop 64 (MBITS DP) xm (MBITS DP)) ;;
    ret (build DP xs (xe + EBIAS DP) (Z.land xm (Z.lnot (HIDDEN_BIT DP)))).

(** Unsigned sources: the top bit is added back in floating point. *)
Definition ieee754sp_funs (u : Z) : M ieee754 :=
  if swrap 32 u <? 0 then
    y <- ieee754sp_fint (Z.land u (2 ^ 31 - 1)) ;; ieee754sp_add (ieee754_1e31 SP) y
  else ieee754sp_fint u.
Definition ieee754dp_funs (u : Z) : M ieee754 :=
  if swrap 32 u <? 0 then
    y <- ieee754dp_fint (Z.land u (2 ^ 31 - 1)) ;; ieee754dp_add (ieee754_1e31 DP) y
  else ieee754dp_fint u.
Definition ieee754sp_fulong (u : Z) : M ieee754 :=
  if swrap 64 u <? 0 then
    y <- ieee754sp_flong (Z.land u (2 ^ 63 - 1)) ;; ieee754sp_add (ieee754_1e63 SP) y
  else ieee754sp_flong u.
Definition ieee754dp_fulong (u : Z) : M ieee754 :=
  if swrap 64 u <? 0 then
    y <- ieee754dp_flong (Z.land u (2 ^ 63 - 1)) ;; ieee754dp_add (ieee754_1e63 DP) y
  else ieee754dp_flong u.

Definition ieee754sp_fdp (x : ieee754) : M ieee754 :=
  let k := EXPLODE DP x in
  CLEARCX ;;;
  '(x, k) <- FLUSH DP x k ;;
  match kc k with
  | SNAN => SETCX INVALID_OPERATION ;;; ieee754_nanxcpt SP (ieee754_indef SP) "fdp"
  | QNAN =>
      let nan := build SP (ks k) (EMAX SP + 1 + EBIAS SP)
                   (wrap 32 (Z.shiftr (km k) (MBITS DP - MBITS SP))) in
      let nan := if negb (ieee754_isnan SP nan) then ieee754_indef SP else nan in
      ieee754_nanxcpt SP nan "fdp"
  | INF => ret (ieee754_inf SP (ks k))
  | ZERO => ret (ieee754_zero SP (ks k))
  | DNORM =>
      SETCX UNDERFLOW ;;; SETCX INEXACT ;;;
      r <- gets (fun s => rm (fcsr s)) ;;
      if (match r with RU => negb (ks k) | RD => ks k | _ => false end)
      then ieee754f_xcpt SP (ieee754_mind SP (ks k)) "fdp"
      else ieee754f_xcpt SP (ieee754_zero SP (ks k)) "fdp"
  | NORM =>
      let rm := wrap 32 (Z.lor (Z.shiftr (km k) (MBITS DP - (MBITS SP + 3)))
                  (b2z (tst (shl 64 (km k) (64 - (MBITS DP - (MBITS SP + 3))))))) in
      NORMRET SP (ks k) (ke k) rm "fdp"
  end.

Definition ieee754dp_fsp (x : ieee754) : M ieee754 :=
  let k := EXPLODE SP x in
  CLEARCX ;;;
  '(x, k) <- FLUSH SP x k ;;
  let deliver (k : comp) : ieee754 :=
    let xm := Z.land (km k) (Z.lnot (HIDDEN_BIT SP)) in
    build DP (ks k) (ke k + EBIAS DP) (shl 64 xm (MBITS DP - MBITS SP)) in
  match kc k with
  | SNAN => SETCX INVALID_OPERATION ;;; ieee754_nanxcpt DP (ieee754_indef DP) "fsp"
  | QNAN =>
      ieee754_nanxcpt DP (build DP (ks k) (EMAX DP + 1 + EBIAS DP)
                            (shl 64 (km k) (MBITS DP - MBITS SP))) "fsp"
  | INF => ret (ieee754_inf DP (ks k))
  | ZERO => ret (ieee754_zero DP (ks k))
  | DNORM => k <- lift (DNORM_loop SP k) ;; ret (deliver k)
  | NORM => ret (deliver k)
  end.

(** ** Integers to floating point *)

Lemma int_mag_abs n x : 1 <= n -> - 2 ^ (n - 1) <= x < 2 ^ (n - 1) ->
  int_mag n x = Z.abs x /\ 0 <= Z.abs x < 2 ^ n.
Proof.
  intros Hn Hx; assert (E : 2 ^ n = 2 * 2 ^ (n - 1)) by (apply (pow2_split 1); lia).
  unfold int_mag; destruct (Z.ltb_spec x 0); [|lia].
  destruct (Z.eqb_spec x (- 2 ^ (n - 1))); [lia|]; rewrite wrap_small by lia; lia.
Qed.

(** Shifting out the overflow bits one at a time is one sticky shift. *)
Lemma shunt_loop_spec f m e :
  0 <= m < 2 ^ 64 -> 2 ^ (MBITS f + 4) <= m ->
  exists n m', shunt_loop f m e = Some (m', e + n) /\ 0 <= n /\
    2 ^ (MBITS f + 3) <= m' < 2 ^ (MBITS f + 4) /\ Sticky 1 (IZR m * bpow (- n)) m'.
Proof.
  intros Hm Hbig; pose proof (fmt_facts f) as FF.
  set (I := fun t : Z * Z => exists n, snd t = e + n /\ 0 <= n /\ 2 ^ (MBITS f + 3) <= fst t /\
              Sticky 1 (IZR m * bpow (- n)) (fst t)).
  destruct (while_rule (fun '(m, _) => tst (Z.shiftr m (MBITS f + 1 + 3)))
              (fun '(m, e) => (XSRS1 m, e + 1)) I
              (fun t => Z.log2 (fst t)) 64 (m, e)) as ([m' e'] & Ht & (n & Hn & Hn0 & Hl & St) & Hc).
  - exists 0; cbn [fst snd]; split; [lia|split; [lia|split; [mbits f; lia|]]].
    change (- 0) with 0; rewrite bpow_0, Rmult_1_r; apply sticky_exact.
  - cbn [fst]; assert (Z.log2 m < 64) by (apply Z.log2_lt_pow2; mbits f; lia); lia.
  - intros [m' e'] (n & Hn & Hn0 & Hl & St) Hc; cbn [fst snd] in *.
    rewrite tst_shiftr in Hc by (mbits f; lia); zbool.
    replace (MBITS f + 1 + 3) with (MBITS f + 4) in Hc by lia.
    assert (P : 0 <= m') by (mbits f; lia).
    rewrite XSRS1_srs by auto; split.
    + exists (n + 1); cbn [fst snd]; split; [lia|split; [lia|split]].
      * replace (2 ^ (MBITS f + 3)) with (2 * (4 * 2 ^ MBITS f)) by (mbits f; lia).
        apply srs_cmp; try lia; mbits f; lia.
      * replace (- (n + 1)) with (- n + - (1)) by lia; rewrite bpow_plus, <- Rmult_assoc.
        apply sticky_srs; auto; lia.
    + split; [apply Z.log2_nonneg|].
      assert (P' : 2 <= m') by (mbits f; lia).
      pose proof (Z.log2_spec m' ltac:(lia)) as [_ Lg]; pose proof (Z.log2_le_mono 2 m' P') as L1.
      change (Z.log2 2) with 1 in L1; rewrite Z.pow_succ_r in Lg by lia.
      apply Z.log2_lt_pow2; [apply srs_pos; lia|].
      rewrite (pow2_split 1 (Z.log2 m' - 1) (Z.log2 m')) in * by lia; change (2 ^ 1) with 2 in *.
      apply Z.nle_gt; rewrite (proj1 (srs_cmp m' 1 _ P ltac:(lia))); change (2 ^ 1) with 2; lia.
  - cbn [fst snd] in *; exists n, m'; split; [rewrite <- Hn; exact Ht|split; [auto|split; [|auto]]].
    rewrite tst_shiftr in Hc by (mbits f; lia); zbool.
    replace (MBITS f + 1 + 3) with (MBITS f + 4) in Hc by lia; auto.
Qed.

(** The tabulated small integers. *)
Lemma one_eq f sn : ieee754_one f sn = mkfp sn (0 + EBIAS f) 0.
Proof. destruct f, sn; reflexivity. Qed.

Lemma ten_eq f sn : ieee754_ten f sn = mkfp sn (3 + EBIAS f) (2 ^ (MBITS f - 2)).
Proof. destruct f, sn; reflexivity. Qed.

(** A datum in the normal range with its fields given. *)
Lemma normal_facts f sn e m :
  EMIN f <= e <= EMAX f -> 0 <= m < 2 ^ MBITS f ->
  let x := mkfp sn (e + EBIAS f) m in
  wf f x /\ is_finite f x = true /\
  val f x = (sgn sn * (IZR (2 ^ MBITS f + m) * bpow (e - MBITS f)))%R.
Proof.
  intros He Hm x; subst x; mbits f; unfold wf, is_finite, val; cbn [sign bexp mant].
  destruct (Z.eqb_spec (e + EBIAS f) 0); [lia|].
  destruct (Z.eqb_spec (e + EBIAS f) (EMAX f + 1 + EBIAS f)); [lia|].
  split; [lia|split; [reflexivity|]]; do 3 f_equal; lia.
Qed.

Lemma one_facts f sn :
  wf f (ieee754_one f sn) /\ is_finite f (ieee754_one f sn) = true /\
  val f (ieee754_one f sn) = sgn sn.
Proof.
  rewrite one_eq; destruct (normal_facts f sn 0 0) as (W & F & V); [mbits f; lia..|].
  split; [exact W|split; [exact F|]]; rewrite V, Z.add_0_r, <- bpow_Z, <- bpow_plus by (mbits f; lia).
  replace (_ + _) with 0 by lia; rewrite bpow_0; lra.
Qed.

Lemma ten_facts f sn :
  wf f (ieee754_ten f sn) /\ is_finite f (ieee754_ten f sn) = true /\
  val f (ieee754_ten f sn) = (sgn sn * 10)%R.
Proof.
  rewrite ten_eq.
  assert (P : 2 ^ MBITS f = 4 * 2 ^ (MBITS f - 2)) by (mbits f; apply (pow2_split 2); lia).
  destruct (normal_facts f sn 3 (2 ^ (MBITS f - 2))) as (W & F & V); [mbits f; lia..|].
  split; [exact W|split; [exact F|]]; rewrite V, P; f_equal.
  replace (4 * 2 ^ (MBITS f - 2) + 2 ^ (MBITS f - 2)) with (5 * 2 ^ (MBITS f - 2)) by ring.
  rewrite mult_IZR, <- bpow_Z, Rmult_assoc, <- bpow_plus by (mbits f; lia).
  replace (_ + _) with 1 by lia; rewrite bpow_Z by lia; change (IZR (2 ^ 1)) with 2%R; lra.
Qed.

Lemma sgn_abs x : (sgn (x <? 0)%Z * IZR (Z.abs x))%R = IZR x.
Proof.
  destruct (Z.ltb_spec x 0); cbn [sgn].
  - rewrite Z.abs_neq, opp_IZR by lia; lra.
  - rewrite Z.abs_eq by lia; lra.
Qed.

(** The two normalisation paths bring any magnitude to the rounding position. *)
Lemma int_norm f n m e :
  MBITS f + 4 <= n <= 64 -> 0 < m < 2 ^ n ->
  exists m' k, (if tst (Z.shiftr m (MBITS f + 1 + 3)) then shunt_loop f m e
                else norm_loop n (MBITS f + 3) m e) = Some (m', e + k) /\
    2 ^ (MBITS f + 3) <= m' < 2 ^ (MBITS f + 4) /\ Sticky 2 (IZR m * bpow (- k)) m'.
Proof.
  intros Hn Hm; pose proof (fmt_facts f) as FF; rewrite tst_shiftr by lia.
  replace (MBITS f + 1 + 3) with (MBITS f + 4) by lia.
  assert (2 ^ n <= 2 ^ 64) by (apply pow2_le; lia).
  destruct (Z.leb_spec (2 ^ (MBITS f + 4)) m).
  - destruct (shunt_loop_spec f m e ltac:(lia) ltac:(lia)) as (k & m' & E & Hk & R & St).
    exists m', k; split; [exact E|split; [exact R|apply (sticky_weaken 1); [lia|exact St]]].
  - destruct (norm_sticky f n e m (IZR m) ltac:(lia) ltac:(lia) (sticky_exact 1 m) (or_introl eq_refl))
      as (k & E & R & St).
    exists (m * 2 ^ k), (- k); rewrite Z.opp_involutive; auto.
Qed.

Lemma from_int_spec f n x op s :
  MBITS f + 4 <= n <= 64 -> - 2 ^ (n - 1) <= x < 2 ^ (n - 1) -> nod (fcsr s) = false ->
  Delivers f op s (IZR x) (from_int f n x op s).
Proof.
  intros Hw Hx Hn; pose proof (fmt_facts f) as FF.
  destruct (int_mag_abs n x ltac:(lia) Hx) as [Em Ha]; pose proof (sgn_abs x) as Sx.
  unfold from_int, CLEARCX; autorewrite with st; rewrite Em.
  destruct (Z.eqb_spec x 0) as [->|H0]; [now apply delivers_zero|].
  destruct ((x =? 1) || (x =? -1)) eqn:E1.
  { destruct (one_facts f (x <? 0)) as (W & F & V); apply delivers_exact; auto; rewrite V.
    apply orb_prop in E1; destruct E1; zbool; subst x; cbn; lra. }
  destruct ((x =? 10) || (x =? -10)) eqn:E10.
  { destruct (ten_facts f (x <? 0)) as (W & F & V); apply delivers_exact; auto; rewrite V.
    apply orb_prop in E10; destruct E10; zbool; subst x; cbn; lra. }
  clear E1 E10.
  destruct (int_norm f n (Z.abs x) (MBITS f + 3) Hw ltac:(lia)) as (m' & k & E & R & St).
  rewrite E, run_bind_lift, wrap_small
    by (pose proof (hidden_word f 5 ltac:(lia)); mbits f; lia).
  apply delivers_of.
  destruct (NORMRET_rounds f (x <? 0) (MBITS f + 3 + k) m' _ op (clear s) Hn R St)
    as (r & i & u & o & HX & FR).
  exists r, i, u, o; split; [exact HX|].
  replace (IZR x) with (sgn (x <? 0)%Z * (IZR (Z.abs x) * bpow (- k) *
    bpow (MBITS f + 3 + k - MBITS f - 3)))%R; [exact FR|].
  rewrite Rmult_assoc, <- bpow_plus; replace (_ + _) with 0 by lia.
  rewrite bpow_0, Rmult_1_r; exact Sx.
Qed.

Lemma dp_fint_spec x s :
  - 2 ^ 31 <= x < 2 ^ 31 ->
  exists r, ieee754dp_fint x s = Some (r, clear s) /\
    wf DP r /\ is_finite DP r = true /\ val DP r = IZR x.
Proof.
  intros Hx; destruct (int_mag_abs 32 x ltac:(lia) Hx) as [Em Ha]; pose proof (sgn_abs x) as Sx.
  unfold ieee754dp_fint, CLEARCX; autorewrite with st; rewrite Em.
  destruct (Z.eqb_spec x 0) as [->|H0].
  { eexists; split; [reflexivity|]; apply zero_facts. }
  destruct ((x =? 1) || (x =? -1)) eqn:E1.
  { eexists; split; [reflexivity|]; destruct (one_facts DP (x <? 0)) as (W & F & V).
    split; [exact W|split; [exact F|rewrite V]].
    apply orb_prop in E1; destruct E1; zbool; subst x; reflexivity. }
  destruct ((x =? 10) || (x =? -10)) eqn:E10.
  { eexists; split; [reflexivity|]; destruct (ten_facts DP (x <? 0)) as (W & F & V).
    split; [exact W|split; [exact F|rewrite V]].
    apply orb_prop in E10; destruct E10; zbool; subst x; cbn; lra. }
  destruct (norm_loop_spec 64 (MBITS DP) (Z.abs x) (MBITS DP)) as (n & Hn & E & R); [cbn; lia..|].
  rewrite E, run_bind_lift; eexists; split; [reflexivity|].
  assert (Hn' : n <= MBITS DP).
  { pose proof (pow2_pos n Hn); assert (n < MBITS DP + 1); [|lia].
    apply Z.pow_lt_mono_r_iff with 2; [lia|cbn; lia|nia]. }
  destruct (build_val DP (x <? 0) (MBITS DP - n) (Z.abs x * 2 ^ n)) as (W & F & _ & V);
    [unfold EMIN, EMAX, MBITS in *; lia|exact R|].
  split; [exact W|split; [exact F|rewrite V, <- Sx; f_equal]].
  rewrite <- bpow_shift by lia; replace (_ + _) with 0 by lia; rewrite bpow_0; lra.
Qed.

(** C31: The conversions of signed integers, which the instructions [cvt.s] and
    [cvt.d] use: from 32 bits to single precision and from 64 bits to single
    and to double precision they terminate and deliver the correctly rounded
    value of the integer, inexact exactly when it has more significant bits
    than the format; from 32 bits to double precision the value is exact and no
    exception is raised.  (The conversions of unsigned integers are others.) *)
Theorem from_int_correct x s : nod (fcsr s) = false ->
  (- 2 ^ 31 <= x < 2 ^ 31 -> Delivers SP "fint" s (IZR x) (ieee754sp_fint x s) /\
     exists r, ieee754dp_fint x s = Some (r, clear s) /\ wf DP r /\ is_finite DP r = true /\ val DP r = IZR x) /\
  (- 2 ^ 63 <= x < 2 ^ 63 -> Delivers SP "sp_flong" s (IZR x) (ieee754sp_flong x s) /\
     Delivers DP "dp_flong" s (IZR x) (ieee754dp_flong x s)).
Proof.
  intros Hn; split; intros Hx; split.
  - apply from_int_spec; [cbn; lia|exact Hx|exact Hn].
  - exact (dp_fint_spec x s Hx).
  - apply from_int_spec; [cbn; lia|exact Hx|exact Hn].
  - apply from_int_spec; [cbn; lia|exact Hx|exact Hn].
Qed.

Lemma from_int_correct_witness : Delivers SP "fint" s0 (IZR 16777217) (ieee754sp_fint 16777217 s0).
Proof. apply (proj1 (from_int_correct 16777217 s0 eq_refl)); closed. Defined.

(** [ieee754dp_funs] is exact for every [unsigned int]. *)
Lemma dp_funs_spec u s :
  0 <= u < 2 ^ 32 -> nod (fcsr s) = false ->
  exists r, ieee754dp_funs u s = Some (r, clear s) /\
    wf DP r /\ is_finite DP r = true /\ val DP r = IZR u.
Proof.
  intros Hu Hn; unfold ieee754dp_funs, swrap; rewrite (Z.mod_small u) by lia; change (32 - 1) with 31.
  destruct (Z.ltb_spec u (2 ^ 31)) as [L|L].
  { destruct (Z.ltb_spec u 0); [lia|apply dp_fint_spec; lia]. }
  destruct (Z.ltb_spec (u - 2 ^ 32) 0); [|lia].
  rewrite land_mask by lia; replace (u mod 2 ^ 31) with (u - 2 ^ 31) by (Z.div_mod_to_equations; lia).
  destruct (dp_fint_spec (u - 2 ^ 31) s ltac:(lia)) as (y & Ey & Wy & Fy & Vy).
  rewrite (run_bind_some _ _ _ _ _ Ey).
  destruct (normal_facts DP false 31 0) as (Wb & Fb & Vb); [cbn; lia..|].
  change (mkfp false (31 + EBIAS DP) 0) with (ieee754_1e31 DP) in *.
  destruct (add_spec DP (ieee754_1e31 DP) y (clear s) Wb Wy Fb Fy Hn) as [D _].
  replace (val DP (ieee754_1e31 DP) + val DP y)%R with (IZR u) in D.
  - destruct (int_representable DP u ltac:(cbn; lia)) as (A & B & C).
    exact (delivers_representable _ _ _ _ _ D A B C).
  - rewrite Vb, Vy, minus_IZR, Z.add_0_r, <- (bpow_Z (MBITS DP)), <- bpow_plus by (cbn; lia).
    replace (_ + _) with 31 by reflexivity; rewrite bpow_Z by lia; cbn [sgn]; lra.
Qed.

(** [ieee754sp_funs] rounds twice, the low 31 bits and then the sum, so that
    its result is not always the correctly rounded one: the conversion of the
    same number through [ieee754sp_flong] is, and is closer. *)
Theorem sp_funs_double_rounding :
  let u := 2 ^ 31 + 2 ^ 30 + 2 ^ 8 + 2 ^ 7 - 1 in
  let s := mkst (csr_of 0) [] in
  option_map fst (ieee754sp_funs u s) = Some (mkfp false 158 4194306) /\
  option_map fst (ieee754sp_flong u s) = Some (mkfp false 158 4194305) /\
  (Rabs (val SP (mkfp false 158 4194305) - IZR u) < Rabs (val SP (mkfp false 158 4194306) - IZR u))%R.
Proof.
  split; [vm_compute; reflexivity|split; [vm_compute; reflexivity|]].
  change 158 with (31 + EBIAS SP).
  destruct (normal_facts SP false 31 4194305) as (_ & _ & ->); [cbn; lia..|].
  destruct (normal_facts SP false 31 4194306) as (_ & _ & ->); [cbn; lia..|].
  cbn [sgn]; rewrite !bpow_Z, !Rmult_1_l, <- !mult_IZR, <- !minus_IZR, <- !abs_IZR by (cbn; lia).
  apply IZR_lt; reflexivity.
Qed.

(** ** Between the formats *)

(** [ieee754dp_fsp] is exact on finite operands, and raises nothing. *)
Lemma dp_fsp_spec x s :
  wf SP x -> is_finite SP x = true -> nod (fcsr s) = false ->
  exists r, ieee754dp_fsp x s = Some (r, clear s) /\
    wf DP r /\ is_finite DP r = true /\ val DP r = val SP x.
Proof.
  intros W F Hn; unfold ieee754dp_fsp; enter Hn.
  assert (D : forall k, 2 ^ MBITS SP <= km k < 2 ^ PREC SP -> EMIN DP <= ke k <= EMAX DP ->
    let r := build DP (ks k) (ke k + EBIAS DP)
               (shl 64 (Z.land (km k) (Z.lnot (HIDDEN_BIT SP))) (MBITS DP - MBITS SP)) in
    wf DP r /\ is_finite DP r = true /\ val DP r = cval SP k).
  { intros k Hk He.
    destruct (build_val DP (ks k) (ke k) (km k * 2 ^ 29)) as (W' & F' & _ & V'); [lia|cbn in *; lia|].
    unfold HIDDEN_BIT, MBIT in *; rewrite land_lnot_bit in * by (cbn; lia).
    rewrite testbit_top in * by (cbn in *; lia).
    destruct (Z.leb_spec (2 ^ MBITS DP) (km k * 2 ^ 29)); [|cbn in *; lia].
    destruct (Z.leb_spec (2 ^ MBITS SP) (km k)); [|cbn in *; lia].
    rewrite shl_small by (cbn in *; lia).
    replace ((km k - 2 ^ MBITS SP) * 2 ^ (MBITS DP - MBITS SP)) with (km k * 2 ^ 29 - 2 ^ MBITS DP)
      by (cbn; lia).
    split; [exact W'|split; [exact F'|rewrite V'; unfold cval; f_equal]].
    rewrite <- bpow_shift by lia; do 2 f_equal; unfold MBITS; lia. }
  classify W F.
  - eexists; split; [reflexivity|]; rewrite V; apply zero_facts.
  - destruct (norm_loop_spec 32 23 (km (EXPLODE SP x)) (ke (EXPLODE SP x))) as (n & Hn0 & E & R);
      [lia|lia|cbn in *; lia|].
    unfold DNORM_loop; cbn [WBITS MBITS]; rewrite E, run_bind_lift.
    assert (n < 24) by (pose proof (pow2_pos n Hn0); apply Z.pow_lt_mono_r_iff with 2; cbn in *; nia).
    eexists; split; [reflexivity|].
    destruct (D (mkcomp (kc (EXPLODE SP x)) (ks (EXPLODE SP x)) (ke (EXPLODE SP x) - n)
      (km (EXPLODE SP x) * 2 ^ n)) R) as (W' & F' & V');
      [cbn [ke]; unfold EMIN, EMAX in *; lia|].
    split; [exact W'|split; [exact F'|etransitivity; [exact V'|rewrite V; unfold cval; cbn [ks ke km]; f_equal]]].
    rewrite <- bpow_shift by lia; do 2 f_equal; lia.
  - eexists; split; [reflexivity|]; rewrite V; apply D; [exact Hm|cbn in *; lia].
Qed.

(** The sticky shift from the double to the extended single mantissa. *)
Lemma narrow m :
  2 ^ MBITS DP <= m < 2 ^ PREC DP ->
  2 ^ (MBITS SP + 3) <= srs m 26 < 2 ^ (MBITS SP + 4) /\ Sticky 2 (IZR m * bpow (- (26))) (srs m 26).
Proof.
  intros Hm; cbn [MBITS PREC] in *; unfold PREC in *; cbn [MBITS] in *; split.
  - split; [apply (srs_cmp m 26 (2 ^ 25)); lia|].
    apply Z.nle_gt; intros H; apply (srs_cmp m 26 (2 ^ 26)) in H; lia.
  - apply sticky_srs; try lia; apply sticky_exact.
Qed.

Lemma mind_facts f sn :
  wf f (ieee754_mind f sn) /\ is_finite f (ieee754_mind f sn) = true /\
  sign (ieee754_mind f sn) = sn /\ val f (ieee754_mind f sn) = (sgn sn * bpow (ELO f))%R.
Proof.
  replace (ieee754_mind f sn) with (build f sn (EMIN f - 1 + EBIAS f) 1) by (destruct f, sn; reflexivity).
  destruct (build_val_sub f sn 1) as (W & F & S & V); [mbits f; lia|].
  rewrite Rmult_1_l in V; auto.
Qed.

(** A nonzero value below half the least subnormal: nothing of it is left
    but its direction. *)
Lemma speck_result f c sn e m u :
  e < ELO f - 1 -> 2 ^ (MBITS f + 3) <= m < 2 ^ (MBITS f + 4) -> Sticky 2 u m ->
  FPResult f c (sgn sn * (u * bpow (e - MBITS f - 3)))
    (if (match rm c with RU => negb sn | RD => sn | _ => false end)
     then ieee754_mind f sn else ieee754_zero f sn) true true false.
Proof.
  intros He Hm St; pose proof (fmt_facts f) as FF; set (w := (u * bpow (e - MBITS f - 3))%R).
  assert (U : (0 < u < IZR (2 ^ (MBITS f + 4)))%R).
  { destruct (St 1) as [[_ S1] _]; destruct (St (4 * 2 ^ MBITS f)) as [[S2 _] _].
    replace (2 ^ 2 * (4 * 2 ^ MBITS f)) with (2 ^ (MBITS f + 4)) in S2 by (mbits f; ring).
    pose proof (IZR_lt 0 (2 ^ 2 * 1) ltac:(lia)); mbits f.
    assert (IZR (2 ^ 2 * 1) <= u)%R by (apply S1; lia); split; [lra|].
    apply Rnot_le_lt; intros K; apply S2 in K; lia. }
  assert (St1 : Sticky 2 (w * bpow (3 - ELO f)) 1).
  { assert (B : (0 < w * bpow (3 - ELO f) < 4)%R).
    { unfold w; rewrite Rmult_assoc, <- bpow_plus; set (d := _ + _).
      pose proof (bpow_pos d) as Bd; split; [apply Rmult_lt_0_compat; lra|].
      apply Rlt_le_trans with (IZR (2 ^ (MBITS f + 4)) * bpow d)%R; [apply Rmult_lt_compat_r; lra|].
      rewrite <- bpow_Z, <- bpow_plus by lia; replace 4%R with (bpow 2) by (rewrite bpow_Z by lia; reflexivity).
      apply bpow_le; unfold d; unfold ELO in *; lia. }
    intros k; change (2 ^ 2) with 4; destruct (Z.le_gt_cases k 0) as [K|K].
    - assert (IZR (4 * k) <= 0)%R by (apply IZR_le; lia); split; split; intros; lra || lia.
    - assert (4 <= IZR (4 * k))%R by (apply IZR_le; lia); split; split; intros; lra || lia. }
  assert (Ev : (w * bpow (3 - ELO f) * bpow (ELO f - 3))%R = w)
    by (rewrite Rmult_assoc, <- bpow_plus; replace (_ + _) with 0 by lia; rewrite bpow_0; lra).
  assert (Rd : Rounded f (rm c) (sgn sn * w) (sgn sn * (IZR (roundoff (rm c) sn 1) * bpow (ELO f)))).
  { rewrite <- Ev at 1; apply round_sticky; auto; cbn; unfold PREC; try lia.
    replace (MBITS f + 1 + 3) with (MBITS f + 4) by lia; mbits f; lia. }
  pose proof (proj1 (roundoff_exact (rm c) sn _ 1 (ELO f) St1) eq_refl) as Ne; rewrite Ev in Ne.
  assert (Hx : exists x, (if (match rm c with RU => negb sn | RD => sn | _ => false end)
     then ieee754_mind f sn else ieee754_zero f sn) = x /\ wf f x /\ is_finite f x = true /\ sign x = sn /\
     val f x = (sgn sn * (IZR (roundoff (rm c) sn 1) * bpow (ELO f)))%R).
  { destruct (zero_facts f sn) as (Wz & Fz & Vz); destruct (mind_facts f sn) as (Wm & Fm & Sm & Vm).
    assert (Sz : sign (ieee754_zero f sn) = sn) by (rewrite zero_eq; reflexivity).
    destruct (rm c), sn; cbv [negb]; eexists; (split; [reflexivity|]); rewrite ?Vz, ?Vm; repeat split;
      try assumption; try apply Wm; try apply Wz; cbn; lra. }
  destruct Hx as (x & -> & W & F & S & V); split; auto.
  - exists (val f x); rewrite V at 1; split; [exact Rd|].
    split; [now apply val_bound|split; [exact F|split; [reflexivity|rewrite V]]]; tauto.
  - intros _; split; [|auto]; apply tiny_format with m; auto; unfold ELO in *; lia.
  - rewrite S; apply sgn_sign; auto; apply (sticky_nonneg u m); auto; mbits f; lia.
Qed.

(** [ieee754sp_fdp] rounds a finite double to single correctly. *)
Lemma sp_fdp_spec x s :
  wf DP x -> is_finite DP x = true -> nod (fcsr s) = false ->
  Delivers SP "fdp" s (val DP x) (ieee754sp_fdp x s).
Proof.
  intros W F Hn; unfold ieee754sp_fdp; enter Hn; classify W F.
  - now apply delivers_zero.
  - destruct (norm_loop_spec 64 52 (km (EXPLODE DP x)) (ke (EXPLODE DP x))) as (n & Hn0 & _ & R);
      [lia|lia|cbn in *; lia|].
    destruct (narrow _ R) as [Rn St].
    pose proof (speck_result SP (fcsr (clear s)) (ks (EXPLODE DP x)) (ke (EXPLODE DP x) - n) _ _
      ltac:(cbn in *; lia) Rn St) as FR.
    apply delivers_of; unfold SETCX; autorewrite with st.
    eexists _, true, true, false; split; [|].
    2:{ replace (val DP x) with (sgn (ks (EXPLODE DP x)) * (IZR (km (EXPLODE DP x) * 2 ^ n) *
          bpow (- (26)) * bpow (ke (EXPLODE DP x) - n - MBITS SP - 3)))%R; [exact FR|].
        rewrite V; unfold cval; f_equal; rewrite Rmult_assoc, <- bpow_plus, <- bpow_shift by lia.
        do 2 f_equal; unfold MBITS; lia. }
    cbn [fcsr clear upd_csr clear_csr rm]; destruct (match rm _ with RU => _ | _ => _ end);
      apply run_xcpt.
  - destruct (narrow _ Hm) as [Rn St].
    rewrite word_srs by (cbn; lia); replace (MBITS DP - (MBITS SP + 3)) with 26 by reflexivity.
    rewrite wrap_small by (cbn in *; lia); apply delivers_of.
    destruct (NORMRET_rounds SP (ks (EXPLODE DP x)) (ke (EXPLODE DP x)) _ _ "fdp" (clear s) Hn Rn St)
      as (r & i & u & o & E & FR).
    exists r, i, u, o; split; [exact E|].
    replace (val DP x) with (sgn (ks (EXPLODE DP x)) * (IZR (km (EXPLODE DP x)) *
          bpow (- (26)) * bpow (ke (EXPLODE DP x) - MBITS SP - 3)))%R; [exact FR|].
    rewrite V; unfold cval; f_equal; rewrite Rmult_assoc, <- bpow_plus; do 2 f_equal; unfold MBITS; lia.
Qed.

(** [ieee754dp_fint] is exact for every [int] and [ieee754dp_funs] for
    every [unsigned int]; neither raises anything. *)
Theorem ieee754dp_from_int_exact x u s :
  - 2 ^ 31 <= x < 2 ^ 31 -> 0 <= u < 2 ^ 32 -> nod (fcsr s) = false ->
  (exists r, ieee754dp_fint x s = Some (r, clear s) /\
     wf DP r /\ is_finite DP r = true /\ val DP r = IZR x) /\
  (exists r, ieee754dp_funs u s = Some (r, clear s) /\
     wf DP r /\ is_finite DP r = true /\ val DP r = IZR u).
Proof. intros Hx Hu Hn; split; [apply dp_fint_spec, Hx|apply dp_funs_spec; auto]. Qed.

Lemma ieee754dp_from_int_exact_witness :
  exists r, ieee754dp_fint (-7) s0 = Some (r, clear s0) /\
    wf DP r /\ is_finite DP r = true /\ val DP r = IZR (-7).
Proof. apply (ieee754dp_from_int_exact (-7) 4294967295 s0); closed. Defined.

(** [ieee754sp_fdp] rounds a finite double to single correctly, and
    [ieee754dp_fsp] is exact on finite singles and raises nothing. *)
Theorem ieee754_convert_correct x y s :
  wf DP x -> is_finite DP x = true -> wf SP y -> is_finite SP y = true -> nod (fcsr s) = false ->
  Delivers SP "fdp" s (val DP x) (ieee754sp_fdp x s) /\
  exists r, ieee754dp_fsp y s = Some (r, clear s) /\
    wf DP r /\ is_finite DP r = true /\ val DP r = val SP y.
Proof. intros Wx Fx Wy Fy Hn; split; [apply sp_fdp_spec; auto|apply dp_fsp_spec; auto]. Qed.

Lemma ieee754_convert_correct_witness :
  Delivers SP "fdp" s0 (val DP (one_half DP)) (ieee754sp_fdp (one_half DP) s0).
Proof. apply (ieee754_convert_correct (one_half DP) (minus_three SP) s0); closed. Defined.
