(* ===== verification/ToInt.v ===== *)
(** * Conversions to integers

    Models [sp_tint.c], [sp_tlong.c], [dp_tint.c] and [dp_tlong.c] (signed
    conversions).  [IntRnd] is the specification: rounding a real to an
    integer in each mode. *)

From S2P Require Import Prelude Rounding Ieee754 Format.

(** ** The code *)

Definition ieee754si_indef : Z := 2 ^ 31 - 1.
Definition ieee754di_indef : Z := 2 ^ 63 - 1.

(** The fraction shifted out of the mantissa: [round], [sticky] and the
    integer part.  [residue] is what the routine computes for [xe >= -1], kept
    in a [w]-bit variable. *)
Definition tint_split (f : fmt) (w xe xm residue : Z) : bool * bool * Z :=
  if xe <? -1 then (false, tst (wrap w xm), 0)
  else
    let residue := wrap w residue in
    (tst (Z.shiftr residue (w - 1)), tst (shl w residue 1), Z.shiftr xm (MBITS f - xe)).

(** [switch (ieee754_csr.rm)] with [odd] computed from [xm]; [xm] has [w] bits. *)
Definition tint_round (w : Z) (r : rmode) (xs round sticky : bool) (xm : Z) : Z :=
  let odd := tst (Z.land xm 1) in
  match r with
  | RN => if round && (sticky || odd) then wrap w (xm + 1) else xm
  | RZ => xm
  | RU => if (round || sticky) && negb xs then wrap w (xm + 1) else xm
  | RD => if (round || sticky) && xs then wrap w (xm + 1) else xm
  end.

(** [if (xs) return -xm; else return xm], converted to an [n]-bit integer. *)
Definition tint_sign (n : Z) (xs : bool) (xm : Z) : Z := swrap n (if xs then - xm else xm).

Definition invalid_si (op : string) : M Z :=
  SETCX INVALID_OPERATION ;;; ieee754si_xcpt ieee754si_indef op.
Definition invalid_di (op : string) : M Z :=
  SETCX INVALID_OPERATION ;;; ieee754di_xcpt ieee754di_indef op.

(** What [ieee754sp_tint] does after its [switch] on the class. *)
Definition sp_tint_finite (xs : bool) (xe xm : Z) : M Z :=
  if xe >=? 31 then
    if (xe =? 31) && xs && (xm =? HIDDEN_BIT SP) then ret (swrap 32 (- 0x80000000))
    else invalid_si "sp_tint"
  else if xe >? MBITS SP then ret (tint_sign 32 xs (shl 32 xm (xe - MBITS SP)))
  else
    r <- gets (fun s => rm (fcsr s)) ;;
    let '(round, sticky, xm) :=
      tint_split SP 32 xe xm (shl 32 (shl 32 xm (xe + 1)) (31 - MBITS SP)) in
    let xm := tint_round 32 r xs round sticky xm in
    if tst (Z.shiftr xm 31) then invalid_si "sp_tint"
    else when (round || sticky) (SETCX INEXACT) ;;; ret (tint_sign 32 xs xm).

Definition ieee754sp_tint (x : ieee754) : M Z :=
  CLEARCX ;;;
  let k := EXPLODE SP x in
  '(x, k) <- FLUSH SP x k ;;
  match kc k with
  | SNAN | QNAN | INF => invalid_si "sp_tint"
  | ZERO => ret 0
  | DNORM | NORM => sp_tint_finite (ks k) (ke k) (km k)
  end.

(** What [ieee754dp_tint] does after its [switch] on the class. *)
Definition dp_tint_finite (xs : bool) (xe xm : Z) : M Z :=
  if xe >? 31 then invalid_si "dp_tint"
  else if xe >? MBITS DP then ret (tint_sign 32 xs (shl 64 xm (xe - MBITS DP)))
  else if xe <? MBITS DP then
    r <- gets (fun s => rm (fcsr s)) ;;
    let '(round, sticky, xm) := tint_split DP 64 xe xm (shl 64 xm (64 - MBITS DP + xe)) in
    let xm := tint_round 64 r xs round sticky xm in
    if tst (Z.shiftr xm 31) && (negb xs || negb (xm =? 0x80000000)) then invalid_si "dp_tint"
    else when (round || sticky) (SETCX INEXACT) ;;; ret (tint_sign 32 xs xm)
  else ret (tint_sign 32 xs xm).

Definition ieee754dp_tint (x : ieee754) : M Z :=
  CLEARCX ;;;
  let k := EXPLODE DP x in
  '(x, k) <- FLUSH DP x k ;;
  match kc k with
  | SNAN | QNAN | INF => invalid_si "dp_tint"
  | ZERO => ret 0
  | DNORM | NORM => dp_tint_finite (ks k) (ke k) (km k)
  end.

(** What [ieee754sp_tlong] does after its [switch] on the class. *)
Definition sp_tlong_finite (xs : bool) (xe xm : Z) : M Z :=
  if xe >=? 63 then
    if (xe =? 63) && xs && (xm =? HIDDEN_BIT SP) then ret (swrap 64 (- 0x8000000000000000))
    else invalid_di "sp_tlong"
  else if xe >? MBITS SP then ret (tint_sign 64 xs (shl 64 xm (xe - MBITS SP)))
  else if xe <? MBITS SP then
    r <- gets (fun s => rm (fcsr s)) ;;
    let '(round, sticky, xm) := tint_split SP 32 xe xm (shl 64 xm (32 - MBITS SP + xe)) in
    let xm := tint_round 64 r xs round sticky xm in
    if tst (Z.shiftr xm 63) then invalid_di "sp_tlong"
    else when (round || sticky) (SETCX INEXACT) ;;; ret (tint_sign 64 xs xm)
  else ret (tint_sign 64 xs xm).

Definition ieee754sp_tlong (x : ieee754) : M Z :=
  CLEARCX ;;;
  let k := EXPLODE SP x in
  '(x, k) <- FLUSH SP x k ;;
  match kc k with
  | SNAN | QNAN | INF => invalid_di "sp_tlong"
  | ZERO => ret 0
  | DNORM | NORM => sp_tlong_finite (ks k) (ke k) (km k)
  end.

(** What [ieee754dp_tlong] does after its [switch] on the class. *)
Definition dp_tlong_finite (xs : bool) (xe xm : Z) : M Z :=
  if xe >=? 63 then
    if (xe =? 63) && xs && (xm =? HIDDEN_BIT DP) then ret (swrap 64 (- 0x8000000000000000))
    else invalid_di "dp_tlong"
  else if xe >? MBITS DP then ret (tint_sign 64 xs (shl 64 xm (xe - MBITS DP)))
  else if xe <? MBITS DP then
    r <- gets (fun s => rm (fcsr s)) ;;
    let '(round, sticky, xm) :=
      tint_split DP 64 xe xm (shl 64 (shl 64 xm (xe + 1)) (63 - MBITS DP)) in
    let xm := tint_round 64 r xs round sticky xm in
    if tst (Z.shiftr xm 63) then invalid_di "dp_tlong"
    else when (round || sticky) (SETCX INEXACT) ;;; ret (tint_sign 64 xs xm)
  else ret (tint_sign 64 xs xm).

Definition ieee754dp_tlong (x : ieee754) : M Z :=
  CLEARCX ;;;
  let k := EXPLODE DP x in
  '(x, k) <- FLUSH DP x k ;;
  match kc k with
  | SNAN | QNAN | INF => invalid_di "dp_tlong"
  | ZERO => ret 0
  | DNORM | NORM => dp_tlong_finite (ks k) (ke k) (km k)
  end.

(** By format. *)
Definition ieee754_tint (f : fmt) : ieee754 -> M Z :=
  match f with SP => ieee754sp_tint | DP => ieee754dp_tint end.
Definition ieee754_tlong (f : fmt) : ieee754 -> M Z :=
  match f with SP => ieee754sp_tlong | DP => ieee754dp_tlong end.

(** ** Rounding to an integer *)

Definition IntRnd (r : rmode) (v : R) (n : Z) : Prop :=
  match r with
  | RN => (Rabs (v - IZR n) <= / 2)%R /\ ((Rabs (v - IZR n) = / 2)%R -> Z.even n = true)
  | RZ => (Rabs (v - IZR n) < 1)%R /\ (Rabs (IZR n) <= Rabs v)%R
  | RD => (IZR n <= v < IZR n + 1)%R
  | RU => (IZR n - 1 < v <= IZR n)%R
  end.

Lemma IntRnd_unique r v a b : IntRnd r v a -> IntRnd r v b -> a = b.
Proof.
  assert (Near : forall x y, (Rabs (IZR x - IZR y) < 1)%R -> x = y).
  { intros x y H; apply Rabs_def2 in H; rewrite <- minus_IZR in H; destruct H as [H1 H2].
    apply lt_IZR in H1; assert (-1 < x - y) by (apply lt_IZR; lra); lia. }
  destruct r; cbn; intros [A1 A2] [B1 B2].
  - destruct (Rlt_or_le (Rabs (IZR a - IZR b)) 1) as [H|H]; [auto|].
    assert (D : (Rabs (v - IZR a) = / 2 /\ Rabs (v - IZR b) = / 2 /\
                 (IZR a - IZR b = 1 \/ IZR b - IZR a = 1))%R)
      by (revert A1 B1 H; unfold Rabs; repeat destruct Rcase_abs; intros; repeat split; lra).
    destruct D as (Da & Db & D); specialize (A2 Da); specialize (B2 Db).
    rewrite Zeven_mod in A2, B2; zbool.
    assert (a - b = 1 \/ b - a = 1) as [|] by
      (destruct D; [left|right]; apply eq_IZR; rewrite minus_IZR; auto); divmod.
  - apply Near; revert A1 A2 B1 B2; unfold Rabs; repeat destruct Rcase_abs; intros; lra.
  - apply Near; apply Rabs_def1; lra.
  - apply Near; apply Rabs_def1; lra.
Qed.

Lemma IntRnd_self r n : IntRnd r (IZR n) n.
Proof.
  assert (Rabs (IZR n - IZR n) = 0)%R by (rewrite Rminus_diag, Rabs_R0; reflexivity).
  destruct r; cbn; try rewrite H; split; try lra.
Qed.

Lemma near_int v n : (Rabs (v - IZR n) < / 2)%R -> IntRnd RN v n.
Proof. intros; cbn; split; lra. Qed.

(** The magnitude of [m * 2^-k] rounded to an integer. *)
Definition iround (r : rmode) (sn : bool) (m k : Z) : Z :=
  let q := m / 2 ^ k in
  let t := m mod 2 ^ k in
  let away := match r with
              | RN => (2 ^ k <? 2 * t) || (2 ^ k =? 2 * t) && Z.odd q
              | RZ => false
              | RU => tst t && negb sn
              | RD => tst t && sn
              end in
  q + b2z away.

Definition signed (sn : bool) (n : Z) : Z := if sn then - n else n.

Lemma signed_IZR sn n : IZR (signed sn n) = (sgn sn * IZR n)%R.
Proof. destruct sn; cbn [signed sgn]; rewrite ?opp_IZR; lra. Qed.

(** [iround] compares [t / 2^k] with one half; in reals, with [c = 2^-k]. *)
Lemma iround_spec r sn m k :
  0 <= m -> 0 <= k -> IntRnd r (sgn sn * (IZR m * bpow (- k))) (signed sn (iround r sn m k)).
Proof.
  intros Hm Hk; unfold iround; pose proof (pow2_pos k Hk) as Hp.
  pose proof (Z.div_mod m (2 ^ k) ltac:(lia)) as E; pose proof (Z.mod_pos_bound m (2 ^ k) Hp) as Ht.
  assert (Hq : 0 <= m / 2 ^ k) by (apply Z.div_pos; lia).
  set (q := m / 2 ^ k) in *; set (t := m mod 2 ^ k) in *.
  set (c := bpow (- k)); set (h := (IZR t * c)%R).
  assert (C : (IZR (2 ^ k) * c = 1)%R) by (unfold c; rewrite <- bpow_Z by lia; apply bpow_opp).
  assert (V : (IZR m * c = IZR q + h)%R).
  { rewrite E, plus_IZR, mult_IZR; unfold h; set (a := IZR (2 ^ k)) in *.
    transitivity (IZR q * (a * c) + IZR t * c)%R; [ring|rewrite C; ring]. }
  assert (Hc : (0 < c)%R) by apply bpow_pos.
  assert (Cmp : forall a b, (a < b <-> (IZR a * c < IZR b * c)%R)) by (intros; symmetry; apply scaled_lt).
  assert (H0 : (0 <= h < 1)%R).
  { split; [apply scaled_nonneg; lia|rewrite <- C; apply Cmp; lia]. }
  assert (Ev : Z.even (signed sn q) = negb (Z.odd q))
    by (rewrite <- Z.negb_odd; destruct sn; cbn; rewrite ?Z.odd_opp; reflexivity).
  assert (Ev1 : Z.even (signed sn (q + 1)) = Z.odd q)
    by (destruct sn; cbn; rewrite ?Z.even_opp, Z.even_add; rewrite <- Z.negb_odd; now destruct (Z.odd q)).
  apply IZR_le in Hq; rewrite V; clear V E.
  assert (Hz : t = 0 -> h = 0%R) by (unfold h; intros ->; lra).
  assert (Hnz : t <> 0 -> (0 < h)%R) by (intros; apply Rmult_lt_0_compat; auto; apply IZR_lt; lia).
  assert (H2 : (IZR (2 * t) * c = 2 * h)%R) by (rewrite mult_IZR; unfold h; ring).
  assert (L2 : 2 ^ k < 2 * t <-> (1 < 2 * h)%R) by (rewrite Cmp, C, H2; tauto).
  assert (G2 : 2 * t < 2 ^ k <-> (2 * h < 1)%R) by (rewrite Cmp, C, H2; tauto).
  clearbody h q; destruct r; cbv beta iota zeta.
  - destruct (Z.ltb_spec (2 ^ k) (2 * t)); [|destruct (Z.eqb_spec (2 ^ k) (2 * t))]; cbn [orb andb b2z].
    + apply L2 in H; apply near_int; rewrite signed_IZR, plus_IZR; apply Rabs_def1;
        destruct sn; cbn [sgn]; lra.
    + assert (h = / 2)%R by (assert (~ (1 < 2 * h)%R) by (rewrite <- L2; lia);
        assert (~ (2 * h < 1)%R) by (rewrite <- G2; lia); lra).
      destruct (Z.odd q) eqn:O; cbn [b2z]; rewrite ?Z.add_0_r.
      * split; [|rewrite Ev1; auto]; rewrite signed_IZR, plus_IZR; destruct sn; cbn [sgn];
          unfold Rabs; destruct Rcase_abs; lra.
      * split; [|rewrite Ev; auto]; rewrite signed_IZR; destruct sn; cbn [sgn];
          unfold Rabs; destruct Rcase_abs; lra.
    + assert (2 * h < 1)%R by (apply G2; lia); rewrite Z.add_0_r.
      apply near_int; rewrite signed_IZR; apply Rabs_def1; destruct sn; cbn [sgn]; lra.
  - cbn [b2z IntRnd]; rewrite Z.add_0_r, signed_IZR.
    destruct sn; cbn [sgn]; unfold Rabs; repeat destruct Rcase_abs; split; lra.
  - unfold tst; destruct (Z.eqb_spec t 0) as [T|T]; destruct sn; cbn [negb andb b2z signed IntRnd];
      rewrite ?opp_IZR, ?plus_IZR; cbn [sgn]; [specialize (Hz T)|specialize (Hz T)|specialize (Hnz T)|specialize (Hnz T)]; lra.
  - unfold tst; destruct (Z.eqb_spec t 0) as [T|T]; destruct sn; cbn [negb andb b2z signed IntRnd];
      rewrite ?opp_IZR, ?plus_IZR; cbn [sgn]; [specialize (Hz T)|specialize (Hz T)|specialize (Hnz T)|specialize (Hnz T)]; lra.
Qed.

(** ** The code rounds as [iround] does *)

Lemma shl_shl w m a b : 0 <= a -> 0 <= b -> shl w (shl w m a) b = shl w m (a + b).
Proof.
  intros; unfold shl, wrap; rewrite !Z.shiftl_mul_pow2, Z.pow_add_r, Z.mul_assoc by lia.
  apply Zmult_mod_idemp_l.
Qed.

Lemma wrap_shl w w' m a : 0 <= w <= w' -> wrap w (shl w' m a) = shl w m a.
Proof.
  intros; unfold shl, wrap; pose proof (pow2_pos w); pose proof (pow2_pos (w' - w)).
  rewrite (pow2_split w (w' - w) w'), Z.rem_mul_r by lia.
  rewrite Z.mul_comm, Z.mod_add by lia; apply Z.mod_mod; lia.
Qed.

Lemma wrap_shl_same w m a : wrap w (shl w m a) = shl w m a.
Proof. unfold shl, wrap; apply Zmod_mod. Qed.

(** [round] and [sticky] say where the fraction lies. *)
Lemma tint_split_spec f w xe m residue :
  MBITS f + 1 < w -> 0 <= m < 2 ^ PREC f -> xe <= MBITS f ->
  (-1 <= xe -> wrap w residue = shl w m (w - (MBITS f - xe))) ->
  let k := MBITS f - xe in
  tint_split f w xe m residue =
    (2 ^ k <=? 2 * (m mod 2 ^ k), tst ((2 * (m mod 2 ^ k)) mod 2 ^ k), m / 2 ^ k).
Proof.
  intros Hw Hm He Hr k; pose proof (fmt_facts f) as FF; unfold tint_split.
  assert (Pk : 0 < 2 ^ k) by (apply pow2_pos; lia).
  destruct (Z.ltb_spec xe (-1)) as [Hx|Hx].
  - assert (B : 2 * 2 ^ PREC f <= 2 ^ k).
    { replace (2 * 2 ^ PREC f) with (2 ^ (1 + PREC f)) by (unfold PREC; rewrite Z.pow_add_r by lia; reflexivity).
      apply pow2_le; unfold PREC, k; lia. }
    rewrite (Z.mod_small m), (Z.div_small m), (Z.mod_small (2 * m)), wrap_small by
      (try split; try lia; apply Z.lt_trans with (2 ^ PREC f); try lia; apply pow2_lt; unfold PREC; lia).
    destruct (Z.leb_spec (2 ^ k) (2 * m)); [lia|].
    unfold tst; destruct (Z.eqb_spec m 0), (Z.eqb_spec (2 * m) 0); try lia; reflexivity.
  - rewrite (Hr Hx); cbv zeta; fold k; assert (Kw : 0 <= k < w) by lia; clear Hr.
    pose proof (Z.mod_pos_bound m (2 ^ k) Pk) as Ht; pose proof (pow2_pos (w - k)) as Pw.
    assert (E : shl w m (w - k) = m mod 2 ^ k * 2 ^ (w - k)).
    { unfold shl, wrap; rewrite Z.shiftl_mul_pow2, (pow2_split k (w - k) w) by lia.
      apply Z.mul_mod_distr_r; lia. }
    assert (E2 : shl w (shl w m (w - k)) 1 = (2 * (m mod 2 ^ k)) mod 2 ^ k * 2 ^ (w - k)).
    { rewrite E; unfold shl, wrap; rewrite Z.shiftl_mul_pow2, (pow2_split k (w - k) w) by lia.
      rewrite <- (Z.mul_mod_distr_r (2 * _)) by lia; f_equal; change (2 ^ 1) with 2; ring. }
    rewrite E2, E, tst_shiftr, shiftr_div by (try apply Z.mul_nonneg_nonneg; lia).
    f_equal; f_equal.
    + assert (W1 : 2 * 2 ^ (w - 1) = 2 ^ k * 2 ^ (w - k))
        by (rewrite <- (pow2_split k (w - k) w) by lia; symmetry; apply (pow2_split 1); lia).
      destruct (Z.leb_spec (2 ^ (w - 1)) (m mod 2 ^ k * 2 ^ (w - k)));
        destruct (Z.leb_spec (2 ^ k) (2 * (m mod 2 ^ k))); auto; exfalso; nia.
    + unfold tst; destruct (Z.eqb_spec ((2 * (m mod 2 ^ k)) mod 2 ^ k) 0) as [->|]; [reflexivity|].
      destruct (Z.eqb_spec ((2 * (m mod 2 ^ k)) mod 2 ^ k * 2 ^ (w - k)) 0); [nia|reflexivity].
Qed.

Lemma odd_land q : tst (Z.land q 1) = Z.odd q.
Proof.
  rewrite land_1, Zmod_odd; destruct (Z.odd q); reflexivity.
Qed.

Lemma tint_round_spec w r xs m k :
  0 <= k -> 0 <= m -> m / 2 ^ k + 1 < 2 ^ w ->
  let t := m mod 2 ^ k in
  let round := 2 ^ k <=? 2 * t in
  let sticky := tst ((2 * t) mod 2 ^ k) in
  tint_round w r xs round sticky (m / 2 ^ k) = iround r xs m k /\ (round || sticky) = tst t.
Proof.
  intros Hk Hm Hw t round sticky; pose proof (pow2_pos k Hk) as Hp.
  assert (Ht : 0 <= t < 2 ^ k) by (apply Z.mod_pos_bound; lia).
  assert (Hq : 0 <= m / 2 ^ k) by (apply Z.div_pos; lia).
  assert (RS : (round || sticky) = tst t).
  { unfold round, sticky, tst; destruct (Z.eqb_spec t 0) as [->|].
    - rewrite Z.mod_0_l by lia; destruct (Z.leb_spec (2 ^ k) (2 * 0)); [lia|reflexivity].
    - destruct (Z.leb_spec (2 ^ k) (2 * t)); [reflexivity|].
      rewrite Z.mod_small by lia; destruct (Z.eqb_spec (2 * t) 0); [lia|reflexivity]. }
  split; [|exact RS].
  assert (Wr : wrap w (m / 2 ^ k + 1) = m / 2 ^ k + 1) by (apply wrap_small; lia).
  unfold tint_round, iround; rewrite odd_land, Wr, RS; fold t; destruct r; cbn [b2z].
  2: lia.
  2,3: destruct (_ && _); cbn [b2z]; lia.
  unfold round, sticky, tst; destruct (Z.leb_spec (2 ^ k) (2 * t)) as [L|L].
  - replace (2 * t) with (2 * t - 2 ^ k + 1 * 2 ^ k) at 1 by lia.
    rewrite Z.mod_add, Z.mod_small by lia.
    destruct (Z.eqb_spec (2 * t - 2 ^ k) 0), (Z.ltb_spec (2 ^ k) (2 * t)),
      (Z.eqb_spec (2 ^ k) (2 * t)), (Z.odd (m / 2 ^ k)); cbn; lia.
  - destruct (Z.ltb_spec (2 ^ k) (2 * t)), (Z.eqb_spec (2 ^ k) (2 * t)); cbn; lia.
Qed.

(** ** Outcome of a conversion

    [IntDelivers n t op s v out]: the conversion of [v] to an [n]-bit integer
    returns [v] rounded in the current mode, inexact exactly when that is not
    [v]; a rounded value out of range is an invalid operation, which returns
    the largest integer and is reported when enabled. *)
Definition finish_int (t : rt) (op : string) (s : fpst) : fpst :=
  if tstx s then report op t s else s.

Definition IntDelivers (n : Z) (t : rt) (op : string) (s : fpst) (v : R)
    (out : option (Z * fpst)) : Prop :=
  exists z, IntRnd (rm (fcsr s)) v z /\
    ((- 2 ^ (n - 1) <= z < 2 ^ (n - 1) /\
      exists i, (i = true <-> IZR z <> v) /\ out = Some (z, raise (flags i false false) (clear s)))
     \/ (~ (- 2 ^ (n - 1) <= z < 2 ^ (n - 1)) /\
         out = Some (2 ^ (n - 1) - 1, finish_int t op (raise INVALID_OPERATION (clear s))))).

Lemma invalid_si_run op s :
  invalid_si op s = Some (2 ^ (32 - 1) - 1, finish_int RT_SI op (raise INVALID_OPERATION s)).
Proof.
  unfold invalid_si, SETCX, ieee754si_xcpt, TSTX, ieee754_xcpt, finish_int; autorewrite with st.
  destruct (tstx _); reflexivity.
Qed.
Lemma invalid_di_run op s :
  invalid_di op s = Some (2 ^ (64 - 1) - 1, finish_int RT_DI op (raise INVALID_OPERATION s)).
Proof.
  unfold invalid_di, SETCX, ieee754di_xcpt, TSTX, ieee754_xcpt, finish_int; autorewrite with st.
  destruct (tstx _); reflexivity.
Qed.

Lemma iround_exact r sn m k : 0 <= m -> 0 <= k ->
  (tst (m mod 2 ^ k) = true <-> IZR (signed sn (iround r sn m k)) <> (sgn sn * (IZR m * bpow (- k)))%R).
Proof.
  intros Hm Hk; pose proof (pow2_pos k Hk) as Hp; rewrite signed_IZR.
  assert (C : (IZR (2 ^ k) * bpow (- k) = 1)%R) by (rewrite <- bpow_Z by lia; apply bpow_opp).
  assert (D : forall a, (sgn sn * IZR a = sgn sn * (IZR m * bpow (- k)))%R <-> m = a * 2 ^ k).
  { intros a; replace (IZR a) with (IZR (a * 2 ^ k) * bpow (- k))%R
      by (rewrite mult_IZR, Rmult_assoc, C; ring).
    pose proof (bpow_pos (- k)); split; [intros E|intros ->; reflexivity].
    apply eq_IZR, Rmult_eq_reg_r with (bpow (- k)); [|lra]; destruct sn; cbn [sgn] in E; lra. }
  rewrite D; unfold tst; destruct (Z.eqb_spec (m mod 2 ^ k) 0) as [E|E]; cbn [negb]; split; auto; try discriminate.
  - intros H; exfalso; apply H; unfold iround; rewrite E; unfold tst.
    match goal with |- m = (_ + ?b) * _ => replace b with 0; [divmod|symmetry] end.
    destruct (Z.ltb_spec (2 ^ k) (2 * 0)), (Z.eqb_spec (2 ^ k) (2 * 0)); destruct r; cbn; lia.
  - intros _ H; apply E; rewrite H; apply Z.mod_mul; lia.
Qed.

Lemma iround_range r sn m k : m / 2 ^ k <= iround r sn m k <= m / 2 ^ k + 1.
Proof. unfold iround; destruct (match r with RN => _ | _ => _ end); cbn [b2z]; lia. Qed.

Section Paths.
Variables (f : fmt) (n : Z) (t : rt) (op : string) (s : fpst) (sn : bool) (e m : Z).
Hypothesis n_pos : 1 <= n.
Hypothesis m_range : 0 <= m < 2 ^ PREC f.
Let v := (sgn sn * (IZR m * bpow (e - MBITS f)))%R.

(** A fraction was shifted out. *)
Lemma deliver_rounded z :
  e <= MBITS f -> z = iround (rm (fcsr s)) sn m (MBITS f - e) ->
  - 2 ^ (n - 1) <= signed sn z < 2 ^ (n - 1) ->
  IntDelivers n t op s v
    (Some (tint_sign n sn z, raise (flags (tst (m mod 2 ^ (MBITS f - e))) false false) (clear s))).
Proof using n_pos m_range.
  intros He -> Hr; exists (signed sn (iround (rm (fcsr s)) sn m (MBITS f - e))).
  unfold v; replace (e - MBITS f) with (- (MBITS f - e)) by lia.
  split; [apply iround_spec; lia|left; split; [auto|]].
  eexists; split; [apply iround_exact; lia|].
  unfold tint_sign; fold (signed sn (iround (rm (fcsr s)) sn m (MBITS f - e))).
  now rewrite swrap_small.
Qed.

(** The value is an integer. *)
Lemma value_integer : MBITS f <= e -> v = IZR (signed sn (m * 2 ^ (e - MBITS f))).
Proof using.
  intros; unfold v; rewrite signed_IZR, bpow_Z, <- mult_IZR by lia; reflexivity.
Qed.

Lemma deliver_integer z :
  MBITS f <= e -> z = signed sn (m * 2 ^ (e - MBITS f)) ->
  - 2 ^ (n - 1) <= z < 2 ^ (n - 1) -> IntDelivers n t op s v (Some (z, clear s)).
Proof using.
  intros He -> Hr; exists (signed sn (m * 2 ^ (e - MBITS f))); rewrite value_integer by auto.
  split; [apply IntRnd_self|left; split; [auto|exists false]].
  rewrite flags_false, raise_0; split; [split; congruence|reflexivity].
Qed.

(** Too large. *)
Lemma deliver_invalid z :
  IntRnd (rm (fcsr s)) v z -> ~ (- 2 ^ (n - 1) <= z < 2 ^ (n - 1)) ->
  IntDelivers n t op s v
    (Some (2 ^ (n - 1) - 1, finish_int t op (raise INVALID_OPERATION (clear s)))).
Proof using. intros; exists z; split; auto. Qed.
End Paths.

Lemma explode_mag f x : wf f x -> is_finite f x = true ->
  let k := EXPLODE f x in
  kc k = ZERO /\ val f x = 0%R \/
  (kc k = DNORM \/ kc k = NORM) /\ 0 <= km k < 2 ^ PREC f /\ (0 <= ke k -> 2 ^ MBITS f <= km k) /\
  val f x = (sgn (ks k) * (IZR (km k) * bpow (ke k - MBITS f)))%R.
Proof.
  intros W F k; destruct (explode_finite f x W F) as (_ & [(K & _ & V)|[(K & Hm & He & V)|(K & Hm & He & V)]]);
    fold k in K, V; [left; auto|right..]; fold k in Hm, He; mbits f; (split; [auto|]);
    repeat split; auto; lia.
Qed.

Lemma deliver_zero n t op s : 1 <= n -> IntDelivers n t op s 0 (Some (0, clear s)).
Proof.
  intros Hn; exists 0; split; [apply IntRnd_self|left].
  pose proof (pow2_pos (n - 1)); split; [lia|exists false].
  rewrite flags_false, raise_0; split; [split; congruence|reflexivity].
Qed.

(** Enter a routine and hand its finite part to the lemma [L]. *)
Ltac to_int Hn W F L :=
  enter Hn;
  let K := fresh in let V := fresh in let Hm := fresh in let Hl := fresh in
  destruct (explode_mag _ _ W F) as [[K V]|([K|K] & Hm & Hl & V)]; rewrite K, V;
  [now apply deliver_zero|now apply L..].

Lemma split_run f w n r sn m e residue :
  MBITS f + 1 < w -> MBITS f + 1 < n -> 0 <= m < 2 ^ PREC f -> e <= MBITS f ->
  (-1 <= e -> wrap w residue = shl w m (w - (MBITS f - e))) ->
  exists a b, tint_split f w e m residue = (a, b, m / 2 ^ (MBITS f - e)) /\
    tint_round n r sn a b (m / 2 ^ (MBITS f - e)) = iround r sn m (MBITS f - e) /\
    (a || b) = tst (m mod 2 ^ (MBITS f - e)).
Proof.
  intros Hw Hn Hm He Hr; pose proof (fmt_facts f); eexists _, _.
  split; [now apply tint_split_spec|]; apply tint_round_spec; try lia.
  assert (m / 2 ^ (MBITS f - e) <= m).
  { apply Z.div_le_upper_bound; [apply pow2_pos; lia|pose proof (pow2_pos (MBITS f - e)); nia]. }
  assert (2 * 2 ^ PREC f <= 2 ^ n).
  { replace (2 * 2 ^ PREC f) with (2 ^ (1 + PREC f)) by (unfold PREC; rewrite Z.pow_add_r by lia; reflexivity).
    apply pow2_le; unfold PREC; lia. }
  pose proof (pow2_pos (PREC f)); unfold PREC in *; lia.
Qed.

(** The mantissa cannot exceed its own size. *)
Lemma iround_small f r sn m e : 0 <= m < 2 ^ PREC f -> e <= MBITS f ->
  0 <= iround r sn m (MBITS f - e) <= 2 ^ PREC f.
Proof.
  intros Hm He; pose proof (iround_range r sn m (MBITS f - e)); pose proof (pow2_pos (MBITS f - e)).
  assert (0 <= m / 2 ^ (MBITS f - e) <= m); [|lia].
  split; [apply Z.div_pos; lia|apply Z.div_le_upper_bound; nia].
Qed.

Section FinitePaths.
Variables (f : fmt) (n : Z) (t : rt) (op : string) (s : fpst) (sn : bool) (e m : Z).
Hypothesis n_large : MBITS f + 3 <= n.
Hypothesis m_range : 0 <= m < 2 ^ PREC f.
Let v := (sgn sn * (IZR m * bpow (e - MBITS f)))%R.
Variable inv : M Z.
Hypothesis inv_run : inv (clear s) =
  Some (2 ^ (n - 1) - 1, finish_int t op (raise INVALID_OPERATION (clear s))).

(** [xe >= n - 1]: only [-2^(n-1)] is representable. *)
Lemma big_path :
  n - 1 <= e -> 2 ^ MBITS f <= m ->
  IntDelivers n t op s v
    ((if (e =? n - 1) && sn && (m =? HIDDEN_BIT f) then ret (- 2 ^ (n - 1)) else inv) (clear s)).
Proof using n_large m_range inv_run.
  intros He Hm; pose proof (fmt_facts f); pose proof (pow2_pos (MBITS f)).
  assert (P : 2 ^ (n - 1) = 2 ^ MBITS f * 2 ^ (n - 1 - MBITS f)) by (apply pow2_split; lia).
  assert (P2 : 2 ^ (n - 1 - MBITS f) <= 2 ^ (e - MBITS f)) by (apply pow2_le; lia).
  pose proof (pow2_pos (n - 1 - MBITS f)); unfold HIDDEN_BIT, MBIT.
  assert (Lo : 2 ^ (n - 1) <= m * 2 ^ (e - MBITS f)) by nia.
  destruct ((e =? n - 1) && sn && (m =? 2 ^ MBITS f)) eqn:E.
  - zbool; subst; apply deliver_integer; cbn [signed]; nia.
  - rewrite inv_run; apply deliver_invalid with (signed sn (m * 2 ^ (e - MBITS f))).
    + unfold v; rewrite value_integer by lia; apply IntRnd_self.
    + destruct sn; cbn [signed]; [|lia]; intros [K _].
      assert (Q : m * 2 ^ (e - MBITS f) = 2 ^ (n - 1)) by lia.
      assert (m = 2 ^ MBITS f) by nia; subst m.
      assert (2 ^ (e - MBITS f) = 2 ^ (n - 1 - MBITS f)) as Q' by nia.
      apply Z.pow_inj_r in Q'; try lia.
Qed.

(** [MBITS <= xe < n - 1]: an exact integer, shifted left in a [w]-bit variable. *)
Lemma shift_path w :
  n <= w -> MBITS f <= e < n - 1 ->
  IntDelivers n t op s v (Some (tint_sign n sn (shl w m (e - MBITS f)), clear s)).
Proof using n_large m_range.
  intros Hw He; pose proof (fmt_facts f); pose proof (pow2_pos (e - MBITS f)).
  assert (Hi : 0 <= m * 2 ^ (e - MBITS f) < 2 ^ (n - 1)).
  { split; [nia|]; apply Z.lt_le_trans with (2 ^ PREC f * 2 ^ (e - MBITS f)); [nia|].
    unfold PREC; rewrite <- Z.pow_add_r by lia; apply pow2_le; lia. }
  assert (2 ^ (n - 1) < 2 ^ w) by (apply pow2_lt; lia).
  rewrite shl_small by lia; unfold tint_sign.
  fold (signed sn (m * 2 ^ (e - MBITS f))); rewrite swrap_small by (destruct sn; cbn; lia).
  apply deliver_integer; try lia; destruct sn; cbn; lia.
Qed.

(** [xe <= MBITS]: round off the fraction; the result always fits. *)
Lemma round_path w w' residue :
  MBITS f + 1 < w -> MBITS f + 1 < w' -> e <= MBITS f ->
  (-1 <= e -> wrap w residue = shl w m (w - (MBITS f - e))) ->
  IntDelivers n t op s v
    ((let '(round, sticky, xm) := tint_split f w e m residue in
      let xm := tint_round w' (rm (fcsr s)) sn round sticky xm in
      if tst (Z.shiftr xm (n - 1)) then inv
      else when (round || sticky) (SETCX INEXACT) ;;; ret (tint_sign n sn xm)) (clear s)).
Proof using n_large m_range.
  intros Hw Hw' He Hres; pose proof (fmt_facts f).
  destruct (split_run f w w' (rm (fcsr s)) sn m e residue Hw Hw' m_range He Hres) as (a & b & E1 & E2 & E3).
  rewrite E1; cbv zeta; rewrite E2, E3.
  pose proof (iround_small f (rm (fcsr s)) sn m e m_range He) as B.
  assert (2 * 2 ^ PREC f <= 2 ^ (n - 1)).
  { replace (2 * 2 ^ PREC f) with (2 ^ (1 + PREC f))
      by (unfold PREC; rewrite Z.pow_add_r by lia; reflexivity).
    apply pow2_le; unfold PREC; lia. }
  pose proof (pow2_pos (PREC f) ltac:(unfold PREC; lia)).
  rewrite tst_shiftr by lia; destruct (Z.leb_spec (2 ^ (n - 1)) (iround (rm (fcsr s)) sn m (MBITS f - e))); [lia|].
  replace ((when _ _ ;;; _) (clear s)) with
    (Some (tint_sign n sn (iround (rm (fcsr s)) sn m (MBITS f - e)),
           raise (flags (tst (m mod 2 ^ (MBITS f - e))) false false) (clear s))).
  - apply deliver_rounded; auto; try lia; destruct sn; cbn [signed]; lia.
  - unfold when, SETCX; destruct (tst (m mod _)); autorewrite with st; reflexivity.
Qed.
End FinitePaths.

(** ** The four conversions *)

(** The three routines that share the shape of the paths above: [f] is the
    source format, [n] the width of the result, [w] and [w'] the widths of the
    residue and of the mantissa variable. *)
Ltac finite_paths f n w w' run Hm Hl :=
  let He := fresh "He" in let Hs := fresh "Hs" in
  rewrite Z.geb_leb, Z.gtb_ltb;
  match goal with |- IntDelivers _ _ _ ?s (sgn ?sn * (IZR ?m * bpow (?e - _))) _ =>
    destruct (Z.leb_spec (n - 1) e) as [He|He]; cbn [Z.sub Z.add Z.pos_sub Pos.pred_double Z.opp Pos.add Z.pred_double] in He;
    [rewrite (proj2 (Z.leb_le _ _) He);
     exact (big_path f n _ _ s sn e m ltac:(cbn; lia) Hm _ (run _ _) He (Hl ltac:(lia)))
    |rewrite (proj2 (Z.leb_gt _ _) He);
     destruct (Z.ltb_spec (MBITS f) e) as [Hs|Hs];
     [apply shift_path; auto; cbn in *; lia
     |try (destruct (Z.ltb_spec e (MBITS f)) as [Hq|Hq];
           [|replace (tint_sign n sn m) with (tint_sign n sn (shl w' m (e - MBITS f)))
               by (replace (e - MBITS f) with 0 by lia; rewrite shl_small by (cbn in *; lia); f_equal; lia);
             apply shift_path; auto; cbn in *; lia]);
      rewrite run_bind_gets;
      refine (round_path f n _ _ s sn e m ltac:(cbn; lia) Hm _ w w' _ _ _ _ _);
        [cbn; lia|cbn; lia|lia|]]]
  end.

Lemma sp_tint_finite_ok s sn e m :
  0 <= m < 2 ^ PREC SP -> (0 <= e -> 2 ^ MBITS SP <= m) ->
  IntDelivers 32 RT_SI "sp_tint" s (sgn sn * (IZR m * bpow (e - MBITS SP)))
    (sp_tint_finite sn e m (clear s)).
Proof.
  intros Hm Hl; unfold sp_tint_finite; finite_paths SP 32 32 32 invalid_si_run Hm Hl.
  intros He1; rewrite wrap_shl_same, shl_shl by (cbn; lia); f_equal; unfold MBITS; lia.
Qed.

Lemma sp_tlong_finite_ok s sn e m :
  0 <= m < 2 ^ PREC SP -> (0 <= e -> 2 ^ MBITS SP <= m) ->
  IntDelivers 64 RT_DI "sp_tlong" s (sgn sn * (IZR m * bpow (e - MBITS SP)))
    (sp_tlong_finite sn e m (clear s)).
Proof.
  intros Hm Hl; unfold sp_tlong_finite; finite_paths SP 64 32 64 invalid_di_run Hm Hl.
  intros He1; rewrite wrap_shl by lia; f_equal; unfold MBITS; lia.
Qed.

Lemma dp_tlong_finite_ok s sn e m :
  0 <= m < 2 ^ PREC DP -> (0 <= e -> 2 ^ MBITS DP <= m) ->
  IntDelivers 64 RT_DI "dp_tlong" s (sgn sn * (IZR m * bpow (e - MBITS DP)))
    (dp_tlong_finite sn e m (clear s)).
Proof.
  intros Hm Hl; unfold dp_tlong_finite; finite_paths DP 64 64 64 invalid_di_run Hm Hl.
  intros He1; rewrite wrap_shl_same, shl_shl by (cbn; lia); f_equal; unfold MBITS; lia.
Qed.

(** A value of at least [2^j] rounds to at least [2^j]. *)
Lemma big_rounds f r sn e m j :
  0 <= j <= e -> 2 ^ MBITS f <= m ->
  exists a, IntRnd r (sgn sn * (IZR m * bpow (e - MBITS f))) (signed sn a) /\ 2 ^ j <= a.
Proof.
  intros Hj Hm; pose proof (fmt_facts f); pose proof (pow2_pos (MBITS f)).
  assert (2 ^ j <= 2 ^ e) by (apply pow2_le; lia).
  destruct (Z.le_gt_cases (MBITS f) e) as [He|He].
  - exists (m * 2 ^ (e - MBITS f)); rewrite value_integer by auto; split; [apply IntRnd_self|].
    rewrite (pow2_split (MBITS f) (e - MBITS f) e) in * by lia.
    pose proof (pow2_pos (e - MBITS f)); nia.
  - replace (e - MBITS f) with (- (MBITS f - e)) by lia.
    eexists; split; [apply iround_spec; lia|].
    pose proof (iround_range r sn m (MBITS f - e)).
    assert (2 ^ e <= m / 2 ^ (MBITS f - e)); [|lia].
    pose proof (pow2_pos (MBITS f - e)).
    apply Z.div_le_lower_bound; [lia|]; rewrite <- Z.pow_add_r by lia.
    replace (MBITS f - e + e) with (MBITS f) by lia; lia.
Qed.

Lemma dp_tint_finite_ok s sn e m :
  0 <= m < 2 ^ PREC DP -> (0 <= e -> 2 ^ MBITS DP <= m) ->
  IntDelivers 32 RT_SI "dp_tint" s (sgn sn * (IZR m * bpow (e - MBITS DP)))
    (dp_tint_finite sn e m (clear s)).
Proof.
  intros Hm Hl; unfold dp_tint_finite; rewrite !Z.gtb_ltb.
  destruct (Z.ltb_spec 31 e) as [He|He].
  - rewrite invalid_si_run.
    destruct (big_rounds DP (rm (fcsr s)) sn e m 32 ltac:(lia) (Hl ltac:(lia))) as (a & Ha & B).
    apply deliver_invalid with (signed sn a); auto; destruct sn; cbn in *; lia.
  - destruct (Z.ltb_spec (MBITS DP) e); [cbn in *; lia|].
    destruct (Z.ltb_spec e (MBITS DP)); [|cbn in *; lia].
    rewrite run_bind_gets.
    destruct (split_run DP 64 64 (rm (fcsr s)) sn m e (shl 64 m (64 - MBITS DP + e)))
      as (a & b & E1 & E2 & E3); [cbn; lia|cbn; lia|auto|lia| |].
    { intros He1; rewrite wrap_shl_same; f_equal; lia. }
    change (rm (fcsr (clear s))) with (rm (fcsr s)); rewrite E1; cbv zeta; rewrite E2, E3.
    set (z := iround _ _ _ _); assert (Hz : 0 <= z) by (apply (iround_small DP); auto; lia).
    assert (Sp : tst (Z.shiftr z 31) && (negb sn || negb (z =? 2147483648)) =
                 negb ((- 2 ^ (32 - 1) <=? signed sn z) && (signed sn z <? 2 ^ (32 - 1)))).
    { rewrite tst_shiftr by lia; destruct sn; cbn [signed negb orb].
      - destruct (Z.leb_spec (2 ^ 31) z), (Z.eqb_spec z 2147483648), (Z.leb_spec (- 2 ^ (32 - 1)) (- z)),
          (Z.ltb_spec (- z) (2 ^ (32 - 1))); cbn in *; lia.
      - destruct (Z.leb_spec (2 ^ 31) z), (Z.leb_spec (- 2 ^ (32 - 1)) z), (Z.ltb_spec z (2 ^ (32 - 1)));
          cbn in *; lia. }
    rewrite Sp; clear Sp.
    destruct ((- 2 ^ (32 - 1) <=? signed sn z) && (signed sn z <? 2 ^ (32 - 1))) eqn:R; cbn [negb].
    + replace ((when _ _ ;;; _) (clear s)) with
        (Some (tint_sign 32 sn z, raise (flags (tst (m mod 2 ^ (MBITS DP - e))) false false) (clear s)))
        by (unfold when, SETCX; destruct (tst (m mod _)); autorewrite with st; reflexivity).
      zbool; apply deliver_rounded; auto; lia.
    + rewrite invalid_si_run; apply deliver_invalid with (signed sn z).
      * unfold z; replace (e - MBITS DP) with (- (MBITS DP - e)) by lia; apply iround_spec; lia.
      * intros [K1 K2]; apply Z.leb_le in K1; apply Z.ltb_lt in K2; rewrite K1, K2 in R; discriminate.
Qed.

Lemma sp_tint_spec x s :
  wf SP x -> is_finite SP x = true -> nod (fcsr s) = false ->
  IntDelivers 32 RT_SI "sp_tint" s (val SP x) (ieee754sp_tint x s).
Proof. intros W F Hn; unfold ieee754sp_tint; to_int Hn W F sp_tint_finite_ok. Qed.

Lemma dp_tint_spec x s :
  wf DP x -> is_finite DP x = true -> nod (fcsr s) = false ->
  IntDelivers 32 RT_SI "dp_tint" s (val DP x) (ieee754dp_tint x s).
Proof. intros W F Hn; unfold ieee754dp_tint; to_int Hn W F dp_tint_finite_ok. Qed.

Lemma sp_tlong_spec x s :
  wf SP x -> is_finite SP x = true -> nod (fcsr s) = false ->
  IntDelivers 64 RT_DI "sp_tlong" s (val SP x) (ieee754sp_tlong x s).
Proof. intros W F Hn; unfold ieee754sp_tlong; to_int Hn W F sp_tlong_finite_ok. Qed.

Lemma dp_tlong_spec x s :
  wf DP x -> is_finite DP x = true -> nod (fcsr s) = false ->
  IntDelivers 64 RT_DI "dp_tlong" s (val DP x) (ieee754dp_tlong x s).
Proof. intros W F Hn; unfold ieee754dp_tlong; to_int Hn W F dp_tlong_finite_ok. Qed.

(** C30: [ieee754sp_tint] and [ieee754dp_tint] return the operand rounded to
    an [int] in the current mode, inexact exactly when rounding changed it; a
    rounded value that is no [int] is an invalid operation and returns the
    largest [int]. *)
Theorem ieee754_tint_correct f x s :
  wf f x -> is_finite f x = true -> nod (fcsr s) = false ->
  IntDelivers 32 RT_SI (match f with SP => "sp_tint" | DP => "dp_tint" end) s (val f x) (ieee754_tint f x s).
Proof. destruct f; [exact (sp_tint_spec x s)|exact (dp_tint_spec x s)]. Qed.

Lemma ieee754_tint_correct_witness :
  IntDelivers 32 RT_SI "dp_tint" s0 (val DP (one_half DP)) (ieee754_tint DP (one_half DP) s0).
Proof. apply (ieee754_tint_correct DP (one_half DP) s0); closed. Defined.

(** [ieee754sp_tlong] and [ieee754dp_tlong]: the same with 64-bit
    integers. *)
Theorem ieee754_tlong_correct f x s :
  wf f x -> is_finite f x = true -> nod (fcsr s) = false ->
  IntDelivers 64 RT_DI (match f with SP => "sp_tlong" | DP => "dp_tlong" end) s (val f x)
    (ieee754_tlong f x s).
Proof. destruct f; [exact (sp_tlong_spec x s)|exact (dp_tlong_spec x s)]. Qed.

Lemma ieee754_tlong_correct_witness :
  IntDelivers 64 RT_DI "dp_tlong" s0 (val DP (one_half DP)) (ieee754_tlong DP (one_half DP) s0).
Proof. apply (ieee754_tlong_correct DP (one_half DP) s0); closed. Defined.
