(* ===== verification/Cmp.v ===== *)
(** * Comparisons

    Models [sp_cmp.c]/[dp_cmp.c] and the inline comparisons of [ieee754.h].
    The code compares the bit patterns as two's complement integers after
    mapping sign-magnitude to two's complement; the theorem says that this is
    the order of the values, and that comparisons with a NaN are unordered. *)

From S2P Require Import Prelude Rounding Ieee754 Format ToInt.

(** ** The code *)

Definition CLT : Z := 0x01.
Definition CEQ : Z := 0x02.
Definition CGT : Z := 0x04.
Definition CUN : Z := 0x08.

(** [if (vx < 0) vx = -vx ^ SIGN_BIT], in [WBITS]-bit two's complement. *)
Definition cmp_key (f : fmt) (x : ieee754) : Z :=
  let w := WBITS f in
  let vx := swrap w (bits f x) in
  if vx <? 0 then swrap w (Z.lxor (wrap w (- vx)) (SIGN_BIT f)) else vx.

Definition ieee754_cmp (f : fmt) (x y : ieee754) (cmp : Z) (sig : bool) : M Z :=
  let kx := EXPLODE f x in
  let ky := EXPLODE f y in
  '(x, kx) <- FLUSH f x kx ;;
  '(y, ky) <- FLUSH f y ky ;;
  CLEARCX ;;;
  if ieee754_isnan f x || ieee754_isnan f y then
    when (sig || cls_eqb (kc kx) SNAN || cls_eqb (kc ky) SNAN) (SETCX INVALID_OPERATION) ;;;
    if tst (Z.land cmp CUN) then ret 1
    else
      if tst (Z.land cmp (Z.lor CLT CGT)) then
        t <- (if sig then SETANDTESTCX INVALID_OPERATION else ret false) ;;
        if t then ieee754si_xcpt 0 "fcmpf" else ret 0
      else ret 0
  else
    let vx := cmp_key f x in
    let vy := cmp_key f y in
    if vx <? vy then ret (b2z (tst (Z.land cmp CLT)))
    else if vx =? vy then ret (b2z (tst (Z.land cmp CEQ)))
    else ret (b2z (tst (Z.land cmp CGT))).

Definition ieee754sp_cmp := ieee754_cmp SP.
Definition ieee754dp_cmp := ieee754_cmp DP.

Definition ieee754_eq (f : fmt) x y := ieee754_cmp f x y CEQ false.
Definition ieee754_ne (f : fmt) x y := ieee754_cmp f x y (Z.lor (Z.lor CLT CGT) CUN) false.
Definition ieee754_lt (f : fmt) x y := ieee754_cmp f x y CLT false.
Definition ieee754_le (f : fmt) x y := ieee754_cmp f x y (Z.lor CLT CEQ) false.
Definition ieee754_gt (f : fmt) x y := ieee754_cmp f x y CGT false.
Definition ieee754_ge (f : fmt) x y := ieee754_cmp f x y (Z.lor CGT CEQ) false.
Definition ieee754dp_eq := ieee754_eq DP.
Definition ieee754dp_ne := ieee754_ne DP.
Definition ieee754dp_lt := ieee754_lt DP.
Definition ieee754dp_le := ieee754_le DP.
Definition ieee754dp_gt := ieee754_gt DP.
Definition ieee754dp_ge := ieee754_ge DP.

(** ** Bit patterns order the values *)

(** The magnitude of a datum as its low bits, and as a multiple of the least
    subnormal. *)
Definition magnitude (f : fmt) (x : ieee754) : Z := bexp x * 2 ^ MBITS f + mant x.
Definition units (f : fmt) (x : ieee754) : Z :=
  if bexp x =? 0 then mant x else (2 ^ MBITS f + mant x) * 2 ^ (bexp x - 1).

Lemma val_units f x : wf f x -> val f x = (IZR (signed (sign x) (units f x)) * bpow (ELO f))%R.
Proof.
  intros [Hb Hm]; rewrite signed_IZR, Rmult_assoc; unfold val, units.
  destruct (Z.eqb_spec (bexp x) 0); f_equal.
  rewrite <- bpow_shift by lia; do 2 f_equal; unfold ELO; pose proof (fmt_facts f); lia.
Qed.

Lemma magnitude_range f x : wf f x -> 0 <= magnitude f x < 2 ^ (WBITS f - 1).
Proof.
  intros [Hb Hm]; pose proof (fmt_facts f) as FF; unfold magnitude.
  replace (2 ^ (WBITS f - 1)) with (2 ^ EBITS f * 2 ^ MBITS f)
    by (rewrite <- Z.pow_add_r by lia; f_equal; lia).
  nia.
Qed.

Lemma units_lt f x y : wf f x -> wf f y -> magnitude f x < magnitude f y -> units f x < units f y.
Proof.
  intros [Hb Hm] [Hb' Hm'] H; pose proof (fmt_facts f) as FF; unfold magnitude in H.
  pose proof (pow2_pos (MBITS f) ltac:(lia)) as P.
  assert (E : bexp x < bexp y \/ bexp x = bexp y /\ mant x < mant y) by nia.
  unfold units; destruct E as [E|[E E']].
  - destruct (Z.eqb_spec (bexp y) 0); [lia|].
    assert (L : 2 ^ MBITS f * 2 ^ (bexp y - 1) <= (2 ^ MBITS f + mant y) * 2 ^ (bexp y - 1))
      by (apply Z.mul_le_mono_nonneg_r; [apply Z.lt_le_incl, pow2_pos|]; lia).
    apply Z.lt_le_trans with (2 := L).
    destruct (Z.eqb_spec (bexp x) 0).
    + pose proof (pow2_pos (bexp y - 1)); nia.
    + pose proof (pow2_le (bexp x - 1 + 1) (bexp y - 1) ltac:(lia)) as Q.
      rewrite Z.pow_add_r in Q by lia; pose proof (pow2_pos (bexp x - 1)); nia.
  - rewrite E; destruct (Z.eqb_spec (bexp y) 0); [lia|pose proof (pow2_pos (bexp y - 1)); nia].
Qed.

Lemma units_nonneg f x : wf f x -> 0 <= units f x.
Proof.
  intros [Hb Hm]; pose proof (fmt_facts f); pose proof (pow2_pos (MBITS f)).
  unfold units; destruct (Z.eqb_spec (bexp x) 0); [lia|].
  pose proof (pow2_pos (bexp x - 1)); nia.
Qed.

Lemma units_pos f x : wf f x -> 0 < magnitude f x -> 0 < units f x.
Proof.
  intros W; apply (units_lt f (mkfp false 0 0) x); auto.
  pose proof (fmt_facts f); split; cbn; split; try lia; apply pow2_pos; lia.
Qed.

(** The mapped pattern is the signed magnitude. *)
Lemma cmp_key_spec f x : wf f x -> cmp_key f x = signed (sign x) (magnitude f x).
Proof.
  intros W; pose proof (magnitude_range f x W) as R; pose proof (fmt_facts f) as FF.
  unfold cmp_key, bits; rewrite <- Z.add_assoc; fold (magnitude f x).
  set (g := magnitude f x) in *; set (h := 2 ^ (WBITS f - 1)) in *.
  assert (P : 2 ^ WBITS f = 2 * h) by (apply (pow2_split 1); lia).
  assert (H0 : 0 < h) by (apply pow2_pos; lia).
  destruct (sign x); cbn [b2z signed].
  - replace (swrap (WBITS f) (1 * h + g)) with (g - h)
      by (unfold swrap; rewrite Z.mod_small by lia; fold h;
          destruct (Z.ltb_spec (1 * h + g) h); lia).
    destruct (Z.ltb_spec (g - h) 0); [|lia].
    unfold SIGN_BIT, MBIT; fold h; rewrite wrap_small by lia.
    destruct (Z.eq_dec g 0) as [->|].
    + replace (- (0 - h)) with h by lia; rewrite Z.lxor_nilpotent; apply swrap_small; lia.
    + rewrite <- Z.add_nocarry_lxor.
      * unfold swrap; rewrite Z.mod_small by lia; fold h; destruct (Z.ltb_spec (- (g - h) + h) h); lia.
      * unfold h; rewrite land_bit, testbit_top by (try replace (WBITS f - 1 + 1) with (WBITS f) by lia; lia).
        fold h; destruct (Z.leb_spec h (- (g - h))); lia.
  - rewrite swrap_small by lia; destruct (Z.ltb_spec (0 * h + g) 0); lia.
Qed.

Lemma key_val f x y : wf f x -> wf f y ->
  (cmp_key f x < cmp_key f y <-> (val f x < val f y)%R) /\
  (cmp_key f x = cmp_key f y <-> val f x = val f y).
Proof.
  intros W W'; rewrite !cmp_key_spec, !val_units, scaled_lt by auto.
  assert (T : forall a b, wf f a -> wf f b ->
    (signed (sign a) (magnitude f a) < signed (sign b) (magnitude f b) ->
     signed (sign a) (units f a) < signed (sign b) (units f b)) /\
    (magnitude f a = magnitude f b -> units f a = units f b)).
  { intros a b Wa Wb; pose proof (units_nonneg f a Wa); pose proof (units_nonneg f b Wb).
    pose proof (magnitude_range f a Wa); pose proof (magnitude_range f b Wb).
    pose proof (units_lt f a b Wa Wb); pose proof (units_lt f b a Wb Wa).
    pose proof (units_pos f a Wa); pose proof (units_pos f b Wb); split.
    - destruct (sign a), (sign b); cbn [signed]; lia.
    - unfold magnitude, units; destruct Wa as [? Wa], Wb as [? Wb]; intros E.
      pose proof (fmt_facts f); pose proof (pow2_pos (MBITS f) ltac:(lia)).
      assert (Eb : bexp a = bexp b) by (destruct (Z.lt_trichotomy (bexp a) (bexp b)) as [|[|]]; nia).
      rewrite Eb in *; assert (mant a = mant b) as -> by lia; reflexivity. }
  assert (Z0 : forall a, wf f a -> magnitude f a = 0 -> units f a = 0).
  { intros a [Ha Hm] E; unfold magnitude, units in *; pose proof (fmt_facts f).
    pose proof (pow2_pos (MBITS f) ltac:(lia)); destruct (Z.eqb_spec (bexp a) 0); nia. }
  destruct (T x y W W') as [T1 T2], (T y x W' W) as [T3 T4].
  pose proof (Z0 x W); pose proof (Z0 y W'); pose proof (magnitude_range f x W); pose proof (magnitude_range f y W').
  assert (Eq : signed (sign x) (magnitude f x) = signed (sign y) (magnitude f y) ->
               signed (sign x) (units f x) = signed (sign y) (units f y))
    by (destruct (sign x), (sign y); cbn [signed] in *; lia).
  split; [lia|]; split; [intros; do 2 f_equal; auto|].
  intros K; apply Rmult_eq_reg_r in K; [apply eq_IZR in K; lia|].
  pose proof (bpow_pos (ELO f)); lra.
Qed.

(** ** What a comparison answers *)

(** The predicate a condition mask asks of two ordered values. *)
Definition Holds (cmp : Z) (a b : R) : Prop :=
  (a < b)%R /\ tst (Z.land cmp CLT) = true \/ a = b /\ tst (Z.land cmp CEQ) = true \/
  (b < a)%R /\ tst (Z.land cmp CGT) = true.

Lemma cmp_spec f x y cmp sig s :
  wf f x -> wf f y -> ieee754_isnan f x = false -> ieee754_isnan f y = false ->
  nod (fcsr s) = false ->
  exists b, ieee754_cmp f x y cmp sig s = Some (b2z b, clear s) /\
    (b = true <-> Holds cmp (val f x) (val f y)).
Proof.
  intros W W' N N' Hn; unfold ieee754_cmp, CLEARCX.
  rewrite (run_bind_some _ _ _ _ _ (FLUSH_nop f x _ s Hn)); cbv beta iota.
  rewrite (run_bind_some _ _ _ _ _ (FLUSH_nop f y _ s Hn)); cbv beta iota.
  autorewrite with st; rewrite N, N'; cbn [orb].
  destruct (key_val f x y W W') as [K1 K2]; unfold Holds.
  destruct (Z.ltb_spec (cmp_key f x) (cmp_key f y)) as [L|L].
  - apply K1 in L; eexists; split; [reflexivity|]; split; [tauto|intros [[]|[[]|[]]]; auto; lra].
  - destruct (Z.eqb_spec (cmp_key f x) (cmp_key f y)) as [E|E].
    + apply K2 in E; eexists; split; [reflexivity|]; split; [tauto|intros [[]|[[]|[]]]; auto; lra].
    + assert (~ (val f x < val f y)%R) by (rewrite <- K1; lia).
      assert (val f x <> val f y) by (rewrite <- K2; lia).
      eexists; split; [reflexivity|]; split; [intros; right; right; split; auto; lra|].
      intros [[]|[[]|[]]]; auto; lra.
Qed.

(** C32: on operands that are not NaNs (infinities included, whose [val] lies
    beyond every finite number), [ieee754_cmp] decides the asked relation
    between the values and raises nothing, signalling or not. *)
Theorem ieee754_cmp_ordered f x y cmp sig s :
  wf f x -> wf f y -> ieee754_isnan f x = false -> ieee754_isnan f y = false ->
  nod (fcsr s) = false ->
  exists b, ieee754_cmp f x y cmp sig s = Some (b2z b, clear s) /\
    (b = true <-> Holds cmp (val f x) (val f y)).
Proof. exact (cmp_spec f x y cmp sig s). Qed.

Lemma ieee754_cmp_ordered_witness :
  exists b, ieee754_cmp SP (one_half SP) (ieee754_inf SP true) CGT false s0 = Some (b2z b, clear s0) /\
    (b = true <-> Holds CGT (val SP (one_half SP)) (val SP (ieee754_inf SP true))).
Proof. apply (ieee754_cmp_ordered SP (one_half SP) (ieee754_inf SP true) CGT false s0); closed. Defined.

Lemma raise_twice a s : raise a (raise a s) = raise a s.
Proof. rewrite raise_raise, Z.lor_diag; reflexivity. Qed.

(** a comparison with a NaN is unordered: true exactly when the mask
    includes unordered.  Invalid operation is raised when the comparison is
    signalling or an operand is a signalling NaN, and reported only for an
    enabled signalling less-or-greater comparison. *)
Theorem ieee754_cmp_unordered f x y cmp sig s :
  ieee754_isnan f x || ieee754_isnan f y = true -> nod (fcsr s) = false ->
  let invalid := sig || cls_eqb (ieee754_class f x) SNAN || cls_eqb (ieee754_class f y) SNAN in
  let s' := if invalid then raise INVALID_OPERATION (clear s) else clear s in
  let un := tst (Z.land cmp CUN) in
  ieee754_cmp f x y cmp sig s =
    Some (b2z un,
          if negb un && tst (Z.land cmp (Z.lor CLT CGT)) && sig &&
             tst (Z.land (mx (fcsr s)) INVALID_OPERATION)
          then report "fcmpf" RT_SI s' else s').
Proof.
  intros N Hn; unfold ieee754_cmp, CLEARCX.
  rewrite (run_bind_some _ _ _ _ _ (FLUSH_nop f x _ s Hn)); cbv beta iota.
  rewrite (run_bind_some _ _ _ _ _ (FLUSH_nop f y _ s Hn)); cbv beta iota.
  autorewrite with st; rewrite N; fold (ieee754_class f x) (ieee754_class f y).
  unfold when, SETANDTESTCX, SETCX, ieee754si_xcpt, TSTX, ieee754_xcpt.
  destruct sig; cbn [orb].
  - autorewrite with st; destruct (tst (Z.land cmp CUN)); [reflexivity|cbn [negb andb]].
    destruct (tst (Z.land cmp (Z.lor CLT CGT))); [cbn [andb]|reflexivity].
    autorewrite with st; rewrite Z.lor_diag.
    change (mx (fcsr (clear s))) with (mx (fcsr s)).
    destruct (tst (Z.land (mx (fcsr s)) INVALID_OPERATION)) eqn:E; autorewrite with st; [|reflexivity].
    replace (tstx (raise INVALID_OPERATION (clear s))) with true; [autorewrite with st; reflexivity|].
    symmetry; unfold tstx; cbn [fcsr raise upd_csr raise_csr cx mx clear clear_csr].
    rewrite Z.lor_0_l, Z.land_comm; exact E.
  - rewrite andb_false_r; cbn [andb].
    destruct (_ || cls_eqb _ _); autorewrite with st; destruct (tst (Z.land cmp CUN)); try reflexivity;
      destruct (tst (Z.land cmp (Z.lor CLT CGT))); reflexivity.
Qed.

Lemma ieee754_cmp_unordered_witness :
  ieee754_cmp SP (one_half SP) (ieee754_indef SP) CLT true s0 =
    Some (0, raise INVALID_OPERATION (clear s0)).
Proof. apply (ieee754_cmp_unordered SP (one_half SP) (ieee754_indef SP) CLT true s0); closed. Defined.
