(* ===== verification/Simple.v ===== *)
(** * Sign operations, exponent manipulation and integral parts

    Models [sp_simple.c]/[dp_simple.c] (finite, copysign, neg, abs),
    [*_modf.c], [*_frexp.c], [*_logb.c], [*_scalb.c], [ieee754m.c] (floor,
    ceil, trunc) and the unsigned conversions of [*_tint.c]/[*_tlong.c]. *)

From S2P Require Import Prelude Rounding Ieee754 Format AddSub FromInt ToInt Cmp.

(** ** The code *)

Definition ieee754_finite (f : fmt) (x : ieee754) : bool :=
  negb (bexp x =? EMAX f + 1 + EBIAS f).

Definition ieee754_copysign (x y : ieee754) : M ieee754 :=
  CLEARCX ;;; ret (with_sign x (sign y)).

Definition ieee754_neg (f : fmt) (x : ieee754) : M ieee754 :=
  let k := EXPLODE f x in
  CLEARCX ;;;
  '(x, k) <- FLUSH f x k ;;
  let x := with_sign x (negb (sign x)) in
  if cls_eqb (kc k) SNAN then
    SETCX INVALID_OPERATION ;;;
    ieee754_nanxcpt f (with_sign (ieee754_indef f) (sign x)) "neg"
  else if ieee754_isnan f x then ieee754_nanxcpt f x "neg"
  else ret x.

(** The two copies differ in the name they report for a signalling NaN. *)
Definition ieee754_abs (f : fmt) (x : ieee754) : M ieee754 :=
  let k := EXPLODE f x in
  CLEARCX ;;;
  '(x, k) <- FLUSH f x k ;;
  if cls_eqb (kc k) SNAN then
    SETCX INVALID_OPERATION ;;;
    ieee754_nanxcpt f (ieee754_indef f) (match f with SP => "abs" | DP => "neg" end)
  else if ieee754_isnan f x then ieee754_nanxcpt f x "abs"
  else ret (with_sign x false).

(** Returns the fraction and the integral part (the C result and [*ip]). *)
Definition ieee754_modf (f : fmt) (x : ieee754) : M (ieee754 * ieee754) :=
  CLEARCX ;;;
  let k := EXPLODE f x in
  let '(xs, xe, xm) := (ks k, ke k, km k) in
  match kc k with
  | SNAN | QNAN | INF | ZERO => ret (x, x)
  | DNORM => ret (x, ieee754_zero f xs)
  | NORM =>
    if xe <? 0 then ret (x, ieee754_zero f xs)
    else if xe >=? MBITS f then ret (ieee754_zero f xs, x)
    else
      let ip := build f xs (xe + EBIAS f)
                  (Z.land (shl (WBITS f) (Z.shiftr xm (MBITS f - xe)) (MBITS f - xe))
                          (Z.lnot (HIDDEN_BIT f))) in
      let xm := Z.shiftr (shl (WBITS f) xm (WBITS f - (MBITS f - xe))) (WBITS f - (MBITS f - xe)) in
      if xm =? 0 then ret (ieee754_zero f xs, ip)
      else
        '(xm, xe) <- lift (norm_loop (WBITS f) (MBITS f) xm xe) ;;
        ret (build f xs (xe + EBIAS f) (Z.land xm (Z.lnot (HIDDEN_BIT f))), ip)
  end.

(** Returns the mantissa and the exponent ([*eptr]). *)
Definition ieee754_frexp (f : fmt) (x : ieee754) : M (ieee754 * Z) :=
  CLEARCX ;;;
  let k := EXPLODE f x in
  let deliver (k : comp) :=
    (build f (ks k) (-1 + EBIAS f) (Z.land (km k) (Z.lnot (HIDDEN_BIT f))), ke k + 1) in
  match kc k with
  | SNAN | QNAN | INF | ZERO => ret (x, 0)
  | DNORM => k <- lift (DNORM_loop f k) ;; ret (deliver k)
  | NORM => ret (deliver k)
  end.

Definition ieee754_fint (f : fmt) : Z -> M ieee754 :=
  match f with SP => ieee754sp_fint | DP => ieee754dp_fint end.

Definition ieee754_logb (f : fmt) (x : ieee754) : M ieee754 :=
  CLEARCX ;;;
  let k := EXPLODE f x in
  match kc k with
  | SNAN => ieee754_nanxcpt f x "logb"
  | QNAN => ret x
  | INF => ret (ieee754_inf f false)
  | ZERO => ret (ieee754_inf f true)
  | DNORM => k <- lift (DNORM_loop f k) ;; ieee754_fint f (ke k)
  | NORM => ieee754_fint f (ke k)
  end.

(** [xe + n] is an [int] addition. *)
Definition ieee754_scalb (f : fmt) (x : ieee754) (n : Z) : M ieee754 :=
  CLEARCX ;;;
  let k := EXPLODE f x in
  let deliver (k : comp) :=
    NORMRET f (ks k) (swrap 32 (ke k + n)) (shl (WBITS f) (km k) 3) "scalb" in
  match kc k with
  | SNAN => ieee754_nanxcpt f x "scalb"
  | QNAN | INF | ZERO => ret x
  | DNORM => k <- lift (DNORM_loop f k) ;; deliver k
  | NORM => deliver k
  end.
Definition ieee754_ldexp (f : fmt) (x : ieee754) (n : Z) : M ieee754 := ieee754_scalb f x n.

Definition ieee754dp_floor (x : ieee754) : M ieee754 :=
  '(fp, i) <- ieee754_modf DP x ;;
  c <- ieee754_lt DP fp (ieee754_zero DP false) ;;
  if tst c then ieee754dp_sub i (ieee754_one DP false) else ret i.

Definition ieee754dp_ceil (x : ieee754) : M ieee754 :=
  '(fp, i) <- ieee754_modf DP x ;;
  c <- ieee754_gt DP fp (ieee754_zero DP false) ;;
  if tst c then ieee754dp_add i (ieee754_one DP false) else ret i.

Definition ieee754dp_trunc (x : ieee754) : M ieee754 :=
  '(_, i) <- ieee754_modf DP x ;; ret i.

(** The common shape of the unsigned conversions: [hb] is [2^n], [ti] the
    signed conversion to [n + 1] bits. *)
Definition tuns_via (f : fmt) (n : Z) (hb : ieee754) (ti : ieee754 -> M Z) (x : ieee754) : M Z :=
  c <- ieee754_lt f x hb ;;
  if tst c then t <- ti x ;; ret (wrap (n + 1) t)
  else y <- ieee754_sub f x hb ;; t <- ti y ;; ret (Z.lor (wrap (n + 1) t) (2 ^ n)).

Definition ieee754sp_tuns := tuns_via SP 31 (ieee754_1e31 SP) ieee754sp_tint.
Definition ieee754dp_tuns := tuns_via DP 31 (ieee754_1e31 DP) ieee754dp_tint.
Definition ieee754sp_tulong := tuns_via SP 63 (ieee754_1e63 SP) ieee754sp_tlong.
Definition ieee754dp_tulong := tuns_via DP 63 (ieee754_1e63 DP) ieee754dp_tlong.
Definition ieee754_tuns (f : fmt) : ieee754 -> M Z :=
  match f with SP => ieee754sp_tuns | DP => ieee754dp_tuns end.
Definition ieee754_tulong (f : fmt) : ieee754 -> M Z :=
  match f with SP => ieee754sp_tulong | DP => ieee754dp_tulong end.

(** The two copies of the other routines. *)
Definition ieee754sp_finite := ieee754_finite SP.
Definition ieee754dp_finite := ieee754_finite DP.
Definition ieee754sp_copysign := ieee754_copysign.
Definition ieee754dp_copysign := ieee754_copysign.
Definition ieee754sp_neg := ieee754_neg SP.
Definition ieee754dp_neg := ieee754_neg DP.
Definition ieee754sp_abs := ieee754_abs SP.
Definition ieee754dp_abs := ieee754_abs DP.
Definition ieee754sp_modf := ieee754_modf SP.
Definition ieee754dp_modf := ieee754_modf DP.
Definition ieee754sp_frexp := ieee754_frexp SP.
Definition ieee754dp_frexp := ieee754_frexp DP.
Definition ieee754sp_logb := ieee754_logb SP.
Definition ieee754dp_logb := ieee754_logb DP.
Definition ieee754sp_scalb := ieee754_scalb SP.
Definition ieee754dp_scalb := ieee754_scalb DP.
Definition ieee754sp_ldexp := ieee754_ldexp SP.
Definition ieee754dp_ldexp := ieee754_ldexp DP.

(** ** Sign operations *)

Lemma explode_notnan f x : is_finite f x = true -> ieee754_isnan f x = false /\ kc (EXPLODE f x) <> SNAN.
Proof.
  unfold is_finite, ieee754_isnan, ieee754_class, EXPLODE; intros F; zbool.
  destruct (Z.eqb_spec (bexp x) (EMAX f + 1 + EBIAS f)); [contradiction|].
  destruct (_ =? _); [destruct (tst _)|]; split; cbn; congruence.
Qed.

Lemma cls_eqb_spec a b : cls_eqb a b = true <-> a = b.
Proof. unfold cls_eqb; destruct a, b; cbn; split; congruence. Qed.

(** Negation of a finite number is exact and only flips the sign; the
    magnitude operation clears it.  Both raise nothing. *)
Lemma neg_abs_spec f x s :
  wf f x -> is_finite f x = true -> nod (fcsr s) = false ->
  (ieee754_neg f x s = Some (with_sign x (negb (sign x)), clear s) /\
   val f (with_sign x (negb (sign x))) = (- val f x)%R) /\
  (ieee754_abs f x s = Some (with_sign x false, clear s) /\
   val f (with_sign x false) = Rabs (val f x)).
Proof.
  intros W F Hn; destruct (explode_notnan f x F) as [N K]; unfold ieee754_neg, ieee754_abs.
  assert (Kf : cls_eqb (kc (EXPLODE f x)) SNAN = false)
    by (destruct (cls_eqb _ _) eqn:E; [apply cls_eqb_spec in E; contradiction|reflexivity]).
  assert (N' : ieee754_isnan f (with_sign x (negb (sign x))) = false).
  { apply explode_notnan; exact F. }
  split; enter Hn; rewrite Kf, ?N, ?N'.
  - split; [reflexivity|apply negate_val].
  - split; [reflexivity|].
    rewrite !val_units by auto; unfold with_sign; cbn [sign]; change (units f (mkfp false (bexp x) (mant x))) with (units f x).
    pose proof (units_nonneg f x W); rewrite Rabs_mult, <- abs_IZR, (Rabs_pos_eq (bpow _))
      by (apply Rlt_le, bpow_pos).
    do 2 f_equal; destruct (sign x); cbn [signed]; lia.
Qed.

(** ** Integral and fractional part *)

Lemma int_part f sn e m :
  0 <= e < MBITS f -> 2 ^ MBITS f <= m < 2 ^ PREC f ->
  let k := MBITS f - e in
  shl (WBITS f) (Z.shiftr m k) k = m - m mod 2 ^ k /\
  Z.shiftr (shl (WBITS f) m (WBITS f - k)) (WBITS f - k) = m mod 2 ^ k /\
  2 ^ MBITS f <= m - m mod 2 ^ k < 2 ^ PREC f /\
  (exists n, (sgn sn * (IZR (m - m mod 2 ^ k) * bpow (e - MBITS f)))%R = IZR n) /\
  (0 <= IZR (m mod 2 ^ k) * bpow (e - MBITS f) < 1)%R.
Proof.
  intros He Hm k; pose proof (fmt_facts f) as FF; assert (Hk : 0 < k <= MBITS f) by lia.
  pose proof (pow2_pos k ltac:(lia)) as Pk; pose proof (Z.div_mod m (2 ^ k) ltac:(lia)) as D.
  pose proof (Z.mod_pos_bound m (2 ^ k) Pk) as B; pose proof (hidden_word f 1 ltac:(lia)) as HW.
  rewrite <- pow_mbits in HW by lia; fold (PREC f) in HW.
  assert (Lo : 2 ^ MBITS f <= m - m mod 2 ^ k).
  { replace (m - m mod 2 ^ k) with (2 ^ k * (m / 2 ^ k)) by lia.
    rewrite (pow2_split k e (MBITS f)) in * by lia.
    assert (2 ^ e <= m / 2 ^ k) by (apply Z.div_le_lower_bound; lia). nia. }
  repeat split; try lia.
  - rewrite shiftr_div, shl_small by (try rewrite Z.mul_comm; lia); lia.
  - unfold shl, wrap; rewrite Z.shiftl_mul_pow2, shiftr_div by lia.
    rewrite (pow2_split k (WBITS f - k) (WBITS f)), Z.mul_mod_distr_r by lia.
    apply Z.div_mul; pose proof (pow2_pos (WBITS f - k)); lia.
  - exists (signed sn (m / 2 ^ k)); rewrite signed_IZR; f_equal.
    replace (m - m mod 2 ^ k) with (m / 2 ^ k * 2 ^ k) by lia.
    rewrite <- bpow_shift by lia; replace (_ + _) with 0 by lia; rewrite bpow_0; lra.
  - apply scaled_nonneg; lia.
  - replace 1%R with (IZR (2 ^ k) * bpow (e - MBITS f))%R; [apply scaled_lt; lia|].
    rewrite <- bpow_Z, <- bpow_plus by lia; replace (_ + _) with 0 by lia; apply bpow_0.
Qed.

(** The pieces of a finite number [x]: [ip] is integral, [fp] a fraction of
    the same sign, and they add up. *)
Record ModfParts (f : fmt) (x fp ip : ieee754) : Prop := {
  mf_wf : wf f fp /\ wf f ip;
  mf_finite : is_finite f fp = true /\ is_finite f ip = true;
  mf_sum : (val f ip + val f fp)%R = val f x;
  mf_int : exists n, val f ip = IZR n;
  mf_frac : (Rabs (val f fp) < 1)%R;
  mf_sign : (0 <= val f fp * val f x)%R /\ sign ip = sign x
}.

Lemma modf_small f x :
  wf f x -> is_finite f x = true -> (Rabs (val f x) < 1)%R ->
  ModfParts f x x (ieee754_zero f (sign x)).
Proof.
  intros W F B; destruct (zero_facts f (sign x)) as (W0 & F0 & V0).
  split; auto; [rewrite V0; lra|exists 0; exact V0|].
  split; [nra|rewrite zero_eq; reflexivity].
Qed.

Lemma modf_integral f x n :
  wf f x -> is_finite f x = true -> val f x = IZR n -> ModfParts f x (ieee754_zero f (sign x)) x.
Proof.
  intros W F E; destruct (zero_facts f (sign x)) as (W0 & F0 & V0).
  split; auto; [rewrite V0; lra|now exists n|rewrite V0, Rabs_R0; lra|rewrite V0; split; [lra|reflexivity]].
Qed.

Lemma scaled_one f e m : e < 0 -> 0 <= m < 2 ^ PREC f -> (IZR m * bpow (e - MBITS f) < 1)%R.
Proof.
  intros He Hm; apply Rlt_le_trans with (IZR (2 ^ PREC f) * bpow (e - MBITS f))%R; [apply scaled_lt; lia|].
  pose proof (fmt_facts f).
  rewrite <- bpow_Z, <- bpow_plus, <- bpow_0 by (unfold PREC; lia); apply bpow_le; unfold PREC; lia.
Qed.

Lemma modf_spec f x s :
  wf f x -> is_finite f x = true ->
  exists fp ip, ieee754_modf f x s = Some ((fp, ip), clear s) /\ ModfParts f x fp ip.
Proof.
  intros W F; unfold ieee754_modf, CLEARCX; autorewrite with st; pose proof (fmt_facts f) as FF.
  classify W F; rewrite ?Hs.
  - eexists _, _; split; [reflexivity|]; rewrite E at 2; apply modf_integral with 0; auto.
  - eexists _, _; split; [reflexivity|]; apply modf_small; auto.
    rewrite V; unfold cval; rewrite Rabs_sgn by (apply scaled_nonneg; lia).
    apply scaled_one; [lia|mbits f; lia].
  - set (e := ke (EXPLODE f x)) in *; set (m := km (EXPLODE f x)) in *; unfold cval in V; fold e m in V.
    rewrite Hs in V; destruct (Z.ltb_spec e 0) as [H0|H0].
    { eexists _, _; split; [reflexivity|]; apply modf_small; auto.
      rewrite V, Rabs_sgn by (apply scaled_nonneg; mbits f; lia); apply scaled_one; mbits f; lia. }
    rewrite Z.geb_leb; destruct (Z.leb_spec (MBITS f) e) as [H1|H1].
    { eexists _, _; split; [reflexivity|].
      apply modf_integral with (signed (sign x) (m * 2 ^ (e - MBITS f))); auto.
      rewrite V; apply value_integer; auto. }
    destruct (int_part f (sign x) e m ltac:(lia) Hm) as (I1 & I2 & I3 & [n I4] & I5).
    rewrite I1, I2.
    destruct (build_val f (sign x) e _ ltac:(lia) I3) as (Wi & Fi & Si & Vi).
    set (ip := build _ _ _ _) in *; set (t := m mod 2 ^ (MBITS f - e)) in *.
    assert (Sum : val f x = (val f ip + sgn (sign x) * (IZR t * bpow (e - MBITS f)))%R)
      by (rewrite V, Vi, minus_IZR; ring).
    destruct (Z.eqb_spec t 0) as [T|T].
    { eexists _, _; split; [reflexivity|]; destruct (zero_facts f (sign x)) as (W0 & F0 & V0).
      split; auto; rewrite ?V0, ?Rabs_R0; try lra; [rewrite Sum, T; lra|exists n; rewrite Vi; exact I4|].
      split; [lra|exact Si]. }
    assert (Ht : 0 < t < 2 ^ MBITS f).
    { pose proof (Z.mod_pos_bound m (2 ^ (MBITS f - e)) ltac:(apply pow2_pos; lia)) as Hb; fold t in Hb.
      pose proof (pow2_le (MBITS f - e) (MBITS f) ltac:(lia)); lia. }
    destruct (norm_loop_spec (WBITS f) (MBITS f) t e) as (j & Hj & El & Hr);
      [lia|lia|rewrite Z.pow_add_r by lia; lia|].
    rewrite El, run_bind_lift; eexists _, _; split; [reflexivity|].
    assert (j <= MBITS f).
    { assert (j < MBITS f + 1); [|lia]; pose proof (pow2_pos j Hj).
      apply Z.pow_lt_mono_r_iff with 2; [lia|lia|nia]. }
    destruct (build_val f (sign x) (e - j) (t * 2 ^ j) ltac:(lia) Hr) as (Wf & Ff & Sf & Vf).
    assert (Vt : (IZR (t * 2 ^ j) * bpow (e - j - MBITS f) = IZR t * bpow (e - MBITS f))%R)
      by (rewrite <- bpow_shift by lia; do 2 f_equal; lia).
    rewrite Vt in Vf; split; auto; rewrite ?Vf; try lra.
    + exists n; rewrite Vi; exact I4.
    + rewrite Rabs_sgn; lra.
    + split; [|exact Si]; rewrite V.
      replace (_ * _)%R with (sgn (sign x) * sgn (sign x) * ((IZR t * bpow (e - MBITS f)) * (IZR m * bpow (e - MBITS f))))%R by ring.
      rewrite sgn_sqr, Rmult_1_l; apply Rmult_le_pos; [lra|apply scaled_nonneg; mbits f; lia].
Qed.

(** [ieee754_modf] splits every finite number exactly into its integral
    and fractional parts and raises nothing. *)
Theorem ieee754_modf_correct f x s :
  wf f x -> is_finite f x = true ->
  exists fp ip, ieee754_modf f x s = Some ((fp, ip), clear s) /\ ModfParts f x fp ip.
Proof. exact (modf_spec f x s). Qed.

Lemma ieee754_modf_correct_witness :
  exists fp ip, ieee754_modf SP (one_half SP) s0 = Some ((fp, ip), clear s0) /\
    ModfParts SP (one_half SP) fp ip.
Proof. apply (ieee754_modf_correct SP (one_half SP) s0); closed. Defined.

(** ** Exponent manipulation *)

(** A nonzero finite operand, normalised where it must be: the mantissa and
    the exponent that [frexp], [logb] and [scalb] work on. *)
Lemma normalised f x :
  wf f x -> is_finite f x = true -> ieee754_class f x <> ZERO ->
  exists k, ks k = sign x /\ 2 ^ MBITS f <= km k < 2 ^ PREC f /\
    EMIN f - MBITS f <= ke k <= EMAX f /\ cval f k = val f x /\
    (kc (EXPLODE f x) = DNORM /\ DNORM_loop f (EXPLODE f x) = Some k \/
     kc (EXPLODE f x) = NORM /\ EXPLODE f x = k).
Proof.
  intros W F C; unfold ieee754_class in C; pose proof (fmt_facts f) as FF.
  classify W F; [contradiction| |exists (EXPLODE f x); rewrite V; repeat split; auto; lia].
  destruct (norm_loop_spec (WBITS f) (MBITS f) (km (EXPLODE f x)) (ke (EXPLODE f x)))
    as (n & Hn & Hl & Hr); [mbits f; lia..|].
  assert (n <= MBITS f).
  { assert (n < MBITS f + 1); [|lia]; pose proof (pow2_pos n Hn).
    apply Z.pow_lt_mono_r_iff with 2; [lia|lia|nia]. }
  unfold DNORM_loop; rewrite Hl; eexists; split; [|split; [|split; [|split; [|left; split; reflexivity]]]];
    cbn [ks km ke]; auto; [lia|].
  rewrite V; unfold cval; cbn [ks km ke]; f_equal.
  rewrite <- bpow_shift by lia; do 2 f_equal; lia.
Qed.

(** [ieee754_frexp] writes a nonzero finite number as [r * 2^e] with
    [1/2 <= |r| < 1], exactly. *)
Lemma frexp_spec f x s :
  wf f x -> is_finite f x = true -> ieee754_class f x <> ZERO ->
  exists r e, ieee754_frexp f x s = Some ((r, e), clear s) /\
    wf f r /\ is_finite f r = true /\ (/ 2 <= Rabs (val f r) < 1)%R /\
    val f x = (val f r * bpow e)%R.
Proof.
  intros W F C; destruct (normalised f x W F C) as (k & Sk & Rk & Ek & Vk & Hk); pose proof (fmt_facts f) as FF.
  unfold ieee754_frexp, CLEARCX; autorewrite with st.
  destruct (build_val f (ks k) (-1) (km k) ltac:(lia) Rk) as (Wr & Fr & _ & Vr).
  eexists _, (ke k + 1); split; [destruct Hk as [[-> ->]|[-> ->]]; reflexivity|].
  split; [exact Wr|split; [exact Fr|rewrite Vr]]; split.
  - rewrite Rabs_sgn by (apply scaled_nonneg; mbits f; lia).
    replace (/ 2)%R with (IZR (2 ^ MBITS f) * bpow (-1 - MBITS f))%R.
    + split; [apply scaled_le; lia|apply scaled_one; mbits f; lia].
    + rewrite <- bpow_Z, <- bpow_plus by lia; replace (_ + _) with (-1) by lia; change (bpow (-1)) with (/ (2 * 1))%R; lra.
  - rewrite <- Vk; unfold cval; rewrite Rmult_assoc; f_equal; rewrite Rmult_assoc, <- bpow_plus.
    do 2 f_equal; lia.
Qed.

(** [ieee754_logb] of a nonzero finite number is the exponent [n] with
    [2^n <= |x| < 2^(n+1)], delivered exactly. *)
Lemma logb_spec f x s :
  wf f x -> is_finite f x = true -> ieee754_class f x <> ZERO -> nod (fcsr s) = false ->
  exists r n, ieee754_logb f x s = Some (r, clear s) /\
    wf f r /\ is_finite f r = true /\ val f r = IZR n /\
    (bpow n <= Rabs (val f x) < bpow (n + 1))%R.
Proof.
  intros W F C Hn; destruct (normalised f x W F C) as (k & Sk & Rk & Ek & Vk & Hk); pose proof (fmt_facts f) as FF.
  assert (Hr : exists r, ieee754_fint f (ke k) (clear s) = Some (r, clear (clear s)) /\
                 wf f r /\ is_finite f r = true /\ val f r = IZR (ke k)).
  { destruct f; cbn [ieee754_fint].
    - destruct (int_representable SP (ke k)) as (A & B & D); [unfold PREC; cbn in *; lia|].
      eapply delivers_representable; eauto; apply from_int_spec; auto; cbn in *; lia.
    - apply dp_fint_spec; cbn in *; lia. }
  destruct Hr as (r & Er & Wr & Fr & Vr); unfold ieee754_logb, CLEARCX; autorewrite with st.
  exists r, (ke k); split; [destruct Hk as [[-> ->]|[-> ->]]; exact Er|].
  split; [exact Wr|split; [exact Fr|split; [exact Vr|]]].
  rewrite <- Vk; unfold cval; rewrite Rabs_sgn by (apply scaled_nonneg; mbits f; lia).
  replace (bpow (ke k)) with (IZR (2 ^ MBITS f) * bpow (ke k - MBITS f))%R
    by (rewrite <- bpow_Z, <- bpow_plus by lia; f_equal; lia).
  replace (bpow (ke k + 1)) with (IZR (2 ^ PREC f) * bpow (ke k - MBITS f))%R
    by (unfold PREC; rewrite <- bpow_Z, <- bpow_plus by lia; f_equal; lia).
  split; [apply scaled_le|apply scaled_lt]; lia.
Qed.

(** [ieee754_scalb] delivers [x * 2^n] correctly rounded, as long as the
    [int] sum of the exponents does not wrap. *)
Theorem ieee754_scalb_correct f x n s :
  wf f x -> is_finite f x = true -> nod (fcsr s) = false -> - 2 ^ 30 <= n <= 2 ^ 30 ->
  Delivers f "scalb" s (val f x * bpow n) (ieee754_scalb f x n s).
Proof.
  intros W F Hn Hb; pose proof (fmt_facts f) as FF; unfold ieee754_scalb, CLEARCX; autorewrite with st.
  destruct (cls_eqb (ieee754_class f x) ZERO) eqn:Z0.
  { apply cls_eqb_spec in Z0; unfold ieee754_class in Z0; rewrite Z0; classify W F; try congruence.
    apply delivers_exact; auto; rewrite V; lra. }
  assert (C : ieee754_class f x <> ZERO) by (intros E; rewrite E in Z0; discriminate).
  destruct (normalised f x W F C) as (k & Sk & Rk & Ek & Vk & Hk).
  assert (D : Delivers f "scalb" s (val f x * bpow n)
    (NORMRET f (ks k) (swrap 32 (ke k + n)) (shl (WBITS f) (km k) 3) "scalb" (clear s))).
  { assert (EBIAS f <= 1023) by (destruct f; cbn; lia).
    rewrite shl3, swrap_small by (auto; cbn; lia); apply delivers_of.
    destruct (NORMRET_rounds f (ks k) (ke k + n) (8 * km k) _ "scalb" (clear s) Hn
      ltac:(mbits f; lia) (sticky_exact 2 _)) as (r & i & u & o & E & FR).
    exists r, i, u, o; split; [exact E|].
    replace (val f x * bpow n)%R with
      (sgn (ks k) * (IZR (8 * km k) * bpow (ke k + n - MBITS f - 3)))%R; [exact FR|].
    rewrite <- mult8, <- Vk; unfold cval; rewrite !Rmult_assoc, <- bpow_plus.
    do 3 f_equal; lia. }
  destruct Hk as [[-> ->]|[-> ->]]; exact D.
Qed.

Lemma ieee754_scalb_correct_witness :
  Delivers SP "scalb" s0 (val SP (one_half SP) * bpow (-200)) (ieee754_scalb SP (one_half SP) (-200) s0).
Proof. apply (ieee754_scalb_correct SP (one_half SP) (-200) s0); closed. Defined.

(** [ieee754_frexp] writes a nonzero finite number exactly as [r * 2^e]
    with [1/2 <= |r| < 1], and [ieee754_logb] delivers the exponent [n] with
    [2^n <= |x| < 2^(n+1)]; neither raises anything. *)
Theorem ieee754_frexp_logb_correct f x s :
  wf f x -> is_finite f x = true -> ieee754_class f x <> ZERO -> nod (fcsr s) = false ->
  (exists r e, ieee754_frexp f x s = Some ((r, e), clear s) /\
     wf f r /\ is_finite f r = true /\ (/ 2 <= Rabs (val f r) < 1)%R /\
     val f x = (val f r * bpow e)%R) /\
  (exists r n, ieee754_logb f x s = Some (r, clear s) /\
     wf f r /\ is_finite f r = true /\ val f r = IZR n /\
     (bpow n <= Rabs (val f x) < bpow (n + 1))%R).
Proof. intros W F C Hn; split; [apply frexp_spec; auto|apply logb_spec; auto]. Qed.

Lemma ieee754_frexp_logb_correct_witness :
  exists r n, ieee754_logb DP (minus_three DP) s0 = Some (r, clear s0) /\
    wf DP r /\ is_finite DP r = true /\ val DP r = IZR n /\
    (bpow n <= Rabs (val DP (minus_three DP)) < bpow (n + 1))%R.
Proof. apply (ieee754_frexp_logb_correct DP (minus_three DP) s0); [closed|closed|discriminate|closed]. Defined.

(** ** Floor, ceiling and truncation *)

(** Numbers of at least [2^MBITS] are integers. *)
Lemma large_integral f x : wf f x -> is_finite f x = true ->
  (exists n, val f x = IZR n) \/ (Rabs (val f x) < bpow (MBITS f))%R.
Proof.
  intros W F; pose proof (fmt_facts f).
  assert (B : bpow 0 = 1%R /\ (bpow 0 <= bpow (MBITS f))%R) by (split; [apply bpow_0|apply bpow_le; lia]).
  destruct (explode_mag f x W F) as [[_ V]|(_ & Hm & _ & V)]; [left; exists 0; exact V|].
  set (e := ke _) in *; set (m := km _) in *; rewrite V.
  destruct (Z.le_gt_cases (MBITS f) e); [left; eexists; now apply value_integer|right].
  rewrite Rabs_sgn by (apply scaled_nonneg; lia).
  apply Rlt_le_trans with (IZR (2 ^ PREC f) * bpow (e - MBITS f))%R; [apply scaled_lt; lia|].
  rewrite <- bpow_Z, <- bpow_plus by (unfold PREC; lia); apply bpow_le; unfold PREC; lia.
Qed.

Lemma frac_integer a b (n : Z) : (a + b = IZR n)%R -> (exists k, a = IZR k) -> (Rabs b < 1)%R -> b = 0%R.
Proof.
  intros E [k ->] B; apply Rabs_def2 in B.
  assert (b = IZR (n - k)) as -> by (rewrite minus_IZR; lra).
  destruct B as [B1 B2]; apply lt_IZR in B1; apply (lt_IZR (-1)) in B2; replace (n - k) with 0 by lia; reflexivity.
Qed.

(** The neighbour of an integral part with a nonzero fraction is representable. *)
Lemma integral_step f x fp ip n d :
  wf f x -> is_finite f x = true -> ModfParts f x fp ip -> val f ip = IZR n -> val f fp <> 0%R ->
  -1 <= d <= 1 -> Z.abs (n + d) < 2 ^ PREC f.
Proof.
  intros W F [_ _ Sum Int Fr _] En Nz Hd; destruct (large_integral f x W F) as [[k Ek]|B].
  - exfalso; apply Nz, (frac_integer (val f ip) _ k); auto; congruence.
  - assert (Bn : (IZR (Z.abs n) < IZR (2 ^ MBITS f + 1))%R).
    { pose proof (fmt_facts f); rewrite plus_IZR, <- bpow_Z, abs_IZR, <- En by lia.
      replace (val f ip) with (val f x + - val f fp)%R by lra.
      pose proof (Rabs_triang (val f x) (- val f fp)); rewrite Rabs_Ropp in *; lra. }
    apply lt_IZR in Bn; mbits f; lia.
Qed.

Lemma order_zero f x c s :
  wf f x -> is_finite f x = true -> nod (fcsr s) = false ->
  exists b, ieee754_cmp f x (ieee754_zero f false) c false s = Some (b2z b, clear s) /\
    (b = true <-> Holds c (val f x) 0).
Proof.
  intros W F Hn; destruct (zero_facts f false) as (W0 & F0 & V0).
  destruct (cmp_spec f x (ieee754_zero f false) c false s) as (b & E & Hb); auto;
    [apply explode_notnan; auto..|]; rewrite V0 in Hb; eauto.
Qed.

(** [ieee754dp_floor] of a finite number is the greatest integer below it;
    nothing is raised. *)
Lemma dp_floor_spec x s :
  wf DP x -> is_finite DP x = true -> nod (fcsr s) = false ->
  exists r n, ieee754dp_floor x s = Some (r, clear s) /\
    wf DP r /\ is_finite DP r = true /\ val DP r = IZR n /\ (IZR n <= val DP x < IZR n + 1)%R.
Proof.
  intros W F Hn; destruct (modf_spec DP x s W F) as (fp & ip & E & MP); pose proof MP as [[Wf Wi] [Ff Fi] Sum [n En] Fr _].
  unfold ieee754dp_floor; rewrite (run_bind_some _ _ _ _ _ E).
  destruct (order_zero DP fp CLT (clear s) Wf Ff Hn) as (b & Eb & Hb).
  unfold ieee754_lt; rewrite (run_bind_some _ _ _ _ _ Eb); change (clear (clear s)) with (clear s).
  unfold Holds in Hb; cbn in Hb; apply Rabs_def2 in Fr; destruct b; cbn [b2z tst Z.eqb negb].
  - assert (Neg : (val DP fp < 0)%R) by (destruct Hb as [Hb _]; destruct (Hb eq_refl) as [[]|[[]|[]]]; auto; discriminate).
    destruct (one_facts DP false) as (W1 & F1 & V1); cbn [sgn] in V1.
    destruct (sub_spec DP ip (ieee754_one DP false) (clear s) Wi W1 Fi F1 Hn) as [D _].
    rewrite En, V1, <- minus_IZR in D.
    destruct (int_representable DP (n - 1)) as (A & B & C);
      [apply (integral_step DP x fp ip n (-1)); auto; lra || lia|].
    destruct (delivers_representable _ _ _ _ _ D A B C) as (r & Er & Wr & Fr' & Vr).
    exists r, (n - 1); split; [exact Er|]; rewrite minus_IZR in *; repeat split; auto; try apply Wr; lra.
  - exists ip, n; split; [reflexivity|].
    assert (~ (val DP fp < 0)%R) by (intros L; destruct Hb as [_ Hb]; discriminate Hb; left; auto).
    repeat split; auto; try apply Wi; lra.
Qed.

(** [ieee754dp_ceil] of a finite number is the least integer above it;
    nothing is raised. *)
Lemma dp_ceil_spec x s :
  wf DP x -> is_finite DP x = true -> nod (fcsr s) = false ->
  exists r n, ieee754dp_ceil x s = Some (r, clear s) /\
    wf DP r /\ is_finite DP r = true /\ val DP r = IZR n /\ (IZR n - 1 < val DP x <= IZR n)%R.
Proof.
  intros W F Hn; destruct (modf_spec DP x s W F) as (fp & ip & E & MP); pose proof MP as [[Wf Wi] [Ff Fi] Sum [n En] Fr _].
  unfold ieee754dp_ceil; rewrite (run_bind_some _ _ _ _ _ E).
  destruct (order_zero DP fp CGT (clear s) Wf Ff Hn) as (b & Eb & Hb).
  unfold ieee754_gt; rewrite (run_bind_some _ _ _ _ _ Eb); change (clear (clear s)) with (clear s).
  unfold Holds in Hb; cbn in Hb; apply Rabs_def2 in Fr; destruct b; cbn [b2z tst Z.eqb negb].
  - assert (Pos : (0 < val DP fp)%R) by (destruct Hb as [Hb _]; destruct (Hb eq_refl) as [[]|[[]|[]]]; auto; discriminate).
    destruct (one_facts DP false) as (W1 & F1 & V1); cbn [sgn] in V1.
    destruct (add_spec DP ip (ieee754_one DP false) (clear s) Wi W1 Fi F1 Hn) as [D _].
    rewrite En, V1, <- plus_IZR in D.
    destruct (int_representable DP (n + 1)) as (A & B & C);
      [apply (integral_step DP x fp ip n 1); auto; lra || lia|].
    destruct (delivers_representable _ _ _ _ _ D A B C) as (r & Er & Wr & Fr' & Vr).
    exists r, (n + 1); split; [exact Er|]; rewrite plus_IZR in *; repeat split; auto; try apply Wr; lra.
  - exists ip, n; split; [reflexivity|].
    assert (~ (0 < val DP fp)%R) by (intros L; destruct Hb as [_ Hb]; discriminate Hb; auto).
    repeat split; auto; try apply Wi; lra.
Qed.

(** [ieee754dp_floor] of a finite number is the greatest integer not above
    it and [ieee754dp_ceil] the least integer not below it, exactly; neither
    raises anything. *)
Theorem ieee754dp_floor_ceil_correct x s :
  wf DP x -> is_finite DP x = true -> nod (fcsr s) = false ->
  (exists r n, ieee754dp_floor x s = Some (r, clear s) /\
     wf DP r /\ is_finite DP r = true /\ val DP r = IZR n /\ (IZR n <= val DP x < IZR n + 1)%R) /\
  (exists r n, ieee754dp_ceil x s = Some (r, clear s) /\
     wf DP r /\ is_finite DP r = true /\ val DP r = IZR n /\ (IZR n - 1 < val DP x <= IZR n)%R).
Proof. intros W F Hn; split; [apply dp_floor_spec; auto|apply dp_ceil_spec; auto]. Qed.

Lemma ieee754dp_floor_ceil_correct_witness :
  exists r n, ieee754dp_ceil (one_half DP) s0 = Some (r, clear s0) /\
    wf DP r /\ is_finite DP r = true /\ val DP r = IZR n /\ (IZR n - 1 < val DP (one_half DP) <= IZR n)%R.
Proof. apply (ieee754dp_floor_ceil_correct (one_half DP) s0); closed. Defined.

(** ** Unsigned conversions *)

Lemma hb_facts f n : n = 31 \/ n = 63 ->
  let hb := if n =? 31 then ieee754_1e31 f else ieee754_1e63 f in
  wf f hb /\ is_finite f hb = true /\ val f hb = IZR (2 ^ n).
Proof.
  intros Hn hb; assert (Hb : hb = mkfp false (n + EBIAS f) 0) by (destruct f, Hn; subst n; reflexivity).
  rewrite Hb; assert (EMIN f <= n <= EMAX f) by (destruct f, Hn; subst n; cbn; lia).
  destruct (normal_facts f false n 0) as (W & F & V); [auto|pose proof (hidden_pos f); lia|].
  split; [exact W|split; [exact F|rewrite V]]; cbn [sgn]; rewrite Z.add_0_r, Rmult_1_l.
  pose proof (fmt_facts f); rewrite <- bpow_Z, <- bpow_plus, bpow_Z by lia; do 2 f_equal; lia.
Qed.

Lemma IntRnd_nonneg r v z : IntRnd r v z -> (0 <= v)%R -> 0 <= z.
Proof.
  intros H Hv; destruct (Z.le_gt_cases 0 z); auto; exfalso.
  assert (IZR z <= -1)%R by (apply (IZR_le z (-1)); lia).
  destruct r; cbn in H; destruct H as [A B]; try apply Rabs_def2 in A; try lra.
  revert A; unfold Rabs; destruct Rcase_abs; lra.
Qed.

(** Rounding commutes with subtracting an even integer that keeps the sign. *)
Lemma IntRnd_shift r v z k :
  IntRnd r v z -> (IZR (2 * k) <= v)%R -> 0 <= k -> IntRnd r (v - IZR (2 * k)) (z - 2 * k).
Proof.
  intros H Hv Hk; apply IZR_le in Hk.
  assert (D : (v - IZR (2 * k) - IZR (z - 2 * k) = v - IZR z)%R) by (rewrite minus_IZR; lra).
  destruct r; unfold IntRnd in *; rewrite ?D.
  - destruct H as [H1 H2]; split; auto; intros E; rewrite Z.even_sub, (H2 E), Z.even_mul; reflexivity.
  - destruct H as [H1 H2]; split; auto; rewrite minus_IZR; rewrite mult_IZR in *.
    apply Rabs_def2 in H1.
    assert (Hz : 0 <= z - 2 * k).
    { assert (-1 < z - 2 * k); [|lia]; apply lt_IZR; rewrite minus_IZR, mult_IZR; lra. }
    apply IZR_le in Hz; rewrite minus_IZR, mult_IZR in Hz.
    revert H2; unfold Rabs; repeat destruct Rcase_abs; lra.
  - rewrite minus_IZR; lra.
  - rewrite minus_IZR; lra.
Qed.

(** Subtracting [2^n] from a number of its binade is exact. *)
Lemma sub_high_bit f x n :
  wf f x -> is_finite f x = true -> 0 <= n < EMAX f - 1 -> ELO f <= n - MBITS f -> EMIN f <= n - MBITS f ->
  (IZR (2 ^ n) <= val f x < IZR (2 ^ (n + 1)))%R ->
  let v := (val f x - IZR (2 ^ n))%R in
  InFmt (Some (ELO f)) (PREC f) v /\ (Rabs v <= MAXV f)%R /\ (v = 0 \/ bpow (EMIN f) <= Rabs v)%R.
Proof.
  intros W F Hn Hlo Hmin Hv v; pose proof (fmt_facts f) as FF.
  assert (P : 0 < 2 ^ n) by (apply pow2_pos; lia); apply IZR_lt in P.
  assert (Hx : exists m, 2 ^ MBITS f <= m < 2 ^ PREC f /\ val f x = (IZR m * bpow (n - MBITS f))%R).
  { destruct (normalised f x W F) as (k & Sk & Rk & Ek & Vk & _).
    { intros C; destruct (explode_mag f x W F) as [[_ V]|([K|K] & _)];
        [rewrite V in Hv; lra|unfold ieee754_class in C; congruence..]. }
    assert (sign x = false) as Sx by (apply (val_sign f x W); lra).
    unfold cval in Vk; rewrite Sk, Sx in Vk; cbn [sgn] in Vk; rewrite Rmult_1_l in Vk.
    exists (km k); split; [auto|]; rewrite <- Vk in Hv |- *; do 2 f_equal.
    rewrite <- !bpow_Z in Hv by lia; destruct Hv as [Hv1 Hv2].
    destruct (Z.lt_trichotomy (ke k) n) as [L|[->|L]]; [exfalso| reflexivity|exfalso].
    - revert Hv1; apply Rlt_not_le.
      apply Rlt_le_trans with (IZR (2 ^ PREC f) * bpow (ke k - MBITS f))%R; [apply scaled_lt; lia|].
      rewrite <- bpow_Z, <- bpow_plus by (unfold PREC; lia); apply bpow_le; unfold PREC; lia.
    - revert Hv2; apply Rle_not_lt.
      apply Rle_trans with (IZR (2 ^ MBITS f) * bpow (ke k - MBITS f))%R; [|apply scaled_le; lia].
      rewrite <- bpow_Z, <- bpow_plus by lia; apply bpow_le; lia. }
  destruct Hx as (m & Hm & Vm).
  assert (Ev : v = (IZR (m - 2 ^ MBITS f) * bpow (n - MBITS f))%R).
  { unfold v; rewrite Vm, minus_IZR, Rmult_minus_distr_r, <- !bpow_Z, <- bpow_plus by lia.
    do 2 f_equal; lia. }
  assert (Av : Rabs v = v) by (apply Rabs_pos_eq; unfold v; lra).
  rewrite Av; split; [|split].
  - rewrite Ev; exists (m - 2 ^ MBITS f), (n - MBITS f); repeat split; cbn; auto; mbits f; lia.
  - apply Rle_trans with (val f x); [unfold v; lra|].
    pose proof (val_bound f x W F) as B; rewrite Rabs_pos_eq in B by lra; exact B.
  - destruct (Z.eq_dec m (2 ^ MBITS f)) as [->|]; [left; rewrite Ev, Z.sub_diag; lra|right; rewrite Ev].
    apply Rle_trans with (1 * bpow (n - MBITS f))%R; [rewrite Rmult_1_l; apply bpow_le; lia|].
    apply scaled_le; lia.
Qed.

(** A conversion whose rounded value is in range delivers it. *)
Lemma int_delivers_in n t op s v z out :
  IntDelivers n t op s v out -> IntRnd (rm (fcsr s)) v z -> - 2 ^ (n - 1) <= z < 2 ^ (n - 1) ->
  exists i, (i = true <-> IZR z <> v) /\ out = Some (z, raise (flags i false false) (clear s)).
Proof.
  intros (z' & Hz' & O) Hz R; rewrite (IntRnd_unique _ _ _ _ Hz' Hz) in *.
  destruct O as [[_ O]|[N _]]; [exact O|contradiction].
Qed.

Section Unsigned.
Variables (f : fmt) (n : Z) (hb : ieee754) (ti : ieee754 -> M Z) (t : rt) (op : string).
Hypothesis n_case : n = 31 \/ n = 63.
Hypothesis hb_def : hb = if n =? 31 then ieee754_1e31 f else ieee754_1e63 f.
(** What the signed conversion promises. *)
Hypothesis ti_ok : forall x s, wf f x -> is_finite f x = true -> nod (fcsr s) = false ->
  IntDelivers (n + 1) t op s (val f x) (ti x s).
Hypothesis f_wide : EMIN f <= n - MBITS f /\ n < EMAX f - 1.

Lemma tuns_via_spec x s z :
  wf f x -> is_finite f x = true -> nod (fcsr s) = false ->
  (0 <= val f x < IZR (2 ^ (n + 1)))%R -> IntRnd (rm (fcsr s)) (val f x) z -> z < 2 ^ (n + 1) ->
  ((val f x < IZR (2 ^ n))%R -> z < 2 ^ n) ->
  exists i, (i = true <-> IZR z <> val f x) /\
    tuns_via f n hb ti x s = Some (z, raise (flags i false false) (clear s)).
Proof using n_case hb_def ti_ok f_wide.
  intros W F Hn Hv Hz Hu Hlow; assert (Hn0 : 0 <= n) by lia.
  destruct (hb_facts f n n_case) as (Wb & Fb & Vb); rewrite <- hb_def in Wb, Fb, Vb.
  pose proof (pow2_pos n Hn0) as P; assert (P1 : 2 ^ (n + 1) = 2 * 2 ^ n) by (rewrite Z.pow_add_r by lia; lia).
  destruct (cmp_spec f x hb CLT false s W Wb) as (b & Eb & Hb); auto; try (apply explode_notnan; auto).
  rewrite Vb in Hb; unfold Holds in Hb; cbn in Hb.
  assert (Hb' : b = true <-> (val f x < IZR (2 ^ n))%R)
    by (rewrite Hb; split; [intros [[]|[[]|[]]]; auto; discriminate|auto]).
  pose proof (IntRnd_nonneg _ _ _ Hz ltac:(lra)) as Z0.
  unfold tuns_via, ieee754_lt; rewrite (run_bind_some _ _ _ _ _ Eb).
  assert (W1 : forall a, 0 <= a < 2 ^ n -> wrap (n + 1) a = a) by (intros; apply wrap_small; lia).
  destruct b; cbn [b2z tst Z.eqb negb].
  - assert (Lt : z < 2 ^ n) by tauto.
    destruct (int_delivers_in _ _ _ _ _ z _ (ti_ok x (clear s) W F Hn) Hz) as (i & Hi & E);
      [replace (n + 1 - 1) with n by lia; lia|].
    rewrite (run_bind_some _ _ _ _ _ E), W1 by lia; exists i; auto.
  - assert (Ge : (IZR (2 ^ n) <= val f x)%R) by (apply Rnot_lt_le; rewrite <- Hb'; discriminate).
    destruct (sub_spec f x hb (clear s) W Wb F Fb Hn) as [D _]; rewrite Vb in D.
    destruct (sub_high_bit f x n W F) as (A & B & C); try (unfold ELO; pose proof (fmt_facts f); lia); [lra|].
    destruct (delivers_representable _ _ _ _ _ D A B C) as (y & Ey & Wy & Fy & Vy).
    rewrite (run_bind_some _ _ _ _ _ Ey); change (clear (clear s)) with (clear s).
    assert (P2 : 2 ^ n = 2 * 2 ^ (n - 1)) by (apply (pow2_split 1); lia).
    assert (Hz' : IntRnd (rm (fcsr s)) (val f y) (z - 2 ^ n)).
    { rewrite Vy, P2; apply IntRnd_shift; auto; [rewrite <- P2; exact Ge|apply Z.lt_le_incl, pow2_pos; lia]. }
    pose proof (IntRnd_nonneg _ _ _ Hz' ltac:(rewrite Vy; lra)).
    destruct (int_delivers_in _ _ _ _ _ (z - 2 ^ n) _ (ti_ok y (clear s) Wy Fy Hn) Hz') as (i & Hi & E);
      [replace (n + 1 - 1) with n by lia; lia|].
    rewrite (run_bind_some _ _ _ _ _ E), W1, lor_bit_add by lia; exists i; split.
    + rewrite Hi, Vy, minus_IZR; split; intros K L; apply K; lra.
    + rewrite run_ret; do 2 f_equal; lia.
Qed.
End Unsigned.

(** [ieee754sp_tuns] and [ieee754dp_tuns] return the operand rounded to an
    unsigned 32-bit integer when the rounded value is one and a value below
    [2^31] does not round up to [2^31]. *)
Lemma tuns_spec x s z f :
  wf f x -> is_finite f x = true -> nod (fcsr s) = false ->
  (0 <= val f x < IZR (2 ^ 32))%R -> IntRnd (rm (fcsr s)) (val f x) z -> z < 2 ^ 32 ->
  ((val f x < IZR (2 ^ 31))%R -> z < 2 ^ 31) ->
  exists i, (i = true <-> IZR z <> val f x) /\
    ieee754_tuns f x s =
      Some (z, raise (flags i false false) (clear s)).
Proof.
  destruct f; intros; eapply tuns_via_spec; eauto; try (cbn; lia); intros.
  - now apply sp_tint_spec.
  - now apply dp_tint_spec.
Qed.

(** Likewise for [ieee754sp_tulong] and [ieee754dp_tulong] and 64 bits. *)
Lemma tulong_spec x s z f :
  wf f x -> is_finite f x = true -> nod (fcsr s) = false ->
  (0 <= val f x < IZR (2 ^ 64))%R -> IntRnd (rm (fcsr s)) (val f x) z -> z < 2 ^ 64 ->
  ((val f x < IZR (2 ^ 63))%R -> z < 2 ^ 63) ->
  exists i, (i = true <-> IZR z <> val f x) /\
    ieee754_tulong f x s =
      Some (z, raise (flags i false false) (clear s)).
Proof.
  destruct f; intros; eapply tuns_via_spec; eauto; try (cbn; lia); intros.
  - now apply sp_tlong_spec.
  - now apply dp_tlong_spec.
Qed.

(** the conversions to [unsigned] and [unsigned long] return the operand
    rounded in the current mode, inexact exactly when rounding changed it, for
    every operand whose rounded value is in range and that does not round
    across the high bit ([2^31], [2^63]). *)
Theorem ieee754_unsigned_correct f x s z :
  wf f x -> is_finite f x = true -> nod (fcsr s) = false ->
  (0 <= val f x)%R -> IntRnd (rm (fcsr s)) (val f x) z ->
  ((val f x < IZR (2 ^ 32))%R -> z < 2 ^ 32 -> ((val f x < IZR (2 ^ 31))%R -> z < 2 ^ 31) ->
   exists i, (i = true <-> IZR z <> val f x) /\
     ieee754_tuns f x s = Some (z, raise (flags i false false) (clear s))) /\
  ((val f x < IZR (2 ^ 64))%R -> z < 2 ^ 64 -> ((val f x < IZR (2 ^ 63))%R -> z < 2 ^ 63) ->
   exists i, (i = true <-> IZR z <> val f x) /\
     ieee754_tulong f x s = Some (z, raise (flags i false false) (clear s))).
Proof. intros W F Hn H0 Hz; split; intros; [apply tuns_spec|apply tulong_spec]; auto. Qed.

Lemma ieee754_unsigned_correct_witness :
  exists i, (i = true <-> IZR 2 <> val SP (mkfp false 128 0)) /\
    ieee754_tuns SP (mkfp false 128 0) s0 = Some (2, raise (flags i false false) (clear s0)).
Proof.
  assert (V : val SP (mkfp false 128 0) = IZR 2) 
    by (unfold val; cbn [sign bexp mant sgn Z.eqb]; change (128 - EBIAS SP - MBITS SP) with (-22);
        unfold bpow, powerRZ; change (Pos.to_nat 22) with 22%nat; cbn; lra).
  destruct (ieee754_unsigned_correct SP (mkfp false 128 0) s0 2) as [T _]; try closed; rewrite ?V; try lra.
  - apply IntRnd_self.
  - rewrite V in T; apply T; [apply IZR_lt|..]; lia.
Defined.

(** [2^31 - 1/4] rounds to [2^31], which an unsigned integer holds, but
    [ieee754dp_tuns] signals invalid operation and returns [2^31 - 1]. *)
Theorem dp_tuns_low_half_fails :
  let x := mkfp false (30 + 1023) (2 ^ 52 - 2 ^ 20) in
  let s := mkst (csr_of 0) [] in
  val DP x = (IZR (2 ^ 31) - / 4)%R /\ IntRnd RN (val DP x) (2 ^ 31) /\
  option_map fst (ieee754dp_tuns x s) = Some (2 ^ 31 - 1) /\
  option_map (fun r => cx (fcsr (snd r))) (ieee754dp_tuns x s) = Some INVALID_OPERATION.
Proof.
  assert (V : val DP (mkfp false (30 + 1023) (2 ^ 52 - 2 ^ 20)) = (IZR (2 ^ 31) - / 4)%R).
  { unfold val; cbn [sign bexp mant sgn MBITS EBIAS]; change (30 + 1023 =? 0) with false; cbv iota.
    change (30 + 1023 - 1023 - 52) with (-22); unfold bpow, powerRZ.
    change (Pos.to_nat 22) with 22%nat; cbn [pow].
    replace (2 ^ 52 + (2 ^ 52 - 2 ^ 20)) with 9007199253692416 by reflexivity.
    replace (2 ^ 31) with 2147483648 by reflexivity; lra. }
  cbv zeta; rewrite V; repeat split.
  - unfold Rabs; destruct Rcase_abs; lra.
Qed.
