(* ===== verification/Special.v ===== *)
(** * Special operands of the arithmetic

    NaNs, infinities and division by zero, for the four operations at once;
    and totality: every operation returns on every pair of data.  The
    finite results are the subject of [AddSub], [Mul] and [Div]. *)

From S2P Require Import Prelude Rounding Ieee754 Format AddSub Mul Div FromInt ToInt Cmp Simple.

Inductive binop := Add | Sub | Mul | Div.

Definition run_binop (f : fmt) (o : binop) : ieee754 -> ieee754 -> M ieee754 :=
  match o with
  | Add => ieee754_add f | Sub => ieee754_sub f | Mul => ieee754_mul f | Div => ieee754_div f
  end.
Definition opname (o : binop) : string :=
  match o with Add => "add" | Sub => "sub" | Mul => "mul" | Div => "div" end.

Definition is_snan (f : fmt) (x : ieee754) : bool := cls_eqb (ieee754_class f x) SNAN.
Definition is_inf (f : fmt) (x : ieee754) : bool := cls_eqb (ieee754_class f x) INF.
Definition is_zero (f : fmt) (x : ieee754) : bool := cls_eqb (ieee754_class f x) ZERO.

(** The operations IEEE 754 makes invalid on numbers and infinities:
    [inf - inf], [0 * inf], [0 / 0] and [inf / inf]. *)
Definition invalid_op (f : fmt) (o : binop) (x y : ieee754) : bool :=
  match o with
  | Add => is_inf f x && is_inf f y && xorb (sign x) (sign y)
  | Sub => is_inf f x && is_inf f y && Bool.eqb (sign x) (sign y)
  | Mul => is_inf f x && is_zero f y || is_zero f x && is_inf f y
  | Div => is_inf f x && is_inf f y || is_zero f x && is_zero f y
  end.

(** The result with an infinite operand: an infinity of the sign of the
    operation, or zero when dividing by one. *)
Definition inf_result (f : fmt) (o : binop) (x y : ieee754) : ieee754 :=
  match o with
  | Add => ieee754_inf f (if is_inf f x then sign x else sign y)
  | Sub => ieee754_inf f (if is_inf f x then sign x else negb (sign y))
  | Mul => ieee754_inf f (xorb (sign x) (sign y))
  | Div => (if is_inf f x then ieee754_inf f else ieee754_zero f) (xorb (sign x) (sign y))
  end.

(** ** Facts about the special data *)

Lemma indef_facts f : ieee754_issnan f (ieee754_indef f) = false /\ ieee754_class f (ieee754_indef f) = QNAN /\
  wf f (ieee754_indef f).
Proof. destruct f; repeat split; reflexivity || (cbn; lia). Qed.

Lemma nanxcpt_indef f op s : ieee754_nanxcpt f (ieee754_indef f) op s = Some (ieee754_indef f, s).
Proof. unfold ieee754_nanxcpt; rewrite (proj1 (indef_facts f)); reflexivity. Qed.

Lemma explode_sign f x : ks (EXPLODE f x) = sign x.
Proof.
  unfold EXPLODE; repeat (destruct (_ =? _); try reflexivity); destruct (tst _); reflexivity.
Qed.

Lemma inf_datum f x : kc (EXPLODE f x) = INF -> x = ieee754_inf f (sign x).
Proof.
  unfold EXPLODE; rewrite inf_eq; destruct x as [s e m]; cbn [sign bexp mant].
  destruct (Z.eqb_spec e (EMAX f + 1 + EBIAS f)) as [->|].
  - destruct (Z.eqb_spec m 0) as [->|]; [reflexivity|destruct (tst _); discriminate].
  - destruct (_ =? _); [destruct (tst _)|]; discriminate.
Qed.

Lemma wf_inf f sn : wf f (ieee754_inf f sn).
Proof. rewrite inf_eq; mbits f; split; cbn [bexp mant]; lia. Qed.

Lemma isnan_class f x :
  ieee754_isnan f x = cls_eqb (ieee754_class f x) SNAN || cls_eqb (ieee754_class f x) QNAN.
Proof. unfold ieee754_isnan, cls_eqb; destruct (ieee754_class f x); reflexivity. Qed.

Lemma finite_class f x :
  is_finite f x = negb (ieee754_isnan f x) && negb (is_inf f x).
Proof.
  unfold is_finite, ieee754_isnan, is_inf, ieee754_class, EXPLODE.
  destruct (_ =? _); [destruct (_ =? _); [|destruct (tst _)]|destruct (_ =? _); [destruct (tst _)|]]; reflexivity.
Qed.

(** Enter any of the four operations and split on the classes. *)
Ltac enter_binop o Hn :=
  destruct o; cbn [run_binop opname];
  unfold ieee754_add, ieee754_sub, ieee754_mul, ieee754_div; enter Hn.

Lemma xorb_eqb a b : xorb a b = negb (Bool.eqb a b).
Proof. destruct a, b; reflexivity. Qed.

(** An operation with a NaN operand returns a quiet NaN: one of the
    operands, or the default NaN when an operand is signalling; invalid
    operation is raised exactly in the latter case. *)
Lemma binop_nan_spec f o x y s :
  nod (fcsr s) = false -> ieee754_isnan f x || ieee754_isnan f y = true ->
  let snan := is_snan f x || is_snan f y in
  let r := if snan then ieee754_indef f
           else if cls_eqb (ieee754_class f x) QNAN then x else y in
  run_binop f o x y s = Some (r, if snan then raise INVALID_OPERATION (clear s) else clear s) /\
  ieee754_class f r = QNAN.
Proof.
  intros Hn N; pose proof (indef_facts f) as (_ & Iq & _); rewrite !isnan_class in N.
  unfold is_snan; cbv zeta; split.
  - enter_binop o Hn; fold (ieee754_class f x) (ieee754_class f y) in *;
      destruct (ieee754_class f x), (ieee754_class f y); try discriminate N; cbn [cls_eqb cls_code Z.eqb Pos.eqb orb];
      try reflexivity; unfold SETCX; autorewrite with st; apply nanxcpt_indef.
  - destruct (ieee754_class f x) eqn:Cx, (ieee754_class f y) eqn:Cy; try discriminate N; assumption.
Qed.

(** The invalid operations on numbers and infinities return the default
    NaN and raise invalid operation, reported when enabled. *)
Lemma binop_invalid_spec f o x y s :
  nod (fcsr s) = false -> ieee754_isnan f x || ieee754_isnan f y = false -> invalid_op f o x y = true ->
  run_binop f o x y s =
    Some (ieee754_indef f, finish f (opname o) (raise INVALID_OPERATION (clear s))).
Proof.
  intros Hn N I; rewrite !isnan_class in N; unfold invalid_op, is_inf, is_zero in I.
  enter_binop o Hn; fold (ieee754_class f x) (ieee754_class f y) in *; rewrite ?explode_sign;
    rewrite ?xorb_eqb in I; destruct (ieee754_class f x), (ieee754_class f y); try discriminate;
    cbn [cls_eqb cls_code Z.eqb Pos.eqb orb andb] in *; rewrite ?I; try (apply negb_true_iff in I; rewrite I);
    cbn [negb]; unfold SETCX; autorewrite with st; apply run_xcpt.
Qed.

(** The remaining operations with an infinite operand are exact and raise
    nothing. *)
Lemma binop_infinite_spec f o x y s :
  nod (fcsr s) = false -> ieee754_isnan f x || ieee754_isnan f y = false ->
  is_inf f x || is_inf f y = true -> invalid_op f o x y = false ->
  run_binop f o x y s = Some (inf_result f o x y, clear s).
Proof.
  intros Hn N J I; rewrite !isnan_class in N; unfold invalid_op, inf_result, is_inf, is_zero in *.
  pose proof (inf_datum f x) as Ix; pose proof (inf_datum f y) as Iy.
  enter_binop o Hn; fold (ieee754_class f x) (ieee754_class f y) in *; rewrite ?explode_sign;
    rewrite ?xorb_eqb in *; destruct (ieee754_class f x), (ieee754_class f y); try discriminate;
    cbn [cls_eqb cls_code Z.eqb Pos.eqb orb andb] in *; rewrite ?I; try (apply negb_false_iff in I; rewrite I);
    cbn [negb]; autorewrite with st; try rewrite <- Ix by reflexivity; try rewrite <- Iy by reflexivity; reflexivity.
Qed.

(** Dividing a nonzero finite number by zero returns an infinity of the
    sign of the quotient and raises divide-by-zero, reported when enabled. *)
Lemma div_by_zero_spec f x y s :
  nod (fcsr s) = false -> is_finite f x = true -> is_zero f x = false -> is_zero f y = true ->
  ieee754_div f x y s =
    Some (ieee754_inf f (xorb (sign x) (sign y)), finish f "div" (raise ZERO_DIVIDE (clear s))).
Proof.
  intros Hn F Nz Zy; rewrite finite_class, isnan_class in F; unfold is_inf, is_zero in *.
  unfold ieee754_div; enter Hn; fold (ieee754_class f x) (ieee754_class f y); rewrite !explode_sign.
  destruct (ieee754_class f y); try discriminate Zy; destruct (ieee754_class f x); try discriminate;
    unfold SETCX; autorewrite with st; apply run_xcpt.
Qed.

(** C33: every addition, subtraction, multiplication and division with a NaN
    operand returns a quiet NaN: an operand,
    or the default NaN when one of the operands is signalling; invalid
    operation is raised exactly in the latter case. *)
Theorem binop_nan f o x y s :
  nod (fcsr s) = false -> ieee754_isnan f x || ieee754_isnan f y = true ->
  let snan := is_snan f x || is_snan f y in
  let r := if snan then ieee754_indef f
           else if cls_eqb (ieee754_class f x) QNAN then x else y in
  run_binop f o x y s = Some (r, if snan then raise INVALID_OPERATION (clear s) else clear s) /\
  ieee754_class f r = QNAN.
Proof. exact (binop_nan_spec f o x y s). Qed.

Lemma binop_nan_witness :
  run_binop DP Mul (one_half DP) (mkfp true 2047 (2 ^ 51)) s0 =
    Some (ieee754_indef DP, raise INVALID_OPERATION (clear s0)).
Proof. apply (binop_nan DP Mul (one_half DP) (mkfp true 2047 (2 ^ 51)) s0); closed. Defined.

(** C34: on numbers and infinities, the invalid operations ([inf - inf],
    [0 * inf], [0 / 0], [inf / inf]) return the default NaN with invalid
    operation; a nonzero finite number over zero is an infinity with
    divide-by-zero (each reported when enabled); every other operation with
    an infinite operand is exact. *)
Theorem binop_infinities f o x y s :
  nod (fcsr s) = false -> ieee754_isnan f x || ieee754_isnan f y = false ->
  (invalid_op f o x y = true ->
     run_binop f o x y s =
       Some (ieee754_indef f, finish f (opname o) (raise INVALID_OPERATION (clear s)))) /\
  (is_inf f x || is_inf f y = true -> invalid_op f o x y = false ->
     run_binop f o x y s = Some (inf_result f o x y, clear s)) /\
  (o = Div -> is_finite f x = true -> is_zero f x = false -> is_zero f y = true ->
     run_binop f o x y s =
       Some (ieee754_inf f (xorb (sign x) (sign y)), finish f "div" (raise ZERO_DIVIDE (clear s)))).
Proof.
  intros Hn N; split; [|split]; intros.
  - now apply binop_invalid_spec.
  - now apply binop_infinite_spec.
  - subst o; now apply div_by_zero_spec.
Qed.

Lemma binop_infinities_witness :
  run_binop SP Sub (ieee754_inf SP true) (ieee754_inf SP true) s0 =
    Some (ieee754_indef SP, finish SP "sub" (raise INVALID_OPERATION (clear s0))).
Proof. apply (binop_infinities SP Sub (ieee754_inf SP true) (ieee754_inf SP true) s0); closed. Defined.

(** ** Totality *)

(** What every operation leaves alone: the rounding mode, the enable mask and
    the flush control. *)
Definition same_control (s s' : fpst) : Prop :=
  rm (fcsr s') = rm (fcsr s) /\ mx (fcsr s') = mx (fcsr s) /\ nod (fcsr s') = nod (fcsr s).

Lemma same_control_finish f op fl s : same_control s (finish f op (raise fl (clear s))).
Proof. unfold finish; destruct (tstx _); repeat split. Qed.

Lemma delivers_total f op s v out : Delivers f op s v out ->
  exists r s', out = Some (r, s') /\ wf f r /\ same_control s s'.
Proof.
  intros (x & i & u & o & -> & FR); exists x, (finish f op (raise (flags i u o) (clear s))).
  split; [reflexivity|split; [apply FR|apply same_control_finish]].
Qed.

Lemma zero_class f x : wf f x -> is_finite f x = true -> val f x = 0%R -> is_zero f x = true.
Proof.
  intros W F V; unfold is_zero; destruct (ieee754_class f x) eqn:C; try reflexivity;
    exfalso; apply (val_nonzero f x W F); congruence.
Qed.

Lemma binop_total f o x y s :
  wf f x -> wf f y -> nod (fcsr s) = false ->
  exists r s', run_binop f o x y s = Some (r, s') /\ wf f r /\ same_control s s'.
Proof.
  intros Wx Wy Hn; pose proof (indef_facts f) as (_ & _ & Wi).
  assert (Sc : same_control s (clear s)) by (repeat split).
  destruct (ieee754_isnan f x || ieee754_isnan f y) eqn:N.
  { destruct (binop_nan_spec f o x y s Hn N) as [E _]; rewrite E; eexists _, _; split; [reflexivity|].
    split; repeat match goal with |- context [if ?b then _ else _] => destruct b end; auto; repeat split. }
  destruct (invalid_op f o x y) eqn:I.
  { rewrite (binop_invalid_spec f o x y s Hn N I); eexists _, _; split; [reflexivity|].
    split; [auto|apply same_control_finish]. }
  destruct (is_inf f x || is_inf f y) eqn:J.
  { rewrite (binop_infinite_spec f o x y s Hn N J I); eexists _, _; split; [reflexivity|split; [|auto]].
    unfold inf_result; destruct o, (is_inf f x); auto using wf_inf; apply zero_facts. }
  apply orb_false_elim in N, J; destruct N as [Nx Ny], J as [Jx Jy].
  assert (Fx : is_finite f x = true) by (rewrite finite_class, Nx, Jx; reflexivity).
  assert (Fy : is_finite f y = true) by (rewrite finite_class, Ny, Jy; reflexivity).
  destruct o; cbn [run_binop].
  - destruct (add_spec f x y s Wx Wy Fx Fy Hn) as [D _]; exact (delivers_total _ _ _ _ _ D).
  - destruct (sub_spec f x y s Wx Wy Fx Fy Hn) as [D _]; exact (delivers_total _ _ _ _ _ D).
  - destruct (mul_spec f x y s Wx Wy Fx Fy Hn) as [D _]; exact (delivers_total _ _ _ _ _ D).
  - destruct (is_zero f y) eqn:Zy.
    + destruct (is_zero f x) eqn:Zx; [unfold invalid_op in I; rewrite Zx, Zy, orb_true_r in I; discriminate|].
      rewrite div_by_zero_spec by auto; eexists _, _; split; [reflexivity|].
      split; [apply wf_inf|apply same_control_finish].
    + destruct (div_spec f x y s Wx Wy Fx Fy) as [D _]; auto; [|exact (delivers_total _ _ _ _ _ D)].
      intros V; rewrite (zero_class f y Wy Fy V) in Zy; discriminate.
Qed.
