(* ===== verification/Sqrt.v ===== *)
(** * Square root

    Models [sp_sqrt.c] (bit by bit) and [dp_sqrt.c] (Newton steps in the
    emulated arithmetic itself). *)

From Stdlib Require Import R_sqrt.
From S2P Require Import Prelude Rounding Ieee754 Format AddSub Mul Div FromInt ToInt Cmp Simple Special.

(** ** Single precision: the code *)

(** [for (i = 0; (ix & 0x00800000) == 0; i++) ix <<= 1]. *)
Definition sqrt_norm (ix : Z) : option (Z * Z) :=
  while 32 (fun '(ix, i) => Z.land ix 0x00800000 =? 0)
           (fun '(ix, i) => (swrap 32 (Z.shiftl ix 1), i + 1)) (ix, 0).

Record sqst := mksq { q_ix : Z; q_s : Z; q_q : Z; q_r : Z }.

(** The digit recurrence; the variables are [int], the moving bit unsigned. *)
Definition sqrt_body (v : sqst) : sqst :=
  let t := swrap 32 (q_s v + q_r v) in
  let '(s, ix, q) :=
    if t <=? q_ix v then (swrap 32 (t + q_r v), swrap 32 (q_ix v - t), swrap 32 (q_q v + q_r v))
    else (q_s v, q_ix v, q_q v) in
  mksq (swrap 32 (ix + ix)) s q (Z.shiftr (q_r v) 1).

Definition sqrt_loop (v : sqst) : option sqst := while 32 (fun v => tst (q_r v)) sqrt_body v.

Definition sqrt_round (r : rmode) (q : Z) : Z :=
  match r with
  | RU => swrap 32 (q + 2)
  | RN => swrap 32 (q + Z.land q 1)
  | _ => q
  end.

(** From the bits of a positive finite operand to the bits of the root. *)
Definition sp_sqrt_positive (x : ieee754) : M ieee754 :=
  let ix := swrap 32 (bits SP x) in
  let m := Z.shiftr ix 23 in
  '(ix, m) <- lift (if m =? 0 then
                      match sqrt_norm ix with Some (ix, i) => Some (ix, m - (i - 1)) | None => None end
                    else Some (ix, m)) ;;
  let m := m - 127 in
  let ix := Z.lor (Z.land ix 0x007fffff) 0x00800000 in
  let ix := if tst (Z.land m 1) then swrap 32 (ix + ix) else ix in
  let m := Z.shiftr m 1 in
  let ix := swrap 32 (ix + ix) in
  v <- lift (sqrt_loop (mksq ix 0 0 0x01000000)) ;;
  r <- gets (fun s => rm (fcsr s)) ;;
  let inexact := tst (q_ix v) in
  when inexact (SETCX INEXACT) ;;;
  let q := if inexact then sqrt_round r (q_q v) else q_q v in
  let ix := swrap 32 (Z.shiftr q 1 + 0x3f000000) in
  let ix := swrap 32 (ix + Z.shiftl m 23) in
  ret (of_bits SP (wrap 32 ix)).

Definition ieee754sp_sqrt (x : ieee754) : M ieee754 :=
  let k := EXPLODE SP x in
  CLEARCX ;;;
  '(x, k) <- FLUSH SP x k ;;
  let invalid := SETCX INVALID_OPERATION ;;; ieee754_nanxcpt SP (ieee754_indef SP) "sqrt" in
  match kc k with
  | QNAN => ieee754_nanxcpt SP x "sqrt"
  | SNAN => invalid
  | ZERO => ret x
  | INF => if ks k then invalid else ret x
  | DNORM | NORM => if ks k then invalid else sp_sqrt_positive x
  end.

(** ** Double precision: the code *)

Definition sqrt_table : list Z :=
  [ 0; 1204; 3062; 5746; 9193; 13348; 18162; 23592; 29598; 36145; 43202; 50740; 58733; 67158;
    75992; 85215; 83599; 71378; 60428; 50647; 41945; 34246; 27478; 21581; 16499; 12183; 8588;
    5674; 3403; 1742; 661; 130 ].

Definition with_rm (r : rmode) (c : csr) : csr :=
  mkcsr r (sx c) (mx c) (cx c) (pad1 c) (cond c) (nod c) (pad0 c).
Definition with_sx (v : Z) (c : csr) : csr :=
  mkcsr (rm c) v (mx c) (cx c) (pad1 c) (cond c) (nod c) (pad0 c).
Definition with_mx (v : Z) (c : csr) : csr :=
  mkcsr (rm c) (sx c) v (cx c) (pad1 c) (cond c) (nod c) (pad0 c).
Definition with_cx (v : Z) (c : csr) : csr :=
  mkcsr (rm c) (sx c) (mx c) v (pad1 c) (cond c) (nod c) (pad0 c).

(** Arithmetic on the [bits] view of a double, and on its exponent field. *)
Definition on_bits (g : Z -> Z) (x : ieee754) : ieee754 := of_bits DP (wrap 64 (g (bits DP x))).
Definition add_bexp (n : Z) (x : ieee754) : ieee754 :=
  mkfp (sign x) (wrap (EBITS DP) (bexp x + n)) (mant x).

(** The initial approximation: halve the high word and correct it by table. *)
Definition sqrt_guess (y : ieee754) : ieee754 :=
  on_bits (fun b =>
    let yh := Z.shiftr b 32 in
    let yh := wrap 32 (Z.shiftr yh 1 + 0x1ff80000) in
    let yh := wrap 32 (yh - nth (Z.to_nat (Z.land (Z.shiftr yh 15) 31)) sqrt_table 0) in
    Z.lor (shl 64 yh 32) (Z.land b 0xffffffff)) y.

(** Heron's rule once, then the step that triples the number of good bits. *)
Definition sqrt_refine (x y : ieee754) : M ieee754 :=
  t <- ieee754dp_div x y ;;
  y <- ieee754dp_add y t ;;
  let y := on_bits (fun b => Z.land (wrap 64 (b - 0x0010000600000000)) 0xffffffff00000000) y in
  z <- ieee754dp_mul y y ;;
  let t := add_bexp 1 z in
  t <- ieee754dp_add t z ;;
  d <- ieee754dp_sub x z ;;
  z <- ieee754dp_mul d y ;;
  w <- ieee754dp_add t x ;;
  t <- ieee754dp_div z w ;;
  let t := add_bexp 1 t in
  ieee754dp_add y t.

(** The chopped quotient decides the last bit; returns the sum [y + t] where
    it was needed, the exponent correction and whether the root is inexact. *)
Definition sqrt_twiddle (old : rmode) (x y : ieee754) (scalx : Z) : M (ieee754 * Z * bool) :=
  modify (upd_csr (with_rm RZ)) ;;;
  modify (upd_csr (fun c => with_sx (Z.land (sx c) (Z.lnot INEXACT)) c)) ;;;
  t <- ieee754dp_div x y ;;
  inx <- gets (fun s => tst (Z.land (sx (fcsr s)) INEXACT)) ;;
  if inx || negb (bits DP t =? bits DP y) then
    let t := if negb inx then on_bits (fun b => b - 1) t else t in
    let y := match old with RU => on_bits (fun b => b + 1) y | _ => y end in
    let t := match old with RU | RN => on_bits (fun b => b + 1) t | _ => t end in
    y <- ieee754dp_add y t ;;
    ret (y, wrap 32 (scalx - 1), true)
  else ret (y, scalx, false).

Definition dp_sqrt_positive (k : comp) : M ieee754 :=
  oldcsr <- gets fcsr ;;
  modify (upd_csr (fun c => with_mx (Z.land (mx c) (Z.lnot INEXACT)) c)) ;;;
  modify (upd_csr (fun c => with_sx (Z.land (sx c) (Z.lnot INEXACT)) c)) ;;;
  modify (upd_csr (with_rm RN)) ;;;
  let '(xe, scalx) :=
    if ke k >? 512 then (ke k - 512, 256)
    else if ke k <? -512 then (ke k + 512, wrap 32 (0 - 256))
    else (ke k, 0) in
  let x := build DP false (xe + EBIAS DP) (Z.land (km k) (Z.lnot (HIDDEN_BIT DP))) in
  y <- sqrt_refine x (sqrt_guess x) ;;
  '(y, scalx, inexact) <- sqrt_twiddle (rm oldcsr) x y scalx ;;
  let y := add_bexp scalx y in
  modify (upd_csr (fun _ =>
    if inexact then with_sx (Z.lor (sx oldcsr) INEXACT) (with_cx (Z.lor (cx oldcsr) INEXACT) oldcsr)
    else oldcsr)) ;;;
  ret y.

Definition ieee754dp_sqrt (x : ieee754) : M ieee754 :=
  let k := EXPLODE DP x in
  CLEARCX ;;;
  '(x, k) <- FLUSH DP x k ;;
  let invalid := SETCX INVALID_OPERATION ;;; ieee754_nanxcpt DP (ieee754_indef DP) "sqrt" in
  match kc k with
  | QNAN => ieee754_nanxcpt DP x "sqrt"
  | SNAN => invalid
  | ZERO => ret x
  | INF => if ks k then invalid else ret x
  | DNORM => k <- lift (DNORM_loop DP k) ;; if ks k then invalid else dp_sqrt_positive k
  | NORM => if ks k then invalid else dp_sqrt_positive k
  end.

(** ** The digit recurrence computes an integer square root *)

(** [r = R/2] for the current weight [R = 2^j]; [N - q^2] is the remainder. *)
Definition sqrt_inv (N : Z) (v : sqst) : Prop :=
  exists j, 0 <= j <= 25 /\ q_r v = 2 ^ j / 2 /\ q_s v = 2 * q_q v /\
    2 ^ j * q_ix v = 2 * (N - q_q v * q_q v) /\ 0 <= q_q v /\
    q_q v * q_q v <= N < (q_q v + 2 ^ j) * (q_q v + 2 ^ j).

Lemma sqrt_bounds N q ix R :
  N < 2 ^ 50 -> 0 <= q -> q * q <= N < (q + R) * (q + R) -> 0 < R <= 2 ^ 25 ->
  R * ix = 2 * (N - q * q) -> 0 <= q < 2 ^ 25 /\ 0 <= ix < 2 ^ 28.
Proof. intros HN Hq [H1 H2] HR Hx; assert (q < 2 ^ 25) by nia; split; [lia|split; nia]. Qed.

Lemma sqrt_body_step N v :
  N < 2 ^ 50 -> sqrt_inv N v -> tst (q_r v) = true ->
  sqrt_inv N (sqrt_body v) /\
  0 <= Z.log2 (2 * q_r (sqrt_body v) + 1) < Z.log2 (2 * q_r v + 1).
Proof.
  intros HN (j & Hj & Hr & Hs & Hx & Hq & Hb) Hc.
  assert (J : 1 <= j).
  { destruct (Z.eq_dec j 0) as [->|]; [|lia]; rewrite Hr in Hc; discriminate. }
  assert (P : 2 ^ j = 2 * 2 ^ (j - 1)) by (apply (pow2_split 1); lia).
  pose proof (pow2_pos (j - 1) ltac:(lia)) as Pj.
  assert (Pu : 2 ^ (j - 1) <= 2 ^ 24) by (apply pow2_le; lia).
  rewrite P in *; set (r := 2 ^ (j - 1)) in *.
  replace (2 * r / 2) with r in Hr by (rewrite Z.mul_comm, Z.div_mul; lia).
  destruct (sqrt_bounds N (q_q v) (q_ix v) (2 * r)) as [Bq Bx]; auto; try lia.
  assert (Hr2 : Z.shiftr r 1 = r / 2) by (apply shiftr_div; lia).
  assert (Lg : 0 <= Z.log2 (2 * (r / 2) + 1) < Z.log2 (2 * r + 1)).
  { split; [apply Z.log2_nonneg|]; rewrite (Z.add_comm (2 * r)).
    destruct (Z.eq_dec j 1) as [->|]; [reflexivity|].
    replace (r / 2) with (2 ^ (j - 2)).
    - unfold r; replace (2 * 2 ^ (j - 2)) with (2 ^ (j - 1)) by (apply (pow2_split 1); lia).
      replace (2 * 2 ^ (j - 1)) with (2 ^ j) by lia.
      rewrite (Z.log2_unique (2 ^ (j - 1) + 1) (j - 1)), (Z.log2_unique (1 + 2 ^ j) j); [lia|lia| |lia|];
        rewrite Z.pow_succ_r by lia; pose proof (pow2_lt 0 j); pose proof (pow2_lt 0 (j - 1)); lia.
    - unfold r; replace (j - 1) with (j - 2 + 1) by lia; rewrite Z.pow_add_r, Z.div_mul by lia; reflexivity. }
  unfold sqrt_body; rewrite Hr, Hs; rewrite !swrap_small by lia.
  destruct (Z.leb_spec (2 * q_q v + r) (q_ix v)) as [L|L]; cbn [q_r q_ix q_s q_q];
    rewrite Hr2; (split; [|exact Lg]); exists (j - 1); fold r; cbn [q_r q_ix q_s q_q];
    (split; [lia|split; [reflexivity|]]); rewrite !swrap_small by lia; repeat split; try lia; nia.
Qed.

Lemma sqrt_loop_spec ix0 :
  2 ^ 24 <= ix0 < 2 ^ 26 ->
  exists v, sqrt_loop (mksq ix0 0 0 (2 ^ 24)) = Some v /\
    2 ^ 24 <= q_q v < 2 ^ 25 /\ q_q v * q_q v <= 2 ^ 24 * ix0 < (q_q v + 1) * (q_q v + 1) /\
    q_ix v = 2 * (2 ^ 24 * ix0 - q_q v * q_q v).
Proof.
  intros Hx; set (N := 2 ^ 24 * ix0); assert (HN : 2 ^ 48 <= N < 2 ^ 50) by lia.
  destruct (while_rule (fun v => tst (q_r v)) sqrt_body (sqrt_inv N) (fun v => Z.log2 (2 * q_r v + 1)) 32
    (mksq ix0 0 0 (2 ^ 24))) as (v & E & (j & Hj & Hr & Hs & Hv & Hq & Hb) & Hc).
  - exists 25; cbn [q_r q_ix q_s q_q]; repeat split; try lia.
  - cbn; lia.
  - intros v Hi Hc; apply sqrt_body_step; auto; lia.
  - exists v; split; [exact E|].
    assert (j = 0) as ->.
    { destruct (Z.eq_dec j 0); auto; exfalso.
      replace j with (1 + (j - 1)) in Hr by lia; rewrite Z.pow_add_r, Z.mul_comm, Z.div_mul in Hr by lia.
      pose proof (pow2_pos (j - 1)); unfold tst in Hc; zbool; lia. }
    change (2 ^ 0) with 1 in *; split; [nia|split; [lia|lia]].
Qed.

(** The root with its remainder is a sticky integer for the real root. *)
Lemma sqrt_sticky N q : 0 <= q -> q * q <= N < (q + 1) * (q + 1) ->
  Sticky 2 (4 * sqrt (IZR N)) (4 * q + b2z (tst (N - q * q))).
Proof.
  intros Hq HN; assert (N0 : (0 <= IZR N)%R) by (apply IZR_le; nia).
  pose proof (sqrt_pos (IZR N)) as Sp; pose proof (sqrt_sqrt (IZR N) N0) as Ss.
  set (w := sqrt (IZR N)) in *.
  assert (Lo : forall k, 0 <= k -> ((IZR k <= w)%R <-> k * k <= N)).
  { intros k Hk; apply IZR_le in Hk as Hk'; split; intros H.
    - apply le_IZR; rewrite mult_IZR; nra.
    - apply IZR_le in H; rewrite mult_IZR in H; nra. }
  assert (Hi : forall k, 0 <= k -> ((w <= IZR k)%R <-> N <= k * k)).
  { intros k Hk; apply IZR_le in Hk as Hk'; split; intros H.
    - apply le_IZR; rewrite mult_IZR; nra.
    - apply IZR_le in H; rewrite mult_IZR in H; nra. }
  intros k; change (2 ^ 2) with 4; rewrite mult_IZR.
  assert (B : b2z (tst (N - q * q)) = if N =? q * q then 0 else 1)
    by (unfold tst; destruct (Z.eqb_spec (N - q * q) 0), (Z.eqb_spec N (q * q)); cbn; lia).
  rewrite B; destruct (Z.le_gt_cases 0 k) as [K|K].
  - specialize (Lo k K); specialize (Hi k K).
    assert (L1 : k * k <= N <-> k <= q) by (split; intros; nia).
    assert (L2 : N <= k * k <-> (if N =? q * q then q else q + 1) <= k)
      by (destruct (Z.eqb_spec N (q * q)); split; intros; nia).
    split; [split; intros|split; intros].
    + assert (k <= q) by (apply L1, Lo; lra); destruct (_ =? _); lia.
    + assert (IZR k <= w)%R by (apply Lo, L1; destruct (_ =? _); lia); lra.
    + assert ((if N =? q * q then q else q + 1) <= k) by (apply L2, Hi; lra); destruct (_ =? _); lia.
    + assert (w <= IZR k)%R by (apply Hi, L2; destruct (_ =? _); lia); lra.
  - apply IZR_lt in K as K'; split; split; intros; try lra; try (destruct (_ =? _); lia).
Qed.

(** The packing at the end of the routine. *)
Lemma sqrt_pack Q h :
  2 ^ 23 <= Q <= 2 ^ 24 -> -75 <= h <= 63 ->
  let x := of_bits SP (wrap 32 (swrap 32 (swrap 32 (Q + 0x3f000000) + Z.shiftl h 23))) in
  wf SP x /\ is_finite SP x = true /\ sign x = false /\ val SP x = (IZR Q * bpow (h - 23))%R.
Proof.
  intros HQ Hh; cbv zeta; rewrite Z.shiftl_mul_pow2 by lia.
  set (b := (126 + h) * 2 ^ 23 + Q).
  assert (Hb : 0 <= b < 2 ^ 31) by (unfold b; lia).
  assert (E : wrap 32 (swrap 32 (swrap 32 (Q + 0x3f000000) + h * 2 ^ 23)) = b).
  { rewrite (swrap_small 32 (Q + _)) by lia; rewrite swrap_small by (unfold b in Hb; lia).
    rewrite wrap_small by (unfold b in *; lia); unfold b; lia. }
  rewrite E; unfold of_bits; cbn [WBITS MBITS EBITS].
  assert (T : Z.testbit b (32 - 1) = false)
    by (rewrite testbit_top by (cbn in *; lia); apply Z.leb_gt; cbn in *; lia).
  rewrite T; destruct (Z.eq_dec Q (2 ^ 24)) as [->|].
  - replace ((b / 2 ^ 23) mod 2 ^ 8) with (h + 1 + EBIAS SP)
      by (unfold b; cbn [EBIAS]; Z.div_mod_to_equations; lia).
    replace (b mod 2 ^ 23) with 0 by (unfold b; Z.div_mod_to_equations; lia).
    destruct (normal_facts SP false (h + 1) 0) as (W & F & V); [cbn; lia..|].
    split; [exact W|split; [exact F|split; [reflexivity|rewrite V]]].
    replace (h + 1 - MBITS SP) with (h - 23 + 1) by (cbn [MBITS]; lia); rewrite bpow_shift by lia.
    cbn [sgn]; rewrite Rmult_1_l; reflexivity.
  - replace ((b / 2 ^ 23) mod 2 ^ 8) with (h + EBIAS SP)
      by (unfold b; cbn [EBIAS]; Z.div_mod_to_equations; lia).
    replace (b mod 2 ^ 23) with (Q - 2 ^ 23) by (unfold b; Z.div_mod_to_equations; lia).
    destruct (normal_facts SP false h (Q - 2 ^ 23)) as (W & F & V); [cbn in *; lia..|].
    split; [exact W|split; [exact F|split; [reflexivity|rewrite V]]].
    cbn [sgn MBITS]; rewrite Rmult_1_l; do 2 f_equal; lia.
Qed.

(** The normalisation of a subnormal operand. *)
Lemma sqrt_norm_spec m :
  0 < m < 2 ^ 23 ->
  exists i, 0 <= i <= 23 /\ sqrt_norm m = Some (m * 2 ^ i, i) /\ 2 ^ 23 <= m * 2 ^ i < 2 ^ 24.
Proof.
  intros Hm; set (I := fun t : Z * Z => 0 <= snd t /\ fst t = m * 2 ^ snd t /\ m * 2 ^ snd t < 2 ^ 24).
  assert (Bit : forall a, 0 <= a < 2 ^ 24 -> (Z.land a 0x00800000 =? 0) = (a <? 2 ^ 23)).
  { intros a Ha; pose proof (tst_land_bit a 23 ltac:(lia)) as T.
    rewrite testbit_top in T by lia; unfold tst in T; change (2 ^ 23) with 0x00800000 in T.
    rewrite <- (negb_involutive (_ =? 0)), T, <- Z.ltb_antisym; reflexivity. }
  destruct (while_rule (fun '(ix, _) => Z.land ix 0x00800000 =? 0)
    (fun '(ix, i) => (swrap 32 (Z.shiftl ix 1), i + 1)) I (fun t => 24 - Z.log2 (fst t)) 32 (m, 0))
    as ([a i] & E & (Hi & Ha & Hb) & Hc).
  - unfold I; cbn [fst snd]; lia.
  - cbn [fst]; pose proof (Z.log2_nonneg m); lia.
  - intros [a i] (Hi & Ha & Hb) Hc; cbn [fst snd] in *; subst a; pose proof (pow2_pos i Hi).
    assert (Pm : 0 < m * 2 ^ i) by nia.
    rewrite Bit in Hc by lia; zbool; rewrite Z.shiftl_mul_pow2 by lia; change (2 ^ 1) with 2.
    rewrite swrap_small by lia; unfold I; cbn [fst snd]; rewrite Z.pow_add_r by lia; split; [lia|].
    rewrite (Z.mul_comm _ 2), Z.log2_double by lia.
    assert (Z.log2 (m * 2 ^ i) < 23) by (apply Z.log2_lt_pow2; lia); lia.
  - cbn [fst snd] in *; subst a; pose proof (pow2_pos i Hi); rewrite Bit in Hc by nia; zbool.
    exists i; split; [|split; [exact E|lia]].
    assert (i < 24); [|lia]; apply Z.pow_lt_mono_r_iff with 2; [lia|lia|nia].
Qed.

Lemma sp_normalise x :
  wf SP x -> is_finite SP x = true -> sign x = false -> 0 < magnitude SP x ->
  let ix := swrap 32 (bits SP x) in
  let m := Z.shiftr ix 23 in
  exists ix' m', (if m =? 0 then
                    match sqrt_norm ix with Some (ix, i) => Some (ix, m - (i - 1)) | None => None end
                  else Some (ix, m)) = Some (ix', m') /\
    let M := Z.lor (Z.land ix' 0x007fffff) 0x00800000 in
    2 ^ 23 <= M < 2 ^ 24 /\ -149 <= m' - 127 <= 127 /\
    val SP x = (IZR M * bpow (m' - 127 - 23))%R.
Proof.
  intros W F S Hp; pose proof (magnitude_range SP x W) as R; destruct W as [Wb Wm].
  unfold bits; rewrite S; cbn [b2z]; rewrite Z.mul_0_l, Z.add_0_l; fold (magnitude SP x).
  cbn [WBITS] in R; rewrite swrap_small, shiftr_div by lia; cbv zeta.
  unfold is_finite in F; unfold magnitude, val in *; rewrite S; cbn [MBITS EBIAS EMAX EBITS sgn] in *; zbool.
  replace ((bexp x * 2 ^ 23 + mant x) / 2 ^ 23) with (bexp x) by (Z.div_mod_to_equations; lia).
  assert (Mk : forall a, 2 ^ 23 <= a mod 2 ^ 23 + 2 ^ 23 < 2 ^ 24 /\
                 Z.lor (Z.land a 0x007fffff) 0x00800000 = a mod 2 ^ 23 + 2 ^ 23).
  { intros a; pose proof (Z.mod_pos_bound a (2 ^ 23) ltac:(lia)).
    split; [lia|]; change 0x007fffff with (2 ^ 23 - 1); rewrite land_mask by lia.
    apply (lor_bit_add _ 23); lia. }
  destruct (Z.eqb_spec (bexp x) 0) as [Z0|Z0].
  - rewrite Z0, Z.add_0_l in *; destruct (sqrt_norm_spec (mant x) ltac:(lia)) as (i & Hi & -> & Hr).
    eexists _, _; split; [reflexivity|]; destruct (Mk (mant x * 2 ^ i)) as [M1 M2]; cbv zeta; rewrite M2.
    replace ((mant x * 2 ^ i) mod 2 ^ 23 + 2 ^ 23) with (mant x * 2 ^ i) in * by (Z.div_mod_to_equations; lia).
    split; [lia|split; [lia|]]; rewrite Rmult_1_l, <- bpow_shift by lia; do 2 f_equal; cbn; lia.
  - eexists _, _; split; [reflexivity|]; destruct (Mk (bexp x * 2 ^ 23 + mant x)) as [M1 M2].
    cbv zeta; rewrite M2.
    replace ((bexp x * 2 ^ 23 + mant x) mod 2 ^ 23 + 2 ^ 23) with (2 ^ 23 + mant x) in *
      by (Z.div_mod_to_equations; lia).
    split; [lia|split; [lia|]]; rewrite Rmult_1_l; reflexivity.
Qed.

(** Halving the exponent. *)
Lemma sqrt_halve M e :
  2 ^ 23 <= M < 2 ^ 24 ->
  let n := if tst (Z.land e 1) then swrap 32 (M + M) else M in
  2 ^ 23 <= n < 2 ^ 25 /\
  (IZR M * bpow (e - 23))%R = (IZR (2 ^ 25 * n) * (bpow (Z.shiftr e 1 - 24) * bpow (Z.shiftr e 1 - 24)))%R.
Proof.
  intros HM n; rewrite <- bpow_plus, shiftr_div by lia; change (2 ^ 1) with 2.
  rewrite Z.mul_comm, <- bpow_shift by lia.
  assert (H : e mod 2 = 0 \/ e mod 2 = 1) by (Z.div_mod_to_equations; lia).
  unfold n; rewrite land_1; destruct H as [E|E]; rewrite E; cbn [tst Z.eqb negb].
  - split; [lia|]; do 2 f_equal; Z.div_mod_to_equations; lia.
  - rewrite swrap_small by lia; split; [lia|].
    replace (M + M) with (M * 2 ^ 1) by lia; rewrite <- bpow_shift by lia.
    do 2 f_equal; Z.div_mod_to_equations; lia.
Qed.

(** The final rounding of the code is rounding off three bits. *)
Lemma sqrt_round_spec r q (b : bool) :
  2 ^ 24 <= q < 2 ^ 25 -> (b = false -> Z.even q = true) ->
  Z.shiftr (if b then sqrt_round r q else q) 1 = roundoff r false (4 * q + b2z b).
Proof.
  intros Hq He; rewrite shiftr_div by lia; unfold roundoff, sqrt_round; change (2 ^ 1) with 2.
  destruct b; cbn [b2z].
  - destruct (Z.eqb_spec ((4 * q + 1) mod 8) 0); [Z.div_mod_to_equations; lia|].
    rewrite land_1; assert (q mod 2 = 0 \/ q mod 2 = 1) as H by (Z.div_mod_to_equations; lia).
    destruct r; rewrite ?swrap_small by lia; try (Z.div_mod_to_equations; lia).
  - specialize (He eq_refl); rewrite Zeven_mod in He; zbool; rewrite Z.add_0_r.
    destruct (Z.eqb_spec ((4 * q) mod 8) 0); Z.div_mod_to_equations; lia.
Qed.

Lemma sp_sqrt_positive_ok x s :
  wf SP x -> is_finite SP x = true -> sign x = false -> 0 < magnitude SP x ->
  exists r i, sp_sqrt_positive x s = Some (r, raise (flags i false false) s) /\
    FPResult SP (fcsr s) (sqrt (val SP x)) r i false false.
Proof.
  intros W F S Hp; unfold sp_sqrt_positive.
  destruct (sp_normalise x W F S Hp) as (ix & m & E & HM & Hm & V); rewrite E, run_bind_lift.
  set (M := Z.lor _ _) in *; set (h := Z.shiftr (m - 127) 1).
  destruct (sqrt_halve M (m - 127) HM) as [Hn V2]; set (n := if tst _ then _ else _) in *.
  assert (Hh : -75 <= h <= 63) by (unfold h; rewrite shiftr_div by lia; Z.div_mod_to_equations; lia).
  rewrite V2 in V; fold h in V; clear V2 E; clearbody h n; cbv zeta.
  rewrite (swrap_small 32 (n + n)) by lia.
  destruct (sqrt_loop_spec (n + n) ltac:(lia)) as (v & E & Hq & HN & Hx).
  change 0x01000000 with (2 ^ 24); rewrite E, run_bind_lift, run_bind_gets; clear E.
  replace (2 ^ 24 * (n + n)) with (2 ^ 25 * n) in * by lia; set (N := 2 ^ 25 * n) in *.
  set (q := q_q v) in *; set (r := rm (fcsr s)).
  assert (B : tst (q_ix v) = tst (N - q * q))
    by (rewrite Hx; unfold tst; destruct (Z.eqb_spec (2 * (N - q * q)) 0), (Z.eqb_spec (N - q * q) 0); lia || reflexivity).
  rewrite B; set (b := tst (N - q * q)) in *.
  assert (Ev : b = false -> Z.even q = true).
  { unfold b, tst; intros K; zbool; rewrite <- Z.negb_odd; destruct (Z.odd q) eqn:O; [exfalso|reflexivity].
    assert (Z.odd (q * q) = true) by (rewrite Z.odd_mul, O; reflexivity).
    replace (q * q) with (2 * (2 ^ 24 * n)) in H by (unfold N in K; lia); rewrite Z.odd_mul in H; discriminate. }
  pose proof (sqrt_sticky N q ltac:(lia) HN) as St; fold b in St.
  pose proof (sqrt_round_spec r q b Hq Ev) as Rq; rewrite Rq.
  assert (HM27 : 2 ^ 26 <= 4 * q + b2z b < 2 ^ 27) by (destruct b; cbn [b2z]; lia).
  assert (HQ : 2 ^ 23 <= roundoff r false (4 * q + b2z b) <= 2 ^ 24).
  { split; [|apply (roundoff_range r false _ (2 ^ 24)); lia].
    destruct (roundoff_cases r false (4 * q + b2z b)) as [->|[-> _]]; Z.div_mod_to_equations; lia. }
  destruct (sqrt_pack _ h HQ Hh) as (Wr & Fr & Sr & Vr); set (x' := of_bits SP _) in *.
  exists x', b; split.
  { unfold when, SETCX; destruct b; autorewrite with st; reflexivity. }
  assert (Sq : sqrt (val SP x) = (4 * sqrt (IZR N) * bpow (h - 23 - 3))%R).
  { rewrite V, sqrt_mult, sqrt_square.
    - replace (h - 24) with (h - 23 - 3 + 2) by lia; rewrite bpow_plus, (bpow_Z 2) by lia.
      change (IZR (2 ^ 2)) with 4%R; ring.
    - apply Rlt_le, bpow_pos.
    - apply IZR_le; unfold N; lia.
    - apply Rlt_le, Rmult_lt_0_compat; apply bpow_pos. }
  assert (Rd : forall lo, exp_ok lo (h - 23) -> Rnd lo (PREC SP) r (sqrt (val SP x)) (val SP x')).
  { intros lo Hlo; pose proof (round_sticky lo (PREC SP) (h - 23) (4 * q + b2z b) _
      ltac:(cbn; lia) Hlo ltac:(cbn in *; lia) ltac:(right; cbn in *; lia) St r false) as K.
    cbn [sgn] in K; rewrite !Rmult_1_l in K; rewrite Sq, Vr; exact K. }
  pose proof (roundoff_exact r false _ _ (h - 23) St) as Ex.
  cbn [sgn] in Ex; rewrite !Rmult_1_l, <- Sq, <- Vr in Ex.
  assert (Eb : tst ((4 * q + b2z b) mod 8) = b).
  { destruct b; cbn [b2z].
    - unfold tst; destruct (Z.eqb_spec ((4 * q + 1) mod 8) 0); [Z.div_mod_to_equations; lia|reflexivity].
    - specialize (Ev eq_refl); rewrite Zeven_mod in Ev; zbool; unfold tst.
      destruct (Z.eqb_spec ((4 * q + 0) mod 8) 0); [reflexivity|Z.div_mod_to_equations; lia]. }
  rewrite Eb in Ex; split; auto; try discriminate.
  - exists (val SP x'); split; [apply Rd; cbn; lia|].
    split; [now apply val_bound|split; [exact Fr|split; [reflexivity|exact Ex]]].
  - intros (z & Hz & _ & Hlt); exfalso; rewrite (Rnd_unique (prec_pos SP) Hz (Rd None I)) in Hlt.
    rewrite Vr, Rabs_pos_eq in Hlt by (apply scaled_nonneg; lia); revert Hlt; apply Rle_not_lt.
    apply Rle_trans with (IZR (2 ^ 23) * bpow (h - 23))%R; [|apply scaled_le; lia].
    rewrite <- bpow_Z, <- bpow_plus by lia; apply bpow_le; cbn [EMIN]; lia.
  - split; [intros K; exfalso; pose proof (sqrt_pos (val SP x)); lra|intros _; exact Sr].
Qed.

(** C7: [ieee754sp_sqrt] terminates and delivers the correctly rounded square
    root of every nonnegative finite number in every rounding mode, inexact
    exactly when the root is not representable.  (It does not report.) *)
Theorem ieee754sp_sqrt_correct x s :
  wf SP x -> is_finite SP x = true -> (0 <= val SP x)%R -> nod (fcsr s) = false ->
  exists r i, ieee754sp_sqrt x s = Some (r, raise (flags i false false) (clear s)) /\
    FPResult SP (fcsr s) (sqrt (val SP x)) r i false false.
Proof.
  intros W F Hv Hn; unfold ieee754sp_sqrt; enter Hn.
  assert (Pos : kc (EXPLODE SP x) <> ZERO -> sign x = false /\ 0 < magnitude SP x).
  { intros C; pose proof (val_nonzero SP x W F C) as Nz; split; [apply (val_sign SP x W); lra|].
    pose proof (magnitude_range SP x W) as R; destruct (Z.eq_dec (magnitude SP x) 0) as [E|]; [exfalso|lia].
    apply Nz; destruct W as [Wb Wm]; unfold magnitude in E; cbn [MBITS] in *.
    unfold val; assert (bexp x = 0) as -> by nia; assert (mant x = 0) as -> by nia; cbn; lra. }
  assert (Go : sign x = false -> 0 < magnitude SP x ->
    exists r i, sp_sqrt_positive x (clear s) = Some (r, raise (flags i false false) (clear s)) /\
      FPResult SP (fcsr s) (sqrt (val SP x)) r i false false).
  { intros Sx Mx; destruct (sp_sqrt_positive_ok x (clear s) W F Sx Mx) as (r & i & E & FR).
    exists r, i; split; [exact E|now apply (FPResult_csr SP (fcsr (clear s)))]. }
  classify W F.
  - exists x, false; rewrite flags_false, raise_0; split; [reflexivity|].
    rewrite V, sqrt_0, <- V; now apply exact_result.
  - destruct Pos as [Sx Mx]; [congruence|]; rewrite Hs, Sx; auto.
  - destruct Pos as [Sx Mx]; [congruence|]; rewrite Hs, Sx; auto.
Qed.

Lemma ieee754sp_sqrt_correct_witness :
  exists r i, ieee754sp_sqrt (one_half SP) s0 = Some (r, raise (flags i false false) (clear s0)) /\
    FPResult SP (fcsr s0) (sqrt (val SP (one_half SP))) r i false false.
Proof.
  apply (ieee754sp_sqrt_correct (one_half SP) s0); [closed|closed|apply val_nonneg; closed|closed].
Defined.

(** ** Special operands *)

Definition ieee754_sqrt (f : fmt) : ieee754 -> M ieee754 :=
  match f with SP => ieee754sp_sqrt | DP => ieee754dp_sqrt end.

Lemma qnan_quiet f x : ieee754_class f x = QNAN -> ieee754_issnan f x = false.
Proof.
  unfold ieee754_class, EXPLODE, ieee754_issnan.
  destruct (_ =? _); [|destruct (_ =? _); [destruct (tst _)|]; discriminate].
  destruct (_ =? _); [discriminate|]; destruct (tst _) eqn:T; [discriminate|intros _].
  destruct f; [reflexivity|]; unfold tst in T; zbool; rewrite T; reflexivity.
Qed.

(** both square roots return zeros (of either sign), plus infinity and
    quiet NaNs unchanged and raise nothing; a signalling NaN, minus infinity
    and every negative nonzero number give the default NaN with invalid
    operation. *)
Theorem ieee754_sqrt_special f x s :
  wf f x -> nod (fcsr s) = false ->
  (is_zero f x = true \/ ieee754_class f x = QNAN \/ (is_inf f x = true /\ sign x = false) ->
     ieee754_sqrt f x s = Some (x, clear s)) /\
  (is_snan f x = true \/
   (is_zero f x = false /\ ieee754_isnan f x = false /\ sign x = true) ->
     ieee754_sqrt f x s = Some (ieee754_indef f, raise INVALID_OPERATION (clear s))).
Proof.
  intros W Hn; pose proof (qnan_quiet f x) as Q.
  assert (Dn : ieee754_class f x = DNORM -> exists k, DNORM_loop f (EXPLODE f x) = Some k /\ ks k = ks (EXPLODE f x)).
  { intros C; assert (F : is_finite f x = true)
      by (rewrite finite_class, isnan_class; unfold is_inf; rewrite C; reflexivity).
    destruct (normalised f x W F) as (k & Sk & _ & _ & _ & [[_ D]|[K _]]); [congruence| |unfold ieee754_class in C; congruence].
    exists k; rewrite explode_sign; auto. }
  unfold is_zero, is_inf, is_snan; rewrite isnan_class; destruct f; cbn [ieee754_sqrt];
    unfold ieee754sp_sqrt, ieee754dp_sqrt; enter Hn; fold (ieee754_class SP x) (ieee754_class DP x);
    rewrite !explode_sign in *;
    (split; [intros [H|[H|[H H']]]|intros [H|[H [H' H'']]]];
     match goal with |- context [match ieee754_class ?f x with _ => _ end] =>
       destruct (ieee754_class f x) eqn:C end; try discriminate; rewrite ?H', ?H'';
     try reflexivity; try (unfold SETCX; autorewrite with st; apply nanxcpt_indef)).
  - unfold ieee754_nanxcpt; rewrite (Q H); reflexivity.
  - unfold ieee754_nanxcpt; rewrite (Q H); reflexivity.
  - destruct (Dn eq_refl) as (k & -> & Sk); rewrite run_bind_lift, Sk, H''.
    unfold SETCX; autorewrite with st; apply nanxcpt_indef.
Qed.

Lemma ieee754_sqrt_special_witness :
  ieee754_sqrt DP (minus_three DP) s0 = Some (ieee754_indef DP, raise INVALID_OPERATION (clear s0)).
Proof. apply (ieee754_sqrt_special DP (minus_three DP) s0); [closed|closed|right; closed]. Defined.

(** ** Double precision: the control register is restored *)

Lemma of_bits_wf f b : wf f (of_bits f b).
Proof. pose proof (fmt_facts f); split; cbn; apply Z.mod_pos_bound, pow2_pos; lia. Qed.

Lemma add_bexp_wf n x : wf DP x -> wf DP (add_bexp n x).
Proof. intros [_ Hm]; split; [apply wrap_range; cbn; lia|exact Hm]. Qed.

(** A computation that always returns, with a result in [Q], and keeps
    denormal numbers enabled. *)
Definition Safe {A} (m : M A) (Q : A -> Prop) : Prop :=
  forall s, nod (fcsr s) = false ->
    exists a s', m s = Some (a, s') /\ Q a /\ nod (fcsr s') = false.

Lemma safe_ret {A} (a : A) (Q : A -> Prop) : Q a -> Safe (ret a) Q.
Proof. intros H s Hn; exists a, s; auto. Qed.

Lemma safe_bind {A B} (m : M A) (k : A -> M B) P Q :
  Safe m P -> (forall a, P a -> Safe (k a) Q) -> Safe (bind m k) Q.
Proof.
  intros Hm Hk s Hn; destruct (Hm s Hn) as (a & s' & E & HP & Hn').
  rewrite (run_bind_some _ _ _ _ _ E); now apply Hk.
Qed.

Lemma safe_gets {A B} (g : fpst -> A) (k : A -> M B) Q :
  (forall a, Safe (k a) Q) -> Safe (bind (gets g) k) Q.
Proof. intros H s Hn; rewrite run_bind_gets; now apply H. Qed.

Lemma safe_modify {B} (g : fpst -> fpst) (k : unit -> M B) Q :
  (forall s, nod (fcsr (g s)) = nod (fcsr s)) -> Safe (k tt) Q -> Safe (bind (modify g) k) Q.
Proof. intros Hg H s Hn; rewrite run_bind_modify; apply H; rewrite Hg; exact Hn. Qed.

Lemma safe_op o x y : wf DP x -> wf DP y -> Safe (run_binop DP o x y) (wf DP).
Proof.
  intros Wx Wy s Hn; destruct (binop_total DP o x y s Wx Wy Hn) as (r & s' & E & W & C).
  exists r, s'; split; [exact E|split; [exact W|rewrite (proj2 (proj2 C)); exact Hn]].
Qed.

Create HintDb safe.
#[export] Hint Resolve of_bits_wf add_bexp_wf : safe.
#[export] Hint Extern 1 (wf DP (on_bits _ _)) => apply of_bits_wf : safe.
#[export] Hint Extern 1 (wf DP (sqrt_guess _)) => apply of_bits_wf : safe.

(** Peel one emulated operation. *)
Ltac safe_step o :=
  eapply safe_bind; [apply (safe_op o); auto with safe|intros ? ?; cbv beta zeta].

Lemma sqrt_refine_safe x y : wf DP x -> wf DP y -> Safe (sqrt_refine x y) (wf DP).
Proof.
  intros Wx Wy; unfold sqrt_refine.
  safe_step Div; safe_step Add; safe_step Mul; safe_step Add; safe_step Sub; safe_step Mul;
    safe_step Add; safe_step Div; apply (safe_op Add); auto with safe.
Qed.

Lemma sqrt_twiddle_safe old x y scalx :
  wf DP x -> wf DP y -> Safe (sqrt_twiddle old x y scalx) (fun '(r, _, _) => wf DP r).
Proof.
  intros Wx Wy; unfold sqrt_twiddle.
  apply safe_modify; [reflexivity|]; apply safe_modify; [reflexivity|].
  safe_step Div; apply safe_gets; intros inx.
  destruct (_ || _); [|now apply safe_ret].
  eapply safe_bind; [|intros r Wr; apply safe_ret; exact Wr].
  apply (safe_op Add); destruct old, inx; cbn [negb]; auto with safe.
Qed.

Lemma build_wf f sn b m : wf f (build f sn b m).
Proof. pose proof (fmt_facts f); split; cbn; apply Z.mod_pos_bound, pow2_pos; lia. Qed.

Lemma dp_sqrt_positive_ok k s :
  nod (fcsr s) = false ->
  exists r i s', dp_sqrt_positive k s = Some (r, s') /\ wf DP r /\
    fcsr s' = fcsr (raise (flags i false false) s).
Proof.
  intros Hn; unfold dp_sqrt_positive; autorewrite with st.
  destruct (if ke k >? 512 then _ else _) as [xe scalx]; set (x := build _ _ _ _).
  assert (Wx : wf DP x) by apply build_wf.
  set (s1 := upd_csr _ (upd_csr _ (upd_csr _ s))); assert (Hn1 : nod (fcsr s1) = false) by exact Hn.
  destruct (sqrt_refine_safe x (sqrt_guess x) Wx ltac:(auto with safe) s1 Hn1) as (y & s2 & E1 & Wy & Hn2).
  rewrite (run_bind_some _ _ _ _ _ E1).
  destruct (sqrt_twiddle_safe (rm (fcsr s)) x y scalx Wx Wy s2 Hn2) as ([[z sc] i] & s3 & E & Wz & _).
  rewrite (run_bind_some _ _ _ _ _ E); autorewrite with st.
  eexists _, i, _; split; [reflexivity|split; [now apply add_bexp_wf|]].
  destruct i; [|now rewrite flags_false, raise_0]; reflexivity.
Qed.

(** [ieee754dp_sqrt] of every nonnegative finite number terminates with a
    well-formed result, and although it changes the rounding mode, the enable
    mask and the sticky flags for its intermediate operations, it leaves the
    control register as it was apart from the inexact flags. *)
Theorem ieee754dp_sqrt_restores x s :
  wf DP x -> is_finite DP x = true -> (0 <= val DP x)%R -> nod (fcsr s) = false ->
  exists r i s', ieee754dp_sqrt x s = Some (r, s') /\ wf DP r /\
    fcsr s' = fcsr (raise (flags i false false) (clear s)).
Proof.
  intros W F Hv Hn; unfold ieee754dp_sqrt; enter Hn.
  assert (Pos : kc (EXPLODE DP x) <> ZERO -> ks (EXPLODE DP x) = false).
  { intros C; pose proof (val_nonzero DP x W F C); rewrite explode_sign; apply (val_sign DP x W); lra. }
  classify W F.
  - exists x, false, (clear s); rewrite flags_false, raise_0; auto.
  - destruct (normalised DP x W F) as (k & Sk & _ & _ & _ & [[_ ->]|[K' _]]);
      [unfold ieee754_class; congruence| |congruence].
    rewrite run_bind_lift, Sk, <- Hs, Pos by congruence; now apply dp_sqrt_positive_ok.
  - rewrite Pos by congruence; now apply dp_sqrt_positive_ok.
Qed.

Lemma ieee754dp_sqrt_restores_witness :
  exists r i s', ieee754dp_sqrt (one_half DP) s0 = Some (r, s') /\ wf DP r /\
    fcsr s' = fcsr (raise (flags i false false) (clear s0)).
Proof.
  apply (ieee754dp_sqrt_restores (one_half DP) s0); [closed|closed|apply val_nonneg; closed|closed].
Defined.
