(* ===== verification/Total.v ===== *)
(** * Totality of the arithmetic

    Every routine of the arithmetic returns on every operand, in every state
    of the control register (flush-to-zero included), with a well-formed
    result and a well-formed register.  The files of the single operations
    say what the result is; this one says that no loop runs out and that no
    field ever overflows its width, which is what the emulator relies on. *)

From S2P Require Import Prelude Rounding Ieee754 Format Views AddSub Mul Div FromInt ToInt Cmp Simple.
From S2P Require Import Special Sqrt.

(** ** Total computations *)

Definition Tot {A} (m : M A) (Q : A -> Prop) : Prop :=
  forall s, csr_wf (fcsr s) -> exists a s', m s = Some (a, s') /\ Q a /\ csr_wf (fcsr s').

Section Rules.
Context {A B : Type}.
Implicit Types (P : A -> Prop) (Q : B -> Prop).

Lemma tot_ret (a : A) P : P a -> Tot (ret a) P.
Proof. intros H s W; exists a, s; auto. Qed.

Lemma tot_bind (m : M A) (k : A -> M B) P Q :
  Tot m P -> (forall a, P a -> Tot (k a) Q) -> Tot (bind m k) Q.
Proof.
  intros Hm Hk s W; destruct (Hm s W) as (a & s' & E & HP & W').
  rewrite (run_bind_some _ _ _ _ _ E); now apply Hk.
Qed.

Lemma tot_weaken (m : M A) P P' : Tot m P -> (forall a, P a -> P' a) -> Tot m P'.
Proof. intros Hm HP s W; destruct (Hm s W) as (a & s' & E & Ha & W'); exists a, s'; auto. Qed.

Lemma tot_bind_ret (a : A) (k : A -> M B) Q : Tot (k a) Q -> Tot (bind (ret a) k) Q.
Proof. auto. Qed.

Lemma tot_gets (g : fpst -> A) (k : A -> M B) Q : (forall a, Tot (k a) Q) -> Tot (bind (gets g) k) Q.
Proof. intros H s W; rewrite run_bind_gets; now apply H. Qed.

Lemma tot_csr (k : csr -> M B) Q : (forall c, csr_wf c -> Tot (k c) Q) -> Tot (bind (gets fcsr) k) Q.
Proof. intros H s W; rewrite run_bind_gets; now apply H. Qed.

Lemma tot_modify (g : fpst -> fpst) (k : unit -> M B) Q :
  (forall s, csr_wf (fcsr s) -> csr_wf (fcsr (g s))) -> Tot (k tt) Q -> Tot (bind (modify g) k) Q.
Proof. intros Hg H s W; rewrite run_bind_modify; apply H, Hg, W. Qed.

Lemma tot_lift (o : option A) (a : A) (k : A -> M B) Q :
  o = Some a -> Tot (k a) Q -> Tot (bind (lift o) k) Q.
Proof. intros -> H; exact H. Qed.

Lemma tot_setcx x (k : unit -> M B) Q : 0 <= x < 2 ^ 5 -> Tot (k tt) Q -> Tot (bind (SETCX x) k) Q.
Proof. intros Hx; apply tot_modify; intros s; now apply raise_wf. Qed.

Lemma tot_clear (k : unit -> M B) Q : Tot (k tt) Q -> Tot (bind CLEARCX k) Q.
Proof. apply tot_modify; intros s; apply clear_wf. Qed.

Lemma tot_report op t (k : unit -> M B) Q : Tot (k tt) Q -> Tot (bind (ieee754_xcpt op t) k) Q.
Proof. apply tot_modify; auto. Qed.
End Rules.

Create HintDb tot.

(** Peel statements that cannot fail, split on conditions, and leave the
    calls to the hints. *)
Ltac tot_step :=
  lazymatch goal with
  | |- Tot (bind (gets fcsr) _) _ => apply tot_csr; intros ? ?; cbv beta zeta
  | |- Tot (bind (gets _) _) _ => apply tot_gets; intros ?; cbv beta zeta
  | |- Tot (bind (SETCX _) _) _ => apply tot_setcx; [closed|cbv beta zeta]
  | |- Tot (bind CLEARCX _) _ => apply tot_clear; cbv beta zeta
  | |- Tot (bind (ieee754_xcpt _ _) _) _ => apply tot_report; cbv beta zeta
  | |- Tot (bind (ret _) _) _ => apply tot_bind_ret; cbv beta iota zeta
  | |- Tot (bind (when ?b _) _) _ => destruct b; cbn [when]
  | |- Tot (bind TSTX _) _ => apply tot_gets; intros ?; cbv beta zeta
  | |- Tot (ret _) _ => apply tot_ret
  | |- Tot (if ?b then _ else _) _ => destruct b eqn:?
  end.
Ltac tot := repeat tot_step; auto with tot.

(** ** Special data, packing and reporting *)

Lemma zero_wf f sn : wf f (ieee754_zero f sn).
Proof. apply zero_facts. Qed.
Lemma one_wf f sn : wf f (ieee754_one f sn).
Proof. apply one_facts. Qed.
Lemma ten_wf f sn : wf f (ieee754_ten f sn).
Proof. apply ten_facts. Qed.
Lemma indef_wf f : wf f (ieee754_indef f).
Proof. apply indef_facts. Qed.
Lemma min_wf f sn : wf f (ieee754_min f sn).
Proof. destruct f, sn; closed. Qed.
Lemma mind_wf f sn : wf f (ieee754_mind f sn).
Proof. destruct f, sn; closed. Qed.
#[export] Hint Resolve zero_wf one_wf ten_wf indef_wf min_wf mind_wf wf_inf build_wf of_bits_wf negate_wf : tot.

Lemma flushed_wf f r sn : wf f (flushed_result f r sn).
Proof. destruct r, sn; cbn [flushed_result]; auto with tot. Qed.
Lemma overflow_wf f r sn : wf f (overflow_result f r sn).
Proof. apply overflow_result_sign. Qed.
#[export] Hint Resolve flushed_wf overflow_wf : tot.

Lemma f_xcpt_tot f r op : wf f r -> Tot (ieee754f_xcpt f r op) (wf f).
Proof. intros; unfold ieee754f_xcpt; tot. Qed.
#[export] Hint Resolve f_xcpt_tot : tot.

(** Packing never fails, whatever the mantissa. *)
Lemma format_tot f sn xe xm : Tot (ieee754_format f sn xe xm) (wf f).
Proof.
  assert (Pk : forall r xe xm, Tot (format_pack f r sn xe xm) (wf f))
    by (intros; unfold format_pack; tot).
  assert (Rd : forall r xe xm, Tot (format_round f r sn xe xm) (fun _ => True))
    by (intros; unfold format_round; tot).
  unfold ieee754_format; tot; eapply (tot_bind _ _ (fun _ => True)).
  - unfold format_denorm; tot.
  - intros [e m] _; eapply tot_bind; [apply Rd|intros [e' m'] _; apply Pk].
Qed.

Lemma NORMRET_tot f sn e m op : Tot (NORMRET f sn e m op) (wf f).
Proof. unfold NORMRET; eapply tot_bind; [apply format_tot|]; intros v W; tot. Qed.
#[export] Hint Resolve NORMRET_tot : tot.

Lemma nanxcpt_tot f r op : wf f r -> Tot (ieee754_nanxcpt f r op) (wf f).
Proof.
  intros W; unfold ieee754_nanxcpt; tot; unfold SETANDTESTCX.
  apply (tot_bind _ _ (fun _ => True)); [tot|]; [intros s Ws; eexists _, _; split; [reflexivity|auto]|].
  intros t _; tot; destruct W as [Wb Wm]; split; [exact Wb|]; cbn [mant].
  pose proof (fmt_facts f); unfold MBIT; rewrite land_lnot_bit by lia.
  destruct (Z.testbit (mant r) (MBITS f - 1)) eqn:T; [|lia].
  assert (2 ^ (MBITS f - 1) <= mant r); [|pose proof (pow2_pos (MBITS f - 1)); lia].
  rewrite testbit_top in T; [now apply Z.leb_le|lia|].
  replace (MBITS f - 1 + 1) with (MBITS f) by lia; exact Wm.
Qed.
#[export] Hint Resolve nanxcpt_tot : tot.

(** ** Operands *)

(** What the class says of the exploded mantissa. *)
Definition comp_ok (f : fmt) (k : comp) : Prop :=
  match kc k with
  | NORM => 2 ^ MBITS f <= km k < 2 ^ PREC f
  | DNORM => 0 < km k < 2 ^ MBITS f /\ ke k = EMIN f
  | _ => True
  end.

Lemma explode_ok f x : wf f x -> comp_ok f (EXPLODE f x).
Proof.
  intros W; destruct (is_finite f x) eqn:F.
  - unfold comp_ok; classify W F; auto.
  - unfold is_finite in F; zbool; unfold EXPLODE, comp_ok; rewrite F, Z.eqb_refl.
    destruct (_ =? _); [|destruct (tst _)]; exact I.
Qed.

Definition operand_ok (f : fmt) (p : ieee754 * comp) : Prop :=
  wf f (fst p) /\ comp_ok f (snd p) /\ ks (snd p) = sign (fst p) /\
  (snd p = EXPLODE f (fst p)).

Lemma flush_tot f x : wf f x -> Tot (FLUSH f x (EXPLODE f x)) (operand_ok f).
Proof.
  intros W; unfold FLUSH; tot; unfold operand_ok; cbn [fst snd kc ks].
  - split; [auto with tot|split; [exact I|]]; rewrite zero_eq, explode_sign; split; [reflexivity|].
    destruct f; reflexivity.
  - split; [exact W|split; [now apply explode_ok|split; [apply explode_sign|reflexivity]]].
Qed.

(** Enter a unary or binary routine: clear, explode, flush. *)
Lemma tot_flush {B} f x (k : ieee754 * comp -> M B) Q :
  wf f x -> (forall x' k', operand_ok f (x', k') -> Tot (k (x', k')) Q) ->
  Tot (bind (FLUSH f x (EXPLODE f x)) k) Q.
Proof. intros W H; eapply tot_bind; [now apply flush_tot|]; intros [x' k'] O; now apply H. Qed.

Lemma dnorm_total f k : kc k = DNORM -> comp_ok f k ->
  exists k', DNORM_loop f k = Some k' /\ 2 ^ MBITS f <= km k' < 2 ^ PREC f /\ ks k' = ks k.
Proof.
  intros C H; unfold comp_ok in H; rewrite C in H; destruct H as [Hm He].
  destruct (dnorm_loop_spec f k Hm) as (k' & E & _ & S & R & _); [pose proof (fmt_facts f); lia|].
  exists k'; auto.
Qed.

Lemma tot_dnorm {B} f k (g : comp -> M B) Q :
  kc k = DNORM -> comp_ok f k ->
  (forall k', 2 ^ MBITS f <= km k' < 2 ^ PREC f -> ks k' = ks k -> Tot (g k') Q) ->
  Tot (bind (lift (DNORM_loop f k)) g) Q.
Proof.
  intros C H G; destruct (dnorm_total f k C H) as (k' & E & R & S).
  apply (tot_lift _ k'); [exact E|now apply G].
Qed.

Lemma norm_ok f k : kc k = NORM -> comp_ok f k -> 2 ^ MBITS f <= km k < 2 ^ PREC f.
Proof. intros C H; unfold comp_ok in H; rewrite C in H; exact H. Qed.

(** ** The four operations *)

Lemma norm_ret_tot f sn m e op : 0 < m < 2 ^ (MBITS f + 4) ->
  Tot ('(m, e) <- lift (norm_loop (WBITS f) (MBITS f + 3) m e) ;; NORMRET f sn e m op) (wf f).
Proof.
  intros Hm; pose proof (fmt_facts f).
  destruct (norm_loop_spec (WBITS f) (MBITS f + 3) m e) as (n & _ & E & _);
    [lia|lia|rewrite <- Z.add_assoc; exact Hm|].
  eapply tot_lift; [exact E|apply NORMRET_tot].
Qed.

Lemma add_mants_tot f xs ys e xm ym op :
  0 <= xm < 2 ^ (MBITS f + 4) -> 0 <= ym < 2 ^ (MBITS f + 4) ->
  Tot (add_mants f xs ys e xm ym op) (wf f).
Proof.
  intros Hx Hy; unfold add_mants; cbv zeta; destruct (Bool.eqb xs ys).
  - destruct (if tst _ then _ else _); auto with tot.
  - assert (W : 2 ^ (MBITS f + 4) <= 2 ^ WBITS f) by (pose proof (fmt_facts f); apply pow2_le; lia).
    assert (H : let d := fst (if xm >=? ym then (wrap (WBITS f) (xm - ym), xs)
                  else (wrap (WBITS f) (ym - xm), ys)) in 0 <= d < 2 ^ (MBITS f + 4)).
    { destruct (xm >=? ym) eqn:E; zbool; cbn [fst]; rewrite wrap_small; lia. }
    destruct (if xm >=? ym then _ else _) as [d sd]; cbn [fst] in H; tot; zbool.
    apply norm_ret_tot; lia.
Qed.

Lemma add_align_tot f kx ky op :
  2 ^ MBITS f <= km kx < 2 ^ PREC f -> 2 ^ MBITS f <= km ky < 2 ^ PREC f ->
  Tot (add_align f kx ky op) (wf f).
Proof.
  intros Hx Hy; unfold add_align; rewrite !shl3 by auto; cbv zeta.
  assert (R : 0 < 8 * km kx < 2 ^ (MBITS f + 4) /\ 0 < 8 * km ky < 2 ^ (MBITS f + 4)) by (mbits f; lia).
  tot; zbool; apply add_mants_tot; try lia; rewrite XSRS_any by lia.
  - pose proof (al_y _ _ _ _ _ (align_one f (km kx) (km ky) (ke kx - ke ky) Hx Hy ltac:(lia))); lia.
  - pose proof (al_y _ _ _ _ _ (align_one f (km ky) (km kx) (ke ky - ke kx) Hy Hx ltac:(lia))); lia.
Qed.

Lemma mul_mants_tot f kx ky : Tot (mul_mants f kx ky) (wf f).
Proof. unfold mul_mants; cbv zeta; destruct (if swrap _ _ <? 0 then _ else _); auto with tot. Qed.

Lemma div_mants_tot f kx ky :
  2 ^ MBITS f <= km kx < 2 ^ PREC f -> 2 ^ MBITS f <= km ky < 2 ^ PREC f ->
  Tot (div_mants f kx ky) (wf f).
Proof.
  intros Hx Hy s; unfold div_mants; rewrite !shl3 by auto; cbv zeta.
  destruct (div_mants_position f kx ky Hx Hy) as (t & Ht & _ & _ & _ & HR); revert s.
  change (Tot (t <- lift (div_loop f (8 * km kx) (8 * km ky)) ;;
    '(rm, re) <- lift (norm_loop (WBITS f) (MBITS f + 3)
       (if tst (dxm t) then Z.lor (shl (WBITS f) (drm t) 1) 1 else shl (WBITS f) (drm t) 1) (ke kx - ke ky)) ;;
    NORMRET f (if Bool.eqb (ks kx) (ks ky) then false else true) re rm "div") (wf f)).
  eapply tot_lift; [exact Ht|apply norm_ret_tot].
  cbv zeta in HR; pose proof (fmt_facts f); pose proof (pow2_pos (MBITS f + 2)); lia.
Qed.

(** Split on the classes of both operands; what is left after the special
    cases are the arithmetic ones, normalised. *)
Ltac binop_tot :=
  apply tot_clear; apply tot_flush; [assumption|intros ?x ?kx (?Wx & ?Kx & ?Sx & _)];
  apply tot_flush; [assumption|intros ?y ?ky (?Wy & ?Ky & ?Sy & _)]; cbn [fst snd] in *;
  repeat match goal with |- context [match kc ?k with _ => _ end] => destruct (kc k) eqn:? end;
  tot;
  repeat (apply tot_dnorm; [assumption|assumption|intros ?k ?R ?S]);
  repeat match goal with H : kc ?k = NORM, K : comp_ok ?f ?k |- _ => pose proof (norm_ok f k H K); clear H end;
  auto using add_align_tot, mul_mants_tot, div_mants_tot with tot.

Lemma binop_tot f o x y : wf f x -> wf f y -> Tot (run_binop f o x y) (wf f).
Proof.
  intros Wx Wy; destruct o; cbn [run_binop].
  - unfold ieee754_add; binop_tot.
  - unfold ieee754_sub; binop_tot.
  - unfold ieee754_mul; binop_tot.
  - unfold ieee754_div; binop_tot.
Qed.

(** ** Sign operations and comparisons *)

Lemma neg_tot f x : wf f x -> Tot (ieee754_neg f x) (wf f).
Proof.
  intros W; unfold ieee754_neg; apply tot_clear, tot_flush; [exact W|].
  intros x' k (W' & _); cbn [fst] in W'; cbv zeta; tot.
Qed.

Lemma abs_tot f x : wf f x -> Tot (ieee754_abs f x) (wf f).
Proof.
  intros W; unfold ieee754_abs; apply tot_clear, tot_flush; [exact W|].
  intros x' k (W' & _); cbn [fst] in W'; cbv zeta; tot.
Qed.

Lemma cmp_tot f x y cmp sig : wf f x -> wf f y ->
  Tot (ieee754_cmp f x y cmp sig) (fun z => z = 0 \/ z = 1).
Proof.
  intros Wx Wy; unfold ieee754_cmp; apply tot_flush; [exact Wx|]; intros x' kx _.
  apply tot_flush; [exact Wy|]; intros y' ky _; tot; try (destruct (tst _); auto).
  all: apply (tot_bind _ _ (fun _ => True)); [|intros t _; unfold ieee754si_xcpt; tot].
  all: destruct sig; tot; unfold SETANDTESTCX; tot.
  all: intros s Ws; eexists _, _; split; [reflexivity|auto].
Qed.

(** ** Conversions *)

(** An [n]-bit signed integer. *)
Definition sint (n z : Z) : Prop := - 2 ^ (n - 1) <= z < 2 ^ (n - 1).

Lemma swrap_sint n z : 1 <= n -> sint n (swrap n z).
Proof.
  intros Hn; unfold sint, swrap; assert (E : 2 ^ n = 2 * 2 ^ (n - 1)) by (apply (pow2_split 1); lia).
  pose proof (pow2_pos (n - 1)); pose proof (Z.mod_pos_bound z (2 ^ n) ltac:(lia)).
  destruct (Z.ltb_spec (z mod 2 ^ n) (2 ^ (n - 1))); lia.
Qed.

Lemma tint_sign_32 sn m : sint 32 (tint_sign 32 sn m).
Proof. apply swrap_sint; lia. Qed.
Lemma tint_sign_64 sn m : sint 64 (tint_sign 64 sn m).
Proof. apply swrap_sint; lia. Qed.
Lemma invalid_si_tot op : Tot (invalid_si op) (sint 32).
Proof. unfold invalid_si, ieee754si_xcpt; tot; closed. Qed.
Lemma invalid_di_tot op : Tot (invalid_di op) (sint 64).
Proof. unfold invalid_di, ieee754di_xcpt; tot; closed. Qed.
#[export] Hint Resolve tint_sign_32 tint_sign_64 invalid_si_tot invalid_di_tot : tot.
#[export] Hint Extern 1 (sint _ _) => closed : tot.

Ltac int_tot :=
  tot; repeat match goal with
  | |- Tot (match ?t with _ => _ end) _ => destruct t as [[? ?] ?]; cbv zeta; tot
  end.

Lemma tint_tot f x : wf f x -> Tot (ieee754_tint f x) (sint 32).
Proof.
  intros W; destruct f; cbn [ieee754_tint]; unfold ieee754sp_tint, ieee754dp_tint;
    apply tot_clear, tot_flush; auto; intros x' k _; destruct (kc k); tot;
    unfold sp_tint_finite, dp_tint_finite; int_tot.
Qed.

Lemma tlong_tot f x : wf f x -> Tot (ieee754_tlong f x) (sint 64).
Proof.
  intros W; destruct f; cbn [ieee754_tlong]; unfold ieee754sp_tlong, ieee754dp_tlong;
    apply tot_clear, tot_flush; auto; intros x' k _; destruct (kc k); tot;
    unfold sp_tlong_finite, dp_tlong_finite; int_tot.
Qed.

Lemma from_int_tot f n x op :
  MBITS f + 4 <= n <= 64 -> sint n x -> Tot (from_int f n x op) (wf f).
Proof.
  intros Hn Hx; pose proof (fmt_facts f).
  destruct (int_mag_abs n x ltac:(lia) Hx) as [Em Ha]; unfold from_int; rewrite Em; tot; zbool.
  destruct (int_norm f n (Z.abs x) (MBITS f + 3) Hn ltac:(lia)) as (m' & k & E & _).
  eapply tot_lift; [exact E|apply NORMRET_tot].
Qed.

Lemma dp_fint_tot x : sint 32 x -> Tot (ieee754dp_fint x) (wf DP).
Proof.
  intros Hx s W; destruct (dp_fint_spec x s Hx) as (r & E & Wr & _).
  exists r, (clear s); split; [exact E|split; [exact Wr|now apply clear_wf]].
Qed.

Lemma fdp_tot x : wf DP x -> Tot (ieee754sp_fdp x) (wf SP).
Proof.
  intros W; unfold ieee754sp_fdp; apply tot_clear, tot_flush; [exact W|].
  intros x' k (W' & _); destruct (kc k); tot; apply nanxcpt_tot; destruct (negb _); auto with tot.
Qed.

Lemma fsp_tot x : wf SP x -> Tot (ieee754dp_fsp x) (wf DP).
Proof.
  intros W; unfold ieee754dp_fsp; apply tot_clear, tot_flush; [exact W|].
  intros x' k (W' & K & _); cbn [snd] in K; destruct (kc k) eqn:C; tot.
  apply tot_dnorm; auto; intros k' _ _; tot.
Qed.

(** ** Square roots *)

Lemma on_bits_wf g x : wf DP (on_bits g x).
Proof. apply of_bits_wf. Qed.
#[export] Hint Resolve on_bits_wf add_bexp_wf binop_tot : tot.

(** Fields of a register with one field replaced. *)
Ltac csr_field :=
  intros (? & ? & ? & ? & ?);
  (split; [|split; [|split; [|split]]]); cbn [fcsr upd_csr with_rm with_sx with_mx with_cx sx mx cx pad1 pad0];
  first [assumption | apply land_range; [closed|assumption] | apply lor_range; [closed|assumption|closed]].

(** Peel one operation of the emulated arithmetic. *)
Ltac tot_op o := eapply tot_bind; [apply (binop_tot DP o); auto with tot safe|intros ? ?; cbv beta zeta].

Lemma sqrt_refine_tot x y : wf DP x -> wf DP y -> Tot (sqrt_refine x y) (wf DP).
Proof.
  intros Wx Wy; unfold sqrt_refine; tot_op Div; tot_op Add; tot_op Mul; tot_op Add; tot_op Sub;
    tot_op Mul; tot_op Add; tot_op Div; apply (binop_tot DP Add); auto with tot.
Qed.

Lemma sqrt_twiddle_tot old x y scalx : wf DP x -> wf DP y ->
  Tot (sqrt_twiddle old x y scalx) (fun p => wf DP (fst (fst p))).
Proof.
  intros Wx Wy; unfold sqrt_twiddle.
  apply tot_modify; [intros s; csr_field|]; apply tot_modify; [intros s; csr_field|].
  tot_op Div; apply tot_gets; intros inx; tot.
  eapply tot_bind; [apply (binop_tot DP Add); destruct old, inx; cbn [negb]; auto with tot|].
  intros; tot.
Qed.

Lemma dp_sqrt_positive_tot k : Tot (dp_sqrt_positive k) (wf DP).
Proof.
  unfold dp_sqrt_positive; apply tot_csr; intros c Wc.
  do 3 (apply tot_modify; [intros s; csr_field|]).
  destruct (if ke k >? 512 then _ else _) as [xe scalx]; cbv zeta.
  eapply tot_bind; [apply sqrt_refine_tot; auto with tot; apply on_bits_wf|intros y Wy].
  eapply tot_bind; [apply sqrt_twiddle_tot; auto with tot|intros [[z sc] i] Wz; cbn [fst] in Wz; cbv zeta].
  apply tot_modify; [intros s _; cbn [fcsr upd_csr]|tot].
  revert Wc; destruct i; [csr_field|auto].
Qed.

Lemma finite_kc f x : kc (EXPLODE f x) = DNORM \/ kc (EXPLODE f x) = NORM -> is_finite f x = true.
Proof. rewrite finite_class, isnan_class; unfold is_inf, ieee754_class; intros [-> | ->]; reflexivity. Qed.

Lemma sqrt_tot f x : wf f x -> Tot (ieee754_sqrt f x) (wf f).
Proof.
  intros W; destruct f; cbn [ieee754_sqrt]; unfold ieee754sp_sqrt, ieee754dp_sqrt;
    apply tot_clear, tot_flush; auto; intros y k (Wy & K & S & Ek); cbn [fst snd] in *; subst k; cbv zeta.
  - assert (P : sign y = false -> is_finite SP y = true -> kc (EXPLODE SP y) <> ZERO ->
                Tot (sp_sqrt_positive y) (wf SP)).
    { intros Sy F Nz s Ws.
      assert (Mg : 0 < magnitude SP y).
      { pose proof (magnitude_range SP y Wy); unfold magnitude in *; destruct (Z.eq_dec (magnitude SP y) 0) as [E|E];
          [exfalso; apply Nz|unfold magnitude in E; lia].
        unfold magnitude in E; destruct Wy as [Wb Wm]; cbn [MBITS] in *.
        unfold EXPLODE; replace (bexp y) with 0 by nia; replace (mant y) with 0 by nia; reflexivity. }
      destruct (sp_sqrt_positive_ok y s Wy F Sy Mg) as (r & i & E & FR).
      eexists _, _; split; [exact E|split; [apply FR|apply raise_wf; [apply flags_range|exact Ws]]]. }
    destruct (kc (EXPLODE SP y)) eqn:C; tot; apply P; try congruence; apply finite_kc; auto.
  - destruct (kc (EXPLODE DP y)) eqn:C; tot; auto using dp_sqrt_positive_tot.
    apply tot_dnorm; auto; intros; tot; apply dp_sqrt_positive_tot.
Qed.

(** C11: the arithmetic is total: on all data, with any control register
    (flush-to-zero, any rounding mode and any enabled trap included), the
    four operations, the square roots, the sign operations, the comparisons
    and the conversions to integers return; results are well-formed data or
    integers of their width, and the control register stays well formed. *)
Theorem arithmetic_total f x y cmp sig s :
  wf f x -> wf f y -> csr_wf (fcsr s) ->
  let Ends {A} (m : M A) (Q : A -> Prop) :=
    exists r s', m s = Some (r, s') /\ Q r /\ csr_wf (fcsr s') in
  (forall o, Ends (run_binop f o x y) (wf f)) /\ Ends (ieee754_sqrt f x) (wf f) /\
  Ends (ieee754_neg f x) (wf f) /\ Ends (ieee754_abs f x) (wf f) /\
  Ends (ieee754_cmp f x y cmp sig) (fun z => z = 0 \/ z = 1) /\
  Ends (ieee754_tint f x) (fun z => - 2 ^ 31 <= z < 2 ^ 31) /\
  Ends (ieee754_tlong f x) (fun z => - 2 ^ 63 <= z < 2 ^ 63).
Proof.
  intros Wx Wy Ws Ends; subst Ends; cbv beta.
  split; [intros o; now apply binop_tot|].
  split; [now apply sqrt_tot|split; [now apply neg_tot|split; [now apply abs_tot|]]].
  split; [now apply cmp_tot|split; [now apply tint_tot|now apply tlong_tot]].
Qed.

Lemma arithmetic_total_witness :
  exists r s', run_binop DP Div (one_half DP) (mkfp false 0 1) (mkst (csr_of 0x01000f83) []) = Some (r, s') /\
    wf DP r /\ csr_wf (fcsr s').
Proof.
  apply (arithmetic_total DP (one_half DP) (mkfp false 0 1) 0 false (mkst (csr_of 0x01000f83) [])); closed.
Defined.
