(* ===== verification/Inst.v ===== *)
(** * Opcodes

    The enumerations of [asm/inst.h] that the emulators and the micro-assembler
    use, one constant per enumerator. *)

From S2P Require Import Prelude.

(** Major opcodes ([enum major_op]). *)
Definition spec_op : Z := 0.
Definition bcond_op : Z := 1.
Definition j_op : Z := 2.
Definition jal_op : Z := 3.
Definition beq_op : Z := 4.
Definition bne_op : Z := 5.
Definition blez_op : Z := 6.
Definition bgtz_op : Z := 7.
Definition addiu_op : Z := 9.
Definition andi_op : Z := 12.
Definition ori_op : Z := 13.
Definition xori_op : Z := 14.
Definition lui_op : Z := 15.
Definition cop0_op : Z := 16.
Definition cop1_op : Z := 17.
Definition cop2_op : Z := 18.
Definition cop1x_op : Z := 19.
Definition beql_op : Z := 20.
Definition bnel_op : Z := 21.
Definition blezl_op : Z := 22.
Definition bgtzl_op : Z := 23.
Definition daddiu_op : Z := 25.
Definition ldl_op : Z := 26.
Definition ldr_op : Z := 27.
Definition jalx_op : Z := 29.
Definition lb_op : Z := 32.
Definition lh_op : Z := 33.
Definition lwl_op : Z := 34.
Definition lw_op : Z := 35.
Definition lbu_op : Z := 36.
Definition lhu_op : Z := 37.
Definition lwr_op : Z := 38.
Definition lwu_op : Z := 39.
Definition sb_op : Z := 40.
Definition sh_op : Z := 41.
Definition swl_op : Z := 42.
Definition sw_op : Z := 43.
Definition sdl_op : Z := 44.
Definition sdr_op : Z := 45.
Definition swr_op : Z := 46.
Definition ll_op : Z := 48.
Definition lwc1_op : Z := 49.
Definition lld_op : Z := 52.
Definition ldc1_op : Z := 53.
Definition ld_op : Z := 55.
Definition sc_op : Z := 56.
Definition swc1_op : Z := 57.
Definition scd_op : Z := 60.
Definition sdc1_op : Z := 61.
Definition sd_op : Z := 63.

(** func field of spec instructions ([enum spec_op]). *)
Definition sll_op : Z := 0.
Definition movc_op : Z := 1.
Definition srl_op : Z := 2.
Definition sra_op : Z := 3.
Definition jr_op : Z := 8.
Definition jalr_op : Z := 9.
Definition addu_op : Z := 33.
Definition subu_op : Z := 35.
Definition and_op : Z := 36.
Definition xor_op : Z := 38.
Definition daddu_op : Z := 45.
Definition dsubu_op : Z := 47.
Definition dsll_op : Z := 56.
Definition dsrl_op : Z := 58.
Definition dsra_op : Z := 59.
Definition dsll32_op : Z := 60.
Definition dsrl32_op : Z := 62.

(** rt field of bcond instructions ([enum rt_op]). *)
Definition bltz_op : Z := 0.
Definition bgez_op : Z := 1.
Definition bltzl_op : Z := 2.
Definition bgezl_op : Z := 3.
Definition bltzal_op : Z := 16.
Definition bgezal_op : Z := 17.
Definition bltzall_op : Z := 18.
Definition bgezall_op : Z := 19.
Definition bposge32_op : Z := 28.

(** rs field of cop instructions ([enum cop_op]). *)
Definition mfc_op : Z := 0.
Definition dmfc_op : Z := 1.
Definition cfc_op : Z := 2.
Definition mtc_op : Z := 4.
Definition dmtc_op : Z := 5.
Definition ctc_op : Z := 6.
Definition bc_op : Z := 8.
Definition cop_op : Z := 16.

(** func field of cop0 instructions ([enum cop0_coi_func]). *)
Definition tlbwi_op : Z := 2.
Definition tlbwr_op : Z := 6.
Definition tlbp_op : Z := 8.
Definition rfe_op : Z := 16.
Definition eret_op : Z := 24.

(** Format field of cop1 instructions ([enum cop1_fmt]). *)
Definition s_fmt : Z := 0.
Definition d_fmt : Z := 1.
Definition w_fmt : Z := 4.
Definition l_fmt : Z := 5.

(** func field of cop1 instructions ([enum cop1_sdw_func]). *)
Definition fadd_op : Z := 0.
Definition fsub_op : Z := 1.
Definition fmul_op : Z := 2.
Definition fdiv_op : Z := 3.
Definition fsqrt_op : Z := 4.
Definition fabs_op : Z := 5.
Definition fmov_op : Z := 6.
Definition fneg_op : Z := 7.
Definition froundl_op : Z := 8.
Definition ffloorl_op : Z := 11.
Definition fround_op : Z := 12.
Definition ffloor_op : Z := 15.
Definition fmovc_op : Z := 17.
Definition fmovz_op : Z := 18.
Definition fmovn_op : Z := 19.
Definition frecip_op : Z := 21.
Definition frsqrt_op : Z := 22.
Definition fcvts_op : Z := 32.
Definition fcvtd_op : Z := 33.
Definition fcvtw_op : Z := 36.
Definition fcvtl_op : Z := 37.
Definition fcmp_op : Z := 48.

(** func field of cop1x instructions ([enum cop1x_func]). *)
Definition lwxc1_op : Z := 0.
Definition ldxc1_op : Z := 1.
Definition pfetch_op : Z := 7.
Definition swxc1_op : Z := 8.
Definition sdxc1_op : Z := 9.
Definition madd_s_op : Z := 32.
Definition madd_d_op : Z := 33.
Definition msub_s_op : Z := 40.
Definition msub_d_op : Z := 41.
Definition nmadd_s_op : Z := 48.
Definition nmadd_d_op : Z := 49.
Definition nmsub_s_op : Z := 56.
Definition nmsub_d_op : Z := 57.
