(* ===== verification/Machine.v ===== *)
(** * The emulated machine

    The state the FPU emulator works on: the exception frame ([struct pt_regs]),
    the FPU context ([struct mips_fpu_struct]), the emulator's statistics, user
    memory, the signals sent to the task and the kernel log; the field
    extraction macros of [asm/inst.h]; and the monad the emulator is written
    in, in which a routine returns early with a signal number.

    User memory is a class: what the uaccess primitives promise is an
    interface, and the emulator is parametric in its implementation.
    [mips64] is the [__mips64] configuration symbol; it selects the width of
    [unsigned long]. *)

From S2P Require Import Prelude Rounding Ieee754.

(** ** Instruction fields *)

Definition MIPSInst_OPCODE (x : Z) : Z := Z.shiftr x 26.
Definition MIPSInst_RS (x : Z) : Z := Z.shiftr (Z.land x 0x03e00000) 21.
Definition MIPSInst_RT (x : Z) : Z := Z.shiftr (Z.land x 0x001f0000) 16.
Definition MIPSInst_RD (x : Z) : Z := Z.shiftr (Z.land x 0x0000f800) 11.
Definition MIPSInst_SIMM (x : Z) : Z := swrap 16 (Z.land x 0xffff).
Definition MIPSInst_JTARGET (x : Z) : Z := Z.land x 0x03ffffff.
Definition MIPSInst_FUNC (x : Z) : Z := Z.land x 0x0000003f.
Definition MIPSInst_FFMT (x : Z) : Z := Z.shiftr (Z.land x 0x01e00000) 21.
Definition MIPSInst_FT (x : Z) : Z := MIPSInst_RT x.
Definition MIPSInst_FS (x : Z) : Z := MIPSInst_RD x.
Definition MIPSInst_FD (x : Z) : Z := Z.shiftr (Z.land x 0x000007c0) 6.
Definition MIPSInst_FR (x : Z) : Z := MIPSInst_RS x.
Definition MIPSInst_FMA_FFMT (x : Z) : Z := Z.land x 0x00000003.

(** ** State *)

Record pt_regs := mkregs {
  gpr : list Z; cp0_epc : Z; cp0_cause : Z; cp0_status : Z; cp0_badvaddr : Z }.

(** [fpr] holds 32 64-bit registers. *)
Record mips_fpu_struct := mkctx { fpr : list Z; fcr31 : Z }.

Record mips_fpu_emulator_stats := mkstats {
  emulated : Z; loads : Z; stores : Z; cp1ops : Z; cp1xops : Z; errors : Z }.

(** What the uaccess primitives provide: [access_ok], and the raw accesses of
    [n] bytes behind [__get_user] and [__put_user], which may fault.  A value
    that was stored can be loaded back, a store leaves disjoint ranges and the
    address space alone, and a load delivers no more than its width. *)
Class UserMem (mem : Type) := {
  access_ok : mem -> Z -> Z -> bool;
  __get_user : mem -> Z -> Z -> option Z;
  __put_user : mem -> Z -> Z -> Z -> option mem;
  get_put : forall m m' n a v, 0 <= v < 2 ^ (8 * n) ->
    __put_user m n a v = Some m' -> __get_user m' n a = Some v;
  get_put_other : forall m m' n a v k b, __put_user m n a v = Some m' ->
    a + n <= b \/ b + k <= a -> __get_user m' k b = __get_user m k b;
  put_access : forall m m' n a v b k, __put_user m n a v = Some m' -> access_ok m' b k = access_ok m b k;
  get_range : forall m n a v, __get_user m n a = Some v -> 0 <= v < 2 ^ (8 * n)
}.

Record machine (mem : Type) := mkmach {
  xcp : pt_regs; ctx : mips_fpu_struct; stats : mips_fpu_emulator_stats;
  umem : mem; sent : list Z; log : list (string * string);
  hwfcr31 : option Z   (* the live FPU's FCR31 when this task owns the FPU *)
}.
Arguments mkmach {mem}. Arguments xcp {mem}. Arguments ctx {mem}. Arguments stats {mem}.
Arguments umem {mem}. Arguments sent {mem}. Arguments log {mem}. Arguments hwfcr31 {mem}.

Definition SIGILL : Z := 4.
Definition SIGBUS : Z := 10.
Definition SIGFPE : Z := 8.
Definition SIGSEGV : Z := 11.
Definition EFAULT : Z := 14.
Definition CAUSEF_BD : Z := 2 ^ 31.
Definition ST0_FR : Z := 0x04000000.

(** Array access by register number. *)
Definition sel (l : list Z) (i : Z) : Z := nth (Z.to_nat i) l 0.
Fixpoint upd_nat (l : list Z) (n : nat) (v : Z) : list Z :=
  match l, n with
  | [], _ => []
  | _ :: t, O => v :: t
  | a :: t, S n => a :: upd_nat t n v
  end.
Definition upd (l : list Z) (i v : Z) : list Z := upd_nat l (Z.to_nat i) v.

Section Setters.
Context {mem : Type}.
#[local] Abbreviation mach := (machine mem).

Definition set_xcp (g : pt_regs -> pt_regs) (m : mach) : mach :=
  mkmach (g (xcp m)) (ctx m) (stats m) (umem m) (sent m) (log m) (hwfcr31 m).
Definition set_ctx (g : mips_fpu_struct -> mips_fpu_struct) (m : mach) : mach :=
  mkmach (xcp m) (g (ctx m)) (stats m) (umem m) (sent m) (log m) (hwfcr31 m).
Definition set_stats (g : mips_fpu_emulator_stats -> mips_fpu_emulator_stats) (m : mach) : mach :=
  mkmach (xcp m) (ctx m) (g (stats m)) (umem m) (sent m) (log m) (hwfcr31 m).
Definition set_umem (u : mem) (m : mach) : mach :=
  mkmach (xcp m) (ctx m) (stats m) u (sent m) (log m) (hwfcr31 m).
Definition force_sig (sig : Z) (m : mach) : mach :=
  mkmach (xcp m) (ctx m) (stats m) (umem m) (sig :: sent m) (log m) (hwfcr31 m).

Definition set_gpr (i v : Z) : mach -> mach :=
  set_xcp (fun r => mkregs (upd (gpr r) i v) (cp0_epc r) (cp0_cause r) (cp0_status r) (cp0_badvaddr r)).
Definition set_epc (v : Z) : mach -> mach :=
  set_xcp (fun r => mkregs (gpr r) v (cp0_cause r) (cp0_status r) (cp0_badvaddr r)).
Definition set_cause (v : Z) : mach -> mach :=
  set_xcp (fun r => mkregs (gpr r) (cp0_epc r) v (cp0_status r) (cp0_badvaddr r)).
Definition set_fpr (i v : Z) : mach -> mach :=
  set_ctx (fun c => mkctx (upd (fpr c) i v) (fcr31 c)).
Definition set_fcr31 (v : Z) : mach -> mach := set_ctx (fun c => mkctx (fpr c) v).

(** [fpuemustats.x++], on [unsigned int] counters. *)
Definition count_emulated : mach -> mach := set_stats (fun t =>
  mkstats (wrap 32 (emulated t + 1)) (loads t) (stores t) (cp1ops t) (cp1xops t) (errors t)).
Definition count_load : mach -> mach := set_stats (fun t =>
  mkstats (emulated t) (wrap 32 (loads t + 1)) (stores t) (cp1ops t) (cp1xops t) (errors t)).
Definition count_store : mach -> mach := set_stats (fun t =>
  mkstats (emulated t) (loads t) (wrap 32 (stores t + 1)) (cp1ops t) (cp1xops t) (errors t)).
Definition count_cp1op : mach -> mach := set_stats (fun t =>
  mkstats (emulated t) (loads t) (stores t) (wrap 32 (cp1ops t + 1)) (cp1xops t) (errors t)).
Definition count_cp1xop : mach -> mach := set_stats (fun t =>
  mkstats (emulated t) (loads t) (stores t) (cp1ops t) (wrap 32 (cp1xops t + 1)) (errors t)).
Definition count_error : mach -> mach := set_stats (fun t =>
  mkstats (emulated t) (loads t) (stores t) (cp1ops t) (cp1xops t) (wrap 32 (errors t + 1))).
End Setters.

(** ** The emulator monad

    [inl sig]: the routine returned [sig] early; [None]: an arithmetic loop
    ran out of its bound, which the arithmetic's theorems exclude. *)
Definition E (mem A : Type) : Type := machine mem -> option ((Z + A) * machine mem).

Section Monad.
Context {mem A B : Type}.

Definition eret (a : A) : E mem A := fun m => Some (inr a, m).
Definition ebind (e : E mem A) (k : A -> E mem B) : E mem B := fun m =>
  match e m with
  | Some (inr a, m') => k a m'
  | Some (inl sig, m') => Some (inl sig, m')
  | None => None
  end.
Definition throw (sig : Z) : E mem A := fun m => Some (inl sig, m).
Definition egets (g : machine mem -> A) : E mem A := fun m => Some (inr (g m), m).
Definition emod (g : machine mem -> machine mem) : E mem unit := fun m => Some (inr tt, g m).

(** A call of the arithmetic: [ieee754_csr] is the word [fcr31]. *)
Definition ieee (c : M A) : E mem A := fun m =>
  match c (mkst (csr_of (fcr31 (ctx m))) (log m)) with
  | Some (a, s) =>
      Some (inr a, mkmach (xcp m) (mkctx (fpr (ctx m)) (csr_word (fcsr s))) (stats m) (umem m)
                     (sent m) (klog s) (hwfcr31 m))
  | None => None
  end.
End Monad.

Declare Scope emu_scope.
Delimit Scope emu_scope with emu.
Notation "x <-- m ;; k" := (ebind m (fun x => k))
  (at level 62, m at next level, right associativity) : emu_scope.
Notation "m ;;> k" := (ebind m (fun _ => k)) (at level 62, right associativity) : emu_scope.
#[global] Open Scope emu_scope.

(** ** User accesses of the emulator *)

Section Uaccess.
Context {mem : Type} `{UserMem mem}.

Definition get_user (n a : Z) (m : machine mem) : option Z :=
  if access_ok (umem m) a n then __get_user (umem m) n a else None.
Definition put_user (n a v : Z) (m : machine mem) : option mem :=
  if access_ok (umem m) a n then __put_user (umem m) n a v else None.

(** [if (get_user(x, a)) { fpuemustats.errors++; return SIGBUS; }]. *)
Definition fetch (n a : Z) : E mem Z := fun m =>
  match get_user n a m with
  | Some v => Some (inr v, m)
  | None => Some (inl SIGBUS, count_error m)
  end.
Definition stash (n a v : Z) : E mem unit := fun m =>
  match put_user n a v m with
  | Some u => Some (inr tt, set_umem u m)
  | None => Some (inl SIGBUS, count_error m)
  end.
End Uaccess.

(** Width of [unsigned long]. *)
Definition XLEN (mips64 : bool) : Z := if mips64 then 64 else 32.
