(* ===== verification/ByteMem.v ===== *)
(** * A concrete user memory

    Byte-addressed, little endian, with the mapped bytes given by a finite
    interval: the instance of the uaccess interface the examples run on. *)

From S2P Require Import Prelude Rounding Ieee754 Inst Machine.

(** Mapped addresses are [lo .. hi); bytes never written read as zero. *)
Record bytemem := mkmem { m_lo : Z; m_hi : Z; m_bytes : list (Z * Z) }.

Fixpoint assoc (a : Z) (l : list (Z * Z)) : Z :=
  match l with
  | [] => 0
  | (b, v) :: t => if a =? b then v else assoc a t
  end.

Fixpoint load_bytes (n : nat) (a : Z) (l : list (Z * Z)) : Z :=
  match n with
  | O => 0
  | S n => assoc a l mod 256 + 256 * load_bytes n (a + 1) l
  end.

Fixpoint store_bytes (n : nat) (a v : Z) (l : list (Z * Z)) : list (Z * Z) :=
  match n with
  | O => l
  | S n => (a, v mod 256) :: store_bytes n (a + 1) (v / 256) l
  end.

Definition in_range (m : bytemem) (a n : Z) : bool := (m_lo m <=? a) && (a + n <=? m_hi m) && (0 <=? n).

Definition bm_get (m : bytemem) (n a : Z) : option Z :=
  if in_range m a n then Some (load_bytes (Z.to_nat n) a (m_bytes m)) else None.
Definition bm_put (m : bytemem) (n a v : Z) : option bytemem :=
  if in_range m a n then
    Some (mkmem (m_lo m) (m_hi m) (store_bytes (Z.to_nat n) a v (m_bytes m)))
  else None.

(** The bytes of a store. *)
Lemma assoc_store_out n a v l b :
  b < a \/ a + Z.of_nat n <= b -> assoc b (store_bytes n a v l) = assoc b l.
Proof.
  revert a v; induction n as [|n IH]; intros a v Hb; cbn [store_bytes assoc]; [reflexivity|].
  destruct (Z.eqb_spec b a); [lia|apply IH; lia].
Qed.

Lemma load_ext n a l l' :
  (forall b, a <= b < a + Z.of_nat n -> assoc b l = assoc b l') -> load_bytes n a l = load_bytes n a l'.
Proof.
  revert a; induction n as [|n IH]; intros a Hb; cbn [load_bytes]; [reflexivity|].
  rewrite (Hb a), (IH (a + 1)) by (intros; try apply Hb; lia); reflexivity.
Qed.

Lemma load_store n a v l : 0 <= v < 256 ^ Z.of_nat n -> load_bytes n a (store_bytes n a v l) = v.
Proof.
  revert a v l; induction n as [|n IH]; intros a v l Hv.
  - cbn in *; lia.
  - cbn [load_bytes store_bytes assoc]; rewrite Z.eqb_refl, Zmod_mod.
    rewrite (load_ext n (a + 1) _ (store_bytes n (a + 1) (v / 256) l)), IH.
    + pose proof (Z.div_mod v 256); lia.
    + rewrite Nat2Z.inj_succ, Z.pow_succ_r in Hv by lia; Z.div_mod_to_equations; lia.
    + intros b Hb; cbn [assoc]; destruct (Z.eqb_spec b a); [lia|reflexivity].
Qed.

Lemma load_range n a l : 0 <= load_bytes n a l < 256 ^ Z.of_nat n.
Proof.
  revert a; induction n as [|n IH]; intros a; cbn [load_bytes]; [cbn; lia|].
  rewrite Nat2Z.inj_succ, Z.pow_succ_r by lia; specialize (IH (a + 1)).
  pose proof (Z.mod_pos_bound (assoc a l) 256); lia.
Qed.

Lemma byte_pow n : 0 <= n -> 2 ^ (8 * n) = 256 ^ n.
Proof. intros; rewrite Z.pow_mul_r by lia; reflexivity. Qed.

#[export] Instance byte_user_mem : UserMem bytemem.
Proof.
  refine {| access_ok := in_range; __get_user := bm_get; __put_user := bm_put |};
    unfold bm_get, bm_put.
  - intros m m' n a v Hv E; destruct (in_range m a n) eqn:R; [|discriminate]; injection E as <-.
    unfold in_range in *; cbn [m_lo m_hi m_bytes]; rewrite R; f_equal; apply load_store.
    zbool; rewrite Z2Nat.id, <- byte_pow by lia; exact Hv.
  - intros m m' n a v k b E D; destruct (in_range m a n) eqn:R; [|discriminate]; injection E as <-.
    unfold in_range in *; cbn [m_lo m_hi m_bytes]; destruct (_ && _ && (0 <=? k)) eqn:R'; [|reflexivity].
    zbool; f_equal; apply load_ext; intros i Hi; apply assoc_store_out.
    rewrite Z2Nat.id in * by lia; lia.
  - intros m m' n a v b k E; destruct (in_range m a n); [|discriminate]; injection E as <-; reflexivity.
  - intros m n a v E; destruct (in_range m a n) eqn:R; [|discriminate]; injection E as <-.
    unfold in_range in R; zbool; rewrite byte_pow by lia.
    pose proof (load_range (Z.to_nat n) a (m_bytes m)) as L; rewrite Z2Nat.id in L by lia; exact L.
Defined.

(** A task for the examples: 4 KiB of user memory, 1.5 in [f2] and -3 in
    [f4], the stack pointer at 0x800 and the address 0x100 in [r4]. *)
Definition demo (w : Z) : machine bytemem :=
  mkmach (mkregs (upd (upd (repeat 0 32) 29 0x800) 4 0x100) 0x400 0 0 0)
         (mkctx (upd (upd (repeat 0 32) 2 (bits DP (one_half DP))) 4 (bits DP (minus_three DP))) w)
         (mkstats 0 0 0 0 0 0) (mkmem 0 0x1000 []) [] [] None.
