(* ===== verification/Branch.v ===== *)
(** * Branch emulation

    Models [__compute_return_epc] of [kernel/branch.c] (and the inline
    functions of [asm/branch.h]): where execution continues after the branch
    at [cp0_epc].  The DSP ASE test and register are parameters. *)

From S2P Require Import Prelude Rounding Ieee754 Inst Machine.

(** [case a: case b: ...]. *)
Definition one_of (x : Z) (l : list Z) : bool := existsb (Z.eqb x) l.

Section Branch.
Context (mips64 : bool) {mem : Type} `{UserMem mem}.
Variables (cpu_has_dsp : bool) (rddsp : Z).
#[local] Abbreviation mach := (machine mem).

Let W := XLEN mips64.

(** [epc + 4 + (simmediate << 2)] or [epc + 8]. *)
Definition branch_target (epc insn : Z) (taken : bool) : Z :=
  wrap W (if taken then epc + 4 + MIPSInst_SIMM insn * 4 else epc + 8).

Definition reg (m : mach) (i : Z) : Z := sel (gpr (xcp m)) i.
Definition sreg (m : mach) (i : Z) : Z := swrap W (reg m i).

(** [bcond_op]: branches on the sign of [rs], with and without link. *)
Definition bcond_epc (epc insn : Z) (m : mach) : Z * mach :=
  let rs := MIPSInst_RS insn in
  let rt := MIPSInst_RT insn in
  let link := set_gpr 31 (wrap W (epc + 8)) in
  let go t m := (0, set_epc (branch_target epc insn t) m) in
  if one_of rt [bltz_op; bltzl_op] then go (sreg m rs <? 0) m
  else if one_of rt [bgez_op; bgezl_op] then go (sreg m rs >=? 0) m
  else if one_of rt [bltzal_op; bltzall_op] then let m := link m in go (sreg m rs <? 0) m
  else if one_of rt [bgezal_op; bgezall_op] then let m := link m in go (sreg m rs >=? 0) m
  else if rt =? bposge32_op then
    if negb cpu_has_dsp then (- EFAULT, force_sig SIGBUS m) else go (rddsp >=? 32) m
  else (0, m).

(** The FPU branches: the condition bit is 23 for code 0, else 24 + code. *)
Definition bc1_epc (epc insn : Z) (m : mach) : mach :=
  let fcr := match hwfcr31 m with Some v => v | None => fcr31 (ctx m) end in
  let rt := MIPSInst_RT insn in
  let bit := Z.shiftr rt 2 in
  let bit := bit + b2z (tst bit) + 23 in
  let c := Z.testbit fcr bit in
  set_epc (branch_target epc insn (if one_of (Z.land rt 3) [0; 2] then negb c else c)) m.

Definition __compute_return_epc (m : mach) : Z * mach :=
  let epc := cp0_epc (xcp m) in
  if tst (Z.land epc 3) then (- EFAULT, force_sig SIGBUS m)
  else
    match __get_user (umem m) 4 epc with
    | None => (- EFAULT, force_sig SIGSEGV m)
    | Some insn =>
      let m := set_gpr 0 0 m in
      let op := MIPSInst_OPCODE insn in
      let rs := MIPSInst_RS insn in
      let rt := MIPSInst_RT insn in
      let go t := (0, set_epc (branch_target epc insn t) m) in
      if op =? spec_op then
        if MIPSInst_FUNC insn =? jalr_op then
          let m := set_gpr (MIPSInst_RD insn) (wrap W (epc + 8)) m in
          (0, set_epc (reg m rs) m)
        else if MIPSInst_FUNC insn =? jr_op then (0, set_epc (reg m rs) m)
        else (0, m)
      else if op =? bcond_op then bcond_epc epc insn m
      else if one_of op [jal_op; j_op] then
        let m := if op =? jal_op then set_gpr 31 (wrap W (epc + 8)) m else m in
        let epc := Z.shiftl (Z.shiftr (swrap W (epc + 4)) 28) 28 in
        (0, set_epc (wrap W (Z.lor epc (Z.shiftl (MIPSInst_JTARGET insn) 2))) m)
      else if one_of op [beq_op; beql_op] then go (reg m rs =? reg m rt)
      else if one_of op [bne_op; bnel_op] then go (negb (reg m rs =? reg m rt))
      else if one_of op [blez_op; blezl_op] then go (sreg m rs <=? 0)
      else if one_of op [bgtz_op; bgtzl_op] then go (sreg m rs >? 0)
      else if op =? cop1_op then (0, bc1_epc epc insn m)
      else (0, m)
    end.

(** [asm/branch.h]: in a delay slot the branch decides, else the next
    instruction follows. *)
Definition delay_slot (m : mach) : bool := tst (Z.land (cp0_cause (xcp m)) CAUSEF_BD).

Definition exception_epc (m : mach) : Z :=
  if negb (delay_slot m) then cp0_epc (xcp m) else wrap W (cp0_epc (xcp m) + 4).

Definition compute_return_epc (m : mach) : Z * mach :=
  if negb (delay_slot m) then (0, set_epc (wrap W (cp0_epc (xcp m) + 4)) m)
  else __compute_return_epc m.
End Branch.
