(* ===== verification/Dsemul.v ===== *)
(** * Delay-slot trampolines

    Models [dsemul.c]: a non-FPU instruction in the delay slot of an emulated
    FPU branch is copied to a frame on the user stack, followed by an
    instruction that traps; [do_dsemulret] recognises that trap and continues
    at the address saved in the frame. *)

From S2P Require Import Prelude Rounding Ieee754 Inst Machine.

Definition AdELOAD : Z := 0x8c000001.
Definition CP1UNDEF : Z := 0x44400001.
Definition BD_COOKIE : Z := 0x0000bd36.
Definition BADINST : Z := AdELOAD.

Section Dsemul.
Context (mips64 : bool) {mem : Type} `{UserMem mem}.
#[local] Abbreviation mach := (machine mem).

Let W := XLEN mips64.

(** [struct emuframe]: three instructions and an [unsigned long]. *)
Definition off_emul : Z := 0.
Definition off_badinst : Z := 4.
Definition off_cookie : Z := 8.
Definition off_epc : Z := if mips64 then 16 else 12.
Definition emuframe_size : Z := if mips64 then 24 else 16.

(** [err |= __put_user(v, p)]. *)
Definition put_err (n a v : Z) (p : bool * mem) : bool * mem :=
  let '(err, u) := p in
  match __put_user u n a v with
  | Some u' => (err, u')
  | None => (true, u)
  end.

Definition mips_dsemul (ir cpc : Z) (m : mach) : Z * mach :=
  if ir =? 0 then
    (0, set_cause (Z.land (cp0_cause (xcp m)) (Z.lnot CAUSEF_BD)) (set_epc cpc m))
  else
    let fr := Z.land (wrap W (sel (gpr (xcp m)) 29 - emuframe_size)) (Z.lnot 7) in
    if negb (access_ok (umem m) fr emuframe_size) then (SIGBUS, m)
    else
      let '(err, u) :=
        put_err (W / 8) (fr + off_epc) cpc
          (put_err 4 (fr + off_cookie) BD_COOKIE
            (put_err 4 (fr + off_badinst) BADINST
              (put_err 4 (fr + off_emul) ir (false, umem m)))) in
      let m := set_umem u m in
      if err then (SIGBUS, count_error m)
      else (SIGILL, set_epc (fr + off_emul) m).

Definition do_dsemulret (m : mach) : Z * mach :=
  let fr := wrap W (cp0_epc (xcp m) - 4) in
  if negb (access_ok (umem m) fr emuframe_size) then (0, m)
  else
    match __get_user (umem m) 4 (fr + off_badinst), __get_user (umem m) 4 (fr + off_cookie) with
    | Some insn, Some cookie =>
        if negb (insn =? BADINST) || negb (cookie =? BD_COOKIE) then (0, count_error m)
        else
          match __get_user (umem m) (W / 8) (fr + off_epc) with
          | None => (0, force_sig SIGBUS m)
          | Some epc => (1, set_epc epc m)
          end
    | _, _ => (0, count_error m)
    end.
End Dsemul.
