(* ===== verification/Cp1emu.v ===== *)
(** * The FPU instruction emulator

    Models [cp1emu.c] for MIPS IV ([__mips] is 4 in that file): register
    access, the arithmetic instructions ([fpu_emu]), the COP1X instructions
    ([fpux_emu]), loads, stores, moves, branches and control ([cop1Emulate])
    and the loop over consecutive instructions ([fpu_emulator_cop1Handler]).

    [ieee754_csr] is an alias of [ctx->fcr31], so the arithmetic runs on the
    register word through [csr_of] and [csr_word]. *)

From S2P Require Import Prelude Rounding Ieee754 AddSub Mul Div FromInt ToInt Cmp Simple Sqrt.
From S2P Require Import Inst Machine Branch Dsemul.

(** ** Constants *)

Definition FPU_CSR_FLUSH : Z := 0x01000000.
Definition FPU_CSR_ALL_X : Z := 0x0003f000.
Definition FPU_CSR_ALL_E : Z := 0x00000f80.
Definition FPU_CSR_ALL_S : Z := 0x0000007c.
Definition FPU_CSR_INV_X : Z := 0x00010000.
Definition FPU_CSR_DIV_X : Z := 0x00008000.
Definition FPU_CSR_OVF_X : Z := 0x00004000.
Definition FPU_CSR_UDF_X : Z := 0x00002000.
Definition FPU_CSR_INE_X : Z := 0x00001000.
Definition FPU_CSR_INV_S : Z := 0x00000040.
Definition FPU_CSR_DIV_S : Z := 0x00000020.
Definition FPU_CSR_OVF_S : Z := 0x00000010.
Definition FPU_CSR_UDF_S : Z := 0x00000008.
Definition FPU_CSR_INE_S : Z := 0x00000004.
Definition FPCREG_CSR : Z := 31.

(** The MIPS encoding has toward +infinity as 2 and toward -infinity as 3; the
    library's encoding is the other way round. *)
Definition ieee_rm (x : Z) : Z := nth (Z.to_nat x) [0; 1; 3; 2] 0.
Definition mips_rm (x : Z) : Z := nth (Z.to_nat x) [0; 1; 3; 2] 0.

Definition fpucondbit (i : Z) : Z :=
  nth (Z.to_nat i) [0x00800000; 0x02000000; 0x04000000; 0x08000000;
                    0x10000000; 0x20000000; 0x40000000; 0x80000000] 0.

Definition cmptab (i : Z) : Z :=
  nth (Z.to_nat i) [0; CUN; CEQ; Z.lor CEQ CUN; CLT; Z.lor CLT CUN; Z.lor CLT CEQ;
                    Z.lor (Z.lor CLT CEQ) CUN] 0.

(** [isBranchInstr]. *)
Definition isBranchInstr (i : Z) : bool :=
  let op := MIPSInst_OPCODE i in
  if op =? spec_op then one_of (MIPSInst_FUNC i) [jalr_op; jr_op]
  else if op =? bcond_op then
    one_of (MIPSInst_RT i) [bltz_op; bgez_op; bltzl_op; bgezl_op; bltzal_op; bgezal_op;
                            bltzall_op; bgezall_op]
  else if one_of op [j_op; jal_op; jalx_op; beq_op; bne_op; blez_op; bgtz_op; beql_op; bnel_op;
                     blezl_op; bgtzl_op] then true
  else if one_of op [cop0_op; cop1_op; cop2_op; cop1x_op] then MIPSInst_RS i =? bc_op
  else false.

(** ** Fused operations: [DEF3OP] and the reciprocals *)

(** The causes and flags of the steps accumulate. *)
Definition fpemu_3op (f1 f2 : ieee754 -> ieee754 -> M ieee754) (f3 : ieee754 -> M ieee754)
    (r s t : ieee754) : M ieee754 :=
  s <- f1 s t ;;
  save <- gets fcsr ;;
  s <- f2 s r ;;
  mid <- gets fcsr ;;
  s <- f3 s ;;
  modify (upd_csr (fun c =>
    with_sx (Z.lor (sx c) (Z.lor (sx save) (sx mid)))
      (with_cx (Z.lor (cx c) (Z.lor (cx save) (cx mid))) c))) ;;;
  ret s.

Definition fpemu_madd (f : fmt) := fpemu_3op (ieee754_mul f) (ieee754_add f) ret.
Definition fpemu_msub (f : fmt) := fpemu_3op (ieee754_mul f) (ieee754_sub f) ret.
Definition fpemu_nmadd (f : fmt) := fpemu_3op (ieee754_mul f) (ieee754_add f) (ieee754_neg f).
Definition fpemu_nmsub (f : fmt) := fpemu_3op (ieee754_mul f) (ieee754_sub f) (ieee754_neg f).

Definition fpemu_recip (f : fmt) (d : ieee754) : M ieee754 :=
  ieee754_div f (ieee754_one f false) d.
Definition fpemu_rsqrt (f : fmt) (d : ieee754) : M ieee754 :=
  q <- ieee754_sqrt f d ;; ieee754_div f (ieee754_one f false) q.

(** ** Register file *)

Section Regs.
Context {mem : Type}.
#[local] Abbreviation mach := (machine mem).

Definition fr_bit (m : mach) : bool := tst (Z.land (cp0_status (xcp m)) ST0_FR).

(** [x & ~((xcp->cp0_status & FR_BIT) == 0)]. *)
Definition fpr_index (m : mach) (x : Z) : Z := if fr_bit m then x else Z.land x (Z.lnot 1).
Definition even_index (x : Z) : Z := Z.land x (Z.lnot 1).

(** A single is the low half of an even register, or of any register in FR=1
    mode, else the high half of the even register below. *)
Definition SIFROMREG (m : mach) (x : Z) : Z :=
  swrap 32 (if fr_bit m || negb (tst (Z.land x 1)) then sel (fpr (ctx m)) x
            else Z.shiftr (sel (fpr (ctx m)) (even_index x)) 32).
Definition SITOREG (si x : Z) (m : mach) : mach :=
  let old := sel (fpr (ctx m)) (even_index x) in
  set_fpr (fpr_index m x)
    (if fr_bit m || negb (tst (Z.land x 1)) then
       Z.lor (shl 64 (Z.shiftr old 32) 32) (wrap 32 si)
     else Z.lor (Z.shiftr (shl 64 old 32) 32) (shl 64 si 32)) m.
Definition DIFROMREG (m : mach) (x : Z) : Z := sel (fpr (ctx m)) (fpr_index m x).
Definition DITOREG (di x : Z) (m : mach) : mach := set_fpr (fpr_index m x) (wrap 64 di) m.

Definition SPFROMREG (m : mach) (x : Z) : ieee754 := of_bits SP (wrap 32 (SIFROMREG m x)).
Definition SPTOREG (v : ieee754) : Z -> mach -> mach := SITOREG (bits SP v).
Definition DPFROMREG (m : mach) (x : Z) : ieee754 := of_bits DP (DIFROMREG m x).
Definition DPTOREG (v : ieee754) : Z -> mach -> mach := DITOREG (bits DP v).

(** Reading and writing by format. *)
Definition FROMREG (f : fmt) (x : Z) : E mem ieee754 :=
  egets (fun m => match f with SP => SPFROMREG m x | DP => DPFROMREG m x end).

(** [copcsr]: the causes of the operation just done, as FCR31 bits. *)
Definition copcsr (m : mach) : Z :=
  let t x := tst (Z.land (cx (csr_of (fcr31 (ctx m)))) x) in
  Z.lor (if t INEXACT then Z.lor FPU_CSR_INE_X FPU_CSR_INE_S else 0)
  (Z.lor (if t UNDERFLOW then Z.lor FPU_CSR_UDF_X FPU_CSR_UDF_S else 0)
  (Z.lor (if t OVERFLOW then Z.lor FPU_CSR_OVF_X FPU_CSR_OVF_S else 0)
  (Z.lor (if t ZERO_DIVIDE then Z.lor FPU_CSR_DIV_X FPU_CSR_DIV_S else 0)
         (if t INVALID_OPERATION then Z.lor FPU_CSR_INV_X FPU_CSR_INV_S else 0)))).

(** The same in [fpux_emu], which has no divide-by-zero line. *)
Definition copcsr_x (m : mach) : Z :=
  let t x := tst (Z.land (cx (csr_of (fcr31 (ctx m)))) x) in
  Z.lor (if t INEXACT then Z.lor FPU_CSR_INE_X FPU_CSR_INE_S else 0)
  (Z.lor (if t UNDERFLOW then Z.lor FPU_CSR_UDF_X FPU_CSR_UDF_S else 0)
  (Z.lor (if t OVERFLOW then Z.lor FPU_CSR_OVF_X FPU_CSR_OVF_S else 0)
         (if t INVALID_OPERATION then Z.lor FPU_CSR_INV_X FPU_CSR_INV_S else 0))).

(** [ctx->fcr31 = (ctx->fcr31 & ~FPU_CSR_ALL_X) | rcsr], then the trap test. *)
Definition csr_trap (m : mach) : bool :=
  let w := fcr31 (ctx m) in
  tst (Z.land (Z.land (Z.shiftr w 5) w) FPU_CSR_ALL_E).
Definition csr_update (rcsr : Z) : E mem unit :=
  emod (fun m => set_fcr31 (Z.lor (Z.land (fcr31 (ctx m)) (Z.lnot FPU_CSR_ALL_X)) rcsr) m) ;;>
  t <-- egets csr_trap ;;
  if t then throw SIGFPE else eret tt.
End Regs.

(** ** Arithmetic instructions *)

(** [rv] with its [rfmt]; [RvC] is the result of a compare ([rfmt == -1]). *)
Inductive rval := RvS (v : ieee754) | RvD (v : ieee754) | RvW (z : Z) | RvL (z : Z) | RvC (z : Z).

(** What the format switch of [fpu_emu] decides: nothing more to do
    ([return 0]), or a result and the exception bits to record. *)
Inductive outcome := Skip | Done (rcsr : Z) (rv : rval).

Definition rv_fmt (f : fmt) (v : ieee754) : rval := match f with SP => RvS v | DP => RvD v end.

(** Convert in the mode of the instruction, then restore the mode. *)
Definition in_mode (func : Z) (c : M Z) : M Z :=
  oldrm <- gets (fun s => rm (fcsr s)) ;;
  modify (upd_csr (with_rm (rm_of (ieee_rm (Z.land func 0x3))))) ;;;
  z <- c ;;
  modify (upd_csr (with_rm oldrm)) ;;;
  ret z.

Section FpuEmu.
Context (mips64 : bool) {mem : Type}.
#[local] Abbreviation mach := (machine mem).

(** [goto copcsr]. *)
Definition goto_copcsr (rv : rval) : E mem outcome :=
  rcsr <-- egets copcsr ;; eret (Done rcsr rv).

(** The binary handlers ([scopbop], [dcopbop]). *)
Definition bop (f : fmt) (func : Z) : option (ieee754 -> ieee754 -> M ieee754) :=
  if func =? fadd_op then Some (ieee754_add f)
  else if func =? fsub_op then Some (ieee754_sub f)
  else if func =? fmul_op then Some (ieee754_mul f)
  else if func =? fdiv_op then Some (ieee754_div f)
  else None.

(** The unary handlers ([scopuop], [dcopuop]). *)
Definition uop (f : fmt) (func : Z) : option (ieee754 -> M ieee754) :=
  if func =? fsqrt_op then Some (ieee754_sqrt f)
  else if func =? frsqrt_op then Some (fpemu_rsqrt f)
  else if func =? frecip_op then Some (fpemu_recip f)
  else if func =? fabs_op then Some (ieee754_abs f)
  else if func =? fneg_op then Some (ieee754_neg f)
  else None.

(** The conditional moves: whether to move. *)
Definition movc_cond (ir : Z) (m : mach) : option bool :=
  let func := MIPSInst_FUNC ir in
  let ft := MIPSInst_FT ir in
  let rt := sel (gpr (xcp m)) ft in
  if func =? fmovc_op then
    Some (Bool.eqb (tst (Z.land (fcr31 (ctx m)) (fpucondbit (Z.shiftr ft 2)))) (tst (Z.land ft 1)))
  else if func =? fmovz_op then Some (rt =? 0)
  else if func =? fmovn_op then Some (negb (rt =? 0))
  else None.

(** Conversions out of format [f]. *)
Definition cvt (f : fmt) (ir : Z) : E mem outcome :=
  let func := MIPSInst_FUNC ir in
  fs <-- FROMREG f (MIPSInst_FS ir) ;;
  if func =? fcvts_op then
    match f with
    | SP => throw SIGILL
    | DP => v <-- ieee (ieee754sp_fdp fs) ;; goto_copcsr (RvS v)
    end
  else if func =? fcvtd_op then
    match f with
    | SP => v <-- ieee (ieee754dp_fsp fs) ;; goto_copcsr (RvD v)
    | DP => throw SIGILL
    end
  else if func =? fcvtw_op then z <-- ieee (ieee754_tint f fs) ;; goto_copcsr (RvW z)
  else if (fround_op <=? func) && (func <=? ffloor_op) then
    z <-- ieee (in_mode func (ieee754_tint f fs)) ;; goto_copcsr (RvW z)
  else if mips64 && (func =? fcvtl_op) then z <-- ieee (ieee754_tlong f fs) ;; goto_copcsr (RvL z)
  else if mips64 && (froundl_op <=? func) && (func <=? ffloorl_op) then
    z <-- ieee (in_mode func (ieee754_tlong f fs)) ;; goto_copcsr (RvL z)
  else throw SIGILL.

(** Comparisons: a signalling one records only invalid operation. *)
Definition fcmp (f : fmt) (ir : Z) : E mem outcome :=
  let cmpop := MIPSInst_FUNC ir - fcmp_op in
  let sig := tst (Z.land cmpop 0x8) in
  fs <-- FROMREG f (MIPSInst_FS ir) ;;
  ft <-- FROMREG f (MIPSInst_FT ir) ;;
  z <-- ieee (ieee754_cmp f fs ft (cmptab (Z.land cmpop 0x7)) sig) ;;
  inv <-- egets (fun m => tst (Z.land (cx (csr_of (fcr31 (ctx m)))) INVALID_OPERATION)) ;;
  if sig && inv then eret (Done (Z.lor FPU_CSR_INV_X FPU_CSR_INV_S) (RvC z))
  else goto_copcsr (RvC z).

(** [case s_fmt] and [case d_fmt] of the format switch. *)
Definition fpu_emu_fmt (f : fmt) (ir : Z) : E mem outcome :=
  let func := MIPSInst_FUNC ir in
  mv <-- egets (movc_cond ir) ;;
  match bop f func, uop f func, mv with
  | Some h, _, _ =>
      fs <-- FROMREG f (MIPSInst_FS ir) ;;
      ft <-- FROMREG f (MIPSInst_FT ir) ;;
      v <-- ieee (h fs ft) ;; goto_copcsr (rv_fmt f v)
  | _, Some h, _ =>
      fs <-- FROMREG f (MIPSInst_FS ir) ;;
      v <-- ieee (h fs) ;; goto_copcsr (rv_fmt f v)
  | _, _, Some false => eret Skip
  | _, _, Some true => v <-- FROMREG f (MIPSInst_FS ir) ;; eret (Done 0 (rv_fmt f v))
  | _, _, _ =>
      if func =? fmov_op then v <-- FROMREG f (MIPSInst_FS ir) ;; goto_copcsr (rv_fmt f v)
      else if func >=? fcmp_op then fcmp f ir
      else cvt f ir
  end.

(** [case w_fmt] and [case l_fmt]: integers to floating point. *)
Definition fpu_emu_int (ir : Z) (long : bool) : E mem outcome :=
  let func := MIPSInst_FUNC ir in
  if long then
    x <-- egets (fun m => swrap 64 (sel (fpr (ctx m)) (MIPSInst_FS ir))) ;;
    if func =? fcvts_op then v <-- ieee (ieee754sp_flong x) ;; goto_copcsr (RvS v)
    else if func =? fcvtd_op then v <-- ieee (ieee754dp_flong x) ;; goto_copcsr (RvD v)
    else throw SIGILL
  else
    x <-- egets (fun m => SIFROMREG m (MIPSInst_FS ir)) ;;
    if func =? fcvts_op then v <-- ieee (ieee754sp_fint x) ;; goto_copcsr (RvS v)
    else if func =? fcvtd_op then v <-- ieee (ieee754dp_fint x) ;; goto_copcsr (RvD v)
    else throw SIGILL.

(** The write-back at the end of [fpu_emu]. *)
Definition write_back (rv : rval) (fd : Z) (m : mach) : mach :=
  match rv with
  | RvC z =>
      let cond := fpucondbit (Z.shiftr fd 2) in
      let w := fcr31 (ctx m) in
      set_fcr31 (if tst z then Z.lor w cond else Z.land w (Z.lnot cond)) m
  | RvD v => DPTOREG v fd m
  | RvS v => SPTOREG v fd m
  | RvW z => SITOREG z fd m
  | RvL z => DITOREG z fd m
  end.

Definition fpu_emu (ir : Z) : E mem unit :=
  emod count_cp1op ;;>
  let rfmt := Z.land (MIPSInst_FFMT ir) 0xf in
  o <-- (if rfmt =? s_fmt then fpu_emu_fmt SP ir
         else if rfmt =? d_fmt then fpu_emu_fmt DP ir
         else if rfmt =? w_fmt then fpu_emu_int ir false
         else if mips64 && (rfmt =? l_fmt) then fpu_emu_int ir true
         else throw SIGILL) ;;
  match o with
  | Skip => eret tt
  | Done rcsr rv => csr_update rcsr ;;> emod (write_back rv (MIPSInst_FD ir))
  end.
End FpuEmu.

(** ** COP1X instructions *)

Section Fpux.
Context (mips64 : bool) {mem : Type} `{UserMem mem}.
#[local] Abbreviation mach := (machine mem).

(** [xcp->regs[MIPSInst_FR(ir)] + xcp->regs[MIPSInst_FT(ir)]]. *)
Definition xaddr (ir : Z) (m : mach) : Z :=
  wrap (XLEN mips64) (sel (gpr (xcp m)) (MIPSInst_FR ir) + sel (gpr (xcp m)) (MIPSInst_FT ir)).

Definition fma_handler (f : fmt) (func : Z) : option (ieee754 -> ieee754 -> ieee754 -> M ieee754) :=
  let pick a b := match f with SP => a | DP => b end in
  if func =? pick madd_s_op madd_d_op then Some (fpemu_madd f)
  else if func =? pick msub_s_op msub_d_op then Some (fpemu_msub f)
  else if func =? pick nmadd_s_op nmadd_d_op then Some (fpemu_nmadd f)
  else if func =? pick nmsub_s_op nmsub_d_op then Some (fpemu_nmsub f)
  else None.

Definition fpux_fmt (f : fmt) (ir : Z) : E mem unit :=
  let func := MIPSInst_FUNC ir in
  let size := match f with SP => 4 | DP => 8 end in
  let TOREG v := match f with SP => SITOREG v (MIPSInst_FD ir) | DP => DITOREG v (MIPSInst_FD ir) end in
  if func =? (match f with SP => lwxc1_op | DP => ldxc1_op end) then
    va <-- egets (xaddr ir) ;;
    emod count_load ;;>
    v <-- fetch size va ;;
    emod (TOREG v)
  else if func =? (match f with SP => swxc1_op | DP => sdxc1_op end) then
    va <-- egets (xaddr ir) ;;
    emod count_store ;;>
    v <-- egets (fun m => match f with SP => wrap 32 (SIFROMREG m (MIPSInst_FS ir))
                                     | DP => DIFROMREG m (MIPSInst_FS ir) end) ;;
    stash size va v
  else
    match fma_handler f func with
    | None => throw SIGILL
    | Some h =>
        fr <-- FROMREG f (MIPSInst_FR ir) ;;
        fs <-- FROMREG f (MIPSInst_FS ir) ;;
        ft <-- FROMREG f (MIPSInst_FT ir) ;;
        fd <-- ieee (h fr fs ft) ;;
        emod (match f with SP => SPTOREG fd (MIPSInst_FD ir) | DP => DPTOREG fd (MIPSInst_FD ir) end) ;;>
        rcsr <-- egets copcsr_x ;;
        csr_update rcsr
    end.

Definition fpux_emu (ir : Z) : E mem unit :=
  emod count_cp1xop ;;>
  let fmt := MIPSInst_FMA_FFMT ir in
  if fmt =? s_fmt then fpux_fmt SP ir
  else if fmt =? d_fmt then fpux_fmt DP ir
  else if fmt =? 0x7 then
    if negb (MIPSInst_FUNC ir =? pfetch_op) then throw SIGILL else eret tt
  else throw SIGILL.
End Fpux.

(** ** [cop1Emulate] *)

Section Cop1.
Context (mips64 : bool) {mem : Type} `{UserMem mem}.
Variables (cpu_has_dsp : bool) (rddsp : Z).
#[local] Abbreviation mach := (machine mem).

Let W := XLEN mips64.

(** [return f(...)] for a routine that updates the frame. *)
Definition returns {A} (g : mach -> Z * mach) : E mem A :=
  fun m => let '(sig, m') := g m in Some (inl sig, m').

(** [xcp->regs[MIPSInst_RS(ir)] + MIPSInst_SIMM(ir)]. *)
Definition vaddr (ir : Z) (m : mach) : Z :=
  wrap W (sel (gpr (xcp m)) (MIPSInst_RS ir) + MIPSInst_SIMM ir).

Definition emu_ldc1 (ir : Z) : E mem unit :=
  va <-- egets (vaddr ir) ;;
  emod count_load ;;> v <-- fetch 8 va ;; emod (DITOREG v (MIPSInst_RT ir)).
Definition emu_sdc1 (ir : Z) : E mem unit :=
  va <-- egets (vaddr ir) ;;
  emod count_store ;;> v <-- egets (fun m => DIFROMREG m (MIPSInst_RT ir)) ;; stash 8 va v.
Definition emu_lwc1 (ir : Z) : E mem unit :=
  va <-- egets (vaddr ir) ;;
  emod count_load ;;> v <-- fetch 4 va ;; emod (SITOREG v (MIPSInst_RT ir)).
Definition emu_swc1 (ir : Z) : E mem unit :=
  va <-- egets (vaddr ir) ;;
  emod count_store ;;>
  v <-- egets (fun m => wrap 32 (SIFROMREG m (MIPSInst_RT ir))) ;; stash 4 va v.

(** Moves between the register files. *)
Definition emu_mfc (ir : Z) : E mem unit :=
  emod (fun m => if MIPSInst_RT ir =? 0 then m
                 else set_gpr (MIPSInst_RT ir) (wrap W (SIFROMREG m (MIPSInst_RD ir))) m).
Definition emu_mtc (ir : Z) : E mem unit :=
  emod (fun m => SITOREG (sel (gpr (xcp m)) (MIPSInst_RT ir)) (MIPSInst_RD ir) m).
Definition emu_dmfc (ir : Z) : E mem unit :=
  emod (fun m => if MIPSInst_RT ir =? 0 then m
                 else set_gpr (MIPSInst_RT ir) (DIFROMREG m (MIPSInst_RD ir)) m).
Definition emu_dmtc (ir : Z) : E mem unit :=
  emod (fun m => DITOREG (sel (gpr (xcp m)) (MIPSInst_RT ir)) (MIPSInst_RD ir) m).

(** Control register moves; the rounding mode changes encoding on the way. *)
Definition csr_read (w : Z) : Z := Z.lor (Z.land w (Z.lnot 0x3)) (mips_rm (Z.land w 0x3)).
Definition csr_mask : Z := Z.lor (Z.lor (Z.lor FPU_CSR_FLUSH FPU_CSR_ALL_E) FPU_CSR_ALL_S) 0x03.
Definition csr_write (w value : Z) : Z :=
  let value := Z.land value csr_mask in
  Z.lor (Z.land w (Z.lnot csr_mask)) (Z.lor (Z.land value (Z.lnot 0x3)) (ieee_rm (Z.land value 0x3))).

Definition emu_cfc (ir : Z) : E mem unit :=
  if ir =? CP1UNDEF then returns (do_dsemulret mips64)
  else
    emod (fun m =>
      let value := if MIPSInst_RD ir =? FPCREG_CSR then csr_read (fcr31 (ctx m)) else 0 in
      if MIPSInst_RT ir =? 0 then m else set_gpr (MIPSInst_RT ir) value m).

Definition emu_ctc (ir : Z) : E mem unit :=
  emod (fun m =>
    let value := if MIPSInst_RT ir =? 0 then 0 else wrap 32 (sel (gpr (xcp m)) (MIPSInst_RT ir)) in
    if MIPSInst_RD ir =? FPCREG_CSR then set_fcr31 (csr_write (fcr31 (ctx m)) value) m else m) ;;>
  t <-- egets csr_trap ;;
  if t then throw SIGFPE else eret tt.

(** [movc]: a conditional move between integer registers. *)
Definition emu_movc (ir : Z) : E mem unit :=
  if negb (MIPSInst_FUNC ir =? movc_op) then throw SIGILL
  else
    emod (fun m =>
      let cond := fpucondbit (Z.shiftr (MIPSInst_RT ir) 2) in
      if Bool.eqb (tst (Z.land (fcr31 (ctx m)) cond)) (tst (Z.land (MIPSInst_RT ir) 1)) then
        set_gpr (MIPSInst_RD ir) (sel (gpr (xcp m)) (MIPSInst_RS ir)) m
      else m).

(** Is the delay-slot instruction "one of ours"? *)
Definition is_ours (ir : Z) : bool :=
  one_of (MIPSInst_OPCODE ir) [lwc1_op; swc1_op; ldc1_op; sdc1_op; cop1_op; cop1x_op] ||
  ((MIPSInst_OPCODE ir =? spec_op) && (MIPSInst_FUNC ir =? movc_op)).

(** [bc_op]: where the branch goes. *)
Inductive bc_next := Taken (slot contpc : Z) | NotTaken (contpc : Z).

Definition emu_bc (ir contpc : Z) : E mem bc_next :=
  bd <-- egets (fun m => tst (Z.land (cp0_cause (xcp m)) CAUSEF_BD)) ;;
  if bd then throw SIGILL
  else
    let rt := MIPSInst_RT ir in
    c <-- egets (fun m => tst (Z.land (fcr31 (ctx m)) (fpucondbit (Z.shiftr rt 2)))) ;;
    let likely := tst (Z.land rt 2) in
    let cond := if tst (Z.land rt 1) then c else negb c in
    emod (fun m => set_cause (Z.lor (cp0_cause (xcp m)) CAUSEF_BD) m) ;;>
    if cond then
      emod (fun m => set_epc (wrap W (cp0_epc (xcp m) + 4)) m) ;;>
      epc <-- egets (fun m => cp0_epc (xcp m)) ;;
      slot <-- fetch 4 epc ;;
      eret (Taken slot (wrap W (epc + MIPSInst_SIMM ir * 4)))
    else if likely then
      emod (fun m => set_epc (wrap W (cp0_epc (xcp m) + 4)) m) ;;>
      eret (NotTaken (wrap W (contpc + 4)))
    else eret (NotTaken contpc).

(** One instruction; [again] is [goto emul].  Returns the continuation pc. *)
Definition emul_one (again : Z -> Z -> E mem Z) (ir contpc : Z) : E mem Z :=
  emod count_emulated ;;>
  let op := MIPSInst_OPCODE ir in
  let rs := MIPSInst_RS ir in
  let done (e : E mem unit) : E mem Z := e ;;> eret contpc in
  if op =? ldc1_op then done (emu_ldc1 ir)
  else if op =? sdc1_op then done (emu_sdc1 ir)
  else if op =? lwc1_op then done (emu_lwc1 ir)
  else if op =? swc1_op then done (emu_swc1 ir)
  else if op =? cop1_op then
    if mips64 && (rs =? dmfc_op) then done (emu_dmfc ir)
    else if mips64 && (rs =? dmtc_op) then done (emu_dmtc ir)
    else if rs =? mfc_op then done (emu_mfc ir)
    else if rs =? mtc_op then done (emu_mtc ir)
    else if rs =? cfc_op then done (emu_cfc ir)
    else if rs =? ctc_op then done (emu_ctc ir)
    else if rs =? bc_op then
      b <-- emu_bc ir contpc ;;
      match b with
      | Taken slot contpc =>
          if is_ours slot then again slot contpc else returns (mips_dsemul mips64 slot contpc)
      | NotTaken contpc => eret contpc
      end
    else if negb (tst (Z.land rs 0x10)) then throw SIGILL
    else done (fpu_emu mips64 ir)
  else if op =? cop1x_op then done (fpux_emu mips64 ir)
  else if op =? spec_op then done (emu_movc ir)
  else throw SIGILL.

(** A branch in the delay slot of a branch is refused, so two rounds are all
    that [goto emul] can make. *)
Fixpoint emul (fuel : nat) (ir contpc : Z) : E mem Z :=
  match fuel with
  | O => fun _ => None
  | S n => emul_one (emul n) ir contpc
  end.

(** The pc of the instruction to emulate and of the one after it: for a
    delay slot, the branch before it is emulated first. *)
Definition emu_start : E mem (Z * Z) :=
  epc <-- egets (fun m => cp0_epc (xcp m)) ;;
  ir <-- fetch 4 epc ;;
  emod (fun m => if tst (Z.land (cp0_cause (xcp m)) CAUSEF_BD) && negb (isBranchInstr ir)
                 then set_cause (Z.land (cp0_cause (xcp m)) (Z.lnot CAUSEF_BD)) m else m) ;;>
  bd <-- egets (fun m => tst (Z.land (cp0_cause (xcp m)) CAUSEF_BD)) ;;
  if bd then
    let emulpc := wrap W (epc + 4) in
    err <-- (fun m => let '(r, m') := __compute_return_epc mips64 cpu_has_dsp rddsp m in Some (inr r, m')) ;;
    if tst err then throw SIGILL
    else
      ir <-- fetch 4 emulpc ;;
      contpc <-- egets (fun m => cp0_epc (xcp m)) ;;
      emod (set_epc (wrap W (emulpc - 4))) ;;>
      eret (ir, contpc)
  else eret (ir, wrap W (epc + 4)).

Definition cop1Emulate (m : mach) : option (Z * mach) :=
  match ebind emu_start (fun '(ir, contpc) => emul 2 ir contpc) m with
  | None => None
  | Some (inl sig, m) => Some (sig, m)
  | Some (inr contpc, m) =>
      Some (0, set_cause (Z.land (cp0_cause (xcp m)) (Z.lnot CAUSEF_BD)) (set_epc contpc m))
  end.

(** ** [fpu_emulator_cop1Handler] *)

Definition conv_rm (tab : Z -> Z) (m : mach) : mach :=
  let w := fcr31 (ctx m) in set_fcr31 (Z.lor (Z.land w (Z.lnot 3)) (tab (Z.land w 3))) m.

(** The body of the [do] loop: the signal, or the updated state. *)
Definition handler_body (m : mach) : option (Z * mach) :=
  match get_user 4 (cp0_epc (xcp m)) m with
  | None => Some (SIGBUS, count_error m)
  | Some insn =>
      if insn =? 0 then Some (0, set_epc (wrap W (cp0_epc (xcp m) + 4)) m)
      else
        match cop1Emulate (conv_rm ieee_rm m) with
        | Some (sig, m) => Some (sig, conv_rm mips_rm m)
        | None => None
        end
  end.

(** [do ... while (xcp->cp0_epc > prevepc)]; a fetch fault returns at once,
    before the [SIGILL] adjustment below. *)
Fixpoint handler_loop (fuel : nat) (has_fpu : bool) (m : mach) : option (bool * Z * mach) :=
  match fuel with
  | O => None
  | S n =>
    match get_user 4 (cp0_epc (xcp m)) m with
    | None => Some (true, SIGBUS, count_error m)
    | Some _ =>
      match handler_body m with
      | None => None
      | Some (sig, m') =>
          if has_fpu || negb (sig =? 0) then Some (false, sig, m')
          else if cp0_epc (xcp m') >? cp0_epc (xcp m) then handler_loop n has_fpu m'
          else Some (false, sig, m')
      end
    end
  end.

Definition fpu_emulator_cop1Handler (fuel : nat) (has_fpu : bool) (m : mach) : option (Z * mach) :=
  match handler_loop fuel has_fpu m with
  | None => None
  | Some (true, sig, m') => Some (sig, m')
  | Some (false, sig, m') =>
      Some (if (sig =? SIGILL) && negb (cp0_epc (xcp m') =? cp0_epc (xcp m)) then 0 else sig, m')
  end.
End Cop1.
