(* ===== verification/Cp1Props.v ===== *)
(** * Properties of the emulator

    The register file, the control register, precise exceptions, the
    arithmetic instructions end to end, branches and trampolines. *)

From S2P Require Import Prelude Rounding Ieee754 Format AddSub Mul Div FromInt ToInt Cmp Simple Special Sqrt.
From S2P Require Import Views Inst Machine ByteMem Branch Dsemul Cp1emu.

(** ** Arrays *)

Lemma upd_length l i v : List.length (upd l i v) = List.length l.
Proof. unfold upd; generalize (Z.to_nat i); induction l; intros [|n]; cbn; auto. Qed.

Lemma sel_upd l i j v : 0 <= i < Z.of_nat (List.length l) -> 0 <= j ->
  sel (upd l i v) j = if i =? j then v else sel l j.
Proof.
  intros Hi Hj; unfold sel, upd; assert (N : (Z.to_nat i < List.length l)%nat) by lia.
  replace (i =? j) with (Nat.eqb (Z.to_nat i) (Z.to_nat j))
    by (destruct (Z.eqb_spec i j), (Nat.eqb_spec (Z.to_nat i) (Z.to_nat j)); lia).
  revert N; generalize (Z.to_nat i) (Z.to_nat j); clear; induction l as [|a l IH]; [cbn; lia|].
  intros [|n] [|k] N; cbn [upd_nat nth Nat.eqb List.length] in *; auto; apply IH; lia.
Qed.

(** The register file holds 32 words of 64 bits. *)
Definition fpr_ok {mem} (m : machine mem) : Prop :=
  List.length (fpr (ctx m)) = 32%nat /\ forall i, 0 <= sel (fpr (ctx m)) i < 2 ^ 64.

Section RegFile.
Context {mem : Type}.
Implicit Types m : machine mem.

Lemma even_index_spec x : 0 <= x -> even_index x = x - x mod 2.
Proof.
  intros Hx; unfold even_index; change 1 with (2 ^ 0); rewrite land_lnot_bit by lia.
  rewrite Z.bit0_odd, Zmod_odd; destruct (Z.odd x); reflexivity.
Qed.

Lemma odd_tst x : tst (Z.land x 1) = negb (x mod 2 =? 0).
Proof. rewrite land_1; reflexivity. Qed.

(** A word with its low or high half replaced. *)
Lemma low_half old si : 0 <= old < 2 ^ 64 ->
  Z.lor (shl 64 (Z.shiftr old 32) 32) (wrap 32 si) = old / 2 ^ 32 * 2 ^ 32 + si mod 2 ^ 32.
Proof.
  intros Ho; rewrite shiftr_div, shl_small by (try lia; Z.div_mod_to_equations; lia).
  apply lor_concat; [lia|apply wrap_range; lia].
Qed.

Lemma high_half old si : 0 <= old < 2 ^ 64 ->
  Z.lor (Z.shiftr (shl 64 old 32) 32) (shl 64 si 32) = si mod 2 ^ 32 * 2 ^ 32 + old mod 2 ^ 32.
Proof.
  intros Ho.
  assert (E : forall a, shl 64 a 32 = a mod 2 ^ 32 * 2 ^ 32).
  { intros a; unfold shl, wrap; rewrite Z.shiftl_mul_pow2 by lia.
    change (2 ^ 64) with (2 ^ 32 * 2 ^ 32); apply Z.mul_mod_distr_r; lia. }
  rewrite !E, shiftr_div, Z.div_mul, Z.lor_comm by lia; apply lor_concat; [lia|apply Z.mod_pos_bound; lia].
Qed.

Lemma swrap_low a b : swrap 32 (a * 2 ^ 32 + b mod 2 ^ 32) = swrap 32 b.
Proof. unfold swrap; rewrite Z.add_comm, Z.mod_add, Zmod_mod by lia; reflexivity. Qed.

Lemma swrap_mod b : swrap 32 (b mod 2 ^ 32) = swrap 32 b.
Proof. exact (swrap_low 0 b). Qed.

(** [SITOREG] as half-word replacement. *)
Lemma SITOREG_spec m si x : fpr_ok m ->
  SITOREG si x m =
    let old := sel (fpr (ctx m)) (even_index x) in
    set_fpr (fpr_index m x)
      (if fr_bit m || (x mod 2 =? 0) then old / 2 ^ 32 * 2 ^ 32 + si mod 2 ^ 32
       else si mod 2 ^ 32 * 2 ^ 32 + old mod 2 ^ 32) m.
Proof.
  intros [_ R]; unfold SITOREG; rewrite odd_tst, negb_involutive; cbv zeta; f_equal.
  destruct (fr_bit m || _); [apply low_half|apply high_half]; apply R.
Qed.

Lemma fpr_ok_set m i v : 0 <= i < 32 -> 0 <= v < 2 ^ 64 -> fpr_ok m -> fpr_ok (set_fpr i v m).
Proof.
  intros Hi Hv [L R]; split; cbn [set_fpr set_ctx ctx fpr]; [rewrite upd_length; exact L|].
  intros j; destruct (Z.le_gt_cases 0 j).
  - rewrite sel_upd by lia; destruct (i =? j); auto.
  - replace (sel _ j) with (sel (upd (fpr (ctx m)) i v) 0) by (unfold sel; now replace (Z.to_nat j) with O by lia).
    rewrite sel_upd by lia; destruct (i =? 0); auto.
Qed.

Lemma fpr_index_range m x : 0 <= x < 32 -> 0 <= fpr_index m x < 32.
Proof.
  intros; unfold fpr_index; destruct (fr_bit m); [auto|].
  fold (even_index x); rewrite even_index_spec by lia; Z.div_mod_to_equations; lia.
Qed.

Lemma double_law m di x : fpr_ok m -> 0 <= x < 32 -> DIFROMREG (DITOREG di x m) x = wrap 64 di.
Proof.
  intros [L _] Hx; unfold DIFROMREG, DITOREG; pose proof (fpr_index_range m x Hx).
  change (fpr_index (set_fpr _ _ m) x) with (fpr_index m x).
  cbn [set_fpr set_ctx ctx fpr]; rewrite sel_upd, Z.eqb_refl by lia; reflexivity.
Qed.

(** A single read after a single write. *)
Lemma single_law m si x y : fpr_ok m -> 0 <= x < 32 -> 0 <= y < 32 ->
  SIFROMREG (SITOREG si x m) y = if x =? y then swrap 32 si else SIFROMREG m y.
Proof.
  intros Ok Hx Hy; pose proof Ok as [L R]; rewrite SITOREG_spec by exact Ok; cbv zeta.
  unfold SIFROMREG; set (old := sel (fpr (ctx m)) (even_index x)).
  assert (Ro : 0 <= old < 2 ^ 64) by apply R.
  pose proof (even_index_spec x ltac:(lia)) as Ex; pose proof (even_index_spec y ltac:(lia)) as Ey.
  rewrite !odd_tst, !negb_involutive; unfold fpr_index; fold (even_index x).
  change (fr_bit (set_fpr _ _ m)) with (fr_bit m).
  cbn [set_fpr set_ctx ctx fpr]; destruct (fr_bit m); cbn [orb].
  - rewrite sel_upd by lia; destruct (Z.eqb_spec x y); [apply swrap_low|reflexivity].
  - assert (Hex : 0 <= even_index x < 32) by (rewrite Ex; Z.div_mod_to_equations; lia).
    assert (Hey : 0 <= even_index y < 32) by (rewrite Ey; Z.div_mod_to_equations; lia).
    rewrite !sel_upd by lia.
    destruct (Z.eqb_spec (y mod 2) 0) as [Y0|Y0], (Z.eqb_spec (x mod 2) 0) as [X0|X0], (Z.eqb_spec x y) as [Exy|Exy].
    + replace (even_index x =? y) with true by (symmetry; apply Z.eqb_eq; lia); apply swrap_low.
    + destruct (Z.eqb_spec (even_index x) y); [lia|reflexivity].
    + subst; contradiction.
    + destruct (Z.eqb_spec (even_index x) y) as [E|]; [|reflexivity].
      rewrite swrap_low, <- E; reflexivity.
    + subst; contradiction.
    + destruct (Z.eqb_spec (even_index x) (even_index y)) as [E|]; [|reflexivity].
      rewrite <- E, !shiftr_div by lia; fold old; f_equal; Z.div_mod_to_equations; lia.
    + rewrite Exy, Z.eqb_refl, shiftr_div by lia.
      replace ((si mod 2 ^ 32 * 2 ^ 32 + old mod 2 ^ 32) / 2 ^ 32) with (si mod 2 ^ 32);
        [apply swrap_mod|Z.div_mod_to_equations; lia].
    + destruct (Z.eqb_spec (even_index x) (even_index y)); [Z.div_mod_to_equations; lia|reflexivity].
Qed.

(** the register file obeys the store laws in both FPU register modes: a
    single read back is the one written, and no other single changes; a
    double read back is the one written.  In particular the two halves of an
    even register are independent singles when FR is clear. *)
Theorem register_file_laws m si di x y :
  fpr_ok m -> 0 <= x < 32 -> 0 <= y < 32 ->
  SIFROMREG (SITOREG si x m) x = swrap 32 si /\
  (y <> x -> SIFROMREG (SITOREG si x m) y = SIFROMREG m y) /\
  DIFROMREG (DITOREG di x m) x = wrap 64 di.
Proof.
  intros Ok Hx Hy; rewrite !single_law, double_law, Z.eqb_refl by auto.
  split; [reflexivity|split; [|reflexivity]].
  intros Ne; destruct (Z.eqb_spec x y); [lia|reflexivity].
Qed.
End RegFile.

(** ** The control register word *)

Lemma field_testbit w lo n j : 0 <= lo -> 0 <= n -> 0 <= j ->
  Z.testbit (field w lo n) j = (j <? n) && Z.testbit w (lo + j).
Proof.
  intros Hl Hn Hj; unfold field; rewrite <- Z.shiftr_div_pow2 by lia.
  destruct (Z.ltb_spec j n); cbn [andb].
  - rewrite Z.mod_pow2_bits_low, Z.shiftr_spec by lia; f_equal; lia.
  - rewrite Z.mod_pow2_bits_high by lia; reflexivity.
Qed.

Lemma cx_field w : cx (csr_of w) = field w 12 6.
Proof. reflexivity. Qed.
Lemma sx_field w : sx (csr_of w) = field w 2 5.
Proof. reflexivity. Qed.
Lemma mx_field w : mx (csr_of w) = field w 7 5.
Proof. reflexivity. Qed.

(** The bits [copcsr] assembles: each exception as a cause and as a flag. *)
Definition exc_word (fl : Z) : Z := Z.lor (Z.shiftl fl 12) (Z.shiftl fl 2).

(** A property of five-bit numbers is checked by evaluation. *)
Lemma small_flags (p : Z -> bool) fl :
  forallb p (map Z.of_nat (seq 0 32)) = true -> 0 <= fl < 32 -> p fl = true.
Proof.
  intros H Hf; rewrite forallb_forall in H; apply H, in_map_iff.
  exists (Z.to_nat fl); split; [lia|apply in_seq; lia].
Qed.

Section Csr.
Context {mem : Type}.
Implicit Types m : machine mem.

Lemma copcsr_word m : cx (csr_of (fcr31 (ctx m))) < 32 ->
  copcsr m = exc_word (cx (csr_of (fcr31 (ctx m)))).
Proof.
  intros Hc; destruct (csr_of_wf (fcr31 (ctx m))) as (_ & _ & [Hc0 _] & _).
  unfold copcsr; generalize dependent (cx (csr_of (fcr31 (ctx m)))); intros fl Hf H0.
  apply Z.eqb_eq; match goal with |- ?b = true =>
    let g := eval pattern fl in b in match g with ?g fl => apply (small_flags g fl) end end;
    [vm_compute; reflexivity|lia].
Qed.

(** Recording exceptions that the arithmetic already recorded changes nothing. *)
Lemma csr_update_same w :
  0 <= w -> cx (csr_of w) < 32 -> Z.land (cx (csr_of w)) (Z.lnot (sx (csr_of w))) = 0 ->
  Z.lor (Z.land w (Z.lnot FPU_CSR_ALL_X)) (exc_word (cx (csr_of w))) = w.
Proof.
  intros Hw Hc Hs; pose proof (csr_of_wf w) as (_ & _ & [Hc0 _] & _).
  apply Z.bits_inj'; intros i Hi; unfold exc_word.
  rewrite !Z.lor_spec, Z.land_spec, Z.lnot_spec, !Z.shiftl_spec by lia.
  assert (A : Z.testbit FPU_CSR_ALL_X i = (12 <=? i) && (i <? 18)).
  { change FPU_CSR_ALL_X with (Z.shiftl (Z.ones 6) 12); rewrite Z.shiftl_spec by lia.
    rewrite Z.testbit_ones by lia; destruct (Z.leb_spec 12 i), (Z.leb_spec 0 (i - 12)), (Z.ltb_spec i 18),
      (Z.ltb_spec (i - 12) 6); lia || reflexivity. }
  assert (Hi32 : forall j, 5 <= j -> Z.testbit (cx (csr_of w)) j = false).
  { intros j Hj; destruct (Z.eq_dec (cx (csr_of w)) 0) as [->|]; [apply Z.bits_0|].
    apply Z.bits_above_log2; [lia|]; apply Z.lt_le_trans with 5; [apply Z.log2_lt_pow2|]; lia. }
  rewrite A; destruct (Z.leb_spec 12 i); [destruct (Z.ltb_spec i 18)|]; cbn [andb negb];
    rewrite ?andb_true_r, ?andb_false_r; cbn [orb].
  - rewrite (Hi32 (i - 2)) by lia; rewrite orb_false_r, cx_field, field_testbit by lia.
    destruct (Z.ltb_spec (i - 12) 6); [|lia]; cbn [andb]; f_equal; lia.
  - rewrite !Hi32 by lia; apply orb_false_r.
  - rewrite (Z.testbit_neg_r _ (i - 12)) by lia; cbn [orb].
    destruct (Z.lt_ge_cases i 2); [rewrite (Z.testbit_neg_r _ (i - 2)) by lia; apply orb_false_r|].
    destruct (Z.testbit (cx (csr_of w)) (i - 2)) eqn:T; [rewrite orb_true_r|apply orb_false_r].
    destruct (Z.lt_ge_cases (i - 2) 5); [|rewrite Hi32 in T by lia; discriminate].
    assert (K : Z.testbit (Z.land (cx (csr_of w)) (Z.lnot (sx (csr_of w)))) (i - 2) = false)
      by (rewrite Hs; apply Z.bits_0).
    rewrite Z.land_spec, Z.lnot_spec, T, sx_field, field_testbit in K by lia.
    destruct (Z.ltb_spec (i - 2) 5); [|lia]; cbn [andb] in K; replace (2 + (i - 2)) with i in K by lia.
    apply negb_false_iff in K; auto.
Qed.

(** The trap test compares causes with enables. *)
Lemma csr_trap_word m :
  cx (csr_of (fcr31 (ctx m))) < 32 -> csr_trap m = tstx (mkst (csr_of (fcr31 (ctx m))) []).
Proof.
  intros Hc; unfold csr_trap, tstx; cbn [fcsr]; set (w := fcr31 (ctx m)) in *.
  pose proof (csr_of_wf w) as (_ & [Hm0 Hm1] & [Hc0 _] & _).
  replace (Z.land (Z.land (Z.shiftr w 5) w) FPU_CSR_ALL_E) with (Z.shiftl (Z.land (cx (csr_of w)) (mx (csr_of w))) 7).
  - unfold tst; f_equal; rewrite Z.shiftl_mul_pow2 by lia.
    destruct (Z.eqb_spec (Z.land (cx (csr_of w)) (mx (csr_of w)) * 2 ^ 7) 0),
      (Z.eqb_spec (Z.land (cx (csr_of w)) (mx (csr_of w))) 0); lia.
  - apply Z.bits_inj'; intros i Hi; rewrite Z.shiftl_spec, !Z.land_spec, Z.shiftr_spec by lia.
    assert (A : Z.testbit FPU_CSR_ALL_E i = (7 <=? i) && (i <? 12)).
    { change FPU_CSR_ALL_E with (Z.shiftl (Z.ones 5) 7); rewrite Z.shiftl_spec by lia.
      rewrite Z.testbit_ones by lia; destruct (Z.leb_spec 7 i), (Z.leb_spec 0 (i - 7)), (Z.ltb_spec i 12),
        (Z.ltb_spec (i - 7) 5); lia || reflexivity. }
    rewrite A; destruct (Z.leb_spec 7 i); cbn [andb].
    + rewrite cx_field, mx_field, !field_testbit by lia.
      destruct (Z.ltb_spec (i - 7) 5), (Z.ltb_spec i 12), (Z.ltb_spec (i - 7) 6); try lia; cbn [andb];
        rewrite ?andb_false_r, ?andb_true_r; try reflexivity; f_equal; f_equal; lia.
    + rewrite (Z.testbit_neg_r _ (i - 7)) by lia; rewrite andb_false_r; reflexivity.
Qed.
End Csr.

(** ** Arithmetic instructions, end to end *)

Definition exact (o : binop) (a b : R) : R :=
  match o with Add => a + b | Sub => a - b | Mul => a * b | Div => a / b end.
Definition binop_func (o : binop) : Z :=
  match o with Add => fadd_op | Sub => fsub_op | Mul => fmul_op | Div => fdiv_op end.
Definition fmt_code (f : fmt) : Z := match f with SP => s_fmt | DP => d_fmt end.

Lemma binop_delivers f o x y s :
  wf f x -> wf f y -> is_finite f x = true -> is_finite f y = true -> nod (fcsr s) = false ->
  (o = Div -> val f y <> 0%R) ->
  Delivers f (opname o) s (exact o (val f x) (val f y)) (run_binop f o x y s).
Proof.
  intros Wx Wy Fx Fy Hn Hd; destruct o; cbn [run_binop opname exact].
  - apply (add_spec f x y s Wx Wy Fx Fy Hn).
  - apply (sub_spec f x y s Wx Wy Fx Fy Hn).
  - apply (mul_spec f x y s Wx Wy Fx Fy Hn).
  - apply (div_spec f x y s Wx Wy Fx Fy (Hd eq_refl) Hn).
Qed.

Section Arith.
Context (mips64 : bool) {mem : Type}.
Implicit Types m : machine mem.

(** The operand registers as data of the instruction's format. *)
Definition operand (f : fmt) (m : machine mem) (x : Z) : ieee754 :=
  match f with SP => SPFROMREG m x | DP => DPFROMREG m x end.

Lemma operand_wf f m x : wf f (operand f m x).
Proof. destruct f; apply of_bits_wf. Qed.

Lemma operand_written f m z x :
  fpr_ok m -> 0 <= x < 32 -> wf f z -> operand f (write_back (rv_fmt f z) x m) x = z.
Proof.
  intros Ok Hx W; destruct f; cbn [rv_fmt write_back operand]; unfold SPFROMREG, SPTOREG, DPFROMREG, DPTOREG.
  - rewrite single_law, Z.eqb_refl by auto; rewrite <- (of_bits_bits SP z W) at 2; f_equal.
    unfold wrap, swrap; destruct W as [We Wm]; cbn [MBITS EBITS] in *.
    assert (R : 0 <= bits SP z < 2 ^ 32) by (unfold bits; cbn [WBITS MBITS]; destruct (sign z); cbn [b2z]; lia).
    rewrite (Z.mod_small (bits SP z)) by lia; destruct (bits SP z <? 2 ^ (32 - 1)); [apply Z.mod_small; lia|].
    symmetry; apply (Z.mod_unique _ _ (-1)); lia.
  - rewrite double_law by auto; rewrite wrap_small, (of_bits_bits DP z W); [reflexivity|].
    destruct W as [We Wm]; cbn [MBITS EBITS] in *; unfold bits; cbn [WBITS MBITS]; destruct (sign z); cbn [b2z]; lia.
Qed.

Lemma bop_binop f o : bop f (binop_func o) = Some (run_binop f o).
Proof. destruct o; reflexivity. Qed.

(** What the format switch does with a binary operation. *)
Lemma fpu_emu_fmt_binop f o ir m z s :
  MIPSInst_FUNC ir = binop_func o ->
  run_binop f o (operand f m (MIPSInst_FS ir)) (operand f m (MIPSInst_FT ir))
    (mkst (csr_of (fcr31 (ctx m))) (log m)) = Some (z, s) ->
  let m1 := mkmach (xcp m) (mkctx (fpr (ctx m)) (csr_word (fcsr s))) (stats m) (umem m) (sent m)
              (klog s) (hwfcr31 m) in
  fpu_emu_fmt mips64 f ir m = Some (inr (Done (copcsr m1) (rv_fmt f z)), m1).
Proof.
  intros Hf Hr m1; unfold fpu_emu_fmt; rewrite Hf, bop_binop.
  unfold operand in Hr; unfold FROMREG, ebind, egets, ieee, goto_copcsr, eret; rewrite Hr; reflexivity.
Qed.

Lemma finish_fcsr f op s : fcsr (finish f op s) = fcsr s.
Proof. unfold finish; destruct (tstx s); reflexivity. Qed.

(** C6: an [add], [sub], [mul] or [div] instruction of either format on finite
    operands computes the IEEE result from the operand registers, records the
    exceptions as causes and flags in FCR31, and then either writes the
    result to the destination register, or, exactly when one of the
    exceptions is enabled, returns [SIGFPE] with the register file unchanged. *)
Theorem fpu_arith_correct f o ir m :
  let c := csr_of (fcr31 (ctx m)) in
  let x := operand f m (MIPSInst_FS ir) in
  let y := operand f m (MIPSInst_FT ir) in
  fpr_ok m -> nod c = false -> 0 <= MIPSInst_FD ir < 32 ->
  Z.land (MIPSInst_FFMT ir) 0xf = fmt_code f -> MIPSInst_FUNC ir = binop_func o ->
  is_finite f x = true -> is_finite f y = true -> (o = Div -> val f y <> 0%R) ->
  exists z i u v, FPResult f c (exact o (val f x) (val f y)) z i u v /\
    let c' := raise_csr (flags i u v) (clear_csr c) in
    exists m',
      fpu_emu mips64 ir m = Some (if tst (Z.land (flags i u v) (mx c)) then inl SIGFPE else inr tt, m') /\
      fcr31 (ctx m') = csr_word c' /\ xcp m' = xcp m /\
      (if tst (Z.land (flags i u v) (mx c)) then fpr (ctx m') = fpr (ctx m)
       else operand f m' (MIPSInst_FD ir) = z).
Proof.
  intros c x y Ok Hn Hd Hfmt Hfunc Fx Fy Hdiv.
  set (m0 := count_cp1op m).
  assert (Wx : wf f x) by apply operand_wf; assert (Wy : wf f y) by apply operand_wf.
  destruct (binop_delivers f o x y (mkst c (log m)) Wx Wy Fx Fy Hn Hdiv) as (z & i & u & v & E & FR).
  exists z, i, u, v; split; [exact FR|]; cbv zeta; set (fl := flags i u v) in *.
  set (s' := finish f (opname o) _) in E.
  assert (Es : fcsr s' = raise_csr fl (clear_csr c)) by (unfold s'; rewrite finish_fcsr; reflexivity).
  pose proof (fpu_emu_fmt_binop f o ir m0 z s' Hfunc E) as Ef; cbv zeta in Ef.
  set (m1 := mkmach _ _ _ _ _ _ _) in Ef.
  set (c' := raise_csr fl (clear_csr c)).
  assert (Wc : csr_wf c') by (apply raise_wf, clear_wf, csr_of_wf; apply flags_range).
  assert (W1 : fcr31 (ctx m1) = csr_word c') by (unfold m1; cbn [ctx fcr31]; rewrite Es; reflexivity).
  assert (C1 : csr_of (fcr31 (ctx m1)) = c') by (rewrite W1; apply csr_of_word; exact Wc).
  pose proof (flags_range i u v) as Rf; fold fl in Rf.
  assert (Cx : cx c' = fl) by (unfold c'; cbn [raise_csr clear_csr cx]; apply Z.lor_0_l).
  assert (Up : csr_update (copcsr m1) m1 =
    Some (if tst (Z.land fl (mx c)) then inl SIGFPE else inr tt, m1)).
  { rewrite copcsr_word by (rewrite C1, Cx; lia).
    unfold csr_update, ebind, emod, egets; rewrite csr_update_same; rewrite ?C1, ?Cx; try lia.
    - replace (set_fcr31 (fcr31 (ctx m1)) m1) with m1 by reflexivity.
      rewrite csr_trap_word, C1 by (rewrite C1, Cx; lia); unfold tstx; cbn [fcsr].
      rewrite Cx; change (mx c') with (mx c); destruct (tst _); reflexivity.
    - rewrite W1; apply csr_word_range; exact Wc.
    - apply Z.bits_inj'; intros j Hj; rewrite Z.land_spec, Z.lnot_spec, Z.bits_0 by lia.
      cbn [c' raise_csr clear_csr sx]; rewrite Z.lor_spec; destruct (Z.testbit fl j); rewrite ?orb_true_r; reflexivity. }
  assert (Run : fpu_emu mips64 ir m =
    ebind (csr_update (copcsr m1)) (fun _ => emod (write_back (rv_fmt f z) (MIPSInst_FD ir))) m1).
  { unfold fpu_emu; rewrite Hfmt; unfold ebind at 1 2, emod at 1; fold m0.
    destruct f; cbn [fmt_code]; [change (s_fmt =? s_fmt) with true|change (d_fmt =? s_fmt) with false;
      change (d_fmt =? d_fmt) with true]; cbv iota; rewrite Ef; reflexivity. }
  rewrite Run; unfold ebind, emod; rewrite Up; destruct (tst (Z.land fl (mx c))).
  - exists m1; repeat split; auto.
  - eexists; split; [reflexivity|]; split; [destruct f; exact W1|split; [destruct f; reflexivity|]].
    apply operand_written; auto; apply FR.
Qed.
End Arith.

(** ** Precise exceptions *)

Section Precise.
Context (mips64 : bool) {mem : Type}.
Implicit Types m : machine mem.

(** Nothing the user can see has changed, FCR31 apart. *)
Definition SameFrame m m' : Prop :=
  fpr (ctx m') = fpr (ctx m) /\ xcp m' = xcp m /\ umem m' = umem m.
Definition Keeps {A} (e : E mem A) : Prop := forall m r m', e m = Some (r, m') -> SameFrame m m'.

Lemma keeps_bind {A B} (e : E mem A) (k : A -> E mem B) :
  Keeps e -> (forall a, Keeps (k a)) -> Keeps (ebind e k).
Proof.
  intros He Hk m r m'; unfold ebind; destruct (e m) as [[[sig|a] m1]|] eqn:E1; [|intros E2|discriminate].
  - intros [= <- <-]; exact (He _ _ _ E1).
  - destruct (He _ _ _ E1) as (A1 & A2 & A3), (Hk a _ _ _ E2) as (B1 & B2 & B3).
    repeat split; congruence.
Qed.

Lemma keeps_pure {A} (e : E mem A) : (forall m, exists r, e m = Some (r, m)) -> Keeps e.
Proof. intros H m r m' E1; destruct (H m) as [r' E2]; rewrite E1 in E2; injection E2 as _ ->; repeat split. Qed.

Lemma keeps_ieee {A} (c : M A) : Keeps (ieee (mem := mem) c).
Proof.
  intros m r m'; unfold ieee; destruct (c _) as [[a s]|]; [|discriminate].
  intros [= <- <-]; repeat split.
Qed.

Lemma keeps_emod g : (forall m, SameFrame m (g m)) -> Keeps (emod g).
Proof. intros H m r m' [= <- <-]; apply H. Qed.

Create HintDb keeps.
Hint Resolve keeps_ieee : keeps.
Hint Extern 1 (Keeps (eret _)) => apply keeps_pure; intros; eexists; reflexivity : keeps.
Hint Extern 1 (Keeps (throw _)) => apply keeps_pure; intros; eexists; reflexivity : keeps.
Hint Extern 1 (Keeps (egets _)) => apply keeps_pure; intros; eexists; reflexivity : keeps.
Hint Extern 1 (Keeps (FROMREG _ _)) => apply keeps_pure; intros; eexists; reflexivity : keeps.
Hint Extern 2 (Keeps (ebind _ _)) => apply keeps_bind; [|intros] : keeps.
Hint Extern 2 (Keeps (goto_copcsr _)) => unfold goto_copcsr : keeps.
Hint Extern 3 (Keeps (if ?b then _ else _)) => destruct b : keeps.

Lemma keeps_cvt f ir : Keeps (cvt mips64 f ir).
Proof. unfold cvt; destruct f; auto 20 with keeps. Qed.

Lemma keeps_fcmp f ir : Keeps (fcmp f ir).
Proof. unfold fcmp; auto 20 with keeps. Qed.

Lemma keeps_fmt f ir : Keeps (fpu_emu_fmt mips64 f ir).
Proof.
  unfold fpu_emu_fmt; apply keeps_bind; [auto with keeps|intros mv].
  destruct (bop f _); [auto 20 with keeps|]; destruct (uop f _); [auto 20 with keeps|].
  destruct mv as [[|]|]; auto 20 with keeps.
  destruct (_ =? _); [auto 20 with keeps|destruct (_ >=? _); [apply keeps_fcmp|apply keeps_cvt]].
Qed.

Lemma keeps_int ir long : Keeps (fpu_emu_int ir long).
Proof. unfold fpu_emu_int; destruct long; auto 20 with keeps. Qed.

Lemma keeps_csr_update rcsr : Keeps (csr_update rcsr).
Proof.
  unfold csr_update; apply keeps_bind; [apply keeps_emod; repeat split|intros; auto 20 with keeps].
Qed.

(** C8: exceptions are precise: an arithmetic instruction that returns a
    signal (an unimplemented encoding or an enabled exception) leaves every
    register, the pc and memory as they were. *)
Theorem fpu_emu_precise ir m sig m' :
  fpu_emu mips64 ir m = Some (inl sig, m') ->
  fpr (ctx m') = fpr (ctx m) /\ xcp m' = xcp m /\ umem m' = umem m.
Proof.
  unfold fpu_emu, ebind at 1, emod at 1; unfold ebind at 1.
  set (sw := if _ =? s_fmt then _ else _).
  assert (K : Keeps sw) by (unfold sw; repeat match goal with |- Keeps (if ?b then _ else _) => destruct b end;
    auto using keeps_fmt, keeps_int with keeps).
  destruct (sw (count_cp1op m)) as [[[s|o] m1]|] eqn:Es; [|intros Eo|discriminate].
  - intros [= <- <-]; exact (K _ _ _ Es).
  - destruct (K _ _ _ Es) as (A1 & A2 & A3); destruct o as [|rcsr rv]; [discriminate|].
    unfold ebind, emod in Eo; destruct (csr_update rcsr m1) as [[[s|[]] m2]|] eqn:Ec; try discriminate.
    injection Eo as <- <-; destruct (keeps_csr_update rcsr _ _ _ Ec) as (B1 & B2 & B3).
    cbn in A1, A2, A3; repeat split; congruence.
Qed.
End Precise.

(** ** Control register moves *)

Lemma rm_tables k : 0 <= k < 4 ->
  mips_rm (ieee_rm k) = k /\ ieee_rm (mips_rm k) = k /\ 0 <= ieee_rm k < 4.
Proof. intros; assert (k = 0 \/ k = 1 \/ k = 2 \/ k = 3) as [->|[->|[->| ->]]] by lia; repeat split; reflexivity || (vm_compute; discriminate). Qed.

Lemma land3_range v : 0 <= Z.land v 3 < 4.
Proof. change 3 with (2 ^ 2 - 1); rewrite land_mask by lia; apply Z.mod_pos_bound; lia. Qed.

Lemma land_small r : 0 <= r < 4 -> Z.land r 3 = r.
Proof. intros; change 3 with (2 ^ 2 - 1); rewrite land_mask by lia; apply Z.mod_small; lia. Qed.

(** [ctc1] followed by [cfc1] reads back the written value in the
    writable fields (flush, enables, flags, rounding mode), and [ctc1] makes
    the arithmetic round in the mode the MIPS encoding names. *)
Theorem ctc_cfc_roundtrip w v :
  Z.land (csr_read (csr_write w v)) csr_mask = Z.land v csr_mask /\
  rm (csr_of (csr_write w v)) = match Z.land v 3 with 0 => RN | 1 => RZ | 2 => RU | _ => RD end.
Proof.
  set (x := csr_write w v); set (v' := Z.land v csr_mask).
  assert (V3 : Z.land v' 3 = Z.land v 3) by (unfold v'; rewrite <- Z.land_assoc; reflexivity).
  destruct (rm_tables (Z.land v 3) (land3_range v)) as (T1 & _ & T3).
  set (r := ieee_rm (Z.land v 3)) in *.
  assert (X : x = Z.lor (Z.land w (Z.lnot csr_mask)) (Z.lor (Z.land v' (Z.lnot 3)) r))
    by (unfold x, csr_write; fold v'; rewrite V3; reflexivity).
  assert (X3 : Z.land x 3 = r).
  { rewrite X, !Z.land_lor_distr_l, <- !Z.land_assoc, (land_small r) by lia.
    change (Z.land (Z.lnot csr_mask) 3) with 0; change (Z.land (Z.lnot 3) 3) with 0.
    rewrite !Z.land_0_r; reflexivity. }
  split.
  - unfold csr_read; fold x; rewrite X3, T1, X, !Z.land_lor_distr_l, <- !Z.land_assoc.
    change (Z.land (Z.lnot csr_mask) (Z.land (Z.lnot 3) csr_mask)) with 0.
    change (Z.land (Z.lnot 3) (Z.land (Z.lnot 3) csr_mask)) with (Z.land csr_mask (Z.lnot 3)).
    change (Z.land 3 csr_mask) with 3.
    rewrite Z.land_0_r, Z.lor_0_l.
    assert (R0 : Z.land r (Z.land (Z.lnot 3) csr_mask) = 0).
    { rewrite <- (land_small r) by lia; rewrite <- Z.land_assoc.
      change (Z.land 3 (Z.land (Z.lnot 3) csr_mask)) with 0; apply Z.land_0_r. }
    rewrite R0, Z.lor_0_r; unfold v'; rewrite <- !Z.land_assoc.
    change (Z.land csr_mask (Z.land csr_mask (Z.lnot 3))) with (Z.land csr_mask (Z.lnot 3)).
    rewrite <- Z.land_lor_distr_r; reflexivity.
  - unfold csr_of; cbn [rm]; unfold field; change (2 ^ 0) with 1; rewrite Z.div_1_r.
    rewrite <- land_mask by lia; change (2 ^ 2 - 1) with 3; rewrite X3; unfold r.
    pose proof (land3_range v) as R.
    assert (Z.land v 3 = 0 \/ Z.land v 3 = 1 \/ Z.land v 3 = 2 \/ Z.land v 3 = 3) as [E|[E|[E|E]]] by lia;
      rewrite E; reflexivity.
Qed.

(** ** Loads and stores *)

Section Memory.
Context (mips64 : bool) {mem : Type} `{UM : UserMem mem}.
Implicit Types m : machine mem.

(** [swc1] followed by [lwc1] at the same address moves the single through
    memory unchanged; a faulting access returns [SIGBUS], counts an error and
    changes no register. *)
Theorem swc1_lwc1 st ld m :
  fpr_ok m -> 0 <= MIPSInst_RT st < 32 -> 0 <= MIPSInst_RT ld < 32 ->
  MIPSInst_RS st = MIPSInst_RS ld -> MIPSInst_SIMM st = MIPSInst_SIMM ld ->
  let a := vaddr mips64 st m in
  match put_user 4 a (wrap 32 (SIFROMREG m (MIPSInst_RT st))) m with
  | None => emu_swc1 mips64 st m = Some (inl SIGBUS, count_error (count_store m))
  | Some u => exists m',
      ebind (emu_swc1 mips64 st) (fun _ => emu_lwc1 mips64 ld) m = Some (inr tt, m') /\
      umem m' = u /\ SIFROMREG m' (MIPSInst_RT ld) = SIFROMREG m (MIPSInst_RT st)
  end.
Proof.
  intros Ok Hst Hld Hrs Him a; unfold put_user; set (v := wrap 32 _).
  assert (Hv : 0 <= v < 2 ^ (8 * 4)) by (apply wrap_range; lia).
  destruct (access_ok (umem m) a 4) eqn:Ac; [destruct (__put_user (umem m) 4 a v) as [u|] eqn:P|].
  - set (m1 := set_umem u (count_store m)); set (m2 := count_load m1).
    assert (St : emu_swc1 mips64 st m = Some (inr tt, m1)).
    { unfold emu_swc1, ebind, egets, emod, stash, put_user; fold a v.
      change (umem (count_store m)) with (umem m); change (SIFROMREG (count_store m)) with (SIFROMREG m).
      fold v; rewrite Ac, P; reflexivity. }
    assert (Ok2 : fpr_ok m2) by exact Ok.
    exists (SITOREG v (MIPSInst_RT ld) m2); split; [|split; [reflexivity|]].
    + unfold ebind at 1; rewrite St; unfold emu_lwc1, ebind, egets, emod, fetch, get_user.
      replace (vaddr mips64 ld m1) with a by (unfold a, vaddr; rewrite Hrs, Him; reflexivity).
      fold m2; change (umem m2) with u.
      rewrite (put_access _ _ _ _ _ a 4 P), Ac, (get_put _ _ _ _ _ Hv P); reflexivity.
    + rewrite single_law, Z.eqb_refl by auto; unfold v, wrap; rewrite swrap_mod.
      unfold SIFROMREG; set (b := if _ || _ then _ else _); unfold swrap at 2.
      set (q := b mod 2 ^ 32); assert (Hq : 0 <= q < 2 ^ 32) by (apply Z.mod_pos_bound; lia).
      destruct (Z.ltb_spec q (2 ^ (32 - 1))); unfold swrap.
      * fold q; rewrite (Z.mod_small q) by lia; destruct (Z.ltb_spec q (2 ^ (32 - 1))); lia.
      * replace ((q - 2 ^ 32) mod 2 ^ 32) with q by (apply (Z.mod_unique _ _ (-1)); lia).
        fold q; destruct (Z.ltb_spec q (2 ^ (32 - 1))); lia.
  - unfold emu_swc1, ebind, egets, emod, stash, put_user; fold a.
    change (umem (count_store m)) with (umem m); change (SIFROMREG (count_store m)) with (SIFROMREG m).
    fold v; rewrite Ac, P; reflexivity.
  - unfold emu_swc1, ebind, egets, emod, stash, put_user; fold a.
    change (umem (count_store m)) with (umem m); rewrite Ac; reflexivity.
Qed.
End Memory.

(** ** Branches *)

Lemma RT_range ir : 0 <= MIPSInst_RT ir < 32.
Proof.
  unfold MIPSInst_RT; rewrite Z.shiftr_land; change (Z.shiftr 0x001f0000 16) with (2 ^ 5 - 1).
  rewrite land_mask by lia; apply Z.mod_pos_bound; lia.
Qed.

(** The condition-bit table is the bit number [branch.c] computes. *)
Lemma condbit_agrees w k : 0 <= k < 8 ->
  tst (Z.land w (fpucondbit k)) = Z.testbit w (k + b2z (tst k) + 23).
Proof.
  intros Hk; replace (fpucondbit k) with (2 ^ (k + b2z (tst k) + 23)).
  - apply tst_land_bit; destruct (tst k); cbn; lia.
  - assert (k = 0 \/ k = 1 \/ k = 2 \/ k = 3 \/ k = 4 \/ k = 5 \/ k = 6 \/ k = 7)
      as [->|[->|[->|[->|[->|[->|[->| ->]]]]]]] by lia; reflexivity.
Qed.

Lemma low_bits rt : 0 <= rt < 32 ->
  one_of (Z.land rt 3) [0; 2] = negb (tst (Z.land rt 1)).
Proof.
  intros H; apply Bool.eqb_prop; match goal with |- ?b = true =>
    let g := eval pattern rt in b in match g with ?g rt => apply (small_flags g rt) end end;
    [vm_compute; reflexivity|exact H].
Qed.

Section Branches.
Context (mips64 : bool) {mem : Type} `{UM : UserMem mem}.
Implicit Types m : machine mem.

Lemma wrap_add w a b : wrap w (wrap w a + b) = wrap w (a + b).
Proof. apply Zplus_mod_idemp_l. Qed.

(** C35: the FPU branches as [cop1Emulate] executes them and as
    [__compute_return_epc] predicts them agree: both take the branch on the
    same condition and to the same target; a branch likely that is not taken
    skips its delay slot. *)
Theorem bc1_agrees ir contpc m :
  hwfcr31 m = None -> tst (Z.land (cp0_cause (xcp m)) CAUSEF_BD) = false ->
  let epc := cp0_epc (xcp m) in
  exists taken m',
    cp0_epc (xcp (bc1_epc mips64 epc ir m)) = branch_target mips64 epc ir taken /\
    (taken = true ->
       forall slot, get_user 4 (wrap (XLEN mips64) (epc + 4)) m = Some slot ->
       emu_bc mips64 ir contpc m = Some (inr (Taken slot (branch_target mips64 epc ir true)), m')) /\
    (taken = false ->
       emu_bc mips64 ir contpc m =
         Some (inr (NotTaken (if tst (Z.land (MIPSInst_RT ir) 2) then wrap (XLEN mips64) (contpc + 4)
                              else contpc)), m')).
Proof.
  intros Hw Bd epc; pose proof (RT_range ir) as Hrt; set (rt := MIPSInst_RT ir) in *.
  assert (Hk : 0 <= Z.shiftr rt 2 < 8) by (rewrite shiftr_div by lia; Z.div_mod_to_equations; lia).
  unfold bc1_epc; fold rt; rewrite Hw; cbn [set_epc set_xcp xcp cp0_epc].
  rewrite <- condbit_agrees, low_bits by auto; set (c := tst (Z.land (fcr31 (ctx m)) _)).
  replace (if negb (tst (Z.land rt 1)) then negb c else c)
    with (if tst (Z.land rt 1) then c else negb c) by (destruct (tst (Z.land rt 1)); reflexivity).
  set (cond := if tst (Z.land rt 1) then c else negb c).
  set (m1 := set_cause (Z.lor (cp0_cause (xcp m)) CAUSEF_BD) m).
  unfold emu_bc, ebind, egets, emod; rewrite Bd; fold rt c cond m1.
  exists cond; destruct cond.
  - exists (set_epc (wrap (XLEN mips64) (epc + 4)) m1); split; [reflexivity|split; [|discriminate]].
    intros _ slot G; unfold fetch, get_user in *; cbn [set_epc set_xcp xcp cp0_epc] in *.
    change (umem (set_epc (wrap (XLEN mips64) (cp0_epc (xcp m1) + 4)) m1)) with (umem m).
    change (cp0_epc (xcp m1)) with epc.
    destruct (access_ok (umem m) _ 4); [|discriminate]; rewrite G.
    unfold eret, branch_target; rewrite wrap_add; reflexivity.
  - exists (if tst (Z.land rt 2) then set_epc (wrap (XLEN mips64) (epc + 4)) m1 else m1).
    split; [reflexivity|split; [discriminate|intros _]].
    destruct (tst (Z.land rt 2)); reflexivity.
Qed.

Lemma ebind_emod_ext {A} (g : machine mem -> machine mem) (k1 k2 : unit -> E mem A) m :
  k1 tt (g m) = k2 tt (g m) -> ebind (emod g) k1 m = ebind (emod g) k2 m.
Proof. intros E1; exact E1. Qed.

(** In a delay slot the branch case is refused, so [goto emul] is not taken. *)
Lemma emul_one_bd a1 a2 ir contpc m :
  tst (Z.land (cp0_cause (xcp m)) CAUSEF_BD) = true ->
  emul_one mips64 a1 ir contpc m = emul_one mips64 a2 ir contpc m.
Proof.
  intros Bd; unfold emul_one; apply ebind_emod_ext; cbv zeta.
  repeat match goal with |- (if ?b then _ else _) _ = (if ?b then _ else _) _ => destruct b; [try reflexivity|] end;
    try reflexivity.
  unfold ebind, emu_bc, ebind, egets; change (cp0_cause (xcp (count_emulated m))) with (cp0_cause (xcp m)).
  rewrite Bd; reflexivity.
Qed.

Lemma emu_bc_sets_bd ir contpc m b m' :
  emu_bc mips64 ir contpc m = Some (inr b, m') -> tst (Z.land (cp0_cause (xcp m')) CAUSEF_BD) = true.
Proof.
  assert (L : forall c, tst (Z.land (Z.lor c CAUSEF_BD) CAUSEF_BD) = true).
  { intros c; unfold CAUSEF_BD; rewrite tst_land_bit, Z.lor_spec, Z.pow2_bits_true by lia; apply orb_true_r. }
  unfold emu_bc, ebind, egets, emod, fetch, eret; destruct (tst (Z.land (cp0_cause (xcp m)) CAUSEF_BD)); [discriminate|].
  destruct (if tst (Z.land (MIPSInst_RT ir) 1) then _ else _).
  - destruct (get_user _ _ _); [intros [= _ <-]; apply L|discriminate].
  - destruct (tst (Z.land (MIPSInst_RT ir) 2)); intros [= _ <-]; apply L.
Qed.

(** Two continuations that agree in delay slots give the same round. *)
Lemma emul_one_ext a1 a2 ir contpc m :
  (forall slot pc m', tst (Z.land (cp0_cause (xcp m')) CAUSEF_BD) = true -> a1 slot pc m' = a2 slot pc m') ->
  emul_one mips64 a1 ir contpc m = emul_one mips64 a2 ir contpc m.
Proof.
  intros Ha; unfold emul_one; apply ebind_emod_ext; cbv zeta.
  repeat match goal with |- (if ?b then _ else _) _ = (if ?b then _ else _) _ => destruct b; [try reflexivity|] end;
    try reflexivity.
  unfold ebind; destruct (emu_bc mips64 ir contpc (count_emulated m)) as [[[sig|b] m']|] eqn:Eb; try reflexivity.
  destruct b as [slot pc|]; [|reflexivity]; destruct (is_ours slot); [|reflexivity].
  apply Ha, (emu_bc_sets_bd _ _ _ _ _ Eb).
Qed.

(** [goto emul] is taken at most once, because the second round runs in a
    delay slot: more fuel than the two rounds of the model changes nothing. *)
Theorem emul_two_rounds n ir contpc m :
  emul mips64 (S (S n)) ir contpc m = emul mips64 2 ir contpc m.
Proof.
  change (emul_one mips64 (emul mips64 (S n)) ir contpc m = emul_one mips64 (emul mips64 1) ir contpc m).
  apply emul_one_ext; intros slot pc m' Bd.
  change (emul_one mips64 (emul mips64 n) slot pc m' = emul_one mips64 (emul mips64 0) slot pc m').
  apply emul_one_bd, Bd.
Qed.

(** ** Trampolines *)

Lemma put_err_ok n a v u u' : put_err n a v (false, u) = (false, u') -> __put_user u n a v = Some u'.
Proof. unfold put_err; destruct (__put_user u n a v); congruence. Qed.

Lemma put_err_true n a v u : fst (put_err n a v (true, u)) = true.
Proof. unfold put_err; destruct (__put_user u n a v); reflexivity. Qed.

(** A sequence of stores that ends without error had none. *)
Lemma put_err_inv n a v p u' : put_err n a v p = (false, u') ->
  exists u, p = (false, u) /\ __put_user u n a v = Some u'.
Proof.
  destruct p as [[|] u]; intros E1.
  - pose proof (put_err_true n a v u) as T; rewrite E1 in T; discriminate.
  - exists u; split; [reflexivity|apply put_err_ok; exact E1].
Qed.

Lemma XLEN_bytes : 8 * (XLEN mips64 / 8) = XLEN mips64 /\ 4 <= XLEN mips64 / 8 <= 8.
Proof. destruct mips64; cbn; lia. Qed.

Lemma frame_aligned a : 0 <= a < 2 ^ XLEN mips64 -> 0 <= Z.land a (Z.lnot 7) /\ Z.land a (Z.lnot 7) <= a.
Proof.
  intros Ha; rewrite <- Z.ldiff_land; change 7 with (Z.ones 3).
  rewrite Z.ldiff_ones_r, Z.shiftl_mul_pow2, shiftr_div by lia; change (2 ^ 3) with 8; Z.div_mod_to_equations; lia.
Qed.
Lemma frame_bounds a : 0 <= a < 2 ^ XLEN mips64 ->
  wrap (XLEN mips64) (Z.land a (Z.lnot 7) + 4 - 4) = Z.land a (Z.lnot 7).
Proof. intros Ha; pose proof (frame_aligned a Ha); rewrite Z.add_simpl_r; apply Z.mod_small; lia. Qed.

(** The words [mips_dsemul] leaves in the frame at the new [cp0_epc]. *)
Lemma dsemul_frame ir cpc m m' :
  0 < ir < 2 ^ 32 -> 0 <= cpc < 2 ^ XLEN mips64 -> mips_dsemul mips64 ir cpc m = (SIGILL, m') ->
  let fr := cp0_epc (xcp m') in
  access_ok (umem m') fr (emuframe_size mips64) = true /\
  wrap (XLEN mips64) (fr + 4 - 4) = fr /\
  __get_user (umem m') 4 fr = Some ir /\
  __get_user (umem m') 4 (fr + off_badinst) = Some BADINST /\
  __get_user (umem m') 4 (fr + off_cookie) = Some BD_COOKIE /\
  __get_user (umem m') (XLEN mips64 / 8) (fr + off_epc mips64) = Some cpc.
Proof.
  intros Hir Hc; unfold mips_dsemul; destruct (Z.eqb_spec ir 0); [lia|].
  set (a := wrap (XLEN mips64) (sel (gpr (xcp m)) 29 - emuframe_size mips64)).
  assert (Ha : 0 <= a < 2 ^ XLEN mips64) by (apply wrap_range; destruct mips64; cbn; lia).
  pose proof (frame_bounds a Ha) as Fb; set (fr := Z.land a (Z.lnot 7)) in *.
  destruct (access_ok (umem m) fr _) eqn:Ac; cbn [negb]; [|discriminate].
  destruct (put_err (XLEN mips64 / 8) _ cpc _) as [[|] u4] eqn:P4; [discriminate|intros [= <-]].
  apply put_err_inv in P4 as (u3 & P3 & W4); apply put_err_inv in P3 as (u2 & P2 & W3).
  apply put_err_inv in P2 as (u1 & P1 & W2); apply put_err_inv in P1 as (u0 & [= <-] & W1).
  cbn [set_epc set_umem set_xcp xcp umem cp0_epc]; unfold off_emul in *; rewrite Z.add_0_r in *.
  pose proof XLEN_bytes as [Xb Xr]; assert (Ho : 12 <= off_epc mips64) by (destruct mips64; cbn; lia).
  rewrite !(put_access _ _ _ _ _ _ _ W4), !(put_access _ _ _ _ _ _ _ W3),
    !(put_access _ _ _ _ _ _ _ W2), !(put_access _ _ _ _ _ _ _ W1).
  split; [exact Ac|split; [exact Fb|]]; unfold off_badinst, off_cookie in *.
  split; [|split; [|split]].
  - rewrite (get_put_other _ _ _ _ _ _ _ W4), (get_put_other _ _ _ _ _ _ _ W3),
      (get_put_other _ _ _ _ _ _ _ W2) by lia; refine (get_put _ _ _ _ _ _ W1); change (8 * 4) with 32; lia.
  - rewrite (get_put_other _ _ _ _ _ _ _ W4), (get_put_other _ _ _ _ _ _ _ W3) by lia.
    refine (get_put _ _ _ _ _ _ W2); split; vm_compute; congruence.
  - rewrite (get_put_other _ _ _ _ _ _ _ W4) by lia; refine (get_put _ _ _ _ _ _ W3); split; vm_compute; congruence.
  - refine (get_put _ _ _ _ _ _ W4); rewrite Xb; exact Hc.
Qed.

(** The trampoline round trip.  When [mips_dsemul] sets up a frame, the
    delay-slot instruction is at the new [cp0_epc]; when the instruction after
    it traps, with the rest of the frame intact, [do_dsemulret] recognises the
    frame and continues at the branch target saved there. *)
Lemma dsemul_returns ir cpc m m' :
  0 < ir < 2 ^ 32 -> 0 <= cpc < 2 ^ XLEN mips64 -> mips_dsemul mips64 ir cpc m = (SIGILL, m') ->
  let fr := cp0_epc (xcp m') in
  __get_user (umem m') 4 fr = Some ir /\
  forall m2, cp0_epc (xcp m2) = fr + 4 ->
    access_ok (umem m2) fr (emuframe_size mips64) = access_ok (umem m') fr (emuframe_size mips64) ->
    (forall n b, fr + 4 <= b -> b + n <= fr + emuframe_size mips64 ->
       __get_user (umem m2) n b = __get_user (umem m') n b) ->
    do_dsemulret mips64 m2 = (1, set_epc cpc m2).
Proof.
  intros Hir Hc Hd fr; destruct (dsemul_frame _ _ _ _ Hir Hc Hd) as (Ac & Fb & I0 & I1 & I2 & I3).
  fold fr in Ac, Fb, I0, I1, I2, I3; split; [exact I0|]; intros m2 Hepc Hac Hsame.
  assert (Ho : 12 <= off_epc mips64 /\ off_epc mips64 + XLEN mips64 / 8 = emuframe_size mips64)
    by (destruct mips64; cbn; lia).
  pose proof XLEN_bytes as [_ Xr].
  unfold do_dsemulret; rewrite Hepc, Fb, Hac, Ac; cbn [negb].
  unfold off_badinst, off_cookie in *; rewrite !Hsame by lia; rewrite I1, I2, I3, !Z.eqb_refl; reflexivity.
Qed.
End Branches.

(** ** Witnesses *)

Lemma demo_ok w : fpr_ok (demo w).
Proof.
  split; [reflexivity|]; intros i; unfold sel.
  assert (F : Forall (fun v => 0 <= v < 2 ^ 64) (fpr (ctx (demo w))))
    by (cbn [demo ctx fpr]; repeat constructor; vm_compute; discriminate).
  destruct (Nat.lt_ge_cases (Z.to_nat i) (List.length (fpr (ctx (demo w))))) as [L|G].
  - exact (proj1 (Forall_nth _ _) F (Z.to_nat i) 0 L).
  - rewrite nth_overflow by exact G; lia.
Qed.

(** [op.fmt fd, fs, ft]. *)
Definition cop1_insn (fmt ft fs fd func : Z) : Z :=
  cop1_op * 2 ^ 26 + (16 + fmt) * 2 ^ 21 + ft * 2 ^ 16 + fs * 2 ^ 11 + fd * 2 ^ 6 + func.
(** [op rt, imm(rs)]. *)
Definition mem_insn (op rs rt imm : Z) : Z := op * 2 ^ 26 + rs * 2 ^ 21 + rt * 2 ^ 16 + imm.

Lemma register_file_laws_witness :
  SIFROMREG (SITOREG (-5) 3 (demo 0)) 3 = swrap 32 (-5) /\
  (2 <> 3 -> SIFROMREG (SITOREG (-5) 3 (demo 0)) 2 = SIFROMREG (demo 0) 2) /\
  DIFROMREG (DITOREG 9 3 (demo 0)) 3 = wrap 64 9.
Proof. apply (register_file_laws (demo 0) (-5) 9 3 2); [apply demo_ok|lia|lia]. Defined.

(** [div.d f6, f2, f4] is [1.5 / -3]. *)
Lemma fpu_arith_correct_witness :
  let ir := cop1_insn 1 4 2 6 3 in
  exists z i u v,
    FPResult DP (csr_of (fcr31 (ctx (demo 0))))
      (exact Div (val DP (operand DP (demo 0) (MIPSInst_FS ir))) (val DP (operand DP (demo 0) (MIPSInst_FT ir))))
      z i u v /\
    exists m', fpu_emu false ir (demo 0) = Some (inr tt, m') /\ operand DP m' (MIPSInst_FD ir) = z.
Proof.
  destruct (fpu_arith_correct false DP Div (cop1_insn 1 4 2 6 3) (demo 0))
    as (z & i & u & v & FR & m' & E & _ & _ & P);
    [apply demo_ok|reflexivity|closed|reflexivity|reflexivity|vm_compute; reflexivity|vm_compute; reflexivity| |].
  - intros _; apply val_nonzero; [apply operand_wf|vm_compute; reflexivity|vm_compute; discriminate].
  - exists z, i, u, v; split; [exact FR|exists m'].
    replace (mx (csr_of (fcr31 (ctx (demo 0))))) with 0 in E, P by reflexivity.
    rewrite Z.land_0_r in E, P; split; [exact E|exact P].
Defined.

(** [div.d f6, f2, f0] is [1.5 / 0], with the divide-by-zero trap enabled. *)
Lemma fpu_emu_precise_witness :
  exists m', fpu_emu false (cop1_insn 1 0 2 6 3) (demo 0x400) = Some (inl SIGFPE, m') /\
    fpr (ctx m') = fpr (ctx (demo 0x400)).
Proof.
  destruct (fpu_emu false (cop1_insn 1 0 2 6 3) (demo 0x400)) as [[[sig|u] m']|] eqn:E;
    [|vm_compute in E; discriminate..].
  assert (sig = SIGFPE) as -> by (vm_compute in E; injection E as <- _; reflexivity).
  exists m'; split; [reflexivity|apply (fpu_emu_precise false _ _ _ _ E)].
Defined.

(** [swc1 f2, 8(r4)] and [lwc1 f5, 8(r4)]. *)
Lemma swc1_lwc1_witness :
  let st := mem_insn swc1_op 4 2 8 in
  let ld := mem_insn lwc1_op 4 5 8 in
  exists m', ebind (emu_swc1 false st) (fun _ => emu_lwc1 false ld) (demo 0) = Some (inr tt, m') /\
    SIFROMREG m' (MIPSInst_RT ld) = SIFROMREG (demo 0) (MIPSInst_RT st).
Proof.
  pose proof (swc1_lwc1 false (mem_insn swc1_op 4 2 8) (mem_insn lwc1_op 4 5 8) (demo 0)
    (demo_ok 0) ltac:(closed) ltac:(closed) eq_refl eq_refl) as H; cbv zeta in H.
  destruct (put_user 4 _ _ _) as [u|] eqn:P; [|vm_compute in P; discriminate].
  destruct H as (m' & E & _ & S); exists m'; split; [exact E|exact S].
Defined.

(** [bc1f +3], with condition bit 0 clear. *)
Lemma bc1_agrees_witness :
  let ir := mem_insn cop1_op bc_op 0 3 in
  exists taken m', branch_target false 0x400 ir taken = 0x410 /\
    (taken = true -> emu_bc false ir 0x404 (demo 0) = Some (inr (Taken 0 0x410), m')).
Proof.
  destruct (bc1_agrees false (mem_insn cop1_op bc_op 0 3) 0x404 (demo 0) eq_refl eq_refl)
    as (taken & m' & Ht & Y & _); exists taken, m'; split; [exact (eq_sym Ht)|].
  intros T; exact (Y T 0 eq_refl).
Defined.
