(* ===== verification/Safety.v ===== *)
(** * Safety of the emulator

    [machine_ok]: the register files have their 32 entries, every register,
    the pc and FCR31 hold values of their width.  Every step of the emulator
    keeps it, returns (no arithmetic loop runs out), and reports one of a few
    codes; hence [cop1Emulate] is total, and the loop over consecutive
    instructions in [fpu_emulator_cop1Handler] ends. *)

From S2P Require Import Prelude Rounding Ieee754 Format Views AddSub Mul Div FromInt ToInt Cmp Simple.
From S2P Require Import Special Sqrt Total Inst Machine ByteMem Branch Dsemul Cp1emu Cp1Props.

(** ** Arrays, tables and register numbers *)

Lemma sel_upd_range l i v n : List.length l = 32%nat -> 0 <= i < 32 -> 0 <= v < n ->
  (forall j, 0 <= sel l j < n) -> forall j, 0 <= sel (upd l i v) j < n.
Proof.
  intros L Hi Hv Hl j; destruct (Z.le_gt_cases 0 j).
  - rewrite sel_upd by lia; destruct (i =? j); auto.
  - replace (sel (upd l i v) j) with (sel (upd l i v) 0) by (unfold sel; now replace (Z.to_nat j) with O by lia).
    rewrite sel_upd by lia; destruct (i =? 0); auto.
Qed.

(** Tables of words. *)
Lemma nth_range l n N : forallb (fun v => (0 <=? v) && (v <? N)) (0 :: l) = true -> 0 <= nth n l 0 < N.
Proof.
  intros F; assert (I : In (nth n l 0) (0 :: l)).
  { destruct (Nat.lt_ge_cases n (List.length l)); [right; now apply nth_In|left; symmetry; now apply nth_overflow]. }
  rewrite forallb_forall in F; specialize (F _ I); zbool; lia.
Qed.

Lemma fpucondbit_range i : 0 <= fpucondbit i < 2 ^ 32.
Proof. now apply nth_range. Qed.
Lemma ieee_rm_range i : 0 <= ieee_rm i < 4.
Proof. now apply nth_range. Qed.
Lemma mips_rm_range i : 0 <= mips_rm i < 4.
Proof. now apply nth_range. Qed.

(** A word with its rounding mode replaced. *)
Lemma with_mode_range w r : 0 <= w < 2 ^ 32 -> 0 <= r < 4 -> 0 <= Z.lor (Z.land w (Z.lnot 3)) r < 2 ^ 32.
Proof. intros; apply lor_range; [lia|apply land_range; lia|lia]. Qed.

Lemma csr_read_range w : 0 <= w < 2 ^ 32 -> 0 <= csr_read w < 2 ^ 32.
Proof. intros; apply with_mode_range; auto using mips_rm_range. Qed.

Lemma csr_write_range w v : 0 <= w < 2 ^ 32 -> 0 <= v < 2 ^ 32 -> 0 <= csr_write w v < 2 ^ 32.
Proof.
  intros Hw Hv; unfold csr_write; apply lor_range; [lia|apply land_range; lia|].
  apply with_mode_range; [apply land_range; lia|apply ieee_rm_range].
Qed.

Lemma reg_field x k : 0 <= k -> 0 <= Z.shiftr (Z.land x (Z.shiftl 31 k)) k < 32.
Proof.
  intros; rewrite Z.shiftr_land, Z.shiftr_shiftl_l, Z.sub_diag by lia.
  change (Z.shiftl 31 0) with (2 ^ 5 - 1); rewrite land_mask by lia; apply Z.mod_pos_bound; lia.
Qed.
Lemma FD_range ir : 0 <= MIPSInst_FD ir < 32.
Proof. exact (reg_field ir 6 ltac:(lia)). Qed.
Lemma RD_range ir : 0 <= MIPSInst_RD ir < 32.
Proof. exact (reg_field ir 11 ltac:(lia)). Qed.

Create HintDb step.

Section Safety.
Context (mips64 : bool) {mem : Type} `{UserMem mem}.
Implicit Types m : machine mem.

Let W := XLEN mips64.

Record machine_ok (m : machine mem) : Prop := {
  ok_fpr : fpr_ok m;
  ok_gprs : List.length (gpr (xcp m)) = 32%nat;
  ok_gpr : forall i, 0 <= sel (gpr (xcp m)) i < 2 ^ W;
  ok_epc : 0 <= cp0_epc (xcp m) < 2 ^ W;
  ok_fcr31 : 0 <= fcr31 (ctx m) < 2 ^ 32
}.

(** What the emulator can return early: nothing to report, resumed after a
    trampoline, or one of three signals. *)
Definition code_ok (sig : Z) : Prop := In sig [0; 1; SIGILL; SIGBUS; SIGFPE].

(** ** Updates that keep the state well formed *)

Lemma XLEN_32 : 32 <= W.
Proof. unfold W, XLEN; destruct mips64; lia. Qed.

Lemma word_range v : 0 <= v < 2 ^ 32 -> 0 <= v < 2 ^ W.
Proof. intros; pose proof XLEN_32; pose proof (pow2_le 32 W); lia. Qed.

Lemma W_range v : 0 <= wrap W v < 2 ^ W.
Proof. apply wrap_range; pose proof XLEN_32; lia. Qed.

Lemma ok_frame m m' : xcp m' = xcp m -> ctx m' = ctx m -> machine_ok m -> machine_ok m'.
Proof. intros Ex Ec [A B C D E]; split; unfold fpr_ok in *; rewrite ?Ex, ?Ec; auto. Qed.

Lemma ok_set_gpr m i v : 0 <= i < 32 -> 0 <= v < 2 ^ W -> machine_ok m -> machine_ok (set_gpr i v m).
Proof.
  intros Hi Hv [A B C D E]; split; auto; cbn [set_gpr set_xcp xcp gpr].
  - rewrite upd_length; exact B.
  - now apply sel_upd_range.
Qed.

Lemma ok_set_epc m v : 0 <= v < 2 ^ W -> machine_ok m -> machine_ok (set_epc v m).
Proof. intros Hv [A B C D E]; split; auto. Qed.

Lemma ok_set_cause m v : machine_ok m -> machine_ok (set_cause v m).
Proof. intros [A B C D E]; split; auto. Qed.

Lemma ok_set_fpr m i v : 0 <= i < 32 -> 0 <= v < 2 ^ 64 -> machine_ok m -> machine_ok (set_fpr i v m).
Proof. intros Hi Hv [A B C D E]; split; auto; now apply fpr_ok_set. Qed.

Lemma ok_set_fcr31 m v : 0 <= v < 2 ^ 32 -> machine_ok m -> machine_ok (set_fcr31 v m).
Proof. intros Hv [A B C D E]; split; auto. Qed.

Lemma ok_SITOREG m si x : 0 <= x < 32 -> machine_ok m -> machine_ok (SITOREG si x m).
Proof.
  intros Hx Ok; rewrite SITOREG_spec by apply Ok; cbv zeta; apply ok_set_fpr; auto using fpr_index_range.
  pose proof (proj2 (ok_fpr m Ok) (even_index x)) as R; set (old := sel _ _) in *.
  destruct (fr_bit m || _); Z.div_mod_to_equations; lia.
Qed.

Lemma ok_DITOREG m di x : 0 <= x < 32 -> machine_ok m -> machine_ok (DITOREG di x m).
Proof. intros Hx Ok; apply ok_set_fpr; auto using fpr_index_range; apply wrap_range; lia. Qed.

Lemma ok_conv_rm tab m : (forall i, 0 <= tab i < 4) -> machine_ok m -> machine_ok (conv_rm tab m).
Proof. intros Ht Ok; apply ok_set_fcr31; auto; apply with_mode_range; [apply Ok|apply Ht]. Qed.

Lemma copcsr_range m : 0 <= copcsr m < 2 ^ 32.
Proof. unfold copcsr; repeat apply lor_range; try lia; destruct (tst _); closed. Qed.
Lemma copcsr_x_range m : 0 <= copcsr_x m < 2 ^ 32.
Proof. unfold copcsr_x; repeat apply lor_range; try lia; destruct (tst _); closed. Qed.

Lemma ok_write_back m rv x : 0 <= x < 32 -> machine_ok m -> machine_ok (write_back rv x m).
Proof.
  intros Hx Ok; destruct rv; cbn [write_back]; unfold SPTOREG, DPTOREG; auto using ok_SITOREG, ok_DITOREG.
  apply ok_set_fcr31; auto; destruct (tst z).
  - apply lor_range; [lia|apply Ok|apply fpucondbit_range].
  - apply land_range; [lia|apply Ok].
Qed.

(** ** Safe steps *)

Definition Step {A} (e : E mem A) (Q : A -> Prop) : Prop :=
  forall m, machine_ok m -> exists r m', e m = Some (r, m') /\ machine_ok m' /\
    match r with inl sig => code_ok sig | inr a => Q a end.

Lemma step_ret {A} (a : A) (Q : A -> Prop) : Q a -> Step (eret a) Q.
Proof. intros Ha m Ok; exists (inr a), m; auto. Qed.

Lemma step_throw {A} sig (Q : A -> Prop) : code_ok sig -> Step (throw sig) Q.
Proof. intros Hs m Ok; exists (inl sig), m; auto. Qed.

Lemma step_bind {A B} (e : E mem A) (k : A -> E mem B) P Q :
  Step e P -> (forall a, P a -> Step (k a) Q) -> Step (ebind e k) Q.
Proof.
  intros He Hk m Ok; unfold ebind; destruct (He m Ok) as ([sig|a] & m' & -> & Ok' & R).
  - exists (inl sig), m'; auto.
  - now apply Hk.
Qed.

Lemma step_gets {A B} (g : machine mem -> A) (k : A -> E mem B) P Q :
  (forall m, machine_ok m -> P (g m)) -> (forall a, P a -> Step (k a) Q) -> Step (ebind (egets g) k) Q.
Proof. intros Hg Hk m Ok; apply Hk; auto. Qed.

Lemma step_mod {B} (g : machine mem -> machine mem) (k : unit -> E mem B) Q :
  (forall m, machine_ok m -> machine_ok (g m)) -> Step (k tt) Q -> Step (ebind (emod g) k) Q.
Proof. intros Hg Hk m Ok; apply Hk; auto. Qed.

Lemma step_mod_end (g : machine mem -> machine mem) :
  (forall m, machine_ok m -> machine_ok (g m)) -> Step (emod g) (fun _ => True).
Proof. intros Hg m Ok; exists (inr tt), (g m); auto. Qed.

Lemma step_ieee {A} (c : M A) Q : Tot c Q -> Step (ieee c) Q.
Proof.
  intros Hc m Ok; unfold ieee.
  destruct (Hc (mkst (csr_of (fcr31 (ctx m))) (log m)) (csr_of_wf _)) as (a & s & -> & Ha & Ws).
  eexists _, _; split; [reflexivity|split; [|exact Ha]]; destruct Ok; split; auto.
  cbn [ctx fcr31]; now apply csr_word_range.
Qed.

Lemma step_fetch n a : Step (fetch n a) (fun v => 0 <= v < 2 ^ (8 * n)).
Proof.
  intros m Ok; unfold fetch, get_user.
  destruct (access_ok _ _ _); [destruct (__get_user (umem m) n a) as [v|] eqn:E|].
  - exists (inr v), m; split; [reflexivity|split; [exact Ok|exact (get_range _ _ _ _ E)]].
  - eexists _, _; split; [reflexivity|split; [now apply (ok_frame m)|right; right; right; left; reflexivity]].
  - eexists _, _; split; [reflexivity|split; [now apply (ok_frame m)|right; right; right; left; reflexivity]].
Qed.

Lemma step_stash n a v : Step (stash n a v) (fun _ => True).
Proof.
  intros m Ok; unfold stash; destruct (put_user n a v m) as [u|];
    (eexists _, _; split; [reflexivity|split; [now apply (ok_frame m)|]]); [exact I|].
  right; right; right; left; reflexivity.
Qed.

Lemma step_returns {A} (g : machine mem -> Z * machine mem) (Q : A -> Prop) :
  (forall m, machine_ok m -> machine_ok (snd (g m)) /\ code_ok (fst (g m))) -> Step (returns g) Q.
Proof.
  intros Hg m Ok; unfold returns; destruct (g m) as [sig m'] eqn:E.
  destruct (Hg m Ok) as [O C]; rewrite E in O, C; exists (inl sig), m'; auto.
Qed.

(** ** The arithmetic handlers *)

Lemma bop_tot f func h x y : bop f func = Some h -> wf f x -> wf f y -> Tot (h x y) (wf f).
Proof.
  unfold bop; intros E Wx Wy; repeat (destruct (_ =? _) in E; [injection E as <-|]); [..|discriminate].
  - now apply (binop_tot f Add).
  - now apply (binop_tot f Sub).
  - now apply (binop_tot f Mul).
  - now apply (binop_tot f Div).
Qed.

Lemma recip_tot f x : wf f x -> Tot (fpemu_recip f x) (wf f).
Proof. intros; apply (binop_tot f Div); auto with tot. Qed.

Lemma rsqrt_tot f x : wf f x -> Tot (fpemu_rsqrt f x) (wf f).
Proof. intros; eapply tot_bind; [now apply sqrt_tot|]; intros; now apply recip_tot. Qed.

Lemma uop_tot f func h x : uop f func = Some h -> wf f x -> Tot (h x) (wf f).
Proof.
  unfold uop; intros E Wx; repeat (destruct (_ =? _) in E; [injection E as <-|]); [..|discriminate];
    auto using sqrt_tot, rsqrt_tot, recip_tot, abs_tot, neg_tot.
Qed.

Lemma fpemu_3op_tot f f1 f2 f3 r s t :
  (forall x y, wf f x -> wf f y -> Tot (f1 x y) (wf f)) ->
  (forall x y, wf f x -> wf f y -> Tot (f2 x y) (wf f)) ->
  (forall x, wf f x -> Tot (f3 x) (wf f)) ->
  wf f r -> wf f s -> wf f t -> Tot (fpemu_3op f1 f2 f3 r s t) (wf f).
Proof.
  intros H1 H2 H3 Wr Ws Wt; unfold fpemu_3op.
  eapply tot_bind; [now apply H1|intros a Wa]; apply tot_csr; intros c1 (? & ? & ? & ? & ?).
  eapply tot_bind; [now apply H2|intros b Wb]; apply tot_csr; intros c2 (? & ? & ? & ? & ?).
  eapply tot_bind; [now apply H3|intros d Wd]; apply tot_modify; [|now apply tot_ret].
  intros u (? & ? & ? & ? & ?); cbn [fcsr upd_csr]; split; [|split; [|split; [|split]]];
    cbn [with_sx with_cx sx mx cx pad1 pad0]; auto; repeat apply lor_range; auto; lia.
Qed.

Lemma fma_tot f func h r s t :
  fma_handler f func = Some h -> wf f r -> wf f s -> wf f t -> Tot (h r s t) (wf f).
Proof.
  unfold fma_handler; intros E Wr Ws Wt; repeat (destruct (_ =? _) in E; [injection E as <-|]); [..|discriminate];
    apply fpemu_3op_tot; auto using tot_ret, neg_tot;
    (apply (binop_tot f Mul) || apply (binop_tot f Add) || apply (binop_tot f Sub)).
Qed.

Lemma in_mode_tot func c Q : Tot c Q -> Tot (in_mode func c) Q.
Proof.
  intros Hc; unfold in_mode; apply tot_gets; intros r.
  apply tot_modify; [intros s Hs; exact Hs|].
  eapply tot_bind; [exact Hc|intros z Hz].
  apply tot_modify; [intros s Hs; exact Hs|now apply tot_ret].
Qed.

(** ** The arithmetic instructions *)

Definition outcome_ok (o : outcome) : Prop :=
  match o with Skip => True | Done rcsr _ => 0 <= rcsr < 2 ^ 32 end.

Lemma step_copcsr rv : Step (goto_copcsr rv) outcome_ok.
Proof.
  apply (step_gets _ _ (fun r => 0 <= r < 2 ^ 32)); [intros; apply copcsr_range|].
  intros r Hr; now apply step_ret.
Qed.

(** A call of the arithmetic whose result goes to [goto copcsr]. *)
Lemma step_op {A} (c : M A) (g : A -> rval) Q : Tot c Q ->
  Step (v <-- ieee c ;; goto_copcsr (g v)) outcome_ok.
Proof. intros Hc; eapply step_bind; [apply step_ieee; exact Hc|intros; apply step_copcsr]. Qed.

Lemma step_from {B} f x (k : ieee754 -> E mem B) Q :
  (forall v, wf f v -> Step (k v) Q) -> Step (v <-- FROMREG f x ;; k v) Q.
Proof. apply step_gets; intros; apply (operand_wf f). Qed.

Lemma code_ill : code_ok SIGILL.
Proof. right; right; left; reflexivity. Qed.
Lemma code_fpe : code_ok SIGFPE.
Proof. do 4 right; left; reflexivity. Qed.
Lemma code_bus : code_ok SIGBUS.
Proof. do 3 right; left; reflexivity. Qed.
#[local] Hint Resolve code_ill code_fpe code_bus : step.
#[local] Hint Resolve step_throw step_op step_copcsr : step.
#[local] Hint Resolve fdp_tot fsp_tot tint_tot tlong_tot in_mode_tot dp_fint_tot : step.

Lemma step_cvt f ir : Step (cvt mips64 f ir) outcome_ok.
Proof.
  unfold cvt; apply step_from; intros v Wv; destruct f; repeat case_if; eauto with step.
Qed.

Lemma step_fcmp f ir : Step (fcmp f ir) outcome_ok.
Proof.
  unfold fcmp; apply step_from; intros v Wv; apply step_from; intros w Ww.
  eapply step_bind; [apply step_ieee, cmp_tot; auto|intros z _].
  apply (step_gets _ _ (fun _ => True)); [auto|intros b _].
  destruct (_ && b); [apply step_ret; closed|apply step_copcsr].
Qed.

Lemma step_fmt f ir : Step (fpu_emu_fmt mips64 f ir) outcome_ok.
Proof.
  unfold fpu_emu_fmt; apply (step_gets _ _ (fun _ => True)); [auto|intros mv _].
  destruct (bop f _) eqn:Eb.
  { apply step_from; intros v Wv; apply step_from; intros w Ww; eapply step_op, bop_tot; eauto. }
  destruct (uop f _) eqn:Eu.
  { apply step_from; intros v Wv; eapply step_op, uop_tot; eauto. }
  destruct mv as [[|]|].
  - apply step_from; intros v Wv; apply step_ret; closed.
  - now apply step_ret.
  - repeat case_if; [apply step_from; intros v Wv; apply step_copcsr|apply step_fcmp|apply step_cvt].
Qed.

Lemma step_int ir long : Step (fpu_emu_int ir long) outcome_ok.
Proof.
  unfold fpu_emu_int; destruct long.
  - apply (step_gets _ _ (sint 64)); [intros; apply swrap_sint; lia|intros x Hx].
    repeat case_if; eauto with step; eapply step_op, from_int_tot; auto; cbn; lia.
  - apply (step_gets _ _ (sint 32)); [intros; apply swrap_sint; lia|intros x Hx].
    repeat case_if; eauto with step; eapply step_op, from_int_tot; auto; cbn; lia.
Qed.

Lemma step_csr_update rcsr : 0 <= rcsr < 2 ^ 32 -> Step (csr_update rcsr) (fun _ => True).
Proof.
  intros Hr; unfold csr_update; apply step_mod.
  - intros m Ok; apply ok_set_fcr31; auto; apply lor_range; [lia|apply land_range; [lia|apply Ok]|auto].
  - apply (step_gets _ _ (fun _ => True)); [auto|intros b _].
    destruct b; [auto with step|now apply step_ret].
Qed.

Lemma step_fpu_emu ir : Step (fpu_emu mips64 ir) (fun _ => True).
Proof.
  unfold fpu_emu; apply step_mod; [intros m; now apply ok_frame|].
  eapply (step_bind _ _ outcome_ok); [repeat case_if; auto using step_fmt, step_int with step|].
  intros [|rcsr rv] Ho; [now apply step_ret|].
  eapply step_bind; [now apply step_csr_update|intros _ _].
  apply step_mod_end; intros m; apply ok_write_back, FD_range.
Qed.

(** ** Loads, stores and moves *)

(** An address or a register value is only used modulo the word size. *)
Lemma step_get {A B} (g : machine mem -> A) (k : A -> E mem B) Q :
  (forall a, Step (k a) Q) -> Step (ebind (egets g) k) Q.
Proof. intros Hk; apply (step_gets g k (fun _ => True)); auto. Qed.

Lemma step_load n a g : (forall v m, machine_ok m -> machine_ok (g v m)) ->
  Step (v <-- fetch n a ;; emod (g v)) (fun _ => True).
Proof.
  intros Hg; eapply step_bind; [apply step_fetch|intros v _; apply step_mod_end; auto].
Qed.

Lemma step_fpux_fmt f ir : Step (fpux_fmt mips64 f ir) (fun _ => True).
Proof.
  unfold fpux_fmt; cbv zeta; destruct (_ =? _); [|destruct (_ =? _)].
  - apply step_get; intros va; apply step_mod; [intros m; now apply ok_frame|].
    apply step_load; intros v m Ok; destruct f; [apply ok_SITOREG|apply ok_DITOREG]; auto using FD_range.
  - apply step_get; intros va; apply step_mod; [intros m; now apply ok_frame|].
    apply step_get; intros v; apply step_stash.
  - destruct (fma_handler f _) as [h|] eqn:E; [|auto with step].
    apply step_from; intros x Wx; apply step_from; intros y Wy; apply step_from; intros z Wz.
    eapply step_bind; [eapply step_ieee, fma_tot; eauto|intros d Wd].
    apply step_mod; [intros m Ok; destruct f; [apply ok_SITOREG|apply ok_DITOREG]; auto using FD_range|].
    apply (step_gets _ _ (fun r => 0 <= r < 2 ^ 32)); [intros; apply copcsr_x_range|].
    intros r Hr; now apply step_csr_update.
Qed.

Lemma step_fpux ir : Step (fpux_emu mips64 ir) (fun _ => True).
Proof.
  unfold fpux_emu; apply step_mod; [intros m; now apply ok_frame|].
  repeat case_if; auto using step_fpux_fmt, step_ret with step.
Qed.

Lemma step_memory ir :
  Step (emu_ldc1 mips64 ir) (fun _ => True) /\ Step (emu_sdc1 mips64 ir) (fun _ => True) /\
  Step (emu_lwc1 mips64 ir) (fun _ => True) /\ Step (emu_swc1 mips64 ir) (fun _ => True).
Proof.
  repeat split; apply step_get; intros va; (apply step_mod; [intros m; now apply ok_frame|]);
    try (apply step_load; intros v m Ok; auto using ok_SITOREG, ok_DITOREG, RT_range);
    apply step_get; intros v; apply step_stash.
Qed.

Lemma step_mfc ir :
  Step (emu_mfc mips64 ir) (fun _ => True) /\ Step (emu_mtc ir) (fun _ => True) /\
  (mips64 = true -> Step (emu_dmfc ir) (fun _ => True)) /\ Step (emu_dmtc ir) (fun _ => True).
Proof.
  repeat split; intros; apply step_mod_end; intros m Ok; auto using ok_SITOREG, ok_DITOREG, RD_range.
  - destruct (_ =? 0); auto using ok_set_gpr, RT_range, W_range.
  - destruct (_ =? 0); auto; apply ok_set_gpr; auto using RT_range.
    unfold W; rewrite H0; apply (ok_fpr m Ok).
Qed.

Lemma step_ctc ir : Step (emu_ctc ir) (fun _ => True).
Proof.
  unfold emu_ctc; apply step_mod.
  - intros m Ok; destruct (_ =? FPCREG_CSR); auto; apply ok_set_fcr31; auto.
    apply csr_write_range; [apply Ok|]; destruct (_ =? 0); [lia|apply wrap_range; lia].
  - apply step_get; intros b; destruct b; [auto with step|now apply step_ret].
Qed.

Lemma step_movc ir : Step (emu_movc ir) (fun _ => True).
Proof.
  unfold emu_movc; destruct (negb _); [auto with step|]; apply step_mod_end; intros m Ok.
  destruct (Bool.eqb _ _); auto; apply ok_set_gpr; auto using RD_range; apply Ok.
Qed.

(** ** Trampolines and branches *)

Lemma dsemulret_ok m : machine_ok m ->
  machine_ok (snd (do_dsemulret mips64 m)) /\ code_ok (fst (do_dsemulret mips64 m)).
Proof.
  intros Ok; unfold do_dsemulret; assert (C0 : code_ok 0) by (left; reflexivity).
  assert (F : forall m', xcp m' = xcp m -> ctx m' = ctx m -> machine_ok m') by (intros; now apply (ok_frame m)).
  cbv zeta; fold W; set (fr := wrap W _); destruct (negb _); cbn [fst snd]; auto.
  destruct (__get_user (umem m) 4 (fr + off_badinst)) as [i|]; cbn [fst snd]; auto.
  destruct (__get_user (umem m) 4 (fr + off_cookie)) as [c|]; cbn [fst snd]; auto.
  destruct (_ || _); cbn [fst snd]; auto.
  destruct (__get_user (umem m) (W / 8) (fr + off_epc mips64)) as [v|] eqn:E; cbn [fst snd]; auto.
  split; [|right; left; reflexivity]; apply ok_set_epc; auto.
  apply get_range in E; unfold W in E; rewrite (proj1 (XLEN_bytes mips64)) in E; exact E.
Qed.

Lemma dsemul_ok ir cpc m : 0 <= cpc < 2 ^ W -> machine_ok m ->
  machine_ok (snd (mips_dsemul mips64 ir cpc m)) /\ code_ok (fst (mips_dsemul mips64 ir cpc m)).
Proof.
  intros Hc Ok; unfold mips_dsemul; case_if; cbn [fst snd].
  { split; [now apply ok_set_cause, ok_set_epc|left; reflexivity]. }
  case_if; cbn [fst snd]; auto with step.
  destruct (put_err _ _ _ _) as [err u]; destruct err; cbn [fst snd].
  - split; [now apply (ok_frame m)|apply code_bus].
  - split; [|apply code_ill]; apply ok_set_epc; [|now apply (ok_frame m)].
    unfold off_emul; rewrite Z.add_0_r; apply land_range; [pose proof XLEN_32; lia|apply W_range].
Qed.

Lemma step_cfc ir : Step (emu_cfc mips64 ir) (fun _ => True).
Proof.
  unfold emu_cfc; destruct (_ =? CP1UNDEF); [apply step_returns, dsemulret_ok|].
  apply step_mod_end; intros m Ok; destruct (MIPSInst_RT ir =? 0); auto; apply ok_set_gpr; auto using RT_range.
  apply word_range; destruct (_ =? FPCREG_CSR); [apply csr_read_range, Ok|lia].
Qed.

(** The continuation of a branch is a word. *)
Definition next_ok (b : bc_next) : Prop :=
  match b with Taken _ pc => 0 <= pc < 2 ^ W | NotTaken pc => 0 <= pc < 2 ^ W end.

Lemma step_bc ir contpc : 0 <= contpc < 2 ^ W -> Step (emu_bc mips64 ir contpc) next_ok.
Proof.
  intros Hc; unfold emu_bc; apply step_get; intros bd; destruct bd; [auto with step|].
  apply step_get; intros c; apply step_mod; [intros m; apply ok_set_cause|].
  assert (Ep : forall m, machine_ok m -> machine_ok (set_epc (wrap W (cp0_epc (xcp m) + 4)) m))
    by (intros; apply ok_set_epc; auto using W_range).
  repeat case_if.
  all: try (apply step_mod; [exact Ep|]); try (apply step_ret; auto; apply W_range).
  all: apply step_get; intros epc; eapply step_bind; [apply step_fetch|intros v _; apply step_ret; apply W_range].
Qed.

Lemma set_reg31 m v : 0 <= v < 2 ^ W -> machine_ok m -> machine_ok (set_gpr 31 v m).
Proof. apply ok_set_gpr; lia. Qed.

Lemma ok_branch m epc insn t : machine_ok m -> machine_ok (set_epc (branch_target mips64 epc insn t) m).
Proof. intros; apply ok_set_epc; auto; apply W_range. Qed.

Lemma return_epc_ok dsp rddsp m : machine_ok m ->
  machine_ok (snd (__compute_return_epc mips64 dsp rddsp m)).
Proof.
  intros Ok; unfold __compute_return_epc; case_if; [now apply (ok_frame m)|].
  destruct (__get_user _ _ _) as [insn|]; [|now apply (ok_frame m)].
  assert (Ok0 : machine_ok (set_gpr 0 0 m)).
  { apply ok_set_gpr; auto; [lia|]; apply word_range; lia. }
  clear Ok; set (m0 := set_gpr 0 0 m) in *; clearbody m0.
  repeat case_if; cbn [snd]; auto using ok_branch.
  - apply ok_set_epc; [apply ok_gpr|]; apply ok_set_gpr; auto using RD_range; apply W_range.
  - apply ok_set_epc; auto; apply ok_gpr; auto.
  - unfold bcond_epc; repeat case_if; cbn [snd]; auto using ok_branch; try (apply ok_branch, set_reg31; auto; apply W_range).
    now apply (ok_frame m0).
  - apply ok_set_epc; [apply W_range|apply set_reg31; auto; apply W_range].
  - apply ok_set_epc; auto; apply W_range.
  - now apply ok_branch.
Qed.

(** ** [cop1Emulate] *)

Lemma step_done {A} (e : E mem A) pc : 0 <= pc < 2 ^ W -> Step e (fun _ => True) ->
  Step (e ;;> eret pc) (fun c => 0 <= c < 2 ^ W).
Proof. intros Hp He; eapply step_bind; [exact He|intros _ _; now apply step_ret]. Qed.

Lemma step_emul_one again ir contpc :
  0 <= contpc < 2 ^ W ->
  (forall slot pc, 0 <= pc < 2 ^ W -> Step (again slot pc) (fun c => 0 <= c < 2 ^ W)) ->
  Step (emul_one mips64 again ir contpc) (fun c => 0 <= c < 2 ^ W).
Proof.
  intros Hc Ha; unfold emul_one; apply step_mod; [intros m; now apply ok_frame|].
  destruct (step_memory ir) as (L1 & S1 & L2 & S2), (step_mfc ir) as (M1 & M2 & M3 & M4).
  repeat case_if; zbool; auto using step_done, step_cfc, step_ctc, step_fpu_emu, step_fpux, step_movc with step.
  eapply step_bind; [now apply step_bc|intros [slot pc|pc] Hn; cbn [next_ok] in Hn].
  - destruct (is_ours slot); [now apply Ha|]; apply step_returns; intros; now apply dsemul_ok.
  - now apply step_ret.
Qed.

(** Two rounds are enough for every instruction. *)
Lemma step_emul ir contpc : 0 <= contpc < 2 ^ W -> Step (emul mips64 2 ir contpc) (fun c => 0 <= c < 2 ^ W).
Proof.
  intros Hc m Ok.
  assert (E : emul mips64 2 ir contpc m =
    emul_one mips64 (fun slot pc => emul_one mips64 (fun _ _ => throw SIGILL) slot pc) ir contpc m).
  { apply emul_one_ext; intros slot pc m' Bd; exact (emul_one_bd mips64 _ _ slot pc m' Bd). }
  rewrite E; apply step_emul_one; auto; intros slot pc Hp; apply step_emul_one; auto with step.
Qed.

Lemma step_start dsp rddsp :
  Step (emu_start mips64 dsp rddsp) (fun p => 0 <= snd p < 2 ^ W).
Proof.
  unfold emu_start; apply step_get; intros epc; eapply step_bind; [apply step_fetch|intros ir _].
  apply step_mod; [intros m Ok; destruct (_ && _); auto using ok_set_cause|].
  apply step_get; intros bd; destruct bd; [|apply step_ret; apply W_range].
  apply (step_bind _ _ (fun _ => True)).
  - intros m Ok; destruct (__compute_return_epc mips64 dsp rddsp m) as [r m'] eqn:E.
    exists (inr r), m'; split; [reflexivity|split; [|exact I]].
    pose proof (return_epc_ok dsp rddsp m Ok) as O; rewrite E in O; exact O.
  - intros err _; destruct (tst err); [auto with step|].
    eapply step_bind; [apply step_fetch|intros ir' _].
    apply (step_gets _ _ (fun v => 0 <= v < 2 ^ W)); [intros m Ok; apply Ok|intros pc Hp].
    apply step_mod; [intros m Ok; apply ok_set_epc; auto using W_range|now apply step_ret].
Qed.

Lemma cop1Emulate_ok dsp rddsp m : machine_ok m ->
  exists sig m', cop1Emulate mips64 dsp rddsp m = Some (sig, m') /\ machine_ok m' /\ code_ok sig.
Proof.
  intros Ok; unfold cop1Emulate.
  assert (S : Step (p <-- emu_start mips64 dsp rddsp ;; let '(ir, contpc) := p in emul mips64 2 ir contpc)
                (fun c => 0 <= c < 2 ^ W)).
  { eapply step_bind; [apply step_start|intros [ir pc] Hp; now apply step_emul]. }
  destruct (S m Ok) as ([sig|pc] & m' & -> & Ok' & R).
  - exists sig, m'; auto.
  - eexists _, _; split; [reflexivity|split; [now apply ok_set_cause, ok_set_epc|left; reflexivity]].
Qed.

(** C9: one emulated instruction: [cop1Emulate] returns from every well-formed
    state of the task (every register of its width, in either register mode,
    with any control word), whatever the instruction and its operands; the
    state it leaves is well formed again, and the code it returns is 0, 1 (a
    delay slot was resumed), SIGILL, SIGBUS or SIGFPE. *)
Theorem cop1Emulate_safe dsp rddsp m : machine_ok m ->
  exists sig m', cop1Emulate mips64 dsp rddsp m = Some (sig, m') /\ machine_ok m' /\ code_ok sig.
Proof. exact (cop1Emulate_ok dsp rddsp m). Qed.

(** ** [fpu_emulator_cop1Handler] *)

Lemma handler_body_ok dsp rddsp m : machine_ok m ->
  exists sig m', handler_body mips64 dsp rddsp m = Some (sig, m') /\ machine_ok m' /\ code_ok sig.
Proof.
  intros Ok; unfold handler_body; destruct (get_user _ _ _) as [insn|].
  - destruct (insn =? 0).
    + eexists _, _; split; [reflexivity|split; [apply ok_set_epc; auto using W_range|left; reflexivity]].
    + destruct (cop1Emulate_ok dsp rddsp (conv_rm ieee_rm m)) as (sig & m' & -> & Ok' & C);
        [apply ok_conv_rm; auto using ieee_rm_range|].
      eexists _, _; split; [reflexivity|split; [apply ok_conv_rm; auto using mips_rm_range|exact C]].
  - eexists _, _; split; [reflexivity|split; [now apply (ok_frame m)|apply code_bus]].
Qed.

(** The pc strictly increases from one turn to the next and is bounded. *)
Lemma handler_loop_ok dsp rddsp has_fpu k : forall m, machine_ok m -> 2 ^ W - cp0_epc (xcp m) <= Z.of_nat k ->
  exists b sig m', machine_ok m' /\ code_ok sig /\
    forall fuel, (k <= fuel)%nat -> handler_loop mips64 dsp rddsp fuel has_fpu m = Some (b, sig, m').
Proof.
  induction k as [|k IH]; intros m Ok Hk; [pose proof (ok_epc m Ok); lia|].
  destruct (get_user 4 (cp0_epc (xcp m)) m) as [insn|] eqn:G.
  - destruct (handler_body_ok dsp rddsp m Ok) as (sig & m' & E & Ok' & C).
    destruct (has_fpu || negb (sig =? 0)) eqn:S; [|destruct (cp0_epc (xcp m') >? cp0_epc (xcp m)) eqn:P].
    + exists false, sig, m'; split; [|split]; auto; intros [|fuel] Hf; [lia|].
      cbn [handler_loop]; rewrite G, E, S; reflexivity.
    + pose proof (proj1 (Z.gtb_gt _ _) P); destruct (IH m' Ok' ltac:(lia)) as (b & sig' & m'' & O & C' & F).
      exists b, sig', m''; split; [|split]; auto; intros [|fuel] Hf; [lia|].
      cbn [handler_loop]; rewrite G, E, S, P; apply F; lia.
    + exists false, sig, m'; split; [|split]; auto; intros [|fuel] Hf; [lia|].
      cbn [handler_loop]; rewrite G, E, S, P; reflexivity.
  - exists true, SIGBUS, (count_error m); split; [now apply (ok_frame m)|split; [apply code_bus|]].
    intros [|fuel] Hf; [lia|]; cbn [handler_loop]; rewrite G; reflexivity.
Qed.

(** C10: [fpu_emulator_cop1Handler] terminates: the [do ... while] loop that
    emulates consecutive instructions advances the pc at every turn, so it
    takes at most as many turns as there are addresses left, and the result
    does not depend on how much more fuel it is given. *)
Theorem handler_terminates dsp rddsp has_fpu m : machine_ok m ->
  exists sig m', machine_ok m' /\ code_ok sig /\
    forall fuel, 2 ^ XLEN mips64 - cp0_epc (xcp m) <= Z.of_nat fuel ->
      fpu_emulator_cop1Handler mips64 dsp rddsp fuel has_fpu m = Some (sig, m').
Proof.
  intros Ok; set (k := Z.to_nat (2 ^ XLEN mips64 - cp0_epc (xcp m))); pose proof (ok_epc m Ok) as He.
  destruct (handler_loop_ok dsp rddsp has_fpu k m Ok) as (b & sig & m' & Ok' & C & F); [unfold k, W in *; lia|].
  exists (if b then sig else if (sig =? SIGILL) && negb (cp0_epc (xcp m') =? cp0_epc (xcp m)) then 0 else sig), m'.
  split; [exact Ok'|split].
  - destruct b; [exact C|]; destruct (_ && _); [left; reflexivity|exact C].
  - intros fuel Hf; unfold fpu_emulator_cop1Handler; rewrite F by (unfold k, W in *; lia).
    destruct b; reflexivity.
Qed.
End Safety.

Lemma demo_machine_ok mips64 w : 0 <= w < 2 ^ 32 -> machine_ok mips64 (demo w).
Proof.
  intros Hw; pose proof (demo_ok w) as F; split; auto; cbn [demo xcp gpr cp0_epc ctx fcr31].
  - apply sel_upd_range; [reflexivity|lia|apply word_range; lia|].
    apply sel_upd_range; [reflexivity|lia|apply word_range; lia|].
    intros i; unfold sel; replace (nth _ _ 0) with 0; [apply word_range; lia|].
    generalize (Z.to_nat i); intros n; do 33 (destruct n as [|n]; [reflexivity|]); destruct n; reflexivity.
  - apply word_range; lia.
Qed.

Lemma cop1Emulate_safe_witness :
  exists sig m', cop1Emulate true false 0 (demo 0) = Some (sig, m') /\ machine_ok true m' /\ code_ok sig.
Proof. apply (cop1Emulate_safe true false 0 (demo 0)); apply demo_machine_ok; lia. Defined.

Lemma handler_terminates_witness :
  exists sig m', machine_ok true m' /\ code_ok sig /\
    forall fuel, 2 ^ XLEN true - cp0_epc (xcp (demo 0)) <= Z.of_nat fuel ->
      fpu_emulator_cop1Handler true false 0 fuel false (demo 0) = Some (sig, m').
Proof. apply (handler_terminates true false 0 false (demo 0)); apply demo_machine_ok; lia. Defined.
