(* ===== verification/Linkage.v ===== *)
(** * FPU context of a task

    Models [kernel_linkage.c]: initialising a task's FPU context and saving
    it to, and restoring it from, a signal context on the user stack (in the
    [sigcontext] layouts of [asm/sigcontext.h] and the o32 layout of 64-bit
    kernels). *)

From Stdlib Require FinFun.
From S2P Require Import Prelude Rounding Ieee754 Format AddSub Mul Div FromInt ToInt Cmp Simple Special Sqrt.
From S2P Require Import Views Inst Machine ByteMem Branch Dsemul Cp1emu Cp1Props.

Definition SIGNALLING_NAN : Z := 0x7ff800007ff80000.

(** Offsets of [sc_fpregs] and [sc_fpc_csr] in a signal context. *)
Record sc_layout := mklayout { off_fpregs : Z; off_fpc_csr : Z }.
Definition sigcontext (mips64 : bool) : sc_layout :=
  if mips64 then mklayout 256 584 else mklayout 272 532.
Definition sigcontext32 : sc_layout := mklayout 272 532.

(** [for (i = 0; i < 32; i++)] and [for (i = 0; i < 32; i += 2)]. *)
Definition all_regs : list Z := map Z.of_nat (seq 0 32).
Definition even_regs : list Z := filter Z.even all_regs.

Section Linkage.
Context (mips64 : bool) {mem : Type} `{UM : UserMem mem}.
#[local] Abbreviation mach := (machine mem).

(** [first] is the static flag; returns whether the banner was printed. *)
Definition fpu_emulator_init_fpu (first : bool) (m : mach) : bool * bool * mach :=
  (first, false, set_ctx (fun _ => mkctx (repeat SIGNALLING_NAN 32) 0) m).

Definition err_code (err : bool) : Z := if err then - EFAULT else 0.

Definition save_regs (l : sc_layout) (idx : list Z) (sc : Z) (m : mach) : Z * mach :=
  let '(err, u) :=
    put_err 4 (sc + off_fpc_csr l) (fcr31 (ctx m))
      (fold_left (fun p i => put_err 8 (sc + off_fpregs l + 8 * i) (sel (fpr (ctx m)) i) p) idx
         (false, umem m)) in
  (err_code err, set_umem u m).

(** [junk] is what a faulting load leaves in its destination. *)
Definition restore_one (junk : Z -> Z) (l : sc_layout) (sc : Z) (p : bool * mach) (i : Z) : bool * mach :=
  let '(err, m) := p in
  match __get_user (umem m) 8 (sc + off_fpregs l + 8 * i) with
  | Some v => (err, set_fpr i v m)
  | None => (true, set_fpr i (junk i) m)
  end.

Definition restore_regs (junk : Z -> Z) (l : sc_layout) (idx : list Z) (sc : Z) (m : mach) : Z * mach :=
  let '(err, m) := fold_left (restore_one junk l sc) idx (false, m) in
  match __get_user (umem m) 4 (sc + off_fpc_csr l) with
  | Some v => (err_code err, set_fcr31 v m)
  | None => (err_code true, set_fcr31 (junk 32) m)
  end.

Definition fpu_emulator_save_context := save_regs (sigcontext mips64) all_regs.
Definition fpu_emulator_restore_context (junk : Z -> Z) := restore_regs junk (sigcontext mips64) all_regs.
Definition fpu_emulator_save_context32 := save_regs sigcontext32 even_regs.
Definition fpu_emulator_restore_context32 (junk : Z -> Z) := restore_regs junk sigcontext32 even_regs.

(** ** Saving *)

Lemma saved_other l sc g idx p u b :
  fold_left (fun p i => put_err 8 (sc + off_fpregs l + 8 * i) (g i) p) idx p = (false, u) ->
  exists u0, p = (false, u0) /\
    forall n, (forall i, In i idx -> sc + off_fpregs l + 8 * i + 8 <= b \/ b + n <= sc + off_fpregs l + 8 * i) ->
      __get_user u n b = __get_user u0 n b.
Proof.
  revert p; induction idx as [|i idx IH]; cbn [fold_left]; intros p E.
  - exists u; split; [exact E|reflexivity].
  - destruct (IH _ E) as (u1 & E1 & H1); apply put_err_inv in E1 as (u0 & -> & W).
    exists u0; split; [reflexivity|]; intros n D; rewrite H1 by (intros; apply D; cbn; auto).
    apply (get_put_other _ _ _ _ _ _ _ W), D; cbn; auto.
Qed.

Lemma saved_regs l sc g idx p u :
  NoDup idx -> (forall i, In i idx -> 0 <= g i < 2 ^ 64) ->
  fold_left (fun p i => put_err 8 (sc + off_fpregs l + 8 * i) (g i) p) idx p = (false, u) ->
  forall i, In i idx -> __get_user u 8 (sc + off_fpregs l + 8 * i) = Some (g i).
Proof.
  revert p; induction idx as [|j idx IH]; cbn [fold_left In]; intros p Nd R E i Hi; [contradiction|].
  inversion Nd as [|j' l' Nj Nd']; subst j' l'; destruct Hi as [<-|Hi].
  - destruct (saved_other _ _ _ _ _ _ (sc + off_fpregs l + 8 * j) E) as (u1 & E1 & H1).
    rewrite H1.
    + apply put_err_inv in E1 as (u0 & _ & W); refine (get_put _ _ _ _ _ _ W); apply R; auto.
    + intros k Hk; assert (k <> j) by congruence; lia.
  - apply (IH _ Nd' (fun k Hk => R k (or_intror Hk)) E i Hi).
Qed.

(** ** Restoring *)

Lemma restored_regs junk l sc g idx m :
  (forall i, In i idx -> 0 <= i < Z.of_nat (List.length (fpr (ctx m)))) ->
  (forall i, In i idx -> __get_user (umem m) 8 (sc + off_fpregs l + 8 * i) = Some (g i)) ->
  exists m', fold_left (restore_one junk l sc) idx (false, m) = (false, m') /\ umem m' = umem m /\
    List.length (fpr (ctx m')) = List.length (fpr (ctx m)) /\
    forall j, 0 <= j -> sel (fpr (ctx m')) j = if existsb (Z.eqb j) idx then g j else sel (fpr (ctx m)) j.
Proof.
  revert m; induction idx as [|i idx IH]; intros m R G; [exists m; auto|].
  cbn [fold_left]; unfold restore_one at 2; rewrite (G i) by (cbn; auto).
  pose proof (R i (or_introl eq_refl)) as Ri; set (m1 := set_fpr i (g i) m).
  assert (L1 : List.length (fpr (ctx m1)) = List.length (fpr (ctx m))) by apply upd_length.
  destruct (IH m1) as (m' & E & U & L & S).
  - intros k Hk; rewrite L1; apply R; cbn; auto.
  - intros k Hk; apply G; cbn; auto.
  - exists m'; split; [exact E|split; [exact U|split; [congruence|]]].
    intros j Hj; rewrite S by exact Hj; cbn [existsb]; change (fpr (ctx m1)) with (upd (fpr (ctx m)) i (g i)).
    rewrite sel_upd by auto; rewrite (Z.eqb_sym i j).
    destruct (existsb (Z.eqb j) idx); [destruct (j =? i); reflexivity|].
    destruct (Z.eqb_spec j i) as [->|]; reflexivity.
Qed.

Lemma list_ext_sel (a b : list Z) :
  List.length a = List.length b -> (forall i, 0 <= i -> sel a i = sel b i) -> a = b.
Proof.
  intros L S; apply (nth_ext a b 0 0 L); intros n _.
  specialize (S (Z.of_nat n) ltac:(lia)); unfold sel in S; rewrite Nat2Z.id in S; exact S.
Qed.

(** The registers [idx] and the control register survive a save and a
    restore; the other registers keep the value they had. *)
Lemma save_restore junk l idx sc m m1 m2 :
  NoDup idx -> (forall i, In i idx -> 0 <= i < 32) -> off_fpregs l + 256 <= off_fpc_csr l ->
  fpr_ok m -> 0 <= fcr31 (ctx m) < 2 ^ 32 -> save_regs l idx sc m = (0, m1) ->
  umem m2 = umem m1 -> List.length (fpr (ctx m2)) = 32%nat ->
  exists m3, restore_regs junk l idx sc m2 = (0, m3) /\ fcr31 (ctx m3) = fcr31 (ctx m) /\
    List.length (fpr (ctx m3)) = 32%nat /\
    forall i, 0 <= i -> sel (fpr (ctx m3)) i =
      if existsb (Z.eqb i) idx then sel (fpr (ctx m)) i else sel (fpr (ctx m2)) i.
Proof.
  intros Nd R Dj [L64 F64] W32 Sv U2 L2; unfold save_regs in Sv.
  destruct (put_err 4 _ _ _) as [[|] u] eqn:P; [discriminate|injection Sv as <-].
  apply put_err_inv in P as (u0 & P & W); cbn [umem set_umem] in U2.
  assert (G : forall i, In i idx -> __get_user (umem m2) 8 (sc + off_fpregs l + 8 * i) = Some (sel (fpr (ctx m)) i)).
  { intros i Hi; rewrite U2, (get_put_other _ _ _ _ _ _ _ W) by (specialize (R i Hi); lia).
    exact (saved_regs _ _ (fun i => sel (fpr (ctx m)) i) _ _ _ Nd (fun i _ => F64 i) P i Hi). }
  destruct (restored_regs junk l sc _ idx m2 ltac:(rewrite L2; exact R) G) as (m3 & E & U & L & S).
  unfold restore_regs; rewrite E, U, U2.
  assert (C : __get_user u 4 (sc + off_fpc_csr l) = Some (fcr31 (ctx m)))
    by (refine (get_put _ _ _ _ _ _ W); exact W32).
  rewrite C; eexists; split; [reflexivity|split; [reflexivity|split; [cbn; congruence|exact S]]].
Qed.

Lemma in_all_regs i : In i all_regs <-> 0 <= i < 32.
Proof.
  unfold all_regs; rewrite in_map_iff; split.
  - intros (n & <- & Hn); apply in_seq in Hn; lia.
  - intros Hi; exists (Z.to_nat i); split; [lia|apply in_seq; lia].
Qed.

Lemma in_even_regs i : In i even_regs <-> 0 <= i < 32 /\ Z.even i = true.
Proof. unfold even_regs; rewrite filter_In, in_all_regs; reflexivity. Qed.

Lemma nodup_regs : NoDup all_regs /\ NoDup even_regs.
Proof.
  assert (A : NoDup all_regs).
  { unfold all_regs; apply Finite.Injective_map_NoDup; [intros a b; apply Nat2Z.inj|apply seq_NoDup]. }
  split; [exact A|unfold even_regs; apply NoDup_filter; exact A].
Qed.

Lemma existsb_In i l : existsb (Z.eqb i) l = true <-> In i l.
Proof.
  rewrite existsb_exists; split; [intros (j & Hj & E); apply Z.eqb_eq in E; congruence|].
  intros Hi; exists i; split; [exact Hi|apply Z.eqb_refl].
Qed.

Lemma existsb_all i : 0 <= i < 32 -> existsb (Z.eqb i) all_regs = true.
Proof. intros Hi; apply existsb_In, in_all_regs; exact Hi. Qed.

Lemma existsb_even i : 0 <= i < 32 -> existsb (Z.eqb i) even_regs = Z.even i.
Proof. intros Hi; apply eq_true_iff_eq; rewrite existsb_In, in_even_regs; tauto. Qed.

(** a context saved without error by [fpu_emulator_save_context] and
    restored by [fpu_emulator_restore_context] is the same context, whatever
    the task's FPU state in between; the o32 pair saves and restores the even
    registers, which hold all of an o32 task's state, and the control
    register. *)
Theorem context_roundtrip junk sc m m1 m2 :
  fpr_ok m -> 0 <= fcr31 (ctx m) < 2 ^ 32 -> List.length (fpr (ctx m2)) = 32%nat -> umem m2 = umem m1 ->
  (fpu_emulator_save_context sc m = (0, m1) ->
   exists m3, fpu_emulator_restore_context junk sc m2 = (0, m3) /\ ctx m3 = ctx m) /\
  (fpu_emulator_save_context32 sc m = (0, m1) ->
   exists m3, fpu_emulator_restore_context32 junk sc m2 = (0, m3) /\ fcr31 (ctx m3) = fcr31 (ctx m) /\
     forall i, 0 <= i < 32 -> sel (fpr (ctx m3)) i = sel (fpr (ctx (if Z.even i then m else m2))) i).
Proof.
  intros Ok W L2 U; destruct nodup_regs as [Na Ne].
  assert (Ra : forall i, In i all_regs -> 0 <= i < 32) by (intros i; apply (proj1 (in_all_regs i))).
  assert (Re : forall i, In i even_regs -> 0 <= i < 32) 
    by (intros i Hi; exact (proj1 (proj1 (in_even_regs i) Hi))).
  unfold fpu_emulator_save_context, fpu_emulator_restore_context, fpu_emulator_save_context32,
    fpu_emulator_restore_context32; split; intros Sv.
  - destruct (save_restore junk (sigcontext mips64) _ sc m m1 m2 Na Ra ltac:(destruct mips64; cbn; lia) Ok W Sv U L2)
      as (m3 & E & F & L & S).
    exists m3; split; [exact E|]; pose proof (proj1 Ok) as Lm.
    assert (fpr (ctx m3) = fpr (ctx m)) as Fe.
    { apply list_ext_sel; [congruence|]; intros i Hi; rewrite S by exact Hi.
      destruct (Z.lt_ge_cases i 32) as [H|H]; [rewrite existsb_all by lia; reflexivity|].
      unfold sel; rewrite (nth_overflow (fpr (ctx m))), (nth_overflow (fpr (ctx m2))) by lia.
      destruct (existsb _ _); reflexivity. }
    destruct (ctx m3), (ctx m); cbn in *; congruence.
  - destruct (save_restore junk sigcontext32 _ sc m m1 m2 Ne Re ltac:(cbn; lia) Ok W Sv U L2)
      as (m3 & E & F & _ & S).
    exists m3; split; [exact E|split; [exact F|]]; intros i Hi; rewrite S, existsb_even by lia.
    destruct (Z.even i); reflexivity.
Qed.

(** After [fpu_emulator_init_fpu] every register reads as a signalling
    NaN, as a single and as a double, and the control register is reset. *)
Theorem init_fpu_signalling first m x :
  0 <= x < 32 ->
  let m' := snd (fpu_emulator_init_fpu first m) in
  ieee754_class SP (SPFROMREG m' x) = SNAN /\ ieee754_class DP (DPFROMREG m' x) = SNAN /\ fcr31 (ctx m') = 0.
Proof.
  intros Hx m'.
  assert (S : forall i, 0 <= i < 32 -> sel (fpr (ctx m')) i = SIGNALLING_NAN).
  { intros i Hi; unfold sel; cbn [m' snd fpu_emulator_init_fpu set_ctx ctx fpr].
    apply nth_repeat_lt; lia. }
  assert (He : 0 <= even_index x < 32).
  { unfold even_index; change (Z.lnot 1) with (Z.lnot (Z.ones 1)); rewrite <- Z.ldiff_land, Z.ldiff_ones_r, Z.shiftl_mul_pow2, shiftr_div by lia.
    change (2 ^ 1) with 2; Z.div_mod_to_equations; lia. }
  unfold SPFROMREG, SIFROMREG, DPFROMREG, DIFROMREG, fpr_index; fold (even_index x).
  rewrite !S by (destruct (fr_bit m'); lia).
  split; [destruct (fr_bit m' || _); reflexivity|split; reflexivity].
Qed.
End Linkage.

Lemma context_roundtrip_witness :
  exists m1 m3, fpu_emulator_save_context false 0x400 (demo 0x84) = (0, m1) /\
    fpu_emulator_restore_context false (fun _ => 0) 0x400 m1 = (0, m3) /\ ctx m3 = ctx (demo 0x84).
Proof.
  destruct (fpu_emulator_save_context false 0x400 (demo 0x84)) as [e m1] eqn:E.
  assert (e = 0) as -> by (vm_compute in E; injection E as <- _; reflexivity).
  assert (L : List.length (fpr (ctx m1)) = 32%nat) by (vm_compute in E; injection E as <-; reflexivity).
  destruct (context_roundtrip false (fun _ => 0) 0x400 (demo 0x84) m1 m1 (demo_ok _)) as [R _];
    [closed|exact L|reflexivity|].
  destruct (R E) as (m3 & E3 & C); exists m1, m3; auto.
Defined.

Lemma init_fpu_signalling_witness :
  ieee754_class SP (SPFROMREG (snd (fpu_emulator_init_fpu true (demo 0))) 7) = SNAN.
Proof. apply (init_fpu_signalling true (demo 0) 7); lia. Defined.
