(* ===== verification/Observations.v ===== *)
(** * Observations on the emulator

    Corner cases in which the emulator does something other than the
    comments or the architecture suggest, each as a theorem about the model. *)

From S2P Require Import Prelude Rounding Ieee754 Inst Machine ByteMem Branch Dsemul Cp1emu.

Section Observations.
Context (mips64 : bool) {mem : Type} `{UM : UserMem mem}.
Implicit Types m : machine mem.

(** The [case 0x7] of [fpux_emu] that should ignore prefetches is never
    reached, because the format field it switches on has two bits: a prefetch
    is refused with [SIGILL]. *)
Theorem prefetch_refused ir m :
  MIPSInst_FUNC ir = pfetch_op -> fpux_emu mips64 ir m = Some (inl SIGILL, count_cp1xop m).
Proof.
  intros F; unfold fpux_emu, ebind, emod.
  assert (MIPSInst_FMA_FFMT ir = 3) as ->; [|reflexivity].
  unfold MIPSInst_FMA_FFMT, MIPSInst_FUNC in *.
  replace (Z.land ir 3) with (Z.land (Z.land ir 0x3f) 3) by (rewrite <- Z.land_assoc; reflexivity).
  rewrite F; reflexivity.
Qed.

Lemma emul_one_cp1undef a contpc m :
  emul_one mips64 a CP1UNDEF contpc m =
    (let '(sig, m') := do_dsemulret mips64 (count_emulated m) in Some (inl sig, m')).
Proof.
  destruct mips64; cbn [emul_one ebind emod]; unfold emul_one, ebind, emod, returns;
    change (MIPSInst_OPCODE CP1UNDEF) with cop1_op; change (MIPSInst_RS CP1UNDEF) with cfc_op;
    cbn [andb Z.eqb Pos.eqb cop1_op ldc1_op sdc1_op lwc1_op swc1_op cfc_op dmfc_op dmtc_op mfc_op mtc_op];
    unfold emu_cfc, returns; rewrite Z.eqb_refl; destruct (do_dsemulret _ _); reflexivity.
Qed.

(** The undefined instruction [CP1UNDEF], executed outside a branch delay
    slot, is handed to [do_dsemulret], which compares the instruction at
    [cp0_epc] with [BADINST]; since [BADINST] is another instruction,
    [cop1Emulate] reports success without having advanced. *)
Theorem cp1undef_does_not_advance has_dsp dsp m :
  let epc := cp0_epc (xcp m) in
  4 <= epc < 2 ^ XLEN mips64 -> cp0_cause (xcp m) = 0 -> get_user 4 epc m = Some CP1UNDEF ->
  exists m', cop1Emulate mips64 has_dsp dsp m = Some (0, m') /\ cp0_epc (xcp m') = epc.
Proof.
  intros epc He Hc Hg; unfold cop1Emulate, emu_start.
  assert (Fe : fetch 4 epc m = Some (inr CP1UNDEF, m)) by (unfold fetch; rewrite Hg; reflexivity).
  unfold ebind at 1 2, egets at 1; fold epc; unfold ebind at 1; rewrite Fe.
  unfold ebind, emod, egets; rewrite Hc; cbn [Z.land tst Z.eqb negb andb]; rewrite Hc.
  cbn [Z.land tst Z.eqb negb]; unfold eret.
  change (emul mips64 2 CP1UNDEF) with (emul_one mips64 (emul mips64 1) CP1UNDEF).
  rewrite emul_one_cp1undef.
  set (m1 := count_emulated m); unfold do_dsemulret.
  assert (Ew : wrap (XLEN mips64) (cp0_epc (xcp m1) - 4) + off_badinst = epc).
  { change (cp0_epc (xcp m1)) with epc; unfold off_badinst, wrap; rewrite Z.mod_small; lia. }
  rewrite Ew; change (umem m1) with (umem m); unfold get_user in Hg.
  destruct (access_ok (umem m) epc 4); [rewrite Hg|discriminate].
  destruct mips64; destruct (access_ok (umem m) _ _); destruct (__get_user (umem m) 4 (_ + off_cookie));
    eexists; (split; [reflexivity|reflexivity]).
Qed.
End Observations.

(** [madd.s f6, f2, f2, f2] with the inexact trap enabled returns [SIGFPE],
    but has already replaced [f6]: unlike [fpu_emu], [fpux_emu] writes the
    result before it tests for enabled exceptions. *)
Theorem madd_trap_clobbers :
  let m := set_fpr 2 0x3f800001 (demo 0x80) in
  let ir := cop1x_op * 2 ^ 26 + 2 * 2 ^ 21 + 2 * 2 ^ 16 + 2 * 2 ^ 11 + 6 * 2 ^ 6 + madd_s_op in
  match fpux_emu false ir m with
  | Some (inl sig, m') => sig = SIGFPE /\ sel (fpr (ctx m)) 6 = 0 /\ sel (fpr (ctx m')) 6 = 0x40000002
  | _ => False
  end.
Proof. vm_compute; repeat split. Qed.

(** [movf r0, r29] replaces the hard-wired zero register of the saved frame. *)
Theorem movc_writes_zero_register :
  let ir := 29 * 2 ^ 21 + movc_op in
  match emu_movc ir (demo 0) with
  | Some (inr tt, m') => sel (gpr (xcp m')) 0 = 0x800
  | _ => False
  end.
Proof. vm_compute; reflexivity. Qed.

(** With 32 full registers (FR set), writing a single to an odd register
    gives it the upper half of the even register below it. *)
Theorem single_write_mixes_registers :
  let m := set_xcp (fun r => mkregs (gpr r) 0 0 ST0_FR 0) (demo 0) in
  let m := set_fpr 2 0x1111111122222222 (set_fpr 3 0x3333333344444444 m) in
  sel (fpr (ctx (SITOREG 5 3 m))) 3 = 0x1111111100000005.
Proof. vm_compute; reflexivity. Qed.
