(* ===== verification/Sort.v ===== *)
(** * Heapsort

    Models [lib/sort.c].  The array is a list of elements of [size] bytes.  The
    counters of the code are byte offsets in variables of type [int], while
    [num] and [size] have type [size_t]; [sort] below computes them at these
    widths, and an access that is not at an element of the array is an error.
    [ref_sort] is the same algorithm on the positions of the elements, without
    a bound; it is shown to sort, and [sort] to agree with it on arrays of less
    than [2^31] bytes.  [cmp] is the caller's comparison function.
    [generic_swap] and [u32_swap] are modelled on the bytes of the array. *)

From Stdlib Require Import Permutation Sorted.
From S2P Require Import Prelude.

(** ** The algorithm on positions *)

(** Exchange of the elements at two places: what [swap] is for. *)
Fixpoint put {A} (l : list A) (i : nat) (v : A) : list A :=
  match l, i with
  | [], _ => []
  | _ :: t, O => v :: t
  | a :: t, S i => a :: put t i v
  end.

Section Sort.
Context {A : Type} (d : A) (cmp : A -> A -> Z).
Implicit Types l : list A.

Definition at_ (l : list A) (i : nat) : A := nth i l d.
Definition swap (l : list A) (i j : nat) : list A := put (put l i (at_ l j)) j (at_ l i).

(** The child to compare with: the larger of the two when there are two. *)
Definition ref_pick (n r : nat) (l : list A) : nat :=
  let c := (r * 2 + 1)%nat in
  if (c <? n - 1)%nat && (cmp (at_ l c) (at_ l (c + 1)) <? 0) then (c + 1)%nat else c.

(** The inner [for] loop of both phases; [n] is its bound. *)
Fixpoint ref_sift (fuel n r : nat) (l : list A) : option (list A) :=
  if (r * 2 + 1 <? n)%nat then
    let c := ref_pick n r l in
    if cmp (at_ l r) (at_ l c) >=? 0 then Some l
    else match fuel with O => None | S fuel => ref_sift fuel n c (swap l r c) end
  else Some l.

(** [for ( ; i >= 0; i -= size)]: [k] is [i + 1]. *)
Fixpoint ref_heapify (k n : nat) (l : list A) : option (list A) :=
  match k with
  | O => Some l
  | S i => match ref_sift n n i l with Some l => ref_heapify i n l | None => None end
  end.

(** [for (i = n - size; i >= 0; i -= size)]: [k] is [i + 1]. *)
Fixpoint ref_drain (k : nat) (l : list A) : option (list A) :=
  match k with
  | O => Some l
  | S i => match ref_sift i i 0 (swap l 0 i) with Some l => ref_drain i l | None => None end
  end.

Definition ref_sort (l : list A) : option (list A) :=
  let num := List.length l in
  match ref_heapify (num / 2) num l with Some l => ref_drain num l | None => None end.

(** ** The code *)

(** [BITS] is the width of [size_t]. *)
Context (BITS size : Z).
Definition size_t (x : Z) : Z := wrap BITS x.
Definition int (x : Z) : Z := swrap 32 x.

(** The element at [base + x]. *)
Definition elt (l : list A) (x : Z) : option nat :=
  if (0 <=? x) && (x mod size =? 0) && (x / size <? Z.of_nat (List.length l)) then Some (Z.to_nat (x / size)) else None.
(** [cmp(base + x, base + y)] and [swap(base + x, base + y, size)] *)
Definition compare (l : list A) (x y : Z) : option Z :=
  match elt l x, elt l y with Some i, Some j => Some (cmp (at_ l i) (at_ l j)) | _, _ => None end.
Definition exchange (l : list A) (x y : Z) : option (list A) :=
  match elt l x, elt l y with Some i, Some j => Some (swap l i j) | _, _ => None end.

(** The child to compare with; [n] is the bound of the loop. *)
Definition pick (n r : Z) (l : list A) : option Z :=
  let c := int (size_t (int (r * 2) + size)) in
  if size_t c <? size_t (n - size) then
    match compare l c (c + size) with
    | Some v => Some (if v <? 0 then int (size_t (c + size)) else c)
    | None => None
    end
  else Some c.

(** The inner [for] loop of both phases. *)
Fixpoint sift (fuel : nat) (n r : Z) (l : list A) : option (list A) :=
  if size_t (int (r * 2) + size) <? size_t n then
    match pick n r l with
    | None => None
    | Some c =>
        match compare l r c with
        | None => None
        | Some v =>
            if v >=? 0 then Some l
            else match fuel, exchange l r c with S fuel, Some l => sift fuel n c l | _, _ => None end
        end
    end
  else Some l.

(** [for ( ; i >= 0; i -= size)] *)
Fixpoint heapify (fuel : nat) (n i : Z) (l : list A) : option (list A) :=
  if i >=? 0 then
    match fuel, sift (List.length l) n i l with
    | S fuel, Some l => heapify fuel n (int (size_t (i - size))) l
    | _, _ => None
    end
  else Some l.

(** [for (i = n - size; i >= 0; i -= size)] *)
Fixpoint drain (fuel : nat) (i : Z) (l : list A) : option (list A) :=
  if i >=? 0 then
    match fuel, exchange l 0 i with
    | S fuel, Some l =>
        match sift (List.length l) i 0 l with
        | Some l => drain fuel (int (size_t (i - size))) l
        | None => None
        end
    | _, _ => None
    end
  else Some l.

Definition sort (l : list A) : option (list A) :=
  let num := Z.of_nat (List.length l) in
  let i := int (size_t ((num / 2 - 1) * size)) in
  let n := int (size_t (num * size)) in
  match heapify (List.length l) n i l with
  | Some l => drain (List.length l) (int (size_t (n - size))) l
  | None => None
  end.

(** ** Arrays *)

Lemma put_length l i v : List.length (put l i v) = List.length l.
Proof. revert i; induction l; intros [|i]; cbn; auto. Qed.

Lemma at_put l i j v : (i < List.length l)%nat -> at_ (put l i v) j = if (i =? j)%nat then v else at_ l j.
Proof.
  unfold at_; revert i j; induction l as [|a l IH]; [cbn; lia|].
  intros [|i] [|j] Hi; cbn in *; auto; apply IH; lia.
Qed.

Lemma swap_length l i j : List.length (swap l i j) = List.length l.
Proof. unfold swap; now rewrite !put_length. Qed.

Lemma sift_length n : forall f r l l', ref_sift f n r l = Some l' -> List.length l' = List.length l.
Proof.
  induction f as [|f IH]; intros r l l'; cbn [ref_sift]; destruct (_ <? _)%nat; try (destruct (_ >=? 0)); try congruence.
  intros ->%IH; apply swap_length.
Qed.
Lemma heapify_length n k : forall l l', ref_heapify k n l = Some l' -> List.length l' = List.length l.
Proof.
  induction k as [|i IH]; intros l l'; cbn [ref_heapify]; [congruence|].
  destruct (ref_sift _ _ _ _) as [l1|] eqn:E; [|discriminate]; intros ->%IH; exact (sift_length _ _ _ _ _ E).
Qed.

Lemma at_swap l i j k : (i < List.length l)%nat -> (j < List.length l)%nat ->
  at_ (swap l i j) k = if (j =? k)%nat then at_ l i else if (i =? k)%nat then at_ l j else at_ l k.
Proof. intros; unfold swap; rewrite !at_put by (rewrite ?put_length; auto); reflexivity. Qed.

Lemma put_self l i : put l i (at_ l i) = l.
Proof. unfold at_; revert i; induction l as [|a l IH]; intros [|i]; cbn; f_equal; auto. Qed.

(** Replacing one element trades it for the new one. *)
Lemma put_perm l i v : (i < List.length l)%nat -> Permutation (v :: l) (at_ l i :: put l i v).
Proof.
  unfold at_; revert i; induction l as [|a l IH]; [cbn; lia|]; intros [|i] Hi; cbn in *; [apply perm_swap|].
  rewrite perm_swap, (IH i) by lia; apply perm_swap.
Qed.

Lemma swap_perm l i j : (i < List.length l)%nat -> (j < List.length l)%nat -> Permutation l (swap l i j).
Proof.
  intros Hi Hj; unfold swap; set (x := at_ l i); set (y := at_ l j).
  assert (P1 : Permutation (y :: l) (x :: put l i y)) by (apply put_perm; auto).
  assert (P2 : Permutation (x :: put l i y) (at_ (put l i y) j :: put (put l i y) j x))
    by (apply put_perm; rewrite put_length; auto).
  rewrite at_put in P2 by auto; destruct (Nat.eqb_spec i j) as [->|N].
  - apply (Permutation_cons_inv (a := y)); rewrite P1; exact P2.
  - apply (Permutation_cons_inv (a := y)); rewrite P1; exact P2.
Qed.

(** ** Heaps *)

Hypothesis cmp_total : forall x y, 0 <= cmp x y -> cmp y x <= 0.
Hypothesis cmp_trans : forall x y z, cmp x y <= 0 -> cmp y z <= 0 -> cmp x z <= 0.

Definition le (x y : A) : Prop := cmp x y <= 0.

Lemma le_refl x : le x x.
Proof. unfold le; destruct (Z.le_gt_cases 0 (cmp x x)) as [H|]; [apply cmp_total, H|lia]. Qed.

Definition child (p c : nat) : Prop := c = (p * 2 + 1)%nat \/ c = (p * 2 + 2)%nat.

(** Parents from [k] on dominate their children below [n]. *)
Definition heap (k n : nat) (l : list A) : Prop :=
  forall p c, (k <= p)%nat -> child p c -> (c < n)%nat -> le (at_ l c) (at_ l p).

(** The same except at [r], whose children are dominated by its parent. *)
Definition heap_except (k n r : nat) (l : list A) : Prop :=
  (forall p c, (k <= p)%nat -> p <> r -> child p c -> (c < n)%nat -> le (at_ l c) (at_ l p)) /\
  (forall q c, (k <= q)%nat -> child q r -> child r c -> (c < n)%nat -> le (at_ l c) (at_ l q)).

Lemma pick_spec n r l : (r * 2 + 1 < n)%nat ->
  child r (ref_pick n r l) /\ (ref_pick n r l < n)%nat /\
  forall c, child r c -> (c < n)%nat -> le (at_ l c) (at_ l (ref_pick n r l)).
Proof.
  intros Hr; unfold ref_pick, child; set (c := (r * 2 + 1)%nat).
  destruct (Nat.ltb_spec c (n - 1)); cbn [andb].
  - destruct (Z.ltb_spec (cmp (at_ l c) (at_ l (c + 1))) 0) as [L|L].
    + split; [lia|split; [lia|]]; intros x [->| ->] Hx; [unfold le; fold c; lia|].
      replace (r * 2 + 2)%nat with (c + 1)%nat by lia; apply le_refl.
    + split; [lia|split; [lia|]]; intros x [->| ->] Hx; [apply le_refl|].
      replace (r * 2 + 2)%nat with (c + 1)%nat by lia; apply cmp_total, L.
  - split; [lia|split; [lia|]]; intros x [->| ->] Hx; [apply le_refl|lia].
Qed.

(** What a sift leaves alone: the multiset, the tail, and every property the
    first [n] elements share. *)
Definition shuffled (n : nat) (l l' : list A) : Prop :=
  Permutation l l' /\ (forall j, (n <= j)%nat -> at_ l' j = at_ l j) /\
  (forall P : A -> Prop, (forall j, (j < n)%nat -> P (at_ l j)) -> forall j, (j < n)%nat -> P (at_ l' j)).

Lemma shuffled_refl n l : shuffled n l l.
Proof. repeat split; auto. Qed.

Lemma shuffled_trans n l1 l2 l3 : shuffled n l1 l2 -> shuffled n l2 l3 -> shuffled n l1 l3.
Proof.
  intros (P1 & T1 & Q1) (P2 & T2 & Q2); split; [now rewrite P1|split].
  - intros j Hj; rewrite T2, T1 by auto; reflexivity.
  - intros P H; exact (Q2 P (Q1 P H)).
Qed.

Lemma shuffled_swap n l i j : (n <= List.length l)%nat -> (i < n)%nat -> (j < n)%nat -> shuffled n l (swap l i j).
Proof.
  intros Hn Hi Hj; split; [apply swap_perm; lia|split].
  - intros k Hk; rewrite at_swap by lia.
    destruct (Nat.eqb_spec j k); [lia|destruct (Nat.eqb_spec i k); [lia|reflexivity]].
  - intros P H k Hk; rewrite at_swap by lia; destruct (_ =? _)%nat; [auto|destruct (_ =? _)%nat; auto].
Qed.

Lemma swap_heap_except k n r l : (n <= List.length l)%nat -> (k <= r)%nat -> (r * 2 + 1 < n)%nat ->
  let c := ref_pick n r l in
  heap_except k n r l -> cmp (at_ l r) (at_ l c) < 0 -> heap_except k n c (swap l r c).
Proof.
  intros Hn Hk Hr c [H1 H2] Lt; destruct (pick_spec n r l Hr) as (Ch & Hc & Mx); fold c in Ch, Hc, Mx.
  assert (Ne : (r < c)%nat) by (unfold child in Ch; lia).
  split.
  - intros p x Hp Np Cp Hx; rewrite !at_swap by lia.
    destruct (Nat.eqb_spec c p); [lia|]; destruct (Nat.eqb_spec r p) as [<-|Nr].
    + destruct (Nat.eqb_spec c x) as [<-|]; [unfold le; lia|].
      destruct (Nat.eqb_spec r x); [unfold child in Cp; lia|now apply Mx].
    + destruct (Nat.eqb_spec c x) as [<-|]; [unfold child in *; lia|].
      destruct (Nat.eqb_spec r x) as [<-|]; [apply H2; auto|apply H1; auto].
  - intros q x Hq Cq Cx Hx; assert (q = r) as -> by (unfold child in *; lia).
    rewrite !at_swap by lia; rewrite Nat.eqb_refl.
    destruct (Nat.eqb_spec c r); [lia|]; destruct (Nat.eqb_spec c x); [unfold child in *; lia|].
    destruct (Nat.eqb_spec r x); [unfold child in *; lia|apply H1; auto; lia].
Qed.

(** A leaf is no exception. *)
Lemma heap_leaf k n r l : (n <= r * 2 + 1)%nat -> heap_except k n r l -> heap k n l.
Proof.
  intros Hr [H1 _] p c Hp Cp Hc; apply H1; auto; intros ->; unfold child in Cp; lia.
Qed.

(** A sift from [r] terminates within [n - r] turns and restores the heap. *)
Lemma sift_spec k n : forall fuel r l,
  (n <= List.length l)%nat -> (k <= r)%nat -> (n <= fuel + r)%nat -> heap_except k n r l ->
  exists l', ref_sift fuel n r l = Some l' /\ heap k n l' /\ shuffled n l l'.
Proof.
  induction fuel as [|fuel IH]; intros r l Hn Hk Hf He; cbn [ref_sift];
    destruct (Nat.ltb_spec (r * 2 + 1) n) as [Hr|Hr]; try lia;
    try (exists l; split; [reflexivity|split; [now apply (heap_leaf k n r)|apply shuffled_refl]]).
  cbv zeta; set (c := ref_pick n r l); destruct (pick_spec n r l Hr) as (Ch & Hc & Mx); fold c in Ch, Hc, Mx.
  destruct (Z.geb_spec (cmp (at_ l r) (at_ l c)) 0) as [Ge|Lt].
  - exists l; split; [reflexivity|split; [|apply shuffled_refl]].
    intros p x Hp Cp Hx; destruct (Nat.eq_dec p r) as [->|]; [|now apply (proj1 He)].
    apply (cmp_trans _ (at_ l c)); [now apply Mx|apply cmp_total, Ge].
  - assert (r < c)%nat by (unfold child in Ch; lia).
    destruct (IH c (swap l r c)) as (l' & E & H' & S'); [rewrite swap_length; lia|lia|lia| |].
    + now apply swap_heap_except.
    + exists l'; split; [exact E|split; [exact H'|]]; eapply shuffled_trans; [apply shuffled_swap|exact S']; lia.
Qed.

(** ** The two phases *)

Lemma heapify_spec n k : forall l, List.length l = n -> (k <= n)%nat -> heap k n l ->
  exists l', ref_heapify k n l = Some l' /\ heap 0 n l' /\ Permutation l l'.
Proof.
  induction k as [|i IH]; intros l Hl Hk Hh; cbn [ref_heapify]; [exists l; auto|].
  destruct (sift_spec i n n i l) as (l1 & -> & H1 & P1 & _); [lia|lia|lia| |].
  - split; [intros p c Hp Np Cp Hc; apply Hh; auto; lia|].
    intros q c Hq Cq; unfold child in Cq; lia.
  - destruct (IH l1) as (l' & E & H' & P'); [now rewrite <- (Permutation_length P1)|lia|exact H1|].
    exists l'; split; [exact E|split; [exact H'|now rewrite P1]].
Qed.

(** The root of a heap is its maximum. *)
Lemma heap_root n l : heap 0 n l -> forall j, (j < n)%nat -> le (at_ l j) (at_ l 0).
Proof.
  intros H j; induction j as [j IH] using lt_wf_ind; intros Hj.
  destruct (Nat.eq_dec j 0) as [->|Nz]; [apply le_refl|].
  set (p := ((j - 1) / 2)%nat); assert (Cp : child p j /\ (p < j)%nat).
  { unfold child, p; pose proof (Nat.div_mod (j - 1) 2 ltac:(lia)); pose proof (Nat.mod_upper_bound (j - 1) 2 ltac:(lia)); lia. }
  apply (cmp_trans _ (at_ l p)); [apply H; [lia|apply Cp|auto]|apply IH; lia].
Qed.

(** From [i] on the array is sorted, and nothing before [i] is larger. *)
Definition sorted_from (i : nat) (l : list A) : Prop :=
  forall x y, (x <= y)%nat -> (i <= y)%nat -> (y < List.length l)%nat -> le (at_ l x) (at_ l y).

Lemma drain_step i l l' : (i < List.length l)%nat -> heap 0 (S i) l -> sorted_from (S i) l ->
  shuffled i (swap l 0 i) l' -> sorted_from i l'.
Proof.
  intros Hi Hh Hs (P & T & Q) x y Hxy Hy Hlen.
  assert (Len : List.length l' = List.length l) by (rewrite <- (Permutation_length P); apply swap_length).
  rewrite Len in Hlen.
  assert (Top : at_ l' i = at_ l 0) by (rewrite T, at_swap, Nat.eqb_refl by lia; reflexivity).
  assert (Low : forall j, (j < i)%nat -> exists k, (k < S i)%nat /\ at_ l' j = at_ l k).
  { apply (Q (fun v => exists k, (k < S i)%nat /\ v = at_ l k)); intros j Hj; rewrite at_swap by lia.
    destruct (Nat.eqb_spec i j); [lia|]; destruct (Nat.eqb_spec 0 j); [exists i|exists j]; auto; lia. }
  assert (Above : forall j, (S i <= j)%nat -> at_ l' j = at_ l j).
  { intros j Hj; rewrite T, at_swap by lia.
    destruct (Nat.eqb_spec i j); [lia|destruct (Nat.eqb_spec 0 j); [lia|reflexivity]]. }
  assert (Below : forall j, (j <= i)%nat -> exists k, (k < S i)%nat /\ at_ l' j = at_ l k).
  { intros j Hj; destruct (Nat.eq_dec j i) as [->|]; [exists 0%nat; split; [lia|exact Top]|apply Low; lia]. }
  destruct (Nat.eq_dec y i) as [->|Ny].
  - rewrite Top; destruct (Below x Hxy) as (k & Hk & ->); now apply (heap_root (S i)).
  - rewrite (Above y) by lia; destruct (Nat.le_gt_cases x i) as [Hx|Hx].
    + destruct (Below x Hx) as (k & Hk & ->); apply Hs; lia.
    + rewrite Above by lia; apply Hs; lia.
Qed.

Lemma drain_spec k : forall l, (k <= List.length l)%nat -> heap 0 k l -> sorted_from k l ->
  exists l', ref_drain k l = Some l' /\ sorted_from 0 l' /\ Permutation l l'.
Proof.
  induction k as [|i IH]; intros l Hk Hh Hs; cbn [ref_drain]; [exists l; auto|].
  destruct (sift_spec 0 i i 0 (swap l 0 i)) as (l1 & -> & H1 & S1);
    [rewrite swap_length; lia|lia|lia| |].
  - split; [|intros q c _ Cq; unfold child in Cq; lia].
    intros p c _ Np Cp Hc; rewrite !at_swap by lia.
    destruct (Nat.eqb_spec i c), (Nat.eqb_spec i p), (Nat.eqb_spec 0 c), (Nat.eqb_spec 0 p);
      try (unfold child in Cp; lia); apply Hh; auto; lia.
  - assert (Ps : Permutation l (swap l 0 i)) by (apply swap_perm; lia).
    destruct (IH l1) as (l' & E & H' & P');
      [rewrite <- (Permutation_length (proj1 S1)), swap_length; lia|exact H1|now apply (drain_step i l)|].
    exists l'; split; [exact E|split; [exact H'|]]; rewrite Ps, (proj1 S1); exact P'.
Qed.

Lemma sorted_from_0 l : sorted_from 0 l -> StronglySorted le l.
Proof.
  induction l as [|a l IH]; intros H; constructor.
  - apply IH; intros x y Hxy _ Hy; apply (H (S x) (S y)); cbn; lia.
  - apply Forall_forall; intros v Hv; apply (In_nth _ _ d) in Hv; destruct Hv as (j & Hj & <-).
    apply (H 0%nat (S j)); cbn; lia.
Qed.

Lemma ref_sort_spec l : exists l', ref_sort l = Some l' /\ Permutation l l' /\ StronglySorted le l'.
Proof.
  unfold ref_sort; set (n := List.length l).
  destruct (heapify_spec n (n / 2) l) as (l1 & -> & H1 & P1); [reflexivity| | |].
  - pose proof (Nat.div_mod n 2 ltac:(lia)); lia.
  - intros p c Hp Cp Hc; unfold child in Cp.
    pose proof (Nat.div_mod n 2 ltac:(lia)); pose proof (Nat.mod_upper_bound n 2 ltac:(lia)); lia.
  - assert (L1 : List.length l1 = n) by (now rewrite <- (Permutation_length P1)).
    destruct (drain_spec n l1) as (l' & -> & S' & P'); [lia|exact H1|intros x y ? ? ?; lia|].
    exists l'; split; [reflexivity|split; [now rewrite P1|now apply sorted_from_0]].
Qed.

(** ** The byte offsets *)

Hypothesis HBITS : BITS = 32 \/ BITS = 64.
Hypothesis Hsize : 0 < size < 2 ^ 31.

Lemma int_size_t x : - 2 ^ 31 <= x < 2 ^ 31 -> int (size_t x) = x.
Proof.
  intros Hx; unfold int, size_t, swrap, wrap; replace ((x mod 2 ^ BITS) mod 2 ^ 32) with (x mod 2 ^ 32).
  - case_if; divmod.
  - destruct HBITS as [-> | ->]; [now rewrite Z.mod_mod by lia|].
    symmetry; apply Z.mod_mod_divide; exists (2 ^ 32); reflexivity.
Qed.

Lemma int_small x : 0 <= x < 2 ^ 31 -> int x = x.
Proof. intros; unfold int, swrap; case_if; divmod. Qed.

Lemma size_t_small x : 0 <= x < 2 ^ 32 -> size_t x = x.
Proof. intros; apply wrap_small; destruct HBITS as [-> | ->]; lia. Qed.

Lemma elt_at l i : (i < List.length l)%nat -> elt l (size * Z.of_nat i) = Some i.
Proof.
  intros Hi; unfold elt; rewrite (Z.mul_comm size), Z.mod_mul, Z.div_mul by lia.
  rewrite (proj2 (Z.leb_le _ _)), (proj2 (Z.ltb_lt _ _)), Nat2Z.id by nia; reflexivity.
Qed.

(** Twice an offset may exceed [int]; the test of the loop is right all the same. *)
Lemma offset_test r n len : size * Z.of_nat len < 2 ^ 31 -> (n <= len)%nat -> (r < len \/ n = 0)%nat ->
  (size_t (int (size * Z.of_nat r * 2) + size) <? size_t (size * Z.of_nat n)) = (r * 2 + 1 <? n)%nat.
Proof.
  intros Hl Hn Hr; destruct (Nat.eq_dec n 0) as [-> |N0].
  { rewrite Z.mul_0_r, (size_t_small 0) by lia; apply Z.ltb_ge; unfold size_t, wrap; apply Z.mod_pos_bound.
    destruct HBITS as [-> | ->]; lia. }
  assert (Sr : size * (Z.of_nat r + 1) < 2 ^ 31) by nia.
  rewrite (size_t_small (size * _)) by nia.
  replace (size * Z.of_nat r * 2) with (size * (Z.of_nat r * 2)) by lia.
  destruct (Z.lt_ge_cases (size * (Z.of_nat r * 2)) (2 ^ 31)) as [S|S].
  - replace (int (size * (Z.of_nat r * 2))) with (size * (Z.of_nat r * 2)) by (rewrite int_small; nia).
    rewrite size_t_small by nia; destruct (Nat.ltb_spec (r * 2 + 1) n); [apply Z.ltb_lt|apply Z.ltb_ge]; nia.
  - replace (int (size * (Z.of_nat r * 2))) with (size * (Z.of_nat r * 2) - 2 ^ 32) by (unfold int, swrap; case_if; divmod).
    assert (U : 2 ^ 31 <= size_t (size * (Z.of_nat r * 2) - 2 ^ 32 + size)).
    { unfold size_t, wrap; destruct HBITS as [-> | ->]; divmod. }
    rewrite (proj2 (Nat.ltb_ge _ _)) by nia; apply Z.ltb_ge; nia.
Qed.

Lemma pick_at n r l : size * Z.of_nat (List.length l) < 2 ^ 31 -> (n <= List.length l)%nat -> (r * 2 + 1 < n)%nat ->
  pick (size * Z.of_nat n) (size * Z.of_nat r) l = Some (size * Z.of_nat (ref_pick n r l)).
Proof.
  intros Hl Hn Hr; unfold pick, ref_pick; set (c := (r * 2 + 1)%nat).
  rewrite (int_small (size * Z.of_nat r * 2)) by nia.
  replace (size * Z.of_nat r * 2 + size) with (size * Z.of_nat c) by nia.
  rewrite int_size_t, !size_t_small by nia; replace (size * Z.of_nat n - size) with (size * Z.of_nat (n - 1)) by nia.
  replace (size * Z.of_nat c + size) with (size * Z.of_nat (c + 1)) by nia.
  destruct (Nat.ltb_spec c (n - 1)); [rewrite (proj2 (Z.ltb_lt _ _)) by nia|now rewrite (proj2 (Z.ltb_ge _ _)) by nia].
  unfold compare; rewrite !elt_at by lia; cbn [andb]; rewrite int_small by nia; now destruct (_ <? _).
Qed.

(** A sift of the code follows one of the reference. *)
Lemma sift_follows n : forall f f' r l l', size * Z.of_nat (List.length l) < 2 ^ 31 -> (n <= List.length l)%nat ->
  (r < List.length l \/ n = 0)%nat -> (f <= f')%nat ->
  ref_sift f n r l = Some l' -> sift f' (size * Z.of_nat n) (size * Z.of_nat r) l = Some l'.
Proof.
  induction f as [|f IH]; intros f' r l l' Hl Hn Hr Hf E; cbn [ref_sift] in E; destruct f' as [|f']; try lia; cbn [sift];
    rewrite (offset_test r n (List.length l)) by assumption; destruct (Nat.ltb_spec (r * 2 + 1) n) as [Lt|]; try exact E;
    rewrite pick_at by assumption; destruct (pick_spec n r l Lt) as (Ch & Hc & _); unfold compare, exchange;
    rewrite !elt_at by lia; destruct (_ >=? 0); try exact E; try discriminate.
  apply IH; rewrite ?swap_length; try assumption; lia.
Qed.

Lemma heapify_follows n k : forall f l l', List.length l = n -> size * Z.of_nat n < 2 ^ 31 -> (k <= n)%nat -> (k <= f)%nat ->
  ref_heapify k n l = Some l' -> heapify f (size * Z.of_nat n) (size * (Z.of_nat k - 1)) l = Some l'.
Proof.
  induction k as [|i IH]; intros f l l' Hl Hs Hk Hf E; cbn [ref_heapify] in E.
  - destruct f; cbn [heapify]; now rewrite Z.geb_leb, (proj2 (Z.leb_gt _ _)) by lia.
  - destruct (ref_sift n n i l) as [l1|] eqn:E1; [|discriminate]; destruct f as [|f]; [lia|]; cbn [heapify].
    replace (size * (Z.of_nat (S i) - 1)) with (size * Z.of_nat i) by lia; rewrite Z.geb_leb, (proj2 (Z.leb_le _ _)) by nia.
    rewrite (sift_follows n n (List.length l) i l l1) by (rewrite ?Hl; auto; lia).
    replace (size * Z.of_nat i - size) with (size * (Z.of_nat i - 1)) by lia; rewrite int_size_t by nia.
    apply IH; auto; try lia; now rewrite (sift_length n n i l l1 E1).
Qed.

Lemma drain_follows k : forall f l l', (k <= List.length l)%nat -> size * Z.of_nat (List.length l) < 2 ^ 31 -> (k <= f)%nat ->
  ref_drain k l = Some l' -> drain f (size * (Z.of_nat k - 1)) l = Some l'.
Proof.
  induction k as [|i IH]; intros f l l' Hk Hs Hf E; cbn [ref_drain] in E.
  - destruct f; cbn [drain]; now rewrite Z.geb_leb, (proj2 (Z.leb_gt _ _)) by lia.
  - destruct (ref_sift i i 0 (swap l 0 i)) as [l1|] eqn:E1; [|discriminate]; destruct f as [|f]; [lia|]; cbn [drain].
    replace (size * (Z.of_nat (S i) - 1)) with (size * Z.of_nat i) by lia; rewrite Z.geb_leb, (proj2 (Z.leb_le _ _)) by nia.
    unfold exchange; rewrite elt_at by lia; rewrite <- (Z.mul_0_r size); change 0 with (Z.of_nat 0) at 1; rewrite elt_at by lia.
    pose proof (sift_length _ _ _ _ _ E1) as L1; rewrite swap_length in L1.
    change 0 with (Z.of_nat 0); rewrite (sift_follows i i _ 0 (swap l 0 i) l1) by (rewrite ?swap_length; auto; lia).
    replace (size * Z.of_nat i - size) with (size * (Z.of_nat i - 1)) by lia; rewrite int_size_t by nia.
    apply IH; auto; rewrite ?L1; lia.
Qed.

Lemma sort_spec l : size * Z.of_nat (List.length l) < 2 ^ 31 ->
  exists l', sort l = Some l' /\ Permutation l l' /\ StronglySorted le l'.
Proof.
  intros Hl; destruct (ref_sort_spec l) as (l' & E & P & S); exists l'; split; [|split; assumption].
  unfold ref_sort in E; unfold sort; set (n := List.length l) in *.
  destruct (ref_heapify (n / 2) n l) as [l1|] eqn:E1; [|discriminate].
  assert (Dv : Z.of_nat n / 2 = Z.of_nat (n / 2)) by (now rewrite Nat2Z.inj_div).
  pose proof (Nat.div_mod n 2 ltac:(lia)); pose proof (heapify_length _ _ _ _ E1) as L1.
  rewrite Dv, (Z.mul_comm (_ - 1)), (Z.mul_comm (Z.of_nat n)), !int_size_t by nia.
  rewrite (heapify_follows n (n / 2) n l l1) by (auto; lia).
  replace (size * Z.of_nat n - size) with (size * (Z.of_nat n - 1)) by lia; apply drain_follows; rewrite ?L1; auto; lia.
Qed.

(** An array of exactly [2^32] bytes is left as it is: the number of bytes
    becomes 0. *)
Lemma sift_nothing f r l : sift f 0 r l = Some l.
Proof.
  assert (T : forall x, (size_t x <? size_t 0) = false).
  { intros x; rewrite (size_t_small 0) by lia; apply Z.ltb_ge; unfold size_t, wrap; apply Z.mod_pos_bound.
    destruct HBITS as [-> | ->]; lia. }
  destruct f; cbn [sift]; now rewrite T.
Qed.
Lemma heapify_nothing k : forall f l, (k <= f)%nat -> size * Z.of_nat k <= 2 ^ 31 ->
  heapify f 0 (size * (Z.of_nat k - 1)) l = Some l.
Proof.
  induction k as [|i IH]; intros f l Hf Hk; [destruct f; cbn [heapify]; now rewrite Z.geb_leb, (proj2 (Z.leb_gt _ _)) by lia|].
  destruct f as [|f]; [lia|]; cbn [heapify]; replace (size * (Z.of_nat (S i) - 1)) with (size * Z.of_nat i) by lia.
  rewrite Z.geb_leb, (proj2 (Z.leb_le _ _)), sift_nothing by nia.
  replace (size * Z.of_nat i - size) with (size * (Z.of_nat i - 1)) by lia; rewrite int_size_t by nia; apply IH; lia.
Qed.
Lemma sort_truncates l : size * Z.of_nat (List.length l) = 2 ^ 32 -> sort l = Some l.
Proof.
  intros E; unfold sort; set (n := List.length l) in *.
  assert (Dv : Z.of_nat n / 2 = Z.of_nat (n / 2)) by (now rewrite Nat2Z.inj_div).
  pose proof (Nat.div_mod n 2 ltac:(lia)); pose proof (Nat.mod_upper_bound n 2 ltac:(lia)).
  replace (int (size_t (Z.of_nat n * size))) with 0 by (rewrite Z.mul_comm, E; unfold size_t; destruct HBITS as [-> | ->]; reflexivity).
  rewrite Dv, (Z.mul_comm (_ - 1)), !int_size_t by nia; rewrite heapify_nothing by (try nia; lia).
  destruct l; cbn [List.length drain]; now rewrite Z.geb_leb, (proj2 (Z.leb_gt _ _)) by lia.
Qed.

(** C37: For every element size and every comparison function that is a total
    preorder, [sort] on an array of less than [2^31] bytes ends, accesses only
    elements of the array and leaves a sorted permutation of it, although its
    byte offsets are kept in an [int] and doubled there; on 32- and 64-bit
    kernels.  (From [2^31] bytes on, the number of bytes does not fit [int].) *)
Theorem sort_correct l : size * Z.of_nat (List.length l) < 2 ^ 31 ->
  exists l', sort l = Some l' /\ Permutation l l' /\ StronglySorted le l'.
Proof. exact (sort_spec l). Qed.
End Sort.

Lemma sort_correct_witness :
  exists l', sort 0 Z.sub 32 4 [3; 1; 2; 5; 4; 9; 2] = Some l' /\
    Permutation [3; 1; 2; 5; 4; 9; 2] l' /\ StronglySorted (le Z.sub) l'.
Proof. apply (sort_correct 0 Z.sub); [lia..|now left|lia|cbn; lia]. Defined.

(** ** Swapping the bytes of two elements *)

(** [do { t = *a; *a++ = *b; *b++ = t; } while (--size > 0)]. *)
Fixpoint generic_swap (size a b : nat) (m : list Z) : list Z :=
  let m := swap 0 m a b in
  match size with
  | S (S _ as size) => generic_swap size (a + 1) (b + 1) m
  | _ => m
  end.

(** [u32_swap] exchanges four bytes at once. *)
Definition u32_swap (a b : nat) (m : list Z) : list Z :=
  fold_left (fun m k => swap 0 m (a + k) (b + k)) (seq 0 4) m.

Lemma u32_swap_generic a b m : u32_swap a b m = generic_swap 4 a b m.
Proof.
  unfold u32_swap; cbn [fold_left seq generic_swap].
  rewrite !Nat.add_0_r; replace (a + 1 + 1)%nat with (a + 2)%nat by lia;
    replace (a + 2 + 1)%nat with (a + 3)%nat by lia; replace (b + 1 + 1)%nat with (b + 2)%nat by lia;
    replace (b + 2 + 1)%nat with (b + 3)%nat by lia; reflexivity.
Qed.

Lemma generic_swap_length size : forall a b m, List.length (generic_swap size a b m) = List.length m.
Proof.
  induction size as [|[|n] IH]; intros a b m; [apply swap_length|apply swap_length|].
  change (generic_swap (S (S n)) a b m) with (generic_swap (S n) (a + 1) (b + 1) (swap 0 m a b)).
  rewrite IH; apply swap_length.
Qed.

(** Bytes after the exchange of two disjoint blocks, or of a block with itself. *)
Lemma generic_swap_at n : forall a b m k, (0 < n)%nat -> (a + n <= List.length m)%nat -> (b + n <= List.length m)%nat ->
  (a = b \/ a + n <= b \/ b + n <= a)%nat ->
  at_ 0 (generic_swap n a b m) k =
    if (a <=? k)%nat && (k <? a + n)%nat then at_ 0 m (k - a + b)
    else if (b <=? k)%nat && (k <? b + n)%nat then at_ 0 m (k - b + a) else at_ 0 m k.
Proof.
  induction n as [|[|n] IH]; intros a b m k Hn Ha Hb Hd; [lia| |].
  - cbn [generic_swap]; rewrite at_swap by lia.
    destruct (Nat.leb_spec a k), (Nat.ltb_spec k (a + 1)), (Nat.leb_spec b k), (Nat.ltb_spec k (b + 1)),
      (Nat.eqb_spec b k), (Nat.eqb_spec a k); cbn [andb]; try lia; f_equal; lia.
  - change (generic_swap (S (S n)) a b m) with (generic_swap (S n) (a + 1) (b + 1) (swap 0 m a b)).
    rewrite IH by (rewrite ?swap_length; lia); rewrite !at_swap by lia.
    destruct (Nat.leb_spec (a + 1) k), (Nat.ltb_spec k (a + 1 + S n)), (Nat.leb_spec (b + 1) k),
      (Nat.ltb_spec k (b + 1 + S n)), (Nat.leb_spec a k), (Nat.ltb_spec k (a + S (S n))),
      (Nat.leb_spec b k), (Nat.ltb_spec k (b + S (S n))); cbn [andb]; try lia;
      repeat match goal with |- context [(?x =? ?y)%nat] => destruct (Nat.eqb_spec x y) end; try lia; f_equal; lia.
Qed.

(** An array of elements of [size] bytes. *)
Definition bytes (l : list (list Z)) : list Z := List.concat l.

Lemma bytes_length size l : Forall (fun e => List.length e = size) l -> List.length (bytes l) = (size * List.length l)%nat.
Proof. unfold bytes; induction 1; cbn; rewrite ?length_app; lia. Qed.

Lemma bytes_at size l i k : Forall (fun e => List.length e = size) l -> (k < size)%nat -> (i < List.length l)%nat ->
  at_ 0 (bytes l) (size * i + k) = at_ 0 (at_ [] l i) k.
Proof.
  unfold bytes, at_; intros F; revert i; induction F as [|e l He F IH]; intros [|i] Hk Hi; cbn in *; try lia.
  - rewrite Nat.mul_0_r, app_nth1 by lia; reflexivity.
  - rewrite app_nth2 by nia; rewrite <- IH by lia; f_equal; rewrite He; nia.
Qed.

(** Exchanging the bytes exchanges the elements. *)
Lemma generic_swap_elements size l i j :
  (0 < size)%nat -> Forall (fun e => List.length e = size) l -> (i < List.length l)%nat -> (j < List.length l)%nat ->
  generic_swap size (size * i) (size * j) (bytes l) = bytes (swap [] l i j).
Proof.
  intros Hs F Hi Hj; set (l' := swap [] l i j).
  assert (F' : Forall (fun e => List.length e = size) l')
    by (apply (Permutation_Forall (swap_perm [] l i j Hi Hj)); exact F).
  assert (L' : List.length l' = List.length l) by apply swap_length.
  apply (nth_ext _ _ 0 0).
  { rewrite generic_swap_length, !(bytes_length size), L' by auto; reflexivity. }
  rewrite generic_swap_length, (bytes_length size) by auto; intros n Hn.
  change (at_ 0 (generic_swap size (size * i) (size * j) (bytes l)) n = at_ 0 (bytes l') n).
  set (p := (n / size)%nat); set (k := (n mod size)%nat).
  assert (En : n = (size * p + k)%nat) by (apply Nat.div_mod; lia).
  assert (Hk : (k < size)%nat) by (apply Nat.mod_upper_bound; lia).
  assert (Hp : (p < List.length l)%nat) by nia.
  assert (D : (size * i = size * j \/ size * i + size <= size * j \/ size * j + size <= size * i)%nat)
    by (destruct (Nat.lt_trichotomy i j) as [|[->|]]; [right; left; nia|left; reflexivity|right; right; nia]).
  rewrite generic_swap_at by (rewrite ?(bytes_length size) by auto; try exact D; nia).
  rewrite En, (bytes_at size l' p k) by (auto; lia); unfold l'; rewrite at_swap by lia.
  assert (C : forall q, ((size * q <=? size * p + k)%nat && (size * p + k <? size * q + size)%nat) = (q =? p)%nat).
  { intros q; destruct (Nat.leb_spec (size * q) (size * p + k)), (Nat.ltb_spec (size * p + k) (size * q + size)),
      (Nat.eqb_spec q p); cbn [andb]; auto; nia. }
  rewrite !C; destruct (Nat.eqb_spec i p) as [->|], (Nat.eqb_spec j p) as [->|].
  - replace (size * p + k - size * p + size * p)%nat with (size * p + k)%nat by lia; now apply bytes_at.
  - replace (size * p + k - size * p + size * j)%nat with (size * j + k)%nat by lia; now apply bytes_at.
  - replace (size * p + k - size * p + size * i)%nat with (size * i + k)%nat by lia; now apply bytes_at.
  - now apply bytes_at.
Qed.
