(* ===== verification/Extable.v ===== *)
(** * Exception tables

    Models [lib/extable.c] (sorting and binary search), the lookup of
    [kernel/extable.c] and [kernel/module.c], and [fixup_exception] of
    [arch/mips/mm/extable.c]: a fault at an instruction that has an entry
    continues at the entry's fixup. *)

From Stdlib Require Import Permutation Sorted.
From S2P Require Import Prelude Rounding Ieee754 Inst Machine Branch Sort.

(** ** The code *)

Record exception_table_entry := mkent { insn : Z; nextinsn : Z }.

Definition cmp_ex (x y : exception_table_entry) : Z :=
  if insn x >? insn y then 1 else if insn x <? insn y then -1 else 0.

Definition no_entry : exception_table_entry := mkent 0 0.

(** [sizeof(struct exception_table_entry)]: two words of type [unsigned long]. *)
Definition sizeof_entry (mips64 : bool) : Z := if mips64 then 16 else 8.

Definition sort_extable (mips64 : bool) (t : list exception_table_entry) : option (list exception_table_entry) :=
  sort no_entry cmp_ex (if mips64 then 64 else 32) (sizeof_entry mips64) t.

(** Loop state of the binary search: [first], [last] and what was found;
    pointers are indices into the table. *)
Record probe := mkprobe { first : Z; last : Z; found : option exception_table_entry }.

Section Search.
Variables (t : list exception_table_entry) (value : Z).

Definition entry (i : Z) : exception_table_entry := nth (Z.to_nat i) t no_entry.

Definition search_body (p : probe) : probe :=
  let mid := (last p - first p) / 2 + first p in
  if insn (entry mid) <? value then mkprobe (mid + 1) (last p) None
  else if insn (entry mid) >? value then mkprobe (first p) (mid - 1) None
  else mkprobe (first p) (last p) (Some (entry mid)).

Definition search_cond (p : probe) : bool :=
  (first p <=? last p) && match found p with None => true | _ => false end.

(** The outer [option] is the bound of the loop: one turn per entry. *)
Definition search_extable (f l : Z) : option (option exception_table_entry) :=
  match while (Z.to_nat (l - f + 2)) search_cond search_body (mkprobe f l None) with
  | Some p => Some (found p)
  | None => None
  end.
End Search.

(** A whole table, as the callers pass it: [start .. finish - 1]. *)
Definition search_table (t : list exception_table_entry) (value : Z) : option (option exception_table_entry) :=
  search_extable t value 0 (Z.of_nat (List.length t) - 1).

(** The tables of the loaded modules, in list order. *)
Fixpoint search_module_extables (mods : list (list exception_table_entry)) (addr : Z)
  : option (option exception_table_entry) :=
  match mods with
  | [] => Some None
  | m :: mods =>
      if (List.length m =? 0)%nat then search_module_extables mods addr
      else
        match search_table m addr with
        | Some None => search_module_extables mods addr
        | r => r
        end
  end.

Definition search_exception_tables (main : list exception_table_entry)
    (mods : list (list exception_table_entry)) (addr : Z) : option (option exception_table_entry) :=
  match search_table main addr with
  | Some None => search_module_extables mods addr
  | r => r
  end.

Section Fixup.
Context (mips64 : bool) {mem : Type}.
Variables (main : list exception_table_entry) (mods : list (list exception_table_entry)).

(** Returns whether a fixup was found, and the frame. *)
Definition fixup_exception (m : machine mem) : option (bool * machine mem) :=
  match search_exception_tables main mods (exception_epc mips64 m) with
  | None => None
  | Some (Some e) => Some (true, set_epc (nextinsn e) m)
  | Some None => Some (false, m)
  end.
End Fixup.

(** ** Sorting by address *)

Lemma cmp_ex_le x y : cmp_ex x y <= 0 <-> insn x <= insn y.
Proof.
  unfold cmp_ex; rewrite Z.gtb_ltb; destruct (Z.ltb_spec (insn y) (insn x)), (Z.ltb_spec (insn x) (insn y)); lia.
Qed.

Lemma cmp_ex_ge x y : 0 <= cmp_ex x y -> cmp_ex y x <= 0.
Proof.
  intros Hc; apply cmp_ex_le; unfold cmp_ex in Hc; rewrite Z.gtb_ltb in Hc.
  destruct (Z.ltb_spec (insn y) (insn x)), (Z.ltb_spec (insn x) (insn y)); lia.
Qed.

Definition by_address (x y : exception_table_entry) : Prop := insn x <= insn y.

Lemma sort_extable_spec mips64 t : sizeof_entry mips64 * Z.of_nat (List.length t) < 2 ^ 31 ->
  exists t', sort_extable mips64 t = Some t' /\ Permutation t t' /\ StronglySorted by_address t'.
Proof.
  intros Hl; destruct (sort_spec no_entry cmp_ex (if mips64 then 64 else 32) (sizeof_entry mips64) cmp_ex_ge)
    with (l := t) as (t' & E & P & S); [|now destruct mips64; auto|now destruct mips64|exact Hl|].
  { intros x y z; rewrite !cmp_ex_le; lia. }
  exists t'; split; [exact E|split; [exact P|]].
  clear E P; induction S as [|a l S IH F]; constructor; auto.
  revert F; apply Forall_impl; intros b; apply cmp_ex_le.
Qed.

(** ** Binary search *)

Section SearchProof.
Variables (t : list exception_table_entry) (value : Z).
Hypothesis sorted : StronglySorted by_address t.

Let n := Z.of_nat (List.length t).

Lemma entry_mono i j : 0 <= i <= j -> j < n -> insn (entry t i) <= insn (entry t j).
Proof.
  intros Hi Hj; unfold entry; assert (I : (Z.to_nat i <= Z.to_nat j < List.length t)%nat) by (unfold n in *; lia).
  revert I; generalize (Z.to_nat i) (Z.to_nat j); clear - sorted.
  induction sorted as [|a l S IH F]; intros x y [Hxy Hy]; [cbn in Hy; lia|].
  destruct x as [|x], y as [|y]; cbn [nth]; [lia| |lia|apply IH; [exact S|cbn in Hy; lia]].
  apply (proj1 (Forall_forall _ _) F), nth_In; cbn in Hy; lia.
Qed.

(** Everything outside the window is on the wrong side of the value. *)
Definition search_inv (p : probe) : Prop :=
  match found p with
  | Some e => In e t /\ insn e = value
  | None => 0 <= first p /\ last p < n /\
      (forall i, 0 <= i < first p -> insn (entry t i) < value) /\
      (forall i, last p < i < n -> value < insn (entry t i))
  end.

Lemma search_body_inv p : search_inv p -> search_cond p = true ->
  search_inv (search_body t value p) /\
  (found (search_body t value p) = None -> last (search_body t value p) - first (search_body t value p) < last p - first p).
Proof.
  unfold search_inv, search_cond, search_body; intros I C; zbool; destruct (found p); [discriminate|].
  destruct I as (F0 & Ln & Lo & Hi); set (mid := (last p - first p) / 2 + first p).
  assert (Hm : first p <= mid <= last p) by (unfold mid; Z.div_mod_to_equations; lia).
  destruct (insn (entry t mid) <? value) eqn:L; [|destruct (insn (entry t mid) >? value) eqn:G]; zbool;
    cbn [found first last].
  - split; [|lia]; split; [lia|split; [lia|split; [|auto]]]; intros i Hi'.
    pose proof (entry_mono i mid ltac:(lia) ltac:(lia)); lia.
  - split; [|lia]; split; [lia|split; [lia|split; [auto|]]]; intros i Hi'.
    pose proof (entry_mono mid i ltac:(lia) ltac:(lia)); lia.
  - split; [|discriminate]; split; [apply nth_In; unfold n in *; lia|lia].
Qed.

Lemma search_table_spec :
  (exists e, search_table t value = Some (Some e) /\ In e t /\ insn e = value) \/
  (search_table t value = Some None /\ forall e, In e t -> insn e <> value).
Proof.
  unfold search_table, search_extable; fold n.
  destruct (while_rule search_cond (search_body t value) search_inv
    (fun p => match found p with Some _ => 0 | None => Z.max 0 (last p - first p + 1) + 1 end)
    (Z.to_nat (n - 1 - 0 + 2)) (mkprobe 0 (n - 1) None)) as (p & -> & I & C).
  - cbn; repeat split; try lia; intros; lia.
  - cbn [found first last]; lia.
  - intros p I C; destruct (search_body_inv p I C) as [I' D]; split; [exact I'|].
    unfold search_cond in C; zbool; destruct (found p); [discriminate|].
    destruct (found (search_body t value p)); [lia|specialize (D eq_refl); lia].
  - unfold search_inv, search_cond in I, C; destruct (found p) as [e|].
    + left; exists e; auto.
    + right; split; [reflexivity|]; rewrite andb_true_r in C; zbool; destruct I as (F0 & Ln & Lo & Hi).
      intros e He; apply (In_nth _ _ no_entry) in He; destruct He as (i & Hl & <-).
      replace (nth i t no_entry) with (entry t (Z.of_nat i)) by (unfold entry; now rewrite Nat2Z.id).
      destruct (Z.lt_ge_cases (Z.of_nat i) (first p)) as [Q|Q].
      * specialize (Lo (Z.of_nat i) ltac:(lia)); lia.
      * specialize (Hi (Z.of_nat i) ltac:(unfold n in *; lia)); lia.
Qed.
End SearchProof.

(** The search ends on every table, sorted or not, so [fixup_exception]
    always answers. *)
Lemma search_table_total t value : exists r, search_table t value = Some r.
Proof.
  unfold search_table, search_extable; set (n := Z.of_nat (List.length t)).
  destruct (while_rule search_cond (search_body t value) (fun _ => True)
    (fun p => match found p with Some _ => 0 | None => Z.max 0 (last p - first p + 1) + 1 end)
    (Z.to_nat (n - 1 - 0 + 2)) (mkprobe 0 (n - 1) None)) as (p & -> & _); [auto|cbn [found first last]; lia| |eauto].
  intros p _ C; split; [auto|]; unfold search_cond, search_body in *; zbool; destruct (found p); [discriminate|].
  assert (first p <= (last p - first p) / 2 + first p <= last p) by (Z.div_mod_to_equations; lia).
  destruct (_ <? value); [|destruct (_ >? value)]; cbn [found first last]; lia.
Qed.

Lemma fixup_total mips64 {mem} main mods (m : machine mem) :
  exists b m', fixup_exception mips64 main mods m = Some (b, m').
Proof.
  assert (S : exists r, search_exception_tables main mods (exception_epc mips64 m) = Some r).
  { unfold search_exception_tables; destruct (search_table_total main (exception_epc mips64 m)) as [[e|] ->]; [eauto|].
    induction mods as [|t mods IH]; cbn [search_module_extables]; [eauto|]; destruct (_ =? _)%nat; [exact IH|].
    destruct (search_table_total t (exception_epc mips64 m)) as [[e|] ->]; eauto. }
  unfold fixup_exception; destruct S as [[e|] ->]; eauto.
Qed.

(** C38: [sort_extable] followed by [search_extable] is a lookup: for every
    table of less than [2^31] bytes, in whatever order the linker left it, the
    sort terminates, and the binary search over the result terminates and
    returns an entry of the table for the address if there is one, and nothing
    otherwise. *)
Theorem extable_lookup mips64 t value : sizeof_entry mips64 * Z.of_nat (List.length t) < 2 ^ 31 ->
  exists t', sort_extable mips64 t = Some t' /\
    ((exists e, search_table t' value = Some (Some e) /\ In e t /\ insn e = value) \/
     (search_table t' value = Some None /\ forall e, In e t -> insn e <> value)).
Proof.
  intros Hl; destruct (sort_extable_spec mips64 t Hl) as (t' & E & P & S); exists t'; split; [exact E|].
  destruct (search_table_spec t' value S) as [(e & Es & I & V)|[Es N]].
  - left; exists e; split; [exact Es|split; [|exact V]]; now rewrite P.
  - right; split; [exact Es|]; intros e I; apply N; now rewrite <- P.
Qed.

Lemma extable_lookup_witness :
  exists t', sort_extable false [mkent 30 3; mkent 10 1; mkent 20 2] = Some t' /\
    ((exists e, search_table t' 20 = Some (Some e) /\ In e [mkent 30 3; mkent 10 1; mkent 20 2] /\ insn e = 20) \/
     (search_table t' 20 = Some None /\ forall e, In e [mkent 30 3; mkent 10 1; mkent 20 2] -> insn e <> 20)).
Proof. apply (extable_lookup false [mkent 30 3; mkent 10 1; mkent 20 2] 20); reflexivity. Defined.

(** ** The kernel's and the modules' tables together *)

Lemma search_module_spec mods addr : Forall (StronglySorted by_address) mods ->
  (exists e, search_module_extables mods addr = Some (Some e) /\ (exists m, In m mods /\ In e m) /\ insn e = addr) \/
  (search_module_extables mods addr = Some None /\ forall m e, In m mods -> In e m -> insn e <> addr).
Proof.
  induction 1 as [|m mods S F IH]; cbn [search_module_extables]; [right; split; [reflexivity|intros ? ? []]|].
  assert (Next : (forall e, In e m -> insn e <> addr) ->
    (exists e, search_module_extables mods addr = Some (Some e) /\ (exists m0, (m = m0 \/ In m0 mods) /\ In e m0) /\ insn e = addr) \/
    (search_module_extables mods addr = Some None /\ forall m0 e, m = m0 \/ In m0 mods -> In e m0 -> insn e <> addr)).
  { intros N; destruct IH as [(e & E & (m0 & I & J) & V)|[E N']]; [left|right].
    - exists e; split; [exact E|split; [exists m0; auto|exact V]].
    - split; [exact E|]; intros m0 e [<-|I] J; [now apply N|now apply (N' m0)]. }
  destruct (Nat.eqb_spec (List.length m) 0) as [L|L].
  - apply Next; destruct m; [intros ? []|discriminate].
  - destruct (search_table_spec m addr S) as [(e & -> & I & V)|[-> N]]; [|now apply Next].
    left; exists e; split; [reflexivity|split; [exists m; cbn; auto|exact V]].
Qed.

Lemma search_tables_spec main mods addr :
  StronglySorted by_address main -> Forall (StronglySorted by_address) mods ->
  (exists e, search_exception_tables main mods addr = Some (Some e) /\
     (exists t, In t (main :: mods) /\ In e t) /\ insn e = addr) \/
  (search_exception_tables main mods addr = Some None /\
     forall t e, In t (main :: mods) -> In e t -> insn e <> addr).
Proof.
  intros S F; unfold search_exception_tables.
  destruct (search_table_spec main addr S) as [(e & -> & I & V)|[-> N]].
  - left; exists e; split; [reflexivity|split; [exists main; cbn; auto|exact V]].
  - destruct (search_module_spec mods addr F) as [(e & -> & (m & I & J) & V)|[-> N']].
    + left; exists e; split; [reflexivity|split; [exists m; cbn; auto|exact V]].
    + right; split; [reflexivity|]; intros t e [<-|I] J; [now apply N|now apply (N' t)].
Qed.
