(* ===== verification/Unaligned.v ===== *)
(** * Unaligned accesses

    Models [kernel/unaligned.c]: an address error is either the end of a
    delay-slot trampoline ([Dsemul]) or an unaligned load or store, which is
    done in pieces: byte accesses for half words, the left/right partial
    accesses of the CPU for words and double words.  Those instructions are
    part of the language of the source (inline assembly) and are modelled on
    the bytes of user memory, in both byte orders.

    Parameters: [big] is [__BIG_ENDIAN], [mips64] is [CONFIG_64BIT], [fixade]
    whether the task has [MF_FIXADE], [main] and [mods] the exception tables,
    [junk] the content of a register or variable the code leaves
    uninitialised. *)

From Stdlib Require Import Sorted.
From S2P Require Import Prelude Rounding Ieee754 Inst Machine ByteMem Branch Dsemul Cp1Props Sort Extable.

Definition KU_MASK : Z := 0x18.
Definition KU_USER : Z := 0x10.

(** ** Bytes and words *)

Fixpoint le_value (l : list Z) : Z :=
  match l with [] => 0 | b :: l => b + 256 * le_value l end.
Fixpoint le_bytes (n : nat) (v : Z) : list Z :=
  match n with O => [] | S n => v mod 256 :: le_bytes n (v / 256) end.

Section Bytes.
Context (big : bool).

(** The word [l] spells in memory order, and the bytes a word is stored as. *)
Definition word_of (l : list Z) : Z := le_value (if big then rev l else l).
Definition bytes_of (n : nat) (v : Z) : list Z := if big then rev (le_bytes n v) else le_bytes n v.
End Bytes.

Section Accesses.
Context (mips64 big : bool) {mem : Type} `{UserMem mem}.

Let W := XLEN mips64.

Fixpoint read_bytes (u : mem) (a : Z) (n : nat) : option (list Z) :=
  match n with
  | O => Some []
  | S n => match __get_user u 1 a, read_bytes u (a + 1) n with
           | Some b, Some l => Some (b :: l)
           | _, _ => None
           end
  end.

Fixpoint write_bytes (u : mem) (a : Z) (l : list Z) : option mem :=
  match l with
  | [] => Some u
  | b :: l => match __put_user u 1 a b with Some u => write_bytes u (a + 1) l | None => None end
  end.

(** [lwl]/[ldl] ([w] bytes): the part of the aligned word of [a] that holds
    the most significant bytes of the unaligned word, into the upper part of
    the register. *)
Definition load_left (w a : Z) (u : mem) (reg : Z) : option Z :=
  let n := Z.land a (w - 1) in
  if big then
    match read_bytes u a (Z.to_nat (w - n)) with
    | Some l => Some (word_of big l * 2 ^ (8 * n) + reg mod 2 ^ (8 * n))
    | None => None
    end
  else
    match read_bytes u (a - n) (Z.to_nat (n + 1)) with
    | Some l => Some (word_of big l * 2 ^ (8 * (w - 1 - n)) + reg mod 2 ^ (8 * (w - 1 - n)))
    | None => None
    end.

(** [lwr]/[ldr]: the least significant bytes, into the lower part. *)
Definition load_right (w a : Z) (u : mem) (reg : Z) : option Z :=
  let n := Z.land a (w - 1) in
  if big then
    match read_bytes u (a - n) (Z.to_nat (n + 1)) with
    | Some l => Some (reg / 2 ^ (8 * (n + 1)) * 2 ^ (8 * (n + 1)) + word_of big l)
    | None => None
    end
  else
    match read_bytes u a (Z.to_nat (w - n)) with
    | Some l => Some (reg / 2 ^ (8 * (w - n)) * 2 ^ (8 * (w - n)) + word_of big l)
    | None => None
    end.

(** [swl]/[sdl] and [swr]/[sdr]. *)
Definition store_left (w a : Z) (v : Z) (u : mem) : option mem :=
  let n := Z.land a (w - 1) in
  if big then write_bytes u a (bytes_of big (Z.to_nat (w - n)) (v / 2 ^ (8 * n)))
  else write_bytes u (a - n) (bytes_of big (Z.to_nat (n + 1)) (v / 2 ^ (8 * (w - 1 - n)))).
Definition store_right (w a : Z) (v : Z) (u : mem) : option mem :=
  let n := Z.land a (w - 1) in
  if big then write_bytes u (a - n) (bytes_of big (Z.to_nat (n + 1)) v)
  else write_bytes u a (bytes_of big (Z.to_nat (w - n)) v).

(** [lwl %0, (%2); lwr %0, 3(%2)], little endian the other way round. *)
Definition unaligned_load (w addr : Z) (u : mem) (junk : Z) : option Z :=
  let lo := addr in
  let hi := wrap W (addr + (w - 1)) in
  match load_left w (if big then lo else hi) u (wrap (8 * w) junk) with
  | Some r => load_right w (if big then hi else lo) u r
  | None => None
  end.

(** [swl %1, (%2); swr %1, 3(%2)]: whether both were done, and memory. *)
Definition unaligned_store (w addr v : Z) (u : mem) : bool * mem :=
  let lo := addr in
  let hi := wrap W (addr + (w - 1)) in
  match store_left w (if big then lo else hi) v u with
  | None => (false, u)
  | Some u1 =>
      match store_right w (if big then hi else lo) v u1 with
      | None => (false, u1)
      | Some u2 => (true, u2)
      end
  end.

(** Half words: two byte accesses. *)
Definition half_load (signed : bool) (addr : Z) (u : mem) : option Z :=
  let hi := if big then addr else wrap W (addr + 1) in
  let lo := if big then wrap W (addr + 1) else addr in
  match __get_user u 1 hi with
  | None => None
  | Some h =>
      let h := if signed then swrap 8 h else h in
      match __get_user u 1 lo with
      | None => None
      | Some l => Some (wrap W (h * 2 ^ 8 + l))
      end
  end.

Definition half_store (addr v : Z) (u : mem) : bool * mem :=
  let hi := if big then addr else wrap W (addr + 1) in
  let lo := if big then wrap W (addr + 1) else addr in
  match __put_user u 1 lo (v mod 256) with
  | None => (false, u)
  | Some u1 =>
      match __put_user u1 1 hi (v / 256 mod 256) with
      | None => (false, u1)
      | Some u2 => (true, u2)
      end
  end.
End Accesses.

(** ** The handler *)

(** How [emulate_load_store_insn] ends: done (with [*regptr] and [newvalue]
    for a load), a signal sent, a fixup found ([return 1]), or [die]. *)
Inductive emulation (mem : Type) :=
| Done (dest : option (Z * Z)) (m : machine mem)
| Signalled (m : machine mem)
| FixedUp (m : machine mem)
| Died.
Arguments Done {mem}. Arguments Signalled {mem}. Arguments FixedUp {mem}. Arguments Died {mem}.

Section Ade.
Context (mips64 big : bool) {mem : Type} `{UserMem mem}.
Variables (cpu_has_dsp : bool) (rddsp : Z) (fixade : bool) (junk : Z).
Variables (main : list exception_table_entry) (mods : list (list exception_table_entry)).
#[local] Abbreviation mach := (machine mem).

Let W := XLEN mips64.

Definition user_mode (m : mach) : bool := Z.land (cp0_status (xcp m)) KU_MASK =? KU_USER.

(** With [KERNEL_DS] every address is good. *)
Definition ade_access_ok (m : mach) (a n : Z) : bool :=
  if user_mode m then access_ok (umem m) a n else true.

(** [send_sig(sig, current, 1)].  Like [force_sig] it records the signal; whether
    the task blocks or ignores it is not part of the state. *)
Definition send_sig (sig : Z) (m : mach) : mach :=
  mkmach (xcp m) (ctx m) (stats m) (umem m) (sig :: sent m) (log m) (hwfcr31 m).

(** [goto sigbus], [goto sigill]: [die_if_kernel], then the signal. *)
Definition ade_signal (sig : Z) (m : mach) : emulation mem :=
  if user_mode m then Signalled (send_sig sig m) else Died.

(** [fault:]. *)
Definition ade_fault (m : mach) : emulation mem :=
  match fixup_exception mips64 main mods m with
  | Some (true, m) => FixedUp m
  | _ => ade_signal SIGSEGV m
  end.

(** A load of [n] bytes; a store of [n] bytes. *)
Definition ade_load (m : mach) (addr n rt : Z) (v : option Z) : emulation mem :=
  if negb (ade_access_ok m addr n) then ade_signal SIGBUS m
  else match v with Some v => Done (Some (rt, v)) m | None => ade_fault m end.

Definition ade_store (m : mach) (addr n : Z) (r : bool * mem) : emulation mem :=
  if negb (ade_access_ok m addr n) then ade_signal SIGBUS m
  else let m := set_umem (snd r) m in if fst r then Done None m else ade_fault m.

(** Sign extension of a word to a register. *)
Definition sext32 (v : Z) : Z := wrap W (swrap 32 v).

Definition emulate_load_store_insn (addr pc : Z) (m : mach) : emulation mem :=
  let m := set_gpr 0 0 m in
  let insn := match __get_user (umem m) 4 pc with Some w => w | None => junk end in
  let op := MIPSInst_OPCODE insn in
  let rt := MIPSInst_RT insn in
  let value := sel (gpr (xcp m)) rt in
  let word w := unaligned_load mips64 big w addr (umem m) junk in
  if one_of op [ll_op; lld_op; sc_op; scd_op; ldl_op; ldr_op; lwl_op; lwr_op; sdl_op; sdr_op; swl_op;
                swr_op; lb_op; lbu_op; sb_op] then ade_signal SIGBUS m
  else if op =? lh_op then ade_load m addr 2 rt (half_load mips64 big true addr (umem m))
  else if op =? lw_op then ade_load m addr 4 rt (option_map sext32 (word 4))
  else if op =? lhu_op then ade_load m addr 2 rt (half_load mips64 big false addr (umem m))
  else if mips64 && (op =? lwu_op) then ade_load m addr 4 rt (option_map (wrap 32) (word 4))
  else if mips64 && (op =? ld_op) then ade_load m addr 8 rt (word 8)
  else if op =? sh_op then ade_store m addr 2 (half_store mips64 big addr value (umem m))
  else if op =? sw_op then ade_store m addr 4 (unaligned_store mips64 big 4 addr value (umem m))
  else if mips64 && (op =? sd_op) then ade_store m addr 8 (unaligned_store mips64 big 8 addr value (umem m))
  else if one_of op [lwc1_op; ldc1_op; swc1_op; sdc1_op] then ade_signal SIGBUS m
  else ade_signal SIGILL m.

(** [do_ade]; the count is [unaligned_instructions], [None] is [die]. *)
Definition do_ade (count : Z) (m : mach) : option (Z * mach) :=
  match do_dsemulret mips64 m with
  | (1, m) => Some (count, m)
  | (_, m) =>
    let sigbus := if user_mode m then Some (count, force_sig SIGBUS m) else None in
    if (cp0_badvaddr (xcp m) =? cp0_epc (xcp m)) || tst (Z.land (cp0_epc (xcp m)) 1) then sigbus
    else
      let pc := exception_epc mips64 m in
      if negb fixade then sigbus
      else
        match emulate_load_store_insn (cp0_badvaddr (xcp m)) pc m with
        | FixedUp m => Some (count, m)
        | Died => None
        | Signalled m => Some (count, snd (compute_return_epc mips64 cpu_has_dsp rddsp m))
        | Done dest m =>
            let m := snd (compute_return_epc mips64 cpu_has_dsp rddsp m) in
            Some (wrap W (count + 1),
                  match dest with Some (rt, v) => set_gpr rt v m | None => m end)
        end
  end.
End Ade.

(** ** Lists of bytes *)









Section Words.
Context (big : bool).






End Words.

Section AccessProofs.
Context (mips64 big : bool) {mem : Type} `{UserMem mem}.
Implicit Types u : mem.







(** ** Partial accesses assemble *)


Variables (w addr : Z).
Hypothesis w_size : w = 4 \/ w = 8.
Hypothesis in_space : 0 <= addr /\ addr + w <= 2 ^ XLEN mips64.




End AccessProofs.

(** ** Half words *)

Section Half.
Context (mips64 big : bool) {mem : Type} `{UserMem mem}.
Implicit Types u : mem.

Let W := XLEN mips64.


Variable addr : Z.
Hypothesis in_space : 0 <= addr /\ addr + 2 <= 2 ^ W.


End Half.

(** ** [do_ade] *)

Section AdeProofs.
Context (mips64 big : bool) {mem : Type} `{UserMem mem}.
Variables (cpu_has_dsp : bool) (rddsp junk : Z).
Variables (main : list exception_table_entry) (mods : list (list exception_table_entry)).
Implicit Types m : machine mem.

Let W := XLEN mips64.
#[local] Abbreviation ade := (do_ade mips64 big cpu_has_dsp rddsp true junk main mods).
#[local] Abbreviation next m := (snd (compute_return_epc mips64 cpu_has_dsp rddsp m)).














(** C36: the trampoline round trip.  When [mips_dsemul] sets up a frame, the
    delay-slot instruction is at the new pc; the instruction after it raises
    an address error, and if the rest of the frame is intact then, [do_ade]
    recognises it and continues at the saved branch target, with nothing else
    of the task's state changed and no signal. *)
Theorem trampoline_roundtrip ir cpc m m' :
  0 < ir < 2 ^ 32 -> 0 <= cpc < 2 ^ XLEN mips64 -> mips_dsemul mips64 ir cpc m = (SIGILL, m') ->
  let fr := cp0_epc (xcp m') in
  __get_user (umem m') 4 fr = Some ir /\
  forall count m2, cp0_epc (xcp m2) = fr + 4 ->
    access_ok (umem m2) fr (emuframe_size mips64) = access_ok (umem m') fr (emuframe_size mips64) ->
    (forall n b, fr + 4 <= b -> b + n <= fr + emuframe_size mips64 ->
       __get_user (umem m2) n b = __get_user (umem m') n b) ->
    ade count m2 = Some (count, set_epc cpc m2).
Proof.
  intros Hir Hc Hd fr; destruct (dsemul_returns mips64 ir cpc m m' Hir Hc Hd) as [I R]; split; [exact I|].
  intros count m2 Hepc Hac Hsame; unfold do_ade; rewrite (R m2 Hepc Hac Hsame); reflexivity.
Qed.
End AdeProofs.

(** ** Examples

    A user task at 0x400 whose instruction accesses the word at 0x101. *)

Definition ade_demo (insn : Z) : machine bytemem :=
  mkmach (mkregs (upd (upd (repeat 0 32) 4 0x100) 2 0x12345678) 0x400 0 0x10 0x101) (mkctx (repeat 0 32) 0)
         (mkstats 0 0 0 0 0 0)
         (mkmem 0 0x1000 (store_bytes 4 0x400 insn (store_bytes 4 0x101 0xcafebabe []))) [] [] None.



(** [addiu r2, r2, 1] in the delay slot of a branch to 0x500. *)
Lemma trampoline_roundtrip_witness :
  let '(sig, m') := mips_dsemul false 0x24420001 0x500 (demo 0) in
  sig = SIGILL /\ __get_user (umem m') 4 (cp0_epc (xcp m')) = Some 0x24420001 /\
  do_ade false false false 0 true 0 [] [] 3 (set_epc (cp0_epc (xcp m') + 4) m') =
    Some (3, set_epc 0x500 (set_epc (cp0_epc (xcp m') + 4) m')).
Proof.
  destruct (mips_dsemul false 0x24420001 0x500 (demo 0)) as [sig m'] eqn:E.
  assert (sig = SIGILL) as -> by (vm_compute in E; injection E as <- _; reflexivity).
  destruct (trampoline_roundtrip false false false 0 0 [] [] 0x24420001 0x500 (demo 0) m') as [I R];
    [lia|cbn; lia|exact E|].
  split; [reflexivity|split; [exact I|apply R; reflexivity]].
Defined.

(** The comment in [do_ade] says that branch emulation is done only when the
    exception was not forwarded, but [emulate_load_store_insn] returns 0 after
    sending a signal too: a task that gets SIGBUS for [lb r2, 1(r4)] finds its
    pc past the instruction. *)
Lemma signal_advances_pc :
  do_ade true false false 0 true 7 [] [] 5 (ade_demo 0x80820001) =
    Some (5, set_epc 0x404 (send_sig SIGBUS (set_gpr 0 0 (count_error (ade_demo 0x80820001))))).
Proof. reflexivity. Qed.
