(* ===== verification/Uasm.v ===== *)
(** * The micro-assembler of the TLB handler synthesizer

    Models the first half of [arch/mips/mm/tlbex.c]: the instruction table,
    the field builders with their overflow warnings, [build_insn], labels,
    relocations, and the code that moves a finished piece of handler from one
    buffer to another.  A [u32 *] is a buffer and an index; a store outside
    of its buffer is an error of the model ([WildStore]), so that the theorems
    that exhibit a result also show that no buffer overflows.  The arrays
    [labels] and [relocs] are zeroed before use, appended to, and read up to
    the first entry with [label_invalid]: here they are the lists of the
    entries written. *)

From S2P Require Import Prelude Rounding Ieee754 Inst Machine Branch.

(** ** Instruction fields *)

Definition RS : Z := 0x001.
Definition RT : Z := 0x002.
Definition RD : Z := 0x004.
Definition RE : Z := 0x008.
Definition SIMM : Z := 0x010.
Definition UIMM : Z := 0x020.
Definition BIMM : Z := 0x040.
Definition JIMM : Z := 0x080.
Definition FUNC : Z := 0x100.
Definition SET : Z := 0x200.

Definition OP_SH : Z := 26.
Definition RS_MASK : Z := 0x1f.
Definition RS_SH : Z := 21.
Definition RT_MASK : Z := 0x1f.
Definition RT_SH : Z := 16.
Definition RD_MASK : Z := 0x1f.
Definition RD_SH : Z := 11.
Definition RE_MASK : Z := 0x1f.
Definition RE_SH : Z := 6.
Definition IMM_MASK : Z := 0xffff.
Definition JIMM_MASK : Z := 0x3ffffff.
Definition FUNC_MASK : Z := 0x2f.
Definition FUNC_SH : Z := 0.
Definition SET_MASK : Z := 0x7.

Inductive opcode :=
  | insn_invalid | insn_addu | insn_addiu | insn_and | insn_andi | insn_beq |
  insn_beql | insn_bgez | insn_bgezl | insn_bltz | insn_bltzl | insn_bne |
  insn_daddu | insn_daddiu | insn_dmfc0 | insn_dmtc0 | insn_dsll | insn_dsll32
  | insn_dsra | insn_dsrl | insn_dsrl32 | insn_dsubu | insn_eret | insn_j |
  insn_jal | insn_jr | insn_ld | insn_ll | insn_lld | insn_lui | insn_lw |
  insn_mfc0 | insn_mtc0 | insn_ori | insn_rfe | insn_sc | insn_scd | insn_sd |
  insn_sll | insn_sra | insn_srl | insn_subu | insn_sw | insn_tlbp |
  insn_tlbwi | insn_tlbwr | insn_xor | insn_xori.

Scheme Equality for opcode.

Record insn := mkinsn { i_opcode : opcode; i_match : Z; i_fields : Z }.

(** The non-variable bits of an instruction. *)
Definition M (a b c d e f : Z) : Z :=
  Z.lor (Z.lor (Z.lor (Z.lor (Z.lor (Z.shiftl a OP_SH) (Z.shiftl b RS_SH)) (Z.shiftl c RT_SH))
    (Z.shiftl d RD_SH)) (Z.shiftl e RE_SH)) (Z.shiftl f FUNC_SH).

Definition insn_table : list insn := [
  mkinsn insn_addiu (M addiu_op 0 0 0 0 0) (Z.lor (Z.lor RS RT) SIMM);
  mkinsn insn_addu (M spec_op 0 0 0 0 addu_op) (Z.lor (Z.lor RS RT) RD);
  mkinsn insn_and (M spec_op 0 0 0 0 and_op) (Z.lor (Z.lor RS RT) RD);
  mkinsn insn_andi (M andi_op 0 0 0 0 0) (Z.lor (Z.lor RS RT) UIMM);
  mkinsn insn_beq (M beq_op 0 0 0 0 0) (Z.lor (Z.lor RS RT) BIMM);
  mkinsn insn_beql (M beql_op 0 0 0 0 0) (Z.lor (Z.lor RS RT) BIMM);
  mkinsn insn_bgez (M bcond_op 0 bgez_op 0 0 0) (Z.lor RS BIMM);
  mkinsn insn_bgezl (M bcond_op 0 bgezl_op 0 0 0) (Z.lor RS BIMM);
  mkinsn insn_bltz (M bcond_op 0 bltz_op 0 0 0) (Z.lor RS BIMM);
  mkinsn insn_bltzl (M bcond_op 0 bltzl_op 0 0 0) (Z.lor RS BIMM);
  mkinsn insn_bne (M bne_op 0 0 0 0 0) (Z.lor (Z.lor RS RT) BIMM);
  mkinsn insn_daddiu (M daddiu_op 0 0 0 0 0) (Z.lor (Z.lor RS RT) SIMM);
  mkinsn insn_daddu (M spec_op 0 0 0 0 daddu_op) (Z.lor (Z.lor RS RT) RD);
  mkinsn insn_dmfc0 (M cop0_op dmfc_op 0 0 0 0) (Z.lor (Z.lor RT RD) SET);
  mkinsn insn_dmtc0 (M cop0_op dmtc_op 0 0 0 0) (Z.lor (Z.lor RT RD) SET);
  mkinsn insn_dsll (M spec_op 0 0 0 0 dsll_op) (Z.lor (Z.lor RT RD) RE);
  mkinsn insn_dsll32 (M spec_op 0 0 0 0 dsll32_op) (Z.lor (Z.lor RT RD) RE);
  mkinsn insn_dsra (M spec_op 0 0 0 0 dsra_op) (Z.lor (Z.lor RT RD) RE);
  mkinsn insn_dsrl (M spec_op 0 0 0 0 dsrl_op) (Z.lor (Z.lor RT RD) RE);
  mkinsn insn_dsrl32 (M spec_op 0 0 0 0 dsrl32_op) (Z.lor (Z.lor RT RD) RE);
  mkinsn insn_dsubu (M spec_op 0 0 0 0 dsubu_op) (Z.lor (Z.lor RS RT) RD);
  mkinsn insn_eret (M cop0_op cop_op 0 0 0 eret_op) 0;
  mkinsn insn_j (M j_op 0 0 0 0 0) JIMM;
  mkinsn insn_jal (M jal_op 0 0 0 0 0) JIMM;
  mkinsn insn_jr (M spec_op 0 0 0 0 jr_op) RS;
  mkinsn insn_ld (M ld_op 0 0 0 0 0) (Z.lor (Z.lor RS RT) SIMM);
  mkinsn insn_ll (M ll_op 0 0 0 0 0) (Z.lor (Z.lor RS RT) SIMM);
  mkinsn insn_lld (M lld_op 0 0 0 0 0) (Z.lor (Z.lor RS RT) SIMM);
  mkinsn insn_lui (M lui_op 0 0 0 0 0) (Z.lor RT SIMM);
  mkinsn insn_lw (M lw_op 0 0 0 0 0) (Z.lor (Z.lor RS RT) SIMM);
  mkinsn insn_mfc0 (M cop0_op mfc_op 0 0 0 0) (Z.lor (Z.lor RT RD) SET);
  mkinsn insn_mtc0 (M cop0_op mtc_op 0 0 0 0) (Z.lor (Z.lor RT RD) SET);
  mkinsn insn_ori (M ori_op 0 0 0 0 0) (Z.lor (Z.lor RS RT) UIMM);
  mkinsn insn_rfe (M cop0_op cop_op 0 0 0 rfe_op) 0;
  mkinsn insn_sc (M sc_op 0 0 0 0 0) (Z.lor (Z.lor RS RT) SIMM);
  mkinsn insn_scd (M scd_op 0 0 0 0 0) (Z.lor (Z.lor RS RT) SIMM);
  mkinsn insn_sd (M sd_op 0 0 0 0 0) (Z.lor (Z.lor RS RT) SIMM);
  mkinsn insn_sll (M spec_op 0 0 0 0 sll_op) (Z.lor (Z.lor RT RD) RE);
  mkinsn insn_sra (M spec_op 0 0 0 0 sra_op) (Z.lor (Z.lor RT RD) RE);
  mkinsn insn_srl (M spec_op 0 0 0 0 srl_op) (Z.lor (Z.lor RT RD) RE);
  mkinsn insn_subu (M spec_op 0 0 0 0 subu_op) (Z.lor (Z.lor RS RT) RD);
  mkinsn insn_sw (M sw_op 0 0 0 0 0) (Z.lor (Z.lor RS RT) SIMM);
  mkinsn insn_tlbp (M cop0_op cop_op 0 0 0 tlbp_op) 0;
  mkinsn insn_tlbwi (M cop0_op cop_op 0 0 0 tlbwi_op) 0;
  mkinsn insn_tlbwr (M cop0_op cop_op 0 0 0 tlbwr_op) 0;
  mkinsn insn_xor (M spec_op 0 0 0 0 xor_op) (Z.lor (Z.lor RS RT) RD);
  mkinsn insn_xori (M xori_op 0 0 0 0 0) (Z.lor (Z.lor RS RT) UIMM);
  mkinsn insn_invalid 0 0 ].

(** ** Field builders

    Each returns what it logs and the bits of the field. *)
Definition overflow : string := "TLB synthesizer field overflow".
Definition bad_target : string := "Invalid TLB synthesizer branch target".
Definition warn (b : bool) (m : string) : list string := if b then [m] else [].

Definition build_rs (arg : Z) : list string * Z :=
  (warn (tst (Z.land arg (Z.lnot RS_MASK))) overflow, Z.shiftl (Z.land arg RS_MASK) RS_SH).
Definition build_rt (arg : Z) : list string * Z :=
  (warn (tst (Z.land arg (Z.lnot RT_MASK))) overflow, Z.shiftl (Z.land arg RT_MASK) RT_SH).
Definition build_rd (arg : Z) : list string * Z :=
  (warn (tst (Z.land arg (Z.lnot RD_MASK))) overflow, Z.shiftl (Z.land arg RD_MASK) RD_SH).
Definition build_re (arg : Z) : list string * Z :=
  (warn (tst (Z.land arg (Z.lnot RE_MASK))) overflow, Z.shiftl (Z.land arg RE_MASK) RE_SH).
Definition build_simm (arg : Z) : list string * Z :=
  (warn ((arg >? 0x7fff) || (arg <? -0x8000)) overflow, Z.land arg 0xffff).
Definition build_uimm (arg : Z) : list string * Z :=
  (warn (tst (Z.land arg (Z.lnot IMM_MASK))) overflow, Z.land arg IMM_MASK).
Definition build_bimm (arg : Z) : list string * Z :=
  (warn ((arg >? 0x1ffff) || (arg <? -0x20000)) overflow
   ++ warn (tst (Z.land arg 3)) bad_target,
   Z.lor (if arg <? 0 then Z.shiftl 1 15 else 0) (Z.land (Z.shiftr arg 2) 0x7fff)).
Definition build_jimm (arg : Z) : list string * Z :=
  (warn (tst (Z.land arg (Z.lnot (Z.shiftl JIMM_MASK 2)))) overflow, Z.land (Z.shiftr arg 2) JIMM_MASK).
Definition build_func (arg : Z) : list string * Z :=
  (warn (tst (Z.land arg (Z.lnot FUNC_MASK))) overflow, Z.land arg FUNC_MASK).
Definition build_set (arg : Z) : list string * Z :=
  (warn (tst (Z.land arg (Z.lnot SET_MASK))) overflow, Z.land arg SET_MASK).

(** What a builder logs, and the bits it delivers. *)
Definition msgs (r : list string * Z) : list string := fst r.
Definition bits_of (r : list string * Z) : Z := snd r.

(** [if (ip->fields & f) op |= build(va_arg(ap, t));], where [cv] converts
    the argument to [t]. *)
Definition field (ip : insn) (f : Z) (cv : Z -> Z) (build : Z -> list string * Z)
  (s : (list string * Z) * list Z) : (list string * Z) * list Z :=
  let '((w, op), ap) := s in
  if tst (Z.land (i_fields ip) f) then
    let '(w', v) := build (cv (hd 0 ap)) in ((w ++ w', Z.lor op v), tl ap)
  else s.

Definition assemble (ip : insn) (ap : list Z) : list string * Z :=
  let u32 := wrap 32 in let s32 := swrap 32 in
  let s := (([], i_match ip), ap) in
  let s := field ip RS u32 build_rs s in
  let s := field ip RT u32 build_rt s in
  let s := field ip RD u32 build_rd s in
  let s := field ip RE u32 build_re s in
  let s := field ip SIMM s32 build_simm s in
  let s := field ip UIMM u32 build_uimm s in
  let s := field ip BIMM s32 build_bimm s in
  let s := field ip JIMM u32 build_jimm s in
  let s := field ip FUNC u32 build_func s in
  let s := field ip SET u32 build_set s in
  fst s.

(** The loop that searches the table. *)
Fixpoint find_insn (t : list insn) (opc : opcode) : option insn :=
  match t with
  | [] => None
  | ip :: t => match i_opcode ip with
    | insn_invalid => None
    | _ => if opcode_beq (i_opcode ip) opc then Some ip else find_insn t opc
    end
  end.

(** ** Buffers, labels, relocations *)

Inductive buffer := tlb_handler | final_handler | handle_tlbl | handle_tlbs | handle_tlbm.

Definition same_buffer (a b : buffer) : bool :=
  match a, b with
  | tlb_handler, tlb_handler | final_handler, final_handler | handle_tlbl, handle_tlbl
  | handle_tlbs, handle_tlbs | handle_tlbm, handle_tlbm => true
  | _, _ => false
  end.

(** Size of the buffers, in words. *)
Definition FASTPATH_SIZE : Z := 128.
Definition size (b : buffer) : Z :=
  match b with
  | tlb_handler => 128 | final_handler => 64
  | handle_tlbl | handle_tlbs | handle_tlbm => FASTPATH_SIZE
  end.

Record ptr := mkptr { pbuf : buffer; pidx : Z }.
Definition padd (p : ptr) (n : Z) : ptr := mkptr (pbuf p) (pidx p + n).
Definition peq (p q : ptr) : bool := same_buffer (pbuf p) (pbuf q) && (pidx p =? pidx q).
(** [p >= first && p < end] *)
Definition within (p first end_ : ptr) : bool :=
  same_buffer (pbuf p) (pbuf first) && (pidx first <=? pidx p) && (pidx p <? pidx end_).

Inductive label_id :=
  | label_invalid | label_second_part | label_leave | label_vmalloc | label_vmalloc_done
  | label_tlbw_hazard | label_split | label_nopage_tlbl | label_nopage_tlbs
  | label_nopage_tlbm | label_smp_pgtable_change | label_r3000_write_probe_fail.

Scheme Equality for label_id.

Record label := mklabel { l_addr : ptr; l_lab : label_id }.

Definition R_MIPS_26 : Z := 4.
Definition R_MIPS_PC16 : Z := 10.
Record reloc := mkreloc { r_addr : ptr; r_type : Z; r_lab : label_id }.

(** ** State of the synthesizer

    [at_p] is the pointer the caller passes by reference ([&p] or [&f]);
    [ebase] holds the words at the exception vector base. *)
Record synth := mksynth {
  s_tlb : list Z; s_final : list Z; s_tlbl : list Z; s_tlbs : list Z; s_tlbm : list Z;
  labels : list label; relocs : list reloc; at_p : ptr; ebase : list Z;
  warned : list string; run_once : Z }.

Definition words (s : synth) (b : buffer) : list Z :=
  match b with
  | tlb_handler => s_tlb s | final_handler => s_final s | handle_tlbl => s_tlbl s
  | handle_tlbs => s_tlbs s | handle_tlbm => s_tlbm s
  end.
Definition set_words (b : buffer) (l : list Z) (s : synth) : synth :=
  let up c old := if same_buffer b c then l else old in
  mksynth (up tlb_handler (s_tlb s)) (up final_handler (s_final s)) (up handle_tlbl (s_tlbl s))
    (up handle_tlbs (s_tlbs s)) (up handle_tlbm (s_tlbm s))
    (labels s) (relocs s) (at_p s) (ebase s) (warned s) (run_once s).
Definition set_labels (l : list label) (s : synth) : synth :=
  mksynth (s_tlb s) (s_final s) (s_tlbl s) (s_tlbs s) (s_tlbm s)
    l (relocs s) (at_p s) (ebase s) (warned s) (run_once s).
Definition set_relocs (r : list reloc) (s : synth) : synth :=
  mksynth (s_tlb s) (s_final s) (s_tlbl s) (s_tlbs s) (s_tlbm s)
    (labels s) r (at_p s) (ebase s) (warned s) (run_once s).
Definition set_p (p : ptr) (s : synth) : synth :=
  mksynth (s_tlb s) (s_final s) (s_tlbl s) (s_tlbs s) (s_tlbm s)
    (labels s) (relocs s) p (ebase s) (warned s) (run_once s).
Definition set_ebase (e : list Z) (s : synth) : synth :=
  mksynth (s_tlb s) (s_final s) (s_tlbl s) (s_tlbs s) (s_tlbm s)
    (labels s) (relocs s) (at_p s) e (warned s) (run_once s).
Definition logged (l w : list string) : list string := l ++ w.
Definition add_warned (w : list string) (s : synth) : synth :=
  mksynth (s_tlb s) (s_final s) (s_tlbl s) (s_tlbs s) (s_tlbm s)
    (labels s) (relocs s) (at_p s) (ebase s) (logged (warned s) w) (run_once s).
Definition set_run_once (n : Z) (s : synth) : synth :=
  mksynth (s_tlb s) (s_final s) (s_tlbl s) (s_tlbs s) (s_tlbm s)
    (labels s) (relocs s) (at_p s) (ebase s) (warned s) n.

(** ** The monad: [panic] does not return *)

Inductive stop := Panic (msg : string) | WildStore (b : buffer) (i : Z).
Definition Syn (A : Type) : Type := synth -> stop + (A * synth).
Definition sret {A} (a : A) : Syn A := fun s => inr (a, s).
Definition sbind {A B} (m : Syn A) (k : A -> Syn B) : Syn B := fun s =>
  match m s with inl e => inl e | inr (a, s') => k a s' end.
Definition panic {A} (msg : string) : Syn A := fun _ => inl (Panic msg).
Definition sgets {A} (f : synth -> A) : Syn A := fun s => inr (f s, s).
Definition smod (f : synth -> synth) : Syn unit := fun s => inr (tt, f s).
Definition swhen (b : bool) (m : Syn unit) : Syn unit := if b then m else sret tt.

Declare Scope syn_scope.
Delimit Scope syn_scope with syn.
Notation "x <- m ;; k" := (sbind m (fun x => k))
  (at level 62, m at next level, right associativity) : syn_scope.
Notation "m ;;; k" := (sbind m (fun _ => k))
  (at level 62, right associativity) : syn_scope.
#[local] Open Scope syn_scope.

(** [*a = v] *)
Definition store (a : ptr) (v : Z) : Syn unit := fun s =>
  if (0 <=? pidx a) && (pidx a <? size (pbuf a))
  then inr (tt, set_words (pbuf a) (upd (words s (pbuf a)) (pidx a) v) s)
  else inl (WildStore (pbuf a) (pidx a)).
Definition word_at (a : ptr) (s : synth) : Z := sel (words s (pbuf a)) (pidx a).

(** [memset(b, 0, sizeof(b))] *)
Definition clear (b : buffer) : Syn unit := smod (set_words b (repeat 0 (Z.to_nat (size b)))).

(** ** [build_insn] and the instructions *)

Definition build_insn (opc : opcode) (ap : list Z) : Syn unit :=
  match find_insn insn_table opc with
  | None => panic "Unsupported TLB synthesizer instruction"
  | Some ip =>
      smod (add_warned (msgs (assemble ip ap))) ;;;
      p <- sgets at_p ;; store p (bits_of (assemble ip ap)) ;;; smod (set_p (padd p 1))
  end.

Definition I_u1u2u3 (op : opcode) (a b c : Z) : Syn unit := build_insn op [a; b; c].
Definition I_u2u1u3 (op : opcode) (a b c : Z) : Syn unit := build_insn op [b; a; c].
Definition I_u3u1u2 (op : opcode) (a b c : Z) : Syn unit := build_insn op [b; c; a].
Definition I_u1u2s3 (op : opcode) (a b c : Z) : Syn unit := build_insn op [a; b; c].
Definition I_u2s3u1 (op : opcode) (a b c : Z) : Syn unit := build_insn op [c; a; b].
Definition I_u2u1s3 (op : opcode) (a b c : Z) : Syn unit := build_insn op [b; a; c].
Definition I_u1s2 (op : opcode) (a b : Z) : Syn unit := build_insn op [a; b].
Definition I_u1 (op : opcode) (a : Z) : Syn unit := build_insn op [a].
Definition I_0 (op : opcode) : Syn unit := build_insn op [].

Definition i_addiu := I_u2u1s3 insn_addiu.
Definition i_addu := I_u3u1u2 insn_addu.
Definition i_andi := I_u2u1u3 insn_andi.
Definition i_and := I_u3u1u2 insn_and.
Definition i_beq := I_u1u2s3 insn_beq.
Definition i_beql := I_u1u2s3 insn_beql.
Definition i_bgez := I_u1s2 insn_bgez.
Definition i_bgezl := I_u1s2 insn_bgezl.
Definition i_bltz := I_u1s2 insn_bltz.
Definition i_bltzl := I_u1s2 insn_bltzl.
Definition i_bne := I_u1u2s3 insn_bne.
Definition i_dmfc0 := I_u1u2u3 insn_dmfc0.
Definition i_dmtc0 := I_u1u2u3 insn_dmtc0.
Definition i_daddiu := I_u2u1s3 insn_daddiu.
Definition i_daddu := I_u3u1u2 insn_daddu.
Definition i_dsll := I_u2u1u3 insn_dsll.
Definition i_dsll32 := I_u2u1u3 insn_dsll32.
Definition i_dsra := I_u2u1u3 insn_dsra.
Definition i_dsrl := I_u2u1u3 insn_dsrl.
Definition i_dsrl32 := I_u2u1u3 insn_dsrl32.
Definition i_dsubu := I_u3u1u2 insn_dsubu.
Definition i_eret := I_0 insn_eret.
Definition i_j := I_u1 insn_j.
Definition i_jal := I_u1 insn_jal.
Definition i_jr := I_u1 insn_jr.
Definition i_ld := I_u2s3u1 insn_ld.
Definition i_ll := I_u2s3u1 insn_ll.
Definition i_lld := I_u2s3u1 insn_lld.
Definition i_lui := I_u1s2 insn_lui.
Definition i_lw := I_u2s3u1 insn_lw.
Definition i_mfc0 := I_u1u2u3 insn_mfc0.
Definition i_mtc0 := I_u1u2u3 insn_mtc0.
Definition i_ori := I_u2u1u3 insn_ori.
Definition i_rfe := I_0 insn_rfe.
Definition i_sc := I_u2s3u1 insn_sc.
Definition i_scd := I_u2s3u1 insn_scd.
Definition i_sd := I_u2s3u1 insn_sd.
Definition i_sll := I_u2u1u3 insn_sll.
Definition i_sra := I_u2u1u3 insn_sra.
Definition i_srl := I_u2u1u3 insn_srl.
Definition i_subu := I_u3u1u2 insn_subu.
Definition i_sw := I_u2s3u1 insn_sw.
Definition i_tlbp := I_0 insn_tlbp.
Definition i_tlbwi := I_0 insn_tlbwi.
Definition i_tlbwr := I_0 insn_tlbwr.
Definition i_xor := I_u3u1u2 insn_xor.
Definition i_xori := I_u2u1u3 insn_xori.

Definition i_b (off : Z) : Syn unit := i_beq 0 0 off.
Definition i_beqz (rs off : Z) : Syn unit := i_beq rs 0 off.
Definition i_beqzl (rs off : Z) : Syn unit := i_beql rs 0 off.
Definition i_bnez (rs off : Z) : Syn unit := i_bne rs 0 off.
Definition i_nop : Syn unit := i_sll 0 0 0.
Definition i_ssnop : Syn unit := i_sll 0 0 1.
Definition i_ehb : Syn unit := i_sll 0 0 3.

(** ** Labels *)

Definition build_label (addr : ptr) (l : label_id) : Syn unit :=
  smod (fun s => set_labels (labels s ++ [mklabel addr l]) s).

(** [l##lb(l, *p)] *)
Definition l_here (l : label_id) : Syn unit := p <- sgets at_p ;; build_label p l.

(** ** Relocations *)

Definition r_mips_pc16 (addr : ptr) (l : label_id) : Syn unit :=
  smod (fun s => set_relocs (relocs s ++ [mkreloc addr R_MIPS_PC16 l]) s).

Section Link.

(** Where the linker put the buffers. *)
Variable base : buffer -> Z.

(** [(long)a - (long)b]; in one buffer its position does not matter. *)
Definition addr_of (a : ptr) : Z := base (pbuf a) + 4 * pidx a.
Definition diff (a b : ptr) : Z :=
  if same_buffer (pbuf a) (pbuf b) then 4 * (pidx a - pidx b) else addr_of a - addr_of b.

(** [*rel->addr |= ...] *)
Definition patch (old v : Z) : Z := Z.lor old v.

Definition __resolve_relocs (rel : reloc) (lab : label) : Syn unit :=
  if r_type rel =? R_MIPS_PC16 then
    let v := build_bimm (swrap 32 (diff (l_addr lab) (padd (r_addr rel) 1))) in
    smod (add_warned (msgs v)) ;;;
    old <- sgets (word_at (r_addr rel)) ;; store (r_addr rel) (patch old (bits_of v))
  else panic "Unsupported TLB synthesizer relocation".

Fixpoint resolve_one (rel : reloc) (ls : list label) : Syn unit :=
  match ls with
  | [] => sret tt
  | l :: ls =>
      swhen (label_id_beq (r_lab rel) (l_lab l)) (__resolve_relocs rel l) ;;; resolve_one rel ls
  end.
Fixpoint resolve_all (rs : list reloc) (ls : list label) : Syn unit :=
  match rs with
  | [] => sret tt
  | rel :: rs => resolve_one rel ls ;;; resolve_all rs ls
  end.
Definition resolve_relocs : Syn unit :=
  rs <- sgets relocs ;; ls <- sgets labels ;; resolve_all rs ls.
End Link.

(** A displacement [target - first] takes a pointer from [first]'s buffer into
    [target]'s. *)
Record disp := mkdisp { d_buf : buffer; d_by : Z }.
Definition pdiff (target first : ptr) : disp := mkdisp (pbuf target) (pidx target - pidx first).
Definition pmove (p : ptr) (off : disp) : ptr := mkptr (d_buf off) (pidx p + d_by off).

Definition move_relocs (first end_ : ptr) (off : disp) : Syn unit :=
  smod (fun s => set_relocs (map (fun r =>
    if within (r_addr r) first end_ then mkreloc (pmove (r_addr r) off) (r_type r) (r_lab r) else r)
    (relocs s)) s).
Definition move_labels (first end_ : ptr) (off : disp) : Syn unit :=
  smod (fun s => set_labels (map (fun l =>
    if within (l_addr l) first end_ then mklabel (pmove (l_addr l) off) (l_lab l) else l)
    (labels s)) s).

(** [memcpy] of [n] words. *)
Fixpoint copy_words (n : nat) (target first : ptr) : Syn unit :=
  match n with
  | O => sret tt
  | S n => v <- sgets (word_at first) ;; store target v ;;; copy_words n (padd target 1) (padd first 1)
  end.

Definition copy_handler (first end_ target : ptr) : Syn unit :=
  let off := pdiff target first in
  copy_words (Z.to_nat (pidx end_ - pidx first)) target first ;;;
  move_relocs first end_ off ;;; move_labels first end_ off.

Definition insn_has_bdelay (rel : list reloc) (addr : ptr) : bool :=
  existsb (fun r => peq (r_addr r) addr && ((r_type r =? R_MIPS_PC16) || (r_type r =? R_MIPS_26))) rel.

(** ** Labelled branches *)

Definition il (br : Z -> Syn unit) (l : label_id) : Syn unit :=
  p <- sgets at_p ;; r_mips_pc16 p l ;;; br 0.
Definition il_bltz (reg : Z) : label_id -> Syn unit := il (i_bltz reg).
Definition il_b : label_id -> Syn unit := il i_b.
Definition il_beqz (reg : Z) : label_id -> Syn unit := il (i_beqz reg).
Definition il_beqzl (reg : Z) : label_id -> Syn unit := il (i_beqzl reg).
Definition il_bnez (reg : Z) : label_id -> Syn unit := il (i_bnez reg).
Definition il_bgezl (reg : Z) : label_id -> Syn unit := il (i_bgezl reg).

(** ** Addresses in pieces *)

Definition in_compat_space_p (addr : Z) : bool :=
  Z.land (wrap 64 addr) 0xffffffff00000000 =? 0xffffffff00000000.
Definition rel_highest (val : Z) : Z :=
  Z.lxor (Z.land (Z.shiftr (val + 0x800080008000) 48) 0xffff) 0x8000 - 0x8000.
Definition rel_higher (val : Z) : Z :=
  Z.lxor (Z.land (Z.shiftr (val + 0x80008000) 32) 0xffff) 0x8000 - 0x8000.
Definition rel_hi (val : Z) : Z :=
  Z.lxor (Z.land (Z.shiftr (val + 0x8000) 16) 0xffff) 0x8000 - 0x8000.
Definition rel_lo (val : Z) : Z := Z.lxor (Z.land val 0xffff) 0x8000 - 0x8000.

Section Convenience.
Variable CONFIG_64BIT : bool.

Definition i_LW := if CONFIG_64BIT then i_ld else i_lw.
Definition i_SW := if CONFIG_64BIT then i_sd else i_sw.
Definition i_SRL := if CONFIG_64BIT then i_dsrl else i_srl.
Definition i_MFC0 := if CONFIG_64BIT then i_dmfc0 else i_mfc0.
Definition i_ADDIU := if CONFIG_64BIT then i_daddiu else i_addiu.
Definition i_ADDU := if CONFIG_64BIT then i_daddu else i_addu.
Definition i_LL := if CONFIG_64BIT then i_lld else i_ll.
Definition i_SC := if CONFIG_64BIT then i_scd else i_sc.

Definition i_LA_mostly (rs addr : Z) : Syn unit :=
  if CONFIG_64BIT && negb (in_compat_space_p addr) then
    i_lui rs (rel_highest addr) ;;;
    swhen (tst (rel_higher addr)) (i_daddiu rs rs (rel_higher addr)) ;;;
    if tst (rel_hi addr) then
      i_dsll rs rs 16 ;;; i_daddiu rs rs (rel_hi addr) ;;; i_dsll rs rs 16
    else i_dsll32 rs rs 0
  else i_lui rs (rel_hi addr).

Definition i_LA (rs addr : Z) : Syn unit :=
  i_LA_mostly rs addr ;;; swhen (tst (rel_lo addr)) (i_ADDIU rs rs (rel_lo addr)).
End Convenience.
