(* ===== verification/UasmProps.v ===== *)
(** * Correctness of the micro-assembler

    [decode] reads an instruction word the way the architecture defines it.
    Every instruction of the table, with arguments that fit their fields, is
    assembled to a word that decodes to it, without a warning; patching a
    branch with a relocation gives the branch with that offset; the pieces of
    an address that [rel_hi] and its companions deliver reassemble it. *)

From S2P Require Import Prelude Rounding Ieee754 Inst Machine Branch Uasm.

(** ** Decoding

    The arguments are the fields in the order of [build_insn]; branch offsets
    and jump targets are in bytes. *)
Section Decode.
Variable w : Z.
Let rs := MIPSInst_RS w.
Let rt := MIPSInst_RT w.
Let rd := MIPSInst_RD w.
Let re := MIPSInst_FD w.
Let simm := MIPSInst_SIMM w.
Let uimm := Z.land w 0xffff.

Definition decode_spec (func : Z) : option (opcode * list Z) :=
  match func with
  | 0 => Some (insn_sll, [rt; rd; re])
  | 2 => Some (insn_srl, [rt; rd; re])
  | 3 => Some (insn_sra, [rt; rd; re])
  | 8 => Some (insn_jr, [rs])
  | 33 => Some (insn_addu, [rs; rt; rd])
  | 35 => Some (insn_subu, [rs; rt; rd])
  | 36 => Some (insn_and, [rs; rt; rd])
  | 38 => Some (insn_xor, [rs; rt; rd])
  | 45 => Some (insn_daddu, [rs; rt; rd])
  | 47 => Some (insn_dsubu, [rs; rt; rd])
  | 56 => Some (insn_dsll, [rt; rd; re])
  | 58 => Some (insn_dsrl, [rt; rd; re])
  | 59 => Some (insn_dsra, [rt; rd; re])
  | 60 => Some (insn_dsll32, [rt; rd; re])
  | 62 => Some (insn_dsrl32, [rt; rd; re])
  | _ => None
  end.

Definition decode_bcond (cond : Z) : option (opcode * list Z) :=
  match cond with
  | 0 => Some (insn_bltz, [rs; 4 * simm])
  | 1 => Some (insn_bgez, [rs; 4 * simm])
  | 2 => Some (insn_bltzl, [rs; 4 * simm])
  | 3 => Some (insn_bgezl, [rs; 4 * simm])
  | _ => None
  end.

Definition decode_cop0 (sub func : Z) : option (opcode * list Z) :=
  match sub with
  | 0 => Some (insn_mfc0, [rt; rd; Z.land w 7])
  | 1 => Some (insn_dmfc0, [rt; rd; Z.land w 7])
  | 4 => Some (insn_mtc0, [rt; rd; Z.land w 7])
  | 5 => Some (insn_dmtc0, [rt; rd; Z.land w 7])
  | 16 => match func with
    | 2 => Some (insn_tlbwi, [])
    | 6 => Some (insn_tlbwr, [])
    | 8 => Some (insn_tlbp, [])
    | 16 => Some (insn_rfe, [])
    | 24 => Some (insn_eret, [])
    | _ => None
    end
  | _ => None
  end.

Definition decode_major (op : Z) : option (opcode * list Z) :=
  match op with
  | 0 => decode_spec (MIPSInst_FUNC w)
  | 1 => decode_bcond rt
  | 2 => Some (insn_j, [4 * MIPSInst_JTARGET w])
  | 3 => Some (insn_jal, [4 * MIPSInst_JTARGET w])
  | 4 => Some (insn_beq, [rs; rt; 4 * simm])
  | 5 => Some (insn_bne, [rs; rt; 4 * simm])
  | 9 => Some (insn_addiu, [rs; rt; simm])
  | 12 => Some (insn_andi, [rs; rt; uimm])
  | 13 => Some (insn_ori, [rs; rt; uimm])
  | 14 => Some (insn_xori, [rs; rt; uimm])
  | 15 => Some (insn_lui, [rt; simm])
  | 16 => decode_cop0 rs (MIPSInst_FUNC w)
  | 20 => Some (insn_beql, [rs; rt; 4 * simm])
  | 25 => Some (insn_daddiu, [rs; rt; simm])
  | 35 => Some (insn_lw, [rs; rt; simm])
  | 43 => Some (insn_sw, [rs; rt; simm])
  | 48 => Some (insn_ll, [rs; rt; simm])
  | 52 => Some (insn_lld, [rs; rt; simm])
  | 55 => Some (insn_ld, [rs; rt; simm])
  | 56 => Some (insn_sc, [rs; rt; simm])
  | 60 => Some (insn_scd, [rs; rt; simm])
  | 63 => Some (insn_sd, [rs; rt; simm])
  | _ => None
  end.

Definition decode : option (opcode * list Z) := decode_major (MIPSInst_OPCODE w).
End Decode.

(** ** Words as sums of fields *)

Lemma M_sum a b c d e f : 0 <= b < 32 -> 0 <= c < 32 -> 0 <= d < 32 -> 0 <= e < 32 -> 0 <= f < 64 ->
  M a b c d e f = a * 2 ^ 26 + b * 2 ^ 21 + c * 2 ^ 16 + d * 2 ^ 11 + e * 2 ^ 6 + f.
Proof.
  intros; unfold M, OP_SH, RS_SH, RT_SH, RD_SH, RE_SH, FUNC_SH; rewrite !Z.shiftl_mul_pow2 by lia.
  rewrite (lor_concat a) by lia.
  replace (a * 2 ^ 26 + b * 2 ^ 21) with ((a * 32 + b) * 2 ^ 21) by lia; rewrite lor_concat by lia.
  replace ((a * 32 + b) * 2 ^ 21 + c * 2 ^ 16) with (((a * 32 + b) * 32 + c) * 2 ^ 16) by lia.
  rewrite lor_concat by lia.
  replace (((a * 32 + b) * 32 + c) * 2 ^ 16 + d * 2 ^ 11) with ((((a * 32 + b) * 32 + c) * 32 + d) * 2 ^ 11) by lia.
  rewrite lor_concat by lia.
  replace ((((a * 32 + b) * 32 + c) * 32 + d) * 2 ^ 11 + e * 2 ^ 6)
    with (((((a * 32 + b) * 32 + c) * 32 + d) * 32 + e) * 2 ^ 6) by lia.
  rewrite lor_concat by lia; lia.
Qed.

Lemma M_imm a b c f : 0 <= b < 32 -> 0 <= c < 32 -> 0 <= f < 2 ^ 16 ->
  M a b c 0 0 f = a * 2 ^ 26 + b * 2 ^ 21 + c * 2 ^ 16 + f.
Proof.
  intros; unfold M, OP_SH, RS_SH, RT_SH, FUNC_SH; rewrite !Z.shiftl_0_l, !Z.lor_0_r.
  rewrite !Z.shiftl_mul_pow2 by lia; rewrite (lor_concat a) by lia.
  replace (a * 2 ^ 26 + b * 2 ^ 21) with ((a * 32 + b) * 2 ^ 21) by lia; rewrite lor_concat by lia.
  replace ((a * 32 + b) * 2 ^ 21 + c * 2 ^ 16) with (((a * 32 + b) * 32 + c) * 2 ^ 16) by lia.
  rewrite lor_concat by lia; lia.
Qed.

Lemma M_jump a f : 0 <= f < 2 ^ 26 -> M a 0 0 0 0 f = a * 2 ^ 26 + f.
Proof.
  intros; unfold M, OP_SH, FUNC_SH; rewrite !Z.shiftl_0_l, !Z.lor_0_r.
  rewrite !Z.shiftl_mul_pow2 by lia; rewrite (lor_concat a) by lia; lia.
Qed.

(** A masked field of a word is a quotient and a remainder. *)
Lemma land_field w k n : 0 <= k -> 0 <= n ->
  Z.shiftr (Z.land w (Z.shiftl (Z.ones n) k)) k = (w / 2 ^ k) mod 2 ^ n.
Proof.
  intros; rewrite Z.shiftr_land, Z.shiftr_shiftl_l, Z.sub_diag, Z.shiftl_0_r by lia.
  rewrite Z.land_ones by lia; now rewrite Z.shiftr_div_pow2 by lia.
Qed.

Lemma field_rs w : MIPSInst_RS w = (w / 2 ^ 21) mod 32.
Proof. exact (land_field w 21 5 ltac:(lia) ltac:(lia)). Qed.
Lemma field_rt w : MIPSInst_RT w = (w / 2 ^ 16) mod 32.
Proof. exact (land_field w 16 5 ltac:(lia) ltac:(lia)). Qed.
Lemma field_rd w : MIPSInst_RD w = (w / 2 ^ 11) mod 32.
Proof. exact (land_field w 11 5 ltac:(lia) ltac:(lia)). Qed.
Lemma field_re w : MIPSInst_FD w = (w / 2 ^ 6) mod 32.
Proof. exact (land_field w 6 5 ltac:(lia) ltac:(lia)). Qed.
Lemma field_op w : MIPSInst_OPCODE w = w / 2 ^ 26.
Proof. unfold MIPSInst_OPCODE; apply shiftr_div; lia. Qed.
Lemma field_func w : MIPSInst_FUNC w = w mod 64.
Proof. exact (land_mask w 6 ltac:(lia)). Qed.
Lemma field_sel w : Z.land w 7 = w mod 8.
Proof. exact (land_mask w 3 ltac:(lia)). Qed.
Lemma field_uimm w : Z.land w 65535 = w mod 2 ^ 16.
Proof. exact (land_mask w 16 ltac:(lia)). Qed.
Lemma field_simm w : MIPSInst_SIMM w = swrap 16 w.
Proof.
  unfold MIPSInst_SIMM, swrap; change 0xffff with (2 ^ 16 - 1).
  rewrite land_mask by lia; now rewrite Z.mod_mod by lia.
Qed.
Lemma field_target w : MIPSInst_JTARGET w = w mod 2 ^ 26.
Proof. exact (land_mask w 26 ltac:(lia)). Qed.

Create Rewrite HintDb fields.
#[export] Hint Rewrite field_rs field_rt field_rd field_re field_op field_func field_sel field_uimm
  field_simm field_target : fields.

(** ** Filling the fields of a word *)

Ltac or_bits := unfold M, FUNC_SH; rewrite ?Z.shiftl_0_l, ?Z.shiftl_0_r; apply Z.bits_inj; intros i;
  rewrite ?Z.lor_spec, ?Z.bits_0;
  repeat match goal with |- context [Z.testbit ?x ?j] => destruct (Z.testbit x j) end; reflexivity.

Lemma M_rs a c d e f x : Z.lor (M a 0 c d e f) (Z.shiftl x RS_SH) = M a x c d e f.
Proof. or_bits. Qed.
Lemma M_rt a b d e f x : Z.lor (M a b 0 d e f) (Z.shiftl x RT_SH) = M a b x d e f.
Proof. or_bits. Qed.
Lemma M_rd a b c e f x : Z.lor (M a b c 0 e f) (Z.shiftl x RD_SH) = M a b c x e f.
Proof. or_bits. Qed.
Lemma M_re a b c d f x : Z.lor (M a b c d 0 f) (Z.shiftl x RE_SH) = M a b c d x f.
Proof. or_bits. Qed.
Lemma M_low a b c d e x : Z.lor (M a b c d e 0) x = M a b c d e x.
Proof. or_bits. Qed.

(** ** Arguments that fit *)

Definition fits (f x : Z) : bool :=
  if one_of f [RS; RT; RD; RE] then (0 <=? x) && (x <? 32)
  else if f =? SIMM then (-0x8000 <=? x) && (x <=? 0x7fff)
  else if f =? UIMM then (0 <=? x) && (x <=? 0xffff)
  else if f =? BIMM then (-0x20000 <=? x) && (x <=? 0x1ffff) && (x mod 4 =? 0)
  else if f =? JIMM then (0 <=? x) && (x <? 0x10000000) && (x mod 4 =? 0)
  else if f =? SET then (0 <=? x) && (x <? 8)
  else (0 <=? x) && (x <? 64).

Fixpoint fit (fs : list Z) (ip : insn) (ap : list Z) : bool :=
  match fs with
  | [] => match ap with [] => true | _ => false end
  | f :: fs =>
      if tst (Z.land (i_fields ip) f) then
        match ap with x :: ap => fits f x && fit fs ip ap | [] => false end
      else fit fs ip ap
  end.

(** The arguments of an instruction: as many as it has fields, each in its
    range. *)
Definition args_fit : insn -> list Z -> bool := fit [RS; RT; RD; RE; SIMM; UIMM; BIMM; JIMM; FUNC; SET].

Lemma mask_fits x n m : 0 <= n -> m = 2 ^ n - 1 -> 0 <= x < 2 ^ n ->
  warn (tst (Z.land x (Z.lnot m))) overflow = [] /\ Z.land x m = x.
Proof.
  intros Hn -> Hx; rewrite land_mask, Z.mod_small by lia; split; [|reflexivity].
  replace (Z.land x (Z.lnot (2 ^ n - 1))) with 0; [reflexivity|].
  replace (2 ^ n - 1) with (Z.ones n) by (rewrite Z.ones_equiv; lia).
  rewrite <- Z.ldiff_land, Z.ldiff_ones_r, Z.shiftr_div_pow2, Z.div_small, Z.shiftl_0_l by lia; reflexivity.
Qed.

Section Builders.
Variable x : Z.

Lemma build_reg_fits sh : 0 <= x < 32 ->
  (warn (tst (Z.land (wrap 32 x) (Z.lnot 31))) overflow, Z.shiftl (Z.land (wrap 32 x) 31) sh)
  = ([], Z.shiftl x sh).
Proof.
  intros H; rewrite wrap_small by lia.
  destruct (mask_fits x 5 31) as [-> ->]; [lia|reflexivity|lia|reflexivity].
Qed.

Lemma build_simm_fits : -32768 <= x <= 32767 -> build_simm (swrap 32 x) = ([], x mod 2 ^ 16).
Proof.
  intros H; replace (swrap 32 x) with x by (unfold swrap; case_if; divmod).
  unfold build_simm; change 0xffff with (2 ^ 16 - 1); rewrite land_mask by lia; f_equal.
  destruct (x >? 32767) eqn:A; zbool; [lia|]; destruct (x <? -32768) eqn:B; zbool; [lia|reflexivity].
Qed.

Lemma build_uimm_fits : 0 <= x <= 65535 -> build_uimm (wrap 32 x) = ([], x).
Proof.
  intros H; rewrite wrap_small by lia; unfold build_uimm.
  destruct (mask_fits x 16 IMM_MASK) as [-> ->]; [lia|reflexivity|lia|reflexivity].
Qed.

Lemma build_set_fits : 0 <= x < 8 -> build_set (wrap 32 x) = ([], x).
Proof.
  intros H; rewrite wrap_small by lia; unfold build_set.
  destruct (mask_fits x 3 SET_MASK) as [-> ->]; [lia|reflexivity|lia|reflexivity].
Qed.

(** The sign bit and the 15 low bits of a branch offset are its 16 low bits. *)
Lemma build_bimm_fits : -131072 <= x <= 131071 -> x mod 4 = 0 ->
  build_bimm x = ([], (x / 4) mod 2 ^ 16).
Proof.
  intros H H4; unfold build_bimm.
  replace (Z.land x 3) with 0 by (change 3 with (2 ^ 2 - 1); rewrite land_mask by lia; symmetry; exact H4).
  replace ((x >? 131071) || (x <? -131072)) with false
    by (symmetry; apply orb_false_intro; [rewrite Z.gtb_ltb|]; apply Z.ltb_ge; lia).
  cbn [warn tst app Z.eqb negb]; f_equal; rewrite shiftr_div by lia; change (2 ^ 2) with 4.
  change 0x7fff with (2 ^ 15 - 1); rewrite land_mask by lia; case_if.
  - change (Z.shiftl 1 15) with (1 * 2 ^ 15); rewrite lor_concat by (lia || divmod); divmod.
  - rewrite Z.lor_0_l; divmod.
Qed.

Lemma build_jimm_fits : 0 <= x < 2 ^ 28 -> x mod 4 = 0 -> build_jimm (wrap 32 x) = ([], x / 4).
Proof.
  intros H H4; rewrite wrap_small by lia; unfold build_jimm.
  rewrite shiftr_div by lia; change JIMM_MASK with (2 ^ 26 - 1) at 2; rewrite land_mask by lia.
  rewrite (Z.mod_small (x / 2 ^ 2)) by divmod; f_equal.
  replace (Z.land x (Z.lnot (Z.shiftl JIMM_MASK 2))) with 0; [reflexivity|].
  symmetry; apply Z.bits_inj; intros i; rewrite Z.land_spec, Z.bits_0.
  destruct (Z.lt_ge_cases i 0); [now rewrite Z.testbit_neg_r by lia|].
  rewrite Z.lnot_spec, Z.shiftl_spec by lia.
  destruct (Z.lt_ge_cases i 28); [|rewrite (testbit_high x 28) by lia; reflexivity].
  destruct (Z.lt_ge_cases i 2).
  - replace (Z.testbit x i) with false; [reflexivity|].
    rewrite <- (Z.mod_pow2_bits_low x 2) by lia; change (2 ^ 2) with 4; now rewrite H4, Z.bits_0.
  - change JIMM_MASK with (Z.ones 26); rewrite Z.ones_spec_low by lia; apply andb_false_r.
Qed.
End Builders.

Lemma build_bimm_arg x : -32768 <= x <= 32767 -> build_bimm (swrap 32 (4 * x)) = ([], x mod 2 ^ 16).
Proof.
  intros H; replace (swrap 32 (4 * x)) with (4 * x) by (unfold swrap; case_if; divmod).
  rewrite build_bimm_fits by (lia || divmod); do 2 f_equal; divmod.
Qed.

Lemma build_jimm_arg x : 0 <= x < 2 ^ 26 -> build_jimm (wrap 32 (4 * x)) = ([], x).
Proof. intros H; rewrite build_jimm_fits by (lia || divmod); f_equal; divmod. Qed.

(** ** Round trip *)

Lemma find_insn_In t op ip : find_insn t op = Some ip ->
  In ip t /\ i_opcode ip = op /\ i_opcode ip <> insn_invalid.
Proof.
  induction t as [|i t IH]; cbn [find_insn]; [discriminate|]; intros H.
  assert (K : i_opcode i <> insn_invalid /\
    (if opcode_beq (i_opcode i) op then Some i else find_insn t op) = Some ip)
    by (destruct (i_opcode i); (discriminate H || (split; [discriminate|exact H]))).
  destruct K as [Hn K]; destruct (opcode_beq (i_opcode i) op) eqn:E.
  - injection K as <-; apply internal_opcode_dec_bl in E; repeat split; [now left|exact E|exact Hn].
  - destruct (IH K) as (?&?&?); repeat split; [now right|assumption..].
Qed.

(** Evaluate the tests of an instruction's fields. *)
Ltac eval_fields := repeat match goal with
  | |- context [tst (Z.land (i_fields ?ip) ?f)] =>
      let b := eval vm_compute in (tst (Z.land (i_fields ip) f)) in
      change (tst (Z.land (i_fields ip) f)) with b
  | H : context [tst (Z.land (i_fields ?ip) ?f)] |- _ =>
      let b := eval vm_compute in (tst (Z.land (i_fields ip) f)) in
      change (tst (Z.land (i_fields ip) f)) with b in H
  end; cbv beta iota in *.

Ltac take_args := repeat match goal with
  | H : match ?l with [] => _ | _ => _ end = true |- _ => destruct l; try discriminate H
  | H : (_ && _)%bool = true |- _ => apply andb_prop in H; destruct H
  | H : fits ?f ?x = true |- _ =>
      unfold fits in H; cbn [one_of existsb] in H;
      repeat match type of H with context [f =? ?g] =>
        let b := eval vm_compute in (f =? g) in change (f =? g) with b in H end;
      cbn [orb] in H; zbool
  | H : ?x mod 4 = 0 |- _ =>
      let k := fresh "k" in destruct (Z.mod_divide x 4 ltac:(lia)) as [D _];
      destruct (D H) as [k ->]; clear D H; rewrite (Z.mul_comm k 4) in *
  end.


Section Fields.
Variables (ip : insn) (w : list string) (op x : Z) (ap : list Z).

Lemma field_skip f cv b : tst (Z.land (i_fields ip) f) = false ->
  field ip f cv b ((w, op), ap) = ((w, op), ap).
Proof. unfold field; now intros ->. Qed.

Lemma field_take f cv b v : tst (Z.land (i_fields ip) f) = true -> b (cv x) = ([], v) ->
  field ip f cv b ((w, op), x :: ap) = ((w, Z.lor op v), ap).
Proof. unfold field; intros ->; cbn [hd tl]; intros ->; now rewrite app_nil_r. Qed.
End Fields.

(** Assemble an instruction whose arguments are known to fit. *)
Ltac assembled :=
  unfold assemble; cbv zeta; cbn [i_match];
  repeat first
   [ rewrite field_skip by reflexivity
   | erewrite (field_take _ _ _ _ _ RS) by (reflexivity || (apply build_reg_fits; lia))
   | erewrite (field_take _ _ _ _ _ RT) by (reflexivity || (apply build_reg_fits; lia))
   | erewrite (field_take _ _ _ _ _ RD) by (reflexivity || (apply build_reg_fits; lia))
   | erewrite (field_take _ _ _ _ _ RE) by (reflexivity || (apply build_reg_fits; lia))
   | erewrite (field_take _ _ _ _ _ SIMM) by (reflexivity || (apply build_simm_fits; lia))
   | erewrite (field_take _ _ _ _ _ UIMM) by (reflexivity || (apply build_uimm_fits; lia))
   | erewrite (field_take _ _ _ _ _ SET) by (reflexivity || (apply build_set_fits; lia))
   | erewrite (field_take _ _ _ _ _ BIMM) by (reflexivity || (apply build_bimm_arg; lia))
   | erewrite (field_take _ _ _ _ _ JIMM) by (reflexivity || (apply build_jimm_arg; lia)) ];
  cbn [fst]; rewrite ?M_rs, ?M_rt, ?M_rd, ?M_re, ?M_low; reflexivity.

Ltac enc_tac := let H := fresh in
  intros H; match goal with ip := _ : insn |- _ => subst ip end;
  unfold args_fit, fit in H; eval_fields; take_args;
  repeat eexists; try lia; assembled.

(** One lemma for each combination of fields in the table. *)
Section Formats.
Variables (o : opcode) (a b c f : Z) (args : list Z).

Lemma enc_rs_rt_simm (ip := mkinsn o (M a 0 0 0 0 0) (Z.lor (Z.lor RS RT) SIMM)) :
  args_fit ip args = true ->
  exists s t i, args = [s; t; i] /\ 0 <= s < 32 /\ 0 <= t < 32 /\ -32768 <= i <= 32767 /\
  assemble ip args = ([], M a s t 0 0 (i mod 2 ^ 16)).
Proof. enc_tac. Qed.

Lemma enc_rs_rt_uimm (ip := mkinsn o (M a 0 0 0 0 0) (Z.lor (Z.lor RS RT) UIMM)) :
  args_fit ip args = true ->
  exists s t i, args = [s; t; i] /\ 0 <= s < 32 /\ 0 <= t < 32 /\ 0 <= i <= 65535 /\
  assemble ip args = ([], M a s t 0 0 i).
Proof. enc_tac. Qed.

Lemma enc_rs_rt_bimm (ip := mkinsn o (M a 0 0 0 0 0) (Z.lor (Z.lor RS RT) BIMM)) :
  args_fit ip args = true ->
  exists s t i, args = [s; t; 4 * i] /\ 0 <= s < 32 /\ 0 <= t < 32 /\ -32768 <= i <= 32767 /\
  assemble ip args = ([], M a s t 0 0 (i mod 2 ^ 16)).
Proof. enc_tac. Qed.

Lemma enc_rs_bimm (ip := mkinsn o (M a 0 c 0 0 0) (Z.lor RS BIMM)) :
  args_fit ip args = true ->
  exists s i, args = [s; 4 * i] /\ 0 <= s < 32 /\ -32768 <= i <= 32767 /\
  assemble ip args = ([], M a s c 0 0 (i mod 2 ^ 16)).
Proof. enc_tac. Qed.

Lemma enc_rs_rt_rd (ip := mkinsn o (M a 0 0 0 0 f) (Z.lor (Z.lor RS RT) RD)) :
  args_fit ip args = true ->
  exists s t d, args = [s; t; d] /\ 0 <= s < 32 /\ 0 <= t < 32 /\ 0 <= d < 32 /\
  assemble ip args = ([], M a s t d 0 f).
Proof. enc_tac. Qed.

Lemma enc_rt_rd_re (ip := mkinsn o (M a 0 0 0 0 f) (Z.lor (Z.lor RT RD) RE)) :
  args_fit ip args = true ->
  exists t d e, args = [t; d; e] /\ 0 <= t < 32 /\ 0 <= d < 32 /\ 0 <= e < 32 /\
  assemble ip args = ([], M a 0 t d e f).
Proof. enc_tac. Qed.

Lemma enc_rt_rd_set (ip := mkinsn o (M a b 0 0 0 0) (Z.lor (Z.lor RT RD) SET)) :
  args_fit ip args = true ->
  exists t d e, args = [t; d; e] /\ 0 <= t < 32 /\ 0 <= d < 32 /\ 0 <= e < 8 /\
  assemble ip args = ([], M a b t d 0 e).
Proof. enc_tac. Qed.

Lemma enc_rt_simm (ip := mkinsn o (M a 0 0 0 0 0) (Z.lor RT SIMM)) :
  args_fit ip args = true ->
  exists t i, args = [t; i] /\ 0 <= t < 32 /\ -32768 <= i <= 32767 /\
  assemble ip args = ([], M a 0 t 0 0 (i mod 2 ^ 16)).
Proof. enc_tac. Qed.

Lemma enc_rs (ip := mkinsn o (M a 0 0 0 0 f) RS) :
  args_fit ip args = true ->
  exists s, args = [s] /\ 0 <= s < 32 /\ assemble ip args = ([], M a s 0 0 0 f).
Proof. enc_tac. Qed.

Lemma enc_jimm (ip := mkinsn o (M a 0 0 0 0 0) JIMM) :
  args_fit ip args = true ->
  exists t, args = [4 * t] /\ 0 <= t < 2 ^ 26 /\ assemble ip args = ([], M a 0 0 0 0 t).
Proof. enc_tac. Qed.

Lemma enc_none (ip := mkinsn o (M a b 0 0 0 f) 0) :
  args_fit ip args = true -> args = [] /\ assemble ip args = ([], M a b 0 0 0 f).
Proof. enc_tac. Qed.
End Formats.

(** Fields of an assembled word. *)
Lemma fields_imm a s t i (w := M a s t 0 0 i) : 0 <= s < 32 -> 0 <= t < 32 -> 0 <= i < 2 ^ 16 ->
  MIPSInst_OPCODE w = a /\ MIPSInst_RS w = s /\ MIPSInst_RT w = t /\
  MIPSInst_SIMM w = swrap 16 i /\ Z.land w 0xffff = i.
Proof.
  intros; subst w; rewrite M_imm by lia; autorewrite with fields.
  repeat split; try divmod; unfold swrap.
  replace ((a * 2 ^ 26 + s * 2 ^ 21 + t * 2 ^ 16 + i) mod 2 ^ 16) with (i mod 2 ^ 16) by divmod.
  reflexivity.
Qed.

Lemma fields_reg a s t d e f (w := M a s t d e f) :
  0 <= s < 32 -> 0 <= t < 32 -> 0 <= d < 32 -> 0 <= e < 32 -> 0 <= f < 64 ->
  MIPSInst_OPCODE w = a /\ MIPSInst_RS w = s /\ MIPSInst_RT w = t /\ MIPSInst_RD w = d /\
  MIPSInst_FD w = e /\ MIPSInst_FUNC w = f /\ Z.land w 7 = f mod 8.
Proof.
  intros; subst w; rewrite M_sum by lia; autorewrite with fields.
  repeat split; divmod.
Qed.

Lemma fields_jump a t (w := M a 0 0 0 0 t) : 0 <= t < 2 ^ 26 ->
  MIPSInst_OPCODE w = a /\ MIPSInst_JTARGET w = t.
Proof.
  intros; subst w; rewrite M_jump by lia; autorewrite with fields.
  split; divmod.
Qed.

Lemma swrap_mod16 i : -32768 <= i <= 32767 -> swrap 16 (i mod 2 ^ 16) = i.
Proof. intros; unfold swrap; rewrite Z.mod_mod by lia; case_if; divmod. Qed.

Ltac round_trip_imm :=
  let Fo := fresh in let Fs := fresh in let Ft := fresh in let Fi := fresh in let Fu := fresh in
  match goal with |- context [M ?a ?s ?t 0 0 ?i] =>
    destruct (fields_imm a s t i ltac:(lia || closed) ltac:(lia || closed) ltac:(lia || (apply Z.mod_pos_bound; lia)))
      as (Fo & Fs & Ft & Fi & Fu); rewrite ?swrap_mod16 in Fi by lia end;
  unfold decode; rewrite Fo; unfold decode_major, decode_bcond; rewrite ?Fs, ?Ft, ?Fi, ?Fu; reflexivity.
Ltac round_trip_reg :=
  let Fo := fresh in let Fs := fresh in let Ft := fresh in let Fd := fresh in let Fe := fresh in
  let Ff := fresh in let Fx := fresh in
  match goal with |- context [M ?a ?s ?t ?d ?e ?f] =>
    destruct (fields_reg a s t d e f ltac:(lia || closed) ltac:(lia || closed) ltac:(lia || closed) ltac:(lia || closed) ltac:(lia || closed))
      as (Fo & Fs & Ft & Fd & Fe & Ff & Fx); rewrite ?(Z.mod_small f 8) in Fx by lia end;
  unfold decode; rewrite Fo; unfold decode_major, decode_spec, decode_cop0;
  rewrite ?Fs, ?Ft, ?Fd, ?Fe, ?Ff, ?Fx; reflexivity.
Ltac round_trip_jump :=
  let Fo := fresh in let Ft := fresh in
  match goal with |- context [M ?a 0 0 0 0 ?t] =>
    destruct (fields_jump a t ltac:(lia || closed)) as (Fo & Ft) end;
  unfold decode; rewrite Fo; unfold decode_major; rewrite Ft; reflexivity.

Lemma assemble_decode op ip args :
  find_insn insn_table op = Some ip -> args_fit ip args = true ->
  msgs (assemble ip args) = [] /\ decode (bits_of (assemble ip args)) = Some (op, args).
Proof.
  intros F A; apply find_insn_In in F; destruct F as (F & <- & N); unfold insn_table in F.
  repeat (destruct F as [<-|F]; [|]); try (destruct F); try (now destruct N).
  all: lazymatch type of A with
    | context [Z.lor (Z.lor RS RT) SIMM] => destruct (enc_rs_rt_simm _ _ _ A) as (?&?&?&->&?&?&?&->)
    | context [Z.lor (Z.lor RS RT) UIMM] => destruct (enc_rs_rt_uimm _ _ _ A) as (?&?&?&->&?&?&?&->)
    | context [Z.lor (Z.lor RS RT) BIMM] => destruct (enc_rs_rt_bimm _ _ _ A) as (?&?&?&->&?&?&?&->)
    | context [Z.lor RS BIMM] => destruct (enc_rs_bimm _ _ _ _ A) as (?&?&->&?&?&->)
    | context [Z.lor RT SIMM] => destruct (enc_rt_simm _ _ _ A) as (?&?&->&?&?&->)
    | context [Z.lor (Z.lor RS RT) RD] => destruct (enc_rs_rt_rd _ _ _ _ A) as (?&?&?&->&?&?&?&->)
    | context [Z.lor (Z.lor RT RD) RE] => destruct (enc_rt_rd_re _ _ _ _ A) as (?&?&?&->&?&?&?&->)
    | context [Z.lor (Z.lor RT RD) SET] => destruct (enc_rt_rd_set _ _ _ _ A) as (?&?&?&->&?&?&?&->)
    | context [JIMM] => destruct (enc_jimm _ _ _ A) as (?&->&?&->)
    | context [RS] => destruct (enc_rs _ _ _ _ A) as (?&->&?&->)
    | _ => destruct (enc_none _ _ _ _ _ A) as (->&->)
    end; (split; [reflexivity|]); cbn [snd bits_of]; unfold i_opcode;
    lazymatch type of A with
    | context [JIMM] => round_trip_jump
    | context [SIMM] => round_trip_imm
    | context [UIMM] => round_trip_imm
    | context [BIMM] => round_trip_imm
    | _ => round_trip_reg
    end.
Qed.

(** ** Relocation

    Or-ing the relocated offset into a branch assembled with offset 0 gives
    the branch with that offset. *)

(** The instructions with a branch offset. *)
Definition has_bimm (ip : insn) : bool := tst (Z.land (i_fields ip) BIMM).

Lemma bimm_formats op ip : find_insn insn_table op = Some ip -> has_bimm ip = true ->
  exists o a c, ip = mkinsn o (M a 0 0 0 0 0) (Z.lor (Z.lor RS RT) BIMM)
             \/ ip = mkinsn o (M a 0 c 0 0 0) (Z.lor RS BIMM).
Proof.
  intros F B; apply find_insn_In in F; destruct F as (F & _ & _); unfold insn_table in F.
  repeat (destruct F as [<-|F]; [|]); try (destruct F); try discriminate B.
  all: lazymatch type of B with
    | has_bimm (mkinsn ?o (M ?a _ _ _ _ _) (Z.lor (Z.lor RS RT) BIMM)) = _ => exists o, a, 0; left; reflexivity
    | has_bimm (mkinsn ?o (M ?a _ ?c _ _ _) _) = _ => exists o, a, c; right; reflexivity
    end.
Qed.

Ltac bimm_asm := unfold assemble; cbv zeta; cbn [i_match app];
  repeat first
   [ rewrite field_skip by reflexivity
   | erewrite (field_take _ _ _ _ _ RS) by (reflexivity || (apply build_reg_fits; lia))
   | erewrite (field_take _ _ _ _ _ RT) by (reflexivity || (apply build_reg_fits; lia))
   | erewrite (field_take _ _ _ _ _ BIMM) by (reflexivity || (apply build_bimm_arg; lia)) ];
  cbn [fst snd bits_of]; unfold patch; rewrite ?M_rs, ?M_rt, ?M_low.

Lemma reloc_patch op ip regs i :
  find_insn insn_table op = Some ip -> has_bimm ip = true -> args_fit ip (regs ++ [4 * i]) = true ->
  msgs (build_bimm (swrap 32 (4 * i))) = [] /\
  patch (bits_of (assemble ip (regs ++ [4 * 0]))) (bits_of (build_bimm (swrap 32 (4 * i))))
  = bits_of (assemble ip (regs ++ [4 * i])).
Proof.
  intros F B A; destruct (bimm_formats _ _ F B) as (o & a & c & [-> | ->]).
  - destruct (enc_rs_rt_bimm _ _ _ A) as (s & t & j & E & ? & ? & ? & ->).
    destruct regs as [|r1 [|r2 [|? [|? ?]]]]; try discriminate E; injection E as -> -> E.
    assert (j = i) as -> by (assert (4 * i = 4 * j) by exact E; lia); rewrite build_bimm_arg by lia; split; [reflexivity|].
    bimm_asm; reflexivity.
  - destruct (enc_rs_bimm _ _ _ _ A) as (s & j & E & ? & ? & ->).
    destruct regs as [|r1 [|r2 [|? ?]]]; try discriminate E; injection E as -> E.
    assert (j = i) as -> by (assert (4 * i = 4 * j) by exact E; lia); rewrite build_bimm_arg by lia; split; [reflexivity|].
    bimm_asm; reflexivity.
Qed.

(** ** Addresses in pieces *)

Lemma lxor_flip y k : 0 <= k -> 0 <= y < 2 ^ k ->
  Z.lxor y (2 ^ k) = y + 2 ^ k /\ Z.lxor (y + 2 ^ k) (2 ^ k) = y.
Proof.
  intros Hk Hy; rewrite <- lor_bit_add by lia.
  split; apply Z.bits_inj'; intros i Hi; rewrite ?Z.lxor_spec, ?Z.lor_spec, Z.pow2_bits_eqb by lia;
    (destruct (Z.eqb_spec k i) as [<-|]; [rewrite (testbit_high y k) by lia; reflexivity|]);
    destruct (Z.testbit y i); reflexivity.
Qed.

(** [(x ^ 0x8000) - 0x8000] extends the sign of 16 bits. *)
Lemma sext16 x : Z.lxor (Z.land x 0xffff) 0x8000 - 0x8000 = swrap 16 x.
Proof.
  change 0xffff with (2 ^ 16 - 1); rewrite land_mask by lia; unfold swrap; change (16 - 1) with 15.
  assert (0 <= x mod 2 ^ 16 < 2 ^ 16) by (apply Z.mod_pos_bound; lia).
  set (y := x mod 2 ^ 16) in *; clearbody y; change 0x8000 with (2 ^ 15); case_if.
  - destruct (lxor_flip y 15) as [-> _]; lia.
  - destruct (lxor_flip (y - 2 ^ 15) 15) as [_ E]; [lia|lia|].
    rewrite Z.sub_add in E; rewrite E; lia.
Qed.

Lemma swrap16_range x : -32768 <= swrap 16 x <= 32767.
Proof. unfold swrap; case_if; divmod. Qed.

Lemma rel_hi_lo v : wrap 32 (rel_hi v * 2 ^ 16 + rel_lo v) = wrap 32 v.
Proof.
  unfold rel_hi, rel_lo; rewrite !sext16, shiftr_div by lia.
  unfold swrap, wrap; repeat case_if; divmod.
Qed.

Lemma rel_lo_range v : -32768 <= rel_lo v <= 32767.
Proof. unfold rel_lo; rewrite sext16; apply swrap16_range. Qed.
Lemma rel_hi_range v : -32768 <= rel_hi v <= 32767.
Proof. unfold rel_hi; rewrite sext16; apply swrap16_range. Qed.

(** ** The assembler on its buffers *)

Lemma nth_upd_same l n v : (n < List.length l)%nat -> nth n (upd_nat l n v) 0 = v.
Proof. revert n; induction l as [|a l IH]; intros [|n] H; cbn in *; try lia; apply IH; lia. Qed.
Lemma nth_upd_other l n k v : k <> n -> nth k (upd_nat l n v) 0 = nth k l 0.
Proof. revert n k; induction l as [|a l IH]; intros [|n] [|k] H; cbn; try congruence; apply IH; congruence. Qed.
Lemma length_upd_nat l n v : List.length (upd_nat l n v) = List.length l.
Proof. revert n; induction l as [|a l IH]; intros [|n]; cbn; congruence. Qed.

Lemma words_set b l s : words (set_words b l s) b = l.
Proof. now destruct b. Qed.

(** A store in a buffer of the right size is read back, and touches no other
    word of the buffer. *)
Lemma store_word b i v s : 0 <= i < size b -> List.length (words s b) = Z.to_nat (size b) ->
  exists s', store (mkptr b i) v s = inr (tt, s') /\ s' = set_words b (upd (words s b) i v) s /\
  word_at (mkptr b i) s' = v /\ List.length (words s' b) = Z.to_nat (size b) /\
  (forall j, 0 <= j -> j <> i -> word_at (mkptr b j) s' = word_at (mkptr b j) s).
Proof.
  intros Hi Hl; unfold store; cbn [pidx pbuf].
  rewrite (proj2 (Z.leb_le 0 i)), (proj2 (Z.ltb_lt i (size b))) by lia; cbn [andb].
  eexists; split; [reflexivity|]; split; [reflexivity|]; unfold word_at, sel, upd; cbn [pidx pbuf].
  rewrite !words_set; split; [apply nth_upd_same; lia|]; split; [now rewrite length_upd_nat|].
  intros j Hj N; apply nth_upd_other; lia.
Qed.

Lemma build_insn_word op ip args s b i :
  find_insn insn_table op = Some ip -> args_fit ip args = true ->
  at_p s = mkptr b i -> 0 <= i < size b -> List.length (words s b) = Z.to_nat (size b) ->
  exists s', build_insn op args s = inr (tt, s') /\
    word_at (mkptr b i) s' = bits_of (assemble ip args) /\
    at_p s' = mkptr b (i + 1) /\ warned s' = warned s /\ List.length (words s' b) = Z.to_nat (size b) /\
    (forall j, 0 <= j -> j <> i -> word_at (mkptr b j) s' = word_at (mkptr b j) s).
Proof.
  intros F A P Hi Hl; destruct (assemble_decode op ip args F A) as [W _].
  unfold build_insn; rewrite F; unfold sbind, smod, sgets; rewrite W; cbn [at_p add_warned]; rewrite P.
  destruct (store_word b i (bits_of (assemble ip args)) (add_warned [] s)) as (s1 & -> & E & V & L & O);
    [exact Hi|destruct b; exact Hl|].
  assert (X : forall p, words (set_p p s1) b = words s1 b) by (intros; now destruct b).
  exists (set_p (mkptr b (i + 1)) s1); split; [reflexivity|].
  assert (Y : forall j, word_at (mkptr b j) (set_p (mkptr b (i + 1)) s1) = word_at (mkptr b j) s1)
    by (intros; unfold word_at; cbn [pbuf]; now rewrite X).
  rewrite Y, X; split; [exact V|]; split; [reflexivity|]; split; [subst s1; cbn; unfold logged; apply app_nil_r|].
  split; [exact L|]; intros j Hj N; rewrite Y, O by assumption; destruct b; reflexivity.
Qed.

Lemma reg_fits f x : In f [RS; RT] -> 0 <= x < 32 -> fits f x = true.
Proof.
  intros Hf H; unfold fits; destruct Hf as [<-|[<-|[]]]; cbn;
    rewrite (proj2 (Z.leb_le _ _)), (proj2 (Z.ltb_lt _ _)) by lia; reflexivity.
Qed.

Lemma bimm_fits j : -32768 <= j <= 32767 -> fits BIMM (4 * j) = true.
Proof.
  intros; unfold fits; cbn [one_of existsb]; rewrite (Z.mul_comm 4 j), Z.mod_mul by lia.
  change (BIMM =? RS) with false; change (BIMM =? RT) with false; change (BIMM =? RD) with false;
    change (BIMM =? RE) with false; change (BIMM =? SIMM) with false; change (BIMM =? UIMM) with false;
    change (BIMM =? BIMM) with true; cbn [orb].
  rewrite !(proj2 (Z.leb_le _ _)) by lia; reflexivity.
Qed.

(** A branch with another offset in range still fits. *)
Lemma new_offset op ip regs j : find_insn insn_table op = Some ip -> has_bimm ip = true ->
  args_fit ip (regs ++ [0]) = true -> -32768 <= j <= 32767 -> args_fit ip (regs ++ [4 * j]) = true.
Proof.
  intros F B A Hj; destruct (bimm_formats _ _ F B) as (o & a & c & [-> | ->]).
  - destruct (enc_rs_rt_bimm _ _ _ A) as (x & y & z & E & Hx & Hy & _).
    destruct regs as [|? [|? [|? [|? ?]]]]; try discriminate E; injection E as -> -> _.
    unfold args_fit, fit; cbn [app]; eval_fields; rewrite !reg_fits, bimm_fits by (cbn; auto || lia); reflexivity.
  - destruct (enc_rs_bimm _ _ _ _ A) as (x & z & E & Hx & _).
    destruct regs as [|? [|? [|? ?]]]; try discriminate E; injection E as -> _.
    unfold args_fit, fit; cbn [app]; eval_fields; rewrite !reg_fits, bimm_fits by (cbn; auto || lia); reflexivity.
Qed.

(** C16: The micro-assembler is inverse to the decoder of the architecture:
    [build_insn] with arguments that fit stores one word, at the current
    position and without a warning, that decodes to the instruction and its
    arguments.  If the instruction is a branch with offset 0, resolving a
    relocation on it against a label of the same buffer makes it the branch
    whose offset, counted from its delay slot, leads to the label. *)
Theorem assembler_roundtrip op ip args s b i :
  find_insn insn_table op = Some ip -> args_fit ip args = true ->
  at_p s = mkptr b i -> 0 <= i < size b -> List.length (words s b) = Z.to_nat (size b) ->
  exists s', build_insn op args s = inr (tt, s') /\
    decode (word_at (mkptr b i) s') = Some (op, args) /\
    at_p s' = mkptr b (i + 1) /\ warned s' = warned s /\
    (forall j, 0 <= j -> j <> i -> word_at (mkptr b j) s' = word_at (mkptr b j) s) /\
    (forall regs base k l, has_bimm ip = true -> args = regs ++ [0] -> 0 <= k <= size b ->
       exists s'', __resolve_relocs base (mkreloc (mkptr b i) R_MIPS_PC16 l) (mklabel (mkptr b k) l) s' = inr (tt, s'') /\
         decode (word_at (mkptr b i) s'') = Some (op, regs ++ [4 * (k - (i + 1))]) /\ warned s'' = warned s).
Proof.
  intros F A P Hi Hl; destruct (build_insn_word op ip args s b i F A P Hi Hl) as (s' & R & V & Q & W & L & O).
  destruct (assemble_decode op ip args F A) as [_ D].
  exists s'; split; [exact R|]; split; [now rewrite V|]; split; [exact Q|]; split; [exact W|]; split; [exact O|].
  intros regs base k l B -> Hk; assert (Z128 : size b <= 128) by (destruct b; vm_compute; discriminate).
  assert (A2 : args_fit ip (regs ++ [4 * (k - (i + 1))]) = true) by (apply (new_offset op ip regs); [..|lia]; assumption).
  destruct (assemble_decode op ip _ F A2) as [_ D2]; destruct (reloc_patch op ip regs _ F B A2) as [M2 P2].
  unfold __resolve_relocs; cbn [r_type r_addr l_addr]; rewrite Z.eqb_refl; cbv zeta.
  assert (E : diff base (mkptr b k) (padd (mkptr b i) 1) = 4 * (k - (i + 1)))
    by (unfold diff; cbn [pbuf pidx padd]; now replace (same_buffer b b) with true by (now destruct b)).
  rewrite E, M2; unfold sbind, smod, sgets.
  destruct (store_word b i (patch (word_at (mkptr b i) (add_warned [] s')) (bits_of (build_bimm (swrap 32 (4 * (k - (i + 1))))))) (add_warned [] s'))
    as (s2 & -> & Es & V2 & _ & _); [exact Hi|destruct b; exact L|].
  exists s2; split; [reflexivity|]; split; [|subst s2; cbn; unfold logged; rewrite app_nil_r; exact W].
  rewrite V2; replace (word_at (mkptr b i) (add_warned [] s')) with (word_at (mkptr b i) s') by (now destruct b).
  rewrite V; change 0 with (4 * 0) at 1; rewrite P2; exact D2.
Qed.

Definition blank : synth :=
  mksynth (repeat 0 128) (repeat 0 64) (repeat 0 128) (repeat 0 128) (repeat 0 128)
    [] [] (mkptr tlb_handler 7) [] [] 0.

(** A branch assembled at word 7 and resolved to a label at word 3. *)
Lemma assembler_roundtrip_witness :
  args_fit (mkinsn insn_bne (M bne_op 0 0 0 0 0) (Z.lor (Z.lor RS RT) BIMM)) [26; 27; 0] = true /\
  exists s', build_insn insn_bne [26; 27; 0] blank = inr (tt, s') /\
    decode (word_at (mkptr tlb_handler 7) s') = Some (insn_bne, [26; 27; 0]) /\
    exists s'', __resolve_relocs (fun _ => 0) (mkreloc (mkptr tlb_handler 7) R_MIPS_PC16 label_leave)
        (mklabel (mkptr tlb_handler 3) label_leave) s' = inr (tt, s'') /\
      decode (word_at (mkptr tlb_handler 7) s'') = Some (insn_bne, [26; 27; -20]) /\ warned s'' = [].
Proof.
  assert (A : args_fit (mkinsn insn_bne (M bne_op 0 0 0 0 0) (Z.lor (Z.lor RS RT) BIMM)) [26; 27; 0] = true) by (vm_compute; reflexivity).
  assert (I : 0 <= 7 < size tlb_handler) by (cbn; lia).
  split; [exact A|].
  destruct (assembler_roundtrip insn_bne (mkinsn insn_bne (M bne_op 0 0 0 0 0) (Z.lor (Z.lor RS RT) BIMM)) [26; 27; 0]
    blank tlb_handler 7 eq_refl A eq_refl I eq_refl) as (s' & R & D & _ & _ & _ & P).
  exists s'; split; [exact R|]; split; [exact D|].
  exact (P [26; 27] (fun _ => 0) 3 label_leave eq_refl eq_refl ltac:(cbn; lia)).
Defined.
