(* ===== verification/Tlbex.v ===== *)
(** * Synthesis of the TLB handlers

    Models the second half of [arch/mips/mm/tlbex.c]: the refill handler and
    the load, store and modify handlers, for R3000- and R4000-style TLBs, for
    every CPU type of [asm/cpu.h], 32- and 64-bit kernels, with and without
    SMP, SMTC, 64-bit physical addresses and the two hardware workarounds.
    The kernel configuration, the CPU and the link-time addresses are the
    record [config].  The code is modelled up to the [memcpy] to [ebase];
    [flush_tlb_handlers] flushes caches and has no counterpart. *)

From S2P Require Import Prelude Inst Machine Uasm.
#[local] Open Scope syn_scope.

(** ** CPU types and configuration *)

Inductive cpu_type :=
  | CPU_UNKNOWN | CPU_R2000 | CPU_R3000 | CPU_R3000A | CPU_R3041 | CPU_R3051 | CPU_R3052
  | CPU_R3081 | CPU_R3081E | CPU_R4000PC | CPU_R4000SC | CPU_R4000MC | CPU_R4200
  | CPU_R4400PC | CPU_R4400SC | CPU_R4400MC | CPU_R4600 | CPU_R6000 | CPU_R6000A
  | CPU_R8000 | CPU_R10000 | CPU_R12000 | CPU_R4300 | CPU_R4650 | CPU_R4700 | CPU_R5000
  | CPU_R5000A | CPU_R4640 | CPU_NEVADA | CPU_RM7000 | CPU_R5432 | CPU_4KC | CPU_5KC
  | CPU_R4310 | CPU_SB1 | CPU_TX3912 | CPU_TX3922 | CPU_TX3927 | CPU_AU1000 | CPU_4KEC
  | CPU_4KSC | CPU_VR41XX | CPU_R5500 | CPU_TX49XX | CPU_AU1500 | CPU_20KC | CPU_VR4111
  | CPU_VR4121 | CPU_VR4122 | CPU_VR4131 | CPU_VR4181 | CPU_VR4181A | CPU_AU1100
  | CPU_SR71000 | CPU_RM9000 | CPU_25KF | CPU_VR4133 | CPU_AU1550 | CPU_24K | CPU_AU1200
  | CPU_34K | CPU_PR4450 | CPU_SB1A | CPU_74K | CPU_R14000.

Record config := mkconfig {
  CONFIG_64BIT : bool; CONFIG_SMP : bool; CONFIG_MIPS_MT_SMTC : bool;
  CONFIG_64BIT_PHYS_ADDR : bool; CONFIG_CPU_R3000 : bool; CONFIG_CPU_MIPS32_R1 : bool;
  PAGE_SHIFT : Z; BCM1250_M3_WAR : bool; R10000_LLSC_WAR : bool; cpu_has_64bits : bool;
  cputype : cpu_type;
  pgd_current : Z; swapper_pg_dir : Z; VMALLOC_START : Z;
  tlb_do_page_fault_0 : Z; tlb_do_page_fault_1 : Z; base : buffer -> Z }.

(** General purpose registers, and coprocessor 0 registers with selects. *)
Definition K0 : Z := 26.
Definition K1 : Z := 27.
Definition C0_INDEX : Z * Z := (0, 0).
Definition C0_ENTRYLO0 : Z * Z := (2, 0).
Definition C0_TCBIND : Z * Z := (2, 2).
Definition C0_ENTRYLO1 : Z * Z := (3, 0).
Definition C0_CONTEXT : Z * Z := (4, 0).
Definition C0_BADVADDR : Z * Z := (8, 0).
Definition C0_ENTRYHI : Z * Z := (10, 0).
Definition C0_EPC : Z * Z := (14, 0).
Definition C0_XCONTEXT : Z * Z := (20, 0).

Inductive tlb_write_entry := tlb_random | tlb_indexed.

Definition mfc0 (rt : Z) (r : Z * Z) : Syn unit := i_mfc0 rt (fst r) (snd r).
Definition mtc0 (rt : Z) (r : Z * Z) : Syn unit := i_mtc0 rt (fst r) (snd r).
Definition dmfc0 (rt : Z) (r : Z * Z) : Syn unit := i_dmfc0 rt (fst r) (snd r).

Section Tlbex.
Variable c : config.

(** ** Page table layout ([asm/page.h], [asm/pgtable-32.h], [asm/pgtable-64.h]) *)

Definition sizeof_pte : Z := if CONFIG_64BIT c || CONFIG_64BIT_PHYS_ADDR c then 8 else 4.
Definition sizeof_pgd : Z := if CONFIG_64BIT c then 8 else 4.
Definition PTE_T_LOG2 : Z := Z.log2 sizeof_pte.
Definition PGD_T_LOG2 : Z := Z.log2 sizeof_pgd.
Definition PAGE_SIZE : Z := Z.shiftl 1 (PAGE_SHIFT c).
Definition PTE_ORDER : Z := 0.
Definition PMD_ORDER : Z := 0.
Definition PGD_ORDER : Z :=
  if CONFIG_64BIT c then (if PAGE_SHIFT c =? 12 then 1 else 0)
  else if CONFIG_64BIT_PHYS_ADDR c then 1 else 0.
Definition PMD_SHIFT : Z := PAGE_SHIFT c + (PAGE_SHIFT c + PTE_ORDER - 3).
Definition PGDIR_SHIFT : Z :=
  if CONFIG_64BIT c then PMD_SHIFT + (PAGE_SHIFT c + PMD_ORDER - 3)
  else if CONFIG_64BIT_PHYS_ADDR c then 21 else 22.
Definition PTRS_PER_PGD : Z := Z.shiftl PAGE_SIZE PGD_ORDER / sizeof_pgd.
Definition PTRS_PER_PMD : Z := Z.shiftl PAGE_SIZE PMD_ORDER / 8.
Definition PTRS_PER_PTE : Z := Z.shiftl PAGE_SIZE PTE_ORDER / sizeof_pte.

(** ** Bits of a pte ([asm/pgtable-bits.h]) *)

Definition bits_r1 : bool := CONFIG_64BIT_PHYS_ADDR c && CONFIG_CPU_MIPS32_R1 c.
Definition _PAGE_PRESENT : Z := Z.shiftl 1 (if bits_r1 then 6 else 0).
Definition _PAGE_READ : Z := Z.shiftl 1 (if bits_r1 then 7 else 1).
Definition _PAGE_WRITE : Z := Z.shiftl 1 (if bits_r1 then 8 else 2).
Definition _PAGE_ACCESSED : Z := Z.shiftl 1 (if bits_r1 then 9 else 3).
Definition _PAGE_MODIFIED : Z := Z.shiftl 1 (if bits_r1 then 10 else 4).
Definition _PAGE_VALID : Z := Z.shiftl 1 (if bits_r1 then 1 else if CONFIG_CPU_R3000 c then 9 else 7).
Definition _PAGE_DIRTY : Z := Z.shiftl 1 (if bits_r1 then 2 else if CONFIG_CPU_R3000 c then 10 else 8).

Let LW := i_LW (CONFIG_64BIT c).
Let SW := i_SW (CONFIG_64BIT c).
Let SRL := i_SRL (CONFIG_64BIT c).
Let ADDU := i_ADDU (CONFIG_64BIT c).
Let LL := i_LL (CONFIG_64BIT c).
Let SC := i_SC (CONFIG_64BIT c).
Let LA := i_LA (CONFIG_64BIT c).
Let LA_mostly := i_LA_mostly (CONFIG_64BIT c).

(** The width of the kernel decides between [mfc0] and [dmfc0]. *)
Definition MFC0 (rt : Z) (r : Z * Z) : Syn unit := i_MFC0 (CONFIG_64BIT c) rt (fst r) (snd r).
Definition GET_CONTEXT (reg : Z) : Syn unit :=
  if CONFIG_64BIT c then MFC0 reg C0_XCONTEXT else MFC0 reg C0_CONTEXT.

Definition r45k_bvahwbug : bool := false.
Definition r4k_250MHZhwbug : bool := false.
Definition bcm1250_m3_war : bool := BCM1250_M3_WAR c.
Definition r10000_llsc_war : bool := R10000_LLSC_WAR c.

(** ** Pieces of handlers *)

Definition build_tlb_probe_entry : Syn unit :=
  match cputype c with
  | CPU_R4600 | CPU_R5000 | CPU_R5000A | CPU_NEVADA => i_nop ;;; i_tlbp
  | _ => i_tlbp
  end.

Definition build_tlb_write_entry (wmode : tlb_write_entry) : Syn unit :=
  let tlbw := match wmode with tlb_random => i_tlbwr | tlb_indexed => i_tlbwi end in
  match cputype c with
  | CPU_R4000PC | CPU_R4000SC | CPU_R4000MC | CPU_R4400PC | CPU_R4400SC | CPU_R4400MC =>
      il_bgezl 0 label_tlbw_hazard ;;; tlbw ;;; l_here label_tlbw_hazard ;;; i_nop
  | CPU_R4600 | CPU_R4700 | CPU_R5000 | CPU_R5000A => i_nop ;;; tlbw ;;; i_nop
  | CPU_R4300 | CPU_5KC | CPU_TX49XX | CPU_AU1000 | CPU_AU1100 | CPU_AU1500 | CPU_AU1550
  | CPU_AU1200 | CPU_PR4450 => i_nop ;;; tlbw
  | CPU_R10000 | CPU_R12000 | CPU_R14000 | CPU_4KC | CPU_SB1 | CPU_SB1A | CPU_4KSC | CPU_20KC
  | CPU_25KF => tlbw
  | CPU_NEVADA =>
      i_nop ;;; il_bgezl 0 label_tlbw_hazard ;;; tlbw ;;; l_here label_tlbw_hazard
  | CPU_RM7000 => i_nop ;;; i_nop ;;; i_nop ;;; i_nop ;;; tlbw
  | CPU_4KEC | CPU_24K | CPU_34K | CPU_74K => i_ehb ;;; tlbw
  | CPU_RM9000 =>
      i_ssnop ;;; i_ssnop ;;; i_ssnop ;;; i_ssnop ;;; tlbw ;;;
      i_ssnop ;;; i_ssnop ;;; i_ssnop ;;; i_ssnop
  | CPU_VR4111 | CPU_VR4121 | CPU_VR4122 | CPU_VR4181 | CPU_VR4181A =>
      i_nop ;;; i_nop ;;; tlbw ;;; i_nop ;;; i_nop
  | CPU_VR4131 | CPU_VR4133 | CPU_R5432 => i_nop ;;; i_nop ;;; tlbw
  | _ => panic "No TLB refill handler yet"
  end.

Definition build_get_pmde64 (tmp ptr : Z) : Syn unit :=
  let pgdc := pgd_current c in
  dmfc0 tmp C0_BADVADDR ;;;
  il_bltz tmp label_vmalloc ;;;
  (if CONFIG_SMP c then
     (if CONFIG_MIPS_MT_SMTC c then mfc0 ptr C0_TCBIND ;;; i_dsrl ptr ptr 19
      else dmfc0 ptr C0_CONTEXT ;;; i_dsrl ptr ptr 23) ;;;
     LA_mostly tmp pgdc ;;; i_daddu ptr ptr tmp ;;; dmfc0 tmp C0_BADVADDR ;;;
     i_ld ptr (rel_lo pgdc) ptr
   else LA_mostly ptr pgdc ;;; i_ld ptr (rel_lo pgdc) ptr) ;;;
  l_here label_vmalloc_done ;;;
  (if PGDIR_SHIFT - 3 <? 32 then i_dsrl tmp tmp (PGDIR_SHIFT - 3)
   else i_dsrl32 tmp tmp (PGDIR_SHIFT - 3 - 32)) ;;;
  i_andi tmp tmp (Z.shiftl (PTRS_PER_PGD - 1) 3) ;;;
  i_daddu ptr ptr tmp ;;;
  dmfc0 tmp C0_BADVADDR ;;;
  i_ld ptr 0 ptr ;;;
  i_dsrl tmp tmp (PMD_SHIFT - 3) ;;;
  i_andi tmp tmp (Z.shiftl (PTRS_PER_PMD - 1) 3) ;;;
  i_daddu ptr ptr tmp.

Definition build_get_pgd_vmalloc64 (bvaddr ptr : Z) : Syn unit :=
  let swpd := swapper_pg_dir c in
  l_here label_vmalloc ;;;
  LA ptr (VMALLOC_START c) ;;;
  i_dsubu bvaddr bvaddr ptr ;;;
  if in_compat_space_p swpd && negb (tst (rel_lo swpd)) then
    il_b label_vmalloc_done ;;; i_lui ptr (rel_hi swpd)
  else
    LA_mostly ptr swpd ;;; il_b label_vmalloc_done ;;; i_daddiu ptr ptr (rel_lo swpd).

Definition build_get_pgde32 (tmp ptr : Z) : Syn unit :=
  let pgdc := pgd_current c in
  (if CONFIG_SMP c then
     (if CONFIG_MIPS_MT_SMTC c then mfc0 ptr C0_TCBIND ;;; LA_mostly tmp pgdc ;;; i_srl ptr ptr 19
      else mfc0 ptr C0_CONTEXT ;;; LA_mostly tmp pgdc ;;; i_srl ptr ptr 23) ;;;
     i_addu ptr tmp ptr
   else LA_mostly ptr pgdc) ;;;
  mfc0 tmp C0_BADVADDR ;;;
  i_lw ptr (rel_lo pgdc) ptr ;;;
  i_srl tmp tmp PGDIR_SHIFT ;;;
  i_sll tmp tmp PGD_T_LOG2 ;;;
  i_addu ptr ptr tmp.

Definition build_adjust_context (ctx : Z) : Syn unit :=
  let shift := wrap 32 (4 - (PTE_T_LOG2 + 1) + PAGE_SHIFT c - 12) in
  let mask := wrap 32 (Z.shiftl (PTRS_PER_PTE / 2 - 1) (PTE_T_LOG2 + 1)) in
  let shift := match cputype c with
    | CPU_VR41XX | CPU_VR4111 | CPU_VR4121 | CPU_VR4122 | CPU_VR4131 | CPU_VR4181 | CPU_VR4181A
    | CPU_VR4133 => wrap 32 (shift + 2)
    | _ => shift
    end in
  swhen (tst shift) (SRL ctx ctx shift) ;;;
  i_andi ctx ctx mask.

Definition build_get_ptep (tmp ptr : Z) : Syn unit :=
  match cputype c with
  | CPU_NEVADA => LW ptr 0 ptr ;;; GET_CONTEXT tmp
  | _ => GET_CONTEXT tmp ;;; LW ptr 0 ptr
  end ;;;
  build_adjust_context tmp ;;;
  ADDU ptr ptr tmp.

Definition build_update_entries (tmp ptep : Z) : Syn unit :=
  if CONFIG_64BIT_PHYS_ADDR c then
    if cpu_has_64bits c then
      i_ld tmp 0 ptep ;;; i_ld ptep sizeof_pte ptep ;;;
      i_dsrl tmp tmp 6 ;;; mtc0 tmp C0_ENTRYLO0 ;;;
      i_dsrl ptep ptep 6 ;;; mtc0 ptep C0_ENTRYLO1
    else
      let pte_off_even := sizeof_pte / 2 in
      let pte_off_odd := pte_off_even + sizeof_pte in
      i_lw tmp pte_off_even ptep ;;; mtc0 tmp C0_ENTRYLO0 ;;;
      i_lw ptep pte_off_odd ptep ;;; mtc0 ptep C0_ENTRYLO1
  else
    LW tmp 0 ptep ;;;
    LW ptep sizeof_pte ptep ;;;
    swhen r45k_bvahwbug build_tlb_probe_entry ;;;
    SRL tmp tmp 6 ;;;
    swhen r4k_250MHZhwbug (mtc0 0 C0_ENTRYLO0) ;;;
    mtc0 tmp C0_ENTRYLO0 ;;;
    SRL ptep ptep 6 ;;;
    swhen r45k_bvahwbug (mfc0 tmp C0_INDEX) ;;;
    swhen r4k_250MHZhwbug (mtc0 0 C0_ENTRYLO1) ;;;
    mtc0 ptep C0_ENTRYLO1.

(** ** Refill handlers *)

(** [memcpy((void * )ebase, b, 4 * n)] *)
Definition copy_to_ebase (b : buffer) (n : nat) : Syn unit :=
  smod (fun s => set_ebase (firstn n (words s b) ++ skipn n (ebase s)) s).

Definition start (b : buffer) : Syn unit :=
  smod (set_p (mkptr b 0)) ;;; clear b.
Definition clear_labels : Syn unit := smod (set_labels []) ;;; smod (set_relocs []).

Definition build_r3000_tlb_refill_handler : Syn unit :=
  let pgdc := pgd_current c in
  start tlb_handler ;;;
  mfc0 K0 C0_BADVADDR ;;;
  i_lui K1 (rel_hi pgdc) ;;;
  i_lw K1 (rel_lo pgdc) K1 ;;;
  i_srl K0 K0 22 ;;;
  i_sll K0 K0 2 ;;;
  i_addu K1 K1 K0 ;;;
  mfc0 K0 C0_CONTEXT ;;;
  i_lw K1 0 K1 ;;;
  i_andi K0 K0 0xffc ;;;
  i_addu K1 K1 K0 ;;;
  i_lw K0 0 K1 ;;;
  i_nop ;;;
  mtc0 K0 C0_ENTRYLO0 ;;;
  mfc0 K1 C0_EPC ;;;
  i_tlbwr ;;;
  i_jr K1 ;;;
  i_rfe ;;;
  p <- sgets at_p ;;
  swhen (pidx p >? 32) (panic "TLB refill handler space exceeded") ;;;
  copy_to_ebase tlb_handler 32.

(** The workaround at the start of the refill and load handlers. *)
Definition m3_war : Syn unit :=
  swhen bcm1250_m3_war
    (MFC0 K0 C0_BADVADDR ;;; MFC0 K1 C0_ENTRYHI ;;; i_xor K0 K0 K1 ;;;
     SRL K0 K0 (PAGE_SHIFT c + 1) ;;; il_bnez K0 label_leave).

(** The fold of a 64-bit handler of more than 32 instructions: the first part
    goes to the upper half of [final_handler], the rest to its lower half, and
    a branch joins them. *)
Definition split_handler (p : ptr) : Syn unit :=
  let split := mkptr tlb_handler 30 in
  rs <- sgets relocs ;;
  let split := if insn_has_bdelay rs (padd split (-1)) then padd split (-1) else split in
  let f := mkptr final_handler 32 in
  copy_handler (mkptr tlb_handler 0) split f ;;;
  smod (set_p (padd f (pidx split))) ;;;
  build_label (mkptr final_handler 0) label_split ;;;
  il_b label_split ;;;
  rs <- sgets relocs ;;
  if insn_has_bdelay rs split then
    i_nop ;;; copy_handler split p (mkptr final_handler 0)
  else
    f <- sgets at_p ;;
    copy_handler split (padd split 1) f ;;;
    move_labels f (padd f 1) (mkdisp final_handler (-1)) ;;;
    smod (set_p (padd f 1)) ;;;
    copy_handler (padd split 1) p (mkptr final_handler 0).

Definition fold_handler : Syn unit :=
  p <- sgets at_p ;;
  if CONFIG_64BIT c then
    if pidx p <=? 32 then copy_handler (mkptr tlb_handler 0) p (mkptr final_handler 32)
    else split_handler p
  else copy_handler (mkptr tlb_handler 0) p (mkptr final_handler 0).

Definition build_r4000_tlb_refill_handler : Syn unit :=
  start tlb_handler ;;; clear_labels ;;; clear final_handler ;;;
  m3_war ;;;
  (if CONFIG_64BIT c then build_get_pmde64 K0 K1 else build_get_pgde32 K0 K1) ;;;
  build_get_ptep K0 K1 ;;;
  build_update_entries K0 K1 ;;;
  build_tlb_write_entry tlb_random ;;;
  l_here label_leave ;;;
  i_eret ;;;
  swhen (CONFIG_64BIT c) (build_get_pgd_vmalloc64 K0 K1) ;;;
  p <- sgets at_p ;;
  rs <- sgets relocs ;;
  swhen (if CONFIG_64BIT c
         then (pidx p >? 63) || ((pidx p >? 61) && insn_has_bdelay rs (mkptr tlb_handler 29))
         else pidx p >? 64)
    (panic "TLB refill handler space exceeded") ;;;
  fold_handler ;;;
  resolve_relocs (base c) ;;;
  copy_to_ebase final_handler 64.

(** ** Pieces of the load, store and modify handlers *)

Definition iPTE_LW (pte ptr : Z) : Syn unit :=
  if CONFIG_SMP c then
    if CONFIG_64BIT_PHYS_ADDR c && cpu_has_64bits c then i_lld pte 0 ptr else LL pte 0 ptr
  else
    if CONFIG_64BIT_PHYS_ADDR c && cpu_has_64bits c then i_ld pte 0 ptr else LW pte 0 ptr.

Definition iPTE_SW (pte ptr mode : Z) : Syn unit :=
  let hwmode := Z.land mode (Z.lor _PAGE_VALID _PAGE_DIRTY) in
  i_ori pte pte mode ;;;
  if CONFIG_SMP c then
    (if CONFIG_64BIT_PHYS_ADDR c && cpu_has_64bits c then i_scd pte 0 ptr else SC pte 0 ptr) ;;;
    (if r10000_llsc_war then il_beqzl pte label_smp_pgtable_change
     else il_beqz pte label_smp_pgtable_change) ;;;
    if CONFIG_64BIT_PHYS_ADDR c && negb (cpu_has_64bits c) then
      i_ll pte (sizeof_pte / 2) ptr ;;; i_ori pte pte hwmode ;;;
      i_sc pte (sizeof_pte / 2) ptr ;;;
      il_beqz pte label_smp_pgtable_change ;;;
      i_lw pte 0 ptr
    else i_nop
  else
    (if CONFIG_64BIT_PHYS_ADDR c && cpu_has_64bits c then i_sd pte 0 ptr else SW pte 0 ptr) ;;;
    swhen (CONFIG_64BIT_PHYS_ADDR c && negb (cpu_has_64bits c))
      (i_lw pte (sizeof_pte / 2) ptr ;;; i_ori pte pte hwmode ;;;
       i_sw pte (sizeof_pte / 2) ptr ;;; i_lw pte 0 ptr).

Definition build_pte_present (pte ptr : Z) (lid : label_id) : Syn unit :=
  i_andi pte pte (Z.lor _PAGE_PRESENT _PAGE_READ) ;;;
  i_xori pte pte (Z.lor _PAGE_PRESENT _PAGE_READ) ;;;
  il_bnez pte lid ;;;
  iPTE_LW pte ptr.

Definition build_make_valid (pte ptr : Z) : Syn unit :=
  iPTE_SW pte ptr (Z.lor _PAGE_VALID _PAGE_ACCESSED).

Definition build_pte_writable (pte ptr : Z) (lid : label_id) : Syn unit :=
  i_andi pte pte (Z.lor _PAGE_PRESENT _PAGE_WRITE) ;;;
  i_xori pte pte (Z.lor _PAGE_PRESENT _PAGE_WRITE) ;;;
  il_bnez pte lid ;;;
  iPTE_LW pte ptr.

Definition build_make_write (pte ptr : Z) : Syn unit :=
  iPTE_SW pte ptr (Z.lor (Z.lor (Z.lor _PAGE_ACCESSED _PAGE_MODIFIED) _PAGE_VALID) _PAGE_DIRTY).

Definition build_pte_modifiable (pte ptr : Z) (lid : label_id) : Syn unit :=
  i_andi pte pte _PAGE_WRITE ;;;
  il_beqz pte lid ;;;
  iPTE_LW pte ptr.

(** ** R3000 handlers *)

Definition build_r3000_pte_reload_tlbwi (pte tmp : Z) : Syn unit :=
  mtc0 pte C0_ENTRYLO0 ;;; mfc0 tmp C0_EPC ;;; i_tlbwi ;;; i_jr tmp ;;; i_rfe.

Definition build_r3000_tlb_reload_write (pte tmp : Z) : Syn unit :=
  mfc0 tmp C0_INDEX ;;;
  mtc0 pte C0_ENTRYLO0 ;;;
  il_bltz tmp label_r3000_write_probe_fail ;;;
  mfc0 tmp C0_EPC ;;;
  i_tlbwi ;;;
  i_jr tmp ;;;
  i_rfe ;;;
  l_here label_r3000_write_probe_fail ;;;
  i_tlbwr ;;;
  i_jr tmp ;;;
  i_rfe.

Definition build_r3000_tlbchange_handler_head (pte ptr : Z) : Syn unit :=
  let pgdc := pgd_current c in
  mfc0 pte C0_BADVADDR ;;;
  i_lui ptr (rel_hi pgdc) ;;;
  i_lw ptr (rel_lo pgdc) ptr ;;;
  i_srl pte pte 22 ;;;
  i_sll pte pte 2 ;;;
  i_addu ptr ptr pte ;;;
  mfc0 pte C0_CONTEXT ;;;
  i_lw ptr 0 ptr ;;;
  i_andi pte pte 0xffc ;;;
  i_addu ptr ptr pte ;;;
  i_lw pte 0 ptr ;;;
  i_tlbp.

(** The slow path and the end of each handler. *)
Definition finish (lid : label_id) (do_page_fault : Z) (full : string) : Syn unit :=
  l_here lid ;;;
  i_j (Z.land do_page_fault 0x0fffffff) ;;;
  i_nop ;;;
  p <- sgets at_p ;;
  swhen (pidx p >? FASTPATH_SIZE) (panic full) ;;;
  resolve_relocs (base c).

Definition build_r3000_tlb_load_handler : Syn unit :=
  start handle_tlbl ;;; clear_labels ;;;
  build_r3000_tlbchange_handler_head K0 K1 ;;;
  build_pte_present K0 K1 label_nopage_tlbl ;;;
  i_nop ;;;
  build_make_valid K0 K1 ;;;
  build_r3000_tlb_reload_write K0 K1 ;;;
  finish label_nopage_tlbl (tlb_do_page_fault_0 c) "TLB load handler fastpath space exceeded".

Definition build_r3000_tlb_store_handler : Syn unit :=
  start handle_tlbs ;;; clear_labels ;;;
  build_r3000_tlbchange_handler_head K0 K1 ;;;
  build_pte_writable K0 K1 label_nopage_tlbs ;;;
  i_nop ;;;
  build_make_write K0 K1 ;;;
  build_r3000_tlb_reload_write K0 K1 ;;;
  finish label_nopage_tlbs (tlb_do_page_fault_1 c) "TLB store handler fastpath space exceeded".

Definition build_r3000_tlb_modify_handler : Syn unit :=
  start handle_tlbm ;;; clear_labels ;;;
  build_r3000_tlbchange_handler_head K0 K1 ;;;
  build_pte_modifiable K0 K1 label_nopage_tlbm ;;;
  i_nop ;;;
  build_make_write K0 K1 ;;;
  build_r3000_pte_reload_tlbwi K0 K1 ;;;
  finish label_nopage_tlbm (tlb_do_page_fault_1 c) "TLB modify handler fastpath space exceeded".

(** ** R4000 handlers *)

Definition build_r4000_tlbchange_handler_head (pte ptr : Z) : Syn unit :=
  (if CONFIG_64BIT c then build_get_pmde64 pte ptr else build_get_pgde32 pte ptr) ;;;
  MFC0 pte C0_BADVADDR ;;;
  LW ptr 0 ptr ;;;
  SRL pte pte (PAGE_SHIFT c + PTE_ORDER - PTE_T_LOG2) ;;;
  i_andi pte pte (Z.shiftl (PTRS_PER_PTE - 1) PTE_T_LOG2) ;;;
  ADDU ptr ptr pte ;;;
  swhen (CONFIG_SMP c) (l_here label_smp_pgtable_change) ;;;
  iPTE_LW pte ptr ;;;
  build_tlb_probe_entry.

Definition build_r4000_tlbchange_handler_tail (tmp ptr : Z) : Syn unit :=
  i_ori ptr ptr sizeof_pte ;;;
  i_xori ptr ptr sizeof_pte ;;;
  build_update_entries tmp ptr ;;;
  build_tlb_write_entry tlb_indexed ;;;
  l_here label_leave ;;;
  i_eret ;;;
  swhen (CONFIG_64BIT c) (build_get_pgd_vmalloc64 tmp ptr).

Definition build_r4000_tlb_load_handler : Syn unit :=
  start handle_tlbl ;;; clear_labels ;;;
  m3_war ;;;
  build_r4000_tlbchange_handler_head K0 K1 ;;;
  build_pte_present K0 K1 label_nopage_tlbl ;;;
  build_make_valid K0 K1 ;;;
  build_r4000_tlbchange_handler_tail K0 K1 ;;;
  finish label_nopage_tlbl (tlb_do_page_fault_0 c) "TLB load handler fastpath space exceeded".

Definition build_r4000_tlb_store_handler : Syn unit :=
  start handle_tlbs ;;; clear_labels ;;;
  build_r4000_tlbchange_handler_head K0 K1 ;;;
  build_pte_writable K0 K1 label_nopage_tlbs ;;;
  build_make_write K0 K1 ;;;
  build_r4000_tlbchange_handler_tail K0 K1 ;;;
  finish label_nopage_tlbs (tlb_do_page_fault_1 c) "TLB store handler fastpath space exceeded".

Definition build_r4000_tlb_modify_handler : Syn unit :=
  start handle_tlbm ;;; clear_labels ;;;
  build_r4000_tlbchange_handler_head K0 K1 ;;;
  build_pte_modifiable K0 K1 label_nopage_tlbm ;;;
  build_make_write K0 K1 ;;;
  build_r4000_tlbchange_handler_tail K0 K1 ;;;
  finish label_nopage_tlbm (tlb_do_page_fault_1 c) "TLB modify handler fastpath space exceeded".

(** ** The entry point *)

Definition once (m : Syn unit) : Syn unit :=
  n <- sgets run_once ;;
  swhen (n =? 0) (m ;;; smod (fun s => set_run_once (run_once s + 1) s)).

Definition build_tlb_refill_handler : Syn unit :=
  match cputype c with
  | CPU_R2000 | CPU_R3000 | CPU_R3000A | CPU_R3081E | CPU_TX3912 | CPU_TX3922 | CPU_TX3927 =>
      build_r3000_tlb_refill_handler ;;;
      once (build_r3000_tlb_load_handler ;;; build_r3000_tlb_store_handler ;;;
            build_r3000_tlb_modify_handler)
  | CPU_R6000 | CPU_R6000A => panic "No R6000 TLB refill handler yet"
  | CPU_R8000 => panic "No R8000 TLB refill handler yet"
  | _ =>
      build_r4000_tlb_refill_handler ;;;
      once (build_r4000_tlb_load_handler ;;; build_r4000_tlb_store_handler ;;;
            build_r4000_tlb_modify_handler)
  end.
End Tlbex.
