(* ===== verification/Tlbsim.v ===== *)
(** * The processor, as a TLB handler sees it

    An interpreter of instruction words with delay slots, for the registers
    [k0] and [k1], the coprocessor 0 registers of the memory management unit
    and memory.  It refuses ([None]) every other general register, a branch in
    a delay slot, an instruction that [decode] does not know and, with
    [delayed], the use of a register in the load delay slot of the
    instruction that loads it.  [None] also stands for the end of fuel.

    This is the specification side: it follows the architecture, not the
    source.  Registers hold unsigned values of [XL] bits; the 32-bit
    instructions extend the sign of their result. *)

From S2P Require Import Prelude Rounding Ieee754 Inst Machine Branch Uasm UasmProps.

(** ** Memory: bytes, little-endian cells *)

Fixpoint mload (n : nat) (m : Z -> Z) (a : Z) : Z :=
  match n with
  | O => 0
  | S n => m a mod 256 + 256 * mload n m (a + 1)
  end.
Fixpoint mstore (n : nat) (m : Z -> Z) (a v : Z) : Z -> Z :=
  match n with
  | O => m
  | S n => mstore n (fun b => if b =? a then v mod 256 else m b) (a + 1) (v / 256)
  end.

(** ** State *)

Inductive tlb_event :=
  | TlbRandom (hi lo0 lo1 : Z)
  | TlbIndexed (index hi lo0 lo1 : Z).

(** What the exception left in coprocessor 0. *)
Record exn := mkexn {
  BadVAddr : Z; Context : Z; XContext : Z; EntryHi : Z; EPC : Z; TCBind : Z;
  probe : Z -> Z   (* result of [tlbp] for a value of [EntryHi] *) }.

(** [tlb] logs the writes of the TLB, the last one first; [popped] says that [rfe] was
    executed; [pend] is the register in its load delay slot, 0 if none;
    [fails] tells for each of the next [sc] whether it fails. *)
Record cpu := mkcpu {
  k0 : Z; k1 : Z; Index : Z; EntryLo0 : Z; EntryLo1 : Z; mem : Z -> Z;
  tlb : list tlb_event; popped : bool; pend : Z; fails : list bool }.

Inductive exit_to := Eret (s : cpu) | Goto (target : Z) (s : cpu).

Section Processor.
Variables (XL : Z) (delayed : bool) (e : exn).

(** ** Arithmetic *)

Definition sx32 (v : Z) : Z := wrap XL (swrap 32 v).
Definition addu (a b : Z) : Z := sx32 (a + b).
Definition subu (a b : Z) : Z := sx32 (a - b).
Definition daddu (a b : Z) : Z := wrap 64 (a + b).
Definition dsubu (a b : Z) : Z := wrap 64 (a - b).
Definition sll (a n : Z) : Z := sx32 (Z.shiftl a n).
Definition srl (a n : Z) : Z := sx32 (Z.shiftr (wrap 32 a) n).
Definition dsll (a n : Z) : Z := wrap 64 (Z.shiftl a n).
Definition dsrl (a n : Z) : Z := Z.shiftr a n.
Definition lui (i : Z) : Z := sx32 (i * 2 ^ 16).
Definition ea (a i : Z) : Z := wrap XL (a + i).
Definition lw (m : Z -> Z) (a : Z) : Z := sx32 (mload 4 m a).
Definition ld (m : Z -> Z) (a : Z) : Z := mload 8 m a.
Definition sw (m : Z -> Z) (a v : Z) : Z -> Z := mstore 4 m a v.
Definition sd (m : Z -> Z) (a v : Z) : Z -> Z := mstore 8 m a v.
Definition negative (a : Z) : bool := swrap XL a <? 0.
Definition equal (a b : Z) : bool := a =? b.

(** ** Registers *)

Definition get (s : cpu) (r : Z) : option Z :=
  if r =? 0 then Some 0
  else if r =? pend s then None
  else if r =? 26 then Some (k0 s)
  else if r =? 27 then Some (k1 s)
  else None.

(** Write [r], which is then available at once ([late] false) or after the
    next instruction. *)
Definition put (late : bool) (r v : Z) (s : cpu) : option cpu :=
  let p := if late && delayed then r else 0 in
  if r =? 0 then Some (mkcpu (k0 s) (k1 s) (Index s) (EntryLo0 s) (EntryLo1 s) (mem s) (tlb s) (popped s) 0 (fails s))
  else if r =? 26 then Some (mkcpu v (k1 s) (Index s) (EntryLo0 s) (EntryLo1 s) (mem s) (tlb s) (popped s) p (fails s))
  else if r =? 27 then Some (mkcpu (k0 s) v (Index s) (EntryLo0 s) (EntryLo1 s) (mem s) (tlb s) (popped s) p (fails s))
  else None.

Definition cp0_read (s : cpu) (rd sel : Z) : option Z :=
  match rd, sel with
  | 0, 0 => Some (Index s)
  | 2, 0 => Some (EntryLo0 s)
  | 2, 2 => Some (TCBind e)
  | 3, 0 => Some (EntryLo1 s)
  | 4, 0 => Some (Context e)
  | 8, 0 => Some (BadVAddr e)
  | 10, 0 => Some (EntryHi e)
  | 14, 0 => Some (EPC e)
  | 20, 0 => Some (XContext e)
  | _, _ => None
  end.

Definition settle (s : cpu) : cpu :=
  mkcpu (k0 s) (k1 s) (Index s) (EntryLo0 s) (EntryLo1 s) (mem s) (tlb s) (popped s) 0 (fails s).
Definition cp0_write (rd sel v : Z) (s : cpu) : option cpu :=
  match rd, sel with
  | 2, 0 => Some (mkcpu (k0 s) (k1 s) (Index s) (wrap 32 v) (EntryLo1 s) (mem s) (tlb s) (popped s) 0 (fails s))
  | 3, 0 => Some (mkcpu (k0 s) (k1 s) (Index s) (EntryLo0 s) (wrap 32 v) (mem s) (tlb s) (popped s) 0 (fails s))
  | _, _ => None
  end.
Definition set_mem (m : Z -> Z) (s : cpu) : cpu :=
  mkcpu (k0 s) (k1 s) (Index s) (EntryLo0 s) (EntryLo1 s) m (tlb s) (popped s) 0 (fails s).
Definition tlb_write (t : tlb_event) (s : cpu) : cpu :=
  mkcpu (k0 s) (k1 s) (Index s) (EntryLo0 s) (EntryLo1 s) (mem s) (t :: tlb s) (popped s) 0 (fails s).
Definition set_index (i : Z) (s : cpu) : cpu :=
  mkcpu (k0 s) (k1 s) i (EntryLo0 s) (EntryLo1 s) (mem s) (tlb s) (popped s) 0 (fails s).
Definition pop (s : cpu) : cpu :=
  mkcpu (k0 s) (k1 s) (Index s) (EntryLo0 s) (EntryLo1 s) (mem s) (tlb s) true 0 (fails s).
Definition next_sc (s : cpu) : cpu :=
  mkcpu (k0 s) (k1 s) (Index s) (EntryLo0 s) (EntryLo1 s) (mem s) (tlb s) (popped s) 0 (List.tl (fails s)).

(** ** Instructions other than branches *)

Definition alu2 (s : cpu) (a b d : Z) (f : Z -> Z -> Z) : option cpu :=
  match get s a, get s b with Some x, Some y => put false d (f x y) s | _, _ => None end.
Definition alu1 (s : cpu) (a d : Z) (f : Z -> Z) : option cpu :=
  match get s a with Some x => put false d (f x) s | None => None end.
Definition load_to (s : cpu) (b t i : Z) (f : (Z -> Z) -> Z -> Z) : option cpu :=
  match get s b with Some x => put true t (f (mem s) (ea x i)) s | None => None end.
Definition store_from (s : cpu) (b t i : Z) (f : (Z -> Z) -> Z -> Z -> (Z -> Z)) : option cpu :=
  match get s b, get s t with
  | Some x, Some v => Some (set_mem (f (mem s) (ea x i) v) s)
  | _, _ => None
  end.
Definition store_cond (s : cpu) (b t i : Z) (f : (Z -> Z) -> Z -> Z -> (Z -> Z)) : option cpu :=
  if hd false (fails s) then put false t 0 (next_sc s)
  else match store_from s b t i f with Some s' => put false t 1 (next_sc s') | None => None end.

Definition exec (op : opcode) (args : list Z) (s : cpu) : option cpu :=
  match op, args with
  | insn_addu, [a; b; d] => alu2 s a b d addu
  | insn_subu, [a; b; d] => alu2 s a b d subu
  | insn_daddu, [a; b; d] => alu2 s a b d daddu
  | insn_dsubu, [a; b; d] => alu2 s a b d dsubu
  | insn_and, [a; b; d] => alu2 s a b d Z.land
  | insn_xor, [a; b; d] => alu2 s a b d Z.lxor
  | insn_addiu, [a; d; i] => alu1 s a d (fun x => addu x i)
  | insn_daddiu, [a; d; i] => alu1 s a d (fun x => daddu x i)
  | insn_andi, [a; d; i] => alu1 s a d (fun x => Z.land x i)
  | insn_ori, [a; d; i] => alu1 s a d (fun x => Z.lor x i)
  | insn_xori, [a; d; i] => alu1 s a d (fun x => Z.lxor x i)
  | insn_sll, [a; d; n] => alu1 s a d (fun x => sll x n)
  | insn_srl, [a; d; n] => alu1 s a d (fun x => srl x n)
  | insn_dsll, [a; d; n] => alu1 s a d (fun x => dsll x n)
  | insn_dsll32, [a; d; n] => alu1 s a d (fun x => dsll x (n + 32))
  | insn_dsrl, [a; d; n] => alu1 s a d (fun x => dsrl x n)
  | insn_dsrl32, [a; d; n] => alu1 s a d (fun x => dsrl x (n + 32))
  | insn_lui, [d; i] => put false d (lui i) s
  | insn_lw, [b; t; i] | insn_ll, [b; t; i] => load_to s b t i lw
  | insn_ld, [b; t; i] | insn_lld, [b; t; i] => load_to s b t i ld
  | insn_sw, [b; t; i] => store_from s b t i sw
  | insn_sd, [b; t; i] => store_from s b t i sd
  | insn_sc, [b; t; i] => store_cond s b t i sw
  | insn_scd, [b; t; i] => store_cond s b t i sd
  | insn_mfc0, [t; d; sel] => match cp0_read s d sel with Some v => put true t (sx32 v) s | None => None end
  | insn_dmfc0, [t; d; sel] => match cp0_read s d sel with Some v => put true t v s | None => None end
  | insn_mtc0, [t; d; sel] => match get s t with Some v => cp0_write d sel v s | None => None end
  | insn_tlbp, [] => Some (set_index (probe e (EntryHi e)) s)
  | insn_tlbwi, [] => Some (tlb_write (TlbIndexed (Index s) (EntryHi e) (EntryLo0 s) (EntryLo1 s)) s)
  | insn_tlbwr, [] => Some (tlb_write (TlbRandom (EntryHi e) (EntryLo0 s) (EntryLo1 s)) s)
  | insn_rfe, [] => Some (pop s)
  | _, _ => None
  end.

(** ** Control flow *)

Inductive flow :=
  | Straight (s : cpu)                                (* go on with the next instruction *)
  | Branch (likely : bool) (off : Z) (taken : bool)   (* [off] in bytes *)
  | Away (target : Z)                                 (* jump out of the handler *)
  | Leave                                             (* eret *)
  | Stuck.

Definition branch (likely : bool) (off : Z) (c : option bool) : flow :=
  match c with Some b => Branch likely off b | None => Stuck end.
Definition cond1 (s : cpu) (a : Z) (f : Z -> bool) : option bool :=
  match get s a with Some x => Some (f x) | None => None end.
Definition cond2 (s : cpu) (a b : Z) (f : Z -> Z -> bool) : option bool :=
  match get s a, get s b with Some x, Some y => Some (f x y) | _, _ => None end.

Definition flow_of (op : opcode) (args : list Z) (s : cpu) : flow :=
  match op, args with
  | insn_beq, [a; b; off] => branch false off (cond2 s a b equal)
  | insn_bne, [a; b; off] => branch false off (cond2 s a b (fun x y => negb (equal x y)))
  | insn_beql, [a; b; off] => branch true off (cond2 s a b equal)
  | insn_bltz, [a; off] => branch false off (cond1 s a negative)
  | insn_bgez, [a; off] => branch false off (cond1 s a (fun x => negb (negative x)))
  | insn_bltzl, [a; off] => branch true off (cond1 s a negative)
  | insn_bgezl, [a; off] => branch true off (cond1 s a (fun x => negb (negative x)))
  | insn_j, [t] => Away t
  | insn_jr, [a] => match get s a with Some t => Away t | None => Stuck end
  | insn_eret, [] => Leave
  | _, _ => match exec op args s with Some s' => Straight s' | None => Stuck end
  end.

(** The instructions are those of [prog], decoded; position [i] is the [i]-th
    word. *)
Definition fetch_at (prog : list (option (opcode * list Z))) (i : Z) : option (opcode * list Z) :=
  nth (Z.to_nat i) prog None.

(** A delay slot holds an instruction that does not branch. *)
Definition slot (prog : list (option (opcode * list Z))) (i : Z) (s : cpu) : option cpu :=
  match fetch_at prog i with
  | Some (op, args) => exec op args (settle s)
  | None => None
  end.

(** At most [n] instructions, each with its delay slot. *)
Inductive progress := Cont (i : Z) (s : cpu) | Done (o : exit_to) | Bad.

Fixpoint advance (n : nat) (prog : list (option (opcode * list Z))) (i : Z) (s : cpu) : progress :=
  match n with
  | O => Cont i s
  | S n =>
      match fetch_at prog i with
      | None => Bad
      | Some (op, args) =>
          match flow_of op args s with
          | Straight s' => advance n prog (i + 1) s'
          | Branch likely off taken =>
              if taken then
                match slot prog (i + 1) s with
                | Some s' => advance n prog (i + 1 + off / 4) s'
                | None => Bad
                end
              else advance n prog (if likely then i + 2 else i + 1) (settle s)
          | Away t => match slot prog (i + 1) s with Some s' => Done (Goto t s') | None => Bad end
          | Leave => Done (Eret s)
          | Stuck => Bad
          end
      end
  end.

Definition run (fuel : nat) (prog : list (option (opcode * list Z))) (i : Z) (s : cpu) : option exit_to :=
  match advance fuel prog i s with Done o => Some o | _ => None end.

(** Execution of instruction words from the first one. *)
Definition execute (fuel : nat) (code : list Z) (s : cpu) : option exit_to :=
  run fuel (map decode code) 0 s.

Lemma advance_add a b prog i s :
  advance (a + b) prog i s = match advance a prog i s with Cont i' s' => advance b prog i' s' | r => r end.
Proof.
  revert i s; induction a as [|a IH]; intros i s; cbn [advance Nat.add]; [reflexivity|].
  destruct (fetch_at prog i) as [[op args]|]; [|reflexivity].
  destruct (flow_of op args s) as [s'|likely off []|t| |]; try reflexivity; try apply IH.
  - destruct (slot prog (i + 1) s); [apply IH|reflexivity].
  - destruct (slot prog (i + 1) s); reflexivity.
Qed.
End Processor.
