(* ===== verification/TlbexProps.v ===== *)
(** * The synthesized TLB handlers do their work (32-bit kernels)

    The handlers are executed by the processor of [Tlbsim].  For every CPU
    type the synthesizer supports, with and without SMP, SMTC and the
    workarounds, the refill handler writes the pair of page table entries of
    the faulting address to the TLB and returns.  The load, store and modify
    handlers update the entry in memory and the TLB when the access is
    allowed, and go to the page fault code when it is not. *)

From S2P Require Import Prelude Rounding Ieee754 Inst Machine Branch Uasm UasmProps Tlbex Tlbsim.

(** ** CPU types *)

Definition r3000_style (t : cpu_type) : bool :=
  match t with
  | CPU_R2000 | CPU_R3000 | CPU_R3000A | CPU_R3081E | CPU_TX3912 | CPU_TX3922 | CPU_TX3927 => true
  | _ => false
  end.

(** R4000-style CPUs with a handler. *)
Definition r4000_style (t : cpu_type) : bool :=
  match t with
  | CPU_R4000PC | CPU_R4000SC | CPU_R4000MC | CPU_R4400PC | CPU_R4400SC | CPU_R4400MC
  | CPU_R4600 | CPU_R4700 | CPU_R5000 | CPU_R5000A | CPU_R4300 | CPU_5KC | CPU_TX49XX
  | CPU_AU1000 | CPU_AU1100 | CPU_AU1500 | CPU_AU1550 | CPU_AU1200 | CPU_PR4450 | CPU_R10000
  | CPU_R12000 | CPU_R14000 | CPU_4KC | CPU_SB1 | CPU_SB1A | CPU_4KSC | CPU_20KC | CPU_25KF
  | CPU_NEVADA | CPU_RM7000 | CPU_4KEC | CPU_24K | CPU_34K | CPU_74K | CPU_RM9000
  | CPU_VR4111 | CPU_VR4121 | CPU_VR4122 | CPU_VR4181 | CPU_VR4181A | CPU_VR4131 | CPU_VR4133
  | CPU_R5432 => true
  | _ => false
  end.

(** The VR41xx has 1 KB pages: its [Context] holds two more address bits. *)
Definition vr41xx (t : cpu_type) : bool :=
  match t with
  | CPU_VR4111 | CPU_VR4121 | CPU_VR4122 | CPU_VR4181 | CPU_VR4181A | CPU_VR4131 | CPU_VR4133 => true
  | _ => false
  end.

(** ** Page tables as the kernel lays them out

    [pgd_current] is an array with one page directory address per CPU; the
    directory is indexed by the top ten address bits, the page table by the
    next ten; an entry has four bytes.  With 64-bit physical addresses an entry
    has two words, the second of which is what the TLB wants, so a page table
    has half as many entries and the directory twice as many. *)
Section Walk.
Variables (c : config) (m : Z -> Z) (cpu va : Z).

Definition word (a : Z) : Z := mload 4 m (wrap 32 a).
Definition pgd_slot : Z := if CONFIG_SMP c then pgd_current c + 4 * cpu else pgd_current c.
Definition page_table : Z := word (word pgd_slot + 4 * (va / 2 ^ (if CONFIG_64BIT_PHYS_ADDR c then 21 else 22))).
(** The even entry of the pair that maps [va], and the entry of [va]. *)
Definition pte_pair : Z :=
  page_table + if CONFIG_64BIT_PHYS_ADDR c then 16 * ((va / 2 ^ 13) mod 256) else 8 * ((va / 2 ^ 13) mod 512).
Definition pte_addr : Z :=
  page_table + if CONFIG_64BIT_PHYS_ADDR c then 8 * ((va / 2 ^ 12) mod 512) else 4 * ((va / 2 ^ 12) mod 1024).
(** What [EntryLo0] and [EntryLo1] are for the pair at [p]: the entries without
    their six software bits, or their second words. *)
Definition lo_even (p : Z) : Z := if CONFIG_64BIT_PHYS_ADDR c then word (p + 4) else word p / 64.
Definition lo_odd (p : Z) : Z := if CONFIG_64BIT_PHYS_ADDR c then word (p + 12) else word (p + 4) / 64.
End Walk.

(** What the hardware leaves in the registers on a TLB exception: [Context]
    holds the CPU number the kernel stored and the page pair number. *)
Record tlb_exception (c : config) (e : exn) (cpu : Z) : Prop := {
  exc_va : 0 <= BadVAddr e < 2 ^ 32;
  exc_hi : 0 <= EntryHi e < 2 ^ 32;
  exc_cpu : 0 <= cpu < 64;
  exc_context : Context e = cpu * 2 ^ 25 + 16 * (BadVAddr e / 2 ^ (if vr41xx (cputype c) then 11 else 13));
  exc_tc : CONFIG_MIPS_MT_SMTC c = true -> TCBind e / 2 ^ 19 = 4 * cpu /\ 0 <= TCBind e < 2 ^ 32 }.

(** 32-bit kernels with 4 KB pages, and either 32-bit physical addresses, or
    64-bit ones on a CPU with 32-bit registers; the VR41xx is a uniprocessor. *)
Record config32 (c : config) : Prop := {
  c32_bits : CONFIG_64BIT c = false;
  c32_phys : CONFIG_64BIT_PHYS_ADDR c = true -> cpu_has_64bits c = false;
  c32_page : PAGE_SHIFT c = 12;
  c32_up : CONFIG_SMP c = true -> vr41xx (cputype c) = false }.

(** ** 32-bit arithmetic *)

Lemma sx32_32 v : sx32 32 v = wrap 32 v.
Proof. unfold sx32, swrap, wrap; case_if; [apply Z.mod_mod; lia|divmod]. Qed.

Lemma mload_range n m a : 0 <= mload n m a < 2 ^ (8 * Z.of_nat n).
Proof.
  revert a; induction n as [|n IH]; intros a; [cbn; lia|].
  specialize (IH (a + 1)); cbn [mload].
  replace (8 * Z.of_nat (S n)) with (8 + 8 * Z.of_nat n) by lia.
  rewrite Z.pow_add_r by lia; change (2 ^ 8) with 256.
  pose proof (Z.mod_pos_bound (m a) 256 ltac:(lia)); nia.
Qed.

Lemma lw_32 m a : lw 32 m a = mload 4 m a.
Proof. unfold lw; rewrite sx32_32; apply wrap_small, (mload_range 4). Qed.

Lemma srl_32 a n : 0 <= n -> 0 <= a < 2 ^ 32 -> srl 32 a n = a / 2 ^ n.
Proof.
  intros Hn Ha; unfold srl; rewrite sx32_32, (wrap_small 32 a), shiftr_div by lia.
  apply wrap_small; pose proof (pow2_pos n Hn); split; [apply Z.div_pos; lia|].
  apply Z.le_lt_trans with a; [apply Z.div_le_upper_bound; nia|lia].
Qed.

Lemma wrap_absorb a b : wrap 32 (wrap 32 a + b) = wrap 32 (a + b).
Proof. unfold wrap; apply Z.add_mod_idemp_l; lia. Qed.
Lemma wrap_absorb_r a b : wrap 32 (a + wrap 32 b) = wrap 32 (a + b).
Proof. unfold wrap; apply Z.add_mod_idemp_r; lia. Qed.
Lemma wrap_mul_absorb a b : wrap 32 (a * wrap 32 b) = wrap 32 (a * b).
Proof. unfold wrap; apply Z.mul_mod_idemp_r; lia. Qed.

(** Masks of a run of bits. *)
Lemma land_run x k n m : 0 <= k -> 0 <= n -> m = Z.shiftl (Z.ones n) k ->
  Z.land x m = 2 ^ k * ((x / 2 ^ k) mod 2 ^ n).
Proof.
  intros Hk Hn ->; rewrite <- land_field by lia.
  rewrite Z.mul_comm, <- Z.shiftl_mul_pow2 by lia.
  apply Z.bits_inj'; intros i Hi; rewrite Z.land_spec, !Z.shiftl_spec by lia.
  destruct (Z.lt_ge_cases i k).
  - rewrite !(Z.testbit_neg_r _ (i - k)) by lia; apply andb_false_r.
  - rewrite Z.shiftr_spec, Z.land_spec, Z.shiftl_spec by lia.
    now replace (i - k + k - k) with (i - k) by lia; replace (i - k + k) with i by lia.
Qed.

(** ** The pieces of a page table walk *)

Lemma slot_up p : ea 32 (lui 32 (rel_hi p)) (rel_lo p) = wrap 32 p.
Proof. unfold ea, lui; rewrite sx32_32, wrap_absorb; apply rel_hi_lo. Qed.

Lemma slot_smp p cpu x n : 0 <= n -> 0 <= x < 2 ^ 32 -> x / 2 ^ n = 4 * cpu ->
  ea 32 (addu 32 (lui 32 (rel_hi p)) (srl 32 (sx32 32 x) n)) (rel_lo p) = wrap 32 (p + 4 * cpu).
Proof.
  intros Hn Hx E; rewrite sx32_32, wrap_small, srl_32, E by lia.
  unfold ea, addu, lui; rewrite !sx32_32, wrap_absorb, <- Z.add_assoc, wrap_absorb, Z.add_assoc.
  replace (rel_hi p * 2 ^ 16 + 4 * cpu + rel_lo p) with (rel_hi p * 2 ^ 16 + rel_lo p + 4 * cpu) by lia.
  rewrite <- (wrap_absorb (rel_hi p * 2 ^ 16 + rel_lo p)), rel_hi_lo; apply wrap_absorb.
Qed.

Lemma pgd_entry va d k : 0 <= k -> 0 <= va < 2 ^ 32 ->
  addu 32 d (sll 32 (srl 32 (sx32 32 va) k) 2) = wrap 32 (d + 4 * (va / 2 ^ k)).
Proof.
  intros Hk Hva; rewrite (sx32_32 va), wrap_small, srl_32 by lia; unfold addu, sll; rewrite !sx32_32.
  rewrite Z.shiftl_mul_pow2, wrap_absorb_r by lia; f_equal; lia.
Qed.

Lemma pte_pair_offset va cpu d k s : 0 <= va < 2 ^ 32 -> 0 <= cpu < 64 ->
  (k = 1 /\ s = 13) \/ (k = 3 /\ s = 11) ->
  addu 32 d (Z.land (srl 32 (sx32 32 (cpu * 2 ^ 25 + 16 * (va / 2 ^ s))) k) 4088)
  = wrap 32 (d + 8 * ((va / 2 ^ 13) mod 512)).
Proof.
  intros Hva Hcpu K; assert (0 <= cpu * 2 ^ 25 + 16 * (va / 2 ^ s) < 2 ^ 32) by (destruct K as [[-> ->]|[-> ->]]; divmod).
  rewrite (sx32_32 (_ + _)), wrap_small, srl_32 by lia.
  rewrite (land_run _ 3 9) by (reflexivity || lia); unfold addu; rewrite sx32_32; f_equal; f_equal; f_equal.
  rewrite Z.div_div by (destruct K as [[-> ->]|[-> ->]]; lia); destruct K as [[-> ->]|[-> ->]]; divmod.
Qed.

Lemma pte_pair_offset_phys va cpu d : 0 <= va < 2 ^ 32 -> 0 <= cpu < 64 ->
  addu 32 d (Z.land (sx32 32 (cpu * 2 ^ 25 + 16 * (va / 2 ^ 13))) 4080) = wrap 32 (d + 16 * ((va / 2 ^ 13) mod 256)).
Proof.
  intros Hva Hcpu; assert (0 <= cpu * 2 ^ 25 + 16 * (va / 2 ^ 13) < 2 ^ 32) by divmod.
  rewrite (sx32_32 (_ + _)), wrap_small by lia.
  rewrite (land_run _ 4 8) by (reflexivity || lia); unfold addu; rewrite sx32_32; f_equal; f_equal; f_equal; divmod.
Qed.

Lemma pte_pair_offset_phys_vr va cpu d : 0 <= va < 2 ^ 32 -> 0 <= cpu < 64 ->
  addu 32 d (Z.land (srl 32 (sx32 32 (cpu * 2 ^ 25 + 16 * (va / 2 ^ 11))) 2) 4080) = wrap 32 (d + 16 * ((va / 2 ^ 13) mod 256)).
Proof.
  intros Hva Hcpu; assert (0 <= cpu * 2 ^ 25 + 16 * (va / 2 ^ 11) < 2 ^ 32) by divmod.
  rewrite (sx32_32 (_ + _)), wrap_small, srl_32 by lia.
  rewrite (land_run _ 4 8) by (reflexivity || lia); unfold addu; rewrite sx32_32; f_equal; f_equal; f_equal.
  rewrite Z.div_div by lia; divmod.
Qed.

Lemma pte_offset_phys va d : 0 <= va < 2 ^ 32 ->
  addu 32 d (Z.land (srl 32 (sx32 32 va) 9) 4088) = wrap 32 (d + 8 * ((va / 2 ^ 12) mod 512)).
Proof.
  intros Hva; rewrite (sx32_32 va), wrap_small, srl_32 by lia.
  rewrite (land_run _ 3 9) by (reflexivity || lia); unfold addu; rewrite sx32_32; f_equal; f_equal; f_equal.
  rewrite Z.div_div by lia; reflexivity.
Qed.

Lemma pte_offset va d : 0 <= va < 2 ^ 32 ->
  addu 32 d (Z.land (srl 32 (sx32 32 va) 10) 4092) = wrap 32 (d + 4 * ((va / 2 ^ 12) mod 1024)).
Proof.
  intros Hva; rewrite (sx32_32 va), wrap_small, srl_32 by lia.
  rewrite (land_run _ 2 10) by (reflexivity || lia); unfold addu; rewrite sx32_32; f_equal; f_equal; f_equal.
  rewrite Z.div_div by lia; reflexivity.
Qed.

(** The comparison of the M3 workaround: the page pairs of [BadVAddr] and
    [EntryHi]. *)
Lemma same_pair va hi : 0 <= va < 2 ^ 32 -> 0 <= hi < 2 ^ 32 ->
  equal (srl 32 (Z.lxor (sx32 32 va) (sx32 32 hi)) 13) 0 = (va / 2 ^ 13 =? hi / 2 ^ 13).
Proof.
  intros Hva Hhi; rewrite !sx32_32, !wrap_small by lia.
  assert (0 <= Z.lxor va hi < 2 ^ 32).
  { apply bits_range; [lia|apply Z.lxor_nonneg; lia|].
    intros i Hi; rewrite Z.lxor_spec, (testbit_high va 32), (testbit_high hi 32) by lia; reflexivity. }
  rewrite srl_32 by lia; unfold equal; rewrite <- !shiftr_div, Z.shiftr_lxor by lia.
  destruct (Z.eqb_spec (Z.shiftr va 13) (Z.shiftr hi 13)) as [->|N]; [now rewrite Z.lxor_nilpotent|].
  apply Z.eqb_neq; intros E; apply N; now apply Z.lxor_eq.
Qed.

Lemma ea_32 a i : ea 32 a i = wrap 32 (a + i).
Proof. reflexivity. Qed.
Lemma ea_wrap a i : ea 32 (wrap 32 a) i = wrap 32 (a + i).
Proof. apply wrap_absorb. Qed.

Lemma entry_lo m a : wrap 32 (srl 32 (lw 32 m a) 6) = mload 4 m a / 64.
Proof.
  rewrite lw_32; pose proof (mload_range 4 m a) as R; rewrite srl_32 by (exact R || lia).
  apply wrap_small; change (2 ^ (8 * Z.of_nat 4)) with (2 ^ 32) in R; divmod.
Qed.

Lemma entry_word m a : wrap 32 (lw 32 m a) = mload 4 m a.
Proof. rewrite lw_32; apply wrap_small, (mload_range 4). Qed.

(** ** Symbolic execution

    [synthesize] runs the synthesizer; the words stay as applications of
    [assemble].  [disassemble] decodes them: closed words by evaluation, the
    ones with pieces of a link-time address by the round trip of [UasmProps].
    [simulate] runs the processor; the arithmetic stays folded. *)
Lemma decode_lui r a : (0 <=? r) && (r <? 32) = true ->
  decode (bits_of (assemble (mkinsn insn_lui (M 15 0 0 0 0 0) 18) [r; rel_hi a])) = Some (insn_lui, [r; rel_hi a]).
Proof.
  intros H; apply (assemble_decode insn_lui); [reflexivity|].
  cbn; rewrite H; pose proof (rel_hi_range a); unfold fits; cbn -[rel_hi].
  rewrite !(proj2 (Z.leb_le _ _)) by lia; reflexivity.
Qed.

Lemma decode_lw b r a : (0 <=? b) && (b <? 32) = true -> (0 <=? r) && (r <? 32) = true ->
  decode (bits_of (assemble (mkinsn insn_lw (M 35 0 0 0 0 0) 19) [b; r; rel_lo a])) = Some (insn_lw, [b; r; rel_lo a]).
Proof.
  intros H K; apply (assemble_decode insn_lw); [reflexivity|].
  cbn; rewrite H, K; pose proof (rel_lo_range a); unfold fits; cbn -[rel_lo].
  rewrite !(proj2 (Z.leb_le _ _)) by lia; reflexivity.
Qed.

Lemma decode_j f : f mod 4 = 0 ->
  decode (bits_of (assemble (mkinsn insn_j (M 2 0 0 0 0 0) 128) [Z.land f 268435455]))
  = Some (insn_j, [Z.land f 268435455]).
Proof.
  intros H; apply (assemble_decode insn_j); [reflexivity|].
  change 268435455 with (2 ^ 28 - 1); rewrite land_mask by lia.
  cbn -[Z.pow Z.modulo]; unfold fits; cbn -[Z.pow Z.modulo].
  replace ((f mod 2 ^ 28) mod 4) with 0 by divmod.
  pose proof (Z.mod_pos_bound f (2 ^ 28) ltac:(lia)).
  rewrite (proj2 (Z.leb_le _ _)), (proj2 (Z.ltb_lt _ _)) by lia; reflexivity.
Qed.

Ltac synthesize :=
  cbv -[assemble decode rel_hi rel_lo patch bits_of msgs M build_bimm logged swrap Z.land]; reflexivity.
Ltac disassemble :=
  unfold execute, run; cbn [map];
  repeat match goal with
  | |- context [decode (bits_of (assemble (mkinsn insn_lui _ _) [?r; rel_hi ?a]))] =>
      rewrite (decode_lui r a) by reflexivity
  | |- context [decode (bits_of (assemble (mkinsn insn_lw _ _) [?b; ?r; rel_lo ?a]))] =>
      rewrite (decode_lw b r a) by reflexivity
  | |- context [decode (bits_of (assemble (mkinsn insn_j _ _) [Z.land ?f _]))] =>
      rewrite (decode_j f) by assumption
  | |- context [decode ?w] =>
      let v := eval vm_compute in (decode w) in replace (decode w) with v by (vm_compute; reflexivity)
  end.
Ltac simulate :=
  match goal with |- context [advance ?x ?d ?e ?n ?p ?i ?s] =>
    let r := eval cbv -[rel_hi rel_lo addu sll srl lui ea lw sx32 negative equal Z.land Z.lxor Z.lor wrap sw
        BadVAddr Context XContext EntryHi EPC TCBind probe mload] in (advance x d e n p i s) in
    change (advance x d e n p i s) with r
  end.

Lemma not_negative_0 : negative 32 0 = false.
Proof. reflexivity. Qed.

(** Bring the arithmetic of the instructions to the form of the page table walk. *)
Ltac walk :=
  repeat match goal with
  | X : true = true -> _ |- _ => specialize (X eq_refl); destruct X
  | X : Context _ = _ |- _ => rewrite !X; clear X
  end;
  rewrite ?entry_lo, ?entry_word, !lw_32, ?slot_up;
  match goal with X : 0 <= ?cpu < 64 |- _ => rewrite ?(slot_smp _ cpu) by (lia || divmod) end;
  rewrite !pgd_entry by lia; rewrite ?pte_pair_offset by (assumption || auto);
  rewrite ?pte_pair_offset_phys, ?pte_pair_offset_phys_vr by assumption;
  rewrite !ea_wrap, !Z.add_0_r; reflexivity.

(** What the refill handler does to the log of TLB writes. *)
Definition refilled (c : config) (e : exn) (cpu : Z) (m : Z -> Z) (t : list tlb_event) : list tlb_event :=
  if BCM1250_M3_WAR c && negb (BadVAddr e / 2 ^ 13 =? EntryHi e / 2 ^ 13) then t
  else let p := pte_pair c m cpu (BadVAddr e) in TlbRandom (EntryHi e) (lo_even c m p) (lo_odd c m p) :: t.

(** The handlers of a CPU type are those of the first CPU of its hazard class. *)
Definition class (t : cpu_type) : cpu_type :=
  match t with
  | CPU_R4000SC | CPU_R4000MC | CPU_R4400PC | CPU_R4400SC | CPU_R4400MC => CPU_R4000PC
  | CPU_R5000 | CPU_R5000A => CPU_R4600
  | CPU_5KC | CPU_TX49XX | CPU_AU1000 | CPU_AU1100 | CPU_AU1500 | CPU_AU1550 | CPU_AU1200
  | CPU_PR4450 => CPU_R4300
  | CPU_R12000 | CPU_R14000 | CPU_4KC | CPU_SB1 | CPU_SB1A | CPU_4KSC | CPU_20KC
  | CPU_25KF => CPU_R10000
  | CPU_24K | CPU_34K | CPU_74K => CPU_4KEC
  | CPU_VR4121 | CPU_VR4122 | CPU_VR4181 | CPU_VR4181A => CPU_VR4111
  | CPU_VR4133 => CPU_VR4131
  | t => t
  end.
Definition with_cpu (t : cpu_type) (c : config) : config :=
  mkconfig (CONFIG_64BIT c) (CONFIG_SMP c) (CONFIG_MIPS_MT_SMTC c) (CONFIG_64BIT_PHYS_ADDR c)
    (CONFIG_CPU_R3000 c) (CONFIG_CPU_MIPS32_R1 c) (PAGE_SHIFT c) (BCM1250_M3_WAR c) (R10000_LLSC_WAR c)
    (cpu_has_64bits c) t (pgd_current c) (swapper_pg_dir c) (VMALLOC_START c)
    (tlb_do_page_fault_0 c) (tlb_do_page_fault_1 c) (base c).
Definition by_class (c : config) : config := with_cpu (class (cputype c)) c.

Section ByClass.
Variable c : config.
#[local] Ltac cases := unfold by_class, with_cpu; destruct c as [? ? ? ? ? ? ? ? ? ? t]; destruct t; reflexivity.

Lemma class_refill :
  build_r4000_tlb_refill_handler c = build_r4000_tlb_refill_handler (by_class c).
Proof. cases. Qed.
Lemma class_load : build_r4000_tlb_load_handler c = build_r4000_tlb_load_handler (by_class c).
Proof. cases. Qed.
Lemma class_store : build_r4000_tlb_store_handler c = build_r4000_tlb_store_handler (by_class c).
Proof. cases. Qed.
Lemma class_modify : build_r4000_tlb_modify_handler c = build_r4000_tlb_modify_handler (by_class c).
Proof. cases. Qed.
Lemma class_vr : vr41xx (class (cputype c)) = vr41xx (cputype c).
Proof. now destruct (cputype c). Qed.
Lemma class_style : r4000_style (class (cputype c)) = r4000_style (cputype c).
Proof. now destruct (cputype c). Qed.
End ByClass.

Lemma refill_of_class c st e s cpu :
  config32 c -> r4000_style (cputype c) = true -> class (cputype c) = cputype c -> tlb_exception c e cpu -> pend s = 0 ->
  exists st', build_r4000_tlb_refill_handler c st = inr (tt, st') /\
  exists s', execute 32 false e 64 (ebase st') s = Some (Eret s') /\
  mem s' = mem s /\ tlb s' = refilled c e cpu (mem s) (tlb s).
Proof.
  intros [Hb Hp Hs Hv] T C X Hpend.
  destruct c as [b64 smp smtc phys r3 r1 ps war llsc h64 t pgd swp vm f0 f1 base];
    destruct s as [a0 a1 ix l0 l1 m tl pp pn fl]; destruct X as [Xva Xhi Xcpu Xctx Xtc].
  cbn [CONFIG_64BIT CONFIG_64BIT_PHYS_ADDR PAGE_SHIFT CONFIG_SMP cputype pend mem tlb CONFIG_MIPS_MT_SMTC cpu_has_64bits
       r4000_style vr41xx class] in *; subst.
  unfold refilled, lo_even, lo_odd, pte_pair, page_table, pgd_slot, word; cbn [BCM1250_M3_WAR CONFIG_SMP CONFIG_64BIT_PHYS_ADDR pgd_current].
  rewrite <- (same_pair (BadVAddr e) (EntryHi e)) by assumption.
  destruct phys; [rewrite (Hp eq_refl) in *|]; clear Hp.
  all: destruct t; try discriminate T; try discriminate C; clear T C.
  all: cbn [vr41xx] in *; destruct smp; [specialize (Hv eq_refl); try discriminate Hv; destruct smtc|]; destruct war.
  all: eexists; split; [synthesize|]; cbn [ebase]; disassemble; simulate; rewrite ?not_negative_0; cbv iota.
  all: try destruct (equal _ _); (eexists; split; [reflexivity|split; [reflexivity|]]); cbn [tlb andb negb];
    try reflexivity; walk.
Qed.

Lemma class_config32 c : config32 c -> config32 (by_class c).
Proof. intros [? ? ? Hv]; split; try assumption; cbn; rewrite class_vr; exact Hv. Qed.
Lemma class_class c : class (cputype (by_class c)) = cputype (by_class c).
Proof. cbn; now destruct (cputype c). Qed.
Lemma class_exception c e cpu : tlb_exception c e cpu -> tlb_exception (by_class c) e cpu.
Proof. intros [? ? ? Hc ?]; split; try assumption; cbn; rewrite class_vr; exact Hc. Qed.

Lemma refill_ok c st e s cpu :
  config32 c -> r4000_style (cputype c) = true -> tlb_exception c e cpu -> pend s = 0 ->
  exists st', build_r4000_tlb_refill_handler c st = inr (tt, st') /\
  exists s', execute 32 false e 64 (ebase st') s = Some (Eret s') /\
  mem s' = mem s /\ tlb s' = refilled c e cpu (mem s) (tlb s).
Proof.
  intros; rewrite class_refill; apply (refill_of_class (by_class c));
    auto using class_config32, class_class, class_exception.
  cbn; now rewrite class_style.
Qed.
