(* ===== verification/TlbexChange.v ===== *)
(** * The TLB load, store and modify handlers (32-bit kernels)

    The handlers for an access to a page whose TLB entry does not allow it.
    When the page table entry allows the access, its status bits are set in
    memory, the pair of entries is written to the TLB entry that [tlbp] found,
    and the handler returns; otherwise it goes to the page fault code with
    nothing changed.  On SMP the update is a load linked / store conditional
    loop: any number of failed stores only repeats it. *)

From S2P Require Import Prelude Rounding Ieee754 Inst Machine Branch Uasm UasmProps Tlbex Tlbsim TlbexProps.

(** ** What a handler is for *)

Inductive access := Load | Store | Modify.

Definition handler_of (a : access) (c : config) : Syn unit :=
  match a with
  | Load => build_r4000_tlb_load_handler c
  | Store => build_r4000_tlb_store_handler c
  | Modify => build_r4000_tlb_modify_handler c
  end.
Definition code_of (a : access) (st : synth) : list Z :=
  match a with Load => s_tlbl st | Store => s_tlbs st | Modify => s_tlbm st end.

(** The bits an access requires, and those it sets. *)
Definition required (c : config) (a : access) : Z :=
  match a with
  | Load => Z.lor (_PAGE_PRESENT c) (_PAGE_READ c)
  | Store => Z.lor (_PAGE_PRESENT c) (_PAGE_WRITE c)
  | Modify => _PAGE_WRITE c
  end.
Definition granted (c : config) (a : access) : Z :=
  match a with
  | Load => Z.lor (_PAGE_VALID c) (_PAGE_ACCESSED c)
  | _ => Z.lor (Z.lor (Z.lor (_PAGE_ACCESSED c) (_PAGE_MODIFIED c)) (_PAGE_VALID c)) (_PAGE_DIRTY c)
  end.
(** With 64-bit physical addresses, the ones for the second word of the entry. *)
Definition hw_granted (c : config) (a : access) : Z :=
  match a with Load => _PAGE_VALID c | _ => Z.lor (_PAGE_VALID c) (_PAGE_DIRTY c) end.
Definition allows (c : config) (a : access) (pte : Z) : bool := Z.land pte (required c a) =? required c a.
(** Where [j] goes, within the 256 MB segment of the handler. *)
Definition page_fault (c : config) (a : access) : Z :=
  Z.land (match a with Load => tlb_do_page_fault_0 c | _ => tlb_do_page_fault_1 c end) 0x0fffffff.

(** ** Lemmas on the bits *)

Lemma missing_bits x m : equal (Z.lxor (Z.land x m) m) 0 = (Z.land x m =? m).
Proof.
  unfold equal; destruct (Z.eqb_spec (Z.land x m) m) as [->|N]; [now rewrite Z.lxor_nilpotent|].
  apply Z.eqb_neq; intros E; apply N; now apply Z.lxor_eq.
Qed.

Lemma missing_bit x k : 0 <= k -> equal (Z.land x (2 ^ k)) 0 = negb (Z.land x (2 ^ k) =? 2 ^ k).
Proof.
  intros; unfold equal; rewrite land_bit by lia; pose proof (pow2_pos k ltac:(lia)).
  destruct (Z.testbit x k); [rewrite Z.eqb_refl; apply Z.eqb_neq; lia|].
  destruct (Z.eqb_spec 0 (2 ^ k)); [lia|reflexivity].
Qed.

(** [ori] and [xori] with the size of an entry clear its bit. *)
Lemma clear_bit x k : 0 <= k -> Z.lxor (Z.lor x (2 ^ k)) (2 ^ k) = x - 2 ^ k * ((x / 2 ^ k) mod 2).
Proof.
  intros Hk; transitivity (Z.land x (Z.lnot (2 ^ k))).
  - apply Z.bits_inj'; intros i Hi.
    rewrite Z.lxor_spec, Z.lor_spec, Z.land_spec, Z.lnot_spec, Z.pow2_bits_eqb by lia.
    destruct (Z.testbit x i), (k =? i); reflexivity.
  - rewrite land_lnot_bit, Z.testbit_eqb by lia.
    destruct (Z.eqb_spec ((x / 2 ^ k) mod 2) 1) as [->|]; [lia|].
    pose proof (Z.mod_pos_bound (x / 2 ^ k) 2 ltac:(lia)); replace ((x / 2 ^ k) mod 2) with 0 by lia; lia.
Qed.

Lemma pair_of_pte t va : t mod 4096 = 0 -> 0 <= t < 2 ^ 32 -> 0 <= va ->
  Z.lxor (Z.lor (wrap 32 (t + 4 * ((va / 2 ^ 12) mod 1024))) 4) 4 = t + 8 * ((va / 2 ^ 13) mod 512).
Proof. intros; change 4 with (2 ^ 2) at 2 3; rewrite (clear_bit _ 2), wrap_small by divmod; divmod. Qed.
Lemma pair_of_pte_phys t va : t mod 4096 = 0 -> 0 <= t < 2 ^ 32 -> 0 <= va ->
  Z.lxor (Z.lor (wrap 32 (t + 8 * ((va / 2 ^ 12) mod 512))) 8) 8 = t + 16 * ((va / 2 ^ 13) mod 256).
Proof. intros; change 8 with (2 ^ 3) at 2 3; rewrite (clear_bit _ 3), wrap_small by divmod; divmod. Qed.

(** A store leaves the other word of an entry alone. *)
Lemma mstore_other n : forall m a v b, b < a \/ a + Z.of_nat n <= b -> mstore n m a v b = m b.
Proof.
  induction n as [|n IH]; intros m a v b H; cbn [mstore]; [reflexivity|]; rewrite IH by lia.
  now rewrite (proj2 (Z.eqb_neq b a)) by lia.
Qed.
Lemma mload_ext n m m' : forall a, (forall b, a <= b < a + Z.of_nat n -> m b = m' b) -> mload n m a = mload n m' a.
Proof.
  induction n as [|n IH]; intros a H; cbn [mload]; [reflexivity|]; rewrite H by lia; f_equal; f_equal; apply IH; intros b Hb; apply H; lia.
Qed.
Lemma high_word m p v : 0 <= p < 2 ^ 32 -> mload 4 (sw m p v) (ea 32 p 4) = mload 4 m (wrap 32 (p + 4)).
Proof.
  intros Hp; change (ea 32 p 4) with (wrap 32 (p + 4)); apply mload_ext; intros b Hb; apply mstore_other.
  unfold wrap in Hb; change (Z.of_nat 4) with 4 in *; divmod.
Qed.

(** ** What the handlers do *)

Section Effect.
Variables (c : config) (a : access) (e : exn) (cpu : Z) (s : Tlbsim.cpu).
Let va := BadVAddr e.
Let table := page_table c (mem s) cpu va.
Let pte := word (mem s) (pte_addr c (mem s) cpu va).

(** The page table after the access, and the pair that goes to the TLB. *)
Definition updated : Z -> Z :=
  let P := pte_addr c (mem s) cpu va in
  let m := sw (mem s) (wrap 32 P) (Z.lor pte (granted c a)) in
  if CONFIG_64BIT_PHYS_ADDR c then sw m (wrap 32 (P + 4)) (Z.lor (word (mem s) (P + 4)) (hw_granted c a)) else m.
Definition written : tlb_event :=
  let p := pte_pair c (mem s) cpu va in
  TlbIndexed (probe e (EntryHi e)) (EntryHi e) (lo_even c updated p) (lo_odd c updated p).

(** The M3 workaround applies to the load handler. *)
Definition bypassed : bool :=
  match a with
  | Load => BCM1250_M3_WAR c && negb (va / 2 ^ 13 =? EntryHi e / 2 ^ 13)
  | _ => false
  end.

Definition effect (o : exit_to) : Prop :=
  if bypassed then exists s', o = Eret s' /\ mem s' = mem s /\ tlb s' = tlb s
  else if allows c a pte
  then exists s', o = Eret s' /\ mem s' = updated /\ tlb s' = written :: tlb s
  else exists s', o = Goto (page_fault c a) s' /\ mem s' = mem s /\ tlb s' = tlb s.
End Effect.

(** ** From the address of the entry on

    The handlers first compute the address [P] of the entry; the rest is the
    loop of the update, which starts with a load from [P]. *)
Section Tail.
Variables (c : config) (a : access) (e : exn) (P : Z) (s : Tlbsim.cpu).
Let pte := mload 4 (mem s) P.

Definition updated_at : Z -> Z :=
  let m := sw (mem s) P (Z.lor pte (granted c a)) in
  if CONFIG_64BIT_PHYS_ADDR c then sw m (wrap 32 (P + 4)) (Z.lor (mload 4 (mem s) (wrap 32 (P + 4))) (hw_granted c a)) else m.
Definition written_at : tlb_event :=
  let n := if CONFIG_64BIT_PHYS_ADDR c then 8 else 4 in
  let p := Z.lxor (Z.lor P n) n in
  TlbIndexed (probe e (EntryHi e)) (EntryHi e) (lo_even c updated_at p) (lo_odd c updated_at p).
Definition effect_at (o : exit_to) : Prop :=
  if allows c a pte
  then exists s', o = Eret s' /\ mem s' = updated_at /\ tlb s' = written_at :: tlb s
  else exists s', o = Goto (page_fault c a) s' /\ mem s' = mem s /\ tlb s' = tlb s.
End Tail.

(** Running on after the end changes nothing. *)
Lemma advance_more e n k prog i s o :
  advance 32 false e n prog i s = Done o -> advance 32 false e (n + k) prog i s = Done o.
Proof. intros H; rewrite advance_add, H; reflexivity. Qed.

(** A program whose tail at position [L], reached with [P] in [k1], has the
    effect of [effect_at] after any number [k] of failed stores. *)
Definition tail_ok (c : config) (a : access) (e : exn) (prog : list (option (opcode * list Z))) (L : Z) : Prop :=
  forall P k s fl, 0 <= P < 2 ^ 32 -> k1 s = P -> pend s = 0 -> fails s = repeat true k ++ fl -> hd false fl = false ->
  exists o, advance 32 false e (40 + 16 * k) prog L s = Done o /\ effect_at c a e P s o.

Lemma effect_at_ext c a e P s s' o : mem s' = mem s -> tlb s' = tlb s ->
  effect_at c a e P s' o -> effect_at c a e P s o.
Proof. intros Hm Ht; unfold effect_at, written_at, updated_at; rewrite Hm, Ht; exact (fun x => x). Qed.

(** One turn with a store that succeeds, and one with a store that fails. *)
Definition turn_ok (c : config) (a : access) (e : exn) (prog : list (option (opcode * list Z))) (L : Z) : Prop :=
  forall P s, 0 <= P < 2 ^ 32 -> k1 s = P -> pend s = 0 -> CONFIG_SMP c = false \/ hd false (fails s) = false ->
  exists o, advance 32 false e 40 prog L s = Done o /\ effect_at c a e P s o.
Definition turn_fails (c : config) (a : access) (e : exn) (prog : list (option (opcode * list Z))) (L : Z) : Prop :=
  forall P s, 0 <= P < 2 ^ 32 -> k1 s = P -> pend s = 0 -> hd false (fails s) = true ->
  if allows c a (mload 4 (mem s) P) then
    exists n s', (n <= 16)%nat /\ advance 32 false e n prog L s = Cont L s' /\
      k1 s' = P /\ pend s' = 0 /\ mem s' = mem s /\ tlb s' = tlb s /\ fails s' = List.tl (fails s)
  else exists o, advance 32 false e 40 prog L s = Done o /\ effect_at c a e P s o.

Lemma loop_ok c a e prog L : turn_ok c a e prog L ->
  CONFIG_SMP c = false \/ turn_fails c a e prog L -> tail_ok c a e prog L.
Proof.
  intros A B P k; induction k as [|k IH]; intros s fl HP Hk Hp Hf Hfl.
  - destruct (A P s HP Hk Hp) as (o & Ho & E); [right; now rewrite Hf|].
    exists o; split; [exact Ho|exact E].
  - destruct B as [B|B].
    { destruct (A P s HP Hk Hp) as (o & Ho & E); [now left|].
      exists o; split; [now apply advance_more|exact E]. }
    specialize (B P s HP Hk Hp); rewrite Hf in B; specialize (B eq_refl).
    destruct (allows c a (mload 4 (mem s) P)) eqn:Al.
    + destruct B as (n & s' & Hn & Hc & K1 & K2 & K3 & K4 & K5); cbn [repeat app List.tl] in K5.
      destruct (IH s' fl HP K1 K2 K5 Hfl) as (o & Ho & E); exists o; split.
      * replace (40 + 16 * S k)%nat with (n + ((40 + 16 * k) + (16 - n)))%nat by lia.
        rewrite advance_add, Hc; now apply advance_more.
      * exact (effect_at_ext _ _ _ _ _ _ _ K3 K4 E).
    + destruct B as (o & Ho & E); exists o; split; [now apply advance_more|exact E].
Qed.

(** The handler up to the loop: it leaves the address of the entry in [k1],
    or returns at once when the workaround says so. *)
Definition head_ok (c : config) (a : access) (e : exn) (cpu : Z)
  (prog : list (option (opcode * list Z))) (n : nat) (L : Z) : Prop :=
  forall s, pend s = 0 ->
  if bypassed c a e then
    exists s', advance 32 false e 24 prog 0 s = Done (Eret s') /\ mem s' = mem s /\ tlb s' = tlb s
  else
    exists s', advance 32 false e n prog 0 s = Cont L s' /\
      k1 s' = wrap 32 (pte_addr c (mem s) cpu (BadVAddr e)) /\ pend s' = 0 /\
      mem s' = mem s /\ tlb s' = tlb s /\ fails s' = fails s.

(** Position of the loop. *)
Definition loop_at (c : config) (a : access) : nat :=
  (match a with Load => if BCM1250_M3_WAR c then 5 else 0 | _ => 0 end
   + if CONFIG_SMP c then 14 else 11)%nat.

Lemma entry_lo_at m a i : wrap 32 (srl 32 (mload 4 m (ea 32 a i)) 6) = mload 4 m (wrap 32 (a + i)) / 64.
Proof. rewrite <- lw_32; apply entry_lo. Qed.

Lemma entry_word_at m a i : wrap 32 (mload 4 m (ea 32 a i)) = mload 4 m (wrap 32 (a + i)).
Proof. apply wrap_small, (mload_range 4). Qed.

Lemma ea_0 p : 0 <= p < 2 ^ 32 -> ea 32 p 0 = p.
Proof. intros; unfold ea; rewrite Z.add_0_r; now apply wrap_small. Qed.
Lemma equal_0_0 : equal 0 0 = true.
Proof. reflexivity. Qed.
Lemma equal_1_0 : equal 1 0 = false.
Proof. reflexivity. Qed.
Lemma missing_write x : equal (Z.land x 4) 0 = negb (Z.land x 4 =? 4).
Proof. exact (missing_bit x 2 ltac:(lia)). Qed.

Lemma missing_write_r1 x : equal (Z.land x 256) 0 = negb (Z.land x 256 =? 256).
Proof. exact (missing_bit x 8 ltac:(lia)). Qed.

Ltac state s := destruct s as [a0 a1 ix l0 l1 m tl pp pn fl]; cbn [k0 k1 pend mem tlb fails] in *; subst.

(** Evaluate the masks of a configuration. *)
Ltac masks := repeat match goal with
  | |- context [required ?c ?a] => let v := eval vm_compute in (required c a) in change (required c a) with v
  | |- context [hw_granted ?c ?a] => let v := eval vm_compute in (hw_granted c a) in change (hw_granted c a) with v
  | |- context [granted ?c ?a] => let v := eval vm_compute in (granted c a) in change (granted c a) with v
  end.

Ltac head :=
  intros s Hs; state s; unfold bypassed; cbn [BCM1250_M3_WAR andb]; rewrite <- ?same_pair by assumption;
  repeat simulate; try destruct (equal _ _); cbv iota; cbn [negb];
  (eexists; repeat split; try reflexivity);
  cbn [k1 mem]; unfold pte_addr, page_table, pgd_slot, word; cbn [CONFIG_SMP CONFIG_64BIT_PHYS_ADDR pgd_current];
  rewrite !lw_32, ?slot_up;
  repeat match goal with X : true = true -> _ |- _ => specialize (X eq_refl); destruct X end;
  try match goal with X : Context _ = _ |- _ => rewrite ?X end;
  match goal with X : 0 <= ?cpu < 64 |- _ => rewrite ?(slot_smp _ cpu) by (lia || divmod) end;
  rewrite !pgd_entry by lia; rewrite ?pte_offset, ?pte_offset_phys, !ea_wrap, !Z.add_0_r by lia; reflexivity.

Ltac simplify_run := rewrite ?not_negative_0, ?ea_0, ?lw_32, ?missing_bits, ?missing_write, ?missing_write_r1, ?high_word by lia; cbv iota.

Ltac conclude := (eexists; split; [reflexivity|]); eexists; (split; [reflexivity|]);
  cbn [mem tlb]; rewrite ?entry_lo_at, ?entry_word_at, ?Z.add_0_r; split; reflexivity.

Ltac turn_up := let Hf := fresh in
  intros P s HP Hk Hp Hf; state s; clear Hf; unfold effect_at, written_at, updated_at, lo_even, lo_odd, word, allows; cbn [CONFIG_64BIT_PHYS_ADDR]; masks;
  simulate; simplify_run; cbn [mem tlb];
  match goal with |- context [if ?x =? ?y then _ else _] => destruct (x =? y) end; cbv iota; cbn [negb];
  conclude.

(** The first [a] instructions, then [b] more. *)
Lemma advance_split e a b prog i s r o :
  advance 32 false e a prog i s = r ->
  match r with Cont i' s' => advance 32 false e b prog i' s' = Done o | Done o' => o' = o | Bad => False end ->
  advance 32 false e (a + b) prog i s = Done o.
Proof. intros Ha Hr; rewrite advance_add, Ha; destruct r; [exact Hr|now subst|destruct Hr]. Qed.

(** SMP: the first [n] instructions end after the branch that tests the store. *)
Ltac turn_smp n := let Hf := fresh in let E := fresh in
  intros P s HP Hk Hp Hf; destruct Hf as [Hf|Hf]; [discriminate Hf|]; state s;
  match goal with l : list bool |- _ => destruct l as [|[|] ?] end; try discriminate Hf;
  unfold effect_at, written_at, updated_at, lo_even, lo_odd, word, allows; cbn [CONFIG_64BIT_PHYS_ADDR]; masks; cbn [mem tlb];
  match goal with |- context [if ?x =? ?y then _ else _] => destruct (x =? y) eqn:E end;
  (eexists; split;
   [let k := eval cbv in (40 - n)%nat in change 40%nat with (n + k)%nat; eapply advance_split;
    [simulate; simplify_run; rewrite E, ?equal_1_0; cbv iota; cbn [negb]; reflexivity|cbv iota beta];
    lazymatch goal with
    | |- advance _ _ _ _ _ _ _ = _ => simulate; simplify_run; reflexivity
    | _ => reflexivity
    end|]);
  eexists; (split; [reflexivity|]); cbn [mem tlb]; rewrite ?entry_lo_at, ?Z.add_0_r; split; reflexivity.

Ltac turn_smp_fails n := let Hf := fresh in let E := fresh in
  intros P s HP Hk Hp Hf; state s;
  match goal with l : list bool |- _ => destruct l as [|[|] ?] end; try discriminate Hf;
  unfold effect_at, written_at, updated_at, lo_even, lo_odd, word, allows; cbn [CONFIG_64BIT_PHYS_ADDR]; masks; cbn [mem tlb];
  match goal with |- context [if ?x =? ?y then _ else _] => destruct (x =? y) eqn:E end;
  [exists n; eexists; (split; [lia|]); (split;
    [simulate; simplify_run; rewrite E, ?equal_0_0; cbv iota; cbn [negb]; reflexivity|]); repeat split; reflexivity
  |eexists; (split;
    [let k := eval cbv in (40 - n)%nat in change 40%nat with (n + k)%nat; eapply advance_split;
     [simulate; simplify_run; rewrite E; cbv iota; cbn [negb]; reflexivity|cbv iota beta; reflexivity]|]);
   eexists; (split; [reflexivity|]); split; reflexivity].

(** SMTC and the workarounds are configured for the CPUs that need them. *)
Record for_its_cpu (c : config) : Prop := {
  only_smtc : CONFIG_MIPS_MT_SMTC c = true -> class (cputype c) = CPU_4KEC;
  only_war : BCM1250_M3_WAR c = true -> class (cputype c) = CPU_R10000;
  only_llsc : R10000_LLSC_WAR c = true -> class (cputype c) = CPU_R10000 }.

(** With 64-bit physical addresses on a CPU with 32-bit registers: one CPU, and
    the entries of MIPS32. *)
Definition phys_up (c : config) : Prop :=
  CONFIG_64BIT_PHYS_ADDR c = true -> CONFIG_SMP c = false /\ CONFIG_CPU_MIPS32_R1 c = true.

(** Instructions of a turn of the loop. *)
Definition turn_length (c : config) (a : access) : nat :=
  (match a with Modify => 8 | _ => 9 end
   + match cputype c with CPU_R4600 | CPU_NEVADA => 1 | _ => 0 end)%nat.

Ltac synthesized := eexists; split; [synthesize|];
  cbn [code_of s_tlbl s_tlbs s_tlbm loop_at CONFIG_SMP BCM1250_M3_WAR Nat.add Z.of_nat Pos.of_succ_nat Pos.succ];
  cbv zeta; disassemble; split; [head|].

Lemma change_of_class a c st e cpu :
  config32 c -> for_its_cpu c -> phys_up c -> CONFIG_CPU_R3000 c = false ->
  r4000_style (cputype c) = true -> class (cputype c) = cputype c -> tlb_exception c e cpu ->
  tlb_do_page_fault_0 c mod 4 = 0 -> tlb_do_page_fault_1 c mod 4 = 0 ->
  exists st', handler_of a c st = inr (tt, st') /\
  let prog := map decode (code_of a st') in let L := Z.of_nat (loop_at c a) in
  head_ok c a e cpu prog (loop_at c a) L /\ turn_ok c a e prog L /\
  (CONFIG_SMP c = false \/ turn_fails c a e prog L).
Proof.
  intros [Hb Hp Hs Hv] [O1 O2 O3] U R3 T C X F0 F1; unfold phys_up in U.
  destruct c as [b64 smp smtc phys r3 r1 ps war llsc h64 t pgd swp vm f0 f1 base];
    destruct X as [Xva Xhi Xcpu Xctx Xtc].
  cbn [CONFIG_64BIT CONFIG_64BIT_PHYS_ADDR PAGE_SHIFT CONFIG_SMP cputype CONFIG_MIPS_MT_SMTC BCM1250_M3_WAR
       R10000_LLSC_WAR CONFIG_CPU_R3000 CONFIG_CPU_MIPS32_R1 cpu_has_64bits r4000_style vr41xx class tlb_do_page_fault_0 tlb_do_page_fault_1] in *; subst.
  destruct phys; [rewrite (Hp eq_refl) in *; destruct (U eq_refl) as [-> ->]|]; clear Hp U.
  all: destruct t; try discriminate T; try discriminate C; clear T C; cbn [vr41xx class] in *.
  all: try (destruct smp; [specialize (Hv eq_refl); try discriminate Hv|]).
  all: destruct war; [try discriminate (O2 eq_refl)|].
  all: try (destruct llsc; [try discriminate (O3 eq_refl)|]; (destruct smtc; [try discriminate (O1 eq_refl)|])).
  all: destruct a; synthesized.
  all: lazymatch goal with
    | |- turn_ok ?c ?a _ _ _ /\ (true = false \/ _) =>
        let n := eval vm_compute in (turn_length c a) in split; [turn_smp n|right; turn_smp_fails n]
    | |- _ => split; [turn_up|left; reflexivity]
    end.
Qed.
