(* ===== verification/TlbexSafe.v ===== *)
(** * The synthesizer never fails

    A small program logic for the synthesizer's monad: [Emits n m] says that
    [m] appends at most [n] instructions at the current position, stores
    nowhere else, logs no warning, and creates labels and relocations only for
    what it emitted.  With it: for every configuration and CPU type the
    synthesizer either ends without a warning and without a store outside of
    its buffers, or it panics because the CPU type has no handler. *)

From S2P Require Import Prelude Rounding Ieee754 Inst Machine Branch Uasm UasmProps Tlbex Tlbsim TlbexProps.
#[local] Open Scope syn_scope.

(** ** What emitting code does to the state *)

Record grown (b : buffer) (i i' : Z) (strict : bool) (s s' : synth) (ls : list label) (rs : list reloc) : Prop := {
  gr_at : at_p s' = mkptr b i';
  gr_labels : labels s' = labels s ++ ls;
  gr_relocs : relocs s' = relocs s ++ rs;
  gr_ls : Forall (fun l => pbuf (l_addr l) = b /\ i <= pidx (l_addr l) <= i' - b2z strict) ls;
  gr_rs : Forall (fun r => r_type r = R_MIPS_PC16 /\ pbuf (r_addr r) = b /\ i <= pidx (r_addr r) < i') rs;
  gr_warned : warned s' = warned s;
  gr_ebase : ebase s' = ebase s;
  gr_once : run_once s' = run_once s;
  gr_words : forall b', same_buffer b b' = false -> words s' b' = words s b' }.

(** With [strict] the last thing emitted is an instruction, so that every
    label is before the end. *)
Definition Emits (n : Z) (strict : bool) (m : Syn unit) : Prop :=
  forall b i s, at_p s = mkptr b i -> 0 <= i -> i + n <= size b ->
  exists s' i' ls rs, m s = inr (tt, s') /\ i + b2z strict <= i' <= i + n /\ grown b i i' strict s s' ls rs.

Lemma emits_ret : Emits 0 false (sret tt).
Proof.
  intros b i s H Hi Hn; exists s, i, [], []; split; [reflexivity|]; split; [cbn; lia|].
  split; rewrite ?app_nil_r; auto.
Qed.

Lemma emits_weaken n n' t t' m : Emits n t m -> n <= n' -> implb t' t = true -> Emits n' t' m.
Proof.
  intros E Hn Ht b i s H Hi Hs; destruct (E b i s H Hi ltac:(lia)) as (s' & i' & ls & rs & R & B & G).
  exists s', i', ls, rs; split; [exact R|].
  assert (b2z t' <= b2z t) by (destruct t, t'; try discriminate Ht; cbn; lia).
  split; [lia|]; destruct G as [? ? ? Hl ? ? ? ? ?]; split; auto.
  eapply Forall_impl; [|exact Hl]; cbv beta; intros l [? ?]; split; [assumption|lia].
Qed.

Lemma emits_bind n1 n2 t1 t2 m1 m2 : Emits n1 t1 m1 -> Emits n2 t2 m2 -> 0 <= n2 ->
  Emits (n1 + n2) t2 (m1 ;;; m2).
Proof.
  intros E1 E2 Hn2 b i s H Hi Hs.
  destruct (E1 b i s H Hi ltac:(lia)) as (s1 & i1 & l1 & r1 & R1 & B1 & [A1 L1 Q1 FL1 FR1 W1 X1 O1 K1]).
  assert (0 <= b2z t1 /\ 0 <= b2z t2) by (destruct t1, t2; cbn; lia).
  destruct (E2 b i1 s1 A1 ltac:(lia) ltac:(lia)) as (s2 & i2 & l2 & r2 & R2 & B2 & [A2 L2 Q2 FL2 FR2 W2 X2 O2 K2]).
  exists s2, i2, (l1 ++ l2), (r1 ++ r2); split; [unfold sbind; rewrite R1; exact R2|]; split; [lia|].
  split; try congruence.
  - rewrite L2, L1; symmetry; apply app_assoc.
  - rewrite Q2, Q1; symmetry; apply app_assoc.
  - apply Forall_app; split; [eapply Forall_impl; [|exact FL1]|eapply Forall_impl; [|exact FL2]];
      cbn; intros l [? ?]; (split; [assumption|lia]).
  - apply Forall_app; split; [eapply Forall_impl; [|exact FR1]|eapply Forall_impl; [|exact FR2]];
      cbv beta; intros r (? & ? & ?); (split; [assumption|split; [assumption|lia]]).
  - intros b' Hb; now rewrite K2, K1.
Qed.

Lemma same_buffer_refl b : same_buffer b b = true.
Proof. now destruct b. Qed.

Lemma words_set_other b b' l s : same_buffer b b' = false -> words (set_words b l s) b' = words s b'.
Proof. destruct b, b'; cbn; congruence. Qed.

Lemma emits_insn op ip args : find_insn insn_table op = Some ip -> args_fit ip args = true ->
  Emits 1 true (build_insn op args).
Proof.
  intros F A b i s H Hi Hs; destruct (assemble_decode op ip args F A) as [W _].
  unfold build_insn; rewrite F; unfold sbind, smod, sgets, store.
  rewrite W; cbn [at_p add_warned]; rewrite H; cbn [pidx pbuf].
  rewrite (proj2 (Z.leb_le 0 i)), (proj2 (Z.ltb_lt i (size b))) by lia; cbn [andb].
  eexists; exists (i + 1), [], []; split; [reflexivity|]; split; [cbn; lia|].
  split; cbn [at_p set_p padd labels relocs warned ebase run_once set_words add_warned]; rewrite ?app_nil_r; auto.
  - unfold logged; apply app_nil_r.
  - intros b' Hb; transitivity (words (set_words b (upd (words s b) i (bits_of (assemble ip args))) s) b');
      [destruct b, b'; reflexivity|now apply words_set_other].
Qed.

Lemma emits_label l : Emits 0 false (l_here l).
Proof.
  intros b i s H Hi Hs; unfold l_here, build_label, sbind, sgets, smod; rewrite H.
  eexists; exists i, [mklabel (mkptr b i) l], []; split; [reflexivity|]; split; [cbn; lia|].
  split; cbn; rewrite ?app_nil_r; auto.
  constructor; [split; [reflexivity|cbn; lia]|constructor].
Qed.

Lemma emits_il op ip regs l : find_insn insn_table op = Some ip -> args_fit ip (regs ++ [0]) = true ->
  Emits 1 true (il (fun off => build_insn op (regs ++ [off])) l).
Proof.
  intros F A b i s H Hi Hs; unfold il, r_mips_pc16, sbind at 1 2, sgets, smod; rewrite H.
  set (s1 := set_relocs (relocs s ++ [mkreloc (mkptr b i) R_MIPS_PC16 l]) s).
  destruct (emits_insn op ip (regs ++ [0]) F A b i s1 H Hi Hs) as (s2 & i2 & ls & rs & R & B & [? L Q FL FR ? ? ? K]).
  cbn [b2z] in B; exists s2, i2, ls, (mkreloc (mkptr b i) R_MIPS_PC16 l :: rs).
  split; [exact R|]; split; [cbn [b2z]; lia|]; split; auto.
  - rewrite Q; unfold s1; cbn [relocs set_relocs]; now rewrite <- app_assoc.
  - constructor; [repeat split; cbn; lia|exact FR].
Qed.

Lemma emits_when n c m : 0 <= n -> (c = true -> Emits n false m) -> Emits n false (swhen c m).
Proof.
  intros Hn H; destruct c; cbn [swhen]; [now apply H|].
  apply (emits_weaken 0 n false false); [apply emits_ret|exact Hn|reflexivity].
Qed.

Lemma emits_if (c : bool) n t m1 m2 : (c = true -> Emits n t m1) -> (c = false -> Emits n t m2) ->
  Emits n t (if c then m1 else m2).
Proof. destruct c; auto. Qed.

(** ** Arguments with pieces of addresses *)

Lemma simm_fits x : -32768 <= x <= 32767 -> fits SIMM x = true.
Proof. intros; unfold fits; cbn; rewrite !(proj2 (Z.leb_le _ _)) by lia; reflexivity. Qed.

Lemma rel_higher_range v : -32768 <= rel_higher v <= 32767.
Proof. unfold rel_higher; rewrite sext16; apply swrap16_range. Qed.
Lemma rel_highest_range v : -32768 <= rel_highest v <= 32767.
Proof. unfold rel_highest; rewrite sext16; apply swrap16_range. Qed.

Lemma jump_fits f : f mod 4 = 0 -> fits JIMM (Z.land f 268435455) = true.
Proof.
  intros H; change 268435455 with (2 ^ 28 - 1); rewrite land_mask by lia.
  unfold fits; cbn -[Z.pow Z.modulo]; replace ((f mod 2 ^ 28) mod 4) with 0 by divmod.
  pose proof (Z.mod_pos_bound f (2 ^ 28) ltac:(lia)).
  rewrite (proj2 (Z.leb_le _ _)), (proj2 (Z.ltb_lt _ _)) by lia; reflexivity.
Qed.

Create HintDb fits.
#[export] Hint Resolve simm_fits jump_fits rel_lo_range rel_hi_range rel_higher_range rel_highest_range : fits.

Ltac fits_tac := first
  [ reflexivity
  | unfold args_fit, fit; eval_fields;
    repeat match goal with |- (_ && _)%bool = true => apply andb_true_intro; split end;
    first [reflexivity | solve [auto with fits]] ].

(** Emit a piece of code instruction by instruction; [t] closes the calls of
    other builders. *)
Ltac emits_with t := lazymatch goal with
  | |- Emits _ _ (sbind _ _) => eapply emits_bind; [emits_with t|emits_with t|lia]
  | |- Emits _ _ (sret tt) => apply emits_ret
  | |- Emits _ _ (l_here _) => apply emits_label
  | |- Emits _ _ (il_bltz ?r _) => eapply (emits_il insn_bltz _ [r]); [reflexivity|fits_tac]
  | |- Emits _ _ (il_bgezl ?r _) => eapply (emits_il insn_bgezl _ [r]); [reflexivity|fits_tac]
  | |- Emits _ _ (il_bnez ?r _) => eapply (emits_il insn_bne _ [r; 0]); [reflexivity|fits_tac]
  | |- Emits _ _ (il_beqz ?r _) => eapply (emits_il insn_beq _ [r; 0]); [reflexivity|fits_tac]
  | |- Emits _ _ (il_beqzl ?r _) => eapply (emits_il insn_beql _ [r; 0]); [reflexivity|fits_tac]
  | |- Emits _ _ (il_b _) => eapply (emits_il insn_beq _ [0; 0]); [reflexivity|fits_tac]
  | |- _ => first [t | eapply emits_insn; [reflexivity|fits_tac]]
  end.
Ltac emits := emits_with fail.

(** Emit a piece of code of at most the stated length. *)
Ltac emitted t := eapply emits_weaken; [emits_with t|lia|reflexivity].

Lemma emits_LA_mostly b64 r addr : In r [K0; K1] -> Emits 5 true (i_LA_mostly b64 r addr).
Proof.
  intros Hr; unfold i_LA_mostly; apply emits_if; intros _.
  - destruct (tst (rel_higher addr)); cbn [swhen]; destruct (tst (rel_hi addr));
      repeat (destruct Hr as [<-|Hr]; [emitted fail|]); destruct Hr.
  - repeat (destruct Hr as [<-|Hr]; [emitted fail|]); destruct Hr.
Qed.

Lemma emits_LA b64 r addr : In r [K0; K1] -> Emits 6 true (i_LA b64 r addr).
Proof.
  intros Hr; unfold i_LA, i_ADDIU; destruct (tst (rel_lo addr)); cbn [swhen].
  - apply (emits_bind 5 1 true true); [now apply emits_LA_mostly| |lia].
    destruct b64; repeat (destruct Hr as [<-|Hr]; [emits|]); destruct Hr.
  - intros b i s H Hi Hs; destruct (emits_LA_mostly b64 r addr Hr b i s H Hi ltac:(lia)) as (s' & i' & ls & rs & R & B & G).
    exists s', i', ls, rs; split; [unfold sbind; now rewrite R|]; split; [lia|exact G].
Qed.

(** ** Configurations *)

(** The page sizes of [asm/page.h], and page fault code at word addresses. *)
Record sane (c : config) : Prop := {
  sane_page : In (PAGE_SHIFT c) [12; 13; 14; 16];
  sane_fault0 : tlb_do_page_fault_0 c mod 4 = 0;
  sane_fault1 : tlb_do_page_fault_1 c mod 4 = 0 }.

(** Case analysis on the switches a piece of code depends on. *)
Ltac reduce_config := cbv beta iota zeta delta [
  CONFIG_64BIT CONFIG_SMP CONFIG_MIPS_MT_SMTC CONFIG_64BIT_PHYS_ADDR CONFIG_CPU_R3000 CONFIG_CPU_MIPS32_R1
  PAGE_SHIFT BCM1250_M3_WAR R10000_LLSC_WAR cpu_has_64bits cputype pgd_current swapper_pg_dir VMALLOC_START
  tlb_do_page_fault_0 tlb_do_page_fault_1 Tlbex.base andb negb swhen
  i_LW i_SW i_SRL i_ADDU i_LL i_SC i_ADDIU MFC0 GET_CONTEXT i_MFC0 mfc0 mtc0 dmfc0 bcm1250_m3_war r10000_llsc_war
  r45k_bvahwbug r4k_250MHZhwbug iPTE_LW iPTE_SW].
Ltac config_fields c :=
  destruct c as [b64 smp smtc phys r3 r1 ps war llsc h64 t pgd swp vm f0 f1 base].
Ltac page_cases := match goal with H : In _ [12; 13; 14; 16] |- _ =>
  cbn [PAGE_SHIFT] in H; repeat (destruct H as [H|H]; [|]); try (destruct H); subst end.

Lemma In_K0 : In K0 [K0; K1].
Proof. now left. Qed.
Lemma In_K1 : In K1 [K0; K1].
Proof. right; now left. Qed.
#[export] Hint Resolve In_K0 In_K1 : fits.

Ltac use_LA := first [apply emits_LA_mostly; auto with fits | apply emits_LA; auto with fits].

Section Builders.
Variable c : config.
Hypothesis S : sane c.

Lemma emits_probe : Emits 2 true (build_tlb_probe_entry c).
Proof. unfold build_tlb_probe_entry; destruct (cputype c); emitted fail. Qed.

Lemma emits_write w : r4000_style (cputype c) = true -> Emits 9 false (build_tlb_write_entry c w).
Proof.
  intros T; unfold build_tlb_write_entry; destruct (cputype c); try discriminate T; cbv zeta;
    destruct w; emitted fail.
Qed.

Lemma emits_pmde64 : CONFIG_64BIT c = true -> Emits 20 true (build_get_pmde64 c K0 K1).
Proof.
  intros B; destruct S as [P _ _]; config_fields c; cbn [CONFIG_64BIT] in B; subst; page_cases;
    destruct smp, smtc; unfold build_get_pmde64; reduce_config;
    match goal with |- context [?x <? 32] => let b := eval vm_compute in (x <? 32) in change (x <? 32) with b end;
    reduce_config; emitted use_LA.
Qed.

Lemma emits_vmalloc64 : Emits 14 true (build_get_pgd_vmalloc64 c K0 K1).
Proof.
  config_fields c; unfold build_get_pgd_vmalloc64; reduce_config.
  destruct (in_compat_space_p swp); [destruct (tst (rel_lo swp))|]; reduce_config;
    emitted use_LA.
Qed.

Lemma emits_pgde32 : CONFIG_64BIT c = false -> Emits 13 true (build_get_pgde32 c K0 K1).
Proof.
  intros B; destruct S as [P _ _]; config_fields c; cbn [CONFIG_64BIT] in B; subst;
    destruct smp, smtc, phys; unfold build_get_pgde32; reduce_config; emitted use_LA.
Qed.

(** Evaluate a closed test. *)
Ltac eval_tst := repeat match goal with
  | |- context [tst ?x] => let b := eval vm_compute in (tst x) in change (tst x) with b
  end.

(** Only the VR41xx has another context register. *)
Lemma adjust_class : exists t, (t = CPU_VR41XX \/ t = CPU_UNKNOWN) /\
  build_adjust_context c K0 = build_adjust_context (with_cpu t c) K0.
Proof.
  config_fields c; destruct t;
    first [exists CPU_UNKNOWN; split; [now right|reflexivity] | exists CPU_VR41XX; split; [now left|reflexivity]].
Qed.

Lemma emits_adjust : Emits 2 true (build_adjust_context c K0).
Proof.
  destruct adjust_class as (t' & T & ->); destruct S as [P _ _]; config_fields c; page_cases;
    destruct T as [-> | ->], b64, phys; unfold build_adjust_context, with_cpu; reduce_config; eval_tst; reduce_config;
    emitted fail.
Qed.

Lemma emits_ptep : Emits 5 true (build_get_ptep c K0 K1).
Proof.
  unfold build_get_ptep, i_LW, i_ADDU, GET_CONTEXT, MFC0, i_MFC0; cbv zeta.
  destruct (CONFIG_64BIT c); destruct (cputype c); emitted ltac:(apply emits_adjust).
Qed.

Lemma emits_update : Emits 6 true (build_update_entries c K0 K1).
Proof.
  clear S; config_fields c; destruct phys, h64, b64; unfold build_update_entries; reduce_config; emitted fail.
Qed.

Lemma emits_war : Emits 5 false (m3_war c).
Proof.
  destruct S as [P _ _]; config_fields c; page_cases; destruct war, b64; unfold m3_war; reduce_config; emitted fail.
Qed.

Lemma emits_lw_pte : Emits 1 true (iPTE_LW c K0 K1).
Proof. clear S; config_fields c; destruct smp, phys, h64, b64; reduce_config; emitted fail. Qed.

Ltac pte_bits := unfold _PAGE_PRESENT, _PAGE_READ, _PAGE_WRITE, _PAGE_ACCESSED, _PAGE_MODIFIED, _PAGE_VALID, _PAGE_DIRTY.

Lemma emits_present l : Emits 4 true (build_pte_present c K0 K1 l).
Proof. unfold build_pte_present; pte_bits; destruct (bits_r1 c); emitted ltac:(apply emits_lw_pte). Qed.

Lemma emits_writable l : Emits 4 true (build_pte_writable c K0 K1 l).
Proof. unfold build_pte_writable; pte_bits; destruct (bits_r1 c); emitted ltac:(apply emits_lw_pte). Qed.

Lemma emits_modifiable l : Emits 3 true (build_pte_modifiable c K0 K1 l).
Proof. unfold build_pte_modifiable; pte_bits; destruct (bits_r1 c); emitted ltac:(apply emits_lw_pte). Qed.

Lemma emits_make_valid : Emits 8 false (build_make_valid c K0 K1).
Proof.
  clear S; unfold build_make_valid; config_fields c; destruct smp, phys, h64, b64, llsc, r3, r1; reduce_config;
    emitted fail.
Qed.

Lemma emits_make_write : Emits 8 false (build_make_write c K0 K1).
Proof.
  clear S; unfold build_make_write; config_fields c; destruct smp, phys, h64, b64, llsc, r3, r1; reduce_config;
    emitted fail.
Qed.

Lemma emits_walk : Emits 20 true (if CONFIG_64BIT c then build_get_pmde64 c K0 K1 else build_get_pgde32 c K0 K1).
Proof.
  apply emits_if; intros B; [now apply emits_pmde64|].
  eapply emits_weaken; [now apply emits_pgde32|lia|reflexivity].
Qed.

(** ** R3000 pieces *)

Lemma emits_r3000_head : Emits 12 true (build_r3000_tlbchange_handler_head c K0 K1).
Proof. clear S; unfold build_r3000_tlbchange_handler_head; config_fields c; reduce_config; emitted fail. Qed.

Lemma emits_r3000_reload : Emits 10 true (build_r3000_tlb_reload_write K0 K1).
Proof. unfold build_r3000_tlb_reload_write; emitted fail. Qed.

Lemma emits_r3000_tlbwi : Emits 5 true (build_r3000_pte_reload_tlbwi K0 K1).
Proof. unfold build_r3000_pte_reload_tlbwi; emitted fail. Qed.

(** ** R4000 pieces *)

Lemma emits_pte_ptr m : Emits 4 true m ->
  Emits 9 true (MFC0 c K0 C0_BADVADDR ;;; i_LW (CONFIG_64BIT c) K1 0 K1 ;;;
    i_SRL (CONFIG_64BIT c) K0 K0 (PAGE_SHIFT c + PTE_ORDER - PTE_T_LOG2 c) ;;;
    i_andi K0 K0 (Z.shiftl (PTRS_PER_PTE c - 1) (PTE_T_LOG2 c)) ;;;
    i_ADDU (CONFIG_64BIT c) K1 K1 K0 ;;; m).
Proof.
  intros E; destruct S as [P _ _]; config_fields c; page_cases; destruct b64, phys; reduce_config;
    emitted ltac:(exact E).
Qed.

Lemma emits_r4000_head : Emits 29 true (build_r4000_tlbchange_handler_head c K0 K1).
Proof.
  unfold build_r4000_tlbchange_handler_head; cbv zeta.
  apply (emits_bind 20 9 true true); [apply emits_walk|apply emits_pte_ptr|lia].
  destruct (CONFIG_SMP c); cbn [swhen];
    emitted ltac:(first [apply emits_lw_pte | apply emits_probe]).
Qed.

Lemma emits_r4000_tail : r4000_style (cputype c) = true ->
  Emits 32 false (build_r4000_tlbchange_handler_tail c K0 K1).
Proof.
  intros T; unfold build_r4000_tlbchange_handler_tail, sizeof_pte.
  destruct (CONFIG_64BIT c || CONFIG_64BIT_PHYS_ADDR c), (CONFIG_64BIT c); cbn [swhen];
    emitted ltac:(first [apply emits_update | apply emits_write, T | apply emits_vmalloc64]).
Qed.
End Builders.

(** ** Resolving relocations *)

(** Pointers into a buffer, and states whose labels and relocations are all
    in one buffer. *)
Definition in_buffer (b : buffer) (p : ptr) : Prop := pbuf p = b /\ 0 <= pidx p <= 128.
Record linked (b : buffer) (s : synth) : Prop := {
  ln_labels : Forall (fun l => in_buffer b (l_addr l)) (labels s);
  ln_relocs : Forall (fun r => r_type r = R_MIPS_PC16 /\ in_buffer b (r_addr r) /\ pidx (r_addr r) < size b) (relocs s) }.

(** What the rest of the state keeps. *)
Record kept (s s' : synth) : Prop := {
  kp_warned : warned s' = warned s; kp_ebase : ebase s' = ebase s; kp_once : run_once s' = run_once s }.
Lemma kept_refl s : kept s s.
Proof. now split. Qed.
Lemma kept_trans s1 s2 s3 : kept s1 s2 -> kept s2 s3 -> kept s1 s3.
Proof. intros [? ? ?] [? ? ?]; split; congruence. Qed.

Section Resolve.
Variables (base : buffer -> Z) (b : buffer).

Lemma resolve_patch rel l s : in_buffer b (l_addr l) -> in_buffer b (r_addr rel) ->
  pidx (r_addr rel) < size b -> r_type rel = R_MIPS_PC16 ->
  exists s', __resolve_relocs base rel l s = inr (tt, s') /\ kept s s'.
Proof.
  intros [Lb Li] [Rb Ri] Hs T; unfold __resolve_relocs; rewrite T, Z.eqb_refl; cbv zeta.
  assert (D : diff base (l_addr l) (padd (r_addr rel) 1) = 4 * (pidx (l_addr l) - (pidx (r_addr rel) + 1)))
    by (unfold diff; cbn [pbuf pidx padd]; now rewrite Lb, Rb, same_buffer_refl).
  rewrite D, build_bimm_arg by lia; cbn [msgs bits_of fst snd].
  unfold sbind, smod, sgets, store; rewrite Rb.
  rewrite (proj2 (Z.leb_le 0 _)), (proj2 (Z.ltb_lt _ (size b))) by lia; cbn [andb].
  eexists; split; [reflexivity|]; split; try reflexivity; cbn; unfold logged; apply app_nil_r.
Qed.

Lemma resolve_one_ok rel ls s : Forall (fun l => in_buffer b (l_addr l)) ls -> in_buffer b (r_addr rel) ->
  pidx (r_addr rel) < size b -> r_type rel = R_MIPS_PC16 ->
  exists s', resolve_one base rel ls s = inr (tt, s') /\ kept s s'.
Proof.
  intros F; revert s; induction F as [|l ls Hl F IH]; intros s Hr Hs T; cbn [resolve_one].
  - exists s; split; [reflexivity|apply kept_refl].
  - unfold sbind at 1; destruct (label_id_beq (r_lab rel) (l_lab l)); cbn [swhen].
    + destruct (resolve_patch rel l s Hl Hr Hs T) as (s1 & -> & K1).
      destruct (IH s1 Hr Hs T) as (s2 & -> & K2); exists s2; eauto using kept_trans.
    + destruct (IH s Hr Hs T) as (s2 & R & K2); exists s2; split; [exact R|exact K2].
Qed.

Lemma resolve_all_ok rs ls s : Forall (fun l => in_buffer b (l_addr l)) ls ->
  Forall (fun r => r_type r = R_MIPS_PC16 /\ in_buffer b (r_addr r) /\ pidx (r_addr r) < size b) rs ->
  exists s', resolve_all base rs ls s = inr (tt, s') /\ kept s s'.
Proof.
  intros Fl F; revert s; induction F as [|r rs (T & Hr & Hs) F IH]; intros s; cbn [resolve_all].
  - exists s; split; [reflexivity|apply kept_refl].
  - unfold sbind at 1; destruct (resolve_one_ok r ls s Fl Hr Hs T) as (s1 & -> & K1).
    destruct (IH s1) as (s2 & -> & K2); exists s2; eauto using kept_trans.
Qed.

Lemma resolve_ok s : linked b s -> exists s', resolve_relocs base s = inr (tt, s') /\ kept s s'.
Proof. intros [Fl Fr]; exact (resolve_all_ok (relocs s) (labels s) s Fl Fr). Qed.
End Resolve.

(** ** A whole load, store or modify handler *)

Lemma sbind_assoc {A} (m1 m2 : Syn unit) (k : unit -> Syn A) s :
  sbind m1 (fun _ => sbind m2 k) s = sbind (sbind m1 (fun _ => m2)) k s.
Proof. unfold sbind; destruct (m1 s) as [|[? ?]]; reflexivity. Qed.

Lemma grown_linked b i' t s s' ls rs : labels s = [] -> relocs s = [] ->
  grown b 0 i' t s s' ls rs -> 0 <= i' <= size b -> linked b s'.
Proof.
  intros L R [_ Hl Hr Fl Fr _ _ _ _] Hi; rewrite L in Hl; rewrite R in Hr; cbn [app] in *.
  assert (0 <= b2z t) by (destruct t; cbn; lia); assert (size b <= 128) by (destruct b; vm_compute; discriminate).
  split; [rewrite Hl|rewrite Hr].
  - eapply Forall_impl; [|exact Fl]; cbv beta; intros l [? ?]; split; [assumption|lia].
  - eapply Forall_impl; [|exact Fr]; cbv beta; intros r (? & ? & ?); repeat split; (assumption || lia).
Qed.

Lemma grown_kept b i i' t s s' ls rs : grown b i i' t s s' ls rs -> kept s s'.
Proof. intros [? ? ? ? ? ? ? ? ?]; now split. Qed.

(** The state after [start] and [clear_labels]. *)
Definition started (b : buffer) (s : synth) : synth :=
  set_relocs [] (set_labels [] (set_words b (repeat 0 (Z.to_nat (size b))) (set_p (mkptr b 0) s))).

Lemma run_start b (k : Syn unit) s : (start b ;;; clear_labels ;;; k) s = k (started b s).
Proof. reflexivity. Qed.

Lemma handler_ok c b body n t lid f msg st :
  Emits n t body -> 0 <= n -> n + 2 <= 128 -> size b = 128 -> f mod 4 = 0 ->
  exists st', (body ;;; finish c lid f msg) (started b st) = inr (tt, st') /\ kept st st'.
Proof.
  intros E Hn Hb Hz Hf; unfold finish; rewrite !sbind_assoc.
  match goal with |- context [sbind ?m (fun _ => sbind (sgets at_p) _)] => assert (B : Emits (n + 2) true m) end.
  { apply emits_weaken with (n := n + 0 + 1 + 1) (t := true); [|lia|reflexivity].
    repeat (eapply emits_bind; [|eapply emits_insn; [reflexivity|fits_tac]|lia]).
    eapply emits_bind; [exact E|apply emits_label|lia]. }
  destruct (B b 0 (started b st) eq_refl ltac:(lia) ltac:(lia)) as (s1 & i1 & ls & rs & R & I & G).
  unfold sbind at 1; rewrite R; unfold sbind at 1, sgets; rewrite (gr_at _ _ _ _ _ _ _ _ G); cbn [pidx b2z] in *.
  unfold FASTPATH_SIZE; rewrite Z.gtb_ltb, (proj2 (Z.ltb_ge _ _)) by lia.
  unfold sbind at 1; cbn [swhen sret].
  destruct (resolve_ok (Tlbex.base c) b s1) as (s2 & -> & K).
  { apply (grown_linked b i1 true (started b st) s1 ls rs); [reflexivity|reflexivity|exact G|lia]. }
  exists s2; split; [reflexivity|].
  eapply kept_trans; [|exact K]; eapply kept_trans; [|exact (grown_kept _ _ _ _ _ _ _ _ G)]; now split.
Qed.

(** ** The load, store and modify handlers *)

Section Handlers.
Variable c : config.
Hypothesis S : sane c.

(** Group the body of a handler and apply [handler_ok]. *)
Ltac piece := first
  [ apply (emits_r3000_head c) | apply (emits_present c) | apply (emits_writable c) | apply (emits_modifiable c)
  | apply (emits_make_valid c) | apply (emits_make_write c) | apply emits_r3000_reload | apply emits_r3000_tlbwi
  | apply (emits_war c S) | apply (emits_r4000_head c S) | apply (emits_r4000_tail c); assumption ].
Ltac handler := rewrite run_start, !sbind_assoc; eapply handler_ok;
  [emits_with piece|lia|lia|reflexivity|apply S].

Lemma r3000_load_safe st : exists st', build_r3000_tlb_load_handler c st = inr (tt, st') /\ kept st st'.
Proof. unfold build_r3000_tlb_load_handler; handler. Qed.
Lemma r3000_store_safe st : exists st', build_r3000_tlb_store_handler c st = inr (tt, st') /\ kept st st'.
Proof. unfold build_r3000_tlb_store_handler; handler. Qed.
Lemma r3000_modify_safe st : exists st', build_r3000_tlb_modify_handler c st = inr (tt, st') /\ kept st st'.
Proof. unfold build_r3000_tlb_modify_handler; handler. Qed.

Lemma r4000_load_safe st : r4000_style (cputype c) = true ->
  exists st', build_r4000_tlb_load_handler c st = inr (tt, st') /\ kept st st'.
Proof. intros T; unfold build_r4000_tlb_load_handler; handler. Qed.
Lemma r4000_store_safe st : r4000_style (cputype c) = true ->
  exists st', build_r4000_tlb_store_handler c st = inr (tt, st') /\ kept st st'.
Proof. intros T; unfold build_r4000_tlb_store_handler; handler. Qed.
Lemma r4000_modify_safe st : r4000_style (cputype c) = true ->
  exists st', build_r4000_tlb_modify_handler c st = inr (tt, st') /\ kept st st'.
Proof. intros T; unfold build_r4000_tlb_modify_handler; handler. Qed.
End Handlers.

(** ** Folding the refill handler *)

(** While the handler is copied, every label and relocation is either still in
    the part of [tlb_handler] from [lo] on, or already in [final_handler]. *)
Definition place (lo p : Z) (q : ptr) : Prop :=
  (pbuf q = tlb_handler /\ lo <= pidx q < p) \/ (pbuf q = final_handler /\ 0 <= pidx q < 64).
Record placed (lo p : Z) (s : synth) : Prop := {
  pl_labels : Forall (fun l => place lo p (l_addr l)) (labels s);
  pl_relocs : Forall (fun r => r_type r = R_MIPS_PC16 /\ place lo p (r_addr r)) (relocs s) }.

Lemma copy_words_ok n target first s :
  0 <= pidx target -> pidx target + Z.of_nat n <= size (pbuf target) ->
  exists s', copy_words n target first s = inr (tt, s') /\ kept s s' /\
    labels s' = labels s /\ relocs s' = relocs s /\ at_p s' = at_p s.
Proof.
  revert target first s; induction n as [|n IH]; intros target first s H0 Hn; cbn [copy_words].
  - exists s; split; [reflexivity|]; split; [apply kept_refl|auto].
  - unfold sbind, sgets, store.
    rewrite (proj2 (Z.leb_le 0 _)), (proj2 (Z.ltb_lt _ (size (pbuf target)))) by lia; cbn [andb].
    match goal with |- context [copy_words n ?t ?f ?s1] =>
      destruct (IH t f s1) as (s2 & R & K & L & Q & A); [cbn [pidx padd]; lia|cbn [pidx pbuf padd]; lia|] end.
    exists s2; split; [exact R|]; split; [eapply kept_trans; [|exact K]; now split|].
    rewrite L, Q, A; auto.
Qed.

Lemma move_place lo mid p tgt q : place lo p q -> 0 <= tgt -> tgt + (mid - lo) <= 64 ->
  place mid p (if within q (mkptr tlb_handler lo) (mkptr tlb_handler mid)
               then pmove q (pdiff (mkptr final_handler tgt) (mkptr tlb_handler lo)) else q).
Proof.
  intros [[B I]|[B I]] H0 H1; unfold within; rewrite B; cbn [same_buffer pbuf pidx andb].
  - rewrite (proj2 (Z.leb_le lo _)) by lia; destruct (Z.ltb_spec (pidx q) mid); cbn [andb].
    + right; split; [reflexivity|cbn; lia].
    + left; split; [exact B|lia].
  - right; split; [exact B|lia].
Qed.

Lemma copy_handler_ok lo mid p tgt s : placed lo p s -> lo <= mid -> 0 <= tgt -> tgt + (mid - lo) <= 64 ->
  exists s', copy_handler (mkptr tlb_handler lo) (mkptr tlb_handler mid) (mkptr final_handler tgt) s = inr (tt, s') /\
    kept s s' /\ placed mid p s' /\ at_p s' = at_p s.
Proof.
  intros [Fl Fr] Hm H0 H1; unfold copy_handler; cbn [pidx].
  destruct (copy_words_ok (Z.to_nat (mid - lo)) (mkptr final_handler tgt) (mkptr tlb_handler lo) s)
    as (s1 & R & K & L & Q & A); [cbn; lia|cbn [pidx pbuf size]; lia|].
  unfold sbind, move_relocs, move_labels, smod; rewrite R.
  eexists; split; [reflexivity|]; split; [eapply kept_trans; [exact K|now split]|]; split; [|exact A].
  split; cbn [labels relocs set_labels set_relocs]; rewrite ?L, ?Q; apply Forall_map.
  - eapply Forall_impl; [|exact Fl]; cbv beta; intros l Hl.
    pose proof (move_place lo mid p tgt _ Hl H0 H1) as M; now destruct (within _ _ _).
  - eapply Forall_impl; [|exact Fr]; cbv beta; intros r [T Hr].
    pose proof (move_place lo mid p tgt _ Hr H0 H1) as M; now destruct (within _ _ _).
Qed.

Lemma placed_linked p s : placed p p s -> linked final_handler s.
Proof.
  intros [Fl Fr]; split.
  - eapply Forall_impl; [|exact Fl]; cbv beta; intros l [[? ?]|[? ?]]; [lia|split; [assumption|lia]].
  - eapply Forall_impl; [|exact Fr]; cbv beta; intros r (T & [[? ?]|[? ?]]); [lia|].
    split; [exact T|]; split; [split; [assumption|lia]|cbn [size]; lia].
Qed.

(** Code emitted in [final_handler] stays placed. *)
Lemma emits_placed n t m lo p i s : Emits n t m -> placed lo p s -> at_p s = mkptr final_handler i ->
  0 <= i -> 0 <= n -> i + n <= 63 + b2z t ->
  exists s' i', m s = inr (tt, s') /\ kept s s' /\ placed lo p s' /\ at_p s' = mkptr final_handler i' /\
    i + b2z t <= i' <= i + n.
Proof.
  intros E [Fl Fr] A Hi Hn Hb; assert (0 <= b2z t <= 1) by (destruct t; cbn; lia).
  destruct (E final_handler i s A Hi ltac:(cbn [size]; lia)) as (s' & i' & ls & rs & R & B & G).
  exists s', i'; split; [exact R|]; split; [exact (grown_kept _ _ _ _ _ _ _ _ G)|].
  destruct G as [A' L Q Gl Gr _ _ _ _]; split; [|split; [exact A'|lia]].
  split; [rewrite L|rewrite Q]; apply Forall_app; (split; [assumption|]).
  - eapply Forall_impl; [|exact Gl]; cbv beta; intros l [? ?]; right; split; [assumption|lia].
  - eapply Forall_impl; [|exact Gr]; cbv beta; intros r (? & ? & ?); split; [assumption|right; split; [assumption|lia]].
Qed.

Lemma emits_branch l : Emits 1 true (il_b l).
Proof. emits. Qed.
Lemma emits_nop : Emits 1 true i_nop.
Proof. emits. Qed.

Lemma placed_state lo p s s' : labels s' = labels s -> relocs s' = relocs s -> placed lo p s -> placed lo p s'.
Proof. intros L R [? ?]; split; [now rewrite L|now rewrite R]. Qed.

Lemma split_label lo p s : placed lo p s ->
  placed lo p (set_labels (labels s ++ [mklabel (mkptr final_handler 0) label_split]) s).
Proof.
  intros [Fl Fr]; split; [|exact Fr]; apply Forall_app; split; [exact Fl|].
  constructor; [right; split; [reflexivity|cbn; lia]|constructor].
Qed.

(** [move_labels(labels, f, f + 1, -1)] *)
Lemma step_back lo p i s : placed lo p s -> 1 <= i ->
  placed lo p (set_labels (map (fun l =>
    if within (l_addr l) (mkptr final_handler i) (padd (mkptr final_handler i) 1)
    then mklabel (pmove (l_addr l) (mkdisp final_handler (-1))) (l_lab l) else l) (labels s)) s).
Proof.
  intros [Fl Fr] Hi; split; [|exact Fr]; apply Forall_map; eapply Forall_impl; [|exact Fl]; cbv beta; intros l Hl.
  destruct (within (l_addr l) (mkptr final_handler i) (padd (mkptr final_handler i) 1)) eqn:W; [|exact Hl].
  unfold within in W; cbn [pbuf pidx padd] in W; zbool.
  right; cbn; destruct Hl as [[B ?]|[B ?]]; [rewrite B in *; discriminate|split; [reflexivity|lia]].
Qed.

Lemma run_smod {A} f (k : unit -> Syn A) s : sbind (smod f) k s = k tt (f s).
Proof. reflexivity. Qed.
Lemma run_sgets {A B} (f : synth -> A) (k : A -> Syn B) s : sbind (sgets f) k s = k (f s) s.
Proof. reflexivity. Qed.
Lemma run_done {A B} (m : Syn A) (k : A -> Syn B) s a s' : m s = inr (a, s') -> sbind m k s = k a s'.
Proof. unfold sbind; now intros ->. Qed.

Lemma split_ok k p s : 29 <= k <= 30 -> 32 < p <= 61 -> placed 0 p s ->
  exists s', (copy_handler (mkptr tlb_handler 0) (mkptr tlb_handler k) (mkptr final_handler 32) ;;;
    smod (set_p (mkptr final_handler (32 + k))) ;;;
    build_label (mkptr final_handler 0) label_split ;;; il_b label_split ;;;
    rs <- sgets relocs ;;
    if insn_has_bdelay rs (mkptr tlb_handler k) then
      i_nop ;;; copy_handler (mkptr tlb_handler k) (mkptr tlb_handler p) (mkptr final_handler 0)
    else
      f <- sgets at_p ;;
      copy_handler (mkptr tlb_handler k) (mkptr tlb_handler (k + 1)) f ;;;
      move_labels f (padd f 1) (mkdisp final_handler (-1)) ;;;
      smod (set_p (padd f 1)) ;;;
      copy_handler (mkptr tlb_handler (k + 1)) (mkptr tlb_handler p) (mkptr final_handler 0)) s = inr (tt, s') /\
    kept s s' /\ placed p p s'.
Proof.
  intros Hk Hp P0; destruct (copy_handler_ok 0 k p 32 s P0 ltac:(lia) ltac:(lia) ltac:(lia)) as (s1 & R1 & K1 & P1 & _).
  rewrite (run_done _ _ _ _ _ R1), run_smod; unfold build_label; rewrite run_smod.
  match goal with |- context [set_labels ?l ?x] => set (s2 := set_labels l x) end.
  assert (P2 : placed k p s2) by (apply split_label; revert P1; now apply placed_state).
  destruct (emits_placed 1 true _ k p (32 + k) s2 (emits_branch label_split) P2 eq_refl)
    as (s3 & i3 & R3 & K3 & P3 & A3 & B3); [lia|lia|cbn [b2z]; lia|]; cbn [b2z] in B3.
  assert (K13 : kept s s3) by (eapply kept_trans; [exact K1|]; eapply kept_trans; [|exact K3]; now split).
  rewrite (run_done _ _ _ _ _ R3), run_sgets.
  destruct (insn_has_bdelay (relocs s3) (mkptr tlb_handler k)).
  - destruct (emits_placed 1 true _ k p i3 s3 emits_nop P3 A3) as (s4 & i4 & R4 & K4 & P4 & _); [lia|lia|cbn [b2z]; lia|].
    rewrite (run_done _ _ _ _ _ R4).
    destruct (copy_handler_ok k p p 0 s4 P4 ltac:(lia) ltac:(lia) ltac:(lia)) as (s5 & R5 & K5 & P5 & _).
    exists s5; split; [exact R5|]; split; [|exact P5]; eauto using kept_trans.
  - rewrite run_sgets, A3.
    destruct (copy_handler_ok k (k + 1) p i3 s3 P3 ltac:(lia) ltac:(lia) ltac:(lia)) as (s4 & R4 & K4 & P4 & _).
    rewrite (run_done _ _ _ _ _ R4); unfold move_labels; rewrite !run_smod.
    match goal with |- context [copy_handler _ _ _ ?s6] => set (s5 := s6) end.
    assert (P5 : placed (k + 1) p s5).
    { apply (placed_state _ _ (set_labels (labels s5) s4)); [reflexivity|reflexivity|apply step_back; [exact P4|lia]]. }
    destruct (copy_handler_ok (k + 1) p p 0 s5 P5 ltac:(lia) ltac:(lia) ltac:(lia)) as (s6 & R6 & K6 & P6 & _).
    exists s6; split; [exact R6|]; split; [|exact P6].
    eapply kept_trans; [exact K13|]; eapply kept_trans; [exact K4|]; eapply kept_trans; [|exact K6]; now split.
Qed.

Lemma fold_ok c p s : at_p s = mkptr tlb_handler p -> 0 <= p <= 61 -> placed 0 p s ->
  exists s', fold_handler c s = inr (tt, s') /\ kept s s' /\ linked final_handler s'.
Proof.
  intros A Hp P; unfold fold_handler, sbind at 1, sgets; rewrite A; cbn [pidx].
  destruct (CONFIG_64BIT c); [destruct (Z.leb_spec p 32)|].
  - destruct (copy_handler_ok 0 p p 32 s P ltac:(lia) ltac:(lia) ltac:(lia)) as (s' & R & K & Q & _).
    exists s'; eauto using placed_linked.
  - unfold split_handler, sbind at 1, sgets at 1.
    destruct (insn_has_bdelay (relocs s) _);
      [destruct (split_ok 29 p s ltac:(lia) ltac:(lia) P) as (s' & R & K & Q)
      |destruct (split_ok 30 p s ltac:(lia) ltac:(lia) P) as (s' & R & K & Q)];
      exists s'; (split; [exact R|]; eauto using placed_linked).
  - destruct (copy_handler_ok 0 p p 0 s P ltac:(lia) ltac:(lia) ltac:(lia)) as (s' & R & K & Q & _).
    exists s'; eauto using placed_linked.
Qed.

(** ** The refill handlers *)

Lemma emits_then_ret n t m : Emits n t m -> Emits n t (m ;;; sret tt).
Proof.
  intros E b i s H Hi Hs; destruct (E b i s H Hi Hs) as (s' & i' & ls & rs & R & G).
  exists s', i', ls, rs; split; [now rewrite (run_done _ _ _ _ _ R)|exact G].
Qed.

Section Refill.
Variable c : config.
Hypothesis S : sane c.

Lemma emits_refill : r4000_style (cputype c) = true ->
  Emits 60 true ((((((((m3_war c ;;; if CONFIG_64BIT c then build_get_pmde64 c K0 K1 else build_get_pgde32 c K0 K1) ;;;
    build_get_ptep c K0 K1) ;;; build_update_entries c K0 K1) ;;; build_tlb_write_entry c tlb_random) ;;;
    l_here label_leave) ;;; i_eret) ;;; swhen (CONFIG_64BIT c) (build_get_pgd_vmalloc64 c K0 K1))).
Proof.
  intros T; pose proof (emits_walk c S) as W; destruct (CONFIG_64BIT c); cbn [swhen].
  - emitted ltac:(first [apply (emits_war c S) | exact W | apply (emits_ptep c S) | apply (emits_update c)
      | apply (emits_write c), T | apply (emits_vmalloc64 c S)]).
  - apply emits_then_ret.
    emitted ltac:(first [apply (emits_war c S) | exact W | apply (emits_ptep c S) | apply (emits_update c)
      | apply (emits_write c), T]).
Qed.

Lemma grown_placed i' s s' ls rs : labels s = [] -> relocs s = [] ->
  grown tlb_handler 0 i' true s s' ls rs -> placed 0 i' s'.
Proof.
  intros L R [_ Hl Hr Fl Fr _ _ _ _]; rewrite L in Hl; rewrite R in Hr; cbn [app b2z] in *.
  split; [rewrite Hl|rewrite Hr].
  - eapply Forall_impl; [|exact Fl]; cbv beta; intros l [? ?]; left; split; [assumption|lia].
  - eapply Forall_impl; [|exact Fr]; cbv beta; intros r (? & ? & ?); split; [assumption|left; split; assumption].
Qed.

(** A handler of at most 60 instructions passes the overflow checks. *)
Lemma room c' p rs : p <= 60 ->
  (if CONFIG_64BIT c' then (p >? 63) || ((p >? 61) && insn_has_bdelay rs (mkptr tlb_handler 29)) else p >? 64) = false.
Proof.
  intros; rewrite !Z.gtb_ltb, !(proj2 (Z.ltb_ge _ _)) by lia; now destruct (CONFIG_64BIT c').
Qed.

Lemma r4000_refill_safe st : r4000_style (cputype c) = true ->
  exists st', build_r4000_tlb_refill_handler c st = inr (tt, st') /\
  warned st' = warned st /\ run_once st' = run_once st.
Proof.
  intros T; unfold build_r4000_tlb_refill_handler; rewrite run_start; unfold clear at 1; rewrite run_smod.
  rewrite !sbind_assoc; match goal with |- context [sbind _ _ ?x] => set (s0 := x) end.
  destruct (emits_refill T tlb_handler 0 s0 eq_refl) as (s1 & i1 & ls & rs & R & B & G); [lia|cbn [size]; lia|].
  cbn [b2z] in B; rewrite (run_done _ _ _ _ _ R), !run_sgets, (gr_at _ _ _ _ _ _ _ _ G); cbn [pidx].
  rewrite room by lia; cbn [swhen]; rewrite (run_done (sret tt) _ s1 tt s1 eq_refl).
  destruct (fold_ok c i1 s1 (gr_at _ _ _ _ _ _ _ _ G)) as (s2 & R2 & K2 & L2);
    [lia|apply (grown_placed i1 s0 s1 ls rs); [reflexivity|reflexivity|exact G]|].
  rewrite (run_done _ _ _ _ _ R2); destruct (resolve_ok (Tlbex.base c) final_handler s2 L2) as (s3 & R3 & K3).
  rewrite (run_done _ _ _ _ _ R3); eexists; split; [reflexivity|].
  pose proof (kept_trans _ _ _ (grown_kept _ _ _ _ _ _ _ _ G) (kept_trans _ _ _ K2 K3)) as [W _ O].
  split; [exact W|exact O].
Qed.

Lemma r3000_refill_safe st : exists st', build_r3000_tlb_refill_handler c st = inr (tt, st') /\
  warned st' = warned st /\ run_once st' = run_once st.
Proof.
  clear S; unfold build_r3000_tlb_refill_handler, start; rewrite <- sbind_assoc, run_smod; unfold clear; rewrite run_smod.
  rewrite !sbind_assoc; match goal with |- context [sbind ?m (fun _ => sbind (sgets at_p) _) ?x] =>
    set (s0 := x); assert (E : Emits 17 true m) by (config_fields c; reduce_config; emitted fail) end.
  destruct (E tlb_handler 0 s0 eq_refl) as (s1 & i1 & ls & rs & R & B & G); [lia|cbn [size]; lia|].
  rewrite (run_done _ _ _ _ _ R), run_sgets, (gr_at _ _ _ _ _ _ _ _ G); cbn [pidx].
  rewrite Z.gtb_ltb, (proj2 (Z.ltb_ge _ _)) by lia; cbn [swhen].
  eexists; split; [reflexivity|]; destruct (grown_kept _ _ _ _ _ _ _ _ G) as [W _ O]; split; [exact W|exact O].
Qed.
End Refill.

(** ** The entry point *)

(** The message of the panic for CPU types without handlers. *)
Definition refusal (t : cpu_type) : option string :=
  match t with
  | CPU_R6000 | CPU_R6000A => Some "No R6000 TLB refill handler yet"%string
  | CPU_R8000 => Some "No R8000 TLB refill handler yet"%string
  | _ => if r3000_style t || r4000_style t then None else Some "No TLB refill handler yet"%string
  end.

Lemma refused_write c : r4000_style (cputype c) = false -> forall w s,
  build_tlb_write_entry c w s = inl (Panic "No TLB refill handler yet").
Proof. unfold build_tlb_write_entry; destruct (cputype c); cbn [r4000_style]; intros H; (discriminate H || reflexivity). Qed.

Lemma run_stop {A B} (m : Syn A) (k : A -> Syn B) s e : m s = inl e -> sbind m k s = inl e.
Proof. unfold sbind; now intros ->. Qed.

Lemma refill_refused c st : sane c -> r4000_style (cputype c) = false ->
  build_r4000_tlb_refill_handler c st = inl (Panic "No TLB refill handler yet").
Proof.
  intros S T; unfold build_r4000_tlb_refill_handler; rewrite run_start; unfold clear at 1; rewrite run_smod.
  do 3 rewrite sbind_assoc; match goal with |- sbind ?m _ ?x = _ => set (s0 := x); assert (E : Emits 36 true m) end.
  { emitted ltac:(first [apply (emits_war c S) | apply (emits_walk c S) | apply (emits_ptep c S) | apply (emits_update c)]). }
  destruct (E tlb_handler 0 s0 eq_refl) as (s1 & i1 & ls & rs & R & _); [lia|cbn [size]; lia|].
  rewrite (run_done _ _ _ _ _ R); apply run_stop, refused_write, T.
Qed.

Section Entry.
Variable c : config.
Hypothesis S : sane c.

Lemma once_kept m s : (forall s, exists s', m s = inr (tt, s') /\ kept s s') ->
  exists s', once m s = inr (tt, s') /\ warned s' = warned s /\ ebase s' = ebase s.
Proof.
  intros H; unfold once; rewrite run_sgets; destruct (run_once s =? 0); cbn [swhen].
  - destruct (H s) as (s1 & R & [? ? ?]); rewrite (run_done _ _ _ _ _ R).
    eexists; split; [reflexivity|]; split; assumption.
  - exists s; split; [reflexivity|split; reflexivity].
Qed.

(** Three handlers one after the other. *)
Lemma three m1 m2 m3 : (forall s, exists s', m1 s = inr (tt, s') /\ kept s s') ->
  (forall s, exists s', m2 s = inr (tt, s') /\ kept s s') -> (forall s, exists s', m3 s = inr (tt, s') /\ kept s s') ->
  forall s, exists s', (m1 ;;; m2 ;;; m3) s = inr (tt, s') /\ kept s s'.
Proof.
  intros H1 H2 H3 s; destruct (H1 s) as (s1 & R1 & K1); rewrite (run_done _ _ _ _ _ R1).
  destruct (H2 s1) as (s2 & R2 & K2); rewrite (run_done _ _ _ _ _ R2).
  destruct (H3 s2) as (s3 & R3 & K3); exists s3; eauto using kept_trans.
Qed.

(** After the refill handler the entry point only adds the other handlers. *)
Lemma entry_r4000 st st1 : r4000_style (cputype c) = true ->
  build_r4000_tlb_refill_handler c st = inr (tt, st1) ->
  exists st', build_tlb_refill_handler c st = inr (tt, st') /\ warned st' = warned st1 /\ ebase st' = ebase st1.
Proof.
  intros T R.
  destruct (once_kept (build_r4000_tlb_load_handler c ;;; build_r4000_tlb_store_handler c ;;;
    build_r4000_tlb_modify_handler c) st1) as (s2 & R2 & W).
  { apply three; intros s; [apply r4000_load_safe|apply r4000_store_safe|apply r4000_modify_safe]; assumption. }
  exists s2; split; [|exact W].
  unfold build_tlb_refill_handler; destruct (cputype c); try discriminate T; rewrite (run_done _ _ _ _ _ R); exact R2.
Qed.

Lemma entry_r3000 st st1 : r3000_style (cputype c) = true ->
  build_r3000_tlb_refill_handler c st = inr (tt, st1) ->
  exists st', build_tlb_refill_handler c st = inr (tt, st') /\ warned st' = warned st1 /\ ebase st' = ebase st1.
Proof.
  intros T R.
  destruct (once_kept (build_r3000_tlb_load_handler c ;;; build_r3000_tlb_store_handler c ;;;
    build_r3000_tlb_modify_handler c) st1) as (s2 & R2 & W).
  { apply three; intros s; [apply r3000_load_safe|apply r3000_store_safe|apply r3000_modify_safe]; assumption. }
  exists s2; split; [|exact W].
  unfold build_tlb_refill_handler; destruct (cputype c); try discriminate T; rewrite (run_done _ _ _ _ _ R); exact R2.
Qed.

Lemma entry_refused st : r3000_style (cputype c) = false -> r4000_style (cputype c) = false ->
  exists msg, refusal (cputype c) = Some msg /\ build_tlb_refill_handler c st = inl (Panic msg).
Proof.
  intros T3 T4; pose proof (refill_refused c st S T4) as R; unfold build_tlb_refill_handler, refusal.
  destruct (cputype c); try discriminate T3; try discriminate T4; cbn [r3000_style r4000_style orb];
    (eexists; split; [reflexivity|]); first [reflexivity | exact (run_stop _ _ _ _ R)].
Qed.
End Entry.
