(* ===== verification/TlbexR3000.v ===== *)
(** * The R3000-style TLB handlers

    The R3000 has one page per TLB entry, load delay slots (also for [mfc0]),
    and returns from an exception with [jr] and [rfe].  The handlers are
    executed with load delays checked: an instruction that used a register in
    its delay slot would make the execution fail. *)

From S2P Require Import Prelude Rounding Ieee754 Inst Machine Branch Uasm UasmProps Tlbex Tlbsim TlbexProps TlbexChange.

(** The page of [va] and the page table base are in [Context]. *)
Record r3000_exception (e : exn) : Prop := {
  r3k_va : 0 <= BadVAddr e < 2 ^ 32;
  r3k_epc : 0 <= EPC e < 2 ^ 32;
  r3k_probe : 0 <= probe e (EntryHi e) < 2 ^ 32;
  r3k_context : exists b, 0 <= b < 2 ^ 11 /\ Context e = b * 2 ^ 21 + 4 * ((BadVAddr e / 2 ^ 12) mod 2 ^ 19) }.

Record r3000_config (c : config) : Prop := {
  r3k_bits : CONFIG_64BIT c = false;
  r3k_phys : CONFIG_64BIT_PHYS_ADDR c = false;
  r3k_smp : CONFIG_SMP c = false;
  r3k_pte : CONFIG_CPU_R3000 c = true;
  r3k_fault0 : tlb_do_page_fault_0 c mod 4 = 0;
  r3k_fault1 : tlb_do_page_fault_1 c mod 4 = 0 }.

Definition r3000_handler (a : access) (c : config) : Syn unit :=
  match a with
  | Load => build_r3000_tlb_load_handler c
  | Store => build_r3000_tlb_store_handler c
  | Modify => build_r3000_tlb_modify_handler c
  end.

Lemma r3000_offset e d : r3000_exception e ->
  addu 32 d (Z.land (sx32 32 (Context e)) 4092) = wrap 32 (d + 4 * ((BadVAddr e / 2 ^ 12) mod 1024)).
Proof.
  intros [Hva _ _ (b & Hb & ->)]; rewrite sx32_32, wrap_small by divmod.
  rewrite (land_run _ 2 10) by (reflexivity || lia); unfold addu; rewrite sx32_32; f_equal; f_equal; f_equal; divmod.
Qed.

Lemma lw_word m a : wrap 32 (mload 4 m a) = mload 4 m a.
Proof. apply wrap_small, (mload_range 4). Qed.

(** The walk of the R3000 handlers ends at the entry of [va]. *)
Lemma r3000_walk c m e : CONFIG_SMP c = false -> CONFIG_64BIT_PHYS_ADDR c = false -> r3000_exception e ->
  addu 32 (lw 32 m (ea 32 (addu 32 (lw 32 m (ea 32 (lui 32 (rel_hi (pgd_current c))) (rel_lo (pgd_current c))))
    (sll 32 (srl 32 (sx32 32 (BadVAddr e)) 22) 2)) 0)) (Z.land (sx32 32 (Context e)) 4092)
  = wrap 32 (pte_addr c m 0 (BadVAddr e)).
Proof.
  intros Hs Hp X; pose proof X as [Hva _ _ _]; rewrite r3000_offset by exact X.
  unfold pte_addr, page_table, pgd_slot, word; rewrite Hs, Hp, !lw_32, slot_up, pgd_entry, ea_wrap, Z.add_0_r by lia.
  reflexivity.
Qed.

(** ** Refill *)

Lemma r3000_refill_ok c st e s : r3000_config c -> r3000_exception e -> pend s = 0 ->
  exists st' s', build_r3000_tlb_refill_handler c st = inr (tt, st') /\
  execute 32 true e 32 (ebase st') s = Some (Goto (EPC e) s') /\ popped s' = true /\ mem s' = mem s /\
  tlb s' = TlbRandom (EntryHi e) (word (mem s) (pte_addr c (mem s) 0 (BadVAddr e))) (EntryLo1 s) :: tlb s.
Proof.
  intros [Hb Hp Hs Hr F0 F1] X Hpend; pose proof (fun m => r3000_walk c m e Hs Hp X) as W.
  pose proof X as [Hva Hepc _ _].
  destruct c as [b64 smp smtc phys r3 r1 ps war llsc h64 t pgd swp vm f0 f1 base];
    destruct s as [a0 a1 ix l0 l1 m tl pp pn fl].
  cbn [CONFIG_64BIT CONFIG_64BIT_PHYS_ADDR CONFIG_SMP CONFIG_CPU_R3000 pend mem tlb EntryLo1 pgd_current
       tlb_do_page_fault_0 tlb_do_page_fault_1] in *; subst.
  do 2 eexists; split; [synthesize|]; cbn [ebase]; disassemble; simulate; rewrite !W, !ea_wrap, Z.add_0_r, lw_32.
  split; [rewrite sx32_32, wrap_small by lia; reflexivity|]; repeat split; cbn [tlb]; now rewrite lw_word.
Qed.

(** ** Load, store and modify *)

Section Effect.
Variables (c : config) (a : access) (e : exn) (s : cpu).
Let P := pte_addr c (mem s) 0 (BadVAddr e).
Let pte := word (mem s) P.
Let new := Z.lor pte (granted c a).
Let hit := match a with Modify => true | _ => probe e (EntryHi e) <? 2 ^ 31 end.

(** The new entry replaces the entry [tlbp] found; when it found none (the
    sign bit of [Index]), load and store write a random entry. *)
Definition r3000_write : tlb_event :=
  if hit then TlbIndexed (probe e (EntryHi e)) (EntryHi e) new (EntryLo1 s)
  else TlbRandom (EntryHi e) new (EntryLo1 s).

Definition r3000_effect (o : exit_to) : Prop :=
  if allows c a pte
  then exists s', o = Goto (EPC e) s' /\ popped s' = true /\ mem s' = sw (mem s) (wrap 32 P) new /\
         tlb s' = r3000_write :: tlb s
  else exists s', o = Goto (page_fault c a) s' /\ popped s' = popped s /\ mem s' = mem s /\ tlb s' = tlb s.
End Effect.

Lemma negative_word x : 0 <= x < 2 ^ 32 -> negative 32 (sx32 32 x) = negb (x <? 2 ^ 31).
Proof.
  intros; rewrite sx32_32, wrap_small by lia; unfold negative, swrap; rewrite Z.mod_small by lia; change (32 - 1) with 31.
  destruct (Z.ltb_spec x (2 ^ 31)); cbn [negb]; [apply Z.ltb_ge|apply Z.ltb_lt]; lia.
Qed.

Lemma granted_word m a k : 0 <= k < 2 ^ 32 -> wrap 32 (Z.lor (mload 4 m a) k) = Z.lor (mload 4 m a) k.
Proof. intros; apply wrap_small, lor_range; [lia|apply (mload_range 4)|assumption]. Qed.

Lemma r3000_change_ok a c st e s : r3000_config c -> r3000_exception e -> pend s = 0 ->
  exists st', r3000_handler a c st = inr (tt, st') /\
  exists o, execute 32 true e 64 (code_of a st') s = Some o /\ r3000_effect c a e s o.
Proof.
  intros [Hb Hp Hs Hr F0 F1] X Hpend; pose proof (fun m => r3000_walk c m e Hs Hp X) as W.
  pose proof X as [Hva Hepc Hpr _]; unfold r3000_effect, r3000_write, allows, word.
  destruct c as [b64 smp smtc phys r3 r1 ps war llsc h64 t pgd swp vm f0 f1 base];
    destruct s as [a0 a1 ix l0 l1 m tl pp pn fl].
  cbn [CONFIG_64BIT CONFIG_64BIT_PHYS_ADDR CONFIG_SMP CONFIG_CPU_R3000 pend mem tlb EntryLo1 pgd_current popped
       tlb_do_page_fault_0 tlb_do_page_fault_1] in *; subst.
  destruct a; masks; (eexists; split; [synthesize|]);
    cbn [code_of s_tlbl s_tlbs s_tlbm]; disassemble; simulate.
  all: rewrite ?W, ?ea_wrap, ?Z.add_0_r, ?lw_32, ?missing_bits, ?missing_write, ?granted_word, ?negative_word by lia.
  all: rewrite ?(sx32_32 (EPC e)), ?(wrap_small 32 (EPC e)) by lia.
  all: match goal with |- context [if ?x =? ?y then _ else _] => destruct (x =? y) end; cbv iota; cbn [negb].
  all: try destruct (probe e (EntryHi e) <? 2 ^ 31); cbv iota; cbn [negb]; (eexists; split; [reflexivity|]);
    eexists; repeat (split; [reflexivity|]); reflexivity.
Qed.
