(* ===== verification/TlbexCorrect.v ===== *)
(** * Correctness of the TLB handlers

    The theorems about the synthesizer and the handlers it builds, with the
    configurations and exceptions they assume, and instances of each at a
    concrete kernel and exception. *)

From S2P Require Import Prelude Rounding Ieee754 Inst Machine Branch Uasm.
From S2P Require Import UasmProps Tlbex Tlbsim TlbexProps TlbexChange TlbexSafe TlbexR3000.

Lemma effect_of_tail c a e cpu s o (P := wrap 32 (pte_addr c (mem s) cpu (BadVAddr e))) :
  0 <= BadVAddr e -> page_table c (mem s) cpu (BadVAddr e) mod 4096 = 0 ->
  bypassed c a e = false -> effect_at c a e P s o -> effect c a e cpu s o.
Proof.
  intros Hva Al B; unfold effect, effect_at; rewrite B.
  assert (U : updated_at c a P s = updated c a e cpu s).
  { unfold updated, updated_at, word, P; destruct (CONFIG_64BIT_PHYS_ADDR c); [|reflexivity]; now rewrite !wrap_absorb. }
  replace (written_at c a e P s) with (written c a e cpu s); [now rewrite U|].
  unfold written, written_at; rewrite U; unfold P, pte_addr, pte_pair; destruct (CONFIG_64BIT_PHYS_ADDR c).
  - rewrite pair_of_pte_phys; [reflexivity|exact Al|apply (mload_range 4)|exact Hva].
  - rewrite pair_of_pte; [reflexivity|exact Al|apply (mload_range 4)|exact Hva].
Qed.

(** ** Correctness *)

Record change_config (c : config) : Prop := {
  chg_32 : config32 c;
  chg_cpu : for_its_cpu c;
  chg_phys : phys_up c;
  chg_bits : CONFIG_CPU_R3000 c = false;
  chg_style : r4000_style (cputype c) = true;
  chg_fault0 : tlb_do_page_fault_0 c mod 4 = 0;
  chg_fault1 : tlb_do_page_fault_1 c mod 4 = 0 }.

Lemma class_for_its_cpu c : for_its_cpu c -> for_its_cpu (by_class c).
Proof.
  intros [? ? ?]; split; cbn [cputype by_class with_cpu];
    replace (class (class (cputype c))) with (class (cputype c)) by (now destruct (cputype c)); assumption.
Qed.

Lemma change_by_class a c st e cpu : change_config c -> tlb_exception c e cpu ->
  exists st', handler_of a c st = inr (tt, st') /\
  let prog := map decode (code_of a st') in let L := Z.of_nat (loop_at c a) in
  head_ok c a e cpu prog (loop_at c a) L /\ tail_ok c a e prog L.
Proof.
  intros [H1 H2 Hu H3 H4 H5 H6] X.
  destruct (change_of_class a (by_class c) st e cpu) as (st' & B & Hh & Ht & Hf);
    auto using class_config32, class_class, class_exception, class_for_its_cpu.
  { cbn; now rewrite class_style. }
  exists st'; split; [|split; [exact Hh|exact (loop_ok _ _ _ _ _ Ht Hf)]].
  rewrite <- B; destruct a; cbn [handler_of]; [now rewrite class_load|now rewrite class_store|now rewrite class_modify].
Qed.

Lemma execute_done e n code s o :
  advance 32 false e n (map decode code) 0 s = Done o -> execute 32 false e n code s = Some o.
Proof. unfold execute, run; now intros ->. Qed.

Lemma loop_at_bound c a : (loop_at c a <= 19)%nat.
Proof. unfold loop_at; destruct a, (CONFIG_SMP c), (BCM1250_M3_WAR c); cbn; lia. Qed.

(** C13: In a 32-bit kernel with 4 KB pages, the load, store and modify handlers
    synthesized for any supported R4000-style CPU end after at most [64 + 16 k]
    instructions when [k] conditional stores fail.  Physical addresses have 32
    bits, with or without SMP, or 64 bits on a MIPS32 uniprocessor.  If the page
    table entry of the faulting address has the required bits, they store the
    entry with the status bits set (with 64-bit physical addresses in both of
    its words), write the pair of entries to the TLB entry that matches
    [EntryHi] and return from the exception; otherwise they jump to the page
    fault code and change neither memory nor TLB.  The exception is the load
    handler with the M3 workaround: when [BadVAddr] and [EntryHi] are of
    different page pairs it returns with nothing changed. *)
Theorem tlb_change_correct a c st e s cpu k fl :
  change_config c -> tlb_exception c e cpu -> pend s = 0 ->
  page_table c (mem s) cpu (BadVAddr e) mod 4096 = 0 ->
  fails s = repeat true k ++ fl -> hd false fl = false ->
  exists st' o, handler_of a c st = inr (tt, st') /\
    execute 32 false e (64 + 16 * k) (code_of a st') s = Some o /\ effect c a e cpu s o.
Proof.
  intros Hc X Hp Al Hk Hfl; destruct (change_by_class a c st e cpu Hc X) as (st' & B & Hh & Ht).
  exists st'; specialize (Hh s Hp); destruct (bypassed c a e) eqn:By.
  - destruct Hh as (s' & A & Hm & Hl); exists (Eret s'); split; [exact B|]; split.
    + apply execute_done; replace (64 + 16 * k)%nat with (24 + (40 + 16 * k))%nat by lia; now apply advance_more.
    + unfold effect; rewrite By; exists s'; split; [reflexivity|split; assumption].
  - destruct Hh as (s' & A & K1 & K2 & K3 & K4 & K5).
    destruct (Ht (k1 s') k s' fl) as (o & Ho & E); [rewrite K1; apply wrap_range; lia|auto|exact K2|congruence|exact Hfl|].
    exists o; split; [exact B|]; split.
    + apply execute_done; pose proof (loop_at_bound c a).
      replace (64 + 16 * k)%nat with (loop_at c a + ((40 + 16 * k) + (24 - loop_at c a)))%nat by lia.
      apply (advance_split _ _ _ _ _ _ _ _ A); now apply advance_more.
    + apply effect_of_tail; [destruct X; lia|exact Al|exact By|].
      rewrite <- K1; exact (effect_at_ext _ _ _ _ _ _ _ K3 K4 E).
Qed.

(** C14: For every kernel configuration (32- or 64-bit, any page size, SMP or
    not, with any workaround) the synthesizer of the TLB handlers ends without
    storing outside of its buffers and without a warning about a field or a
    branch that does not fit, or it panics with the message for a CPU type
    without a handler; it panics for no other reason. *)
Theorem tlb_synthesis_safe c st : sane c ->
  match refusal (cputype c) with
  | None => exists st', build_tlb_refill_handler c st = inr (tt, st') /\ warned st' = warned st
  | Some msg => build_tlb_refill_handler c st = inl (Panic msg)
  end.
Proof.
  intros S; destruct (r3000_style (cputype c)) eqn:T3; [|destruct (r4000_style (cputype c)) eqn:T4].
  - replace (refusal (cputype c)) with (@None string) by (destruct (cputype c); (discriminate T3 || reflexivity)).
    destruct (r3000_refill_safe c st) as (s1 & R & W & _).
    destruct (entry_r3000 c S st s1 T3 R) as (s2 & E & W2 & _); exists s2; split; [exact E|congruence].
  - replace (refusal (cputype c)) with (@None string) by (destruct (cputype c); (discriminate T4 || reflexivity)).
    destruct (r4000_refill_safe c S st T4) as (s1 & R & W & _).
    destruct (entry_r4000 c S st s1 T4 R) as (s2 & E & W2 & _); exists s2; split; [exact E|congruence].
  - destruct (entry_refused c S st T3 T4) as (msg & -> & E); exact E.
Qed.

(** C12: In a 32-bit kernel with 4 KB pages, and 32-bit physical addresses or
    64-bit ones on a CPU with 32-bit registers, the refill handler that the
    synthesizer installs at the exception vector for any supported R4000-style
    CPU, with or without SMP, SMTC and the workarounds, returns from the
    exception after at most 64 instructions, leaves memory alone, and has
    written to a random TLB entry the pair of page table entries that maps the
    faulting address, taken from the page directory of the current CPU and
    brought to the format of [EntryLo0] and [EntryLo1].  With the M3 workaround
    it writes nothing when [BadVAddr] and [EntryHi] are of different page pairs,
    as the workaround intends. *)
Theorem tlb_refill_correct c st e s cpu :
  config32 c -> sane c -> r4000_style (cputype c) = true -> tlb_exception c e cpu -> pend s = 0 ->
  exists st' s', build_tlb_refill_handler c st = inr (tt, st') /\
    execute 32 false e 64 (ebase st') s = Some (Eret s') /\ mem s' = mem s /\
    tlb s' = refilled c e cpu (mem s) (tlb s).
Proof.
  intros C S T X P; destruct (refill_ok c st e s cpu C T X P) as (s1 & R & s' & E & M & L).
  destruct (entry_r4000 c S st s1 T R) as (s2 & R2 & _ & B); exists s2, s'; rewrite B; auto.
Qed.

(** C15: The handlers for R3000-style CPUs never use a register in its load
    delay slot.  The refill handler writes the page table entry of the
    faulting address to a random TLB entry; the load, store and modify handlers
    update the entry when it allows the access and replace the TLB entry; both
    return to [EPC] with [rfe].  Otherwise the page fault code is entered with
    nothing changed. *)
Theorem r3000_handlers_correct a c st e s :
  r3000_config c -> sane c -> r3000_style (cputype c) = true -> r3000_exception e -> pend s = 0 ->
  (exists st' s', build_tlb_refill_handler c st = inr (tt, st') /\
    execute 32 true e 32 (ebase st') s = Some (Goto (EPC e) s') /\ popped s' = true /\ mem s' = mem s /\
    tlb s' = TlbRandom (EntryHi e) (word (mem s) (pte_addr c (mem s) 0 (BadVAddr e))) (EntryLo1 s) :: tlb s) /\
  (exists st' o, r3000_handler a c st = inr (tt, st') /\
    execute 32 true e 64 (code_of a st') s = Some o /\ r3000_effect c a e s o).
Proof.
  intros C S T X P; split.
  - destruct (r3000_refill_ok c st e s C X P) as (s1 & s' & R & E & Q).
    destruct (entry_r3000 c S st s1 T R) as (s2 & R2 & _ & B); exists s2, s'; rewrite B; auto.
  - destruct (r3000_change_ok a c st e s C X P) as (s1 & R & o & E & Q); exists s1, o; auto.
Qed.

(** ** Instances

    A kernel at [0x80100000], a page directory at [0x80010000] and a page table
    at [0x80020000]; the exception is a store to [0x00403abc]. *)
Definition demo_config (smp r3k : bool) (t : cpu_type) : config :=
  mkconfig false smp false false r3k false 12 false false false t
    0x80123458 0x80400000 0xc0000000 0x80111110 0x80111220 (fun _ => 0x80500000).
Definition demo_synth : synth := mksynth [] [] [] [] [] [] [] (mkptr tlb_handler 0) [] [] 0.
Definition demo_memory : Z -> Z :=
  mstore 4 (mstore 4 (mstore 4 (fun _ => 0) 0x8012345c 0x80010000) 0x80010004 0x80020000) 0x8002000c 0x01234007.
Definition demo_exn (context : Z) : exn :=
  mkexn 0x00403abc context 0 0x00402000 0x00400100 0 (fun _ => 5).
Definition demo_cpu (fails : list bool) : Tlbsim.cpu := mkcpu 0 0 0 0 0 demo_memory [] false 0 fails.

Lemma demo_sane smp r3k t : sane (demo_config smp r3k t).
Proof. split; [now left|reflexivity|reflexivity]. Qed.

Lemma demo_config32 : config32 (demo_config true false CPU_24K).
Proof. split; (reflexivity || discriminate). Qed.

Lemma demo_exception : tlb_exception (demo_config true false CPU_24K) (demo_exn (1 * 2 ^ 25 + 16 * 0x201)) 1.
Proof. split; cbn [BadVAddr EntryHi Context demo_exn]; try lia; [reflexivity|discriminate]. Qed.

Lemma demo_change : change_config (demo_config true false CPU_24K).
Proof. split; try reflexivity; [apply demo_config32|split; discriminate|discriminate]. Qed.

Lemma demo_r3000 : r3000_config (demo_config false true CPU_R3000).
Proof. split; reflexivity. Qed.

Lemma demo_r3000_exception : r3000_exception (demo_exn (3 * 2 ^ 21 + 4 * 0x403)).
Proof. split; cbn [BadVAddr EPC probe demo_exn]; try lia; exists 3; split; [lia|reflexivity]. Qed.

Lemma tlb_synthesis_safe_witness :
  sane (demo_config true false CPU_24K) /\
  (exists st', build_tlb_refill_handler (demo_config true false CPU_24K) demo_synth = inr (tt, st') /\
     warned st' = warned demo_synth) /\
  build_tlb_refill_handler (demo_config false false CPU_R8000) demo_synth
    = inl (Panic "No R8000 TLB refill handler yet").
Proof.
  split; [apply demo_sane|]; split.
  - exact (tlb_synthesis_safe (demo_config true false CPU_24K) demo_synth (demo_sane _ _ _)).
  - exact (tlb_synthesis_safe (demo_config false false CPU_R8000) demo_synth (demo_sane _ _ _)).
Defined.

Lemma tlb_refill_correct_witness :
  refilled (demo_config true false CPU_24K) (demo_exn (1 * 2 ^ 25 + 16 * 0x201)) 1 demo_memory []
    = [TlbRandom 0x00402000 0 0x48d00] /\
  exists st' s', build_tlb_refill_handler (demo_config true false CPU_24K) demo_synth = inr (tt, st') /\
    execute 32 false (demo_exn (1 * 2 ^ 25 + 16 * 0x201)) 64 (ebase st') (demo_cpu []) = Some (Eret s') /\
    mem s' = demo_memory /\
    tlb s' = refilled (demo_config true false CPU_24K) (demo_exn (1 * 2 ^ 25 + 16 * 0x201)) 1 demo_memory [].
Proof.
  split; [vm_compute; reflexivity|].
  exact (tlb_refill_correct (demo_config true false CPU_24K) demo_synth (demo_exn (1 * 2 ^ 25 + 16 * 0x201))
    (demo_cpu []) 1 demo_config32 (demo_sane _ _ _) eq_refl demo_exception eq_refl).
Defined.

Lemma tlb_change_correct_witness :
  allows (demo_config true false CPU_24K) Store 0x01234007 = true /\
  exists st' o, handler_of Store (demo_config true false CPU_24K) demo_synth = inr (tt, st') /\
    execute 32 false (demo_exn (1 * 2 ^ 25 + 16 * 0x201)) (64 + 16 * 2) (code_of Store st')
      (demo_cpu [true; true; false]) = Some o /\
    effect (demo_config true false CPU_24K) Store (demo_exn (1 * 2 ^ 25 + 16 * 0x201)) 1
      (demo_cpu [true; true; false]) o.
Proof.
  split; [reflexivity|].
  apply (tlb_change_correct Store (demo_config true false CPU_24K) demo_synth (demo_exn (1 * 2 ^ 25 + 16 * 0x201))
    (demo_cpu [true; true; false]) 1 2 [false]);
    [exact demo_change|exact demo_exception|reflexivity|vm_compute; reflexivity|reflexivity|reflexivity].
Defined.

Lemma r3000_handlers_correct_witness :
  r3000_style CPU_R3000 = true /\
  (exists st' s', build_tlb_refill_handler (demo_config false true CPU_R3000) demo_synth = inr (tt, st') /\
    execute 32 true (demo_exn (3 * 2 ^ 21 + 4 * 0x403)) 32 (ebase st') (demo_cpu []) = Some (Goto 0x00400100 s') /\
    popped s' = true /\ mem s' = demo_memory /\
    tlb s' = [TlbRandom 0x00402000 (word demo_memory (pte_addr (demo_config false true CPU_R3000) demo_memory 0 0x00403abc)) 0]) /\
  (exists st' o, r3000_handler Modify (demo_config false true CPU_R3000) demo_synth = inr (tt, st') /\
    execute 32 true (demo_exn (3 * 2 ^ 21 + 4 * 0x403)) 64 (code_of Modify st') (demo_cpu []) = Some o /\
    r3000_effect (demo_config false true CPU_R3000) Modify (demo_exn (3 * 2 ^ 21 + 4 * 0x403)) (demo_cpu []) o).
Proof.
  split; [reflexivity|].
  exact (r3000_handlers_correct Modify (demo_config false true CPU_R3000) demo_synth (demo_exn (3 * 2 ^ 21 + 4 * 0x403))
    (demo_cpu []) demo_r3000 (demo_sane _ _ _) eq_refl demo_r3000_exception eq_refl).
Defined.

(** The same store on a MIPS32 uniprocessor with 64-bit physical addresses: the
    entry is at [0x80020018], its second word goes to [EntryLo1]. *)
Definition demo_phys : config :=
  mkconfig false false false true false true 12 false false false CPU_AU1100
    0x80123458 0x80400000 0xc0000000 0x80111110 0x80111220 (fun _ => 0x80500000).
Definition demo_phys_memory : Z -> Z :=
  mstore 4 (mstore 4 (mstore 4 (mstore 4 (fun _ => 0) 0x80123458 0x80010000) 0x80010008 0x80020000) 0x80020018 0x1c0)
    0x8002001c 0x12340.

Lemma demo_phys_change : change_config demo_phys.
Proof. split; try reflexivity; [|split; discriminate|now split]; split; (reflexivity || discriminate). Qed.

Lemma demo_phys_store :
  match handler_of Store demo_phys demo_synth with
  | inr (_, st) =>
      match execute 32 false (demo_exn (16 * 0x201)) 64 (code_of Store st) (mkcpu 0 0 0 0 0 demo_phys_memory [] false 0 []) with
      | Some (Eret s) => (tlb s, word (mem s) 0x80020018, word (mem s) 0x8002001c)
      | _ => ([], 0, 0)
      end
  | _ => ([], 0, 0)
  end = ([TlbIndexed 5 0x00402000 0 0x12346], 0x7c6, 0x12346).
Proof. vm_compute; reflexivity. Qed.
