(* ===== verification/Rbtree.v ===== *)
(** * Red-black trees: the code

    Models [lib/rbtree.c] and [include/linux/rbtree.h].  A [struct rb_node *]
    is an address, [NULL] is 0; the nodes live in a finite map from addresses
    to nodes, the [struct rb_root]s in a second one.  The colour is kept in the
    low bits of [rb_parent_color], as in the source.  An access through [NULL]
    or to an address that is no node, and a loop that exhausts its fuel, is
    [None]: a theorem that exhibits a result shows that neither happens. *)

#[local] Set Warnings "-notation-incompatible-prefix".
From S2P Require Import Prelude.
From stdpp Require Import gmap.
#[local] Open Scope Z_scope.

Definition NULL : Z := 0.
Definition RB_RED : Z := 0.
Definition RB_BLACK : Z := 1.

Record rb_node := mknode { rb_parent_color : Z; rb_right : Z; rb_left : Z }.

(** The nodes, and the root pointers by the address of their [struct rb_root]. *)
Record store := mkstore { nodes : gmap Z rb_node; roots : gmap Z Z }.

Definition set_nodes (h : gmap Z rb_node) (m : store) : store := mkstore h (roots m).
Definition set_roots (r : gmap Z Z) (m : store) : store := mkstore (nodes m) r.

(** ** Memory accesses *)

Definition node_at (p : Z) : ST store rb_node := fun m =>
  if p =? NULL then None
  else match nodes m !! p with Some n => Some (n, m) | None => None end.
Definition put_node (p : Z) (n : rb_node) : ST store unit :=
  modify (fun m => set_nodes (<[p := n]> (nodes m)) m).

Definition get_right (p : Z) : ST store Z := n <- node_at p ;; ret (rb_right n).
Definition get_left (p : Z) : ST store Z := n <- node_at p ;; ret (rb_left n).
Definition get_pc (p : Z) : ST store Z := n <- node_at p ;; ret (rb_parent_color n).
Definition set_right (p v : Z) : ST store unit :=
  n <- node_at p ;; put_node p (mknode (rb_parent_color n) v (rb_left n)).
Definition set_left (p v : Z) : ST store unit :=
  n <- node_at p ;; put_node p (mknode (rb_parent_color n) (rb_right n) v).
Definition set_pc (p v : Z) : ST store unit :=
  n <- node_at p ;; put_node p (mknode v (rb_right n) (rb_left n)).

Definition get_root (root : Z) : ST store Z := fun m =>
  match roots m !! root with Some p => Some (p, m) | None => None end.
Definition set_root (root v : Z) : ST store unit := fun m =>
  match roots m !! root with
  | Some _ => Some (tt, set_roots (<[root := v]> (roots m)) m)
  | None => None
  end.

(** ** The macros of [rbtree.h] *)

Definition rb_parent (r : Z) : ST store Z := w <- get_pc r ;; ret (Z.land w (Z.lnot 3)).
Definition rb_color (r : Z) : ST store Z := w <- get_pc r ;; ret (Z.land w 1).
Definition rb_is_red (r : Z) : ST store bool := w <- rb_color r ;; ret (negb (tst w)).
Definition rb_is_black (r : Z) : ST store bool := w <- rb_color r ;; ret (tst w).
Definition rb_set_red (r : Z) : ST store unit := w <- get_pc r ;; set_pc r (Z.land w (Z.lnot 1)).
Definition rb_set_black (r : Z) : ST store unit := w <- get_pc r ;; set_pc r (Z.lor w 1).
Definition rb_set_parent (rb p : Z) : ST store unit :=
  w <- get_pc rb ;; set_pc rb (Z.lor (Z.land w 3) p).
Definition rb_set_color (rb color : Z) : ST store unit :=
  w <- get_pc rb ;; set_pc rb (Z.lor (Z.land w (Z.lnot 1)) color).

Definition RB_EMPTY_ROOT (root : Z) : ST store bool := p <- get_root root ;; ret (p =? NULL).
Definition RB_EMPTY_NODE (node : Z) : ST store bool := p <- rb_parent node ;; ret (p =? node).
Definition RB_CLEAR_NODE (node : Z) : ST store unit := rb_set_parent node node.

(** A [struct rb_node **]: the place a new node is linked at. *)
Inductive link := root_link (root : Z) | left_link (p : Z) | right_link (p : Z).

Definition load_link (l : link) : ST store Z :=
  match l with
  | root_link root => get_root root | left_link p => get_left p | right_link p => get_right p
  end.
Definition store_link (l : link) (v : Z) : ST store unit :=
  match l with
  | root_link root => set_root root v | left_link p => set_left p v | right_link p => set_right p v
  end.

Definition rb_link_node (node parent : Z) (rb_link : link) : ST store unit :=
  set_pc node parent ;;; set_right node NULL ;;; set_left node NULL ;;;
  store_link rb_link node.

(** ** Rotations *)

Definition __rb_rotate_left (node root : Z) : ST store unit :=
  right <- get_right node ;;
  parent <- rb_parent node ;;
  right_left <- get_left right ;;
  set_right node right_left ;;;
  when (tst right_left) (rb_set_parent right_left node) ;;;
  set_left right node ;;;
  rb_set_parent right parent ;;;
  (if tst parent then
     parent_left <- get_left parent ;;
     if node =? parent_left then set_left parent right else set_right parent right
   else set_root root right) ;;;
  rb_set_parent node right.

Definition __rb_rotate_right (node root : Z) : ST store unit :=
  left <- get_left node ;;
  parent <- rb_parent node ;;
  left_right <- get_right left ;;
  set_left node left_right ;;;
  when (tst left_right) (rb_set_parent left_right node) ;;;
  set_right left node ;;;
  rb_set_parent left parent ;;;
  (if tst parent then
     parent_right <- get_right parent ;;
     if node =? parent_right then set_right parent left else set_left parent left
   else set_root root left) ;;;
  rb_set_parent node left.

(** ** Insertion *)

(** [p && rb_is_red(p)] *)
Definition red_node (p : Z) : ST store bool := if tst p then rb_is_red p else ret false.
(** [!p || rb_is_black(p)] *)
Definition black_node (p : Z) : ST store bool := if tst p then rb_is_black p else ret true.

(** One iteration; the result is the [node] of the next one. *)
Definition insert_body (node parent root : Z) : ST store Z :=
  gparent <- rb_parent parent ;;
  gparent_left <- get_left gparent ;;
  if parent =? gparent_left then
    uncle <- get_right gparent ;;
    red <- red_node uncle ;;
    if red then
      rb_set_black uncle ;;; rb_set_black parent ;;; rb_set_red gparent ;;; ret gparent
    else
      parent_right <- get_right parent ;;
      if parent_right =? node then
        __rb_rotate_left parent root ;;;
        rb_set_black node ;;; rb_set_red gparent ;;; __rb_rotate_right gparent root ;;; ret parent
      else
        rb_set_black parent ;;; rb_set_red gparent ;;; __rb_rotate_right gparent root ;;; ret node
  else
    uncle <- get_left gparent ;;
    red <- red_node uncle ;;
    if red then
      rb_set_black uncle ;;; rb_set_black parent ;;; rb_set_red gparent ;;; ret gparent
    else
      parent_left <- get_left parent ;;
      if parent_left =? node then
        __rb_rotate_right parent root ;;;
        rb_set_black node ;;; rb_set_red gparent ;;; __rb_rotate_left gparent root ;;; ret parent
      else
        rb_set_black parent ;;; rb_set_red gparent ;;; __rb_rotate_left gparent root ;;; ret node.

Fixpoint insert_loop (fuel : nat) (node root : Z) : ST store unit :=
  parent <- rb_parent node ;;
  red <- red_node parent ;;
  if red then
    match fuel with
    | O => lift None
    | S fuel => node <- insert_body node parent root ;; insert_loop fuel node root
    end
  else ret tt.

Definition rb_insert_color (fuel : nat) (node root : Z) : ST store unit :=
  insert_loop fuel node root ;;;
  r <- get_root root ;; rb_set_black r.

(** ** Removal *)

(** The second half of an iteration, where [other], the sibling of [node], is
    black and the right child of [parent]; the result is the next [node] and
    [parent], and whether the loop was left by [break]. *)
Definition erase_black_right (parent other root : Z) : ST store (bool * Z * Z) :=
  l <- get_left other ;;
  bl <- black_node l ;;
  both <- (if bl then r <- get_right other ;; black_node r else ret false) ;;
  if both then
    rb_set_red other ;;;
    p <- rb_parent parent ;; ret (false, parent, p)
  else
    f <- get_right other ;;
    bf <- black_node f ;;
    other <- (if bf then
                o_left <- get_left other ;;
                when (tst o_left) (rb_set_black o_left) ;;;
                rb_set_red other ;;; __rb_rotate_right other root ;;;
                get_right parent
              else ret other) ;;
    c <- rb_color parent ;;
    rb_set_color other c ;;;
    rb_set_black parent ;;;
    f <- get_right other ;;
    when (tst f) (rb_set_black f) ;;;
    __rb_rotate_left parent root ;;;
    node <- get_root root ;; ret (true, node, parent).

(** The mirror image: [other] is the left child. *)
Definition erase_black_left (parent other root : Z) : ST store (bool * Z * Z) :=
  l <- get_left other ;;
  bl <- black_node l ;;
  both <- (if bl then r <- get_right other ;; black_node r else ret false) ;;
  if both then
    rb_set_red other ;;;
    p <- rb_parent parent ;; ret (false, parent, p)
  else
    f <- get_left other ;;
    bf <- black_node f ;;
    other <- (if bf then
                o_right <- get_right other ;;
                when (tst o_right) (rb_set_black o_right) ;;;
                rb_set_red other ;;; __rb_rotate_left other root ;;;
                get_left parent
              else ret other) ;;
    c <- rb_color parent ;;
    rb_set_color other c ;;;
    rb_set_black parent ;;;
    f <- get_left other ;;
    when (tst f) (rb_set_black f) ;;;
    __rb_rotate_right parent root ;;;
    node <- get_root root ;; ret (true, node, parent).

(** One iteration. *)
Definition erase_body (node parent root : Z) : ST store (bool * Z * Z) :=
  parent_left <- get_left parent ;;
  if parent_left =? node then
    other <- get_right parent ;;
    red <- rb_is_red other ;;
    other <- (if red then
                rb_set_black other ;;; rb_set_red parent ;;; __rb_rotate_left parent root ;;;
                get_right parent
              else ret other) ;;
    erase_black_right parent other root
  else
    other <- get_left parent ;;
    red <- rb_is_red other ;;
    other <- (if red then
                rb_set_black other ;;; rb_set_red parent ;;; __rb_rotate_right parent root ;;;
                get_left parent
              else ret other) ;;
    erase_black_left parent other root.

(** The [node] the loop ends with. *)
Fixpoint erase_loop (fuel : nat) (node parent root : Z) : ST store Z :=
  b <- black_node node ;;
  go <- (if b then r <- get_root root ;; ret (negb (node =? r)) else ret false) ;;
  if go then
    match fuel with
    | O => lift None
    | S fuel =>
        ' (stop, node, parent) <- erase_body node parent root ;;
        if stop then ret node else erase_loop fuel node parent root
    end
  else ret node.

Definition __rb_erase_color (fuel : nat) (node parent root : Z) : ST store unit :=
  node <- erase_loop fuel node parent root ;;
  when (tst node) (rb_set_black node).

(** [while ((left = node->rb_left) != NULL) node = left;] *)
Fixpoint leftmost (fuel : nat) (node : Z) : ST store Z :=
  left <- get_left node ;;
  if tst left then match fuel with O => lift None | S fuel => leftmost fuel left end
  else ret node.
Fixpoint rightmost (fuel : nat) (node : Z) : ST store Z :=
  right <- get_right node ;;
  if tst right then match fuel with O => lift None | S fuel => rightmost fuel right end
  else ret node.

(** A node with at most one child is replaced by it. *)
Definition erase_unlink (node child root : Z) : ST store (Z * Z * Z) :=
  parent <- rb_parent node ;;
  color <- rb_color node ;;
  when (tst child) (rb_set_parent child parent) ;;;
  (if tst parent then
     parent_left <- get_left parent ;;
     if parent_left =? node then set_left parent child else set_right parent child
   else set_root root child) ;;;
  ret (child, parent, color).

(** [node] takes the place of [old] in the tree. *)
Definition erase_take_place (node old root : Z) : ST store unit :=
  w <- get_pc old ;; set_pc node w ;;;
  r <- get_right old ;; set_right node r ;;;
  l <- get_left old ;; set_left node l ;;;
  old_parent <- rb_parent old ;;
  (if tst old_parent then
     old_parent_left <- get_left old_parent ;;
     if old_parent_left =? old then set_left old_parent node else set_right old_parent node
   else set_root root node) ;;;
  l <- get_left old ;; rb_set_parent l node ;;;
  r <- get_right old ;; when (tst r) (rb_set_parent r node).

(** A node with two children is replaced by its successor. *)
Definition erase_replace (fuel : nat) (old root : Z) : ST store (Z * Z * Z) :=
  node <- get_right old ;;
  node <- leftmost fuel node ;;
  child <- get_right node ;;
  parent <- rb_parent node ;;
  color <- rb_color node ;;
  when (tst child) (rb_set_parent child parent) ;;;
  parent <- (if parent =? old then set_right parent child ;;; ret node
             else set_left parent child ;;; ret parent) ;;
  erase_take_place node old root ;;;
  ret (child, parent, color).

(** Takes [node] out of the tree: the [child], [parent] and [color] at the
    label [color]. *)
Definition erase_out (fuel : nat) (node root : Z) : ST store (Z * Z * Z) :=
  left <- get_left node ;;
  right <- get_right node ;;
  if negb (tst left) then erase_unlink node right root
  else if negb (tst right) then erase_unlink node left root
  else erase_replace fuel node root.

Definition rb_erase (fuel : nat) (node root : Z) : ST store unit :=
  ' (child, parent, color) <- erase_out fuel node root ;;
  when (color =? RB_BLACK) (__rb_erase_color fuel child parent root).

(** ** Traversal *)

Definition rb_first (fuel : nat) (root : Z) : ST store Z :=
  n <- get_root root ;; if tst n then leftmost fuel n else ret NULL.
Definition rb_last (fuel : nat) (root : Z) : ST store Z :=
  n <- get_root root ;; if tst n then rightmost fuel n else ret NULL.

Fixpoint climb_right (fuel : nat) (node : Z) : ST store Z :=
  parent <- rb_parent node ;;
  up <- (if tst parent then r <- get_right parent ;; ret (node =? r) else ret false) ;;
  if up then match fuel with O => lift None | S fuel => climb_right fuel parent end
  else ret parent.
Fixpoint climb_left (fuel : nat) (node : Z) : ST store Z :=
  parent <- rb_parent node ;;
  up <- (if tst parent then l <- get_left parent ;; ret (node =? l) else ret false) ;;
  if up then match fuel with O => lift None | S fuel => climb_left fuel parent end
  else ret parent.

Definition rb_next (fuel : nat) (node : Z) : ST store Z :=
  p <- rb_parent node ;;
  if p =? node then ret NULL
  else
    r <- get_right node ;;
    if tst r then leftmost fuel r else climb_right fuel node.
Definition rb_prev (fuel : nat) (node : Z) : ST store Z :=
  p <- rb_parent node ;;
  if p =? node then ret NULL
  else
    l <- get_left node ;;
    if tst l then rightmost fuel l else climb_left fuel node.

Definition rb_replace_node (victim new root : Z) : ST store unit :=
  parent <- rb_parent victim ;;
  (if tst parent then
     parent_left <- get_left parent ;;
     if victim =? parent_left then set_left parent new else set_right parent new
   else set_root root new) ;;;
  l <- get_left victim ;; when (tst l) (rb_set_parent l new) ;;;
  r <- get_right victim ;; when (tst r) (rb_set_parent r new) ;;;
  n <- node_at victim ;; node_at new ;;; put_node new n.
