(* ===== verification/RbtreeRep.v ===== *)
(** * Red-black trees: representation

    The abstract tree a root stands for, trees with a hole (the path from a
    node to the root, as the code climbs it), and what the primitive accesses
    of [Rbtree] do to a memory that represents such a tree. *)

#[local] Set Warnings "-notation-incompatible-prefix".
From S2P Require Import Prelude Rbtree.
From stdpp Require Import gmap.
#[local] Open Scope Z_scope.

(** ** Trees and contexts *)

Inductive color := Red | Black.
#[export] Instance color_eq_dec : EqDecision color.
Proof. solve_decision. Defined.

Inductive tree := E | T (c : color) (l : tree) (a : Z) (r : tree).

Definition colz (c : color) : Z := match c with Red => RB_RED | Black => RB_BLACK end.
Definition ptr (t : tree) : Z := match t with E => NULL | T _ _ a _ => a end.

(** The addresses of the nodes, in order. *)
Fixpoint elts (t : tree) : list Z :=
  match t with E => [] | T _ l a r => elts l ++ a :: elts r end.

(** One step of a path: the hole is the left ([hl]) or the right child of [fa]. *)
Record frame := mkframe { hl : bool; fc : color; fa : Z; fs : tree }.
Definition fill (f : frame) (t : tree) : tree :=
  if hl f then T (fc f) t (fa f) (fs f) else T (fc f) (fs f) (fa f) t.
Fixpoint plug (k : list frame) (t : tree) : tree :=
  match k with [] => t | f :: k => plug k (fill f t) end.

Definition pa (k : list frame) : Z := match k with [] => NULL | f :: _ => fa f end.
(** The root pointer, when [p] is in the hole. *)
Fixpoint rootp (k : list frame) (p : Z) : Z :=
  match k with [] => p | f :: k => rootp k (fa f) end.

Fixpoint celts (k : list frame) : list Z :=
  match k with [] => [] | f :: k => celts k ++ fa f :: elts (fs f) end.
(** What is left and right of the hole, in order. *)
Fixpoint lefts (k : list frame) : list Z :=
  match k with
  | [] => []
  | f :: k => if hl f then lefts k else lefts k ++ elts (fs f) ++ [fa f]
  end.
Fixpoint rights (k : list frame) : list Z :=
  match k with
  | [] => []
  | f :: k => if hl f then fa f :: elts (fs f) ++ rights k else rights k
  end.

Lemma ptr_plug k t : ptr (plug k t) = rootp k (ptr t).
Proof. revert t; induction k as [|f k IH]; intros t; [done|]; simpl; rewrite IH; now destruct f as [[] ? ? ?]. Qed.

Lemma elts_plug k t : elts (plug k t) = lefts k ++ elts t ++ rights k.
Proof.
  revert t; induction k as [|[[] c a s] k IH]; intros t; simpl; [now rewrite app_nil_r|..];
    rewrite IH; simpl; now rewrite <- !app_assoc.
Qed.

Lemma celts_perm k : celts k ≡ₚ lefts k ++ rights k.
Proof.
  induction k as [|[[] c a s] k IH]; simpl; [done|rewrite IH..].
  - rewrite <- app_assoc; f_equiv; rewrite Permutation_app_comm; simpl; done.
  - rewrite <- !app_assoc; f_equiv; rewrite Permutation_app_comm; simpl.
    apply Permutation_middle.
Qed.

Lemma elts_plug_perm k t : elts (plug k t) ≡ₚ celts k ++ elts t.
Proof. rewrite elts_plug, celts_perm, <- app_assoc; f_equiv; apply Permutation_app_comm. Qed.

(** ** Cells *)

(** Addresses of nodes are aligned and not [NULL]. *)
Definition good (a : Z) : Prop := 0 < a /\ (4 | a).

Definition cell (par : Z) (c : color) (l r : Z) : rb_node := mknode (par + colz c) r l.

Lemma colour_bits par c : (4 | par) ->
  Z.land (par + colz c) (Z.lnot 3) = par /\ Z.land (par + colz c) 3 = colz c /\
  Z.land (par + colz c) 1 = colz c /\
  Z.land (par + colz c) (Z.lnot 1) = par /\ Z.lor (par + colz c) 1 = par + 1.
Proof.
  intros [q ->].
  assert (L : forall y, Z.lor (2 * y) 1 = 2 * y + 1 /\ Z.lor (2 * y + 1) 1 = 2 * y + 1).
  { intros y; split; apply Z.bits_inj'; intros n Hn; rewrite Z.lor_spec;
      (destruct (Z.eq_dec n 0) as [->|]; [now rewrite ?Z.testbit_odd_0, ?Z.testbit_even_0|];
       rewrite (Z.bits_above_log2 1 n), orb_false_r by (cbn; lia);
       replace n with (Z.succ (n - 1)) by lia;
       now rewrite ?Z.testbit_odd_succ, ?Z.testbit_even_succ by lia). }
  assert (M : forall x n, 0 <= n -> Z.land x (Z.lnot (Z.ones n)) = x / 2 ^ n * 2 ^ n).
  { intros x n Hn; rewrite <- Z.ldiff_land, Z.ldiff_ones_r, Z.shiftl_mul_pow2, Z.shiftr_div_pow2 by done; done. }
  rewrite (M _ 2), (M _ 1), (Z.land_ones _ 2), (Z.land_ones _ 1) by lia.
  change (2 ^ 2) with 4; change (2 ^ 1) with 2.
  destruct c; simpl; unfold RB_RED, RB_BLACK.
  - repeat split; try divmod; replace (q * 4 + 0) with (2 * (q * 2)) by lia; rewrite (proj1 (L _)); lia.
  - repeat split; try divmod; replace (q * 4 + 1) with (2 * (q * 2) + 1) by lia; rewrite (proj2 (L _)); lia.
Qed.

(** ** Representation *)

Fixpoint rep (h : gmap Z rb_node) (par : Z) (t : tree) : Prop :=
  match t with
  | E => True
  | T c l a r => h !! a = Some (cell par c (ptr l) (ptr r)) /\ rep h a l /\ rep h a r
  end.

(** The node above a hole that holds [p]. *)
Definition fcell (f : frame) (par p : Z) : rb_node :=
  cell par (fc f) (if hl f then p else ptr (fs f)) (if hl f then ptr (fs f) else p).

Fixpoint repc (h : gmap Z rb_node) (k : list frame) (p : Z) : Prop :=
  match k with
  | [] => True
  | f :: k => h !! fa f = Some (fcell f (pa k) p) /\ rep h (fa f) (fs f) /\ repc h k (fa f)
  end.

(** The tree at [root] is [t]. *)
Definition holds (m : store) (root : Z) (t : tree) : Prop :=
  roots m !! root = Some (ptr t) /\ rep (nodes m) NULL t /\ NoDup (elts t) /\ Forall good (elts t).

(** The same, seen from the hole. *)
Definition focus (m : store) (root : Z) (k : list frame) (t : tree) : Prop :=
  roots m !! root = Some (rootp k (ptr t)) /\ repc (nodes m) k (ptr t) /\
  rep (nodes m) (pa k) t /\ NoDup (celts k ++ elts t) /\ Forall good (celts k ++ elts t).

Lemma rep_fill h par f t :
  rep h par (fill f t) <-> h !! fa f = Some (fcell f par (ptr t)) /\ rep h (fa f) (fs f) /\ rep h (fa f) t.
Proof. destruct f as [[] c a s]; simpl; tauto. Qed.

Lemma ptr_fill f t : ptr (fill f t) = fa f.
Proof. now destruct f as [[] c a s]. Qed.

Lemma rep_plug h k t : rep h NULL (plug k t) <-> repc h k (ptr t) /\ rep h (pa k) t.
Proof.
  revert t; induction k as [|f k IH]; intros t; simpl; [tauto|].
  rewrite IH, ptr_fill, rep_fill; tauto.
Qed.

Lemma focus_holds m root k t : focus m root k t <-> holds m root (plug k t).
Proof.
  unfold focus, holds; rewrite rep_plug, ptr_plug, elts_plug_perm; tauto.
Qed.

(** The rest of memory: other nodes, other roots. *)
Definition elsewhere (X : list Z) (root : Z) (m m' : store) : Prop :=
  (forall p, p ∉ X -> nodes m' !! p = nodes m !! p) /\
  (forall r, r <> root -> roots m' !! r = roots m !! r).

#[export] Instance elsewhere_refl X root : Reflexive (elsewhere X root).
Proof. now split. Qed.
#[export] Instance elsewhere_trans X root : Transitive (elsewhere X root).
Proof.
  intros m1 m2 m3 [A1 A2] [B1 B2]; split; intros; [rewrite B1, A1|rewrite B2, A2]; done.
Qed.

Lemma elsewhere_sub X Y root m m' : X ⊆ Y -> elsewhere X root m m' -> elsewhere Y root m m'.
Proof. intros S [A B]; split; [intros p Hp; apply A; set_solver|done]. Qed.

Lemma rep_ext h h' par t : (forall p, p ∈ elts t -> h' !! p = h !! p) -> rep h par t -> rep h' par t.
Proof.
  revert par; induction t as [|c l IHl a r IHr]; intros par F; [done|]; simpl.
  intros (A & L & R); rewrite F by (simpl; set_solver).
  split; [done|]; split; [apply IHl|apply IHr]; try done; intros; apply F; simpl; set_solver.
Qed.

Lemma repc_ext h h' k p : (forall q, q ∈ celts k -> h' !! q = h !! q) -> repc h k p -> repc h' k p.
Proof.
  revert p; induction k as [|f k IH]; intros p F; [done|]; simpl.
  intros (A & S & K); rewrite F by (simpl; set_solver).
  split; [done|]; split; [eapply rep_ext; [|done]|apply IH; [|done]]; intros; apply F; simpl; set_solver.
Qed.

(** ** Disjointness by ownership

    Each list of a duplicate-free concatenation gets a number; addresses with
    different numbers differ. *)
Lemma owners (ls : list (list Z)) : NoDup (concat ls) ->
  exists own : Z -> nat, forall i l, ls !! i = Some l -> forall p, p ∈ l -> own p = i.
Proof.
  induction ls as [|l ls IH]; simpl; intros N; [exists (fun _ => O); intros i l; now destruct i|].
  apply NoDup_app in N as (_ & D & N); destruct (IH N) as [own W].
  exists (fun p => if decide (p ∈ l) then O else S (own p)).
  intros [|i] l' L p Hp; simpl in L; [injection L as <-; now rewrite decide_True|].
  assert (p ∈ concat ls) by (apply list_elem_of_In, in_concat; exists l'; split; apply list_elem_of_In; [eapply list_elem_of_lookup_2|]; done).
  rewrite decide_False by (intros Q; now apply (D p)); f_equal; eapply W; done.
Qed.

(** ** Primitive accesses *)

Definition upd (p : Z) (n : rb_node) (m : store) : store := set_nodes (<[p := n]> (nodes m)) m.

Lemma lookup_upd m p n : nodes (upd p n m) !! p = Some n.
Proof. apply lookup_insert_eq. Qed.
Lemma lookup_upd_ne m p q n : p <> q -> nodes (upd p n m) !! q = nodes m !! q.
Proof. apply lookup_insert_ne. Qed.
Lemma roots_upd m p n : roots (upd p n m) = roots m.
Proof. done. Qed.

Section Access.
Context (m : store) (p par l r : Z) (c : color).
Context (P : p <> 0) (L : nodes m !! p = Some (cell par c l r)).

Lemma run_node_at : node_at p m = Some (cell par c l r, m).
Proof. unfold node_at; rewrite (proj2 (Z.eqb_neq p NULL) P), L; done. Qed.

Lemma run_get_left : get_left p m = Some (l, m).
Proof. unfold get_left; now rewrite (run_bind_some _ _ _ _ _ run_node_at). Qed.
Lemma run_get_right : get_right p m = Some (r, m).
Proof. unfold get_right; now rewrite (run_bind_some _ _ _ _ _ run_node_at). Qed.
Lemma run_get_pc : get_pc p m = Some (par + colz c, m).
Proof. unfold get_pc; now rewrite (run_bind_some _ _ _ _ _ run_node_at). Qed.
Lemma run_set_left v : set_left p v m = Some (tt, upd p (cell par c v r) m).
Proof. unfold set_left; now rewrite (run_bind_some _ _ _ _ _ run_node_at). Qed.
Lemma run_set_right v : set_right p v m = Some (tt, upd p (cell par c l v) m).
Proof. unfold set_right; now rewrite (run_bind_some _ _ _ _ _ run_node_at). Qed.
Lemma run_set_pc par' c' : set_pc p (par' + colz c') m = Some (tt, upd p (cell par' c' l r) m).
Proof. unfold set_pc; now rewrite (run_bind_some _ _ _ _ _ run_node_at). Qed.

Context (A : (4 | par)).

Lemma run_rb_parent : rb_parent p m = Some (par, m).
Proof. unfold rb_parent; rewrite (run_bind_some _ _ _ _ _ run_get_pc), (proj1 (colour_bits par c A)); done. Qed.
Lemma run_rb_color : rb_color p m = Some (colz c, m).
Proof. unfold rb_color; rewrite (run_bind_some _ _ _ _ _ run_get_pc); now destruct (colour_bits par c A) as (_ & _ & -> & _). Qed.
Lemma run_rb_is_red : rb_is_red p m = Some (bool_decide (c = Red), m).
Proof. unfold rb_is_red; rewrite (run_bind_some _ _ _ _ _ run_rb_color); now destruct c. Qed.
Lemma run_rb_is_black : rb_is_black p m = Some (bool_decide (c = Black), m).
Proof. unfold rb_is_black; rewrite (run_bind_some _ _ _ _ _ run_rb_color); now destruct c. Qed.
Lemma run_rb_set_red : rb_set_red p m = Some (tt, upd p (cell par Red l r) m).
Proof.
  unfold rb_set_red; rewrite (run_bind_some _ _ _ _ _ run_get_pc).
  destruct (colour_bits par c A) as (_ & _ & _ & -> & _); rewrite <- (run_set_pc par Red); f_equal; simpl; unfold RB_RED; lia.
Qed.
Lemma run_rb_set_black : rb_set_black p m = Some (tt, upd p (cell par Black l r) m).
Proof.
  unfold rb_set_black; rewrite (run_bind_some _ _ _ _ _ run_get_pc).
  destruct (colour_bits par c A) as (_ & _ & _ & _ & ->); apply (run_set_pc par Black).
Qed.
Lemma run_rb_set_parent q : (4 | q) -> rb_set_parent p q m = Some (tt, upd p (cell q c l r) m).
Proof.
  intros Q; unfold rb_set_parent; rewrite (run_bind_some _ _ _ _ _ run_get_pc).
  destruct (colour_bits par c A) as (_ & -> & _); rewrite <- (run_set_pc q c); f_equal.
  destruct c; simpl; unfold RB_RED, RB_BLACK; [rewrite Z.lor_0_l; lia|]; rewrite Z.lor_comm.
  pose proof (colour_bits q Red Q) as (_ & _ & _ & _ & H); simpl in H; rewrite Z.add_0_r in H; exact H.
Qed.
Lemma run_rb_set_color c' : rb_set_color p (colz c') m = Some (tt, upd p (cell par c' l r) m).
Proof.
  unfold rb_set_color; rewrite (run_bind_some _ _ _ _ _ run_get_pc).
  destruct (colour_bits par c A) as (_ & _ & _ & -> & _); rewrite <- (run_set_pc par c'); f_equal.
  destruct c'; simpl; unfold RB_RED, RB_BLACK; [rewrite Z.lor_0_r; lia|].
  pose proof (colour_bits par Red A) as (_ & _ & _ & _ & H); simpl in H; rewrite Z.add_0_r in H; exact H.
Qed.
End Access.

Lemma run_put_node p n m : put_node p n m = Some (tt, upd p n m).
Proof. done. Qed.

Definition setr (root v : Z) (m : store) : store := set_roots (<[root := v]> (roots m)) m.
Lemma run_get_root m root p : roots m !! root = Some p -> get_root root m = Some (p, m).
Proof. intros R; unfold get_root; now rewrite R. Qed.
Lemma run_set_root m root p v : roots m !! root = Some p -> set_root root v m = Some (tt, setr root v m).
Proof. intros R; unfold set_root; now rewrite R. Qed.

(** ** Running programs *)

Definition wp {A} (p : ST store A) (Q : A -> store -> Prop) (m : store) : Prop :=
  exists a m', p m = Some (a, m') /\ Q a m'.

Lemma wp_run {A} (p : ST store A) Q m a m' : p m = Some (a, m') -> Q a m' -> wp p Q m.
Proof. intros R H; now exists a, m'. Qed.
Lemma wp_ret {A} (a : A) (Q : A -> store -> Prop) m : Q a m -> wp (ret a) Q m.
Proof. apply wp_run; done. Qed.
Lemma wp_bind {A B} (p : ST store A) (k : A -> ST store B) Q m :
  wp p (fun a => wp (k a) Q) m -> wp (bind p k) Q m.
Proof. intros (a & m1 & R & b & m2 & R' & H); exists b, m2; unfold bind; now rewrite R. Qed.
Lemma wp_mono {A} (p : ST store A) (Q Q' : A -> store -> Prop) m :
  wp p Q m -> (forall a m', Q a m' -> Q' a m') -> wp p Q' m.
Proof. intros (a & m' & R & H) I; exists a, m'; auto. Qed.

Lemma tst_good a : good a -> tst a = true.
Proof. intros [P _]; unfold tst; now rewrite (proj2 (Z.eqb_neq a 0)) by lia. Qed.
Lemma good_ne a : good a -> a <> 0.
Proof. intros [? _]; lia. Qed.
Lemma good_aligned a : good a -> (4 | a).
Proof. now intros [_ ?]. Qed.
Lemma pa_aligned k : Forall good (celts k) -> (4 | pa k).
Proof. destruct k as [|f k]; simpl; [intros _; apply Z.divide_0_r|]; intros G; apply good_aligned; rewrite Forall_forall in G; apply G; set_solver. Qed.
Lemma ptr_ne t a : good a -> a ∉ elts t -> ptr t <> a.
Proof. destruct t as [|c l b r]; simpl; [intros [? _] _; unfold NULL; lia|intros _ N <-; apply N; set_solver]. Qed.
Create HintDb rb.
#[export] Hint Resolve good_ne good_aligned Z.divide_0_r : rb.

Arguments upd : simpl never.
Arguments setr : simpl never.
Arguments nodes : simpl never.
Arguments roots : simpl never.

Lemma nodes_setr root v m : nodes (setr root v m) = nodes m.
Proof. done. Qed.
Lemma roots_setr root v m : roots (setr root v m) !! root = Some v.
Proof. apply lookup_insert_eq. Qed.

Lemma elsewhere_upd X root m m' a n : elsewhere X root m m' -> a ∈ X -> elsewhere X root m (upd a n m').
Proof. intros [A B] I; split; [|done]; intros p Hp; rewrite lookup_upd_ne by (intros ->; done); auto. Qed.
Lemma elsewhere_setr X root m m' v : elsewhere X root m m' -> elsewhere X root m (setr root v m').
Proof. intros [A B]; split; [done|]; intros r Hr; rewrite <- (B r Hr); now apply lookup_insert_ne. Qed.

(** ** Automation *)

(** The owner of an address of a part. *)
Ltac owner Hp :=
  repeat match goal with
  | H : forall p, p ∈ ?l -> _ = _ |- _ =>
      match type of Hp with _ ∈ l => specialize (H _ Hp) end
  end.
(** Addresses differ when their owners do. *)
Ltac differ :=
  first
  [ assumption | congruence | (intros ->; congruence)
  | apply ptr_ne; [assumption|]; let Hp := fresh in intros Hp; owner Hp; congruence
  | apply not_eq_sym, ptr_ne; [assumption|]; let Hp := fresh in intros Hp; owner Hp; congruence ].
(** Look an address up through updates. *)
Ltac lk :=
  repeat first [rewrite nodes_setr | rewrite lookup_upd | rewrite lookup_upd_ne by differ];
  first [reflexivity | eassumption].
(** Run the next access. *)
Ltac side := solve [auto with rb].
Ltac access :=
  first
  [ eapply run_get_left; [side | lk]
  | eapply run_get_right; [side | lk]
  | eapply run_set_left; [side | lk]
  | eapply run_set_right; [side | lk]
  | eapply run_node_at; [side | lk]
  | eapply run_get_pc; [side | lk]
  | eapply run_set_pc; [side | lk]
  | eapply run_rb_parent; [side | lk | side]
  | eapply run_rb_color; [side | lk | side]
  | eapply run_rb_is_red; [side | lk | side]
  | eapply run_rb_is_black; [side | lk | side]
  | eapply run_rb_set_red; [side | lk | side]
  | eapply run_rb_set_black; [side | lk | side]
  | eapply run_rb_set_color; [side | lk | side]
  | eapply run_rb_set_parent; [side | lk | side | side]
  | apply run_put_node
  | eapply run_get_root; rewrite ?roots_upd; eassumption
  | eapply run_set_root; rewrite ?roots_upd; eassumption ].
Lemma when_true (p : ST store unit) : when true p = p.
Proof. done. Qed.
Lemma when_false (p : ST store unit) : when false p = ret tt.
Proof. done. Qed.
(** Decide the tests of the code. *)
Ltac cond :=
  repeat first
  [ progress change (tst NULL) with false
  | rewrite tst_good by assumption
  | rewrite when_true | rewrite when_false
  | rewrite Z.eqb_refl
  | match goal with |- context [?a =? ?b] => rewrite (proj2 (Z.eqb_neq a b)) by differ end ];
  cbv beta iota.
Ltac step :=
  cond;
  lazymatch goal with
  | |- wp (bind _ _) _ _ => apply wp_bind
  | |- wp (ret _) _ _ => apply wp_ret
  | |- wp _ _ _ => eapply wp_run; [access|]
  end; cbv beta.

(** Number the parts of a duplicate-free list of addresses. *)
Ltac number N ls :=
  let own := fresh "own" in let W := fresh "W" in
  destruct (owners ls) as [own W];
  [simpl; rewrite ?app_nil_r; revert N; simpl; repeat (rewrite <- app_assoc; simpl); exact id|];
  let rec go i l :=
    lazymatch l with
    | [?a] :: ?l => let H := fresh "Own" in
        assert (own a = i) as H by (apply (W i [a] eq_refl), list_elem_of_here); go (S i) l
    | ?x :: ?l => let H := fresh "Own" in pose proof (W i x eq_refl) as H; go (S i) l
    | _ => idtac
    end in go O ls; clear W.

Ltac goods G :=
  let G' := fresh "G" in
  pose proof G as G'; simpl in G';
  repeat (rewrite Forall_app in G' || rewrite Forall_cons in G' || rewrite Forall_nil in G');
  destruct_and? G'.

(** The part of the memory a subtree lives in is as it was. *)
Ltac untouched :=
  match goal with
  | H : rep (nodes ?m) ?p ?t |- rep _ ?p ?t => apply (rep_ext (nodes m)); [|exact H]
  | H : repc (nodes ?m) ?k ?p |- repc _ ?k ?p => apply (repc_ext (nodes m)); [|exact H]
  end;
  let p := fresh "p" in let Hp := fresh "Hp" in
  intros p Hp; owner Hp; lk.

(** The same addresses, listed with other parentheses. *)
Ltac same_list :=
  match goal with
  | H : ?P ?l |- ?P ?l' =>
      replace l' with l; [exact H|]; simpl; repeat (rewrite <- app_assoc; simpl); rewrite ?app_nil_r; reflexivity
  end.
(** Close the representation of the final memory, part by part. *)
Ltac settle :=
  repeat match goal with
  | |- _ /\ _ => split
  | |- True => exact I
  | |- (_, _) = (_, _) => reflexivity
  | |- _ => untouched
  | |- roots (setr _ _ _) !! _ = Some _ => apply roots_setr
  | |- roots (upd _ _ _) !! _ = Some _ => rewrite roots_upd
  | |- roots _ !! _ = Some _ => eassumption
  | |- nodes _ !! _ = _ => lk
  | |- elsewhere _ _ _ (upd _ _ _) => apply elsewhere_upd; [|set_solver]
  | |- elsewhere _ _ _ (setr _ _ _) => apply elsewhere_setr
  | |- elsewhere _ _ _ _ => reflexivity
  | |- NoDup _ => same_list
  | |- Forall _ _ => same_list
  end.
