(* ===== verification/RbtreeOps.v ===== *)
(** * Red-black trees: rotations, colours and links

    What the building blocks of insertion and removal do to the tree a root
    stands for. *)

#[local] Set Warnings "-notation-incompatible-prefix".
From S2P Require Import Prelude Rbtree RbtreeRep.
From stdpp Require Import gmap.
#[local] Open Scope Z_scope.

(** Run a straight-line program whose nodes are the listed parts, and collect
    the tree from the memory it leaves. *)
Ltac run N G ls := goods G; number N ls; repeat step; unfold focus; simpl; settle.

(** ** Rotations *)

Lemma rotate_left_ok m root k c l a d x b y :
  focus m root k (T c l a (T d x b y)) ->
  wp (__rb_rotate_left a root) (fun _ m' =>
    focus m' root k (T d (T c l a x) b y) /\
    elsewhere (celts k ++ elts (T c l a (T d x b y))) root m m') m.
Proof.
  intros (R & K & (A & L & B & X & Y) & N & G); unfold __rb_rotate_left.
  assert (PA : (4 | pa k)) by (apply pa_aligned; now apply Forall_app in G as [? _]).
  destruct x as [|cx xl xa xr]; [|destruct X as (XA & XL & XR)];
    (destruct k as [|[[] cf af sf] k]; simpl in *; [|destruct K as (F & S & K); unfold fcell in *; simpl in *..]).
  - run N G [elts l; [a]; [b]; elts y].
  - run N G [celts k; [af]; elts sf; elts l; [a]; [b]; elts y].
  - run N G [celts k; [af]; elts sf; elts l; [a]; [b]; elts y].
  - run N G [elts l; [a]; elts xl; [xa]; elts xr; [b]; elts y].
  - run N G [celts k; [af]; elts sf; elts l; [a]; elts xl; [xa]; elts xr; [b]; elts y].
  - run N G [celts k; [af]; elts sf; elts l; [a]; elts xl; [xa]; elts xr; [b]; elts y].
Qed.

Lemma rotate_right_ok m root k c l a d x b y :
  focus m root k (T c (T d y b x) a l) ->
  wp (__rb_rotate_right a root) (fun _ m' =>
    focus m' root k (T d y b (T c x a l)) /\
    elsewhere (celts k ++ elts (T c (T d y b x) a l)) root m m') m.
Proof.
  intros (R & K & (A & (B & Y & X) & L) & N & G); unfold __rb_rotate_right.
  assert (PA : (4 | pa k)) by (apply pa_aligned; now apply Forall_app in G as [? _]).
  destruct x as [|cx xl xa xr]; [|destruct X as (XA & XL & XR)];
    (destruct k as [|[[] cf af sf] k]; simpl in *; [|destruct K as (F & S & K); unfold fcell in *; simpl in *..]).
  - run N G [elts y; [b]; [a]; elts l].
  - run N G [celts k; [af]; elts sf; elts y; [b]; [a]; elts l].
  - run N G [celts k; [af]; elts sf; elts y; [b]; [a]; elts l].
  - run N G [elts y; [b]; elts xl; [xa]; elts xr; [a]; elts l].
  - run N G [celts k; [af]; elts sf; elts y; [b]; elts xl; [xa]; elts xr; [a]; elts l].
  - run N G [celts k; [af]; elts sf; elts y; [b]; elts xl; [xa]; elts xr; [a]; elts l].
Qed.

(** ** Working on a tree

    [m] holds [t] below the path [k]; the in-order sequence of the whole tree
    is [X], and outside of it [m] is as [m0]. *)
Definition tree_at (m0 : store) (X : list Z) (root : Z) (k : list frame) (t : tree) (m : store) : Prop :=
  holds m root (plug k t) /\ elts (plug k t) = X /\ elsewhere X root m0 m.

Section At.
Context (m0 : store) (X : list Z) (root : Z).
#[local] Abbreviation at_ := (tree_at m0 X root).

Lemma tree_at_step k t t' m m' :
  at_ k t m -> elts t' = elts t -> focus m' root k t' -> elsewhere (celts k ++ elts t) root m m' -> at_ k t' m'.
Proof.
  intros (H & I & W) Et F W'; unfold tree_at.
  assert (Ep : elts (plug k t') = X) by (rewrite elts_plug, Et, <- elts_plug; done).
  split; [now apply focus_holds|]; split; [done|]; transitivity m; [done|].
  eapply elsewhere_sub; [|done]; intros p Hp; rewrite <- I, elts_plug_perm; done.
Qed.

Lemma rotate_left_at k c l a d x b y m :
  at_ k (T c l a (T d x b y)) m ->
  wp (__rb_rotate_left a root) (fun _ => at_ k (T d (T c l a x) b y)) m.
Proof.
  intros H; eapply wp_mono; [apply rotate_left_ok, focus_holds, H|].
  intros _ m' [F W]; eapply tree_at_step; [exact H| |exact F|exact W]; simpl; now rewrite <- app_assoc.
Qed.

Lemma rotate_right_at k c l a d x b y m :
  at_ k (T c (T d y b x) a l) m ->
  wp (__rb_rotate_right a root) (fun _ => at_ k (T d y b (T c x a l))) m.
Proof.
  intros H; eapply wp_mono; [apply rotate_right_ok, focus_holds, H|].
  intros _ m' [F W]; eapply tree_at_step; [exact H| |exact F|exact W]; simpl; now rewrite <- app_assoc.
Qed.

Lemma cell_at k c l a r m : at_ k (T c l a r) m ->
  good a /\ (4 | pa k) /\ nodes m !! a = Some (cell (pa k) c (ptr l) (ptr r)).
Proof.
  intros (H & _); apply focus_holds in H as (_ & _ & (A & _) & _ & G).
  apply Forall_app in G as [G1 G2]; split; [|split; [now apply pa_aligned|done]].
  rewrite Forall_forall in G2; apply G2; simpl; set_solver.
Qed.

Lemma color_at k c c' l a r m : at_ k (T c l a r) m ->
  at_ k (T c' l a r) (upd a (cell (pa k) c' (ptr l) (ptr r)) m).
Proof.
  intros H; eapply tree_at_step; [exact H|done|..];
    destruct H as (H & _); apply focus_holds in H as (R & K & (A & L & R') & N & G).
  - number N [celts k; elts l; [a]; elts r]; unfold focus; simpl in *; settle.
  - apply elsewhere_upd; [done|simpl; set_solver].
Qed.

Lemma set_black_at k c l a r m : at_ k (T c l a r) m ->
  wp (rb_set_black a) (fun _ => at_ k (T Black l a r)) m.
Proof.
  intros H; destruct (cell_at _ _ _ _ _ _ H) as (G & P & A).
  eapply wp_run; [eapply run_rb_set_black; eauto with rb|]; eapply color_at, H.
Qed.
Lemma set_red_at k c l a r m : at_ k (T c l a r) m ->
  wp (rb_set_red a) (fun _ => at_ k (T Red l a r)) m.
Proof.
  intros H; destruct (cell_at _ _ _ _ _ _ H) as (G & P & A).
  eapply wp_run; [eapply run_rb_set_red; eauto with rb|]; eapply color_at, H.
Qed.
Lemma set_color_at k c c' l a r m : at_ k (T c l a r) m ->
  wp (rb_set_color a (colz c')) (fun _ => at_ k (T c' l a r)) m.
Proof.
  intros H; destruct (cell_at _ _ _ _ _ _ H) as (G & P & A).
  eapply wp_run; [eapply run_rb_set_color; eauto with rb|]; eapply color_at, H.
Qed.

(** Reading a node. *)
Lemma left_at k c l a r m (Q : Z -> store -> Prop) : at_ k (T c l a r) m -> Q (ptr l) m -> wp (get_left a) Q m.
Proof. intros H; destruct (cell_at _ _ _ _ _ _ H) as (G & P & A); apply wp_run; eapply run_get_left; eauto with rb. Qed.
Lemma right_at k c l a r m (Q : Z -> store -> Prop) : at_ k (T c l a r) m -> Q (ptr r) m -> wp (get_right a) Q m.
Proof. intros H; destruct (cell_at _ _ _ _ _ _ H) as (G & P & A); apply wp_run; eapply run_get_right; eauto with rb. Qed.
Lemma parent_at k c l a r m (Q : Z -> store -> Prop) : at_ k (T c l a r) m -> Q (pa k) m -> wp (rb_parent a) Q m.
Proof. intros H; destruct (cell_at _ _ _ _ _ _ H) as (G & P & A); apply wp_run; eapply run_rb_parent; eauto with rb. Qed.
Lemma col_at k c l a r m (Q : Z -> store -> Prop) : at_ k (T c l a r) m -> Q (colz c) m -> wp (rb_color a) Q m.
Proof. intros H; destruct (cell_at _ _ _ _ _ _ H) as (G & P & A); apply wp_run; eapply run_rb_color; eauto with rb. Qed.
Lemma is_red_at k c l a r m (Q : bool -> store -> Prop) : at_ k (T c l a r) m -> Q (match c with Red => true | Black => false end) m -> wp (rb_is_red a) Q m.
Proof.
  intros H q; destruct (cell_at _ _ _ _ _ _ H) as (G & P & A).
  eapply wp_run; [eapply run_rb_is_red; eauto with rb|]; now destruct c.
Qed.
Lemma good_at k c l a r m : at_ k (T c l a r) m -> good a.
Proof. intros H; apply (cell_at _ _ _ _ _ _ H). Qed.

(** The colour of a subtree; an empty one is black. *)
Definition reddish (t : tree) : bool := match t with T Red _ _ _ => true | _ => false end.

Lemma red_node_at k t m (Q : bool -> store -> Prop) : at_ k t m -> Q (reddish t) m -> wp (red_node (ptr t)) Q m.
Proof.
  intros H q; destruct t as [|c l a r]; [now apply wp_ret|].
  destruct (cell_at _ _ _ _ _ _ H) as (G & P & A); simpl; unfold red_node; rewrite tst_good by done.
  eapply wp_run; [eapply run_rb_is_red; eauto with rb|]; now destruct c.
Qed.
Lemma black_node_at k t m (Q : bool -> store -> Prop) : at_ k t m -> Q (negb (reddish t)) m -> wp (black_node (ptr t)) Q m.
Proof.
  intros H q; destruct t as [|c l a r]; [now apply wp_ret|].
  destruct (cell_at _ _ _ _ _ _ H) as (G & P & A); simpl; unfold black_node; rewrite tst_good by done.
  eapply wp_run; [eapply run_rb_is_black; eauto with rb|]; now destruct c.
Qed.
Lemma root_at k t m (Q : Z -> store -> Prop) : at_ k t m -> Q (ptr (plug k t)) m -> wp (get_root root) Q m.
Proof. intros ((R & _) & _); apply wp_run; now apply run_get_root. Qed.

(** Distinct nodes of a path have distinct addresses. *)
Lemma path_nodup k t m : at_ k t m -> NoDup (celts k ++ elts t) /\ Forall good (celts k ++ elts t).
Proof. intros (H & _); apply focus_holds in H; destruct H as (_ & _ & _ & N & G); done. Qed.
End At.

(** ** Running a program on a tree

    The tactics keep the tree as [tree_at _ _ _ k t m] with all known frames
    unrolled into [t]; to access a node they find the path that leads to it. *)
Ltac path k t p :=
  match t with
  | T _ _ p _ => k
  | T ?c ?l ?b ?r => path (mkframe true c b r :: k) l p
  | T ?c ?l ?b ?r => path (mkframe false c b l :: k) r p
  end.
Ltac subpath k t s :=
  match t with
  | s => k
  | T ?c ?l ?b ?r => subpath (mkframe true c b r :: k) l s
  | T ?c ?l ?b ?r => subpath (mkframe false c b l :: k) r s
  end.
Ltac unroll H :=
  repeat match type of H with
  | tree_at ?m0 ?X ?root (mkframe ?d ?c ?p ?s :: ?k) ?t ?m =>
      change (tree_at m0 X root k (fill (mkframe d c p s) t) m) in H;
      unfold fill in H; cbn [hl fc fa fs] in H
  end.
Ltac written lem H k t p :=
  let K := path k t p in
  eapply wp_mono; [eapply (lem _ _ _ K); exact H|];
  let m' := fresh "m" in let H' := fresh "H" in
  intros [] m' H'; cbv beta in *; clear H; rename H' into H; unroll H.
Ltac node_step :=
  lazymatch goal with
  | |- wp (bind _ _) _ _ => apply wp_bind
  | |- wp (ret _) _ _ => apply wp_ret
  | H : tree_at _ _ _ ?k ?t ?m |- wp ?prog _ ?m =>
      lazymatch prog with
      | get_left ?p => let K := path k t p in eapply (left_at _ _ _ K); [exact H|]
      | get_right ?p => let K := path k t p in eapply (right_at _ _ _ K); [exact H|]
      | rb_parent ?p => let K := path k t p in eapply (parent_at _ _ _ K); [exact H|]
      | rb_color ?p => let K := path k t p in eapply (col_at _ _ _ K); [exact H|]
      | rb_is_red ?p => let K := path k t p in eapply (is_red_at _ _ _ K); [exact H|]
      | red_node NULL => change (red_node NULL) with (ret (S := store) false)
      | black_node NULL => change (black_node NULL) with (ret (S := store) true)
      | red_node (ptr ?s) => let K := subpath k t s in eapply (red_node_at _ _ _ K s); [exact H|]
      | black_node (ptr ?s) => let K := subpath k t s in eapply (black_node_at _ _ _ K s); [exact H|]
      | red_node ?p => let K := path k t p in eapply (red_node_at _ _ _ K (T _ _ p _)); [exact H|]
      | black_node ?p => let K := path k t p in eapply (black_node_at _ _ _ K (T _ _ p _)); [exact H|]
      | get_root _ => eapply root_at; [exact H|]
      | rb_set_black ?p => written set_black_at H k t p
      | rb_set_red ?p => written set_red_at H k t p
      | rb_set_color ?p (colz _) => written set_color_at H k t p
      | __rb_rotate_left ?p _ => written rotate_left_at H k t p
      | __rb_rotate_right ?p _ => written rotate_right_at H k t p
      end
  end; cbn [ptr pa reddish fa negb]; cbv beta iota.
Ltac test_step :=
  match goal with
  | |- context [?a =? ?a] => rewrite Z.eqb_refl
  | |- context [?a =? ?b] => rewrite (proj2 (Z.eqb_neq a b)) by congruence
  | H : tree_at _ _ _ ?k ?t ?m |- context [tst ?a] =>
      let K := path k t a in rewrite (tst_good a) by (eapply (good_at _ _ _ K); exact H)
  end; cbv iota.
Ltac walk := repeat first [test_step | progress cbn [when tst NULL Z.eqb negb] | node_step].
