(* ===== verification/RbtreeInsert.v ===== *)
(** * Red-black trees: the invariant, and insertion *)

#[local] Set Warnings "-notation-incompatible-prefix".
From S2P Require Import Prelude Rbtree RbtreeRep RbtreeOps.
From stdpp Require Import gmap.
#[local] Open Scope Z_scope.

(** ** The invariant *)

(** [rb t c n]: [t] may be the child of a node of colour [c], and every path
    down from it has [n] black nodes. *)
Inductive rb : tree -> color -> nat -> Prop :=
  | rb_E c : rb E c 0
  | rb_R l a r n : rb l Red n -> rb r Red n -> rb (T Red l a r) Black n
  | rb_B l a r c n : rb l Black n -> rb r Black n -> rb (T Black l a r) c (S n).

(** [ctx k c n]: filling the hole with such a tree gives a red-black tree. *)
Inductive ctx : list frame -> color -> nat -> Prop :=
  | ctx_nil n : ctx [] Red n
  | ctx_R d a s k n : rb s Red n -> ctx k Black n -> ctx (mkframe d Red a s :: k) Red n
  | ctx_B d a s k c n : rb s Black n -> ctx k c (S n) -> ctx (mkframe d Black a s :: k) Black n.
#[export] Hint Constructors rb ctx : rb.

Definition redblack (t : tree) : Prop := exists n, rb t Red n.

Lemma rb_black t c n : rb t Red n -> rb t c n.
Proof. inversion 1; subst; auto with rb. Qed.
Lemma rb_weak t c n : rb t c n -> rb t Black n.
Proof. inversion 1; subst; auto with rb. Qed.
#[export] Hint Resolve rb_black rb_weak : rb.

Lemma ctx_plug k c n t : ctx k c n -> rb t c n -> redblack (plug k t).
Proof.
  intros C; revert t; induction C as [n|d a s k n S C IH|d a s k c n S C IH]; intros t R; simpl; [now exists n|..];
    apply IH; unfold fill; simpl; destruct d; auto with rb.
Qed.

Lemma plug_ctx k t : redblack (plug k t) -> exists c n, ctx k c n /\ rb t c n.
Proof.
  revert t; induction k as [|[d c a s] k IH]; intros t; simpl; [intros [n R]; exists Red, n; auto with rb|].
  intros H; apply IH in H as (c' & n & C & R); unfold fill in R; simpl in R; destruct d;
    inversion R; subst; [exists Red, n|exists Black, n0|exists Red, n|exists Black, n0]; eauto with rb.
Qed.

(** ** The height *)

Fixpoint blacks (k : list frame) : nat :=
  match k with [] => O | f :: k => ((match fc f with Red => 0 | Black => 1 end) + blacks k)%nat end.

Lemma rb_size t c n : rb t c n -> (2 ^ n <= S (length (elts t)))%nat.
Proof.
  induction 1 as [| |l a r c n L IHl R IHr]; simpl; [lia|..]; rewrite length_app; simpl; lia.
Qed.

Lemma ctx_blacks k c n t : ctx k c n -> rb t c n -> exists N, rb (plug k t) Red N /\ (N = n + blacks k)%nat.
Proof.
  intros C; revert t; induction C as [n|d a s k n S C IH|d a s k c n S C IH]; intros t R; simpl.
  - exists n; split; [done|lia].
  - destruct (IH (fill (mkframe d Red a s) t)) as (N & ? & ?); [unfold fill; simpl; destruct d; auto with rb|]; exists N; split; [done|lia].
  - destruct (IH (fill (mkframe d Black a s) t)) as (N & ? & ?); [unfold fill; simpl; destruct d; auto with rb|]; exists N; split; [done|lia].
Qed.

(** A path has at most logarithmically many black nodes. *)
Lemma blacks_log k c n t : ctx k c n -> rb t c n ->
  (n + blacks k <= Nat.log2 (S (length (elts (plug k t)))))%nat.
Proof.
  intros C R; destruct (ctx_blacks _ _ _ _ C R) as (N & R' & <-).
  apply Nat.log2_le_pow2; [lia|]; eapply rb_size, R'.
Qed.

(** ** [rb_insert_color] *)

Section Insert.
Context (m0 : store) (X : list Z) (root : Z).
#[local] Abbreviation at_ := (tree_at m0 X root).

(** A sibling is another node. *)
Lemma sibling_ne f k t m : at_ (f :: k) t m -> t <> E -> ptr (fs f) <> ptr t.
Proof.
  intros H; destruct t as [|c l a r]; [done|]; intros _.
  destruct (path_nodup _ _ _ _ _ _ H) as [N G]; simpl in *; goods G.
  number N [celts k; [fa f]; elts (fs f); elts l; [a]; elts r]; differ.
Qed.

(** A node with a red parent: colours move up, or rotations end the loop. *)
Lemma insert_body_ok k d1 p s d2 g u l a r m n c :
  at_ (mkframe d1 Red p s :: mkframe d2 Black g u :: k) (T Red l a r) m ->
  rb l Red n -> rb r Red n -> rb s Red n -> rb u Black n -> ctx k c (S n) ->
  wp (insert_body a p root) (fun node m' =>
    (exists x y, at_ k (T Red x node y) m' /\ rb x Red (S n) /\ rb y Red (S n)) \/
    (exists d q v x y, at_ (mkframe d Black q v :: k) (T Red x node y) m' /\
       rb x Red n /\ rb y Red n /\ rb v Black n)) m.
Proof.
  intros H L R S U C.
  pose proof (sibling_ne _ _ _ _ H ltac:(done)) as Na; simpl in Na.
  assert (Np : ptr u <> p) by (pose proof (sibling_ne (mkframe d2 Black g u) k (fill (mkframe d1 Red p s) (T Red l a r)) m H) as Q;
    destruct d1; apply Q; done).
  assert (UR : reddish u = false -> rb u Red n) by (destruct u as [|[] ? ? ?]; [inversion U; auto with rb|done|inversion U; auto with rb]).
  unfold insert_body.
  destruct u as [|[] ul b ur], d1, d2; unroll H; simpl in *; walk.
  all: try (left; do 2 eexists; split; [exact H|]; inversion U; auto with rb; fail).
  all: match goal with
       | H : tree_at _ _ _ ?k ?t _ |- _ \/ (exists d q v x y, tree_at _ _ _ _ (T Red x ?p y) _ /\ _) =>
           match path k t p with
           | mkframe ?d _ ?q ?v :: _ => right; exists d, q, v; do 2 eexists; split; [exact H|]
           end
       end; auto 6 with rb.
Qed.

(** The loop ends below a black node. *)
Lemma insert_loop_done fuel k l a r m (Q : unit -> store -> Prop) :
  at_ k (T Red l a r) m -> (match k with mkframe _ Red _ _ :: _ => False | _ => True end) ->
  Q tt m -> wp (insert_loop fuel a root) Q m.
Proof.
  intros H K q.
  destruct fuel; simpl; apply wp_bind; (eapply parent_at; [exact H|]);
    (destruct k as [|[d [] p s] k]; [apply wp_bind, wp_ret, wp_ret; exact q|done|]); simpl; apply wp_bind.
  all: destruct d; [eapply (red_node_at _ _ _ k (T Black _ p _))|eapply (red_node_at _ _ _ k (T Black _ p _))]; try exact H; apply wp_ret, q.
Qed.

(** The tree after the loop: a red-black tree whose root may be red. *)
Definition almost (t : tree) : Prop :=
  redblack t \/ exists l a r n, t = T Red l a r /\ rb l Red n /\ rb r Red n.

Lemma insert_loop_ok fuel : forall k l a r m c n,
  at_ k (T Red l a r) m -> rb l Red n -> rb r Red n -> ctx k c n -> (blacks k <= fuel)%nat ->
  wp (insert_loop fuel a root) (fun _ m' => exists t, at_ [] t m' /\ almost t) m.
Proof.
  induction fuel as [|fuel IH]; intros k l a r m c n H L R C Hf.
  all: assert (D : (match k with mkframe _ Red _ _ :: _ => False | _ => True end) ->
         exists t, at_ [] t m /\ almost t)
    by (intros K; exists (plug k (T Red l a r)); split; [exact H|]; inversion C; subst; simpl in *;
        [right; eauto 8|done|left; eapply (ctx_plug (mkframe _ Black _ _ :: _) Black); eauto with rb]).
  all: destruct k as [|[d1 [] p s] k]; try (eapply insert_loop_done; [exact H|done|apply D; done]).
  all: inversion C as [|? ? ? ? ? Hs Ck|]; subst; inversion Ck as [| |d2 g u k' c' ? Hu Ck']; subst; simpl in Hf; try lia.
  simpl; apply wp_bind; eapply parent_at; [exact H|]; apply wp_bind; simpl.
  assert (P : wp (red_node p) (fun red m' => red = true /\ m' = m) m)
    by (destruct d1; eapply (red_node_at _ _ _ (mkframe d2 Black g u :: k') (T Red _ p _)); try exact H; done).
  eapply wp_mono; [exact P|]; intros red ? [-> ->]; apply wp_bind; cbv beta iota.
  eapply wp_mono; [eapply insert_body_ok; eauto|]; cbv beta.
  intros node m' [(x & y & H' & X' & Y')|(d & q & v & x & y & H' & X' & Y' & V)].
  - eapply IH; eauto with rb; lia.
  - eapply insert_loop_done; [exact H'|done|]; eexists; split; [exact H'|]; left.
    eapply (ctx_plug (mkframe d Black q v :: k') Black); eauto with rb.
Qed.

Lemma rb_insert_color_ok fuel k a m c n :
  at_ k (T Red E a E) m -> ctx k c n -> n = O -> (blacks k <= fuel)%nat ->
  wp (rb_insert_color fuel a root) (fun _ m' => exists t, at_ [] t m' /\ redblack t) m.
Proof.
  intros H C -> Hf; unfold rb_insert_color; apply wp_bind.
  eapply wp_mono; [eapply insert_loop_ok; eauto with rb|]; intros [] m' (t & H' & A); cbv beta.
  apply wp_bind; eapply root_at; [exact H'|]; simpl.
  assert (exists c l b r, t = T c l b r) as (c' & l & b & r & ->).
  { destruct t as [|c' l b r]; [|eauto 6]; destruct H as (_ & I & _), H' as (_ & I' & _); simpl in I'; subst X.
    rewrite elts_plug in I'; simpl in I'; now destruct (lefts k). }
  eapply wp_mono; [eapply (set_black_at _ _ _ []); exact H'|]; intros [] m2 H2; exists (T Black l b r); split; [exact H2|].
  destruct A as [[N A]|(l' & b' & r' & N & [= -> -> -> ->] & L & R)];
    [inversion A; subst; [now exists (S n)]|exists (S N)]; auto with rb.
Qed.
End Insert.

(** ** Linking a new node *)

(** The pointer a hole is. *)
Definition hole_link (root : Z) (k : list frame) : link :=
  match k with
  | [] => root_link root
  | f :: _ => if hl f then left_link (fa f) else right_link (fa f)
  end.

Lemma as_cell n : n = cell (rb_parent_color n) Red (rb_left n) (rb_right n).
Proof. destruct n as [w r l]; unfold cell; simpl; unfold RB_RED; now rewrite Z.add_0_r. Qed.

Lemma link_ok m root k a n :
  focus m root k E -> good a -> a ∉ celts k -> nodes m !! a = Some n ->
  wp (rb_link_node a (pa k) (hole_link root k)) (fun _ m' =>
    focus m' root k (T Red E a E) /\ elsewhere (celts k ++ [a]) root m m') m.
Proof.
  intros (R & K & _ & N & G) Ga Ha A; rewrite (as_cell n) in A.
  simpl in N, G; rewrite app_nil_r in N, G.
  assert (N' : NoDup (celts k ++ [a])) by (apply NoDup_app; split; [done|]; split; [|apply NoDup_singleton]; intros p Hp ->%list_elem_of_singleton; done).
  assert (G' : Forall good (celts k ++ [a])) by (apply Forall_app; split; [done|]; now constructor).
  assert (P : forall q, set_pc q (pa k) = set_pc q (pa k + colz Red)) by (intros q; f_equal; simpl; unfold RB_RED; lia).
  unfold rb_link_node; rewrite P; clear P.
  apply wp_bind; eapply wp_run; [eapply run_set_pc; [auto with rb|exact A]|]; cbv beta.
  destruct k as [|[[] cf af sf] k]; simpl in *; [|destruct K as (F & S & K); unfold fcell in *; simpl in *..].
  - run N' G' [[a]].
  - run N' G' [celts k; [af]; elts sf; [a]].
  - run N' G' [celts k; [af]; elts sf; [a]].
Qed.

(** Inserting a node at an empty place of the tree. *)
Lemma rb_insert_spec fuel m root k a nd :
  holds m root (plug k E) -> redblack (plug k E) ->
  good a -> a ∉ elts (plug k E) -> nodes m !! a = Some nd ->
  (Nat.log2 (S (length (elts (plug k E)))) <= fuel)%nat ->
  exists m' t', (rb_link_node a (pa k) (hole_link root k) ;;; rb_insert_color fuel a root) m = Some (tt, m') /\
    holds m' root t' /\ redblack t' /\
    elts (plug k E) = lefts k ++ rights k /\ elts t' = lefts k ++ a :: rights k /\
    elsewhere (elts t') root m m'.
Proof.
  intros H RB G Ha A Hf; destruct (plug_ctx _ _ RB) as (c & n & C & R0).
  assert (n = O) as -> by now inversion R0.
  assert (Hc : a ∉ celts k) by (intros Hc; apply Ha; rewrite elts_plug_perm; set_solver).
  apply focus_holds in H.
  assert (W : wp (rb_link_node a (pa k) (hole_link root k) ;;; rb_insert_color fuel a root)
    (fun _ m' => exists t, tree_at m (elts (plug k (T Red E a E))) root [] t m' /\ redblack t) m).
  { apply wp_bind; eapply wp_mono; [eapply link_ok; eauto|]; intros [] m1 [F W]; cbv beta.
    eapply rb_insert_color_ok; [|exact C|done|].
    - split; [now apply focus_holds|]; split; [done|]; eapply elsewhere_sub; [|exact W]; intros p; now rewrite elts_plug_perm.
    - pose proof (blacks_log _ _ _ _ C R0); lia. }
  destruct W as ([] & m' & Run & t' & (H' & Et & W) & R'); simpl in H', Et.
  exists m', t'; split; [exact Run|]; split; [exact H'|]; split; [exact R'|].
  rewrite Et, !elts_plug; simpl; split; [done|]; split; [done|]; rewrite elts_plug in W; exact W.
Qed.
