(* ===== verification/RbtreeErase.v ===== *)
(** * Red-black trees: removal *)

#[local] Set Warnings "-notation-incompatible-prefix".
From S2P Require Import Prelude Rbtree RbtreeRep RbtreeOps RbtreeInsert.
From stdpp Require Import gmap.
#[local] Open Scope Z_scope.

Section Erase.
Context (m0 : store) (X : list Z) (root : Z).
#[local] Abbreviation at_ := (tree_at m0 X root).

(** A subtree that lacks one black node: one that is black, or one with a red
    root whose children may be red. *)
Definition short (t : tree) (n : nat) : Prop :=
  rb t Red n \/ exists l a r, t = T Red l a r /\ rb l Black n /\ rb r Black n.

(** What an iteration achieves: the deficit has moved up, or is gone. *)
Definition moved (b : nat) (res : bool * Z * Z) (m : store) : Prop :=
  match res with
  | (true, node, _) => exists t, at_ [] t m /\ redblack t /\ node = ptr t
  | (false, node, parent) => exists k t c n, at_ k t m /\ node = ptr t /\ parent = pa k /\
      ctx k c (S n) /\ short t n /\ (reddish t = true \/ S (blacks k) = b)
  end.

Lemma black_root t c n : rb t c n -> reddish t = false -> rb t Red n.
Proof. destruct t as [|[] l a r]; [inversion 1; auto with rb|done|inversion 1; auto with rb]. Qed.

Lemma moved_up b k l a r c c' m n n' :
  at_ k (T c l a r) m -> ctx k c' n' -> n' = (match c with Red => S n | Black => S (S n) end) ->
  rb l Black n -> rb r Black n -> S (blacks k) = b \/ c = Red ->
  moved b (false, a, pa k) m.
Proof.
  intros H C -> L R B; destruct c; [exists k, (T Red l a r), c', n|exists k, (T Black l a r), c', (S n)].
  - split; [done|]; repeat split; [done|right; eauto 6|now left].
  - split; [done|]; repeat split; [done|left; auto with rb|right; now destruct B].
Qed.

Lemma moved_out b k t c m n p : at_ k t m -> ctx k c n -> rb t c n -> moved b (true, ptr (plug k t), p) m.
Proof. intros H C R; exists (plug k t); split; [exact H|]; split; [eapply ctx_plug; eauto|done]. Qed.

Ltac finish H C :=
  simpl reddish in *;
  let S' := fresh in let K := fresh in
  inversion C as [|? ? ? ? ? S' K|? ? ? ? ? ? S' K]; subst;
  repeat match goal with
  | B : _ = false -> rb _ Red _ |- _ => first [specialize (B eq_refl) | clear B]
  | B : rb (T Red _ _ _) Black _ |- _ => inversion B; subst; clear B
  end;
  first [ eapply moved_up; [exact H|exact K|reflexivity|auto with rb..] 
        | eapply moved_out; [exact H|exact K|auto 7 with rb] ].

Lemma erase_black_right_ok k c t p sl q sr m n c' :
  at_ k (T c t p (T Black sl q sr)) m -> rb t Red n -> rb sl Black n -> rb sr Black n ->
  ctx (mkframe true c p (T Black sl q sr) :: k) c' (S n) ->
  wp (erase_black_right p q root) (moved (blacks (mkframe true c p (T Black sl q sr) :: k))) m.
Proof.
  intros H Ht L R C; unfold erase_black_right.
  pose proof (black_root sl _ _ L) as L'; pose proof (black_root sr _ _ R) as R'.
  destruct sl as [|[] sll b slr], sr as [|[] srl e srr]; walk; finish H C.
Qed.

Lemma erase_black_left_ok k c t p sl q sr m n c' :
  at_ k (T c (T Black sl q sr) p t) m -> rb t Red n -> rb sl Black n -> rb sr Black n ->
  ctx (mkframe false c p (T Black sl q sr) :: k) c' (S n) ->
  wp (erase_black_left p q root) (moved (blacks (mkframe false c p (T Black sl q sr) :: k))) m.
Proof.
  intros H Ht L R C; unfold erase_black_left.
  pose proof (black_root sl _ _ L) as L'; pose proof (black_root sr _ _ R) as R'.
  destruct sl as [|[] sll b slr], sr as [|[] srl e srr]; walk; finish H C.
Qed.

Lemma rb_tall t c n : rb t c (S n) -> reddish t = false ->
  exists l a r, t = T Black l a r /\ rb l Black n /\ rb r Black n.
Proof. inversion 1; subst; [done|eauto 8]. Qed.

Lemma sibling_node d c p cs sl q sr k t m :
  at_ (mkframe d c p (T cs sl q sr) :: k) t m -> q <> ptr t.
Proof.
  intros H; destruct t as [|ct tl a tr]; [|exact (sibling_ne _ _ _ _ _ _ _ H ltac:(done))].
  destruct (path_nodup _ _ _ _ _ _ H) as [_ G]; simpl in *; goods G; now apply good_ne.
Qed.

Lemma erase_body_ok k d c p s t m n c' :
  at_ (mkframe d c p s :: k) t m -> rb t Red n -> ctx (mkframe d c p s :: k) c' (S n) ->
  wp (erase_body (ptr t) p root) (moved (blacks (mkframe d c p s :: k))) m.
Proof.
  intros H Ht C; unfold erase_body.
  destruct (reddish s) eqn:Es.
  - destruct s as [|[] sl q sr]; try done; inversion C as [|? ? ? ? ? S K|? ? ? ? ? ? S K]; subst; [inversion S|].
    inversion S as [|? ? ? ? L R|]; subst.
    pose proof (sibling_node _ _ _ _ _ _ _ _ _ _ H) as Nq.
    destruct (rb_tall _ _ _ L) as (ll & b & lr & -> & L1 & L2); [now inversion L|].
    destruct (rb_tall _ _ _ R) as (rl & e & rr & -> & R1 & R2); [now inversion R|].
    destruct d; unroll H; walk.
    + eapply wp_mono; [eapply (erase_black_right_ok (mkframe true Black q _ :: k)); [exact H|..]; eauto with rb|intros res m' M; exact M].
    + eapply wp_mono; [eapply (erase_black_left_ok (mkframe false Black q _ :: k)); [exact H|..]; eauto with rb|intros res m' M; exact M].
  - destruct (rb_tall s c n) as (sl & q & sr & -> & L & R); [inversion C; subst; auto with rb|done|].
    pose proof (sibling_node _ _ _ _ _ _ _ _ _ _ H) as Nq.
    destruct d; unroll H; walk; [eapply erase_black_right_ok|eapply erase_black_left_ok]; eauto.
Qed.

Definition blacken (t : tree) : tree := match t with E => E | T _ l a r => T Black l a r end.

Lemma rootp_celts k p : k <> [] -> rootp k p ∈ celts k.
Proof.
  revert p; induction k as [|f k IH]; intros p; [done|]; intros _; simpl.
  destruct k as [|f' k]; [simpl; set_solver|]; apply elem_of_app; left; apply IH; done.
Qed.

Lemma root_ne k t m : at_ k t m -> k <> [] -> ptr t <> ptr (plug k t).
Proof.
  intros H K; rewrite ptr_plug; destruct (path_nodup _ _ _ _ _ _ H) as [N G].
  pose proof (rootp_celts k (ptr t) K) as I; apply Forall_app in G as [G _].
  rewrite Forall_forall in G; apply NoDup_app in N as (_ & D & _); specialize (D _ I).
  now apply ptr_ne; [apply G|].
Qed.

Lemma ctx_black k c n : ctx k c n -> k <> [] -> (1 <= blacks k)%nat.
Proof. destruct 1 as [|? ? ? ? ? ? C|]; simpl; [done|inversion C; simpl; lia|lia]. Qed.

(** What is left to do after the loop: set [node] black. *)
Definition settled (node : Z) (m : store) : Prop :=
  exists k t, at_ k t m /\ node = ptr t /\ redblack (plug k (blacken t)).

Lemma short_blacken k c n t : ctx k c (S n) -> short t n -> reddish t = true \/ k = [] ->
  redblack (plug k (blacken t)).
Proof.
  intros C [R|(l & a & r & -> & L & R)] [D| ->].
  - destruct t as [|[] ? ? ?]; try done; inversion R.
  - simpl; exists n; inversion R; subst; simpl; auto with rb.
  - eapply ctx_plug; [exact C|]; simpl; auto with rb.
  - simpl; exists (S n); auto with rb.
Qed.

Lemma erase_loop_done fuel k t m :
  at_ k t m -> reddish t = true \/ k = [] -> redblack (plug k (blacken t)) ->
  wp (erase_loop fuel (ptr t) (pa k) root) settled m.
Proof.
  intros H D R; destruct fuel; simpl; apply wp_bind; (eapply black_node_at; [exact H|]); apply wp_bind;
    (destruct D as [->| ->]; simpl; [apply wp_ret|destruct (reddish t); simpl; [apply wp_ret|apply wp_bind; eapply root_at; [exact H|]; simpl; apply wp_ret; rewrite Z.eqb_refl; simpl]]);
    apply wp_ret; (eexists _, _; split; [exact H|]; done).
Qed.

Lemma erase_loop_ok fuel : forall k t m c n,
  at_ k t m -> short t n -> ctx k c (S n) -> (blacks k <= fuel)%nat ->
  wp (erase_loop fuel (ptr t) (pa k) root) settled m.
Proof.
  induction fuel as [|fuel IH]; intros k t m c n H Sh C Hf.
  all: destruct (decide (reddish t = true \/ k = [])) as [D|D];
    [eapply erase_loop_done; [exact H|exact D|eapply short_blacken; eauto]|].
  all: assert (k <> []) as K by (intros ->; apply D; now right).
  all: assert (reddish t = false) as Rt by (destruct (reddish t); [exfalso; apply D; now left|done]).
  all: pose proof (ctx_black _ _ _ C K); try lia.
  assert (Ht : rb t Red n) by (destruct Sh as [?|(l & a & r & -> & _)]; done).
  pose proof (root_ne _ _ _ H K) as Nr.
  simpl; apply wp_bind; eapply black_node_at; [exact H|]; rewrite Rt; simpl.
  apply wp_bind, wp_bind; eapply root_at; [exact H|]; apply wp_ret.
  rewrite (proj2 (Z.eqb_neq _ _) Nr); simpl; apply wp_bind.
  destruct k as [|[d cf p s] k]; [done|]; simpl pa.
  eapply wp_mono; [eapply erase_body_ok; eauto|]; intros [[[] node] parent] m' M; simpl in M.
  - destruct M as (t' & H' & [N R'] & ->); apply wp_ret; exists [], t'; split; [exact H'|]; split; [done|].
    exists N; inversion R'; subst; simpl; auto with rb.
  - destruct M as (k' & t' & c2 & n' & H' & -> & -> & C' & S' & B).
    destruct B as [B|B]; [|eapply IH; eauto; simpl in B, Hf; lia].
    eapply erase_loop_done; [exact H'|now left|eapply short_blacken; eauto].
Qed.

Lemma rb_erase_color_ok fuel k t m c n :
  at_ k t m -> short t n -> ctx k c (S n) -> (blacks k <= fuel)%nat ->
  wp (__rb_erase_color fuel (ptr t) (pa k) root) (fun _ m' => exists t', at_ [] t' m' /\ redblack t') m.
Proof.
  intros H Sh C Hf; unfold __rb_erase_color; apply wp_bind.
  eapply wp_mono; [eapply erase_loop_ok; eauto|]; intros node m' (k' & t' & H' & -> & R); cbv beta.
  destruct t' as [|c' l a r]; simpl.
  - apply wp_ret; exists (plug k' E); split; [exact H'|done].
  - rewrite (tst_good a) by (eapply good_at, H'); simpl.
    eapply wp_mono; [eapply set_black_at; exact H'|]; intros [] m2 H2; exists (plug k' (T Black l a r)); split; [exact H2|done].
Qed.
End Erase.

(** ** Taking a node out *)

Lemma nodup_out (xs ys zs : list Z) a : NoDup (xs ++ ys ++ a :: zs) -> NoDup (xs ++ ys ++ zs).
Proof. rewrite !app_assoc, <- Permutation_middle; now intros [_ ?]%NoDup_cons. Qed.
Lemma good_out (xs ys zs : list Z) a : Forall good (xs ++ ys ++ a :: zs) -> Forall good (xs ++ ys ++ zs).
Proof. rewrite !Forall_app, Forall_cons; tauto. Qed.

Lemma unlink_ok m root k c l a r t :
  focus m root k (T c l a r) -> (l = E /\ r = t) \/ (r = E /\ l = t) ->
  wp (erase_unlink a (ptr t) root) (fun res m' =>
    res = (ptr t, pa k, colz c) /\ focus m' root k t /\ nodes m' !! a = nodes m !! a /\
    elsewhere (celts k ++ elts (T c l a r)) root m m') m.
Proof.
  intros (R & K & (A & L & Rr) & N & G) D; unfold erase_unlink.
  assert (PA : (4 | pa k)) by (apply pa_aligned; now apply Forall_app in G as [? _]).
  pose proof (nodup_out _ _ _ _ N) as N'; pose proof (good_out _ _ _ _ G) as G'.
  destruct D as [[-> ->]|[-> ->]]; simpl in *; rewrite ?app_nil_r in *;
    (destruct t as [|ct tl ta tr]; simpl in *; [|(destruct L as (TA & TL & TR) || destruct Rr as (TA & TL & TR))]);
    (destruct k as [|[[] cf af sf] k]; simpl in *; [|destruct K as (F & S & K); unfold fcell in *; simpl in *..]).
  - run N G [[a]].
  - run N G [celts k; [af]; elts sf; [a]].
  - run N G [celts k; [af]; elts sf; [a]].
  - run N G [[a]; elts tl; [ta]; elts tr].
  - run N G [celts k; [af]; elts sf; [a]; elts tl; [ta]; elts tr].
  - run N G [celts k; [af]; elts sf; [a]; elts tl; [ta]; elts tr].
  - run N G [[a]].
  - run N G [celts k; [af]; elts sf; [a]].
  - run N G [celts k; [af]; elts sf; [a]].
  - run N G [elts tl; [ta]; elts tr; [a]].
  - run N G [celts k; [af]; elts sf; elts tl; [ta]; elts tr; [a]].
  - run N G [celts k; [af]; elts sf; elts tl; [ta]; elts tr; [a]].
Qed.

(** The successor is unlinked from its parent. *)
Lemma unlink_inner_ok m root f k c y t :
  focus m root (f :: k) (T c E y t) ->
  wp (when (tst (ptr t)) (rb_set_parent (ptr t) (fa f)))
    (fun _ => wp (if hl f then set_left (fa f) (ptr t) else set_right (fa f) (ptr t))
      (fun _ m' => focus m' root (f :: k) t /\ nodes m' !! y = nodes m !! y /\
        elsewhere (celts (f :: k) ++ elts (T c E y t)) root m m')) m.
Proof.
  intros (R & K & (A & _ & L) & N & G).
  pose proof (nodup_out _ _ _ _ N) as N'; pose proof (good_out _ _ _ _ G) as G'.
  assert (P : (4 | pa k)) by (simpl in G; rewrite !Forall_app in G; apply pa_aligned; tauto).
  destruct f as [[] cf af sf], t as [|ct tl ta tr]; simpl in *; destruct K as (F & S & K); unfold fcell in *; simpl in *;
    rewrite ?app_nil_r in *; try destruct L as (TA & TL & TR).
  - run N G [celts k; [af]; elts sf; [y]].
  - run N G [celts k; [af]; elts sf; [y]; elts tl; [ta]; elts tr].
  - run N G [celts k; [af]; elts sf; [y]].
  - run N G [celts k; [af]; elts sf; [y]; elts tl; [ta]; elts tr].
Qed.

(** One address for another. *)
Lemma nodup_swap (xs ys zs : list Z) a y : NoDup (xs ++ ys ++ a :: zs) -> y ∉ xs ++ ys ++ a :: zs ->
  NoDup ((xs ++ ys ++ a :: zs) ++ [y]) /\ NoDup (xs ++ ys ++ y :: zs).
Proof.
  intros N Hy; split.
  - apply NoDup_app; split; [done|]; split; [|apply NoDup_singleton]; intros p Hp ->%list_elem_of_singleton; done.
  - pose proof (nodup_out _ _ _ _ N) as N'; rewrite app_assoc, <- Permutation_middle, <- app_assoc; apply NoDup_cons; split; [|done].
    intros I; apply Hy; revert I; rewrite !elem_of_app, elem_of_cons; tauto.
Qed.
Lemma good_swap (xs ys zs : list Z) a y : Forall good (xs ++ ys ++ a :: zs) -> good y ->
  Forall good ((xs ++ ys ++ a :: zs) ++ [y]) /\ Forall good (xs ++ ys ++ y :: zs).
Proof. rewrite !Forall_app, !Forall_cons, Forall_nil; tauto. Qed.

Lemma take_place_ok m root k c l a r y n :
  focus m root k (T c l a r) -> l <> E -> good y -> y ∉ celts k ++ elts (T c l a r) -> nodes m !! y = Some n ->
  wp (erase_take_place y a root) (fun _ m' => focus m' root k (T c l y r) /\ nodes m' !! a = nodes m !! a /\
    elsewhere ((celts k ++ elts (T c l a r)) ++ [y]) root m m') m.
Proof.
  intros (R & K & (A & L & Rr) & N & G) Nl Gy Hy Y; rewrite (as_cell n) in Y; unfold erase_take_place.
  assert (PA : (4 | pa k)) by (apply pa_aligned; now apply Forall_app in G as [? _]).
  destruct (nodup_swap _ _ _ _ _ N Hy) as [N2 N']; destruct (good_swap _ _ _ _ _ G Gy) as [G2 G'].
  destruct l as [|cl ll la lr]; [done|]; destruct L as (LA & LL & LR).
  destruct r as [|cr rl ra rr]; simpl in *; [|destruct Rr as (RA & RL & RR)];
    (destruct k as [|[[] cf af sf] k]; simpl in *; [|destruct K as (F & S & K); unfold fcell in *; simpl in *..]).
  - run N2 G2 [elts ll; [la]; elts lr; [a]; [y]].
  - run N2 G2 [celts k; [af]; elts sf; elts ll; [la]; elts lr; [a]; [y]].
  - run N2 G2 [celts k; [af]; elts sf; elts ll; [la]; elts lr; [a]; [y]].
  - run N2 G2 [elts ll; [la]; elts lr; [a]; elts rl; [ra]; elts rr; [y]].
  - run N2 G2 [celts k; [af]; elts sf; elts ll; [la]; elts lr; [a]; elts rl; [ra]; elts rr; [y]].
  - run N2 G2 [celts k; [af]; elts sf; elts ll; [la]; elts lr; [a]; elts rl; [ra]; elts rr; [y]].
Qed.
