(* ===== verification/RbtreeSpec.v ===== *)
(** * Red-black trees: specifications of the interface *)

#[local] Set Warnings "-notation-incompatible-prefix".
From S2P Require Import Prelude Rbtree RbtreeRep RbtreeOps RbtreeInsert RbtreeErase.
From stdpp Require Import gmap.
#[local] Open Scope Z_scope.

(** ** The successor *)

Lemma plug_app k1 k2 t : plug (k1 ++ k2) t = plug k2 (plug k1 t).
Proof. revert t; induction k1 as [|f k1 IH]; intros t; simpl; [done|apply IH]. Qed.

Lemma tree_at_self m root k t : holds m root (plug k t) -> tree_at m (elts (plug k t)) root k t m.
Proof. intros H; split; [done|]; split; [done|reflexivity]. Qed.

Definition all_left (k : list frame) : Prop := Forall (fun f => hl f = true) k.

Lemma leftmost_split t : t <> E -> exists k c a r, t = plug k (T c E a r) /\ all_left k.
Proof.
  induction t as [|c l IH a r _]; [done|]; intros _.
  destruct l as [|cl ll la lr]; [exists [], c, a, r; split; [done|constructor]|].
  destruct IH as (k & c' & b & s & Ep & A); [done|].
  exists (k ++ [mkframe true c a r]), c', b, s; split; [now rewrite plug_app, <- Ep|].
  apply Forall_app; split; [done|]; now constructor.
Qed.

Lemma plug_node k : forall c l a r, exists c' l' a' r', plug k (T c l a r) = T c' l' a' r'.
Proof. induction k as [|[d fc fa fs] k IH]; intros c l a r; simpl; [eauto 6|]; unfold fill; simpl; destruct d; apply IH. Qed.

Lemma leftmost_ok fuel m0 X root c y t m : forall kr k,
  tree_at m0 X root (kr ++ k) (T c E y t) m -> all_left kr -> (length kr <= fuel)%nat ->
  wp (leftmost fuel (ptr (plug kr (T c E y t)))) (fun p m' => p = y /\ m' = m) m.
Proof.
  induction fuel as [|fuel IH]; intros kr k H A Hf;
    (destruct kr as [|g kr _] using rev_ind;
      [simpl; apply wp_bind; eapply (left_at _ _ _ k); [exact H|]; now apply wp_ret|]);
    rewrite length_app in Hf; simpl in Hf; [lia|].
  apply Forall_app in A as [A B]; inversion B as [|? ? Hg _]; subst; destruct g as [gl gc ga gs]; simpl in Hg; subst gl.
  rewrite <- app_assoc in H; rewrite plug_app; simpl; apply wp_bind.
  assert (H' : tree_at m0 X root k (T gc (plug kr (T c E y t)) ga gs) m)
    by (unfold tree_at in *; rewrite plug_app in H; exact H).
  eapply left_at; [exact H'|].
  assert (G : good (ptr (plug kr (T c E y t)))).
  { destruct (plug_node kr c E y t) as (c' & l' & a' & r' & Ep).
    rewrite Ep in H' |- *; exact (good_at _ _ _ (mkframe true gc ga gs :: k) _ _ _ _ _ H'). }
  rewrite (tst_good _ G); eapply (IH kr (mkframe true gc ga gs :: k)); [exact H|done|lia].
Qed.

(** ** [rb_erase] *)

(** Without its root, a tree with one child is the child. *)
Lemma elts_out k c y t : elts (plug k (T c E y t)) ≡ₚ y :: elts (plug k t).
Proof. rewrite !elts_plug_perm; simpl; symmetry; apply Permutation_middle. Qed.

Lemma erase_replace_ok fuel m root k c l a kr cy y yr :
  holds m root (plug (kr ++ mkframe false c a l :: k) (T cy E y yr)) -> l <> E ->
  all_left kr -> (length kr <= fuel)%nat ->
  wp (erase_replace fuel a root) (fun res m' =>
    res = (ptr yr, pa (kr ++ mkframe false c y l :: k), colz cy) /\
    holds m' root (plug (kr ++ mkframe false c y l :: k) yr) /\
    (exists l' r', nodes m' !! a = Some (cell (pa k) c l' r')) /\
    elsewhere (elts (plug (kr ++ mkframe false c a l :: k) (T cy E y yr))) root m m') m.
Proof.
  intros H Nl A Hf; set (K := kr ++ mkframe false c a l :: k) in *; set (X := elts (plug K (T cy E y yr))).
  pose proof (tree_at_self _ _ _ _ H) as S; fold X in S.
  pose proof (good_at _ _ _ _ _ _ _ _ _ S) as Gy.
  assert (S' : tree_at m X root k (T c l a (plug kr (T cy E y yr))) m) by (unfold tree_at in *; subst K; rewrite plug_app in S; exact S).
  unfold erase_replace; apply wp_bind; eapply right_at; [exact S'|].
  apply wp_bind; eapply wp_mono; [eapply leftmost_ok; [exact S|exact A|exact Hf]|]; intros ? ? [-> ->]; cbv beta.
  apply wp_bind; eapply right_at; [exact S|]; apply wp_bind; eapply parent_at; [exact S|]; apply wp_bind; eapply col_at; [exact S|].
  destruct (cell_at _ _ _ _ _ _ _ _ _ S) as (_ & _ & Cy).
  pose proof (proj2 (focus_holds _ _ _ _) H) as F.
  assert (exists f k', K = f :: k' /\ (if hl f then fa f <> a else fa f = a)) as (f & k' & EK & Tf).
  { subst K; destruct kr as [|f kr]; [do 2 eexists; split; [reflexivity|done]|].
    exists f, (kr ++ mkframe false c a l :: k); split; [done|]; inversion A as [|? ? Hl _]; subst; rewrite Hl.
    destruct F as (_ & _ & _ & N & _); simpl in N; intros <-.
    apply NoDup_app in N as (N & _); apply NoDup_app in N as (_ & D & _); apply (D (fa f)); [|set_solver].
    clear; induction kr as [|g kr IH]; simpl; set_solver. }
  rewrite EK in F |- *; simpl pa.
  apply wp_bind; eapply wp_mono; [apply unlink_inner_ok; exact F|]; intros [] m1 W; cbv beta.
  assert (B : forall m2, focus m2 root (f :: k') yr /\ nodes m2 !! y = nodes m !! y /\
      elsewhere (celts (f :: k') ++ elts (T cy E y yr)) root m m2 ->
    wp (erase_take_place y a root) (fun _ m' => holds m' root (plug (kr ++ mkframe false c y l :: k) yr) /\
      (exists l' r', nodes m' !! a = Some (cell (pa k) c l' r')) /\ elsewhere X root m m') m2).
  { intros m2 (F2 & Y2 & W2); rewrite <- EK in F2; apply focus_holds in F2.
    assert (F3 : focus m2 root k (T c l a (plug kr yr))) by (apply focus_holds; unfold K in F2; rewrite plug_app in F2; exact F2).
    eapply wp_mono; [eapply take_place_ok; [exact F3|exact Nl|exact Gy| |rewrite Y2; exact Cy]|].
    - rewrite <- elts_plug_perm; change (plug k _) with (plug (mkframe false c a l :: k) (plug kr yr)).
      rewrite <- plug_app; fold K; destruct H as (_ & _ & N & _); rewrite elts_out in N; now apply NoDup_cons in N as [? _].
    - intros [] m3 (F4 & A4 & W4); split; [apply focus_holds in F4; rewrite plug_app; exact F4|].
      split; [rewrite A4; destruct F3 as (_ & _ & (A3 & _) & _); eauto|].
      transitivity m2; [eapply elsewhere_sub; [|exact W2]; rewrite <- EK; intros p; unfold X; now rewrite elts_plug_perm|].
      eapply elsewhere_sub; [|exact W4]; rewrite <- elts_plug_perm.
      change (plug k _) with (plug (mkframe false c a l :: k) (plug kr yr)); rewrite <- plug_app; fold K.
      intros p; unfold X; rewrite elts_out, elem_of_app, !elem_of_cons, elem_of_nil; tauto. }
  assert (EP : pa (kr ++ mkframe false c y l :: k) = if hl f then fa f else y).
  { destruct kr as [|g kr]; unfold K in EK; simpl in *; injection EK as <- <-; [done|].
    inversion A as [|? ? Hl _]; now rewrite Hl. }
  rewrite EP; apply wp_bind; destruct (hl f).
  - rewrite (proj2 (Z.eqb_neq _ _) Tf); apply wp_bind; eapply wp_mono; [exact W|]; intros [] m2 P; apply wp_ret, wp_bind.
    eapply wp_mono; [apply B, P|]; intros [] m3 (P3 & A3 & W3); now apply wp_ret.
  - rewrite Tf, Z.eqb_refl in *; apply wp_bind; eapply wp_mono; [exact W|]; intros [] m2 P; apply wp_ret, wp_bind.
    eapply wp_mono; [apply B, P|]; intros [] m3 (P3 & A3 & W3); now apply wp_ret.
Qed.

Lemma ctx_rename d c a b s k k1 : forall c' n,
  ctx (k1 ++ mkframe d c a s :: k) c' n -> ctx (k1 ++ mkframe d c b s :: k) c' n.
Proof.
  induction k1 as [|f k1 IH]; intros c' n C; simpl in *; inversion C; subst; eauto with rb.
Qed.

Lemma blacks_rename d c a b s k k1 : blacks (k1 ++ mkframe d c a s :: k) = blacks (k1 ++ mkframe d c b s :: k).
Proof. induction k1 as [|f k1 IH]; simpl; [done|now rewrite IH]. Qed.

Lemma path_length k c n : ctx k c n ->
  (length k + (match c with Red => 0 | Black => 1 end) <= 2 * blacks k)%nat.
Proof. induction 1 as [|? ? ? ? ? _ _ IH|? ? ? ? c ? _ _ IH]; simpl; try lia; destruct c; lia. Qed.

(** The end of [rb_erase]: the child of the removed node may have to make up
    for a black node. *)
Lemma erase_tail_ok fuel m0 X root k t c n m col :
  tree_at m0 X root k t m -> ctx k c n -> (blacks k <= fuel)%nat ->
  rb t Red n /\ col = Red \/ col = Black /\ (exists n', n = S n' /\ rb t Black n') ->
  wp (when (colz col =? RB_BLACK) (__rb_erase_color fuel (ptr t) (pa k) root))
    (fun _ m' => exists t', tree_at m0 X root [] t' m' /\ redblack t') m.
Proof.
  intros H C Hf [[R ->]|(-> & n' & -> & R)]; simpl.
  - apply wp_ret; exists (plug k t); split; [exact H|]; eapply ctx_plug; eauto with rb.
  - eapply rb_erase_color_ok; [exact H| |exact C|exact Hf].
    inversion R; subst; [left; auto with rb|right; eauto 8 with rb|left; auto with rb].
Qed.

Lemma lefts_all_left k : all_left k -> lefts k = [].
Proof. induction 1 as [|f k Hf _ IH]; simpl; [done|now rewrite Hf, IH]. Qed.

(** A tree without [a], where the subtree [t1] below [k1] may lack a black node. *)
Definition taken_out (fuel : nat) (m : store) (root : Z) (k : list frame) (c : color) (l : tree) (a : Z) (r : tree)
    (res : Z * Z * Z) (m1 : store) : Prop :=
  exists k1 t1 c1 n1 col, res = (ptr t1, pa k1, colz col) /\
    holds m1 root (plug k1 t1) /\ elts (plug k1 t1) = lefts k ++ elts l ++ elts r ++ rights k /\
    (exists l' r', nodes m1 !! a = Some (cell (pa k) c l' r')) /\
    elsewhere (elts (plug k (T c l a r))) root m m1 /\
    ctx k1 c1 n1 /\ (blacks k1 <= fuel)%nat /\
    (rb t1 Red n1 /\ col = Red \/ col = Black /\ (exists n', n1 = S n' /\ rb t1 Black n')).

Lemma unlink_out fuel m root k c l a r s c0 n :
  holds m root (plug k (T c l a r)) -> ctx k c0 n -> rb (T c l a r) c0 n -> (blacks k <= fuel)%nat ->
  (l = E /\ r = s) \/ (r = E /\ l = s) ->
  wp (erase_unlink a (ptr s) root) (taken_out fuel m root k c l a r) m.
Proof.
  intros H C R B D; pose proof (tree_at_self _ _ _ _ H) as St; destruct (cell_at _ _ _ _ _ _ _ _ _ St) as (_ & _ & Ca).
  eapply wp_mono; [eapply unlink_ok; [apply focus_holds; exact H|exact D]|].
  intros res m1 (-> & F & A & W); exists k, s, c0, n, c; split; [done|]; split; [now apply focus_holds|].
  split; [rewrite elts_plug; destruct D as [[-> ->]|[-> ->]]; done|].
  split; [rewrite A; eauto|]; split; [eapply elsewhere_sub; [|exact W]; intros p; now rewrite elts_plug_perm|].
  split; [done|]; split; [done|]; destruct D as [[-> ->]|[-> ->]]; inversion R; subst; eauto 8.
Qed.

Lemma erase_out_ok fuel m root k c l a r (t := plug k (T c l a r)) :
  holds m root t -> redblack t -> (2 * Nat.log2 (S (length (elts t))) <= fuel)%nat ->
  wp (erase_out fuel a root) (taken_out fuel m root k c l a r) m.
Proof.
  intros H RB Hf; pose proof (tree_at_self _ _ _ _ H) as St; fold t in St.
  destruct (plug_ctx _ _ RB) as (c0 & n & C & R); pose proof (blacks_log _ _ _ _ C R) as B; fold t in B.
  unfold erase_out; apply wp_bind; eapply left_at; [exact St|]; apply wp_bind; eapply right_at; [exact St|].
  destruct l as [|cl ll la lr]; [eapply unlink_out; eauto; lia|].
  assert (Gl : good la) by exact (good_at _ _ _ (mkframe true c a r :: k) _ _ _ _ _ St).
  change (ptr (T cl ll la lr)) with la at 1; rewrite (tst_good _ Gl); cbn [negb].
  destruct r as [|cr rl ra rr]; [change (tst (ptr E)) with false; cbn [negb]; eapply unlink_out; eauto; lia|].
  assert (Gr : good ra) by exact (good_at _ _ _ (mkframe false c a (T cl ll la lr) :: k) _ _ _ _ _ St).
  change (ptr (T cr rl ra rr)) with ra at 1; rewrite (tst_good _ Gr); cbn [negb].
  destruct (leftmost_split (T cr rl ra rr)) as (kr & cy & y & yr & Er & A); [done|].
  set (l := T cl ll la lr) in *; set (K := kr ++ mkframe false c a l :: k).
  assert (Et : t = plug K (T cy E y yr)) by (unfold t, K; rewrite plug_app, Er; done).
  destruct (plug_ctx K (T cy E y yr)) as (c1 & n1 & C1 & R1); [now rewrite <- Et|].
  pose proof (blacks_log _ _ _ _ C1 R1) as B1; rewrite <- Et in B1.
  pose proof (path_length _ _ _ C1) as P1; unfold K in P1; rewrite length_app in P1; simpl in P1.
  rewrite Et in H; eapply wp_mono; [eapply erase_replace_ok; [exact H|done|exact A|fold K in P1; lia]|].
  fold K; rewrite <- Et; intros res m1 (-> & H1 & A1 & W1).
  exists (kr ++ mkframe false c y l :: k), yr, c1, n1, cy; split; [done|]; split; [done|].
  split; [|split; [done|]; split; [done|]; split; [eapply ctx_rename, C1|]; split].
  - rewrite Er, plug_app; cbn [plug]; unfold fill; cbn [hl fc fa fs].
    rewrite !elts_plug; cbn [elts]; rewrite !elts_plug, (lefts_all_left _ A); simpl; now repeat (rewrite <- app_assoc; simpl).
  - rewrite (blacks_rename _ _ _ a); fold K; lia.
  - inversion R1; subst; eauto 8.
Qed.

(** Removing the node [a]. *)
Lemma rb_erase_spec fuel m root k c l a r (t := plug k (T c l a r)) :
  holds m root t -> redblack t -> (2 * Nat.log2 (S (length (elts t))) <= fuel)%nat ->
  exists m' t', rb_erase fuel a root m = Some (tt, m') /\ holds m' root t' /\ redblack t' /\
    elts t' = lefts k ++ elts l ++ elts r ++ rights k /\
    (exists l' r', nodes m' !! a = Some (cell (pa k) c l' r')) /\ elsewhere (elts t) root m m'.
Proof.
  intros H RB Hf.
  assert (P : elts t ≡ₚ a :: lefts k ++ elts l ++ elts r ++ rights k).
  { unfold t; rewrite elts_plug; simpl; rewrite <- app_assoc; simpl.
    now rewrite app_assoc, <- Permutation_middle, <- app_assoc. }
  assert (Na : a ∉ lefts k ++ elts l ++ elts r ++ rights k)
    by (destruct H as (_ & _ & N & _); rewrite P in N; now apply NoDup_cons in N as [? _]).
  assert (W : wp (rb_erase fuel a root) (fun _ m' => exists t', holds m' root t' /\ redblack t' /\
      elts t' = lefts k ++ elts l ++ elts r ++ rights k /\
      (exists l' r', nodes m' !! a = Some (cell (pa k) c l' r')) /\ elsewhere (elts t) root m m') m).
  { unfold rb_erase; apply wp_bind; eapply wp_mono; [apply erase_out_ok; eauto|].
    intros ? m1 (k1 & t1 & c1 & n1 & col & -> & H1 & E1 & A1 & W1 & C1 & B1 & D1); cbv beta.
    eapply wp_mono; [eapply erase_tail_ok; [apply tree_at_self, H1|exact C1|exact B1|exact D1]|].
    intros [] m2 (t2 & (H2 & E2 & W2) & R2); simpl in H2, E2; rewrite E1 in E2, W2; exists t2.
    split; [done|]; split; [done|]; split; [done|]; split.
    - destruct W2 as [W2 _]; rewrite W2 by done; done.
    - transitivity m1; [done|]; eapply elsewhere_sub; [|exact W2]; intros p Hp; rewrite P; now apply list_elem_of_further. }
  destruct W as ([] & m' & Run & t' & Q); now exists m', t'.
Qed.
