(* ===== verification/RbtreeWalk.v ===== *)
(** * Red-black trees: traversal and replacement *)

#[local] Set Warnings "-notation-incompatible-prefix".
From S2P Require Import Prelude Rbtree RbtreeRep RbtreeOps RbtreeInsert RbtreeErase RbtreeSpec.
From stdpp Require Import gmap.
#[local] Open Scope Z_scope.

(** The node a traversal goes to: [NULL] at the end. *)
Definition first_of (l : list Z) : Z := default NULL (head l).
Definition last_of (l : list Z) : Z := default NULL (last l).

Definition all_right (k : list frame) : Prop := Forall (fun f => hl f = false) k.

Lemma rightmost_split t : t <> E -> exists k c l a, t = plug k (T c l a E) /\ all_right k.
Proof.
  induction t as [|c l _ a r IH]; [done|]; intros _.
  destruct r as [|cr rl ra rr]; [exists [], c, l, a; split; [done|constructor]|].
  destruct IH as (k & c' & s & b & Ep & A); [done|].
  exists (k ++ [mkframe false c a l]), c', s, b; split; [now rewrite plug_app, <- Ep|].
  apply Forall_app; split; [done|]; now constructor.
Qed.

Lemma rights_all_right k : all_right k -> rights k = [].
Proof. induction 1 as [|f k Hf _ IH]; simpl; [done|now rewrite Hf, IH]. Qed.

Section Walk.
Context (m0 : store) (X : list Z) (root : Z).
#[local] Abbreviation at_ := (tree_at m0 X root).

Lemma plug_good kr k c l a r m : at_ (kr ++ k) (T c l a r) m -> good (ptr (plug kr (T c l a r))).
Proof.
  intros H; assert (H' : at_ k (plug kr (T c l a r)) m) by (unfold tree_at in *; rewrite plug_app in H; exact H).
  destruct (plug_node kr c l a r) as (c' & l' & a' & r' & Ep); rewrite Ep in *; exact (good_at _ _ _ _ _ _ _ _ _ H').
Qed.

Lemma rightmost_ok fuel c y t m : forall kr k,
  at_ (kr ++ k) (T c t y E) m -> all_right kr -> (length kr <= fuel)%nat ->
  wp (rightmost fuel (ptr (plug kr (T c t y E)))) (fun p m' => p = y /\ m' = m) m.
Proof.
  induction fuel as [|fuel IH]; intros kr k H A Hf;
    (destruct kr as [|g kr _] using rev_ind;
      [simpl; apply wp_bind; eapply (right_at _ _ _ k); [exact H|]; now apply wp_ret|]);
    rewrite length_app in Hf; simpl in Hf; [lia|].
  apply Forall_app in A as [A B]; inversion B as [|? ? Hg _]; subst; destruct g as [gl gc ga gs]; simpl in Hg; subst gl.
  rewrite <- app_assoc in H; rewrite plug_app; simpl; apply wp_bind.
  assert (H' : at_ k (T gc gs ga (plug kr (T c t y E))) m) by (unfold tree_at in *; rewrite plug_app in H; exact H).
  eapply right_at; [exact H'|]; rewrite (tst_good _ (plug_good _ _ _ _ _ _ _ H)).
  eapply (IH kr (mkframe false gc ga gs :: k)); [exact H|done|lia].
Qed.

Lemma climb_right_ok fuel : forall k c l a r m, at_ k (T c l a r) m -> (length k <= fuel)%nat ->
  wp (climb_right fuel a) (fun p m' => p = first_of (rights k) /\ m' = m) m.
Proof.
  induction fuel as [|fuel IH]; intros k c l a r m H Hf;
    (destruct k as [|[d cf p s] k]; simpl in Hf; [simpl; apply wp_bind; eapply parent_at; [exact H|]; apply wp_bind, wp_ret, wp_ret; done|]);
    [lia|].
  pose proof (sibling_ne _ _ _ _ _ _ _ H ltac:(done)) as Ne; simpl in Ne.
  simpl; apply wp_bind; eapply parent_at; [exact H|]; unroll H; cbn [pa fa].
  destruct d; (rewrite (tst_good p) by exact (good_at _ _ _ k _ _ _ _ _ H)); apply wp_bind, wp_bind;
    (eapply (right_at _ _ _ k); [exact H|]); apply wp_ret; cbn [ptr].
  - rewrite (proj2 (Z.eqb_neq _ _)) by congruence; now apply wp_ret.
  - rewrite Z.eqb_refl; eapply IH; [exact H|lia].
Qed.

Lemma climb_left_ok fuel : forall k c l a r m, at_ k (T c l a r) m -> (length k <= fuel)%nat ->
  wp (climb_left fuel a) (fun p m' => p = last_of (lefts k) /\ m' = m) m.
Proof.
  induction fuel as [|fuel IH]; intros k c l a r m H Hf;
    (destruct k as [|[d cf p s] k]; simpl in Hf; [simpl; apply wp_bind; eapply parent_at; [exact H|]; apply wp_bind, wp_ret, wp_ret; done|]);
    [lia|].
  pose proof (sibling_ne _ _ _ _ _ _ _ H ltac:(done)) as Ne; simpl in Ne.
  simpl; apply wp_bind; eapply parent_at; [exact H|]; unroll H; cbn [pa fa].
  destruct d; (rewrite (tst_good p) by exact (good_at _ _ _ k _ _ _ _ _ H)); apply wp_bind, wp_bind;
    (eapply (left_at _ _ _ k); [exact H|]); apply wp_ret; cbn [ptr].
  - rewrite Z.eqb_refl; eapply IH; [exact H|lia].
  - rewrite (proj2 (Z.eqb_neq _ _)) by congruence; apply wp_ret; split; [|done].
    simpl; unfold last_of; now rewrite app_assoc, last_snoc.
Qed.
End Walk.

(** ** Specifications *)

(** The fuel that suffices for every descent and climb in a tree of [n] nodes. *)
Definition enough (fuel : nat) (t : tree) : Prop := (2 * Nat.log2 (S (length (elts t))) <= fuel)%nat.

Lemma path_enough fuel k t : redblack (plug k t) -> enough fuel (plug k t) -> (length k <= fuel)%nat.
Proof.
  intros RB Hf; destruct (plug_ctx _ _ RB) as (c & n & C & R).
  pose proof (blacks_log _ _ _ _ C R); pose proof (path_length _ _ _ C); unfold enough in Hf; lia.
Qed.

Lemma leftmost_spec fuel m root k t : t <> E -> holds m root (plug k t) -> redblack (plug k t) -> enough fuel (plug k t) ->
  leftmost fuel (ptr t) m = Some (first_of (elts t), m).
Proof.
  intros Nt H RB Hf; destruct (leftmost_split t Nt) as (kr & c & y & yr & -> & A); rewrite <- plug_app in H, RB, Hf.
  pose proof (path_enough _ _ _ RB Hf) as L; rewrite length_app in L.
  destruct (leftmost_ok fuel _ _ _ _ _ _ _ kr k (tree_at_self _ _ _ _ H) A) as (p & m' & R & -> & ->); [lia|].
  rewrite R, elts_plug, (lefts_all_left _ A); done.
Qed.

Lemma rightmost_spec fuel m root k t : t <> E -> holds m root (plug k t) -> redblack (plug k t) -> enough fuel (plug k t) ->
  rightmost fuel (ptr t) m = Some (last_of (elts t), m).
Proof.
  intros Nt H RB Hf; destruct (rightmost_split t Nt) as (kr & c & yr & y & -> & A); rewrite <- plug_app in H, RB, Hf.
  pose proof (path_enough _ _ _ RB Hf) as L; rewrite length_app in L.
  destruct (rightmost_ok _ _ _ fuel _ _ _ _ kr k (tree_at_self _ _ _ _ H) A) as (p & m' & R & -> & ->); [lia|].
  rewrite R, elts_plug, (rights_all_right _ A); simpl; rewrite app_nil_r; unfold last_of.
  now rewrite app_assoc, last_snoc.
Qed.

Lemma rb_first_spec fuel m root t : holds m root t -> redblack t -> enough fuel t ->
  rb_first fuel root m = Some (first_of (elts t), m).
Proof.
  intros H RB Hf; unfold rb_first; rewrite (run_bind_some _ _ _ _ _ (run_get_root _ _ _ (proj1 H))).
  destruct t as [|c l a r]; [done|]; cbn [ptr].
  rewrite (tst_good a) by (eapply (good_at _ _ _ []), tree_at_self, H); now apply (leftmost_spec fuel m root [] (T c l a r)).
Qed.

Lemma rb_last_spec fuel m root t : holds m root t -> redblack t -> enough fuel t ->
  rb_last fuel root m = Some (last_of (elts t), m).
Proof.
  intros H RB Hf; unfold rb_last; rewrite (run_bind_some _ _ _ _ _ (run_get_root _ _ _ (proj1 H))).
  destruct t as [|c l a r]; [done|]; cbn [ptr].
  rewrite (tst_good a) by (eapply (good_at _ _ _ []), tree_at_self, H); now apply (rightmost_spec fuel m root [] (T c l a r)).
Qed.

Lemma parent_ne m root k c l a r : holds m root (plug k (T c l a r)) -> pa k <> a.
Proof.
  intros H; apply focus_holds in H as (_ & _ & _ & N & G); destruct k as [|f k]; simpl in *; goods G.
  - now apply not_eq_sym, good_ne.
  - number N [celts k; [fa f]; elts (fs f); elts l; [a]; elts r]; differ.
Qed.

Lemma rb_next_spec fuel m root k c l a r :
  holds m root (plug k (T c l a r)) -> redblack (plug k (T c l a r)) -> enough fuel (plug k (T c l a r)) ->
  rb_next fuel a m = Some (first_of (elts r ++ rights k), m).
Proof.
  intros H RB Hf; pose proof (tree_at_self _ _ _ _ H) as St; pose proof (parent_ne _ _ _ _ _ _ _ H) as Np.
  assert (W : wp (rb_next fuel a) (fun p m' => p = first_of (elts r ++ rights k) /\ m' = m) m).
  { unfold rb_next; apply wp_bind; eapply parent_at; [exact St|]; rewrite (proj2 (Z.eqb_neq _ _) Np).
    apply wp_bind; eapply right_at; [exact St|].
    destruct r as [|cr rl b rr]; [eapply climb_right_ok; [exact St|eapply path_enough; eauto]|].
    cbn [ptr]; rewrite (tst_good b) by exact (good_at _ _ _ (mkframe false c a l :: k) _ _ _ _ _ St).
    eapply wp_run; [apply (leftmost_spec fuel m root (mkframe false c a l :: k) (T cr rl b rr)); done|].
    split; [|done]; unfold first_of; rewrite head_app; simpl; now destruct (elts rl). }
  destruct W as (p & m' & R & -> & ->); exact R.
Qed.

Lemma rb_prev_spec fuel m root k c l a r :
  holds m root (plug k (T c l a r)) -> redblack (plug k (T c l a r)) -> enough fuel (plug k (T c l a r)) ->
  rb_prev fuel a m = Some (last_of (lefts k ++ elts l), m).
Proof.
  intros H RB Hf; pose proof (tree_at_self _ _ _ _ H) as St; pose proof (parent_ne _ _ _ _ _ _ _ H) as Np.
  assert (W : wp (rb_prev fuel a) (fun p m' => p = last_of (lefts k ++ elts l) /\ m' = m) m).
  { unfold rb_prev; apply wp_bind; eapply parent_at; [exact St|]; rewrite (proj2 (Z.eqb_neq _ _) Np).
    apply wp_bind; eapply left_at; [exact St|].
    destruct l as [|cl ll b lr]; [simpl elts; rewrite app_nil_r; eapply climb_left_ok; [exact St|eapply path_enough; eauto]|].
    cbn [ptr]; rewrite (tst_good b) by exact (good_at _ _ _ (mkframe true c a r :: k) _ _ _ _ _ St).
    eapply wp_run; [apply (rightmost_spec fuel m root (mkframe true c a r :: k) (T cl ll b lr)); done|].
    split; [|done]; unfold last_of; rewrite last_app; simpl; destruct (last (elts ll ++ b :: elts lr)) eqn:El; [done|].
    apply last_None in El; now destruct (elts ll). }
  destruct W as (p & m' & R & -> & ->); exact R.
Qed.

(** A position in the in-order sequence is a position in the tree. *)
Lemma elts_split t a : a ∈ elts t -> exists k c l r, t = plug k (T c l a r).
Proof.
  induction t as [|c l IHl b r IHr]; simpl; [intros H; inversion H|].
  intros [H|[->|H]%elem_of_cons]%elem_of_app.
  - destruct (IHl H) as (k & c' & l' & r' & ->); exists (k ++ [mkframe true c b r]), c', l', r'; now rewrite plug_app.
  - now exists [], c, l, r.
  - destruct (IHr H) as (k & c' & l' & r' & ->); exists (k ++ [mkframe false c b l]), c', l', r'; now rewrite plug_app.
Qed.

Lemma split_unique (xs ys xs' ys' : list Z) a : NoDup (xs ++ a :: ys) -> xs ++ a :: ys = xs' ++ a :: ys' -> xs = xs' /\ ys = ys'.
Proof.
  revert xs'; induction xs as [|x xs IH]; intros [|x' xs'] N E; simpl in *.
  - now injection E as ->.
  - injection E as <- ->; apply NoDup_cons in N as [N _]; exfalso; apply N, elem_of_app; right; left.
  - injection E as -> <-; apply NoDup_cons in N as [N _]; exfalso; apply N, elem_of_app; right; left.
  - injection E as <- E; apply NoDup_cons in N as [_ N]; destruct (IH _ N E) as [-> ->]; done.
Qed.

Lemma position t xs a ys : NoDup (elts t) -> elts t = xs ++ a :: ys ->
  exists k c l r, t = plug k (T c l a r) /\ xs = lefts k ++ elts l /\ ys = elts r ++ rights k.
Proof.
  intros N Et; destruct (elts_split t a) as (k & c & l & r & ->); [rewrite Et; set_solver|].
  exists k, c, l, r; split; [done|]; apply (split_unique _ _ _ _ a); [now rewrite <- Et|].
  rewrite <- Et, elts_plug; simpl; now repeat (rewrite <- app_assoc; simpl).
Qed.

(** ** [rb_replace_node] *)

Lemma replace_node_ok m root k c l a r y n :
  focus m root k (T c l a r) -> good y -> y ∉ celts k ++ elts (T c l a r) -> nodes m !! y = Some n ->
  wp (rb_replace_node a y root) (fun _ m' => focus m' root k (T c l y r) /\ nodes m' !! a = nodes m !! a /\
    elsewhere ((celts k ++ elts (T c l a r)) ++ [y]) root m m') m.
Proof.
  intros (R & K & (A & L & Rr) & N & G) Gy Hy Y; rewrite (as_cell n) in Y; unfold rb_replace_node.
  assert (PA : (4 | pa k)) by (apply pa_aligned; now apply Forall_app in G as [? _]).
  destruct (nodup_swap _ _ _ _ _ N Hy) as [N2 N']; destruct (good_swap _ _ _ _ _ G Gy) as [G2 G'].
  destruct l as [|cl ll la lr]; [|destruct L as (LA & LL & LR)];
    (destruct r as [|cr rl ra rr]; simpl in *; [|destruct Rr as (RA & RL & RR)]);
    (destruct k as [|[[] cf af sf] k]; simpl in *; [|destruct K as (F & S & K); unfold fcell in *; simpl in *..]).
  - run N2 G2 [[a]; [y]].
  - run N2 G2 [celts k; [af]; elts sf; [a]; [y]].
  - run N2 G2 [celts k; [af]; elts sf; [a]; [y]].
  - run N2 G2 [[a]; elts rl; [ra]; elts rr; [y]].
  - run N2 G2 [celts k; [af]; elts sf; [a]; elts rl; [ra]; elts rr; [y]].
  - run N2 G2 [celts k; [af]; elts sf; [a]; elts rl; [ra]; elts rr; [y]].
  - run N2 G2 [elts ll; [la]; elts lr; [a]; [y]].
  - run N2 G2 [celts k; [af]; elts sf; elts ll; [la]; elts lr; [a]; [y]].
  - run N2 G2 [celts k; [af]; elts sf; elts ll; [la]; elts lr; [a]; [y]].
  - run N2 G2 [elts ll; [la]; elts lr; [a]; elts rl; [ra]; elts rr; [y]].
  - run N2 G2 [celts k; [af]; elts sf; elts ll; [la]; elts lr; [a]; elts rl; [ra]; elts rr; [y]].
  - run N2 G2 [celts k; [af]; elts sf; elts ll; [la]; elts lr; [a]; elts rl; [ra]; elts rr; [y]].
Qed.

Lemma rb_replace_node_spec m root k c l a r y n (t := plug k (T c l a r)) :
  holds m root t -> redblack t -> good y -> y ∉ elts t -> nodes m !! y = Some n ->
  exists m', rb_replace_node a y root m = Some (tt, m') /\
    holds m' root (plug k (T c l y r)) /\ redblack (plug k (T c l y r)) /\ elsewhere (elts t ++ [y]) root m m'.
Proof.
  intros H RB Gy Hy Y; apply focus_holds in H.
  assert (P : elts t ≡ₚ celts k ++ elts (T c l a r)) by apply elts_plug_perm.
  destruct (replace_node_ok _ _ _ _ _ _ _ _ _ H Gy ltac:(now rewrite <- P) Y) as ([] & m' & R & F & _ & W).
  exists m'; split; [done|]; split; [now apply focus_holds|]; split.
  - destruct (plug_ctx _ _ RB) as (c0 & n0 & C & R0); eapply ctx_plug; [exact C|]; inversion R0; subst; auto with rb.
  - eapply elsewhere_sub; [|exact W]; intros p; now rewrite P.
Qed.
