(* ===== verification/RbtreeCorrect.v ===== *)
(** * Red-black trees: the properties, with witnesses *)

#[local] Set Warnings "-notation-incompatible-prefix".
From S2P Require Import Prelude Rbtree RbtreeRep RbtreeOps RbtreeInsert RbtreeErase RbtreeSpec RbtreeWalk.
From stdpp Require Import gmap.
#[local] Open Scope Z_scope.

(** C17: Inserting a node.  Let [root] hold a red-black tree and let [a] be a
    node that is not in it.  If [a] is linked at any empty place [k] of the tree
    and [rb_insert_color] is run, the loop ends after at most [log2 (n + 1)]
    iterations, [n] the number of nodes; [root] then holds a red-black tree
    whose in-order sequence is the old one with [a] inserted at that place; all
    other nodes and all other trees are as they were. *)
Theorem rb_insert_correct fuel m root k a nd :
  holds m root (plug k E) -> redblack (plug k E) ->
  good a -> a ∉ elts (plug k E) -> nodes m !! a = Some nd ->
  (Nat.log2 (S (length (elts (plug k E)))) <= fuel)%nat ->
  exists m' t', (rb_link_node a (pa k) (hole_link root k) ;;; rb_insert_color fuel a root) m = Some (tt, m') /\
    holds m' root t' /\ redblack t' /\
    elts (plug k E) = lefts k ++ rights k /\ elts t' = lefts k ++ a :: rights k /\
    elsewhere (elts t') root m m'.
Proof. exact (rb_insert_spec fuel m root k a nd). Qed.

(** C18: Removing a node.  If [root] holds a red-black tree and [a] is one of its
    nodes, [rb_erase] returns, its loops bounded by twice the logarithm of the
    number of nodes; [root] then holds a red-black tree with the same in-order
    sequence without [a]; [a] itself stays allocated, and no node outside of
    the tree and no other root changes. *)
Theorem rb_erase_correct fuel m root t xs a ys :
  holds m root t -> redblack t -> elts t = xs ++ a :: ys -> enough fuel t ->
  exists m' t', rb_erase fuel a root m = Some (tt, m') /\ holds m' root t' /\ redblack t' /\
    elts t' = xs ++ ys /\ is_Some (nodes m' !! a) /\ elsewhere (elts t) root m m'.
Proof.
  intros H RB Et Hf; destruct (position t xs a ys (proj1 (proj2 (proj2 H))) Et) as (k & c & l & r & -> & -> & ->).
  destruct (rb_erase_spec fuel m root k c l a r H RB Hf) as (m' & t' & R & H' & RB' & E' & (l' & r' & A) & W).
  exists m', t'; rewrite E', A, <- !app_assoc; eauto 8.
Qed.

(** Traversal.  In a red-black tree with the in-order sequence [xs ++ a :: ys],
    [rb_first] and [rb_last] return its ends, [rb_next] of [a] is the first
    of [ys] and [rb_prev] the last of [xs], or [NULL] where there is none.  None
    of them changes memory, and their loops are logarithmically bounded. *)
Theorem rb_traversal_correct fuel m root t xs a ys :
  holds m root t -> redblack t -> elts t = xs ++ a :: ys -> enough fuel t ->
  rb_first fuel root m = Some (first_of (elts t), m) /\ rb_last fuel root m = Some (last_of (elts t), m) /\
  rb_next fuel a m = Some (first_of ys, m) /\ rb_prev fuel a m = Some (last_of xs, m).
Proof.
  intros H RB Et Hf; destruct (position t xs a ys (proj1 (proj2 (proj2 H))) Et) as (k & c & l & r & -> & -> & ->).
  split; [now apply rb_first_spec|]; split; [now apply rb_last_spec|].
  split; [now apply rb_next_spec with root c l|now apply rb_prev_spec with root c r].
Qed.

(** Replacing a node by one that is not in the tree puts the new node at its
    place and colour, keeps the tree a red-black tree and touches nothing else. *)
Theorem rb_replace_node_correct m root t xs a ys y n :
  holds m root t -> redblack t -> elts t = xs ++ a :: ys ->
  good y -> y ∉ elts t -> nodes m !! y = Some n ->
  exists m' t', rb_replace_node a y root m = Some (tt, m') /\ holds m' root t' /\ redblack t' /\
    elts t' = xs ++ y :: ys /\ elsewhere (elts t ++ [y]) root m m'.
Proof.
  intros H RB Et Gy Hy Y; destruct (position t xs a ys (proj1 (proj2 (proj2 H))) Et) as (k & c & l & r & -> & -> & ->).
  destruct (rb_replace_node_spec m root k c l a r y n H RB Gy Hy Y) as (m' & R & H' & RB' & W).
  exists m', (plug k (T c l y r)); repeat split; try assumption; try apply H'; try apply W.
  rewrite elts_plug; simpl; now repeat (rewrite <- app_assoc; simpl).
Qed.

(** ** Witnesses: a tree of three nodes *)

Definition demo_nodes : gmap Z rb_node :=
  <[8 := cell 0 Black 16 24]> (<[16 := cell 8 Red 0 0]> (<[24 := cell 8 Red 0 0]> (<[32 := mknode 0 0 0]> ∅))).
Definition demo_store : store := mkstore demo_nodes {[100 := 8]}.
Definition demo_tree : tree := T Black (T Red E 16 E) 8 (T Red E 24 E).

Lemma demo_good a : a = 8 \/ a = 16 \/ a = 24 \/ a = 32 -> good a.
Proof. intros [->|[->|[->| ->]]]; (split; [lia|]); [now exists 2|now exists 4|now exists 6|now exists 8]. Qed.

Lemma demo_holds : holds demo_store 100 demo_tree.
Proof.
  repeat split; try (vm_compute; reflexivity); [apply (bool_decide_unpack _); vm_compute; exact I|].
  repeat constructor; apply demo_good; auto.
Qed.

Lemma demo_redblack : redblack demo_tree.
Proof. exists 1%nat; repeat constructor. Qed.

Lemma rb_insert_correct_witness :
  holds demo_store 100 (plug [mkframe false Red 24 E; mkframe false Black 8 (T Red E 16 E)] E) /\
  exists m' t', (rb_link_node 32 24 (right_link 24) ;;; rb_insert_color 2 32 100) demo_store = Some (tt, m') /\
    holds m' 100 t' /\ redblack t' /\ elts t' = [16; 8; 24; 32].
Proof.
  split; [exact demo_holds|].
  destruct (rb_insert_correct 2 demo_store 100 [mkframe false Red 24 E; mkframe false Black 8 (T Red E 16 E)] 32 (mknode 0 0 0)
    demo_holds demo_redblack (demo_good _ ltac:(auto)) ltac:(apply (bool_decide_unpack _); vm_compute; exact I)
    ltac:(vm_compute; reflexivity) ltac:(vm_compute; lia)) as (m' & t' & R & H & B & _ & Et & _).
  exists m', t'; split; [exact R|]; split; [exact H|]; split; [exact B|exact Et].
Defined.

Lemma rb_erase_correct_witness :
  elts demo_tree = [16] ++ 8 :: [24] /\
  exists m' t', rb_erase 4 8 100 demo_store = Some (tt, m') /\ holds m' 100 t' /\ redblack t' /\ elts t' = [16; 24].
Proof.
  split; [reflexivity|].
  destruct (rb_erase_correct 4 demo_store 100 demo_tree [16] 8 [24] demo_holds demo_redblack eq_refl
    ltac:(vm_compute; lia)) as (m' & t' & R & H & B & Et & _).
  exists m', t'; split; [exact R|]; split; [exact H|]; split; [exact B|exact Et].
Defined.

Lemma rb_traversal_correct_witness :
  rb_first 4 100 demo_store = Some (16, demo_store) /\ rb_last 4 100 demo_store = Some (24, demo_store) /\
  rb_next 4 8 demo_store = Some (24, demo_store) /\ rb_prev 4 8 demo_store = Some (16, demo_store).
Proof.
  exact (rb_traversal_correct 4 demo_store 100 demo_tree [16] 8 [24] demo_holds demo_redblack eq_refl ltac:(vm_compute; lia)).
Defined.

Lemma rb_replace_node_correct_witness :
  exists m' t', rb_replace_node 8 32 100 demo_store = Some (tt, m') /\ holds m' 100 t' /\ redblack t' /\
    elts t' = [16; 32; 24].
Proof.
  destruct (rb_replace_node_correct demo_store 100 demo_tree [16] 8 [24] 32 (mknode 0 0 0) demo_holds demo_redblack eq_refl
    (demo_good _ ltac:(auto)) ltac:(apply (bool_decide_unpack _); vm_compute; exact I) ltac:(vm_compute; reflexivity))
    as (m' & t' & R & H & B & Et & _).
  exists m', t'; split; [exact R|]; split; [exact H|]; split; [exact B|exact Et].
Defined.
