(* ===== verification/Ktime.v ===== *)
(** * Time values

    Models [include/linux/ktime.h] and the time functions of
    [kernel/hrtimer.c].  A [ktime_t] is a union whose member [tv64] is a signed
    64-bit integer: on 64-bit kernels the time in nanoseconds, on 32-bit
    kernels seconds in the upper and nanoseconds in the lower half.  The two
    variants are instances of the class [Ktime]; [KtimeLaws] is what the timers
    rely on. *)

From S2P Require Import Prelude.

Definition NSEC_PER_SEC : Z := 1000000000.
Definition KTIME_MAX : Z := 2 ^ 63 - 1.
Definition KTIME_SEC_MAX : Z := KTIME_MAX / NSEC_PER_SEC.

(** The operations; values are the [tv64] members.  [ktime_divns] contains a
    loop and takes fuel. *)
Class Ktime := {
  BITS_PER_LONG : Z;
  ktime_set : Z -> Z -> Z;
  ktime_sub : Z -> Z -> Z;
  ktime_add : Z -> Z -> Z;
  ktime_add_ns : Z -> Z -> Z;
  ktime_to_ns : Z -> Z;
  ktime_divns : nat -> Z -> Z -> option Z }.

(** ** Scalar representation *)

Module Scalar.
Definition ktime_set (secs nsecs : Z) : Z :=
  if secs >=? KTIME_SEC_MAX then KTIME_MAX else swrap 64 (secs * NSEC_PER_SEC + nsecs).
Definition ktime_sub (lhs rhs : Z) : Z := swrap 64 (lhs - rhs).
Definition ktime_add (lhs rhs : Z) : Z := swrap 64 (lhs + rhs).
Definition ktime_add_ns (kt nsval : Z) : Z := swrap 64 (kt + nsval).
Definition ktime_to_ns (kt : Z) : Z := kt.
Definition ktime_divns (kt div : Z) : Z := wrap 64 (Z.quot kt div).
End Scalar.

#[export] Instance scalar : Ktime := {|
  BITS_PER_LONG := 64;
  ktime_set := Scalar.ktime_set; ktime_sub := Scalar.ktime_sub; ktime_add := Scalar.ktime_add;
  ktime_add_ns := Scalar.ktime_add_ns; ktime_to_ns := Scalar.ktime_to_ns;
  ktime_divns _ kt div := Some (Scalar.ktime_divns kt div) |}.

(** ** Seconds and nanoseconds *)

Module Tspec.
(** The members [tv.sec] and [tv.nsec]. *)
Definition sec (kt : Z) : Z := swrap 32 (Z.shiftr kt 32).
Definition nsec (kt : Z) : Z := swrap 32 kt.
Definition tv (sec nsec : Z) : Z := swrap 64 (Z.lor (Z.shiftl sec 32) (wrap 32 nsec)).

Definition ktime_set (secs nsecs : Z) : Z := tv (swrap 32 secs) (swrap 32 nsecs).
Definition ktime_sub (lhs rhs : Z) : Z :=
  let res := swrap 64 (lhs - rhs) in
  if nsec res <? 0 then tv (sec res) (swrap 32 (nsec res + NSEC_PER_SEC)) else res.
Definition ktime_add (add1 add2 : Z) : Z :=
  let res := swrap 64 (add1 + add2) in
  if nsec res >=? NSEC_PER_SEC then swrap 64 (res + wrap 32 (- NSEC_PER_SEC)) else res.
Definition ktime_add_ns (kt nsec : Z) : Z :=
  let tmp := if nsec <? NSEC_PER_SEC then nsec
             else ktime_set (swrap 32 (nsec / NSEC_PER_SEC)) (nsec mod NSEC_PER_SEC) in
  ktime_add kt tmp.
Definition ktime_to_ns (kt : Z) : Z := wrap 64 (sec kt * NSEC_PER_SEC + nsec kt).

(** [while (div >> 32) { sft++; div >>= 1; }] *)
Definition divns_cond (s : Z * Z) : bool := tst (Z.shiftr (snd s) 32).
Definition divns_body (s : Z * Z) : Z * Z := (fst s + 1, Z.shiftr (snd s) 1).
Definition ktime_divns (fuel : nat) (kt div : Z) : option Z :=
  let dclc := ktime_to_ns kt in
  match while fuel divns_cond divns_body (0, div) with
  | Some (sft, div) => Some (wrap 32 (Z.shiftr dclc sft / wrap 32 div))
  | None => None
  end.
End Tspec.

#[export] Instance tspec : Ktime := {|
  BITS_PER_LONG := 32;
  ktime_set := Tspec.ktime_set; ktime_sub := Tspec.ktime_sub; ktime_add := Tspec.ktime_add;
  ktime_add_ns := Tspec.ktime_add_ns; ktime_to_ns := Tspec.ktime_to_ns;
  ktime_divns := Tspec.ktime_divns |}.

(** In both variants, the members of the structure converted by [ktime_set]. *)
Definition timespec_to_ktime {K : Ktime} (tv_sec tv_nsec : Z) : Z := ktime_set tv_sec tv_nsec.

(** ** What the timers rely on *)

Class KtimeLaws (K : Ktime) := {
  (** well-formed values, the time they stand for, and the times there are *)
  valid : Z -> Prop;
  ns : Z -> Z;
  in_range : Z -> Prop;
  range_between : forall a b c, in_range a -> in_range c -> a <= b <= c -> in_range b;
  valid_range : forall a, valid a -> in_range (ns a);
  zero_range : in_range 0;
  small_range : forall a, in_range a -> - 2 ^ 63 <= a < 2 ^ 63;
  tv64_lt : forall a b, valid a -> valid b -> (a <? b) = (ns a <? ns b);
  zero_ns : valid 0 /\ ns 0 = 0;
  set_ns : forall s n, s < KTIME_SEC_MAX -> 0 <= n < NSEC_PER_SEC -> in_range (s * NSEC_PER_SEC + n) ->
    valid (ktime_set s n) /\ ns (ktime_set s n) = s * NSEC_PER_SEC + n;
  add_ns : forall a b, valid a -> valid b -> in_range (ns a + ns b) ->
    valid (ktime_add a b) /\ ns (ktime_add a b) = ns a + ns b;
  sub_ns : forall a b, valid a -> valid b -> in_range (ns a - ns b) ->
    valid (ktime_sub a b) /\ ns (ktime_sub a b) = ns a - ns b;
  add_ns_ns : forall a n, valid a -> 0 <= n -> in_range n -> in_range (ns a + n) ->
    valid (ktime_add_ns a n) /\ ns (ktime_add_ns a n) = ns a + n;
  to_ns_ns : forall a, valid a -> 0 <= ns a -> ktime_to_ns a = ns a;
  (** the quotient is exact or one too large *)
  divns_ns : forall fuel a v, valid a -> 0 <= ns a -> 0 < v < 2 ^ 63 -> (31 <= fuel)%nat ->
    ns a / v + 1 < 2 ^ BITS_PER_LONG ->
    exists q, ktime_divns fuel a v = Some q /\ ns a / v <= q <= ns a / v + 1 }.

(** ** Signed arithmetic *)

Lemma swrap_congr w x y : x mod 2 ^ w = y mod 2 ^ w -> swrap w x = swrap w y.
Proof. intros H; unfold swrap; now rewrite H. Qed.

Lemma swrap_residue w x : 0 < w -> swrap w x mod 2 ^ w = x mod 2 ^ w.
Proof.
  intros Hw; unfold swrap; pose proof (pow2_pos w ltac:(lia)).
  case_if; [now rewrite Z.mod_mod by lia|].
  replace (x mod 2 ^ w - 2 ^ w) with (x mod 2 ^ w + (-1) * 2 ^ w) by lia.
  now rewrite Z_mod_plus_full, Z.mod_mod by lia.
Qed.

Lemma swrap_add w x c : 0 < w -> swrap w (swrap w x + c) = swrap w (x + c).
Proof. intros Hw; apply swrap_congr; now rewrite Z.add_mod, swrap_residue, <- Z.add_mod by (pose proof (pow2_pos w ltac:(lia)); lia). Qed.

Lemma swrap_swrap32 x : swrap 32 (swrap 64 x) = swrap 32 x.
Proof.
  apply swrap_congr; pose proof (swrap_residue 64 x ltac:(lia)) as H.
  rewrite <- (Z.mod_mod_divide (swrap 64 x) (2 ^ 64) (2 ^ 32)), H by (now exists (2 ^ 32)).
  apply Z.mod_mod_divide; now exists (2 ^ 32).
Qed.

(** ** The scalar representation *)

Definition s64 (x : Z) : Prop := - 2 ^ 63 <= x < 2 ^ 63.

#[export] Instance scalar_laws : KtimeLaws scalar.
Proof.
  refine {| valid := s64; ns := id; in_range := s64 |}; unfold s64, id; try (intros; lia).
  - intros s n Hs Hn R; assert (E : KTIME_SEC_MAX = 9223372036) by reflexivity.
    cbn [ktime_set scalar]; unfold Scalar.ktime_set; destruct (s >=? KTIME_SEC_MAX) eqn:C; zbool; [lia|].
    rewrite swrap_small by lia; lia.
  - intros a b A B R; cbn [ktime_add scalar]; unfold Scalar.ktime_add; rewrite swrap_small by lia; lia.
  - intros a b A B R; cbn [ktime_sub scalar]; unfold Scalar.ktime_sub; rewrite swrap_small by lia; lia.
  - intros a n A N R R'; cbn [ktime_add_ns scalar]; unfold Scalar.ktime_add_ns; rewrite swrap_small by lia; lia.
  - reflexivity.
  - intros fuel a v A N V F L; cbn [ktime_divns scalar BITS_PER_LONG] in *; eexists; split; [reflexivity|].
    unfold Scalar.ktime_divns; rewrite Z.quot_div_nonneg by lia.
    assert (0 <= a / v) by (apply Z.div_pos; lia); rewrite wrap_small by lia; lia.
Defined.

(** ** Seconds and nanoseconds *)

Definition s32 (x : Z) : Prop := - 2 ^ 31 <= x < 2 ^ 31.
Definition normal (a : Z) : Prop :=
  exists s n, a = s * 2 ^ 32 + n /\ s32 s /\ 0 <= n < NSEC_PER_SEC.
Definition tspec_ns (a : Z) : Z := Tspec.sec a * NSEC_PER_SEC + Tspec.nsec a.
Definition tspec_range (x : Z) : Prop := - 2 ^ 31 * NSEC_PER_SEC <= x < 2 ^ 31 * NSEC_PER_SEC.

Lemma nsec_pack s n : s32 n -> Tspec.nsec (s * 2 ^ 32 + n) = n.
Proof.
  unfold s32; intros Hn; unfold Tspec.nsec; rewrite (swrap_congr 32 _ n); [apply swrap_small; lia|].
  now rewrite Z.add_comm, Z_mod_plus_full.
Qed.
Lemma sec_pack s n : s32 s -> 0 <= n < 2 ^ 32 -> Tspec.sec (s * 2 ^ 32 + n) = s.
Proof.
  unfold s32; intros Hs Hn; unfold Tspec.sec; rewrite Z.shiftr_div_pow2 by lia.
  rewrite Z.add_comm, Z.div_add, Z.div_small by lia; apply swrap_small; lia.
Qed.
Lemma tv_pack s n : s32 s -> 0 <= n < NSEC_PER_SEC -> Tspec.tv s n = s * 2 ^ 32 + n.
Proof.
  unfold s32, NSEC_PER_SEC; intros Hs Hn; unfold Tspec.tv; rewrite (wrap_small 32) by lia.
  assert (D : Z.land (Z.shiftl s 32) n = 0).
  { apply Z.bits_inj'; intros i Hi; rewrite Z.land_spec, Z.bits_0; destruct (Z.ltb_spec i 32).
    - now rewrite Z.shiftl_spec_low by lia.
    - rewrite (Z.bits_above_log2 n i), andb_false_r; [reflexivity|lia|].
      destruct (Z.eq_dec n 0) as [->|]; [cbn; lia|]; apply Z.log2_lt_pow2; [lia|]; pose proof (pow2_le 32 i); lia. }
  rewrite <- Z.lxor_lor, <- Z.add_nocarry_lxor, Z.shiftl_mul_pow2 by (assumption || lia).
  apply swrap_small; lia.
Qed.

Lemma tspec_of s n : s32 s -> 0 <= n < NSEC_PER_SEC ->
  normal (s * 2 ^ 32 + n) /\ tspec_ns (s * 2 ^ 32 + n) = s * NSEC_PER_SEC + n.
Proof.
  unfold NSEC_PER_SEC; intros Hs Hn; split; [now exists s, n|]; unfold tspec_ns.
  rewrite sec_pack, nsec_pack by (assumption || unfold s32; lia); reflexivity.
Qed.

Lemma tspec_set s n : 0 <= n < NSEC_PER_SEC -> tspec_range (s * NSEC_PER_SEC + n) ->
  Tspec.ktime_set s n = s * 2 ^ 32 + n /\ s32 s.
Proof.
  unfold tspec_range, NSEC_PER_SEC; intros Hn R; assert (S : s32 s) by (unfold s32; lia).
  split; [|exact S]; unfold Tspec.ktime_set; rewrite !swrap_small by (unfold s32 in S; lia); now apply tv_pack.
Qed.

Lemma tspec_add s1 n1 s2 n2 (s := s1 + s2) (n := n1 + n2) :
  0 <= n1 < NSEC_PER_SEC -> 0 <= n2 < NSEC_PER_SEC -> tspec_range (s * NSEC_PER_SEC + n) ->
  exists s' n', Tspec.ktime_add (s1 * 2 ^ 32 + n1) (s2 * 2 ^ 32 + n2) = s' * 2 ^ 32 + n' /\
    s32 s' /\ 0 <= n' < NSEC_PER_SEC /\ s' * NSEC_PER_SEC + n' = s * NSEC_PER_SEC + n.
Proof.
  unfold tspec_range, NSEC_PER_SEC; intros H1 H2 R; unfold Tspec.ktime_add.
  replace (s1 * 2 ^ 32 + n1 + (s2 * 2 ^ 32 + n2)) with (s * 2 ^ 32 + n) by (unfold s, n; lia).
  assert (N : Tspec.nsec (swrap 64 (s * 2 ^ 32 + n)) = n).
  { unfold Tspec.nsec; rewrite swrap_swrap32; apply nsec_pack; unfold s32, n; lia. }
  rewrite N; destruct (n >=? NSEC_PER_SEC) eqn:C; unfold NSEC_PER_SEC in *; zbool.
  - exists (s + 1), (n - 1000000000); assert (s32 (s + 1)) by (unfold s32, n in *; lia).
    split; [|split; [assumption|unfold n in *; lia]]; rewrite swrap_add by lia; replace (wrap 32 (- (1000000000))) with (2 ^ 32 - 1000000000) by reflexivity.
    unfold s32, n in *; rewrite swrap_small; lia.
  - exists s, n; assert (s32 s) by (unfold s32, n in *; lia).
    split; [|split; [assumption|unfold n in *; lia]]; unfold s32, n in *; apply swrap_small; lia.
Qed.

Lemma tspec_sub s1 n1 s2 n2 (s := s1 - s2) (n := n1 - n2) :
  0 <= n1 < NSEC_PER_SEC -> 0 <= n2 < NSEC_PER_SEC -> tspec_range (s * NSEC_PER_SEC + n) ->
  exists s' n', Tspec.ktime_sub (s1 * 2 ^ 32 + n1) (s2 * 2 ^ 32 + n2) = s' * 2 ^ 32 + n' /\
    s32 s' /\ 0 <= n' < NSEC_PER_SEC /\ s' * NSEC_PER_SEC + n' = s * NSEC_PER_SEC + n.
Proof.
  unfold tspec_range, NSEC_PER_SEC; intros H1 H2 R; unfold Tspec.ktime_sub.
  replace (s1 * 2 ^ 32 + n1 - (s2 * 2 ^ 32 + n2)) with (s * 2 ^ 32 + n) by (unfold s, n; lia).
  assert (N : Tspec.nsec (swrap 64 (s * 2 ^ 32 + n)) = n).
  { unfold Tspec.nsec; rewrite swrap_swrap32; apply nsec_pack; unfold s32, n; lia. }
  rewrite N; destruct (n <? 0) eqn:C; zbool.
  - assert (S : s32 (s - 1)) by (unfold s32, n in *; lia).
    exists (s - 1), (n + 1000000000); split; [|split; [exact S|unfold n in *; lia]].
    assert (E : swrap 64 (s * 2 ^ 32 + n) = (s - 1) * 2 ^ 32 + (2 ^ 32 + n)) by (unfold s32, n in *; rewrite swrap_small; lia).
    rewrite E, sec_pack by (exact S || (unfold n in *; lia)); unfold NSEC_PER_SEC.
    rewrite swrap_small by (unfold n in *; lia); apply tv_pack; unfold NSEC_PER_SEC, n in *; [exact S|lia].
  - exists s, n; assert (s32 s) by (unfold s32, n in *; lia).
    split; [|split; [assumption|unfold n in *; lia]]; unfold s32, n in *; apply swrap_small; lia.
Qed.

Lemma divns_loop k : forall fuel s x, 0 < x < 2 ^ (32 + Z.of_nat k) -> (k <= fuel)%nat ->
  exists j, while fuel Tspec.divns_cond Tspec.divns_body (s, x) = Some (s + j, x / 2 ^ j) /\
    0 <= j /\ 0 < x / 2 ^ j < 2 ^ 32 /\ (j = 0 \/ 2 ^ 31 <= x / 2 ^ j).
Proof.
  assert (Stop : forall fuel s x, 0 < x < 2 ^ 32 ->
    while fuel Tspec.divns_cond Tspec.divns_body (s, x) = Some (s, x)).
  { intros fuel s x Hx; assert (C : Tspec.divns_cond (s, x) = false)
      by (unfold Tspec.divns_cond; cbn [snd]; rewrite shiftr_div, Z.div_small by lia; reflexivity).
    destruct fuel; cbn [while]; now rewrite C. }
  induction k as [|k IH]; intros fuel s x Hx Hf.
  - exists 0; rewrite Stop by (replace (2 ^ 32) with (2 ^ (32 + Z.of_nat 0)) by reflexivity; lia).
    rewrite Z.pow_0_r, Z.div_1_r, Z.add_0_r; replace (32 + Z.of_nat 0) with 32 in Hx by reflexivity; auto with zarith.
  - destruct (Z.lt_ge_cases x (2 ^ 32)) as [L|L].
    { exists 0; rewrite Stop by lia; rewrite Z.pow_0_r, Z.div_1_r, Z.add_0_r; auto with zarith. }
    destruct fuel as [|fuel]; [lia|]; cbn [while].
    assert (C : Tspec.divns_cond (s, x) = true).
    { unfold Tspec.divns_cond, tst; cbn [snd]; rewrite shiftr_div by lia.
      assert (1 <= x / 2 ^ 32) by (apply Z.div_le_lower_bound; lia); destruct (Z.eqb_spec (x / 2 ^ 32) 0); [lia|reflexivity]. }
    rewrite C; unfold Tspec.divns_body at 2; cbn [fst snd]; rewrite shiftr_div by lia.
    assert (E : 2 ^ (32 + Z.of_nat (S k)) = 2 * 2 ^ (32 + Z.of_nat k)) by (apply (pow2_split 1); lia).
    assert (B : 2 ^ 31 <= x / 2 ^ 1) by (apply Z.div_le_lower_bound; lia).
    destruct (IH fuel (s + 1) (x / 2 ^ 1)) as (j & W & Hj & Q & D); [split; [lia|apply Z.div_lt_upper_bound; lia]|lia|].
    assert (E' : x / 2 ^ 1 / 2 ^ j = x / 2 ^ (1 + j)) by (rewrite Z.pow_add_r, <- Z.div_div by lia; reflexivity).
    exists (1 + j); rewrite E' in *; rewrite W, Z.add_assoc; split; [reflexivity|]; split; [lia|]; split; [lia|right].
    destruct D as [-> |]; [|assumption]; rewrite <- E'; now rewrite Z.pow_0_r, Z.div_1_r.
Qed.

(** Dividing both operands by a power of two first makes the quotient larger,
    by at most one as long as it stays below the divisor. *)
Lemma shifted_quotient d v s (v' := v / 2 ^ s) : 0 <= d -> 0 <= s -> 0 < v' -> (s = 0 \/ d / v + 1 < v') ->
  d / v <= d / 2 ^ s / v' <= d / v + 1.
Proof.
  intros Hd Hs Hv B; pose proof (pow2_pos s Hs) as P.
  assert (V : v = 2 ^ s * v' + v mod 2 ^ s) by (unfold v'; apply Z.div_mod; lia).
  pose proof (Z.mod_pos_bound v (2 ^ s) P) as M; assert (0 < v) by nia.
  set (q := d / v) in *; set (r := d mod v).
  assert (D : d = v * q + r) by (apply Z.div_mod; lia).
  assert (R : 0 <= r < v) by (apply Z.mod_pos_bound; lia).
  assert (Q : 0 <= q) by (apply Z.div_pos; lia).
  destruct B as [-> |B].
  { assert (v' = v) as E by (unfold v'; now rewrite Z.pow_0_r, Z.div_1_r); rewrite Z.pow_0_r, Z.div_1_r, E; unfold q; lia. }
  split.
  - apply Z.div_le_lower_bound; [lia|]; apply Z.div_le_lower_bound; [lia|]; nia.
  - assert (d / 2 ^ s / v' < q + 2); [|lia].
    apply Z.div_lt_upper_bound; [lia|]; apply Z.div_lt_upper_bound; [lia|].
    set (e := v mod 2 ^ s) in *; nia.
Qed.

Lemma tspec_divns fuel d v : normal d -> 0 <= tspec_ns d -> 0 < v < 2 ^ 63 -> (31 <= fuel)%nat ->
  tspec_ns d / v + 1 < 2 ^ 32 ->
  exists q, Tspec.ktime_divns fuel d v = Some q /\ tspec_ns d / v <= q <= tspec_ns d / v + 1.
Proof.
  intros (s & n & -> & Hs & Hn) D V F L; destruct (tspec_of s n Hs Hn) as [_ E]; rewrite E in *.
  destruct (divns_loop 31 fuel 0 v) as (j & W & Hj & Hv & B); [exact V|exact F|]; rewrite Z.add_0_l in W.
  unfold Tspec.ktime_divns; rewrite W; eexists; split; [reflexivity|].
  unfold Tspec.ktime_to_ns; fold (tspec_ns (s * 2 ^ 32 + n)); rewrite E.
  set (d := s * NSEC_PER_SEC + n) in *; unfold s32, NSEC_PER_SEC in *.
  assert (Hd : 0 <= d < 2 ^ 31 * 1000000000) by (split; [assumption|unfold d; lia]).
  rewrite (wrap_small 64 d), (wrap_small 32 (v / 2 ^ j)), shiftr_div by lia.
  assert (Q : d / v <= d / 2 ^ j / (v / 2 ^ j) <= d / v + 1).
  { apply shifted_quotient; [lia|exact Hj|lia|]; destruct B as [B|B]; [now left|].
    destruct (Z.eq_dec j 0) as [|Nj]; [now left|]; right.
    assert (2 ^ 32 <= v).
    { assert (2 * 2 ^ 31 <= 2 ^ j * (v / 2 ^ j)) by (apply Z.mul_le_mono_nonneg; [lia|pose proof (pow2_le 1 j); lia|lia|lia]).
      pose proof (Z.mul_div_le v (2 ^ j) ltac:(apply pow2_pos; lia)); lia. }
    assert (d / v < 500000000) by (apply Z.div_lt_upper_bound; nia); lia. }
  assert (0 <= d / v) by (apply Z.div_pos; lia); rewrite wrap_small by lia; exact Q.
Qed.

#[export] Instance tspec_laws : KtimeLaws tspec.
Proof.
  refine {| valid := normal; ns := tspec_ns; in_range := tspec_range |};
    cbn [ktime_set ktime_add ktime_sub ktime_add_ns ktime_to_ns ktime_divns BITS_PER_LONG tspec].
  - unfold tspec_range; intros; lia.
  - intros a (s & n & -> & Hs & Hn); rewrite (proj2 (tspec_of s n Hs Hn)); unfold tspec_range, s32, NSEC_PER_SEC in *; lia.
  - unfold tspec_range, NSEC_PER_SEC; lia.
  - unfold tspec_range, NSEC_PER_SEC; intros; lia.
  - intros a b (s1 & n1 & -> & H1 & N1) (s2 & n2 & -> & H2 & N2).
    rewrite (proj2 (tspec_of s1 n1 H1 N1)), (proj2 (tspec_of s2 n2 H2 N2)); unfold NSEC_PER_SEC in *.
    apply Bool.eq_iff_eq_true; rewrite !Z.ltb_lt; lia.
  - change 0 with (0 * 2 ^ 32 + 0) at 1 2; destruct (tspec_of 0 0) as [A B]; [unfold s32; lia|unfold NSEC_PER_SEC; lia|]; split; [exact A|exact B].
  - intros s n _ Hn R; destruct (tspec_set s n Hn R) as [-> S]; now apply tspec_of.
  - intros a b (s1 & n1 & -> & H1 & N1) (s2 & n2 & -> & H2 & N2).
    rewrite (proj2 (tspec_of s1 n1 H1 N1)), (proj2 (tspec_of s2 n2 H2 N2)); intros R.
    destruct (tspec_add s1 n1 s2 n2 N1 N2) as (s & n & -> & S & N & E); [unfold tspec_range, NSEC_PER_SEC in *; lia|].
    destruct (tspec_of s n S N) as [A ->]; split; [exact A|unfold NSEC_PER_SEC in *; lia].
  - intros a b (s1 & n1 & -> & H1 & N1) (s2 & n2 & -> & H2 & N2).
    rewrite (proj2 (tspec_of s1 n1 H1 N1)), (proj2 (tspec_of s2 n2 H2 N2)); intros R.
    destruct (tspec_sub s1 n1 s2 n2 N1 N2) as (s & n & -> & S & N & E); [unfold tspec_range, NSEC_PER_SEC in *; lia|].
    destruct (tspec_of s n S N) as [A ->]; split; [exact A|unfold NSEC_PER_SEC in *; lia].
  - intros a v (s1 & n1 & -> & H1 & N1) Hv Rv; rewrite (proj2 (tspec_of s1 n1 H1 N1)); intros R.
    assert (T : exists s n, (if v <? NSEC_PER_SEC then v else Tspec.ktime_set (swrap 32 (v / NSEC_PER_SEC)) (v mod NSEC_PER_SEC))
      = s * 2 ^ 32 + n /\ 0 <= n < NSEC_PER_SEC /\ s * NSEC_PER_SEC + n = v).
    { destruct (v <? NSEC_PER_SEC) eqn:C; zbool; [exists 0, v; lia|].
      exists (v / NSEC_PER_SEC), (v mod NSEC_PER_SEC); pose proof (Z.mod_pos_bound v NSEC_PER_SEC ltac:(reflexivity)) as M.
      pose proof (Z.div_mod v NSEC_PER_SEC ltac:(discriminate)) as D; assert (E : v / NSEC_PER_SEC * NSEC_PER_SEC + v mod NSEC_PER_SEC = v) by lia.
      destruct (tspec_set (v / NSEC_PER_SEC) (v mod NSEC_PER_SEC) M) as [P S]; [now rewrite E|].
      rewrite swrap_small by (unfold s32 in S; lia); auto. }
    unfold Tspec.ktime_add_ns; destruct T as (s2 & n2 & -> & N2 & E2).
    destruct (tspec_add s1 n1 s2 n2 N1 N2) as (s & n & -> & S & N & E); [unfold tspec_range, NSEC_PER_SEC in *; lia|].
    destruct (tspec_of s n S N) as [A ->]; split; [exact A|unfold NSEC_PER_SEC in *; lia].
  - intros a (s & n & -> & Hs & Hn) D; unfold Tspec.ktime_to_ns; fold (tspec_ns (s * 2 ^ 32 + n)).
    apply wrap_small; split; [exact D|]; rewrite (proj2 (tspec_of s n Hs Hn)); unfold s32, NSEC_PER_SEC in *; lia.
  - intros; now apply tspec_divns.
Defined.
