(* ===== verification/Hrtimer.v ===== *)
(** * High-resolution timers: the code

    Models [kernel/hrtimer.c] and [include/linux/hrtimer.h] on top of the
    red-black trees.  A [struct hrtimer *] is the address of its [node], the
    first member, so [rb_entry] is the identity; the other members are in the
    map [timers].  The [struct rb_root] in a base has the address of the base.
    The functions are modelled as they run under the lock of the base.

    Parameters: the representation of time [K]; [SMP] is [CONFIG_SMP],
    [LOW_RES] is [CONFIG_TIME_LOW_RES]; [get_time i] and [get_softirq_time i]
    are what the clock functions of the base with index [i] return, the latter
    [None] when the base has none; [this_cpu i] is the base with index [i] of
    the current CPU; [fuel] bounds the loops; [call] runs a callback; [xtime]
    and [wall_to_monotonic] are the clocks of [kernel/timer.c], as seconds and
    nanoseconds. *)

#[local] Set Warnings "-notation-incompatible-prefix".
From S2P Require Import Prelude Rbtree Ktime.
From stdpp Require Import gmap.
#[local] Open Scope Z_scope.

Inductive hrtimer_mode := HRTIMER_ABS | HRTIMER_REL.
Definition HRTIMER_NORESTART : Z := 0.
Definition HRTIMER_RESTART : Z := 1.
Definition CLOCK_REALTIME : Z := 0.
Definition CLOCK_MONOTONIC : Z := 1.
Definition MAX_HRTIMER_BASES : nat := 2.

Record hrtimer := mktimer { expires : Z; function : Z; base : Z }.
Record hrtimer_base := mkbase {
  index : Z; first : Z; resolution : Z; curr_timer : Z; softirq_time : Z }.

(** [fired] records the timers whose callbacks have been called. *)
Record hstate := mkh {
  trees : store; timers : gmap Z hrtimer; bases : gmap Z hrtimer_base; fired : list Z }.

Definition set_trees (m : store) (s : hstate) : hstate := mkh m (timers s) (bases s) (fired s).
Definition set_timers (t : gmap Z hrtimer) (s : hstate) : hstate := mkh (trees s) t (bases s) (fired s).
Definition set_bases (b : gmap Z hrtimer_base) (s : hstate) : hstate := mkh (trees s) (timers s) b (fired s).
Definition log_fired (a : Z) (s : hstate) : hstate := mkh (trees s) (timers s) (bases s) (fired s ++ [a]).

(** ** Accesses *)

Definition on_tree {A} (p : ST store A) : ST hstate A := fun s =>
  match p (trees s) with Some (a, m) => Some (a, set_trees m s) | None => None end.
Definition timer_at (a : Z) : ST hstate hrtimer := fun s =>
  match timers s !! a with Some t => Some (t, s) | None => None end.
Definition base_at (b : Z) : ST hstate hrtimer_base := fun s =>
  match bases s !! b with Some r => Some (r, s) | None => None end.
Definition put_timer (a : Z) (t : hrtimer) : ST hstate unit := modify (fun s => set_timers (<[a := t]> (timers s)) s).
Definition put_base (b : Z) (r : hrtimer_base) : ST hstate unit := modify (fun s => set_bases (<[b := r]> (bases s)) s).

Definition get_expires (a : Z) : ST hstate Z := t <- timer_at a ;; ret (expires t).
Definition set_expires (a e : Z) : ST hstate unit :=
  t <- timer_at a ;; put_timer a (mktimer e (function t) (base t)).
Definition set_timer_base (a b : Z) : ST hstate unit :=
  t <- timer_at a ;; put_timer a (mktimer (expires t) (function t) b).
Definition get_first (b : Z) : ST hstate Z := r <- base_at b ;; ret (first r).
Definition set_first (b p : Z) : ST hstate unit :=
  r <- base_at b ;; put_base b (mkbase (index r) p (resolution r) (curr_timer r) (softirq_time r)).
Definition set_softirq_time (b t : Z) : ST hstate unit :=
  r <- base_at b ;; put_base b (mkbase (index r) (first r) (resolution r) (curr_timer r) t).

Section Hrtimer.
Context {K : Ktime} (SMP LOW_RES : bool).
Context (get_time : Z -> Z) (get_softirq_time : Z -> option Z) (this_cpu : Z -> Z).
Context (call : Z -> Z -> ST hstate Z) (fuel : nat) (xtime wall_to_monotonic : Z * Z).

Definition set_curr_timer (b t : Z) : ST hstate unit :=
  if SMP then
    r <- base_at b ;; put_base b (mkbase (index r) (first r) (resolution r) t (softirq_time r))
  else ret tt.

(** Without another CPU to change it, a timer without base is never locked. *)
Definition lock_hrtimer_base (timer : Z) : ST hstate Z :=
  t <- timer_at timer ;; if SMP && negb (tst (base t)) then lift None else ret (base t).

Definition switch_hrtimer_base (timer b : Z) : ST hstate Z :=
  if SMP then
    r <- base_at b ;;
    let new_base := this_cpu (index r) in
    if b =? new_base then ret new_base
    else if curr_timer r =? timer then ret b
    else set_timer_base timer NULL ;;; set_timer_base timer new_base ;;; ret new_base
  else ret b.

(** ** [hrtimer_forward] *)

Definition hrtimer_forward (timer now interval : Z) : ST hstate Z :=
  t <- timer_at timer ;;
  let delta := ktime_sub now (expires t) in
  if delta <? 0 then ret 0
  else
    r <- base_at (base t) ;;
    let interval := if interval <? resolution r then resolution r else interval in
    if delta >=? interval then
      let incr := swrap 64 (ktime_to_ns interval) in
      orun <- lift (ktime_divns fuel delta incr) ;;
      let e := ktime_add_ns (expires t) (wrap 64 (incr * orun)) in
      set_expires timer e ;;;
      if e >? now then ret orun
      else set_expires timer (ktime_add e interval) ;;; ret (wrap BITS_PER_LONG (orun + 1))
    else set_expires timer (ktime_add (expires t) interval) ;;; ret 1.

(** ** The queue *)

(** The place in the tree: [parent] and [link]. *)
Fixpoint enqueue_walk (n : nat) (e parent : Z) (l : link) : ST hstate (Z * link) :=
  p <- on_tree (load_link l) ;;
  if tst p then
    match n with
    | O => lift None
    | S n =>
        entry <- get_expires p ;;
        enqueue_walk n e p (if e <? entry then left_link p else right_link p)
    end
  else ret (parent, l).

Definition enqueue_hrtimer (timer b : Z) : ST hstate unit :=
  e <- get_expires timer ;;
  place <- enqueue_walk fuel e NULL (root_link b) ;;
  on_tree (rb_link_node timer (fst place) (snd place) ;;; rb_insert_color fuel timer b) ;;;
  f <- get_first b ;;
  earlier <- (if tst f then e' <- get_expires f ;; ret (e <? e') else ret true) ;;
  when earlier (set_first b timer).

Definition __remove_hrtimer (timer b : Z) : ST hstate unit :=
  f <- get_first b ;;
  when (f =? timer) (next <- on_tree (rb_next fuel timer) ;; set_first b next) ;;;
  on_tree (rb_erase fuel timer b) ;;;
  on_tree (rb_set_parent timer timer).

Definition hrtimer_active (timer : Z) : ST hstate bool :=
  p <- on_tree (rb_parent timer) ;; ret (negb (p =? timer)).

Definition remove_hrtimer (timer b : Z) : ST hstate Z :=
  active <- hrtimer_active timer ;;
  if active then __remove_hrtimer timer b ;;; ret 1 else ret 0.

Definition hrtimer_start (timer tim : Z) (mode : hrtimer_mode) : ST hstate Z :=
  b <- lock_hrtimer_base timer ;;
  r <- remove_hrtimer timer b ;;
  new_base <- switch_hrtimer_base timer b ;;
  old <- base_at b ;;
  new <- base_at new_base ;;
  let tim := match mode with
             | HRTIMER_ABS => tim
             | HRTIMER_REL =>
                 let tim := ktime_add tim (get_time (index new)) in
                 if LOW_RES then ktime_add tim (resolution old) else tim
             end in
  set_expires timer tim ;;;
  enqueue_hrtimer timer new_base ;;;
  ret r.

Definition hrtimer_try_to_cancel (timer : Z) : ST hstate Z :=
  b <- lock_hrtimer_base timer ;;
  r <- base_at b ;;
  if curr_timer r =? timer then ret (-1) else remove_hrtimer timer b.

Fixpoint hrtimer_cancel (n : nat) (timer : Z) : ST hstate Z :=
  r <- hrtimer_try_to_cancel timer ;;
  if r >=? 0 then ret r
  else match n with O => lift None | S n => hrtimer_cancel n timer end.

Definition hrtimer_get_remaining (timer : Z) : ST hstate Z :=
  b <- lock_hrtimer_base timer ;;
  t <- timer_at timer ;;
  r <- base_at (base t) ;;
  ret (ktime_sub (expires t) (get_time (index r))).

(** The loop over the bases of this CPU; [i] counts down to 0. *)
Fixpoint next_event_loop (i : nat) (mindelta : Z) : ST hstate Z :=
  match i with
  | O => ret mindelta
  | S i' =>
      let b := this_cpu (Z.of_nat (MAX_HRTIMER_BASES - i)) in
      r <- base_at b ;;
      if tst (first r) then
        e <- get_expires (first r) ;;
        let delta := ktime_sub e (get_time (index r)) in
        next_event_loop i' (if delta <? mindelta then delta else mindelta)
      else next_event_loop i' mindelta
  end.
Definition hrtimer_get_next_event : ST hstate Z :=
  mindelta <- next_event_loop MAX_HRTIMER_BASES KTIME_MAX ;;
  ret (if mindelta <? 0 then 0 else mindelta).

Definition hrtimer_init (timer clock_id : Z) (mode : hrtimer_mode) : ST hstate unit :=
  on_tree (put_node timer (mknode 0 0 0)) ;;; put_timer timer (mktimer 0 0 0) ;;;
  let clock_id := match mode with
                  | HRTIMER_ABS => clock_id
                  | HRTIMER_REL => if clock_id =? CLOCK_REALTIME then CLOCK_MONOTONIC else clock_id
                  end in
  set_timer_base timer (this_cpu clock_id) ;;;
  on_tree (rb_set_parent timer timer).

(** ** Expiry *)

(** One timer that has expired. *)
Definition expire_one (b timer : Z) : ST hstate unit :=
  t <- timer_at timer ;;
  set_curr_timer b timer ;;;
  __remove_hrtimer timer b ;;;
  modify (log_fired timer) ;;;
  restart <- call (function t) timer ;;
  when (negb (restart =? HRTIMER_NORESTART))
    (active <- hrtimer_active timer ;;
     (if active then lift None else ret tt) ;;;
     enqueue_hrtimer timer b).

Fixpoint expire_loop (n : nat) (b : Z) : ST hstate unit :=
  node <- get_first b ;;
  if tst node then
    r <- base_at b ;;
    e <- get_expires node ;;
    if softirq_time r <=? e then ret tt
    else match n with O => lift None | S n => expire_one b node ;;; expire_loop n b end
  else ret tt.

Definition run_hrtimer_queue (n : nat) (b : Z) : ST hstate unit :=
  r <- base_at b ;;
  if tst (first r) then
    match get_softirq_time (index r) with Some t => set_softirq_time b t | None => ret tt end ;;;
    expire_loop n b ;;;
    set_curr_timer b NULL
  else ret tt.

Definition hrtimer_get_softirq_time : ST hstate unit :=
  let xtim := timespec_to_ktime (fst xtime) (snd xtime) in
  let tomono := timespec_to_ktime (fst wall_to_monotonic) (snd wall_to_monotonic) in
  set_softirq_time (this_cpu CLOCK_REALTIME) xtim ;;;
  set_softirq_time (this_cpu CLOCK_MONOTONIC) (ktime_add xtim tomono).

(** [n] bounds the number of callbacks of each base. *)
Definition hrtimer_run_queues (n : nat) : ST hstate unit :=
  hrtimer_get_softirq_time ;;;
  run_hrtimer_queue n (this_cpu 0) ;;;
  run_hrtimer_queue n (this_cpu 1).

(** [it_real_fn] of [kernel/itimer.c]; [it_real_incr] is the interval of the
    process the timer belongs to, [send_group_sig_info] sends its signal. *)
Definition it_real_fn (it_real_incr : Z -> Z) (send_group_sig_info : Z -> ST hstate unit) (timer : Z) : ST hstate Z :=
  send_group_sig_info timer ;;;
  if tst (it_real_incr timer) then
    t <- timer_at timer ;;
    r <- base_at (base t) ;;
    hrtimer_forward timer (softirq_time r) (it_real_incr timer) ;;;
    ret HRTIMER_RESTART
  else ret HRTIMER_NORESTART.

(** ** Hotplug *)

Fixpoint migrate_hrtimer_list (n : nat) (old_base new_base : Z) : ST hstate unit :=
  node <- on_tree (rb_first fuel old_base) ;;
  if tst node then
    match n with
    | O => lift None
    | S n =>
        __remove_hrtimer node old_base ;;;
        set_timer_base node new_base ;;;
        enqueue_hrtimer node new_base ;;;
        migrate_hrtimer_list n old_base new_base
    end
  else ret tt.

(** [old i] is the base with index [i] of the CPU that is gone. *)
Definition migrate_hrtimers (n : nat) (old : Z -> Z) : ST hstate unit :=
  let one i :=
    r <- base_at (old i) ;;
    if tst (curr_timer r) then lift None else migrate_hrtimer_list n (old i) (this_cpu i) in
  one 0 ;;; one 1.
End Hrtimer.
