(* ===== verification/HrtimerForward.v ===== *)
(** * High-resolution timers: forwarding the expiry *)

#[local] Set Warnings "-notation-incompatible-prefix".
From S2P Require Import Prelude Rbtree Ktime Hrtimer.
From stdpp Require Import gmap.
#[local] Open Scope Z_scope.

Section Forward.
Context {K : Ktime} {L : KtimeLaws K}.

Lemma tv64_le a b : valid a -> valid b -> (a <=? b) = (ns a <=? ns b).
Proof. intros A B; rewrite !Z.leb_antisym, (tv64_lt b a) by done; done. Qed.
Lemma tv64_negative a : valid a -> (a <? 0) = (ns a <? 0).
Proof. intros A; destruct zero_ns as [V E]; rewrite (tv64_lt a 0), E by done; done. Qed.

(** The interval that is used: at least the resolution of the clock. *)
Definition step_of (interval res : Z) : Z := if interval <? res then res else interval.

Lemma step_of_valid i r : valid i -> valid r -> valid (step_of i r) /\ ns (step_of i r) = Z.max (ns i) (ns r).
Proof. intros I R; unfold step_of; rewrite (tv64_lt i r) by done; destruct (Z.ltb_spec (ns i) (ns r)); split; try done; lia. Qed.

Lemma run_timer_at s a t : timers s !! a = Some t -> timer_at a s = Some (t, s).
Proof. intros H; unfold timer_at; now rewrite H. Qed.
Lemma run_base_at s b r : bases s !! b = Some r -> base_at b s = Some (r, s).
Proof. intros H; unfold base_at; now rewrite H. Qed.

Definition with_expires (a e : Z) (t : hrtimer) (s : hstate) : hstate :=
  set_timers (<[a := mktimer e (function t) (base t)]> (timers s)) s.
Lemma run_set_expires s a t e : timers s !! a = Some t -> set_expires a e s = Some (tt, with_expires a e t s).
Proof. intros H; unfold set_expires; now rewrite (run_bind_some _ _ _ _ _ (run_timer_at _ _ _ H)). Qed.
Lemma with_expires_twice a e e' t s : with_expires a e' (mktimer e (function t) (base t)) (with_expires a e t s) = with_expires a e' t s.
Proof. unfold with_expires, set_timers; simpl; now rewrite insert_insert_eq. Qed.

(** The number of intervals until the next expiry after [now]. *)
Definition overruns (now e iv : Z) : Z := if now <? e then 0 else (now - e) / iv + 1.

Lemma hrtimer_forward_spec fuel a now interval s t r :
  timers s !! a = Some t -> bases s !! base t = Some r ->
  valid now -> valid (expires t) -> valid interval -> valid (resolution r) ->
  let iv := Z.max (ns interval) (ns (resolution r)) in
  let n := overruns (ns now) (ns (expires t)) iv in
  0 < iv -> in_range (ns now - ns (expires t)) ->
  n < 2 ^ BITS_PER_LONG -> in_range (n * iv) -> in_range (ns (expires t) + n * iv) -> (31 <= fuel)%nat ->
  exists e, valid e /\ ns e = ns (expires t) + n * iv /\
    (ns (expires t) <= ns now -> ns now < ns e <= ns now + iv) /\
    hrtimer_forward fuel a now interval s =
      Some (n, if n =? 0 then s else with_expires a e t s).
Proof.
  intros Ht Hr Vn Ve Vi Vr iv n Piv Rd Ln Rn Re Hf.
  destruct (sub_ns now (expires t) Vn Ve Rd) as [Vd Ed].
  destruct (step_of_valid interval (resolution r) Vi Vr) as [Vs Es]; fold iv in Es.
  unfold hrtimer_forward; rewrite (run_bind_some _ _ _ _ _ (run_timer_at _ _ _ Ht)); cbv zeta.
  rewrite (tv64_negative _ Vd), Ed; unfold n, overruns in *; clear n.
  destruct (Z.ltb_spec (ns now) (ns (expires t))) as [N|N].
  { exists (expires t); destruct (Z.ltb_spec (ns now - ns (expires t)) 0); [|lia].
    split; [done|]; split; [lia|]; split; [lia|done]. }
  destruct (Z.ltb_spec (ns now - ns (expires t)) 0); [lia|].
  rewrite (run_bind_some _ _ _ _ _ (run_base_at _ _ _ Hr)); fold (step_of interval (resolution r)).
  set (d := ns now - ns (expires t)) in *; set (q := d / iv) in *.
  assert (Q : 0 <= q) by (apply Z.div_pos; lia).
  assert (D : d = iv * q + d mod iv) by (apply Z.div_mod; lia); pose proof (Z.mod_pos_bound d iv Piv) as M.
  destruct (Z.eqb_spec (q + 1) 0); [lia|].
  rewrite Z.geb_leb, (tv64_le _ _ Vs Vd), Es, Ed; fold d.
  pose proof (small_range _ Rn) as S64.
  destruct (Z.leb_spec iv d) as [G|G].
  - assert (Incr : swrap 64 (ktime_to_ns (step_of interval (resolution r))) = iv).
    { rewrite to_ns_ns, Es by (done || lia); apply swrap_small; [lia|].
      change (64 - 1) with 63; nia. }
    rewrite Incr; destruct (divns_ns fuel (ktime_sub now (expires t)) iv Vd) as (q' & Eq & Bq); [lia|nia|done|rewrite Ed; fold d q; lia|].
    rewrite Ed in Bq; fold d q in Bq; rewrite Eq, run_bind_lift, wrap_small by nia.
    destruct (add_ns_ns (expires t) (iv * q') Ve) as [V1 E1]; [nia|apply (range_between 0 _ ((q + 1) * iv)); [apply zero_range|done|nia]|
      apply (range_between (ns (expires t)) _ (ns (expires t) + (q + 1) * iv)); [now apply valid_range|done|nia]|].
    set (e1 := ktime_add_ns (expires t) (iv * q')) in *.
    rewrite (run_bind_some _ _ _ _ _ (run_set_expires _ _ _ e1 Ht)), Z.gtb_ltb, (tv64_lt _ _ Vn V1), E1.
    destruct (Z.ltb_spec (ns now) (ns (expires t) + iv * q')) as [A|A].
    + assert (q' = q + 1) as -> by nia; exists e1; split; [done|]; split; [lia|]; split; [lia|]; done.
    + assert (q' = q) as -> by nia.
      destruct (add_ns e1 (step_of interval (resolution r)) V1 Vs) as [V2 E2]; [rewrite E1, Es; eapply (range_between (ns (expires t)) _ (ns (expires t) + (q + 1) * iv)); [now apply valid_range|done|nia]|].
      exists (ktime_add e1 (step_of interval (resolution r))); split; [done|]; rewrite E2, E1, Es; split; [lia|]; split; [lia|].
      assert (H1 : timers (with_expires a e1 t s) !! a = Some (mktimer e1 (function t) (base t))) by apply lookup_insert_eq.
      rewrite (run_bind_some _ _ _ _ _ (run_set_expires _ _ _ _ H1)), with_expires_twice, wrap_small by lia; done.
  - assert (q = 0) as Eq by (apply Z.div_small; lia); rewrite Eq in *.
    destruct (add_ns (expires t) (step_of interval (resolution r)) Ve Vs) as [V2 E2]; [rewrite Es; now replace (ns (expires t) + iv) with (ns (expires t) + (0 + 1) * iv) by lia|].
    exists (ktime_add (expires t) (step_of interval (resolution r))); split; [done|]; rewrite E2, Es; split; [lia|]; split; [lia|].
    rewrite (run_bind_some _ _ _ _ _ (run_set_expires _ _ _ _ Ht)); done.
Qed.
End Forward.
