(* ===== verification/HrtimerQueue.v ===== *)
(** * High-resolution timers: the queue

    The tree of a base refines a list of timers sorted by expiry, the first of
    which is [base->first]; starting and removing timers are insertion into and
    removal from that list. *)

From Stdlib Require Import Sorted.
#[local] Set Warnings "-notation-incompatible-prefix".
From S2P Require Import Prelude Rbtree RbtreeRep RbtreeOps RbtreeInsert RbtreeErase RbtreeSpec RbtreeWalk.
From S2P Require Import Ktime Hrtimer HrtimerForward.
From stdpp Require Import gmap.
#[local] Open Scope Z_scope.

(** ** The search for the place of a new timer *)

Fixpoint descend (f : Z -> Z) (e : Z) (k : list frame) (t : tree) : list frame :=
  match t with
  | E => k
  | T c l a r => if e <? f a then descend f e (mkframe true c a r :: k) l else descend f e (mkframe false c a l :: k) r
  end.

Section Descend.
Context (f : Z -> Z) (e : Z).

Lemma descend_plug t : forall k, plug (descend f e k t) E = plug k t.
Proof. induction t as [|c l IHl a r IHr]; intros k; simpl; [done|]; case_if; [now rewrite IHl|now rewrite IHr]. Qed.

Lemma descend_length t : forall k, (length k <= length (descend f e k t))%nat.
Proof.
  induction t as [|c l IHl a r IHr]; intros k; simpl; [lia|].
  case_if; [specialize (IHl (mkframe true c a r :: k))|specialize (IHr (mkframe false c a l :: k))]; simpl in *; lia.
Qed.

Definition by_key (a b : Z) : Prop := f a <= f b.

Lemma sorted_app xs ys : StronglySorted by_key (xs ++ ys) <->
  StronglySorted by_key xs /\ StronglySorted by_key ys /\ (forall a b, a ∈ xs -> b ∈ ys -> by_key a b).
Proof.
  induction xs as [|x xs IH]; simpl.
  - split; [intros H; split; [constructor|]; split; [done|]; intros a b Ha; inversion Ha|tauto].
  - split.
    + intros [S F]%StronglySorted_inv; apply IH in S as (S1 & S2 & S3); rewrite Forall_app in F; destruct F as [F1 F2].
      split; [now constructor|]; split; [done|]; intros a b [->|Ha]%elem_of_cons Hb; [rewrite Forall_forall in F2; auto|auto].
    + intros (S1 & S2 & S3); apply StronglySorted_inv in S1 as [S1 F1]; constructor.
      * apply IH; split; [done|]; split; [done|]; intros; apply S3; [now right|done].
      * apply Forall_app; split; [done|]; apply Forall_forall; intros b Hb; apply S3; [now left|done].
Qed.

(** What is due no later than [e] stays to the left, the rest to the right. *)
Lemma descend_sides t : forall k, StronglySorted by_key (elts t) ->
  exists xs ys, elts t = xs ++ ys /\ Forall (fun a => f a <= e) xs /\ Forall (fun a => e < f a) ys /\
    lefts (descend f e k t) = lefts k ++ xs /\ rights (descend f e k t) = ys ++ rights k.
Proof.
  induction t as [|c l IHl a r IHr]; intros k S; simpl in *.
  { exists [], []; rewrite !app_nil_r; repeat split; done || apply Forall_nil_2. }
  apply sorted_app in S as (Sl & Sr & Slr); apply StronglySorted_inv in Sr as [Sr Far].
  destruct (e <? f a) eqn:C; zbool.
  - destruct (IHl (mkframe true c a r :: k) Sl) as (xs & ys & El & Fx & Fy & Lk & Rk); simpl in Lk, Rk.
    exists xs, (ys ++ a :: elts r); rewrite El, Lk, Rk; repeat (rewrite <- app_assoc; simpl); split; [done|]; split; [done|].
    split; [|done]; apply Forall_app; split; [done|]; constructor; [done|].
    eapply Forall_impl; [exact Far|]; unfold by_key; simpl; lia.
  - destruct (IHr (mkframe false c a l :: k) Sr) as (xs & ys & Er & Fx & Fy & Lk & Rk); simpl in Lk, Rk.
    exists (elts l ++ a :: xs), ys; rewrite Er, Lk, Rk; repeat (rewrite <- app_assoc; simpl); split; [done|].
    split; [|done]; apply Forall_app; split; [|now constructor].
    apply Forall_forall; intros b Hb; specialize (Slr b a Hb ltac:(now left)); unfold by_key in Slr; lia.
Qed.
End Descend.

Lemma run_on_tree {A} (p : ST store A) s a m : p (trees s) = Some (a, m) -> on_tree p s = Some (a, set_trees m s).
Proof. intros H; unfold on_tree; now rewrite H. Qed.
Lemma run_on_tree_read {A} (p : ST store A) s a : p (trees s) = Some (a, trees s) -> on_tree p s = Some (a, s).
Proof. intros H; rewrite (run_on_tree _ _ _ _ H); now destruct s. Qed.

Definition exp_of (s : hstate) (a : Z) : Z := match timers s !! a with Some t => expires t | None => 0 end.

Lemma run_get_expires s a : is_Some (timers s !! a) -> get_expires a s = Some (exp_of s a, s).
Proof.
  intros [t H]; unfold get_expires, exp_of; rewrite (run_bind_some _ _ _ _ _ (run_timer_at _ _ _ H)), H; done.
Qed.

Lemma load_link_ok m root k t : holds m root (plug k t) -> load_link (hole_link root k) m = Some (ptr t, m).
Proof.
  intros H; destruct k as [|[[] c a s] k]; simpl.
  - now apply run_get_root, (proj1 H).
  - destruct (cell_at _ _ _ k c t a s _ (tree_at_self _ _ k (T c t a s) H)) as (G & _ & A); eapply run_get_left; [now apply good_ne|exact A].
  - destruct (cell_at _ _ _ k c s a t _ (tree_at_self _ _ k (T c s a t) H)) as (G & _ & A); eapply run_get_right; [now apply good_ne|exact A].
Qed.

Lemma enqueue_walk_ok s b e t : forall k n,
  holds (trees s) b (plug k t) -> (forall a, a ∈ elts t -> is_Some (timers s !! a)) ->
  (length (descend (exp_of s) e k t) <= n + length k)%nat ->
  enqueue_walk n e (pa k) (hole_link b k) s =
    Some ((pa (descend (exp_of s) e k t), hole_link b (descend (exp_of s) e k t)), s).
Proof.
  induction t as [|c l IHl a r IHr]; intros k n H A Hn.
  all: pose proof (run_on_tree_read _ _ _ (load_link_ok _ _ _ _ H)) as Ld.
  - destruct n; cbn [enqueue_walk]; rewrite (run_bind_some _ _ _ _ _ Ld); done.
  - assert (G : good a) by exact (good_at _ _ _ _ _ _ _ _ _ (tree_at_self _ _ _ _ H)).
    assert (Ea : is_Some (timers s !! a)) by (apply A; simpl; set_solver).
    cbn [descend] in *; destruct n as [|n].
    { exfalso; revert Hn; case_if; intros Hn;
        [pose proof (descend_length (exp_of s) e l (mkframe true c a r :: k))|pose proof (descend_length (exp_of s) e r (mkframe false c a l :: k))];
        simpl in *; lia. }
    cbn [enqueue_walk]; rewrite (run_bind_some _ _ _ _ _ Ld); cbn [ptr]; rewrite (tst_good a G).
    rewrite (run_bind_some _ _ _ _ _ (run_get_expires _ _ Ea)).
    case_if.
    + apply (IHl (mkframe true c a r :: k) n); [exact H|intros; apply A; simpl; set_solver|simpl; lia].
    + apply (IHr (mkframe false c a l :: k) n); [exact H|intros; apply A; simpl; set_solver|simpl; lia].
Qed.

(** ** The abstract queue *)

Definition sorted_queue (s : hstate) (xs : list Z) : Prop := StronglySorted (by_key (exp_of s)) xs.

(** [b] holds the timers [xs], in this order. *)
Definition queue_ok (s : hstate) (b : Z) (xs : list Z) : Prop :=
  exists t r, holds (trees s) b t /\ redblack t /\ elts t = xs /\
    bases s !! b = Some r /\ first r = first_of xs /\
    (forall a, a ∈ xs -> is_Some (timers s !! a)) /\ sorted_queue s xs.

Definition with_first (p : Z) (r : hrtimer_base) : hrtimer_base :=
  mkbase (index r) p (resolution r) (curr_timer r) (softirq_time r).

(** Nothing but the nodes [X], the tree and [first] of [b] differs. *)
Definition only_queue (b : Z) (X : list Z) (s s' : hstate) : Prop :=
  elsewhere X b (trees s) (trees s') /\ timers s' = timers s /\ fired s' = fired s /\
  (forall b', b' <> b -> bases s' !! b' = bases s !! b') /\
  (forall r, bases s !! b = Some r -> exists p, bases s' !! b = Some (with_first p r)).

Definition fuel_for (fuel : nat) (xs : list Z) : Prop := (2 * Nat.log2 (S (length xs)) <= fuel)%nat.

Lemma first_of_app ys zs : ys <> [] -> first_of (ys ++ zs) = first_of ys.
Proof. now destruct ys. Qed.

Lemma exp_of_same s s' a : timers s' = timers s -> exp_of s' a = exp_of s a.
Proof. intros E; unfold exp_of; now rewrite E. Qed.

Lemma sorted_same s s' xs : timers s' = timers s -> sorted_queue s xs -> sorted_queue s' xs.
Proof.
  intros Et; unfold sorted_queue; induction 1 as [|a l S IH F]; constructor; [done|].
  eapply Forall_impl; [exact F|]; unfold by_key; intros x; now rewrite !(exp_of_same s s') by done.
Qed.

Lemma run_get_first s b r : bases s !! b = Some r -> get_first b s = Some (first r, s).
Proof. intros H; unfold get_first; now rewrite (run_bind_some _ _ _ _ _ (run_base_at _ _ _ H)). Qed.
Lemma run_set_first s b r p : bases s !! b = Some r ->
  set_first b p s = Some (tt, set_bases (<[b := with_first p r]> (bases s)) s).
Proof. intros H; unfold set_first; now rewrite (run_bind_some _ _ _ _ _ (run_base_at _ _ _ H)). Qed.
Lemma with_first_same r : with_first (first r) r = r.
Proof. now destruct r. Qed.

Section Queue.
Context {K : Ktime} (fuel : nat).

(** [a] goes behind the timers that expire no later and before the others. *)
Definition place (s : hstate) (xs ys : list Z) (a : Z) (zs : list Z) : Prop :=
  xs = ys ++ zs /\ Forall (fun c => exp_of s c <= exp_of s a) ys /\ Forall (fun c => exp_of s a < exp_of s c) zs.

Lemma place_sorted s xs ys a zs : sorted_queue s xs -> place s xs ys a zs -> sorted_queue s (ys ++ a :: zs).
Proof.
  intros S (-> & Fy & Fz); apply sorted_app in S as (Sy & Sz & Syz); apply sorted_app; rewrite Forall_forall in Fy, Fz.
  split; [done|]; split.
  - constructor; [done|]; apply Forall_forall; intros c Hc; unfold by_key; specialize (Fz c Hc); lia.
  - intros c d Hc [->|Hd]%elem_of_cons; [now apply Fy|now apply Syz].
Qed.

Lemma enqueue_spec s b xs a nd :
  queue_ok s b xs -> fuel_for fuel xs -> good a -> a ∉ xs -> is_Some (timers s !! a) -> nodes (trees s) !! a = Some nd ->
  exists s' ys zs, enqueue_hrtimer fuel a b s = Some (tt, s') /\ place s xs ys a zs /\
    queue_ok s' b (ys ++ a :: zs) /\ only_queue b (ys ++ a :: zs) s s'.
Proof.
  intros (t & r & H & RB & <- & Hb & Hf & Ht & S) Fu G Na Ta Nd.
  set (k := descend (exp_of s) (exp_of s a) [] t).
  assert (Pk : plug k E = t) by apply descend_plug.
  destruct (descend_sides (exp_of s) (exp_of s a) t [] S) as (ys & zs & Et & Fy & Fz & Lk & Rk); fold k in Lk, Rk; rewrite app_nil_r in Rk; simpl in Lk.
  assert (Hk : holds (trees s) b (plug k E)) by now rewrite Pk.
  assert (Hd : (length k <= fuel)%nat) by (apply path_enough with E; rewrite Pk; done).
  destruct (rb_insert_spec fuel (trees s) b k a nd Hk) as (m' & t' & Run & H' & RB' & _ & Et' & W);
    [now rewrite Pk|done|now rewrite Pk|done|rewrite Pk; unfold fuel_for in Fu; lia|].
  rewrite Lk, Rk in Et'.
  assert (P : place s (elts t) ys a zs) by done.
  assert (S' : sorted_queue s (ys ++ a :: zs)) by (eapply place_sorted; [exact S|exact P]).
  assert (A' : forall c, c ∈ ys ++ a :: zs -> is_Some (timers s !! c)).
  { intros c; rewrite elem_of_app, elem_of_cons; intros [Hc|[->|Hc]]; [|done|]; apply Ht; rewrite Et, elem_of_app; auto. }
  set (s1 := set_trees m' s).
  assert (B1 : bases s1 !! b = Some r) by done.
  unfold enqueue_hrtimer; rewrite (run_bind_some _ _ _ _ _ (run_get_expires _ _ Ta)).
  rewrite (run_bind_some _ _ _ _ _ (enqueue_walk_ok s b (exp_of s a) t [] fuel H Ht ltac:(fold k; simpl; lia))); fold k; cbn [fst snd].
  rewrite (run_bind_some _ _ _ _ _ (run_on_tree _ _ _ _ Run)); fold s1.
  rewrite (run_bind_some _ _ _ _ _ (run_get_first _ _ _ B1)), Hf.
  assert (Early : bind (if tst (first_of (elts t)) then e' <- get_expires (first_of (elts t)) ;; ret (exp_of s a <? e') else ret true)
      (fun earlier => when earlier (set_first b a)) s1
    = when (match ys with [] => true | _ => false end) (set_first b a) s1).
  { rewrite Et; destruct ys as [|y ys]; simpl.
    - destruct zs as [|z zs]; [done|]; unfold first_of; simpl.
      assert (good z) as Gz by (destruct H as (_ & _ & _ & Gt); rewrite Et in Gt; now inversion Gt).
      rewrite (tst_good z Gz), run_bind_bind, (run_bind_some _ _ _ _ _ (run_get_expires s1 z (A' z ltac:(set_solver)))), run_bind_ret.
      rewrite (exp_of_same s s1) by done; now rewrite (proj2 (Z.ltb_lt _ _) (Forall_inv Fz)).
    - unfold first_of; simpl.
      assert (good y) as Gy by (destruct H as (_ & _ & _ & Gt); rewrite Et in Gt; now inversion Gt).
      rewrite (tst_good y Gy), run_bind_bind, (run_bind_some _ _ _ _ _ (run_get_expires s1 y (A' y ltac:(set_solver)))), run_bind_ret.
      rewrite (exp_of_same s s1) by done; now rewrite (proj2 (Z.ltb_ge _ _) (Forall_inv Fy)). }
  rewrite Early; clear Early; rewrite Et' in W.
  destruct ys as [|y ys]; simpl when.
  - eexists _, [], zs; split; [exact (run_set_first _ _ _ a B1)|]; split; [exact P|]; split.
    + exists t', (with_first a r); split; [exact H'|]; split; [exact RB'|]; split; [exact Et'|]; split; [apply lookup_insert_eq|].
      split; [done|]; split; [exact A'|eapply sorted_same; [|exact S']; done].
    + split; [exact W|]; split; [done|]; split; [done|]; split; [intros b' Nb; now apply lookup_insert_ne|].
      intros r0 Hr0; rewrite Hb in Hr0; injection Hr0 as <-; exists a; apply lookup_insert_eq.
  - exists s1, (y :: ys), zs; split; [done|]; split; [exact P|]; split.
    + exists t', r; split; [exact H'|]; split; [exact RB'|]; split; [exact Et'|]; split; [exact B1|].
      split; [rewrite Hf, Et; done|]; split; [exact A'|exact S'].
    + split; [exact W|]; split; [done|]; split; [done|]; split; [done|].
      intros r0 Hr0; exists (first r0); now rewrite with_first_same.
Qed.

(** ** Removal *)

(** [rb_set_parent(&timer->node, &timer->node)] marks a timer that is not queued. *)
Definition idle (s : hstate) (a : Z) : Prop := exists c l r, nodes (trees s) !! a = Some (cell a c l r).

Lemma run_active_idle s a : good a -> idle s a -> hrtimer_active a s = Some (false, s).
Proof.
  intros G (c & l & r & A); unfold hrtimer_active.
  rewrite (run_bind_some _ _ _ _ _ (run_on_tree_read _ _ _ (run_rb_parent _ _ _ _ _ _ (good_ne _ G) A (good_aligned _ G)))).
  now rewrite Z.eqb_refl.
Qed.

Lemma queue_good s b xs a : queue_ok s b xs -> a ∈ xs -> good a.
Proof. intros (t & r & H & _ & <- & _) I; destruct H as (_ & _ & _ & G); rewrite Forall_forall in G; auto. Qed.
Lemma queue_NoDup s b xs : queue_ok s b xs -> NoDup xs.
Proof. intros (t & r & H & _ & <- & _); apply H. Qed.
Lemma queue_sorted s b xs : queue_ok s b xs -> sorted_queue s xs.
Proof. now intros (t & r & _ & _ & _ & _ & _ & _ & S). Qed.
Lemma queue_base s b xs : queue_ok s b xs -> exists r, bases s !! b = Some r /\ first r = first_of xs.
Proof. intros (t & r & _ & _ & _ & Hb & Hf & _); eauto. Qed.
Lemma queue_node s b xs a : queue_ok s b xs -> a ∈ xs -> exists k c l r,
  holds (trees s) b (plug k (T c l a r)) /\ nodes (trees s) !! a = Some (cell (pa k) c (ptr l) (ptr r)) /\ (4 | pa k).
Proof.
  intros (t & r & H & _ & <- & _) I; destruct (elts_split t a I) as (k & c & l & r' & ->); exists k, c, l, r'.
  destruct (cell_at _ _ _ k c l a r' _ (tree_at_self _ _ k (T c l a r') H)) as (G & P & A); done.
Qed.

Lemma run_active_queued s b xs a : queue_ok s b xs -> a ∈ xs -> hrtimer_active a s = Some (true, s).
Proof.
  intros Q I; pose proof (queue_good _ _ _ _ Q I) as G; destruct (queue_node _ _ _ _ Q I) as (k & c & l & r & H & A & P).
  unfold hrtimer_active.
  rewrite (run_bind_some _ _ _ _ _ (run_on_tree_read _ _ _ (run_rb_parent _ _ _ _ _ _ (good_ne _ G) A P))).
  now rewrite (proj2 (Z.eqb_neq _ _) (parent_ne _ _ _ _ _ _ _ H)).
Qed.

(** A queue depends on its own nodes, timers and base only. *)
Lemma queue_frame s s' b xs :
  queue_ok s b xs -> (forall a, a ∈ xs -> nodes (trees s') !! a = nodes (trees s) !! a) ->
  roots (trees s') !! b = roots (trees s) !! b -> bases s' !! b = bases s !! b ->
  (forall a, a ∈ xs -> timers s' !! a = timers s !! a) -> queue_ok s' b xs.
Proof.
  intros (t & r & (R & P & N & G) & RB & <- & Hb & Hf & Ht & S) Hn Hr Hbb Htt; exists t, r.
  split; [split; [now rewrite Hr|]; split; [eapply rep_ext; eauto|done]|]; split; [done|]; split; [done|].
  split; [now rewrite Hbb|]; split; [done|]; split; [intros a I; rewrite Htt; auto|].
  revert Htt S; generalize (elts t); clear; intros xs F; unfold sorted_queue; induction 1 as [|a l S IH L]; constructor.
  - apply IH; intros; apply F; now right.
  - apply Forall_forall; intros c Hc; rewrite Forall_forall in L; specialize (L c Hc); revert L; unfold by_key, exp_of.
    now rewrite !F by (now left || now right).
Qed.

Lemma sorted_drop s ys a zs : sorted_queue s (ys ++ a :: zs) -> sorted_queue s (ys ++ zs).
Proof.
  intros (Sy & Sz & Syz)%sorted_app; apply sorted_app; apply StronglySorted_inv in Sz as [Sz _].
  split; [done|]; split; [done|]; intros c d Hc Hd; apply Syz; [done|now right].
Qed.

Lemma remove_spec s b ys a zs :
  queue_ok s b (ys ++ a :: zs) -> fuel_for fuel (ys ++ a :: zs) ->
  exists s', __remove_hrtimer fuel a b s = Some (tt, s') /\ queue_ok s' b (ys ++ zs) /\ idle s' a /\
    only_queue b (ys ++ a :: zs) s s'.
Proof.
  intros Q Fu; pose proof (queue_NoDup _ _ _ Q) as N.
  assert (G : good a) by (eapply queue_good; [exact Q|set_solver]).
  destruct Q as (t & r & H & RB & Et & Hb & Hf & Ht & S).
  destruct (position t ys a zs (proj1 (proj2 (proj2 H))) Et) as (k & c & l & rr & -> & Ey & Ez).
  unfold fuel_for in Fu; rewrite <- Et in Fu.
  pose proof (rb_next_spec fuel _ _ _ _ _ _ _ H RB Fu) as Nx; rewrite <- Ez in Nx.
  destruct (rb_erase_spec fuel _ _ _ _ _ _ _ H RB Fu) as (m' & t' & Er & H' & RB' & Et' & (l' & r' & A') & W).
  rewrite Et in W; rewrite <- Ez, app_assoc, <- Ey in Et'.
  assert (Pk : (4 | pa k)) by (destruct (cell_at _ _ _ k c l a rr _ (tree_at_self _ _ k (T c l a rr) H)) as (_ & P & _); exact P).
  assert (Na : a ∉ ys ++ zs) by (rewrite <- Permutation_middle in N; now apply NoDup_cons in N as [? _]).
  set (m2 := upd a (cell a c l' r') m').
  pose proof (run_rb_set_parent m' a (pa k) l' r' c (good_ne _ G) A' Pk a (good_aligned _ G)) as Sp; fold m2 in Sp.
  set (r2 := if bool_decide (ys = []) then with_first (first_of zs) r else r).
  set (s2 := mkh m2 (timers s) (<[b := r2]> (bases s)) (fired s)).
  assert (F2 : first r2 = first_of (ys ++ zs)).
  { unfold r2; case_bool_decide as D; [now rewrite D|]; rewrite Hf; destruct ys; done. }
  exists s2; split; [|split; [|split]].
  - unfold __remove_hrtimer; rewrite (run_bind_some _ _ _ _ _ (run_get_first _ _ _ Hb)), Hf.
    assert (First : when (first_of (ys ++ a :: zs) =? a) (next <- on_tree (rb_next fuel a) ;; set_first b next) s
      = Some (tt, set_bases (<[b := r2]> (bases s)) s)).
    { unfold r2; case_bool_decide as D.
      - rewrite D; simpl app; unfold first_of at 1; simpl default; rewrite Z.eqb_refl; cbn [when].
        rewrite (run_bind_some _ _ _ _ _ (run_on_tree_read _ _ _ Nx)); apply run_set_first, Hb.
      - destruct ys as [|y ys]; [done|]; simpl app; unfold first_of; simpl default.
        rewrite (proj2 (Z.eqb_neq y a)) by (intros ->; apply Na; now left); cbn [when].
        rewrite insert_id by done; now destruct s. }
    rewrite (run_bind_some _ _ _ _ _ First), (run_bind_some _ _ _ _ _ (run_on_tree _ (set_bases _ s) _ _ Er)).
    exact (run_on_tree (rb_set_parent a a) (set_trees m' (set_bases (<[b:=r2]> (bases s)) s)) _ _ Sp).
  - exists t', r2; split; [|split; [done|]; split; [done|]; split; [apply lookup_insert_eq|]; split; [done|]; split].
    + destruct H' as (R & P & N' & G'); split; [done|]; split; [|done].
      eapply rep_ext; [|exact P]; intros p Hp; apply lookup_upd_ne; intros <-; now rewrite Et' in Hp.
    + intros c0 Hc; apply Ht; revert Hc; rewrite !elem_of_app, elem_of_cons; tauto.
    + eapply sorted_same; [|eapply sorted_drop; exact S]; done.
  - exists c, l', r'; apply lookup_upd.
  - split; [apply elsewhere_upd; [exact W|set_solver]|]; split; [done|]; split; [done|]; split; [intros b' Nb; now apply lookup_insert_ne|].
    intros r0 Hr0; rewrite Hb in Hr0; injection Hr0 as <-; exists (first r2); unfold s2; simpl; rewrite lookup_insert_eq; f_equal.
    unfold r2; case_bool_decide; [done|now rewrite with_first_same].
Qed.
End Queue.
