(* ===== verification/HrtimerSystem.v ===== *)
(** * High-resolution timers: all queues

    The abstract state is the map [q] from the bases to their queues; [sys q s]
    says that the memory [s] implements it.  Starting, cancelling and migrating
    timers are operations on [q]. *)

From Stdlib Require Import Sorted.
#[local] Set Warnings "-notation-incompatible-prefix".
From S2P Require Import Prelude Rbtree RbtreeRep RbtreeOps RbtreeInsert RbtreeErase RbtreeSpec RbtreeWalk.
From S2P Require Import Ktime Hrtimer HrtimerForward HrtimerQueue.
From stdpp Require Import gmap.
#[local] Open Scope Z_scope.

Abbreviation queues := (gmap Z (list Z)).

(** ** Abstract operations *)

(** Behind the timers that expire no later. *)
Fixpoint insert_by (f : Z -> Z) (a : Z) (xs : list Z) : list Z :=
  match xs with
  | [] => [a]
  | c :: xs => if f a <? f c then a :: c :: xs else c :: insert_by f a xs
  end.
Definition without (a : Z) (xs : list Z) : list Z := base.filter (fun c => c <> a) xs.

Lemma place_insert s xs ys a zs : place s xs ys a zs -> ys ++ a :: zs = insert_by (exp_of s) a xs.
Proof.
  intros (-> & Fy & Fz); induction Fy as [|c ys Hc Fy IH]; simpl.
  - destruct Fz as [|d zs Hd Fz]; simpl; [done|]; now rewrite (proj2 (Z.ltb_lt _ _) Hd).
  - rewrite (proj2 (Z.ltb_ge _ _) Hc); now f_equal.
Qed.

Lemma without_id a xs : a ∉ xs -> without a xs = xs.
Proof.
  unfold without; induction xs as [|c xs IH]; [done|]; intros N; rewrite filter_cons, decide_True by set_solver.
  f_equal; apply IH; set_solver.
Qed.
Lemma without_split a ys zs : NoDup (ys ++ a :: zs) -> without a (ys ++ a :: zs) = ys ++ zs.
Proof.
  intros N; rewrite <- Permutation_middle in N; apply NoDup_cons in N as [N _].
  unfold without; rewrite filter_app, filter_cons, decide_False by tauto.
  rewrite <- filter_app; apply without_id; done.
Qed.
Lemma elem_without a b xs : b ∈ without a xs <-> b <> a /\ b ∈ xs.
Proof. unfold without; now rewrite list_elem_of_filter. Qed.
Lemma elem_insert_by f a b xs : b ∈ insert_by f a xs <-> b = a \/ b ∈ xs.
Proof.
  induction xs as [|c xs IH]; simpl; [set_solver by idtac|]; case_if; rewrite !elem_of_cons, ?IH; tauto.
Qed.

(** ** The invariant *)

Record sys (q : queues) (s : hstate) : Prop := mksys {
  sys_queue : forall b xs, q !! b = Some xs -> queue_ok s b xs;
  sys_home : forall b xs a, q !! b = Some xs -> a ∈ xs -> exists t, timers s !! a = Some t /\ base t = b;
  sys_timer : forall a t, timers s !! a = Some t ->
    good a /\ is_Some (q !! base t) /\ (idle s a \/ exists xs, q !! base t = Some xs /\ a ∈ xs);
  sys_null : q !! NULL = None }.

(** The bases are the same but for [first]. *)
Definition same_bases (s s' : hstate) : Prop :=
  forall b, with_first NULL <$> bases s' !! b = with_first NULL <$> bases s !! b.
#[export] Instance same_bases_equiv : Equivalence same_bases.
Proof. split; [done|now intros s s' H b|intros s1 s2 s3 H H' b; now rewrite H', H]. Qed.

Lemma same_base s s' b r : same_bases s s' -> bases s !! b = Some r -> exists p, bases s' !! b = Some (with_first p r).
Proof.
  intros H R; specialize (H b); rewrite R in H; simpl in H; destruct (bases s' !! b) as [r'|]; [|done].
  exists (first r'); f_equal; destruct r, r'; now injection H as -> -> -> ->.
Qed.

Lemma only_queue_bases b X s s' : is_Some (bases s !! b) -> only_queue b X s s' -> same_bases s s'.
Proof.
  intros [r R] (_ & _ & _ & O & F) b'; destruct (decide (b' = b)) as [->|N]; [|now rewrite O].
  destruct (F r R) as [p ->]; now rewrite R.
Qed.

(** Two queues have no timer in common. *)
Lemma sys_disjoint q s b b' xs ys a : sys q s -> q !! b = Some xs -> q !! b' = Some ys -> a ∈ xs -> a ∈ ys -> b = b'.
Proof.
  intros S Hx Hy Ix Iy; destruct (sys_home _ _ S _ _ _ Hx Ix) as (t & Ht & <-), (sys_home _ _ S _ _ _ Hy Iy) as (t' & Ht' & <-); congruence.
Qed.

Lemma idle_not_queued q s b xs a : sys q s -> idle s a -> q !! b = Some xs -> a ∉ xs.
Proof.
  intros S I Q N; pose proof (sys_queue _ _ S _ _ Q) as Qo.
  pose proof (run_active_idle s a (queue_good _ _ _ _ Qo N) I) as A; rewrite (run_active_queued _ _ _ _ Qo N) in A; done.
Qed.

(** Changing the queue of [b], whose timers are [xs] before and [xs'] after. *)
Lemma sys_change q s s' b xs xs' X :
  sys q s -> q !! b = Some xs -> only_queue b X s s' -> queue_ok s' b xs' ->
  (forall b' ys, b' <> b -> q !! b' = Some ys -> forall a, a ∈ X -> a ∉ ys) ->
  (forall a, a ∈ xs' -> exists t, timers s !! a = Some t /\ base t = b) ->
  (forall a t, timers s !! a = Some t -> a ∈ X -> idle s' a \/ base t = b /\ a ∈ xs') ->
  (forall a, a ∈ xs -> a ∈ X) ->
  sys (<[b := xs']> q) s'.
Proof.
  intros S Hx (W & Et & _ & Ob & _) Q' D Home Idle Sub; constructor.
  - intros b' ys; destruct (decide (b' = b)) as [->|N]; [rewrite lookup_insert_eq; congruence|].
    rewrite lookup_insert_ne by done; intros Hy; eapply queue_frame; [eapply sys_queue; eauto|..].
    + intros a Ha; apply (proj1 W); intros HX; now apply (D b' ys N Hy a).
    + now apply (proj2 W).
    + now apply Ob.
    + intros; now rewrite Et.
  - intros b' ys a; rewrite Et; destruct (decide (b' = b)) as [->|N]; [rewrite lookup_insert_eq; intros [= <-]; apply Home|].
    rewrite lookup_insert_ne by done; apply (sys_home _ _ S).
  - intros a t; rewrite Et; intros Ht; destruct (sys_timer _ _ S _ _ Ht) as (G & [ys Hb] & I); split; [done|].
    split; [destruct (decide (base t = b)) as [->|N]; [rewrite lookup_insert_eq|rewrite lookup_insert_ne by done]; eauto|].
    destruct (decide (a ∈ X)) as [HX|HX].
    + destruct (Idle a t Ht HX) as [|[<- Hin]]; [now left|right; exists xs'; now rewrite lookup_insert_eq].
    + destruct I as [(c & l & r & I)|(zs & Hz & I)].
      * left; exists c, l, r; now rewrite (proj1 W).
      * right; exists zs; destruct (decide (base t = b)) as [Eb|N]; [|now rewrite lookup_insert_ne by done].
        exfalso; apply HX, Sub; rewrite Eb in Hz; congruence.
  - rewrite lookup_insert_ne; [apply S|]; intros ->; rewrite (sys_null _ _ S) in Hx; done.
Qed.

(** ** The operations *)

Section System.
Context {K : Ktime} (fuel : nat).

Definition fuel_enough (q : queues) : Prop := forall b xs, q !! b = Some xs -> fuel_for fuel xs.

Lemma sys_remove q s b xs a :
  sys q s -> q !! b = Some xs -> a ∈ xs -> fuel_for fuel xs ->
  exists s', __remove_hrtimer fuel a b s = Some (tt, s') /\ sys (<[b := without a xs]> q) s' /\ idle s' a /\
    timers s' = timers s /\ fired s' = fired s /\ same_bases s s'.
Proof.
  intros S Hx Hin Fu; pose proof (sys_queue _ _ S _ _ Hx) as Q; pose proof (queue_NoDup _ _ _ Q) as N.
  destruct (list_elem_of_split _ _ Hin) as (ys & zs & ->).
  destruct (remove_spec fuel s b ys a zs Q Fu) as (s' & R & Q' & I & O); exists s'; split; [done|].
  split; [|split; [done|split; [apply O|split; [apply O|]]]].
  - rewrite without_split by done; eapply sys_change; [done|exact Hx|exact O|done|..].
    + intros b' l' Nb Hb' c Hc Hc'; apply Nb; symmetry; eapply sys_disjoint; eauto.
    + intros c Hc; eapply sys_home; [done|exact Hx|]; revert Hc; rewrite !elem_of_app, elem_of_cons; tauto.
    + intros c t Ht Hc; destruct (decide (c = a)) as [->|Nc]; [now left|right].
      destruct (sys_home _ _ S _ _ _ Hx Hc) as (t' & Ht' & Eb); split; [congruence|].
      revert Hc; rewrite !elem_of_app, elem_of_cons; tauto.
    + done.
  - destruct (queue_base _ _ _ Q) as (r & Hr & _); eapply only_queue_bases; eauto.
Qed.

Lemma sys_enqueue q s b xs a t :
  sys q s -> timers s !! a = Some t -> base t = b -> q !! b = Some xs -> idle s a -> fuel_for fuel xs ->
  exists s', enqueue_hrtimer fuel a b s = Some (tt, s') /\ sys (<[b := insert_by (exp_of s) a xs]> q) s' /\
    timers s' = timers s /\ fired s' = fired s /\ same_bases s s'.
Proof.
  intros S Ht Eb Hx I Fu; pose proof (sys_queue _ _ S _ _ Hx) as Q.
  pose proof (idle_not_queued _ _ _ _ _ S I Hx) as Na; destruct (sys_timer _ _ S _ _ Ht) as (G & _ & _).
  pose proof I as (c & l & r & Nd).
  destruct (enqueue_spec fuel s b xs a _ Q Fu G Na ltac:(eauto) Nd) as (s' & ys & zs & R & P & Q' & O).
  exists s'; split; [done|]; rewrite <- (place_insert _ _ _ _ _ P); split; [|split; [apply O|split; [apply O|]]].
  - destruct P as (-> & _); eapply sys_change; [done|exact Hx|exact O|done|..].
    + intros b' l' Nb Hb' d Hd Hd'; apply Nb; revert Hd; rewrite elem_of_app, elem_of_cons; intros Hd.
      destruct (decide (d = a)) as [->|Nd']; [now eapply idle_not_queued in Hd'; eauto|].
      symmetry; eapply sys_disjoint; eauto; rewrite elem_of_app; tauto.
    + intros d; rewrite elem_of_app, elem_of_cons; intros Hd; destruct (decide (d = a)) as [->|Nd']; [eauto|].
      eapply sys_home; [done|exact Hx|]; rewrite elem_of_app; tauto.
    + intros d t' Ht' Hd; right; split; [|done]; destruct (decide (d = a)) as [->|Nd']; [congruence|].
      destruct (sys_home _ _ S b (ys ++ zs) d Hx) as (t2 & Ht2 & Eb2); [|congruence].
      revert Hd; rewrite !elem_of_app, elem_of_cons; tauto.
    + intros d; rewrite !elem_of_app, elem_of_cons; tauto.
  - destruct (queue_base _ _ _ Q) as (r' & Hr & _); eapply only_queue_bases; eauto.
Qed.

(** The data of a timer that is not queued may change. *)
Lemma sys_retime q s a t : sys q s -> idle s a -> good a -> is_Some (q !! base t) ->
  sys q (set_timers (<[a := t]> (timers s)) s).
Proof.
  intros S I G Hb; pose proof (idle_not_queued q s) as Nq; constructor.
  - intros b xs Hx; eapply queue_frame; [eapply sys_queue; eauto|done..|].
    intros c Hc; apply lookup_insert_ne; intros <-; eapply Nq; eauto.
  - intros b xs c Hx Hc; simpl; rewrite lookup_insert_ne by (intros <-; eapply Nq; eauto); eapply sys_home; eauto.
  - intros c t'; simpl; destruct (decide (c = a)) as [->|N].
    + rewrite lookup_insert_eq; intros [= <-]; split; [done|]; split; [done|now left].
    + rewrite lookup_insert_ne by done; apply (sys_timer _ _ S).
  - apply S.
Qed.

(** Bases change only in the fields the queues do not depend on. *)
Lemma sys_rebase q s s' : sys q s -> trees s' = trees s -> timers s' = timers s ->
  (forall b, first <$> bases s' !! b = first <$> bases s !! b) -> sys q s'.
Proof.
  intros S Em Et Eb; constructor.
  - intros b xs Hx; destruct (sys_queue _ _ S _ _ Hx) as (t & r & H & RB & Ex & Hr & Hf & Ht & So).
    specialize (Eb b); rewrite Hr in Eb; simpl in Eb; destruct (bases s' !! b) as [r'|] eqn:Hr'; [|done].
    injection Eb as Eb; exists t, r'; rewrite Em, Et, Eb; repeat split; try done; [apply H..|].
    eapply sorted_same; done.
  - rewrite Et; apply S.
  - rewrite Et; intros a t Ht; unfold idle; rewrite Em; apply (sys_timer _ _ S _ _ Ht).
  - apply S.
Qed.
End System.
