(* ===== verification/HrtimerOps.v ===== *)
(** * High-resolution timers: starting, cancelling, moving *)

From Stdlib Require Import Sorted.
#[local] Set Warnings "-notation-incompatible-prefix".
From S2P Require Import Prelude Rbtree RbtreeRep RbtreeOps RbtreeInsert RbtreeErase RbtreeSpec RbtreeWalk.
From S2P Require Import Ktime Hrtimer HrtimerForward HrtimerQueue HrtimerSystem.
From stdpp Require Import gmap.
#[local] Open Scope Z_scope.

(** Nothing but the timer [a], which becomes [t], and the queues differs. *)
Definition only_timer (a : Z) (t : hrtimer) (s s' : hstate) : Prop :=
  timers s' = <[a := t]> (timers s) /\ fired s' = fired s /\ same_bases s s'.

Section Ops.
Context {K : Ktime} (SMP LOW_RES : bool) (get_time : Z -> Z) (this_cpu : Z -> Z) (fuel : nat).

(** [a], whose base is [b], may be queued there or not. *)
Lemma remove_hrtimer_spec q s a t xs :
  sys q s -> timers s !! a = Some t -> q !! base t = Some xs -> fuel_for fuel xs ->
  exists s', remove_hrtimer fuel a (base t) s = Some (if bool_decide (a ∈ xs) then 1 else 0, s') /\
    sys (<[base t := without a xs]> q) s' /\ idle s' a /\ timers s' = timers s /\ fired s' = fired s /\ same_bases s s'.
Proof.
  intros S Ht Hx Fu; unfold remove_hrtimer; case_bool_decide as D.
  - destruct (sys_remove fuel q s (base t) xs a S Hx D Fu) as (s' & R & S' & I & Et & Ef & Eb); exists s'.
    rewrite (run_bind_some _ _ _ _ _ (run_active_queued _ _ _ _ (sys_queue _ _ S _ _ Hx) D)).
    now rewrite (run_bind_some _ _ _ _ _ R).
  - destruct (sys_timer _ _ S _ _ Ht) as (G & _ & [I|(ys & Hy & Hin)]); [|congruence]; exists s.
    rewrite (run_bind_some _ _ _ _ _ (run_active_idle _ _ G I)), without_id, insert_id by done; done.
Qed.

(** The base a timer is started on: that of this CPU, unless it is running. *)
Definition target (r : hrtimer_base) (a b : Z) : Z :=
  if SMP && negb (curr_timer r =? a) then this_cpu (index r) else b.

Definition rebased (a nb : Z) (t : hrtimer) (s : hstate) : hstate :=
  set_timers (<[a := mktimer (expires t) (function t) nb]> (timers s)) s.

Lemma run_set_timer_base s a t b : timers s !! a = Some t -> set_timer_base a b s = Some (tt, rebased a b t s).
Proof. intros H; unfold set_timer_base; now rewrite (run_bind_some _ _ _ _ _ (run_timer_at _ _ _ H)). Qed.
Lemma rebased_id a t s : timers s !! a = Some t -> rebased a (base t) t s = s.
Proof. intros H; unfold rebased; destruct t, s; unfold set_timers; simpl in *; now rewrite insert_id. Qed.

Lemma switch_spec s a t r :
  timers s !! a = Some t -> bases s !! base t = Some r ->
  switch_hrtimer_base SMP this_cpu a (base t) s =
    Some (target r a (base t), rebased a (target r a (base t)) t s).
Proof.
  intros Ht Hr; unfold switch_hrtimer_base, target; destruct SMP; simpl; [|now rewrite rebased_id].
  rewrite (run_bind_some _ _ _ _ _ (run_base_at _ _ _ Hr)).
  destruct (Z.eqb_spec (base t) (this_cpu (index r))) as [Eq|Ne].
  - rewrite <- Eq; case_if; now rewrite rebased_id.
  - destruct (curr_timer r =? a); simpl; [now rewrite rebased_id|].
    rewrite (run_bind_some _ _ _ _ _ (run_set_timer_base _ _ _ NULL Ht)).
    assert (H1 : timers (rebased a NULL t s) !! a = Some (mktimer (expires t) (function t) NULL)) by apply lookup_insert_eq.
    rewrite (run_bind_some _ _ _ _ _ (run_set_timer_base _ _ _ (this_cpu (index r)) H1)).
    unfold rebased, set_timers; simpl; now rewrite insert_insert_eq.
Qed.

(** The expiry time [hrtimer_start] sets. *)
Definition start_time (tim : Z) (mode : hrtimer_mode) (old new : hrtimer_base) : Z :=
  match mode with
  | HRTIMER_ABS => tim
  | HRTIMER_REL =>
      let tim := ktime_add tim (get_time (index new)) in
      if LOW_RES then ktime_add tim (resolution old) else tim
  end.

(** [a] leaves its queue and enters that of [nb]. *)
Definition requeue (f : Z -> Z) (a b nb : Z) (q : queues) : queues :=
  let q := <[b := without a (default [] (q !! b))]> q in
  <[nb := insert_by f a (default [] (q !! nb))]> q.

Lemma length_without a xs : (length (without a xs) <= length xs)%nat.
Proof. apply length_filter. Qed.
Lemma fuel_for_less xs ys : (length ys <= length xs)%nat -> fuel_for fuel xs -> fuel_for fuel ys.
Proof. unfold fuel_for; intros L F; pose proof (Nat.log2_le_mono (S (length ys)) (S (length xs)) ltac:(lia)); lia. Qed.

Lemma run_lock s a t : timers s !! a = Some t -> base t <> NULL -> lock_hrtimer_base SMP a s = Some (base t, s).
Proof.
  intros Ht N; unfold lock_hrtimer_base; rewrite (run_bind_some _ _ _ _ _ (run_timer_at _ _ _ Ht)).
  unfold tst; rewrite (proj2 (Z.eqb_neq (base t) 0) N); now destruct SMP.
Qed.
Lemma sys_base_null q s a t : sys q s -> timers s !! a = Some t -> base t <> NULL.
Proof. intros S Ht E; destruct (sys_timer _ _ S _ _ Ht) as (_ & [xs Hx] & _); rewrite E, (sys_null _ _ S) in Hx; done. Qed.

Lemma hrtimer_start_spec q s a t r nr tim mode :
  sys q s -> fuel_enough fuel q -> timers s !! a = Some t -> bases s !! base t = Some r ->
  let nb := target r a (base t) in
  is_Some (q !! nb) -> bases s !! nb = Some nr ->
  let e := start_time tim mode r nr in
  exists s', hrtimer_start SMP LOW_RES get_time this_cpu fuel a tim mode s =
      Some (if bool_decide (a ∈ default [] (q !! base t)) then 1 else 0, s') /\
    sys (requeue (exp_of s') a (base t) nb q) s' /\ only_timer a (mktimer e (function t) nb) s s'.
Proof.
  intros S Fu Ht Hr nb [xn Hn] Hnr e.
  destruct (sys_timer _ _ S _ _ Ht) as (G & [xs Hx] & _).
  destruct (remove_hrtimer_spec q s a t xs S Ht Hx (Fu _ _ Hx)) as (s1 & R1 & S1 & I1 & Et1 & Ef1 & Eb1).
  set (q1 := <[base t := without a xs]> q) in *.
  assert (Ht1 : timers s1 !! a = Some t) by now rewrite Et1.
  destruct (same_base _ _ _ _ Eb1 Hr) as [p Hr1]; destruct (same_base _ _ _ _ Eb1 Hnr) as [pn Hnr1].
  pose proof (switch_spec s1 a t _ Ht1 Hr1) as Sw; change (target (with_first p r) a (base t)) with nb in Sw.
  set (s3 := set_timers (<[a := mktimer e (function t) nb]> (timers s1)) s1).
  assert (Se : set_expires a e (rebased a nb t s1) = Some (tt, s3)).
  { rewrite (run_set_expires _ _ (mktimer (expires t) (function t) nb)) by apply lookup_insert_eq.
    unfold with_expires, rebased, set_timers, s3; simpl; now rewrite insert_insert_eq. }
  assert (Q1 : exists yn, q1 !! nb = Some yn /\ fuel_for fuel yn).
  { unfold q1; destruct (decide (nb = base t)) as [->|Ne].
    - rewrite lookup_insert_eq; eexists; split; [done|]; eapply fuel_for_less; [apply length_without|now apply (Fu (base t))].
    - rewrite lookup_insert_ne by done; exists xn; split; [done|now apply (Fu nb)]. }
  destruct Q1 as (yn & Hyn & Fyn).
  assert (S3 : sys q1 s3) by (apply sys_retime; [done|done|done|simpl; eauto]).
  destruct (sys_enqueue fuel q1 s3 nb yn a (mktimer e (function t) nb) S3 ltac:(apply lookup_insert_eq) eq_refl Hyn I1 Fyn)
    as (s4 & R4 & S4 & Et4 & Ef4 & Eb4).
  exists s4; rewrite Hx; simpl default; split; [|split].
  - unfold hrtimer_start.
    rewrite (run_bind_some _ _ _ _ _ (run_lock _ _ _ Ht (sys_base_null _ _ _ _ S Ht))), (run_bind_some _ _ _ _ _ R1).
    rewrite (run_bind_some _ _ _ _ _ Sw), (run_bind_some _ _ _ _ _ (run_base_at (rebased a nb t s1) _ _ Hr1)).
    rewrite (run_bind_some _ _ _ _ _ (run_base_at (rebased a nb t s1) _ _ Hnr1)).
    change (match mode with HRTIMER_ABS => tim | HRTIMER_REL => _ end) with e.
    now rewrite (run_bind_some _ _ _ _ _ Se), (run_bind_some _ _ _ _ _ R4).
  - unfold requeue; rewrite Hx; simpl default; fold q1; rewrite Hyn; simpl default.
    replace (insert_by (exp_of s4) a yn) with (insert_by (exp_of s3) a yn); [done|].
    unfold exp_of; now rewrite Et4.
  - split; [rewrite Et4; simpl; now rewrite Et1|]; split; [now rewrite Ef4|]; now transitivity s3; [rewrite Eb1|].
Qed.

(** Cancelling: refused while the callback runs. *)
Lemma hrtimer_try_to_cancel_spec q s a t r :
  sys q s -> fuel_enough fuel q -> timers s !! a = Some t -> bases s !! base t = Some r ->
  exists s', hrtimer_try_to_cancel SMP fuel a s =
      Some (if curr_timer r =? a then -1 else if bool_decide (a ∈ default [] (q !! base t)) then 1 else 0, s') /\
    timers s' = timers s /\ fired s' = fired s /\ same_bases s s' /\
    if curr_timer r =? a then s' = s
    else sys (<[base t := without a (default [] (q !! base t))]> q) s' /\ idle s' a.
Proof.
  intros S Fu Ht Hr; unfold hrtimer_try_to_cancel.
  rewrite (run_bind_some _ _ _ _ _ (run_lock _ _ _ Ht (sys_base_null _ _ _ _ S Ht))).
  rewrite (run_bind_some _ _ _ _ _ (run_base_at _ _ _ Hr)).
  destruct (curr_timer r =? a); [now exists s|].
  destruct (sys_timer _ _ S _ _ Ht) as (G & [xs Hx] & _); rewrite Hx; simpl default.
  destruct (remove_hrtimer_spec q s a t xs S Ht Hx (Fu _ _ Hx)) as (s1 & R1 & S1 & I1 & Et1 & Ef1 & Eb1).
  now exists s1.
Qed.

(** ** Moving the timers of a CPU that is gone *)

(** All of [xs] enter the queue [ys]. *)
Definition merge_by (f : Z -> Z) (xs ys : list Z) : list Z := fold_left (fun l a => insert_by f a l) xs ys.

Lemma exp_of_rebased a nb t s c : timers s !! a = Some t -> exp_of (rebased a nb t s) c = exp_of s c.
Proof.
  intros Ht; unfold exp_of; simpl; destruct (decide (c = a)) as [->|N]; [now rewrite lookup_insert_eq, Ht|now rewrite lookup_insert_ne].
Qed.
Lemma insert_by_ext f g a xs : (forall c, f c = g c) -> insert_by f a xs = insert_by g a xs.
Proof. intros H; induction xs as [|c xs IH]; simpl; [done|]; now rewrite !H, IH. Qed.
Lemma merge_by_ext f g xs : (forall c, f c = g c) -> forall ys, merge_by f xs ys = merge_by g xs ys.
Proof. intros H; unfold merge_by; induction xs as [|a xs IH]; intros ys; simpl; [done|]; now rewrite (insert_by_ext f g) by done. Qed.
Lemma insert_by_length f a xs : length (insert_by f a xs) = S (length xs).
Proof. induction xs as [|c xs IH]; simpl; [done|]; case_if; simpl; now rewrite ?IH. Qed.

Lemma run_rb_first q s b xs : sys q s -> q !! b = Some xs -> fuel_for fuel xs ->
  on_tree (rb_first fuel b) s = Some (first_of xs, s).
Proof.
  intros S Hx Fu; destruct (sys_queue _ _ S _ _ Hx) as (t & r & H & RB & <- & _).
  apply run_on_tree_read, rb_first_spec; done.
Qed.

Lemma migrate_spec ob nb xs : forall n q s ys,
  sys q s -> ob <> nb -> q !! ob = Some xs -> q !! nb = Some ys ->
  fuel_for fuel (xs ++ ys) -> (length xs <= n)%nat ->
  exists s', migrate_hrtimer_list fuel n ob nb s = Some (tt, s') /\
    sys (<[nb := merge_by (exp_of s) xs ys]> (<[ob := []]> q)) s' /\ fired s' = fired s /\ same_bases s s' /\
    (forall a t, a ∈ xs -> timers s !! a = Some t -> timers s' !! a = Some (mktimer (expires t) (function t) nb)) /\
    (forall a, a ∉ xs -> timers s' !! a = timers s !! a).
Proof.
  induction xs as [|a xs IH]; intros n q s ys S Ne Hx Hy Fu Hn.
  { pose proof (run_rb_first q s ob [] S Hx ltac:(eapply fuel_for_less; [|exact Fu]; simpl; lia)) as R; exists s; split.
    - destruct n; cbn [migrate_hrtimer_list]; now rewrite (run_bind_some _ _ _ _ _ R).
    - simpl merge_by; rewrite (insert_id q ob), (insert_id q nb) by done.
      split; [done|]; split; [done|]; split; [done|]; split; [intros b t Hb; inversion Hb|done]. }
  assert (Fx : fuel_for fuel (a :: xs)) by (eapply fuel_for_less; [|exact Fu]; rewrite length_app; lia).
  destruct n as [|n]; [simpl in Hn; lia|].
  destruct (sys_home _ _ S _ _ a Hx ltac:(now left)) as (t & Ht & Eb); destruct (sys_timer _ _ S _ _ Ht) as (G & _).
  pose proof (queue_NoDup _ _ _ (sys_queue _ _ S _ _ Hx)) as ND.
  destruct (sys_remove fuel q s ob _ a S Hx ltac:(now left) Fx) as (s1 & R1 & S1 & I1 & Et1 & Ef1 & B1).
  assert (Wo : without a (a :: xs) = xs) by now apply (without_split a [] xs).
  rewrite Wo in S1; clear Wo; assert (Ht1 : timers s1 !! a = Some t) by now rewrite Et1.
  assert (Hy1 : <[ob := xs]> q !! nb = Some ys) by now rewrite lookup_insert_ne.
  assert (S2 : sys (<[ob := xs]> q) (rebased a nb t s1)) by (apply sys_retime; [done|done|done|simpl; eauto]).
  destruct (sys_enqueue fuel _ (rebased a nb t s1) nb ys a (mktimer (expires t) (function t) nb) S2)
    as (s3 & R3 & S3 & Et3 & Ef3 & B3); [apply lookup_insert_eq|done|done|exact I1|eapply fuel_for_less; [|exact Fu]; rewrite length_app; lia|].
  assert (Ee : forall c, exp_of (rebased a nb t s1) c = exp_of s c) by (intros c; rewrite exp_of_rebased by done; unfold exp_of; now rewrite Et1).
  rewrite (insert_by_ext _ (exp_of s)) in S3 by done.
  assert (Ee3 : forall c, exp_of s3 c = exp_of s c) by (intros c; rewrite <- Ee; unfold exp_of; now rewrite Et3).
  assert (F3 : forall c, c <> a -> timers s3 !! c = timers s !! c) by (intros c Nc; rewrite Et3; simpl; rewrite lookup_insert_ne by done; now rewrite Et1).
  destruct (IH n _ s3 (insert_by (exp_of s) a ys) S3 Ne) as (s4 & R4 & S4 & Ef4 & B4 & M4 & O4).
  - rewrite lookup_insert_ne by done; apply lookup_insert_eq.
  - apply lookup_insert_eq.
  - eapply fuel_for_less; [|exact Fu]; simpl; rewrite !length_app, insert_by_length; lia.
  - simpl in Hn; lia.
  - exists s4; split; [|split; [|split; [|split; [|split]]]].
    + cbn [migrate_hrtimer_list]; rewrite (run_bind_some _ _ _ _ _ (run_rb_first q s ob _ S Hx Fx)); change (first_of (a :: xs)) with a.
      rewrite (tst_good a G), (run_bind_some _ _ _ _ _ R1), (run_bind_some _ _ _ _ _ (run_set_timer_base _ _ _ nb Ht1)).
      now rewrite (run_bind_some _ _ _ _ _ R3).
    + rewrite (merge_by_ext _ (exp_of s)) in S4 by done; simpl merge_by.
      rewrite (insert_insert_ne _ ob nb), !insert_insert_eq in S4 by done; exact S4.
    + rewrite Ef4, Ef3; simpl; now rewrite Ef1.
    + transitivity s3; [|done]; transitivity s1; [done|exact B3].
    + apply NoDup_cons in ND as [Na _]; intros c t' [->|Hc]%elem_of_cons Ht'.
      * rewrite O4, Et3 by done; simpl; rewrite lookup_insert_eq; congruence.
      * apply M4; [done|]; rewrite F3 by (intros ->; done); done.
    + intros c [Nc Hc]%not_elem_of_cons; rewrite O4 by done; now apply F3.
Qed.
End Ops.
