(* ===== verification/HrtimerExpire.v ===== *)
(** * High-resolution timers: expiry

    [run_hrtimer_queue] calls the callbacks of the timers that are due, in the
    order of their expiry, and stops. *)

From Stdlib Require Import Sorted.
#[local] Set Warnings "-notation-incompatible-prefix".
From S2P Require Import Prelude Rbtree RbtreeRep RbtreeOps RbtreeInsert RbtreeErase RbtreeSpec RbtreeWalk.
From S2P Require Import Ktime Hrtimer HrtimerForward HrtimerQueue HrtimerSystem HrtimerOps.
From stdpp Require Import gmap.
#[local] Open Scope Z_scope.

(** What a queue run keeps of its base. *)
Definition forget (r : hrtimer_base) : hrtimer_base := mkbase (index r) NULL (resolution r) NULL (softirq_time r).

Definition same_but (b : Z) (s s' : hstate) : Prop :=
  (forall b', b' <> b -> with_first NULL <$> bases s' !! b' = with_first NULL <$> bases s !! b') /\
  forget <$> bases s' !! b = forget <$> bases s !! b.
#[export] Instance same_but_equiv b : Equivalence (same_but b).
Proof.
  split; [done|intros s s' [A B]; split; [intros; now rewrite A|done]|].
  intros s1 s2 s3 [A B] [A' B']; split; [intros; now rewrite A', A|now rewrite B'].
Qed.

Lemma same_bases_but b s s' : same_bases s s' -> same_but b s s'.
Proof.
  intros H; split; [intros; apply H|]; specialize (H b); destruct (bases s !! b) as [[]|], (bases s' !! b) as [[]|]; simpl in *; try done.
  unfold forget; injection H as -> -> -> ->; done.
Qed.
Lemma same_but_base b s s' r : same_but b s s' -> bases s !! b = Some r -> exists r', bases s' !! b = Some r' /\ forget r' = forget r.
Proof. intros [_ B] R; rewrite R in B; destruct (bases s' !! b) as [r'|]; [|done]; exists r'; split; [done|now apply (inj Some)]. Qed.

Lemma insert_behind f a ds xs : Forall (fun c => f c <= f a) ds -> insert_by f a (ds ++ xs) = ds ++ insert_by f a xs.
Proof. induction 1 as [|c ds Hc F IH]; simpl; [done|]; rewrite (proj2 (Z.ltb_ge _ _) Hc); now f_equal. Qed.

Section Expire.
Context {K : Ktime} (SMP : bool) (get_softirq_time : Z -> option Z).
Context (call : Z -> Z -> ST hstate Z) (fuel : nat).

(** The callback of [a] changes nothing but the expiry of [a], and restarts the
    timer only when that is not before the time of this run. *)
Definition polite (r : hrtimer_base) (a : Z) (t : hrtimer) : Prop :=
  forall s r', timers s !! a = Some t -> bases s !! base t = Some r' -> forget r' = forget r ->
  exists e restart, call (function t) a s = Some (restart, with_expires a e t s) /\
    (restart <> HRTIMER_NORESTART -> softirq_time r <= e).

Lemma run_set_curr s b r p : bases s !! b = Some r -> exists s', set_curr_timer SMP b p s = Some (tt, s') /\
  trees s' = trees s /\ timers s' = timers s /\ fired s' = fired s /\ same_but b s s' /\
  (forall b', first <$> bases s' !! b' = first <$> bases s !! b') /\
  (forall r', SMP = true -> bases s' !! b = Some r' -> curr_timer r' = p).
Proof.
  intros R; unfold set_curr_timer; destruct SMP; [|exists s; split; [done|]; now repeat split].
  rewrite (run_bind_some _ _ _ _ _ (run_base_at _ _ _ R)); eexists; split; [done|]; repeat split; simpl.
  - intros b' N; now rewrite lookup_insert_ne.
  - now rewrite lookup_insert_eq, R.
  - intros b'; destruct (decide (b' = b)) as [->|N]; [now rewrite lookup_insert_eq, R|now rewrite lookup_insert_ne].
  - intros r' _; rewrite lookup_insert_eq; now intros [= <-].
Qed.

Lemma expire_one_spec q s b r a t xs :
  sys q s -> q !! b = Some (a :: xs) -> timers s !! a = Some t -> bases s !! b = Some r ->
  polite r a t -> fuel_for fuel (a :: xs) ->
  exists s' e (again : bool), expire_one SMP call fuel b a s = Some (tt, s') /\
    (again = true -> softirq_time r <= e) /\
    sys (<[b := if again then insert_by (exp_of s') a xs else xs]> q) s' /\
    timers s' = <[a := mktimer e (function t) b]> (timers s) /\ fired s' = fired s ++ [a] /\ same_but b s s'.
Proof.
  intros S Hx Ht Hr Po Fu.
  destruct (sys_home _ _ S b _ a Hx ltac:(now left)) as (t' & Ht' & Eb); assert (t' = t) as -> by congruence; clear Ht'.
  assert (G : good a) by (eapply sys_timer; eauto).
  destruct (run_set_curr s b r a Hr) as (s1 & R1 & Em1 & Et1 & Ef1 & B1 & F1 & _).
  assert (S1 : sys q s1) by (eapply sys_rebase; eauto).
  destruct (sys_remove fuel q s1 b (a :: xs) a S1 Hx ltac:(now left) Fu) as (s2 & R2 & S2 & I2 & Et2 & Ef2 & B2).
  assert (Wo : without a (a :: xs) = xs) by (apply (without_split a [] xs); eapply queue_NoDup, (sys_queue _ _ S); eauto).
  rewrite Wo in S2; clear Wo.
  set (s3 := log_fired a s2).
  assert (S3 : sys (<[b := xs]> q) s3) by (eapply sys_rebase; [exact S2|done..]).
  assert (Ht3 : timers s3 !! a = Some t) by (unfold s3; simpl; now rewrite Et2, Et1).
  assert (B3 : same_but b s s3) by (transitivity s1; [done|]; now apply (same_bases_but b s1 s2)).
  destruct (same_but_base _ _ _ _ B3 Hr) as (r3 & Hr3 & Fr3).
  destruct (Po s3 r3 Ht3 ltac:(now rewrite Eb) Fr3) as (e & restart & Rc & Le).
  assert (S4 : sys (<[b := xs]> q) (with_expires a e t s3)) by (apply sys_retime; [done|exact I2|done|rewrite Eb; simpl; rewrite lookup_insert_eq; eauto]).
  assert (Et4 : timers (with_expires a e t s3) = <[a := mktimer e (function t) b]> (timers s))
    by (unfold with_expires; simpl; now rewrite Et2, Et1, Eb).
  assert (Run : expire_one SMP call fuel b a s = when (negb (restart =? HRTIMER_NORESTART))
      (active <- hrtimer_active a ;; (if active then lift None else ret tt) ;;; enqueue_hrtimer fuel a b) (with_expires a e t s3)).
  { unfold expire_one; rewrite (run_bind_some _ _ _ _ _ (run_timer_at _ _ _ Ht)), (run_bind_some _ _ _ _ _ R1), (run_bind_some _ _ _ _ _ R2).
    rewrite (run_bind_some _ _ s2 tt s3) by done; now rewrite (run_bind_some _ _ _ _ _ Rc). }
  rewrite Run; clear Run.
  destruct (Z.eqb_spec restart HRTIMER_NORESTART) as [->|Ne]; simpl when.
  - exists (with_expires a e t s3), e, false; split; [done|]; split; [done|]; split; [done|]; split; [done|].
    split; [unfold with_expires, s3; simpl; now rewrite Ef2, Ef1|done].
  - rewrite (run_bind_some _ _ _ _ _ (run_active_idle (with_expires a e t s3) a G I2)), run_bind_ret.
    destruct (sys_enqueue fuel (<[b := xs]> q) (with_expires a e t s3) b xs a (mktimer e (function t) b) S4) as (s5 & R5 & S5 & Et5 & Ef5 & B5);
      [rewrite Et4; apply lookup_insert_eq|done|apply lookup_insert_eq|exact I2|eapply fuel_for_less; [|exact Fu]; simpl; lia|].
    rewrite insert_insert_eq in S5.
    exists s5, e, true; split; [done|]; split; [auto|]; split; [|split; [now rewrite Et5|]; split].
    + replace (exp_of s5) with (exp_of (with_expires a e t s3)); [done|]; unfold exp_of; now rewrite Et5.
    + rewrite Ef5; unfold with_expires, s3; simpl; now rewrite Ef2, Ef1.
    + transitivity s3; [done|]; now apply (same_bases_but b (with_expires a e t s3) s5).
Qed.

(** A queue whose timers [ds] are due and whose timers [xs] are not. *)
Definition split_at (T : Z) (s : hstate) (ds xs : list Z) : Prop :=
  Forall (fun c => exp_of s c < T) ds /\ Forall (fun c => T <= exp_of s c) xs.

Lemma split_same T s s' a ds xs :
  (forall c, c <> a -> timers s' !! c = timers s !! c) -> a ∉ ds -> a ∉ xs -> split_at T s ds xs -> split_at T s' ds xs.
Proof.
  intros F Nd Nx [D X]; split; apply Forall_forall; intros c Hc.
  - rewrite Forall_forall in D; unfold exp_of; rewrite F by (intros ->; done); now apply D.
  - rewrite Forall_forall in X; unfold exp_of; rewrite F by (intros ->; done); now apply X.
Qed.

Lemma expire_loop_step n q s b xs r : sys q s -> q !! b = Some xs -> bases s !! b = Some r ->
  expire_loop SMP call fuel n b s =
    match xs with
    | [] => Some (tt, s)
    | a :: _ =>
        if softirq_time r <=? exp_of s a then Some (tt, s)
        else match n with O => None | S n => bind (expire_one SMP call fuel b a) (fun _ => expire_loop SMP call fuel n b) s end
    end.
Proof.
  intros S Hx Hr; pose proof (sys_queue _ _ S _ _ Hx) as Q; destruct (queue_base _ _ _ Q) as (r' & Hr' & Hf).
  assert (r' = r) as -> by congruence; destruct n; cbn [expire_loop];
    rewrite (run_bind_some _ _ _ _ _ (run_get_first _ _ _ Hr)), Hf; (destruct xs as [|a xs]; [done|]);
    change (first_of (a :: xs)) with a; rewrite (tst_good a) by (eapply queue_good; [exact Q|now left]);
    rewrite (run_bind_some _ _ _ _ _ (run_base_at _ _ _ Hr)), (run_bind_some _ _ _ _ _ (run_get_expires s a ltac:(destruct (sys_home _ _ S _ _ a Hx ltac:(now left)) as (t & -> & _); eauto)));
    now case_if.
Qed.

Lemma expire_loop_spec ds : forall n q s b r xs,
  sys q s -> q !! b = Some (ds ++ xs) -> bases s !! b = Some r -> split_at (softirq_time r) s ds xs ->
  (forall a t, a ∈ ds -> timers s !! a = Some t -> polite r a t) ->
  fuel_for fuel (ds ++ xs) -> (length ds <= n)%nat ->
  exists s' xs', expire_loop SMP call fuel n b s = Some (tt, s') /\ sys (<[b := xs']> q) s' /\
    fired s' = fired s ++ ds /\ Forall (fun c => softirq_time r <= exp_of s' c) xs' /\
    (forall c, c ∈ xs -> c ∈ xs') /\ (forall c, c ∈ xs' -> c ∈ ds ++ xs) /\
    (forall c, c ∉ ds -> timers s' !! c = timers s !! c) /\ same_but b s s'.
Proof.
  induction ds as [|a ds IH]; intros n q s b r xs S Hx Hr [Ds Xs] Po Fu Hn.
  - exists s, xs; rewrite (expire_loop_step n q s b xs r S Hx Hr), app_nil_r, insert_id by done; split; [|done].
    destruct xs as [|a xs]; [done|]; now rewrite (proj2 (Z.leb_le _ _) (Forall_inv Xs)).
  - destruct (sys_home _ _ S _ _ a Hx ltac:(now left)) as (t & Ht & Eb).
    pose proof (queue_NoDup _ _ _ (sys_queue _ _ S _ _ Hx)) as N; simpl in N; apply NoDup_cons in N as [Na N]; rewrite elem_of_app in Na.
    pose proof (Forall_inv Ds) as Da; pose proof (Forall_inv_tail Ds) as Dd; simpl in Hx, Fu, Hn, Da, Dd.
    destruct (expire_one_spec q s b r a t (ds ++ xs) S Hx Ht Hr (Po a t ltac:(now left) Ht) Fu)
      as (s1 & e & again & R1 & Le & S1 & Et1 & Ef1 & B1).
    destruct (same_but_base _ _ _ _ B1 Hr) as (r1 & Hr1 & Fr1).
    assert (Tr : softirq_time r1 = softirq_time r) by (now injection Fr1).
    assert (F1 : forall c, c <> a -> timers s1 !! c = timers s !! c) by (intros; rewrite Et1; now apply lookup_insert_ne).
    assert (Ea : exp_of s1 a = e) by (unfold exp_of; now rewrite Et1, lookup_insert_eq).
    assert (Sp : split_at (softirq_time r1) s1 ds xs) by (rewrite Tr; apply (split_same _ s _ a); try tauto; now split).
    set (xs1 := if again then insert_by (exp_of s1) a xs else xs).
    assert (Q1 : (if again then insert_by (exp_of s1) a (ds ++ xs) else ds ++ xs) = ds ++ xs1).
    { unfold xs1; destruct again; [|done]; apply insert_behind; destruct Sp as [Sd _]; eapply Forall_impl; [exact Sd|].
      simpl; intros c Hc; specialize (Le eq_refl); lia. }
    rewrite Q1 in S1; clear Q1.
    assert (Sub : forall c, c ∈ xs1 -> c = a \/ c ∈ xs) by (unfold xs1; intros c; destruct again; [rewrite elem_insert_by|]; tauto).
    assert (Sub' : forall c, c ∈ xs -> c ∈ xs1) by (unfold xs1; intros c; destruct again; [rewrite elem_insert_by|]; tauto).
    destruct n as [|n]; [simpl in Hn; lia|].
    destruct (IH n _ s1 b r1 xs1 S1 ltac:(apply lookup_insert_eq) Hr1) as (s' & xs' & R & S' & Ef & Fx & Kx & Ix & Et & B).
    + split; [apply Sp|]; apply Forall_forall; intros c Hc; destruct (decide (c = a)) as [->|Nc].
      * rewrite Ea, Tr; apply Le; unfold xs1 in Hc; destruct again; tauto.
      * destruct Sp as [_ Sx]; rewrite Forall_forall in Sx; apply Sx; destruct (Sub c Hc); tauto.
    + intros c t' Hc Ht' s2 r2 H2 H2' Fr2; rewrite F1 in Ht' by (intros ->; tauto).
      rewrite Tr; apply (Po c t' ltac:(now right) Ht' s2 r2 H2 H2'); now rewrite Fr2, Fr1.
    + eapply fuel_for_less; [|exact Fu]; unfold xs1; destruct again; simpl; rewrite !length_app, ?insert_by_length; lia.
    + lia.
    + rewrite insert_insert_eq in S'; exists s', xs'; split; [|split; [done|split; [|split; [|split; [|split; [|split]]]]]].
      * rewrite (expire_loop_step _ q s b _ r S Hx Hr), (proj2 (Z.leb_gt _ _)) by done; simpl app; cbv iota.
        now rewrite (run_bind_some _ _ _ _ _ R1).
      * rewrite Ef, Ef1, <- app_assoc; done.
      * now rewrite <- Tr.
      * auto.
      * intros c Hc; specialize (Ix c Hc); revert Ix; simpl; rewrite !elem_of_app, elem_of_cons, elem_of_app; intros [|H]; [tauto|]; destruct (Sub c H); tauto.
      * intros c Hc; rewrite not_elem_of_cons in Hc; rewrite Et by tauto; now apply F1.
      * now transitivity s1.
Qed.

(** The timers of a sorted queue that are due come first. *)
Definition due (T : Z) (s : hstate) (xs : list Z) : list Z := base.filter (fun c => exp_of s c < T) xs.
Definition not_due (T : Z) (s : hstate) (xs : list Z) : list Z := base.filter (fun c => T <= exp_of s c) xs.

Lemma due_split T s xs : sorted_queue s xs -> xs = due T s xs ++ not_due T s xs /\ split_at T s (due T s xs) (not_due T s xs).
Proof.
  intros So; split; [|split; apply Forall_forall; intros c; unfold due, not_due; rewrite list_elem_of_filter; tauto].
  induction So as [|a xs So IH F]; [done|]; unfold due, not_due; rewrite !filter_cons.
  destruct (decide (exp_of s a < T)) as [L|L]; [rewrite (decide_False (P := T <= _)) by lia; simpl; f_equal; exact IH|].
  rewrite (decide_True (P := T <= _)) by lia.
  assert (D : due T s xs = []).
  { apply list.nil_length_inv; unfold due. destruct (base.filter _ xs) as [|c l] eqn:Ef; [done|].
    assert (H : c ∈ base.filter (fun c => exp_of s c < T) xs) by (rewrite Ef; now left).
    apply list_elem_of_filter in H as [H1 H2]; rewrite Forall_forall in F; specialize (F c H2); unfold by_key in F; lia. }
  rewrite D in IH; unfold due in D; rewrite D; simpl in *; f_equal; exact IH.
Qed.

(** ** A whole run *)

(** The time of the run, and the base during it. *)
Definition run_time (r : hrtimer_base) : Z := default (softirq_time r) (get_softirq_time (index r)).
Definition at_time (T : Z) (r : hrtimer_base) : hrtimer_base := mkbase (index r) (first r) (resolution r) (curr_timer r) T.

Lemma run_update_time s b r : bases s !! b = Some r ->
  exists s1, (match get_softirq_time (index r) with Some t => set_softirq_time b t | None => ret tt end) s = Some (tt, s1) /\
    trees s1 = trees s /\ timers s1 = timers s /\ fired s1 = fired s /\ bases s1 !! b = Some (at_time (run_time r) r) /\
    (forall b', b' <> b -> bases s1 !! b' = bases s !! b').
Proof.
  intros Hr; unfold run_time; destruct (get_softirq_time (index r)) as [t|]; simpl.
  - unfold set_softirq_time; rewrite (run_bind_some _ _ _ _ _ (run_base_at _ _ _ Hr)); eexists; split; [done|].
    repeat split; simpl; [apply lookup_insert_eq|intros; now apply lookup_insert_ne].
  - exists s; repeat split; try done; rewrite Hr; now destruct r.
Qed.

Lemma run_hrtimer_queue_spec n q s b r xs (T := run_time r) :
  sys q s -> q !! b = Some xs -> bases s !! b = Some r ->
  (forall a t, a ∈ due T s xs -> timers s !! a = Some t -> polite (at_time T r) a t) ->
  fuel_for fuel xs -> (length (due T s xs) <= n)%nat ->
  exists s' xs', run_hrtimer_queue SMP get_softirq_time call fuel n b s = Some (tt, s') /\ sys (<[b := xs']> q) s' /\
    fired s' = fired s ++ due T s xs /\ Forall (fun c => T <= exp_of s' c) xs' /\
    (forall c, c ∈ not_due T s xs -> c ∈ xs') /\ (forall c, c ∈ xs' -> c ∈ xs) /\
    (forall c, c ∉ due T s xs -> timers s' !! c = timers s !! c) /\
    (forall b', b' <> b -> with_first NULL <$> bases s' !! b' = with_first NULL <$> bases s !! b').
Proof.
  intros S Hx Hr Po Fu Hn; pose proof (sys_queue _ _ S _ _ Hx) as Q; destruct (queue_base _ _ _ Q) as (r' & Hr' & Hf).
  assert (r' = r) as -> by congruence; clear Hr'.
  unfold run_hrtimer_queue; rewrite (run_bind_some _ _ _ _ _ (run_base_at _ _ _ Hr)), Hf.
  destruct (due_split T s xs) as [Ex Sp]; [eapply queue_sorted; exact Q|].
  destruct (run_update_time s b r Hr) as (s1 & R1 & Em1 & Et1 & Ef1 & Hr1 & B1); fold T in Hr1.
  destruct (tst (first_of xs)) eqn:Tx.
  - assert (S1 : sys q s1).
    { eapply sys_rebase; [exact S|done..|]; intros b'; destruct (decide (b' = b)) as [->|N]; [now rewrite Hr1, Hr|now rewrite B1]. }
    assert (Ee : exp_of s1 = exp_of s) by (unfold exp_of; now rewrite Et1).
    destruct (expire_loop_spec (due T s xs) n q s1 b _ (not_due T s xs) S1 ltac:(now rewrite <- Ex) Hr1) as (s2 & xs' & R2 & S2 & Ef2 & F2 & K2 & I2 & Et2 & B2).
    { unfold split_at; simpl; rewrite Ee; exact Sp. }
    { intros a t Ha; rewrite Et1; now apply Po. }
    { now rewrite <- Ex. }
    { done. }
    destruct (same_but_base _ _ _ _ B2 Hr1) as (r2 & Hr2 & _).
    destruct (run_set_curr s2 b r2 NULL Hr2) as (s3 & R3 & Em3 & Et3 & Ef3 & B3 & F3 & _).
    exists s3, xs'; rewrite (run_bind_some _ _ _ _ _ R1), (run_bind_some _ _ _ _ _ R2); split; [done|].
    split; [eapply sys_rebase; eauto|]; rewrite Ef3, Ef2, Ef1; split; [done|]; rewrite <- Ex in I2.
    split; [unfold exp_of; rewrite Et3; exact F2|]; split; [done|]; split; [done|]; split.
    + intros c Hc; rewrite Et3, Et2 by done; now rewrite Et1.
    + intros b' N; rewrite (proj1 B3), (proj1 B2), B1 by done; done.
  - destruct xs as [|a xs]; [|change (first_of (a :: xs)) with a in Tx; rewrite (tst_good a) in Tx by (eapply queue_good; [exact Q|now left]); done].
    exists s, []; rewrite insert_id by done; split; [done|]; split; [done|]; split; [now rewrite app_nil_r|].
    split; [constructor|done].
Qed.
End Expire.

(** ** The callback of the interval timers *)

Section Itimer.
Context {K : Ktime} {L : KtimeLaws K} (call : Z -> Z -> ST hstate Z) (fuel : nat).
Context (it_real_incr : Z -> Z) (send : Z -> ST hstate unit).
Context (Send : forall a s, send a s = Some (tt, s)).

Lemma it_real_fn_polite r a t :
  call (function t) a = it_real_fn fuel it_real_incr send a ->
  let now := softirq_time r in
  let iv := Z.max (ns (it_real_incr a)) (ns (resolution r)) in
  let m := overruns (ns now) (ns (expires t)) iv in
  valid now -> valid (expires t) -> valid (it_real_incr a) -> valid (resolution r) -> expires t < now ->
  0 < iv -> in_range (ns now - ns (expires t)) -> m < 2 ^ BITS_PER_LONG -> in_range (m * iv) ->
  in_range (ns (expires t) + m * iv) -> (31 <= fuel)%nat ->
  polite call r a t.
Proof.
  intros Hc now iv m Vn Ve Vi Vr Due Piv Rd Lm Rm Re Hf s r' Ht Hr' Fr; rewrite Hc; unfold it_real_fn.
  injection Fr as Ei Er Es; rewrite (run_bind_some _ _ _ _ _ (Send a s)).
  destruct (tst (it_real_incr a)).
  - rewrite (run_bind_some _ _ _ _ _ (run_timer_at _ _ _ Ht)), (run_bind_some _ _ _ _ _ (run_base_at _ _ _ Hr')), Es; fold now.
    assert (N : ns (expires t) < ns now) by (apply Z.ltb_lt; rewrite <- tv64_lt by done; now apply Z.ltb_lt).
    destruct (hrtimer_forward_spec fuel a now (it_real_incr a) s t r' Ht Hr' Vn Ve Vi) as (e & V & Ee & Lt & Run);
      rewrite ?Er; try done.
    rewrite Er in Run; fold iv m in Run, Ee.
    assert (M : m <> 0).
    { unfold m, overruns; rewrite (proj2 (Z.ltb_ge _ _)) by lia; assert (P : 0 <= (ns now - ns (expires t)) / iv) by (apply Z.div_pos; lia); set (d := _ / iv) in *; clearbody d; lia. }
    rewrite (run_bind_some _ _ _ _ _ Run), (proj2 (Z.eqb_neq m 0) M).
    exists e, HRTIMER_RESTART; split; [done|]; intros _; apply Z.lt_le_incl, Z.ltb_lt; rewrite tv64_lt by done; apply Z.ltb_lt.
    specialize (Lt ltac:(lia)); lia.
  - exists (expires t), HRTIMER_NORESTART; split; [|done]; unfold ret; do 2 f_equal.
    unfold with_expires; destruct t, s; simpl in *; unfold set_timers; simpl; now rewrite insert_id.
Qed.
End Itimer.
