(* ===== verification/HrtimerCorrect.v ===== *)
(** * High-resolution timers: the properties, with witnesses *)

From Stdlib Require Import Sorted.
#[local] Set Warnings "-notation-incompatible-prefix".
From S2P Require Import Prelude Rbtree RbtreeRep RbtreeOps RbtreeInsert RbtreeErase RbtreeSpec RbtreeWalk.
From S2P Require Import Ktime Hrtimer HrtimerForward HrtimerQueue HrtimerSystem HrtimerOps HrtimerExpire.
From stdpp Require Import gmap.
#[local] Open Scope Z_scope.

(** C20: Starting a timer.  Whatever the state of the timer, [hrtimer_start]
    returns whether it was queued; afterwards it is in the queue of the base
    it belongs to, which is that of this CPU unless its callback is running,
    behind the timers that expire no later and before the others; it has left
    every other queue.  Relative times count from the clock of the new base.
    All bases keep their invariants, no other timer changes, and no callback
    is called. *)
Theorem hrtimer_start_correct {K : Ktime} SMP LOW_RES get_time this_cpu fuel q s a t r nr tim mode :
  sys q s -> fuel_enough fuel q -> timers s !! a = Some t -> bases s !! base t = Some r ->
  let nb := target SMP this_cpu r a (base t) in
  is_Some (q !! nb) -> bases s !! nb = Some nr ->
  let e := start_time LOW_RES get_time tim mode r nr in
  exists s', hrtimer_start SMP LOW_RES get_time this_cpu fuel a tim mode s =
      Some (if bool_decide (a ∈ default [] (q !! base t)) then 1 else 0, s') /\
    sys (requeue (exp_of s') a (base t) nb q) s' /\ only_timer a (mktimer e (function t) nb) s s'.
Proof. exact (hrtimer_start_spec SMP LOW_RES get_time this_cpu fuel q s a t r nr tim mode). Qed.


(** C19: Every timer that is due fires, once and in order.  If the callbacks of
    the due timers change at most the expiry of their own timer, and restart it
    only for a time that is not before that of the run, [run_hrtimer_queue] ends
    after as many iterations as timers are due, having called exactly their
    callbacks, in the order of their expiry; the queue then holds the timers
    that were not due and restarted ones, none of which is due; all other
    queues, timers and bases are as before. *)
Theorem hrtimer_expiry_correct {K : Ktime} SMP get_softirq_time call fuel n q s b r xs (T := run_time get_softirq_time r) :
  sys q s -> q !! b = Some xs -> bases s !! b = Some r ->
  (forall a t, a ∈ due T s xs -> timers s !! a = Some t -> polite call (at_time T r) a t) ->
  fuel_for fuel xs -> (length (due T s xs) <= n)%nat ->
  exists s' xs', run_hrtimer_queue SMP get_softirq_time call fuel n b s = Some (tt, s') /\ sys (<[b := xs']> q) s' /\
    fired s' = fired s ++ due T s xs /\ Forall (fun c => T <= exp_of s' c) xs' /\
    (forall c, c ∈ not_due T s xs -> c ∈ xs') /\ (forall c, c ∈ xs' -> c ∈ xs) /\
    (forall c, c ∉ due T s xs -> timers s' !! c = timers s !! c) /\
    (forall b', b' <> b -> with_first NULL <$> bases s' !! b' = with_first NULL <$> bases s !! b').
Proof. exact (run_hrtimer_queue_spec SMP get_softirq_time call fuel n q s b r xs). Qed.

(** C29: Interval timers restart in the future.  For both representations of
    time, [it_real_fn], called for a timer that is due, either does not restart
    it or has moved its expiry by whole intervals (at least the resolution of
    the clock) to a time that is not before that of the queue run: it is a
    callback as the queue run needs it.  The hypotheses are that the times are
    well-formed and the new expiry is representable. *)
Theorem it_real_fn_correct {K : Ktime} {L : KtimeLaws K} call fuel it_real_incr send r a t :
  (forall a s, send a s = Some (tt, s)) ->
  call (function t) a = it_real_fn fuel it_real_incr send a ->
  let now := softirq_time r in
  let iv := Z.max (ns (it_real_incr a)) (ns (resolution r)) in
  let m := overruns (ns now) (ns (expires t)) iv in
  valid now -> valid (expires t) -> valid (it_real_incr a) -> valid (resolution r) -> expires t < now ->
  0 < iv -> in_range (ns now - ns (expires t)) -> m < 2 ^ BITS_PER_LONG -> in_range (m * iv) ->
  in_range (ns (expires t) + m * iv) -> (31 <= fuel)%nat ->
  polite call r a t.
Proof. intros Send; exact (it_real_fn_polite call fuel it_real_incr send Send r a t). Qed.

(** C28: Forwarding an expiry.  For both representations of time,
    [hrtimer_forward] returns the least number [n] of intervals (of at least
    the resolution of the clock) after which the expiry is later than [now],
    and moves the expiry by exactly [n] intervals; it returns 0 and changes
    nothing when the timer has not expired.  The division of the 32-bit
    variant, which drops low bits of dividend and divisor, may be one too
    large; the result is exact all the same. *)
Theorem hrtimer_forward_correct {K : Ktime} {L : KtimeLaws K} fuel a now interval s t r :
  timers s !! a = Some t -> bases s !! base t = Some r ->
  valid now -> valid (expires t) -> valid interval -> valid (resolution r) ->
  let iv := Z.max (ns interval) (ns (resolution r)) in
  let n := overruns (ns now) (ns (expires t)) iv in
  0 < iv -> in_range (ns now - ns (expires t)) ->
  n < 2 ^ BITS_PER_LONG -> in_range (n * iv) -> in_range (ns (expires t) + n * iv) -> (31 <= fuel)%nat ->
  exists e, valid e /\ ns e = ns (expires t) + n * iv /\
    (ns (expires t) <= ns now -> ns now < ns e <= ns now + iv) /\
    hrtimer_forward fuel a now interval s =
      Some (n, if n =? 0 then s else with_expires a e t s).
Proof. exact (hrtimer_forward_spec fuel a now interval s t r). Qed.

(** Hotplug.  [migrate_hrtimer_list] ends after as many iterations as the
    old base has timers; then that base is empty, the new one holds its timers
    merged with the old ones in the order of expiry, each of them belongs to
    the new base and keeps its expiry and callback, and nothing is fired. *)
Theorem migrate_hrtimer_list_correct {K : Ktime} fuel ob nb xs n q s ys :
  sys q s -> ob <> nb -> q !! ob = Some xs -> q !! nb = Some ys ->
  fuel_for fuel (xs ++ ys) -> (length xs <= n)%nat ->
  exists s', migrate_hrtimer_list fuel n ob nb s = Some (tt, s') /\
    sys (<[nb := merge_by (exp_of s) xs ys]> (<[ob := []]> q)) s' /\ fired s' = fired s /\ same_bases s s' /\
    (forall a t, a ∈ xs -> timers s !! a = Some t -> timers s' !! a = Some (mktimer (expires t) (function t) nb)) /\
    (forall a, a ∉ xs -> timers s' !! a = timers s !! a).
Proof. exact (migrate_spec fuel ob nb xs n q s ys). Qed.

(** ** Witnesses: two timers queued on base 100, one idle, base 200 empty *)

Definition demo_timers : gmap Z hrtimer :=
  <[8 := mktimer 5 0 100]> (<[16 := mktimer 9 0 100]> (<[24 := mktimer 7 0 100]> ∅)).
Definition demo_bases : gmap Z hrtimer_base :=
  <[100 := mkbase 0 8 1 0 6]> (<[200 := mkbase 0 0 1 0 6]> ∅).
Definition demo_trees : store :=
  mkstore (<[8 := cell 0 Black 0 16]> (<[16 := cell 8 Red 0 0]> (<[24 := cell 24 Red 0 0]> ∅)))
    (<[100 := 8]> (<[200 := 0]> ∅)).
Definition demo : hstate := mkh demo_trees demo_timers demo_bases [].
Definition demo_queues : queues := <[100 := [8; 16]]> (<[200 := []]> ∅).

Lemma demo_addr_good a : a = 8 \/ a = 16 \/ a = 24 -> good a.
Proof. intros [->|[->| ->]]; (split; [lia|]); [now exists 2|now exists 4|now exists 6]. Qed.

Lemma demo_queue b xs : demo_queues !! b = Some xs -> b = 100 /\ xs = [8; 16] \/ b = 200 /\ xs = [].
Proof.
  unfold demo_queues; intros [[<- <-]|[_ [[<- <-]|[_ H]]%lookup_insert_Some]]%lookup_insert_Some; [now left|now right|done].
Qed.
Lemma demo_timer a t : demo_timers !! a = Some t ->
  a = 8 /\ t = mktimer 5 0 100 \/ a = 16 /\ t = mktimer 9 0 100 \/ a = 24 /\ t = mktimer 7 0 100.
Proof.
  unfold demo_timers.
  intros [[<- <-]|[_ [[<- <-]|[_ [[<- <-]|[_ H]]%lookup_insert_Some]]%lookup_insert_Some]]%lookup_insert_Some; auto; done.
Qed.

Lemma demo_sys : sys demo_queues demo.
Proof.
  constructor.
  - intros b xs [[-> ->]|[-> ->]]%demo_queue.
    + exists (T Black E 8 (T Red E 16 E)), (mkbase 0 8 1 0 6); split; [|split].
      * split; [done|]; split; [now vm_compute|]; split; [apply (bool_decide_unpack _); vm_compute; exact I|].
        repeat constructor; apply demo_addr_good; auto.
      * exists 1%nat; repeat constructor.
      * split; [done|]; split; [done|]; split; [done|]; split.
        { intros a; rewrite !elem_of_cons; intros [->|[->|H]]; [eauto..|inversion H]. }
        repeat constructor; vm_compute; done.
    + exists E, (mkbase 0 0 1 0 6); split; [|split].
      * split; [done|]; split; [done|]; split; constructor.
      * exists O; constructor.
      * split; [done|]; split; [done|]; split; [done|]; split; [intros a H; inversion H|constructor].
  - intros b xs a [[-> ->]|[-> ->]]%demo_queue; [|intros H; inversion H].
    rewrite !elem_of_cons; intros [->|[->|H]]; [eexists; split; done..|inversion H].
  - intros a t [[-> ->]|[[-> ->]|[-> ->]]]%demo_timer; (split; [apply demo_addr_good; auto|]); (split; [now eexists|]).
    + right; exists [8; 16]; split; [done|now left].
    + right; exists [8; 16]; split; [done|right; now left].
    + left; now exists Red, 0, 0.
  - done.
Qed.

Lemma demo_fuel n : (4 <= n)%nat -> fuel_enough n demo_queues.
Proof. intros H b xs [[-> ->]|[-> ->]]%demo_queue; unfold fuel_for; simpl; lia. Qed.

(** The idle timer is started on the other CPU. *)
Lemma hrtimer_start_correct_witness :
  exists s', hrtimer_start (K := scalar) true false (fun _ => 3) (fun _ => 200) 4 24 40 HRTIMER_REL demo = Some (0, s') /\
    sys (requeue (exp_of s') 24 100 200 demo_queues) s' /\ timers s' !! 24 = Some (mktimer 43 0 200).
Proof.
  destruct (hrtimer_start_correct (K := scalar) true false (fun _ => 3) (fun _ => 200) 4 demo_queues demo 24
    (mktimer 7 0 100) (mkbase 0 8 1 0 6) (mkbase 0 0 1 0 6) 40 HRTIMER_REL demo_sys (demo_fuel 4 ltac:(lia)) eq_refl eq_refl
    ltac:(now eexists) eq_refl) as (s' & R & S & (Et & _)).
  exists s'; split; [exact R|]; split; [exact S|]; rewrite Et; apply lookup_insert_eq.
Defined.


(** Callback 0 forwards its timer by 3 and restarts it. *)
Definition demo_call : Z -> Z -> ST hstate Z := fun _ => it_real_fn (K := scalar) 31 (fun _ => 3) (fun _ => ret tt).

Lemma it_real_fn_correct_witness :
  5 < 6 /\ polite demo_call (mkbase 0 8 1 0 6) 8 (mktimer 5 0 100).
Proof.
  split; [lia|].
  apply (it_real_fn_correct (K := scalar) (L := scalar_laws) demo_call 31 (fun _ => 3) (fun _ => ret tt)
    (mkbase 0 8 1 0 6) 8 (mktimer 5 0 100)); try done; try (vm_compute; done); try (vm_compute; split; done); lia.
Defined.

Lemma hrtimer_expiry_correct_witness :
  due 6 demo [8; 16] = [8] /\
  exists s' xs', run_hrtimer_queue true (fun _ => None) demo_call 4 1 100 demo = Some (tt, s') /\
    sys (<[100 := xs']> demo_queues) s' /\ fired s' = [8].
Proof.
  split; [done|].
  destruct (hrtimer_expiry_correct (K := scalar) true (fun _ => None) demo_call 4 1 demo_queues demo 100 (mkbase 0 8 1 0 6) [8; 16]
    demo_sys eq_refl eq_refl) as (s' & xs' & R & S & F & _).
  - intros a t H; change (due _ demo [8; 16]) with [8] in H; apply list_elem_of_singleton in H as ->; intros [= <-].
    apply (it_real_fn_polite (K := scalar) (L := scalar_laws) demo_call 31 (fun _ => 3) (fun _ => ret tt));
      try done; try (vm_compute; done); try (vm_compute; split; done); lia.
  - unfold fuel_for; simpl; lia.
  - vm_compute; lia.
  - exists s', xs'; split; [exact R|]; split; [exact S|exact F].
Defined.

Lemma hrtimer_forward_correct_witness :
  exists e, hrtimer_forward (K := scalar) 31 8 6 3 demo = Some (1, with_expires 8 e (mktimer 5 0 100) demo) /\ e = 8.
Proof.
  destruct (hrtimer_forward_correct (K := scalar) (L := scalar_laws) 31 8 6 3 demo (mktimer 5 0 100) (mkbase 0 8 1 0 6))
    as (e & _ & Ee & _ & R); try done; try (vm_compute; done); try (vm_compute; split; done); try lia.
  exists e; split; [exact R|]; exact Ee.
Defined.

Lemma migrate_hrtimer_list_correct_witness :
  exists s', migrate_hrtimer_list 4 2 100 200 demo = Some (tt, s') /\
    sys (<[200 := [8; 16]]> (<[100 := []]> demo_queues)) s'.
Proof.
  destruct (migrate_hrtimer_list_correct (K := scalar) 4 100 200 [8; 16] 2 demo_queues demo [] demo_sys ltac:(lia) eq_refl eq_refl
    ltac:(unfold fuel_for; simpl; lia) ltac:(simpl; lia)) as (s' & R & S & _).
  exists s'; split; [exact R|exact S].
Defined.
