(* ===== verification/Kfifo.v ===== *)
(** * Byte queues: the code

    Models [kernel/kfifo.c], [include/linux/kfifo.h] and the bit search they
    use.  [in] and [out] are free-running 32-bit counters; the buffer is a list
    of bytes.  An access outside of an array and a failed [BUG_ON] are [None].
    [memcpy] is a sequence of copies of single bytes, each a pair of the index
    written and the index read, so that the concurrent model can take them
    apart.  The locked variants are the unlocked ones under [fifo->lock]. *)

#[local] Set Warnings "-notation-incompatible-prefix".
From S2P Require Import Prelude.
From stdpp Require Import list.
#[local] Open Scope Z_scope.

Record kfifo := mkfifo { buffer : list Z; size : Z; in_ : Z; out : Z }.

(** The macro [min]. *)
Definition umin (x y : Z) : Z := if x <? y then x else y.

(** ** Copying *)

Definition copy_byte (dst src : list Z) (c : Z * Z) : option (list Z) :=
  match src !! Z.to_nat (snd c) with
  | Some b => if (0 <=? snd c) && (0 <=? fst c) && (fst c <? Z.of_nat (length dst)) then Some (<[Z.to_nat (fst c) := b]> dst) else None
  | None => None
  end.

Fixpoint copy_bytes (cs : list (Z * Z)) (src dst : list Z) : option (list Z) :=
  match cs with
  | [] => Some dst
  | c :: cs => match copy_byte dst src c with Some dst => copy_bytes cs src dst | None => None end
  end.

(** The byte copies of [memcpy(dst + to, src + from, n)]. *)
Definition memcpy (to from n : Z) : list (Z * Z) :=
  map (fun i => (to + Z.of_nat i, from + Z.of_nat i)) (seq 0 (Z.to_nat n)).

(** ** Operations *)

(** The copies [__kfifo_put] makes for [len] bytes. *)
Definition put_copies (size in_ len : Z) : list (Z * Z) :=
  let off := Z.land in_ (wrap 32 (size - 1)) in
  let l := umin len (wrap 32 (size - off)) in
  memcpy off 0 l ++ memcpy 0 l (wrap 32 (len - l)).

Definition put_len (fifo : kfifo) (len : Z) : Z := umin len (wrap 32 (size fifo - in_ fifo + out fifo)).

Definition __kfifo_put (fifo : kfifo) (data : list Z) (len : Z) : option (Z * kfifo) :=
  let len := put_len fifo len in
  match copy_bytes (put_copies (size fifo) (in_ fifo) len) data (buffer fifo) with
  | Some b => Some (len, mkfifo b (size fifo) (wrap 32 (in_ fifo + len)) (out fifo))
  | None => None
  end.

(** The copies [__kfifo_get] makes for [len] bytes. *)
Definition get_copies (size out len : Z) : list (Z * Z) :=
  let off := Z.land out (wrap 32 (size - 1)) in
  let l := umin len (wrap 32 (size - off)) in
  memcpy 0 off l ++ memcpy l 0 (wrap 32 (len - l)).

Definition get_len (fifo : kfifo) (len : Z) : Z := umin len (wrap 32 (in_ fifo - out fifo)).

(** The result, the destination and the queue. *)
Definition __kfifo_get (fifo : kfifo) (dst : list Z) (len : Z) : option (Z * list Z * kfifo) :=
  let len := get_len fifo len in
  match copy_bytes (get_copies (size fifo) (out fifo) len) (buffer fifo) dst with
  | Some d => Some (len, d, mkfifo (buffer fifo) (size fifo) (in_ fifo) (wrap 32 (out fifo + len)))
  | None => None
  end.

Definition __kfifo_reset (fifo : kfifo) : kfifo := mkfifo (buffer fifo) (size fifo) 0 0.
Definition __kfifo_len (fifo : kfifo) : Z := wrap 32 (in_ fifo - out fifo).

Definition kfifo_reset (fifo : kfifo) : kfifo := __kfifo_reset fifo.
Definition kfifo_put (fifo : kfifo) (data : list Z) (len : Z) : option (Z * kfifo) := __kfifo_put fifo data len.
Definition kfifo_get (fifo : kfifo) (dst : list Z) (len : Z) : option (Z * list Z * kfifo) :=
  match __kfifo_get fifo dst len with
  | Some (ret, d, fifo) => Some (ret, d, if in_ fifo =? out fifo then mkfifo (buffer fifo) (size fifo) 0 0 else fifo)
  | None => None
  end.
Definition kfifo_len (fifo : kfifo) : Z := __kfifo_len fifo.

(** ** Allocation *)

(** One step of [fls]: [if (!(x & mask)) { x <<= s; r -= s; }]. *)
Definition fls_step (mask s : Z) (p : Z * Z) : Z * Z :=
  if tst (Z.land (fst p) mask) then p else (wrap 32 (Z.shiftl (fst p) s), snd p - s).
Definition fls (x : Z) : Z :=
  if tst x then
    snd (fls_step 0x80000000 1 (fls_step 0xc0000000 2 (fls_step 0xf0000000 4
      (fls_step 0xff000000 8 (fls_step 0xffff0000 16 (x, 32))))))
  else 0.
Definition fls64 (x : Z) : Z :=
  let h := wrap 32 (Z.shiftr x 32) in if tst h then fls h + 32 else fls (wrap 32 x).

Section Alloc.
(** [BITS] is the width of [long]; [fresh n] is what the [n] bytes of a new
    block hold. *)
Context (BITS : Z) (fresh : Z -> list Z).

Definition fls_long (l : Z) : Z := if BITS =? 32 then fls l else fls64 l.
Definition roundup_pow_of_two (x : Z) : Z := wrap BITS (Z.shiftl 1 (fls_long (wrap BITS (x - 1)))).

Definition ENOMEM : Z := 12.

(** The state is the number of allocated blocks; [ok] tells whether an
    allocation succeeds. *)
Definition kmalloc (ok : bool) : ST Z bool := if ok then modify (fun n => n + 1) ;;; ret true else ret false.
Definition kfree : ST Z unit := modify (fun n => n - 1).

Definition kfifo_init (ok : bool) (buf : list Z) (size : Z) : ST Z (Z + kfifo) :=
  if tst (Z.land size (wrap 32 (size - 1))) then lift None
  else
    got <- kmalloc ok ;;
    if got then ret (inr (mkfifo buf size 0 0)) else ret (inl (- ENOMEM)).

(** [ok1] and [ok2] are the outcomes of the two allocations. *)
Definition kfifo_alloc (ok1 ok2 : bool) (size : Z) : ST Z (Z + kfifo) :=
  size <- (if tst (Z.land size (wrap 32 (size - 1))) then
             if size >? 0x80000000 then lift None else ret (wrap 32 (roundup_pow_of_two size))
           else ret size) ;;
  got <- kmalloc ok1 ;;
  if got then
    r <- kfifo_init ok2 (fresh size) size ;;
    match r with
    | inl e => kfree ;;; ret (inl e)
    | inr f => ret (inr f)
    end
  else ret (inl (- ENOMEM)).

Definition kfifo_free : ST Z unit := kfree ;;; kfree.
End Alloc.
