(* ===== verification/KfifoConc.v ===== *)
(** * Byte queues: one reader and one writer

    The interleavings of one thread that calls [__kfifo_put] and one that calls
    [__kfifo_get], without lock, as a step relation.  Each call reads the
    counter of the other side once, copies its bytes one by one in any order,
    and then publishes its own counter; the memory barriers of the source order
    these three phases.  [sent] and [received] are the bytes of all completed
    calls. *)

#[local] Set Warnings "-notation-incompatible-prefix".
From S2P Require Import Prelude.
From stdpp Require Import list relations.
From S2P Require Import Kfifo.
#[local] Open Scope Z_scope.

(** ** Positions in the ring *)

Definition ring (buf : list Z) (p : Z) : Z := buf !!! Z.to_nat (p mod Z.of_nat (length buf)).
(** The [n] bytes from position [p]. *)
Definition slice (buf : list Z) (p : Z) (n : nat) : list Z := map (fun i => ring buf (p + Z.of_nat i)) (seq 0 n).
Definition contents (f : kfifo) : list Z := slice (buffer f) (out f) (Z.to_nat (__kfifo_len f)).

(** ** The step relation *)

Inductive writer := WIdle | WCopy (len : Z) (data : list Z) (todo : list (Z * Z)).
Inductive reader := RIdle | RCopy (len : Z) (dst : list Z) (todo : list (Z * Z)).
Record system := mksystem { fifo : kfifo; wr : writer; rd : reader; sent : list Z; received : list Z }.

Definition with_buffer (b : list Z) (f : kfifo) : kfifo := mkfifo b (size f) (in_ f) (out f).

Inductive step : system -> system -> Prop :=
| put_begin f r s v data len :
    0 <= len <= Z.of_nat (length data) ->
    step (mksystem f WIdle r s v)
      (mksystem f (WCopy (put_len f len) data (put_copies (size f) (in_ f) (put_len f len))) r s v)
| put_byte f len data t1 c t2 r s v b :
    copy_byte (buffer f) data c = Some b ->
    step (mksystem f (WCopy len data (t1 ++ c :: t2)) r s v)
      (mksystem (with_buffer b f) (WCopy len data (t1 ++ t2)) r s v)
| put_end f len data r s v :
    step (mksystem f (WCopy len data []) r s v)
      (mksystem (mkfifo (buffer f) (size f) (wrap 32 (in_ f + len)) (out f)) WIdle r (s ++ take (Z.to_nat len) data) v)
| get_begin f w s v dst len :
    0 <= len <= Z.of_nat (length dst) ->
    step (mksystem f w RIdle s v)
      (mksystem f w (RCopy (get_len f len) dst (get_copies (size f) (out f) (get_len f len))) s v)
| get_byte f w len dst t1 c t2 s v d :
    copy_byte dst (buffer f) c = Some d ->
    step (mksystem f w (RCopy len dst (t1 ++ c :: t2)) s v) (mksystem f w (RCopy len d (t1 ++ t2)) s v)
| get_end f w len dst s v :
    step (mksystem f w (RCopy len dst []) s v)
      (mksystem (mkfifo (buffer f) (size f) (in_ f) (wrap 32 (out f + len))) w RIdle s (v ++ take (Z.to_nat len) dst)).

Abbreviation steps := (rtc step).

(** ** The ring *)

Section Ring.
Context (k : Z) (Hk : 0 <= k <= 31).

Lemma size_pos : 0 < 2 ^ k <= 2 ^ 31.
Proof using Hk. split; [apply Z.pow_pos_nonneg; lia|apply Z.pow_le_mono_r; lia]. Qed.
Lemma size_divides : 2 ^ 32 = 2 ^ k * 2 ^ (32 - k).
Proof using Hk. rewrite <- Z.pow_add_r by lia; f_equal; lia. Qed.

Lemma wrap_mod x : wrap 32 x mod 2 ^ k = x mod 2 ^ k.
Proof using Hk.
  unfold wrap; pose proof size_pos; pose proof (Z.pow_pos_nonneg 2 (32 - k) ltac:(lia) ltac:(lia)).
  rewrite size_divides, Z.rem_mul_r, Z.mul_comm, Z_mod_plus_full, Z.mod_mod by lia; done.
Qed.

Lemma distinct p p' : p <> p' -> Z.abs (p - p') < 2 ^ k -> p mod 2 ^ k <> p' mod 2 ^ k.
Proof using Hk.
  intros N A E; pose proof size_pos.
  pose proof (Z.div_mod p (2 ^ k) ltac:(lia)) as D; pose proof (Z.div_mod p' (2 ^ k) ltac:(lia)) as D'; rewrite E in D.
  assert (p / 2 ^ k = p' / 2 ^ k) by nia; congruence.
Qed.

(** The two calls of [memcpy] visit consecutive positions of the ring. *)
Lemma ring_offsets pos len : 0 <= pos -> 0 <= len <= 2 ^ k ->
  let off := Z.land pos (wrap 32 (2 ^ k - 1)) in
  let l := umin len (wrap 32 (2 ^ k - off)) in
  0 <= l <= len /\ wrap 32 (len - l) = len - l /\
  (forall i, 0 <= i < l -> off + i = (pos + i) mod 2 ^ k) /\
  (forall i, 0 <= i < len - l -> i = (pos + (l + i)) mod 2 ^ k).
Proof using Hk.
  intros Hp Hl; pose proof size_pos as Hs.
  rewrite (wrap_small 32 (2 ^ k - 1)) by lia.
  replace (2 ^ k - 1) with (Z.ones k) by (rewrite Z.ones_equiv; lia); rewrite Z.land_ones by lia.
  pose proof (Z.mod_pos_bound pos (2 ^ k) ltac:(lia)) as Ho; set (off := pos mod 2 ^ k) in *; intros off' l; subst off'.
  assert (El : l = Z.min len (2 ^ k - off)) by (unfold l, umin; rewrite wrap_small by lia; destruct (Z.ltb_spec len (2 ^ k - off)); lia).
  clearbody l; split; [lia|]; split; [apply wrap_small; lia|].
  assert (M : forall x, (pos + x) mod 2 ^ k = (off + x) mod 2 ^ k) by (intros; unfold off; now rewrite Zplus_mod_idemp_l).
  split; intros i Hi; rewrite M; [now rewrite Z.mod_small by lia|].
  replace (off + (l + i)) with (i + 1 * 2 ^ k) by lia; rewrite Z_mod_plus_full; now rewrite Z.mod_small by lia.
Qed.

Lemma seq_split n m : (n <= m)%nat -> seq 0 m = seq 0 n ++ map (fun i => (n + i)%nat) (seq 0 (m - n)).
Proof using.
  intros H; replace m with (n + (m - n))%nat at 1 by lia; rewrite seq_app; f_equal; simpl.
  generalize (m - n)%nat; clear; intros m; revert n; induction m as [|m IH]; intros n; simpl; [done|].
  rewrite <- (seq_shift m 0), map_map, (IH (S n)), Nat.add_0_r; f_equal; apply map_ext; intros; lia.
Qed.

Lemma put_copies_ring pos len : 0 <= pos -> 0 <= len <= 2 ^ k ->
  put_copies (2 ^ k) pos len = map (fun i => ((pos + Z.of_nat i) mod 2 ^ k, Z.of_nat i)) (seq 0 (Z.to_nat len)).
Proof using Hk.
  intros Hp Hl; destruct (ring_offsets pos len Hp Hl) as (L & W & A & B); unfold put_copies, memcpy; cbv zeta in *.
  set (off := Z.land pos _) in *; set (l := umin _ _) in *; rewrite W.
  rewrite (seq_split (Z.to_nat l) (Z.to_nat len)), map_app, map_map, <- Z2Nat.inj_sub by lia; f_equal; apply map_ext_in; intros i [_ Hi]%in_seq.
  - rewrite A by lia; f_equal; lia.
  - rewrite Z.add_0_l; apply (f_equal2 pair); [|lia]; rewrite (B (Z.of_nat i)) by lia; f_equal; lia.
Qed.

Lemma get_copies_ring pos len : 0 <= pos -> 0 <= len <= 2 ^ k ->
  get_copies (2 ^ k) pos len = map (fun i => (Z.of_nat i, (pos + Z.of_nat i) mod 2 ^ k)) (seq 0 (Z.to_nat len)).
Proof using Hk.
  intros Hp Hl; destruct (ring_offsets pos len Hp Hl) as (L & W & A & B); unfold get_copies, memcpy; cbv zeta in *.
  set (off := Z.land pos _) in *; set (l := umin _ _) in *; rewrite W.
  rewrite (seq_split (Z.to_nat l) (Z.to_nat len)), map_app, map_map, <- Z2Nat.inj_sub by lia; f_equal; apply map_ext_in; intros i [_ Hi]%in_seq.
  - rewrite A by lia; f_equal; lia.
  - rewrite Z.add_0_l; apply (f_equal2 pair); [lia|]; rewrite (B (Z.of_nat i)) by lia; f_equal; lia.
Qed.
End Ring.
