(* ===== verification/KfifoInv.v ===== *)
(** * Byte queues: the invariant of the interleavings *)

#[local] Set Warnings "-notation-incompatible-prefix".
From S2P Require Import Prelude.
From stdpp Require Import list relations.
From S2P Require Import Kfifo KfifoConc.
#[local] Open Scope Z_scope.

Lemma slice_app buf p n m : slice buf p (n + m) = slice buf p n ++ slice buf (p + Z.of_nat n) m.
Proof.
  unfold slice; rewrite (seq_split n (n + m)), map_app, map_map by lia; f_equal; replace (n + m - n)%nat with m by lia.
  apply map_ext; intros i; f_equal; lia.
Qed.
Lemma slice_ext buf buf' p n : (forall i, 0 <= i < Z.of_nat n -> ring buf' (p + i) = ring buf (p + i)) -> slice buf' p n = slice buf p n.
Proof. intros H; apply map_ext_in; intros i [_ Hi]%in_seq; apply H; lia. Qed.
Lemma length_slice buf p n : length (slice buf p n) = n.
Proof. unfold slice; now rewrite length_map, length_seq. Qed.

(** Bytes that are where they belong make up a slice. *)
Lemma slice_of buf p (l : list Z) n : (n <= length l)%nat ->
  (forall i, 0 <= i < Z.of_nat n -> ring buf (p + i) = l !!! Z.to_nat i) -> slice buf p n = take n l.
Proof.
  intros Hn H; apply list_eq; intros i; destruct (decide (i < n)%nat) as [L|L].
  - rewrite lookup_take_lt by lia; unfold slice; rewrite list_lookup_fmap, lookup_seq_lt by lia; simpl.
    rewrite H, Nat2Z.id by lia; symmetry; apply list_lookup_lookup_total_lt; lia.
  - rewrite lookup_take_ge by lia; apply lookup_ge_None; rewrite length_slice; lia.
Qed.

Lemma todo_here {A} (c : A) t1 t2 : c ∈ t1 ++ c :: t2.
Proof. rewrite elem_of_app, elem_of_cons; auto. Qed.
Lemma todo_rest {A} (c d : A) t1 t2 : d <> c -> d ∈ t1 ++ c :: t2 -> d ∈ t1 ++ t2.
Proof. rewrite !elem_of_app, elem_of_cons; tauto. Qed.
Lemma todo_more {A} (c d : A) t1 t2 : d ∈ t1 ++ t2 -> d ∈ t1 ++ c :: t2.
Proof. rewrite !elem_of_app, elem_of_cons; tauto. Qed.

Lemma slice_counters buf m n len : m <= n -> 0 <= len ->
  slice buf m (Z.to_nat (n + len - m)) = slice buf m (Z.to_nat (n - m)) ++ slice buf n (Z.to_nat len).
Proof.
  intros; replace (Z.to_nat (n + len - m)) with (Z.to_nat (n - m) + Z.to_nat len)%nat by lia.
  rewrite slice_app; do 2 f_equal; lia.
Qed.
Lemma fifo_wrap_add a b : wrap 32 (wrap 32 a + b) = wrap 32 (a + b).
Proof. unfold wrap; now rewrite Zplus_mod_idemp_l. Qed.

Section Inv.
Context (k : Z) (Hk : 0 <= k <= 31).
#[local] Abbreviation sz := (2 ^ k).

Definition ring_buffer (f : kfifo) : Prop := size f = sz /\ Z.of_nat (length (buffer f)) = sz.

Lemma ring_insert buf p p' b : Z.of_nat (length buf) = sz ->
  ring (<[Z.to_nat (p mod sz) := b]> buf) p' = if decide (p' mod sz = p mod sz) then b else ring buf p'.
Proof using Hk.
  intros L; pose proof (size_pos k Hk); unfold ring; rewrite length_insert, L.
  pose proof (Z.mod_pos_bound p sz ltac:(lia)); pose proof (Z.mod_pos_bound p' sz ltac:(lia)).
  case_decide as D; [rewrite D; apply list_lookup_total_insert_eq; lia|].
  apply list_lookup_total_insert_ne; lia.
Qed.

(** [m] and [n] are the counters [out] and [in] without wrap-around. *)
Definition counters (f : kfifo) (m n : Z) : Prop :=
  m <= n <= m + sz /\ in_ f = wrap 32 n /\ out f = wrap 32 m.

Definition writer_ok (buf : list Z) (m n : Z) (w : writer) : Prop :=
  match w with
  | WIdle => True
  | WCopy len data todo =>
      0 <= len <= Z.of_nat (length data) /\ n + len <= m + sz /\
      (forall c, c ∈ todo -> exists i, 0 <= i < len /\ c = ((n + i) mod sz, i)) /\
      (forall i, 0 <= i < len -> ((n + i) mod sz, i) ∈ todo \/ ring buf (n + i) = data !!! Z.to_nat i)
  end.
Definition reader_ok (buf : list Z) (m n : Z) (r : reader) : Prop :=
  match r with
  | RIdle => True
  | RCopy len dst todo =>
      0 <= len <= Z.of_nat (length dst) /\ m + len <= n /\
      (forall c, c ∈ todo -> exists i, 0 <= i < len /\ c = (i, (m + i) mod sz)) /\
      (forall i, 0 <= i < len -> (i, (m + i) mod sz) ∈ todo \/ ring buf (m + i) = dst !!! Z.to_nat i)
  end.

Definition inv_at (m n : Z) (s : system) : Prop :=
  ring_buffer (fifo s) /\ counters (fifo s) m n /\
  sent s = received s ++ slice (buffer (fifo s)) m (Z.to_nat (n - m)) /\
  writer_ok (buffer (fifo s)) m n (wr s) /\ reader_ok (buffer (fifo s)) m n (rd s).
Definition inv (s : system) : Prop := exists m n, inv_at m n s.
Lemma inv_intro m n s : inv_at m n s -> inv s.
Proof using. now exists m, n. Qed.

(** ** The counters *)

Lemma wrap_sub a b : wrap 32 (wrap 32 a - wrap 32 b) = wrap 32 (a - b).
Proof using. unfold wrap; now rewrite <- Zminus_mod. Qed.

Lemma counters_len f m n : counters f m n -> __kfifo_len f = n - m.
Proof using Hk.
  intros (R & Ei & Eo); pose proof (size_pos k Hk); unfold __kfifo_len; rewrite Ei, Eo, wrap_sub; apply wrap_small; lia.
Qed.
Lemma counters_free f m n : size f = sz -> counters f m n -> wrap 32 (size f - in_ f + out f) = sz - (n - m).
Proof using Hk.
  intros Es C; pose proof (counters_len f m n C) as L; destruct C as (R & Ei & Eo); pose proof (size_pos k Hk); rewrite Es.
  replace (sz - in_ f + out f) with (sz - (in_ f - out f)) by lia; unfold __kfifo_len in L.
  rewrite <- (wrap_small 32 (sz - (n - m))) by lia; rewrite <- L; unfold wrap; now rewrite Zminus_mod_idemp_r.
Qed.
Lemma umin_min x y : umin x y = Z.min x y.
Proof using. unfold umin; destruct (Z.ltb_spec x y); lia. Qed.
Lemma put_len_min f m n len : size f = sz -> counters f m n -> put_len f len = Z.min len (sz - (n - m)).
Proof using Hk. intros Es C; unfold put_len; now rewrite (counters_free f m n), umin_min. Qed.
Lemma get_len_min f m n len : counters f m n -> get_len f len = Z.min len (n - m).
Proof using Hk. intros C; unfold get_len; fold (__kfifo_len f); now rewrite (counters_len f m n), umin_min. Qed.

Lemma wrap_pos x : 0 <= wrap 32 x.
Proof using. unfold wrap; apply Z.mod_pos_bound; lia. Qed.
Lemma wrap_ring x i : (wrap 32 x + i) mod sz = (x + i) mod sz.
Proof using Hk. rewrite <- Zplus_mod_idemp_l, wrap_mod, Zplus_mod_idemp_l by done; done. Qed.

(** ** Bytes in flight *)

Lemma put_copies_in n len c : 0 <= len <= sz ->
  c ∈ put_copies sz (wrap 32 n) len <-> exists i, 0 <= i < len /\ c = ((n + i) mod sz, i).
Proof using Hk.
  intros L; rewrite (put_copies_ring k) by (done || apply wrap_pos); rewrite list_elem_of_In, in_map_iff; split.
  - intros (i & <- & [_ Hi]%in_seq); exists (Z.of_nat i); rewrite wrap_ring; split; [lia|done].
  - intros (i & Hi & ->); exists (Z.to_nat i); rewrite wrap_ring, Z2Nat.id by lia; split; [done|apply in_seq; lia].
Qed.
Lemma get_copies_in m len c : 0 <= len <= sz ->
  c ∈ get_copies sz (wrap 32 m) len <-> exists i, 0 <= i < len /\ c = (i, (m + i) mod sz).
Proof using Hk.
  intros L; rewrite (get_copies_ring k) by (done || apply wrap_pos); rewrite list_elem_of_In, in_map_iff; split.
  - intros (i & <- & [_ Hi]%in_seq); exists (Z.of_nat i); rewrite wrap_ring; split; [lia|done].
  - intros (i & Hi & ->); exists (Z.to_nat i); rewrite wrap_ring, Z2Nat.id by lia; split; [done|apply in_seq; lia].
Qed.

(** No copy leaves its arrays. *)
Lemma copy_in_range dst src i j : 0 <= i < Z.of_nat (length dst) -> 0 <= j < Z.of_nat (length src) ->
  copy_byte dst src (i, j) = Some (<[Z.to_nat i := src !!! Z.to_nat j]> dst).
Proof using.
  intros Hi Hj; unfold copy_byte; simpl; rewrite (list_lookup_lookup_total_lt src) by lia.
  destruct (Z.leb_spec 0 j), (Z.leb_spec 0 i), (Z.ltb_spec i (Z.of_nat (length dst))); try lia; done.
Qed.

Lemma put_byte_ok f m n len data todo c : ring_buffer f -> writer_ok (buffer f) m n (WCopy len data todo) -> c ∈ todo ->
  exists i, 0 <= i < len /\ c = ((n + i) mod sz, i) /\
    copy_byte (buffer f) data c = Some (<[Z.to_nat ((n + i) mod sz) := data !!! Z.to_nat i]> (buffer f)).
Proof using Hk.
  intros [_ L] (Hl & _ & Hc & _) I; destruct (Hc c I) as (i & Hi & ->); exists i; split; [done|]; split; [done|].
  pose proof (size_pos k Hk); pose proof (Z.mod_pos_bound (n + i) sz ltac:(lia)); apply copy_in_range; lia.
Qed.
Lemma get_byte_ok f m n len dst todo c : ring_buffer f -> reader_ok (buffer f) m n (RCopy len dst todo) -> c ∈ todo ->
  exists i, 0 <= i < len /\ c = (i, (m + i) mod sz) /\
    copy_byte dst (buffer f) c = Some (<[Z.to_nat i := ring (buffer f) (m + i)]> dst).
Proof using Hk.
  intros [_ L] (Hl & _ & Hc & _) I; destruct (Hc c I) as (i & Hi & ->); exists i; split; [done|]; split; [done|].
  pose proof (size_pos k Hk); pose proof (Z.mod_pos_bound (m + i) sz ltac:(lia)); unfold ring; rewrite L; apply copy_in_range; lia.
Qed.

(** ** Preservation *)

Lemma inv_put_begin f r s v data len m n :
  0 <= len <= Z.of_nat (length data) -> inv_at m n (mksystem f WIdle r s v) ->
  inv_at m n (mksystem f (WCopy (put_len f len) data (put_copies (size f) (in_ f) (put_len f len))) r s v).
Proof using Hk.
  intros Hl (R & C & S & _ & Rd); pose proof (put_len_min f m n len (proj1 R) C) as P; pose proof C as (Hmn & Ei & _).
  split; [done|]; split; [done|]; split; [done|]; split; [|done]; simpl in *; rewrite (proj1 R), Ei, P.
  split; [lia|]; split; [lia|]; split; intros c; rewrite put_copies_in by lia; [done|]; intros Hc; left; eauto.
Qed.

Lemma inv_get_begin f w s v dst len m n :
  0 <= len <= Z.of_nat (length dst) -> inv_at m n (mksystem f w RIdle s v) ->
  inv_at m n (mksystem f w (RCopy (get_len f len) dst (get_copies (size f) (out f) (get_len f len))) s v).
Proof using Hk.
  intros Hl (R & C & S & W & _); pose proof (get_len_min f m n len C) as P; pose proof C as (Hmn & _ & Eo).
  split; [done|]; split; [done|]; split; [done|]; split; [done|]; simpl in *; rewrite (proj1 R), Eo, P.
  split; [lia|]; split; [lia|]; split; intros c; rewrite get_copies_in by lia; [done|]; intros Hc; left; eauto.
Qed.

(** The bytes that are queued and those a reader is taking are not written. *)
Lemma write_elsewhere buf m n i b p : Z.of_nat (length buf) = sz -> m <= p < m + sz -> m <= n + i < m + sz -> p <> n + i ->
  ring (<[Z.to_nat ((n + i) mod sz) := b]> buf) p = ring buf p.
Proof using Hk. intros L Hp Hi N; rewrite ring_insert, decide_False by (done || apply (distinct k Hk); lia); done. Qed.

Lemma inv_put_byte f len data t1 c t2 r s v b m n :
  copy_byte (buffer f) data c = Some b -> inv_at m n (mksystem f (WCopy len data (t1 ++ c :: t2)) r s v) ->
  inv_at m n (mksystem (with_buffer b f) (WCopy len data (t1 ++ t2)) r s v).
Proof using Hk.
  intros E (R & C & S & W & Rd); simpl in W, Rd, S.
  destruct (put_byte_ok f m n len data _ c R W (todo_here _ _ _)) as (i & Hi & -> & E'); rewrite E' in E; injection E as <-; clear E'.
  destruct R as [Es L], W as (Hl & Hf & Hc & Hd), C as (Hmn & Ei & Eo).
  assert (K : forall p, m <= p < m + sz -> p <> n + i -> ring (<[Z.to_nat ((n + i) mod sz) := data !!! Z.to_nat i]> (buffer f)) p = ring (buffer f) p)
    by (intros p Hp Np; apply (write_elsewhere _ m); (done || lia)).
  split; [split; [done|]; simpl; now rewrite length_insert|]; split; [done|]; simpl; split; [|split].
  - rewrite S; f_equal; symmetry; apply slice_ext; intros j Hj; apply K; lia.
  - split; [done|]; split; [done|]; split; [intros c Ic; apply Hc; now apply todo_more|].
    intros j Hj; destruct (decide (j = i)) as [->|N].
    + right; rewrite ring_insert, decide_True by done; done.
    + destruct (Hd j Hj) as [I|I]; [left; eapply todo_rest; [|exact I]; congruence|right; rewrite K by lia; done].
  - destruct r as [|len' dst todo]; [done|]; destruct Rd as (Hl' & Hf' & Hc' & Hd').
    split; [done|]; split; [done|]; split; [done|]; intros j Hj.
    destruct (Hd' j Hj); [now left|right; rewrite K by lia; done].
Qed.

Lemma inv_get_byte f w len dst t1 c t2 s v d m n :
  copy_byte dst (buffer f) c = Some d -> inv_at m n (mksystem f w (RCopy len dst (t1 ++ c :: t2)) s v) ->
  inv_at m n (mksystem f w (RCopy len d (t1 ++ t2)) s v).
Proof using Hk.
  intros E (R & C & S & W & Rd); simpl in Rd.
  destruct (get_byte_ok f m n len dst _ c R Rd (todo_here _ _ _)) as (i & Hi & -> & E'); rewrite E' in E; injection E as <-; clear E'.
  destruct Rd as (Hl & Hf & Hc & Hd); split; [done|]; split; [done|]; split; [done|]; split; [done|]; simpl.
  rewrite length_insert; split; [done|]; split; [done|]; split; [intros c Ic; apply Hc; now apply todo_more|].
  intros j Hj; destruct (decide (j = i)) as [->|N]; [right; now rewrite list_lookup_total_insert_eq by lia|].
  destruct (Hd j Hj) as [I|I]; [left; eapply todo_rest; [|exact I]; congruence|right].
  rewrite list_lookup_total_insert_ne by lia; done.
Qed.

Lemma inv_put_end f len data r s v m n :
  inv_at m n (mksystem f (WCopy len data []) r s v) ->
  inv_at m (n + len) (mksystem (mkfifo (buffer f) (size f) (wrap 32 (in_ f + len)) (out f)) WIdle r (s ++ take (Z.to_nat len) data) v).
Proof using Hk.
  intros (R & (Hmn & Ei & Eo) & S & (Hl & Hf & _ & Hd) & Rd); simpl in *.
  split; [done|]; split; [split; [simpl; lia|]; split; [simpl; now rewrite Ei, fifo_wrap_add|done]|]; simpl; split; [|split; [done|]].
  - rewrite S, <- app_assoc, slice_counters by lia; do 2 f_equal; symmetry; apply slice_of; [lia|].
    intros i Hi; destruct (Hd i ltac:(lia)) as [I|I]; [inversion I|done].
  - destruct r as [|len' dst todo]; [done|]; destruct Rd as (Hl' & Hf' & Hc' & Hd'); split; [done|]; split; [lia|done].
Qed.

Lemma inv_get_end f w len dst s v m n :
  inv_at m n (mksystem f w (RCopy len dst []) s v) ->
  inv_at (m + len) n (mksystem (mkfifo (buffer f) (size f) (in_ f) (wrap 32 (out f + len))) w RIdle s (v ++ take (Z.to_nat len) dst)).
Proof using Hk.
  intros (R & (Hmn & Ei & Eo) & S & W & (Hl & Hf & _ & Hd)); simpl in *.
  split; [done|]; split; [split; [simpl; lia|]; split; [done|simpl; now rewrite Eo, fifo_wrap_add]|]; simpl; split; [|split; [|done]].
  - replace (n - m) with (m + len + (n - (m + len)) - m) in S by lia; rewrite slice_counters in S by lia.
    replace (m + len - m) with len in S by lia; rewrite S, <- app_assoc; do 2 f_equal; apply slice_of; [lia|].
    intros i Hi; destruct (Hd i ltac:(lia)) as [I|I]; [inversion I|done].
  - destruct w as [|len' data todo]; [done|]; destruct W as (Hl' & Hf' & Hc' & Hd'); split; [done|]; split; [lia|done].
Qed.

Lemma step_inv s s' : step s s' -> inv s -> inv s'.
Proof using Hk.
  destruct 1; intros (m & n & I).
  - exists m, n; now apply inv_put_begin.
  - exists m, n; eapply inv_put_byte; eauto.
  - exists m, (n + len); now apply inv_put_end.
  - exists m, n; now apply inv_get_begin.
  - exists m, n; eapply inv_get_byte; eauto.
  - exists (m + len), n; now apply inv_get_end.
Qed.
Lemma steps_inv s s' : steps s s' -> inv s -> inv s'.
Proof using Hk. induction 1; eauto using step_inv. Qed.

(** ** What the invariant says *)

Lemma slice_wrap buf m n : Z.of_nat (length buf) = sz -> slice buf (wrap 32 m) n = slice buf m n.
Proof using Hk. intros L; apply map_ext; intros i; unfold ring; now rewrite L, wrap_ring. Qed.

Lemma inv_contents m n s : inv_at m n s ->
  contents (fifo s) = slice (buffer (fifo s)) m (Z.to_nat (n - m)) /\ sent s = received s ++ contents (fifo s) /\
  __kfifo_len (fifo s) = n - m /\ 0 <= n - m <= sz.
Proof using Hk.
  intros ((_ & L) & C & S & _); pose proof (counters_len _ _ _ C) as E.
  assert (Ec : contents (fifo s) = slice (buffer (fifo s)) m (Z.to_nat (n - m))).
  { unfold contents; rewrite E; destruct C as (_ & _ & ->); now apply slice_wrap. }
  rewrite Ec; split; [done|]; split; [done|]; split; [done|]; destruct C; lia.
Qed.
End Inv.
