(* ===== verification/KfifoAlloc.v ===== *)
(** * Byte queues: allocation

    [fls] finds the highest set bit, so that [kfifo_alloc] rounds the size up
    to a power of two. *)

#[local] Set Warnings "-notation-incompatible-prefix".
From S2P Require Import Prelude.
From stdpp Require Import list relations.
From S2P Require Import Kfifo KfifoConc KfifoInv.
#[local] Open Scope Z_scope.

Lemma tst_pos x : 0 < x -> tst x = true.
Proof. intros H; unfold tst; now rewrite (proj2 (Z.eqb_neq x 0)) by lia. Qed.
Lemma tst_true x : x <> 0 -> tst x = true.
Proof. intros H; unfold tst; now rewrite (proj2 (Z.eqb_neq x 0)). Qed.

(** The upper [s] of [n + s] bits. *)
Lemma mask_test x n s : 0 <= n -> 0 < s -> 0 <= x < 2 ^ (n + s) ->
  tst (Z.land x (Z.shiftl (Z.ones s) n)) = (2 ^ n <=? x).
Proof.
  intros Hn Hs Hx; destruct (Z.leb_spec (2 ^ n) x) as [H|H].
  - apply tst_true; intros E; pose proof (pow2_pos n Hn) as P.
    assert (L : n <= Z.log2 x < n + s) by (split; [apply Z.log2_le_pow2; lia|apply Z.log2_lt_pow2; lia]).
    assert (B : Z.testbit (Z.land x (Z.shiftl (Z.ones s) n)) (Z.log2 x) = true).
    { rewrite Z.land_spec, Z.bit_log2, Z.shiftl_spec by lia; simpl; apply Z.ones_spec_low; lia. }
    rewrite E, Z.bits_0 in B; done.
  - replace (Z.land x (Z.shiftl (Z.ones s) n)) with 0; [done|]; symmetry; apply Z.bits_inj'; intros i Hi.
    rewrite Z.bits_0, Z.land_spec, Z.shiftl_spec by done; destruct (Z.lt_ge_cases i n).
    + rewrite (Z.testbit_neg_r _ (i - n)) by lia; apply andb_false_r.
    + destruct (Z.eq_dec x 0) as [->|N]; [now rewrite Z.bits_0|].
      rewrite (Z.bits_above_log2 x i); [done|lia|]; apply Z.log2_lt_pow2; [lia|].
      pose proof (Z.pow_le_mono_r 2 n i ltac:(lia) ltac:(lia)); lia.
Qed.

(** After a step the leading bit is among the upper [s]. *)
Definition normalised (x0 w : Z) (p : Z * Z) : Prop :=
  fst p = x0 * 2 ^ (32 - snd p) /\ 2 ^ (32 - w) <= fst p < 2 ^ 32 /\ w <= snd p <= 32.

Lemma fls_step_ok x0 s p : 0 < s <= 16 -> normalised x0 (2 * s) p ->
  normalised x0 s (fls_step (Z.shiftl (Z.ones s) (32 - s)) s p).
Proof.
  intros Hs (E & R & W); unfold fls_step; destruct p as [x r]; cbn [fst snd] in *.
  rewrite mask_test by (lia || (replace (32 - s + s) with 32 by lia; pose proof (pow2_pos (32 - 2 * s) ltac:(lia)); lia)).
  destruct (Z.leb_spec (2 ^ (32 - s)) x) as [H|H]; split; cbn [fst snd]; [done|split; lia|..].
  - rewrite Z.shiftl_mul_pow2 by lia; replace (32 - (r - s)) with ((32 - r) + s) by lia.
    rewrite Z.pow_add_r, E, <- Z.mul_assoc by lia; apply wrap_small; rewrite Z.mul_assoc, <- E.
    pose proof (pow2_pos (32 - 2 * s) ltac:(lia)); pose proof (pow2_pos s ltac:(lia)).
    replace (2 ^ 32) with (2 ^ (32 - s) * 2 ^ s) by (rewrite <- Z.pow_add_r by lia; f_equal; lia); nia.
  - rewrite Z.shiftl_mul_pow2 by lia; pose proof (pow2_pos s ltac:(lia)); pose proof (pow2_pos (32 - 2 * s) ltac:(lia)).
    assert (H2 : 2 ^ 32 = 2 ^ (32 - s) * 2 ^ s) by (rewrite <- Z.pow_add_r by lia; f_equal; lia).
    assert (H3 : 2 ^ (32 - s) = 2 ^ (32 - 2 * s) * 2 ^ s) by (rewrite <- Z.pow_add_r by lia; f_equal; lia).
    rewrite wrap_small by nia; split; [nia|lia].
Qed.

Lemma fls_log2 x : 0 < x < 2 ^ 32 -> fls x = Z.log2 x + 1.
Proof.
  intros Hx; unfold fls; rewrite tst_pos by lia.
  assert (N0 : normalised x 32 (x, 32)) by (split; [simpl; lia|split; simpl; lia]).
  apply (fls_step_ok x 16) in N0; [|lia]; apply (fls_step_ok x 8) in N0; [|lia]; apply (fls_step_ok x 4) in N0; [|lia].
  apply (fls_step_ok x 2) in N0; [|lia]; apply (fls_step_ok x 1) in N0; [|lia].
  change (Z.shiftl (Z.ones 16) (32 - 16)) with 0xffff0000 in N0; change (Z.shiftl (Z.ones 8) (32 - 8)) with 0xff000000 in N0.
  change (Z.shiftl (Z.ones 4) (32 - 4)) with 0xf0000000 in N0; change (Z.shiftl (Z.ones 2) (32 - 2)) with 0xc0000000 in N0.
  change (Z.shiftl (Z.ones 1) (32 - 1)) with 0x80000000 in N0.
  set (p := fls_step _ _ _) in *; clearbody p; destruct N0 as (E & R & W); destruct p as [y r]; cbn [fst snd] in *.
  assert (L : Z.log2 y = 31) by (apply Z.log2_unique; lia).
  rewrite E, Z.log2_mul_pow2 in L by lia; lia.
Qed.

Lemma fls64_log2 x : 0 < x < 2 ^ 32 -> fls64 x = Z.log2 x + 1.
Proof.
  intros Hx; unfold fls64; rewrite Z.shiftr_div_pow2, (Z.div_small x) by lia; change (tst (wrap 32 0)) with false; cbv iota.
  rewrite wrap_small by lia; now apply fls_log2.
Qed.

(** [size & (size - 1)] *)
Lemma not_power x : 0 < x -> Z.land x (x - 1) = 0 -> x = 2 ^ Z.log2 x.
Proof.
  intros Hx E; pose proof (Z.log2_spec x Hx) as [L U]; destruct (Z.eq_dec x (2 ^ Z.log2 x)) as [|N]; [done|exfalso].
  assert (B : Z.testbit (Z.land x (x - 1)) (Z.log2 x) = true).
  { rewrite Z.land_spec, Z.bit_log2 by done; simpl.
    replace (Z.log2 x) with (Z.log2 (x - 1)) at 1 by (apply Z.log2_unique; [apply Z.log2_nonneg|lia]).
    apply Z.bit_log2; pose proof (pow2_pos (Z.log2 x) (Z.log2_nonneg x)); lia. }
  rewrite E, Z.bits_0 in B; done.
Qed.
Lemma power_masked k : 0 <= k -> Z.land (2 ^ k) (2 ^ k - 1) = 0.
Proof.
  intros Hk; replace (2 ^ k - 1) with (Z.ones k) by (rewrite Z.ones_equiv; lia); rewrite Z.land_ones by lia.
  apply Z.mod_same; pose proof (pow2_pos k Hk); lia.
Qed.

(** [2 ^ k] is the least power of two that is not below [x]. *)
Definition least_power (k x : Z) : Prop := 0 <= k /\ x <= 2 ^ k /\ (0 < k -> 2 ^ (k - 1) < x).

Lemma least_power_bound k x : least_power k x -> x <= 2 ^ 31 -> k <= 31.
Proof.
  intros (Hk & _ & H) Hx; destruct (Z.le_gt_cases k 31) as [|G]; [done|].
  pose proof (Z.pow_le_mono_r 2 31 (k - 1) ltac:(lia) ltac:(lia)); lia.
Qed.

Section Alloc.
Context (BITS : Z) (HB : BITS = 32 \/ BITS = 64) (fresh : Z -> list Z).
Context (Fresh : forall n, 0 <= n -> Z.of_nat (length (fresh n)) = n).

Lemma roundup_ok x : 2 <= x <= 2 ^ 31 -> exists k, least_power k x /\ roundup_pow_of_two BITS x = 2 ^ k.
Proof using HB.
  intros Hx; exists (Z.log2 (x - 1) + 1); pose proof (Z.log2_spec (x - 1) ltac:(lia)) as [L U]; pose proof (Z.log2_nonneg (x - 1)) as N.
  unfold Z.succ in U; assert (P : least_power (Z.log2 (x - 1) + 1) x).
  { split; [lia|]; split; [lia|]; intros _; replace (Z.log2 (x - 1) + 1 - 1) with (Z.log2 (x - 1)) by lia; lia. }
  split; [done|]; pose proof (least_power_bound _ _ P ltac:(lia)) as B.
  assert (F : fls_long BITS (wrap BITS (x - 1)) = Z.log2 (x - 1) + 1).
  { unfold fls_long; destruct HB as [-> | ->]; rewrite wrap_small by lia; [apply fls_log2|apply fls64_log2]; lia. }
  unfold roundup_pow_of_two; rewrite F, Z.shiftl_mul_pow2, Z.mul_1_l by lia.
  pose proof (Z.pow_le_mono_r 2 (Z.log2 (x - 1) + 1) 31 ltac:(lia) ltac:(lia)); pose proof (pow2_pos (Z.log2 (x - 1) + 1) ltac:(lia)).
  destruct HB as [-> | ->]; apply wrap_small; lia.
Qed.

(** The size that is allocated. *)
Definition rounded (x : Z) : option Z :=
  if tst (Z.land x (wrap 32 (x - 1))) then
    if x >? 0x80000000 then None else Some (wrap 32 (roundup_pow_of_two BITS x))
  else Some x.

Lemma rounded_ok x : 1 <= x <= 2 ^ 31 -> exists k, 0 <= k <= 31 /\ least_power k x /\ rounded x = Some (2 ^ k).
Proof using HB.
  intros Hx; unfold rounded; rewrite wrap_small by lia; destruct (Z.eq_dec (Z.land x (x - 1)) 0) as [E|N].
  - rewrite E; simpl; exists (Z.log2 x); pose proof (not_power x ltac:(lia) E) as P; pose proof (Z.log2_nonneg x) as NN.
    assert (LP : least_power (Z.log2 x) x).
    { split; [done|]; split; [lia|]; intros G; rewrite P at 2; apply Z.pow_lt_mono_r; lia. }
    split; [split; [done|now apply least_power_bound in LP]|]; split; [done|now rewrite <- P].
  - rewrite tst_true by done; assert (x <> 1) by (intros ->; done).
    rewrite Z.gtb_ltb, (proj2 (Z.ltb_ge _ _)) by lia; destruct (roundup_ok x ltac:(lia)) as (k & LP & R).
    pose proof (least_power_bound _ _ LP ltac:(lia)) as B; exists k; split; [split; [apply LP|done]|]; split; [done|].
    rewrite R; f_equal; apply wrap_small; destruct LP as (? & _); pose proof (pow2_pos k ltac:(lia)).
    pose proof (Z.pow_le_mono_r 2 k 31 ltac:(lia) ltac:(lia)); lia.
Qed.
Lemma rounded_bug x : 2 ^ 31 < x < 2 ^ 32 -> rounded x = None.
Proof using.
  intros Hx; unfold rounded; rewrite wrap_small by lia; rewrite tst_true.
  - now rewrite Z.gtb_ltb, (proj2 (Z.ltb_lt _ _)) by lia.
  - intros E; pose proof (not_power x ltac:(lia) E) as P; assert (31 <= Z.log2 x < 32) by (split; [apply Z.log2_le_pow2|apply Z.log2_lt_pow2]; lia).
    assert (Z.log2 x = 31) as L by lia; rewrite L in P; lia.
Qed.

Lemma kfifo_init_ok ok buf k live : 0 <= k <= 31 -> kfifo_init ok buf (2 ^ k) live =
  Some (if ok then (inr (mkfifo buf (2 ^ k) 0 0), live + 1) else (inl (- ENOMEM), live)).
Proof using.
  intros Hk; pose proof (size_pos k Hk); unfold kfifo_init; rewrite wrap_small, power_masked by lia; now destruct ok.
Qed.

Lemma alloc_rounded ok1 ok2 x live : kfifo_alloc BITS fresh ok1 ok2 x live =
  match rounded x with
  | Some n => (got <- kmalloc ok1 ;;
      if got then
        r <- kfifo_init ok2 (fresh n) n ;;
        match r with inl e => kfree ;;; ret (inl e) | inr f => ret (inr f) end
      else ret (inl (- ENOMEM))) live
  | None => None
  end.
Proof using.
  unfold kfifo_alloc, rounded; destruct (tst _); [destruct (_ >? _)|]; reflexivity.
Qed.

Lemma kfifo_alloc_ok ok1 ok2 x live : 1 <= x <= 2 ^ 31 ->
  exists k, 0 <= k <= 31 /\ least_power k x /\
    kfifo_alloc BITS fresh ok1 ok2 x live =
      Some (if ok1 && ok2 then (inr (mkfifo (fresh (2 ^ k)) (2 ^ k) 0 0), live + 2) else (inl (- ENOMEM), live)).
Proof using HB.
  intros Hx; destruct (rounded_ok x Hx) as (k & Hk & LP & R); exists k; split; [done|]; split; [done|].
  rewrite alloc_rounded, R; destruct ok1; [|done]; unfold kmalloc; rewrite run_bind_bind, run_bind_modify, run_bind_ret.
  pose proof (kfifo_init_ok ok2 (fresh (2 ^ k)) k (live + 1) Hk) as I.
  destruct ok2; rewrite (run_bind_some _ _ _ _ _ I); unfold ret, kfree, bind, modify; cbn [fst snd andb]; do 2 f_equal; lia.
Qed.
End Alloc.
