(* ===== verification/KfifoCorrect.v ===== *)
(** * Byte queues: the properties, with witnesses *)

#[local] Set Warnings "-notation-incompatible-prefix".
From S2P Require Import Prelude.
From stdpp Require Import list relations.
From S2P Require Import Kfifo KfifoConc KfifoInv KfifoAlloc.
#[local] Open Scope Z_scope.

(** A queue of [2 ^ k] bytes between two operations. *)
Definition wf (k : Z) (f : kfifo) : Prop :=
  ring_buffer k f /\ 0 <= in_ f < 2 ^ 32 /\ 0 <= out f < 2 ^ 32 /\ __kfifo_len f <= 2 ^ k.

(** ** A call is an uninterrupted run of its thread *)

Section Runs.
Context (k : Z) (Hk : 0 <= k <= 31).

Lemma run_put_copy m n r s v len data todo : forall f,
  inv_at k m n (mksystem f (WCopy len data todo) r s v) ->
  exists b, copy_bytes todo data (buffer f) = Some b /\
    steps (mksystem f (WCopy len data todo) r s v) (mksystem (with_buffer b f) (WCopy len data []) r s v).
Proof using Hk.
  induction todo as [|c todo IH]; intros f I.
  { exists (buffer f); split; [done|]; destruct f; apply rtc_refl. }
  destruct I as (R & I); destruct (put_byte_ok k Hk f m n len data (c :: todo) c R) as (i & _ & _ & E); [apply I|now left|].
  destruct (IH (with_buffer _ f) (inv_put_byte k Hk f len data [] c todo r s v _ m n E (conj R I))) as (b & Eb & St).
  exists b; split; [simpl; now rewrite E|]; eapply rtc_l; [exact (put_byte f len data [] c todo r s v _ E)|exact St].
Qed.

Lemma run_get_copy m n w s v len todo f : forall dst,
  inv_at k m n (mksystem f w (RCopy len dst todo) s v) ->
  exists d, copy_bytes todo (buffer f) dst = Some d /\
    steps (mksystem f w (RCopy len dst todo) s v) (mksystem f w (RCopy len d []) s v).
Proof using Hk.
  induction todo as [|c todo IH]; intros dst I.
  { exists dst; split; [done|apply rtc_refl]. }
  destruct I as (R & I); destruct (get_byte_ok k Hk f m n len dst (c :: todo) c R) as (i & _ & _ & E); [apply I|now left|].
  destruct (IH _ (inv_get_byte k Hk f w len dst [] c todo s v _ m n E (conj R I))) as (d & Ed & St).
  exists d; split; [simpl; now rewrite E|]; eapply rtc_l; [exact (get_byte f w len dst [] c todo s v _ E)|exact St].
Qed.

Lemma put_run m n f r s v data len :
  inv_at k m n (mksystem f WIdle r s v) -> 0 <= len <= Z.of_nat (length data) ->
  exists f', __kfifo_put f data len = Some (put_len f len, f') /\
    steps (mksystem f WIdle r s v) (mksystem f' WIdle r (s ++ take (Z.to_nat (put_len f len)) data) v).
Proof using Hk.
  intros I Hl; destruct (run_put_copy _ _ _ _ _ _ _ _ _ (inv_put_begin k Hk f r s v data len m n Hl I)) as (b & Eb & St).
  unfold __kfifo_put; rewrite Eb; eexists; split; [done|].
  eapply rtc_l; [now apply put_begin|]; eapply rtc_r; [exact St|]; apply (put_end (with_buffer b f)).
Qed.

Lemma get_run m n f w s v dst len :
  inv_at k m n (mksystem f w RIdle s v) -> 0 <= len <= Z.of_nat (length dst) ->
  exists d f', __kfifo_get f dst len = Some (get_len f len, d, f') /\
    steps (mksystem f w RIdle s v) (mksystem f' w RIdle s (v ++ take (Z.to_nat (get_len f len)) d)).
Proof using Hk.
  intros I Hl; destruct (run_get_copy _ _ _ _ _ _ _ _ _ (inv_get_begin k Hk f w s v dst len m n Hl I)) as (d & Ed & St).
  unfold __kfifo_get; rewrite Ed; eexists _, _; split; [done|].
  eapply rtc_l; [now apply get_begin|]; eapply rtc_r; [exact St|]; apply (get_end f).
Qed.

(** ** Single-threaded use *)

Lemma wf_inv f : wf k f -> inv_at k (out f) (out f + __kfifo_len f) (mksystem f WIdle RIdle (contents f) []).
Proof using Hk.
  intros (R & Hi & Ho & Hl); assert (L : 0 <= __kfifo_len f) by apply wrap_pos.
  split; [done|]; split; [|split; [|done]].
  - split; [simpl; lia|]; simpl; split; [|now rewrite wrap_small].
    unfold __kfifo_len; rewrite (Z.add_comm (out f)), fifo_wrap_add, Z.sub_add, wrap_small; done.
  - simpl; unfold contents; do 2 f_equal; lia.
Qed.
Lemma inv_wf m n f w r s v : inv_at k m n (mksystem f w r s v) -> wf k f.
Proof using Hk.
  intros I; destruct (inv_contents k Hk m n _ I) as (_ & _ & E & B); destruct I as (R & (_ & Ei & Eo) & _); simpl in *.
  split; [done|]; rewrite Ei, Eo, E; split; [unfold wrap; apply Z.mod_pos_bound; lia|]; split; [unfold wrap; apply Z.mod_pos_bound; lia|lia].
Qed.

Lemma length_contents f : Z.of_nat (length (contents f)) = __kfifo_len f.
Proof using. unfold contents; rewrite length_slice; pose proof (wrap_pos (in_ f - out f)); unfold __kfifo_len; lia. Qed.

Lemma put_spec f data len : wf k f -> 0 <= len <= Z.of_nat (length data) ->
  let n := Z.min len (2 ^ k - Z.of_nat (length (contents f))) in
  exists f', __kfifo_put f data len = Some (n, f') /\ wf k f' /\ contents f' = contents f ++ take (Z.to_nat n) data.
Proof using Hk.
  intros W Hl n; pose proof (wf_inv f W) as I; destruct (put_run _ _ _ _ _ _ data len I Hl) as (f' & R & St).
  pose proof (put_len_min k Hk f _ _ len (proj1 (proj1 W)) (proj1 (proj2 I))) as P.
  replace (put_len f len) with n in * by (unfold n; rewrite P, length_contents; lia).
  exists f'; split; [done|]; destruct (steps_inv k Hk _ _ St (inv_intro k _ _ _ I)) as (m' & n' & I').
  split; [eapply inv_wf; exact I'|]; destruct (inv_contents k Hk _ _ _ I') as (_ & S & _); now simpl in S.
Qed.

(** What a copy does not name it does not change. *)
Lemma copy_bytes_other cs src : forall dst d j, copy_bytes cs src dst = Some d ->
  (forall c, c ∈ cs -> Z.to_nat (fst c) <> j) -> d !! j = dst !! j.
Proof using.
  induction cs as [|c cs IH]; intros dst d j; simpl; [now intros [= ->]|].
  unfold copy_byte; destruct (src !! _) as [b|]; [|done]; case_if; [|done]; intros E N.
  rewrite (IH _ _ j E) by (intros; apply N; now right); apply list_lookup_insert_ne, N; now left.
Qed.

Lemma copy_bytes_length cs src : forall dst d, copy_bytes cs src dst = Some d -> length d = length dst.
Proof using.
  induction cs as [|c cs IH]; intros dst d; simpl; [now intros [= ->]|].
  unfold copy_byte; destruct (src !! _); [|done]; case_if; [|done]; intros C; apply IH in C; now rewrite length_insert in C.
Qed.

Lemma get_spec f dst len : wf k f -> 0 <= len <= Z.of_nat (length dst) ->
  let n := Z.min len (Z.of_nat (length (contents f))) in
  exists f', __kfifo_get f dst len = Some (n, take (Z.to_nat n) (contents f) ++ drop (Z.to_nat n) dst, f') /\
    wf k f' /\ contents f' = drop (Z.to_nat n) (contents f).
Proof using Hk.
  intros W Hl n; pose proof (wf_inv f W) as I; destruct (get_run _ _ _ _ _ _ dst len I Hl) as (d & f' & R & St).
  pose proof (get_len_min k Hk f _ _ len (proj1 (proj2 I))) as P; pose proof (length_contents f) as Lc.
  assert (Bn : 0 <= n <= 2 ^ k) by (pose proof W as (_ & _ & _ & Hs); unfold n; lia).
  replace (get_len f len) with n in * by (unfold n; rewrite P, Lc; lia).
  destruct (steps_inv k Hk _ _ St (inv_intro k _ _ _ I)) as (m' & n' & I').
  pose proof (inv_contents k Hk _ _ _ I') as (_ & S & _); simpl in S.
  assert (Ld : d = take (Z.to_nat n) d ++ drop (Z.to_nat n) dst).
  { rewrite <- (take_drop (Z.to_nat n) d) at 1; f_equal; apply list_eq; intros j; rewrite !lookup_drop.
    unfold __kfifo_get in R; destruct (copy_bytes _ _ _) as [d'|] eqn:C in R; [|done]; injection R as En -> _.
    eapply copy_bytes_other; [exact C|]; intros c; pose proof W as ((Es & _) & _ & Ho & _).
    rewrite Es, <- (wrap_small 32 (out f)), (get_copies_in k Hk) by (done || (rewrite En; lia)).
    intros (i & Hi & ->); simpl; lia. }
  assert (Lt : length (take (Z.to_nat n) d) = Z.to_nat n).
  { apply length_take_le; apply (f_equal length) in S; rewrite length_app, length_take in S.
    unfold __kfifo_get in R; destruct (copy_bytes _ _ _) as [d'|] eqn:C in R; [|done]; injection R as En -> _.
    apply copy_bytes_length in C; lia. }
  exists f'; split; [|split; [eapply inv_wf; exact I'|]].
  - rewrite R; do 3 f_equal; rewrite Ld at 1; f_equal; rewrite S; symmetry; apply take_app_length'; done.
  - rewrite S; symmetry; apply drop_app_length'; done.
Qed.
End Runs.

(** C21: Lock-free use.  With one thread that only puts and one that only gets,
    in every interleaving of their copies and counter updates, the bytes
    received, followed by the contents of the queue, are the bytes sent: none
    is lost, duplicated or reordered, although the counters wrap around.  The
    queue never holds more than its size, its length is the difference of the
    counters, and every byte copy either thread still has to make is within
    its arrays, so neither waits for the other. *)
Theorem kfifo_concurrent_correct k buf s :
  0 <= k <= 31 -> Z.of_nat (length buf) = 2 ^ k ->
  steps (mksystem (mkfifo buf (2 ^ k) 0 0) WIdle RIdle [] []) s ->
  sent s = received s ++ contents (fifo s) /\
  __kfifo_len (fifo s) = Z.of_nat (length (contents (fifo s))) /\ __kfifo_len (fifo s) <= 2 ^ k /\
  match wr s with
  | WIdle => True
  | WCopy len data todo => forall c, c ∈ todo -> is_Some (copy_byte (buffer (fifo s)) data c)
  end /\
  match rd s with
  | RIdle => True
  | RCopy len dst todo => forall c, c ∈ todo -> is_Some (copy_byte dst (buffer (fifo s)) c)
  end.
Proof.
  intros Hk L St; pose proof (size_pos k Hk).
  assert (W0 : wf k (mkfifo buf (2 ^ k) 0 0)) by (split; [done|]; simpl; change (__kfifo_len _) with 0; lia).
  destruct (steps_inv k Hk _ _ St (inv_intro k _ _ _ (wf_inv k Hk _ W0))) as (m & n & I).
  destruct (inv_contents k Hk m n s I) as (_ & S & E & B); destruct I as (R & _ & _ & Wr & Rd).
  split; [done|]; split; [now rewrite length_contents|]; split; [lia|]; split.
  - destruct (wr s) as [|len data todo]; [done|]; intros c Hc; destruct (put_byte_ok k Hk _ m n len data todo c R Wr Hc) as (i & _ & _ & ->); eauto.
  - destruct (rd s) as [|len dst todo]; [done|]; intros c Hc; destruct (get_byte_ok k Hk _ m n len dst todo c R Rd Hc) as (i & _ & _ & ->); eauto.
Qed.

(** C22: A bounded queue of bytes.  [__kfifo_put] appends as much of its data as
    fits and returns that number; [kfifo_get] (and [__kfifo_get]) takes as many
    bytes as are there and asked for from the front, puts them at the start of
    the destination, and leaves the rest of the destination alone;
    [__kfifo_reset] empties the queue; [__kfifo_len] is the number of bytes. *)
Theorem kfifo_refines k f data dst len :
  0 <= k <= 31 -> wf k f -> 0 <= len <= Z.of_nat (length data) -> length dst = length data ->
  let q := contents f in
  let n := Z.min len (2 ^ k - Z.of_nat (length q)) in
  let g := Z.min len (Z.of_nat (length q)) in
  (exists f', __kfifo_put f data len = Some (n, f') /\ wf k f' /\ contents f' = q ++ take (Z.to_nat n) data) /\
  (exists f', __kfifo_get f dst len = Some (g, take (Z.to_nat g) q ++ drop (Z.to_nat g) dst, f') /\ wf k f' /\ contents f' = drop (Z.to_nat g) q) /\
  (exists f', kfifo_get f dst len = Some (g, take (Z.to_nat g) q ++ drop (Z.to_nat g) dst, f') /\ wf k f' /\ contents f' = drop (Z.to_nat g) q) /\
  wf k (__kfifo_reset f) /\ contents (__kfifo_reset f) = [] /\ __kfifo_len f = Z.of_nat (length q).
Proof.
  intros Hk W Hl Ed q n g; rewrite <- Ed in Hl; pose proof (size_pos k Hk).
  destruct (get_spec k Hk f dst len W Hl) as (f' & R & W' & C).
  assert (Wr : forall h, ring_buffer k h -> wf k (__kfifo_reset h) /\ contents (__kfifo_reset h) = []).
  { intros h [? ?]; split; [split; [done|]; simpl; change (__kfifo_len _) with 0; lia|done]. }
  split; [apply put_spec; (done || lia)|]; split; [eauto|]; split; [|split; [|split]].
  - unfold kfifo_get; rewrite R; destruct (Z.eqb_spec (in_ f') (out f')) as [E|]; [|eauto].
    exists (__kfifo_reset f'); split; [done|]; split; [apply Wr, W'|]; rewrite (proj2 (Wr f' (proj1 W'))).
    fold q g in C; rewrite <- C; unfold contents, __kfifo_len; rewrite E, Z.sub_diag; done.
  - apply Wr, W.
  - apply Wr, W.
  - symmetry; apply length_contents.
Qed.

(** C23: Allocation.  For every size from 1 to [2 ^ 31], on 32- and 64-bit
    kernels, [kfifo_alloc] returns an empty queue whose size is the least
    power of two that is not below, holding two blocks, which [kfifo_free]
    returns; if either allocation fails, it returns [-ENOMEM] and no block
    stays allocated.  Larger sizes are stopped by [BUG_ON]. *)
Theorem kfifo_alloc_correct BITS fresh ok1 ok2 x live :
  BITS = 32 \/ BITS = 64 -> (forall n, 0 <= n -> Z.of_nat (length (fresh n)) = n) -> 1 <= x < 2 ^ 32 ->
  if x <=? 2 ^ 31 then
    exists k, 0 <= k <= 31 /\ least_power k x /\
      (forall f, f = mkfifo (fresh (2 ^ k)) (2 ^ k) 0 0 -> wf k f /\ contents f = [] /\
         kfifo_alloc BITS fresh ok1 ok2 x live =
           Some (if ok1 && ok2 then (inr f, live + 2) else (inl (- ENOMEM), live))) /\
      kfifo_free (live + 2) = Some (tt, live)
  else kfifo_alloc BITS fresh ok1 ok2 x live = None.
Proof.
  intros HB Fr Hx; destruct (Z.leb_spec x (2 ^ 31)) as [L|L].
  - destruct (kfifo_alloc_ok BITS HB fresh ok1 ok2 x live ltac:(lia)) as (k & Hk & LP & R); pose proof (size_pos k Hk).
    exists k; split; [done|]; split; [done|]; split.
    + intros f ->; split; [|split; [done|exact R]]; split; [split; [done|]; apply Fr; lia|].
      simpl; change (__kfifo_len _) with 0; lia.
    + unfold kfifo_free, kfree, bind, modify; do 2 f_equal; lia.
  - rewrite alloc_rounded, rounded_bug by lia; done.
Qed.

(** ** Witnesses *)

Definition demo_fifo : kfifo := mkfifo [10; 11; 12; 13] 4 1 (2 ^ 32 - 2).

(** The counters have wrapped: [out] is [2 ^ 32 - 2], [in] is 1. *)
Lemma demo_fifo_wf : wf 2 demo_fifo.
Proof. repeat split; vm_compute; done. Qed.

Lemma kfifo_refines_witness :
  contents demo_fifo = [12; 13; 10] /\
  (exists f', __kfifo_put demo_fifo [7; 8] 2 = Some (1, f') /\ contents f' = [12; 13; 10; 7]) /\
  (exists f', __kfifo_get demo_fifo [0; 0] 2 = Some (2, [12; 13], f') /\ contents f' = [10]).
Proof.
  split; [vm_compute; reflexivity|].
  destruct (kfifo_refines 2 demo_fifo [7; 8] [0; 0] 2 ltac:(lia) demo_fifo_wf ltac:(simpl; lia) eq_refl)
    as ((f1 & R1 & _ & C1) & (f2 & R2 & _ & C2) & _).
  split; [exists f1; split; [exact R1|exact C1]|exists f2; split; [exact R2|exact C2]].
Defined.

(** The writer has begun to put two bytes and copied the second one first. *)
Lemma kfifo_concurrent_correct_witness :
  exists s, steps (mksystem (mkfifo [0; 0] (2 ^ 1) 0 0) WIdle RIdle [] []) s /\ wr s = WCopy 2 [7; 8] [(0, 0)] /\
    sent s = received s ++ contents (fifo s).
Proof.
  assert (St : steps (mksystem (mkfifo [0; 0] (2 ^ 1) 0 0) WIdle RIdle [] [])
    (mksystem (mkfifo [0; 8] (2 ^ 1) 0 0) (WCopy 2 [7; 8] [(0, 0)]) RIdle [] [])).
  { eapply rtc_l; [apply (put_begin _ _ _ _ [7; 8] 2); simpl; lia|]; eapply rtc_l; [|apply rtc_refl].
    exact (put_byte (mkfifo [0; 0] (2 ^ 1) 0 0) 2 [7; 8] [(0, 0)] (1, 1) [] RIdle [] [] _ eq_refl). }
  eexists; split; [exact St|]; split; [reflexivity|].
  exact (proj1 (kfifo_concurrent_correct 1 [0; 0] _ ltac:(lia) eq_refl St)).
Defined.

Lemma kfifo_alloc_correct_witness :
  exists k, least_power k 1000 /\
    kfifo_alloc 32 (fun n => replicate (Z.to_nat n) 0) true false 1000 5 = Some (inl (- ENOMEM), 5).
Proof.
  destruct (kfifo_alloc_correct 32 (fun n => replicate (Z.to_nat n) 0) true false 1000 5 ltac:(now left)
    ltac:(intros n Hn; cbv beta; rewrite length_replicate; lia) ltac:(lia)) as (k & _ & LP & R & _).
  exists k; split; [exact LP|]; exact (proj2 (proj2 (R _ eq_refl))).
Defined.
