(* ===== verification/Timer.v ===== *)
(** * The timer wheel: the code

    Models the timers of [kernel/timer.c] and [include/linux/timer.h].  A
    [struct list_head] is the sequence of the timers on it; [__list_del] takes
    a timer out of whichever list of its base it is on, and [entry.next != NULL]
    is the member [pending].  The list [work_list] of [__run_timers] is a member
    of the base, because others may take timers off it while a handler runs.
    The functions are modelled as they run under the locks of the bases.
    [None] is a failed [BUG_ON] or an index outside of a vector.

    Parameters: [BITS] is the width of [long], [TVR_BITS] and [TVN_BITS] are the
    macros of that name; [SMP] is [CONFIG_SMP]; [this_cpu] is the base of the
    current CPU; [call] runs a handler; [jiffies] is the current time. *)

#[local] Set Warnings "-notation-incompatible-prefix".
From S2P Require Import Prelude.
From stdpp Require Import gmap.
#[local] Open Scope Z_scope.

Record timer_list := mktimer_list { expires : Z; function : Z; data : Z; base : Z; pending : bool }.

Inductive tvec := TV1 | TV2 | TV3 | TV4 | TV5.
#[export] Instance tvec_eq_dec : EqDecision tvec.
Proof. solve_decision. Defined.

Record tvec_base := mktvec_base {
  running_timer : Z; timer_jiffies : Z;
  tv1 : list (list Z); tv2 : list (list Z); tv3 : list (list Z); tv4 : list (list Z); tv5 : list (list Z);
  work_list : list Z }.

(** [ran] records which handlers have been called, and at which time. *)
Record tstate := mkts { timers : gmap Z timer_list; bases : gmap Z tvec_base; ran : list (Z * Z) }.

Definition set_timers (t : gmap Z timer_list) (s : tstate) : tstate := mkts t (bases s) (ran s).
Definition set_bases (b : gmap Z tvec_base) (s : tstate) : tstate := mkts (timers s) b (ran s).
Definition log_ran (j a : Z) (s : tstate) : tstate := mkts (timers s) (bases s) (ran s ++ [(j, a)]).

(** ** Accesses *)

Definition vec (lv : tvec) (r : tvec_base) : list (list Z) :=
  match lv with TV1 => tv1 r | TV2 => tv2 r | TV3 => tv3 r | TV4 => tv4 r | TV5 => tv5 r end.
Definition set_vec (lv : tvec) (v : list (list Z)) (r : tvec_base) : tvec_base :=
  let 'mktvec_base run j v1 v2 v3 v4 v5 w := r in
  match lv with
  | TV1 => mktvec_base run j v v2 v3 v4 v5 w
  | TV2 => mktvec_base run j v1 v v3 v4 v5 w
  | TV3 => mktvec_base run j v1 v2 v v4 v5 w
  | TV4 => mktvec_base run j v1 v2 v3 v v5 w
  | TV5 => mktvec_base run j v1 v2 v3 v4 v w
  end.
Definition set_work (w : list Z) (r : tvec_base) : tvec_base :=
  mktvec_base (running_timer r) (timer_jiffies r) (tv1 r) (tv2 r) (tv3 r) (tv4 r) (tv5 r) w.
Definition set_jiffies (j : Z) (r : tvec_base) : tvec_base :=
  mktvec_base (running_timer r) j (tv1 r) (tv2 r) (tv3 r) (tv4 r) (tv5 r) (work_list r).
Definition set_running (t : Z) (r : tvec_base) : tvec_base :=
  mktvec_base t (timer_jiffies r) (tv1 r) (tv2 r) (tv3 r) (tv4 r) (tv5 r) (work_list r).

Definition timer_at (a : Z) : ST tstate timer_list := fun s =>
  match timers s !! a with Some t => Some (t, s) | None => None end.
Definition base_at (b : Z) : ST tstate tvec_base := fun s =>
  match bases s !! b with Some r => Some (r, s) | None => None end.
Definition put_timer (a : Z) (t : timer_list) : ST tstate unit := modify (fun s => set_timers (<[a := t]> (timers s)) s).
Definition put_base (b : Z) (r : tvec_base) : ST tstate unit := modify (fun s => set_bases (<[b := r]> (bases s)) s).
Definition assert (b : bool) : ST tstate unit := if b then ret tt else lift None.

Definition set_pending (a : Z) (p : bool) : ST tstate unit :=
  t <- timer_at a ;; put_timer a (mktimer_list (expires t) (function t) (data t) (base t) p).
Definition set_base (a b : Z) : ST tstate unit :=
  t <- timer_at a ;; put_timer a (mktimer_list (expires t) (function t) (data t) b (pending t)).
Definition set_expires (a e : Z) : ST tstate unit :=
  t <- timer_at a ;; put_timer a (mktimer_list e (function t) (data t) (base t) (pending t)).
Definition timer_pending (a : Z) : ST tstate bool := t <- timer_at a ;; ret (pending t).

(** [list_add_tail(&timer->entry, base->tv.vec + i)] *)
Definition list_add_tail (b : Z) (lv : tvec) (i a : Z) : ST tstate unit :=
  r <- base_at b ;;
  l <- lift (vec lv r !! Z.to_nat i) ;;
  put_base b (set_vec lv (<[Z.to_nat i := l ++ [a]]> (vec lv r)) r) ;;;
  set_pending a true.

(** [list_replace_init(tv->vec + i, &list)]; the result is the new list. *)
Definition list_replace_init (b : Z) (lv : tvec) (i : Z) : ST tstate (list Z) :=
  r <- base_at b ;;
  l <- lift (vec lv r !! Z.to_nat i) ;;
  put_base b (set_vec lv (<[Z.to_nat i := []]> (vec lv r)) r) ;;;
  ret l.

Definition unlist (a : Z) (l : list Z) : list Z := base.filter (fun c => c <> a) l.
Definition list_del (a : Z) (r : tvec_base) : tvec_base :=
  let 'mktvec_base run j v1 v2 v3 v4 v5 w := r in
  mktvec_base run j (map (unlist a) v1) (map (unlist a) v2) (map (unlist a) v3) (map (unlist a) v4) (map (unlist a) v5) (unlist a w).

Section Timer.
Context (BITS TVR_BITS TVN_BITS : Z) (SMP : bool) (this_cpu : Z).
Context (call : Z -> Z -> ST tstate unit) (jiffies : Z).

Definition TVN_SIZE : Z := 2 ^ TVN_BITS.
Definition TVR_SIZE : Z := 2 ^ TVR_BITS.
Definition TVN_MASK : Z := TVN_SIZE - 1.
Definition TVR_MASK : Z := TVR_SIZE - 1.

Definition set_running_timer (b t : Z) : ST tstate unit :=
  if SMP then r <- base_at b ;; put_base b (set_running t r) else ret tt.

(** ** Adding *)

(** The vector and the index a timer goes to. *)
Definition slot (timer_jiffies expires : Z) : tvec * Z :=
  let idx := wrap BITS (expires - timer_jiffies) in
  let at_level n e := Z.land (Z.shiftr e (TVR_BITS + n * TVN_BITS)) TVN_MASK in
  if idx <? TVR_SIZE then (TV1, Z.land expires TVR_MASK)
  else if idx <? 2 ^ (TVR_BITS + TVN_BITS) then (TV2, at_level 0 expires)
  else if idx <? 2 ^ (TVR_BITS + 2 * TVN_BITS) then (TV3, at_level 1 expires)
  else if idx <? 2 ^ (TVR_BITS + 3 * TVN_BITS) then (TV4, at_level 2 expires)
  else if swrap BITS idx <? 0 then (TV1, Z.land timer_jiffies TVR_MASK)
  else
    let expires := if idx >? 0xffffffff then wrap BITS (0xffffffff + timer_jiffies) else expires in
    (TV5, at_level 3 expires).

Definition internal_add_timer (b a : Z) : ST tstate unit :=
  t <- timer_at a ;;
  r <- base_at b ;;
  let place := slot (timer_jiffies r) (expires t) in
  list_add_tail b (fst place) (snd place) a.

Definition init_timer (a : Z) : ST tstate unit := set_pending a false ;;; set_base a this_cpu.

Definition detach_timer (a : Z) (clear_pending : bool) : ST tstate unit :=
  t <- timer_at a ;;
  r <- base_at (base t) ;;
  put_base (base t) (list_del a r) ;;;
  when clear_pending (set_pending a false).

Definition lock_timer_base (a : Z) : ST tstate Z :=
  t <- timer_at a ;; if tst (base t) then ret (base t) else lift None.

Definition __mod_timer (a e : Z) : ST tstate Z :=
  t <- timer_at a ;;
  assert (tst (function t)) ;;;
  b <- lock_timer_base a ;;
  p <- timer_pending a ;;
  when p (detach_timer a false) ;;;
  r <- base_at b ;;
  b <- (if negb (b =? this_cpu) && negb (running_timer r =? a) then
          set_base a 0 ;;; set_base a this_cpu ;;; ret this_cpu
        else ret b) ;;
  set_expires a e ;;;
  internal_add_timer b a ;;;
  ret (b2z p).

Definition add_timer_on (a b : Z) : ST tstate unit :=
  t <- timer_at a ;;
  assert (negb (pending t || negb (tst (function t)))) ;;;
  set_base a b ;;;
  internal_add_timer b a.

Definition mod_timer (a e : Z) : ST tstate Z :=
  t <- timer_at a ;;
  assert (tst (function t)) ;;;
  if (expires t =? e) && pending t then ret 1 else __mod_timer a e.

Definition add_timer (a : Z) : ST tstate unit :=
  t <- timer_at a ;;
  assert (negb (pending t)) ;;;
  __mod_timer a (expires t) ;;; ret tt.

(** ** Deleting *)

Definition del_timer (a : Z) : ST tstate Z :=
  p <- timer_pending a ;;
  if p then
    lock_timer_base a ;;;
    p <- timer_pending a ;;
    when p (detach_timer a true) ;;;
    ret (b2z p)
  else ret 0.

Definition try_to_del_timer_sync (a : Z) : ST tstate Z :=
  b <- lock_timer_base a ;;
  r <- base_at b ;;
  if running_timer r =? a then ret (-1)
  else
    p <- timer_pending a ;;
    when p (detach_timer a true) ;;;
    ret (b2z p).

Fixpoint del_timer_sync (n : nat) (a : Z) : ST tstate Z :=
  r <- try_to_del_timer_sync a ;;
  if r >=? 0 then ret r else match n with O => lift None | S n => del_timer_sync n a end.

(** ** Running *)

(** [list_for_each_entry_safe] of [cascade] *)
Fixpoint cascade_list (b : Z) (l : list Z) : ST tstate unit :=
  match l with
  | [] => ret tt
  | a :: l =>
      t <- timer_at a ;;
      assert (base t =? b) ;;;
      internal_add_timer b a ;;;
      cascade_list b l
  end.
Definition cascade (b : Z) (lv : tvec) (index : Z) : ST tstate Z :=
  l <- list_replace_init b lv index ;; cascade_list b l ;;; ret index.

Definition INDEX (j n : Z) : Z := Z.land (Z.shiftr j (TVR_BITS + n * TVN_BITS)) TVN_MASK.

(** The chain of cascades of one tick. *)
Definition cascades (b j : Z) : ST tstate unit :=
  i <- cascade b TV2 (INDEX j 0) ;;
  when (negb (tst i))
    (i <- cascade b TV3 (INDEX j 1) ;;
     when (negb (tst i))
       (i <- cascade b TV4 (INDEX j 2) ;;
        when (negb (tst i)) (cascade b TV5 (INDEX j 3) ;;; ret tt))).

(** The handlers of the timers on the work list, until it is empty; [tick] is
    the time they are called for. *)
Fixpoint run_work (n : nat) (b tick : Z) : ST tstate unit :=
  r <- base_at b ;;
  match work_list r with
  | [] => ret tt
  | a :: _ =>
      match n with
      | O => lift None
      | S n =>
          t <- timer_at a ;;
          set_running_timer b a ;;;
          detach_timer a true ;;;
          modify (log_ran tick a) ;;;
          call (function t) (data t) ;;;
          run_work n b tick
      end
  end.

(** One iteration of [__run_timers]. *)
Definition run_tick (n : nat) (b : Z) : ST tstate unit :=
  r <- base_at b ;;
  let j := timer_jiffies r in
  let index := Z.land j TVR_MASK in
  when (negb (tst index)) (cascades b j) ;;;
  r <- base_at b ;;
  put_base b (set_jiffies (wrap BITS (j + 1)) r) ;;;
  l <- list_replace_init b TV1 index ;;
  r <- base_at b ;;
  put_base b (set_work l r) ;;;
  run_work n b j.

(** [time_after_eq(a, b)] *)
Definition time_after_eq (a b : Z) : bool := 0 <=? swrap BITS (a - b).

(** [n] bounds the ticks, [k] the timers of one tick. *)
Fixpoint run_loop (n k : nat) (b : Z) : ST tstate unit :=
  r <- base_at b ;;
  if time_after_eq jiffies (timer_jiffies r) then
    match n with O => lift None | S n => run_tick k b ;;; run_loop n k b end
  else ret tt.

Definition __run_timers (n k : nat) (b : Z) : ST tstate unit :=
  run_loop n k b ;;; set_running_timer b 0.

(** ** Set-up and hotplug *)

Definition init_base (run : Z) : tvec_base :=
  mktvec_base run jiffies (replicate (Z.to_nat TVR_SIZE) []) (replicate (Z.to_nat TVN_SIZE) [])
    (replicate (Z.to_nat TVN_SIZE) []) (replicate (Z.to_nat TVN_SIZE) []) (replicate (Z.to_nat TVN_SIZE) []) [].
(** The part of [init_timers_cpu] after the base is found. *)
Definition init_timers_cpu (b : Z) : ST tstate unit := r <- base_at b ;; put_base b (init_base (running_timer r)).

Fixpoint migrate_timer_list (n : nat) (old new : Z) (lv : tvec) (i : Z) : ST tstate unit :=
  r <- base_at old ;;
  l <- lift (vec lv r !! Z.to_nat i) ;;
  match l with
  | [] => ret tt
  | a :: _ =>
      match n with
      | O => lift None
      | S n =>
          detach_timer a false ;;; set_base a new ;;; internal_add_timer new a ;;;
          migrate_timer_list n old new lv i
      end
  end.

(** One iteration of a loop of [migrate_timers], which moves the slots [i] of
    the vectors [lvs]. *)
Fixpoint migrate_slots (n : nat) (old new : Z) (lvs : list tvec) (i : Z) : ST tstate unit :=
  match lvs with
  | [] => ret tt
  | lv :: lvs => migrate_timer_list n old new lv i ;;; migrate_slots n old new lvs i
  end.
(** The loop itself, from [i] on, with [k] iterations to go. *)
Fixpoint migrate_loop (k n : nat) (old new : Z) (lvs : list tvec) (i : Z) : ST tstate unit :=
  match k with
  | O => ret tt
  | S k => migrate_slots n old new lvs i ;;; migrate_loop k n old new lvs (i + 1)
  end.

(** [old] is the base of the CPU, [online] is [cpu_online(cpu)]; [n] bounds the
    timers of a slot. *)
Definition migrate_timers (n : nat) (online : bool) (old : Z) : ST tstate unit :=
  assert (negb online) ;;;
  r <- base_at old ;;
  assert (negb (tst (running_timer r))) ;;;
  migrate_loop (Z.to_nat TVR_SIZE) n old this_cpu [TV1] 0 ;;;
  migrate_loop (Z.to_nat TVN_SIZE) n old this_cpu [TV2; TV3; TV4; TV5] 0.
End Timer.
