(* ===== verification/TimerWheel.v ===== *)
(** * The timer wheel: places

    Where a timer that is due at time [D] is in the wheel at time [T], and what
    adding, taking and deleting do to that.  Times are unbounded integers here;
    the code sees them modulo [2 ^ BITS]. *)

#[local] Set Warnings "-notation-incompatible-prefix".
From S2P Require Import Prelude.
From stdpp Require Import gmap.
From S2P Require Import Timer.
#[local] Open Scope Z_scope.

Section Wheel.
Context (BITS TVR_BITS TVN_BITS : Z).
Context (HR : 0 < TVR_BITS) (HN : 0 < TVN_BITS) (HS : TVR_BITS + 4 * TVN_BITS <= 32) (HB : 32 <= BITS).

#[local] Abbreviation SIZE := (2 ^ TVR_BITS).
#[local] Abbreviation N := (2 ^ TVN_BITS).
#[local] Abbreviation W x := (wrap BITS x).

Definition shift (lv : tvec) : Z :=
  match lv with
  | TV1 => 0 | TV2 => TVR_BITS | TV3 => TVR_BITS + TVN_BITS
  | TV4 => TVR_BITS + 2 * TVN_BITS | TV5 => TVR_BITS + 3 * TVN_BITS
  end.
Definition slots (lv : tvec) : Z := match lv with TV1 => SIZE | _ => N end.

(** A timer due at [D]: in the first vector it is at its own tick; in another
    one, its slot is cascaded at some [c] between [lo] and [D]. *)
Definition placed (T lo D : Z) (lv : tvec) (i : Z) : Prop :=
  match lv with
  | TV1 => T <= D < T + SIZE /\ i = D mod SIZE
  | _ => exists c, lo <= c <= D /\ c mod 2 ^ shift lv = 0 /\ i = (c / 2 ^ shift lv) mod N
  end.

(** The time a timer with the member [expires] set to [e] is due when it is
    added at time [T]: past times are due at once. *)
Definition arm (T e : Z) : Z :=
  let d := W (e - T) in if d <? 2 ^ (BITS - 1) then T + d else T.

Lemma pow_pos n : 0 <= n -> 0 < 2 ^ n.
Proof. intros; now apply Z.pow_pos_nonneg. Qed.

(** Bit fields do not notice the wrap-around. *)
Lemma field x S n : 0 <= S -> 0 < n -> S + n <= BITS -> Z.land (Z.shiftr (W x) S) (2 ^ n - 1) = (x / 2 ^ S) mod 2 ^ n.
Proof.
  intros H1 H2 H3; replace (2 ^ n - 1) with (Z.ones n) by (rewrite Z.ones_equiv; lia).
  rewrite Z.land_ones, Z.shiftr_div_pow2 by lia; unfold wrap.
  rewrite (Z.mod_eq x (2 ^ BITS)) by (pose proof (pow_pos BITS ltac:(lia)); lia).
  replace (2 ^ BITS) with (2 ^ (BITS - S - n) * 2 ^ n * 2 ^ S) by (rewrite <- !Z.pow_add_r by lia; f_equal; lia).
  set (q := x / _); pose proof (pow_pos S ltac:(lia)); pose proof (pow_pos n ltac:(lia)).
  replace (x - 2 ^ (BITS - S - n) * 2 ^ n * 2 ^ S * q) with (x + (- (2 ^ (BITS - S - n) * q) * 2 ^ n) * 2 ^ S) by ring.
  rewrite Z.div_add, Z_mod_plus_full by lia; done.
Qed.
Lemma field0 x n : 0 < n <= BITS -> Z.land (W x) (2 ^ n - 1) = x mod 2 ^ n.
Proof. intros H; rewrite <- (Z.shiftr_0_r (W x)), field by lia; now rewrite Z.pow_0_r, Z.div_1_r. Qed.

Lemma wrap_sub_l e T : W (e - W T) = W (e - T).
Proof. unfold wrap; now rewrite Zminus_mod_idemp_r. Qed.
Lemma wrap_add_l T x : W (x + W T) = W (T + x).
Proof. unfold wrap; rewrite Zplus_mod_idemp_r; f_equal; lia. Qed.
Lemma wrap_bound x : 0 <= W x < 2 ^ BITS.
Proof. unfold wrap; apply Z.mod_pos_bound, pow_pos; lia. Qed.
Lemma wrap_arm T e : 0 <= e < 2 ^ BITS -> W (T + W (e - T)) = e.
Proof. intros H; unfold wrap; rewrite Zplus_mod_idemp_r; replace (T + (e - T)) with e by lia; now apply Z.mod_small. Qed.
Lemma arm_self T D : T <= D < T + 2 ^ (BITS - 1) -> arm T (W D) = D.
Proof.
  intros H; unfold arm; replace (W (W D - T)) with (D - T); [rewrite (proj2 (Z.ltb_lt _ _)) by lia; lia|].
  unfold wrap; rewrite Zminus_mod_idemp_l; symmetry; apply Z.mod_small.
  replace (2 ^ BITS) with (2 * 2 ^ (BITS - 1)) by (rewrite <- Z.pow_succ_r by lia; f_equal; lia); lia.
Qed.
Lemma arm_later T e : T <= arm T e.
Proof. unfold arm; pose proof (wrap_bound (e - T)); case_if; lia. Qed.

Lemma swrap_negative x : 0 <= x < 2 ^ BITS -> (swrap BITS x <? 0) = negb (x <? 2 ^ (BITS - 1)).
Proof.
  intros H; unfold swrap; rewrite Z.mod_small by done.
  destruct (Z.ltb_spec x (2 ^ (BITS - 1))); simpl; [apply Z.ltb_ge|apply Z.ltb_lt]; lia.
Qed.

(** The level above the first a timer goes to is cascaded before it is due. *)
Lemma placed_level T D d lv : lv <> TV1 -> 2 ^ shift lv <= d -> T + d <= D ->
  placed T (T + 1) D lv (((T + d) / 2 ^ shift lv) mod N).
Proof.
  intros Nl Hd HD; pose proof (pow_pos (shift lv)) as P; assert (0 <= shift lv) by (destruct lv; simpl; lia).
  specialize (P ltac:(lia)); set (S := 2 ^ shift lv) in *.
  pose proof (Z.div_mod (T + d) S ltac:(lia)); pose proof (Z.mod_pos_bound (T + d) S P).
  assert (Q : exists c, T + 1 <= c <= D /\ c mod S = 0 /\ ((T + d) / S) mod N = (c / S) mod N).
  { exists (S * ((T + d) / S)); split; [lia|]; split; [rewrite Z.mul_comm; apply Z_mod_mult|].
    now rewrite (Z.mul_comm S), Z.div_mul by lia. }
  destruct lv; [done|exact Q..].
Qed.

Lemma slot_ok T e lv i : 0 <= e < 2 ^ BITS -> slot BITS TVR_BITS TVN_BITS (W T) e = (lv, i) ->
  placed T (T + 1) (arm T e) lv i /\ 0 <= i < slots lv /\
  (lv <> TV1 -> e = W (arm T e) /\ arm T e - T < 2 ^ (BITS - 1)).
Proof.
  intros He; unfold slot, TVN_MASK, TVN_SIZE, TVR_MASK, TVR_SIZE; rewrite wrap_sub_l.
  pose proof (wrap_bound (e - T)) as Hd; pose proof (wrap_arm T e He) as Ew; unfold arm; set (d := W (e - T)) in *.
  rewrite swrap_negative by done; pose proof (pow_pos TVR_BITS ltac:(lia)) as PR; pose proof (pow_pos TVN_BITS ltac:(lia)) as PN.
  pose proof (Z.pow_le_mono_r 2 (TVR_BITS + 3 * TVN_BITS) (BITS - 1) ltac:(lia) ltac:(lia)) as L5.
  pose proof (Z.pow_le_mono_r 2 (TVR_BITS + 2 * TVN_BITS) (TVR_BITS + 3 * TVN_BITS) ltac:(lia) ltac:(lia)) as L4.
  pose proof (Z.pow_le_mono_r 2 (TVR_BITS + TVN_BITS) (TVR_BITS + 2 * TVN_BITS) ltac:(lia) ltac:(lia)) as L3.
  pose proof (Z.pow_le_mono_r 2 TVR_BITS (TVR_BITS + TVN_BITS) ltac:(lia) ltac:(lia)) as L2.
  assert (Up : forall lv' n D', lv' <> TV1 -> shift lv' = TVR_BITS + n * TVN_BITS -> 0 <= n <= 3 -> 2 ^ shift lv' <= D' - T -> D' <= T + d -> d < 2 ^ (BITS - 1) ->
    let i' := Z.land (Z.shiftr (W D') (TVR_BITS + n * TVN_BITS)) (N - 1) in
    placed T (T + 1) (T + d) lv' i' /\ 0 <= i' < slots lv' /\ (lv' <> TV1 -> e = W (T + d) /\ T + d - T < 2 ^ (BITS - 1))).
  { intros lv' n D' Nl Sh Hn Hs HD Hm i'; unfold i'; rewrite field, <- Sh by nia.
    split; [|split; [replace (slots lv') with N by (now destruct lv'); apply Z.mod_pos_bound; lia|intros _; split; [done|lia]]].
    replace D' with (T + (D' - T)) by lia; apply placed_level; (done || lia). }
  assert (Sm : d < 2 ^ (BITS - 1) -> forall lv' n, lv' <> TV1 -> shift lv' = TVR_BITS + n * TVN_BITS -> 0 <= n <= 3 -> 2 ^ shift lv' <= d ->
    let i' := Z.land (Z.shiftr e (TVR_BITS + n * TVN_BITS)) (N - 1) in
    placed T (T + 1) (T + d) lv' i' /\ 0 <= i' < slots lv' /\ (lv' <> TV1 -> e = W (T + d) /\ T + d - T < 2 ^ (BITS - 1))).
  { intros Hm lv' n Nl Sh Hn Hs; cbv zeta.
    replace (Z.shiftr e (TVR_BITS + n * TVN_BITS)) with (Z.shiftr (W (T + d)) (TVR_BITS + n * TVN_BITS)) by (now rewrite Ew); apply (Up lv' n (T + d)); (done || lia). }
  destruct (Z.ltb_spec d SIZE) as [C1|C1].
  { intros [= <- <-]; rewrite (proj2 (Z.ltb_lt d (2 ^ (BITS - 1)))) by lia; replace (Z.land e (SIZE - 1)) with (Z.land (W (T + d)) (SIZE - 1)) by (now rewrite Ew); rewrite field0 by lia.
    simpl; split; [lia|]; split; [apply Z.mod_pos_bound; lia|done]. }
  destruct (Z.ltb_spec d (2 ^ (BITS - 1))) as [Hm|Hm]; simpl negb; cbv iota.
  - destruct (Z.ltb_spec d (2 ^ (TVR_BITS + TVN_BITS))) as [C2|C2]; [intros [= <- <-]; apply (Sm Hm TV2 0); simpl; (done || lia)|].
    destruct (Z.ltb_spec d (2 ^ (TVR_BITS + 2 * TVN_BITS))) as [C3|C3]; [intros [= <- <-]; apply (Sm Hm TV3 1); simpl; (done || lia)|].
    destruct (Z.ltb_spec d (2 ^ (TVR_BITS + 3 * TVN_BITS))) as [C4|C4]; [intros [= <- <-]; apply (Sm Hm TV4 2); simpl; (done || lia)|].
    rewrite Z.gtb_ltb; destruct (Z.ltb_spec 0xffffffff d) as [C5|C5]; intros [= <- <-]; [|apply (Sm Hm TV5 3); simpl; (done || lia)].
    rewrite wrap_add_l; apply (Up TV5 3); simpl shift; try (done || lia).
    pose proof (Z.pow_le_mono_r 2 (TVR_BITS + 3 * TVN_BITS) 31 ltac:(lia) ltac:(lia)); lia.
  - rewrite !(proj2 (Z.ltb_ge d _)) by lia; intros [= <- <-]; rewrite field0 by lia.
    simpl; split; [lia|]; split; [apply Z.mod_pos_bound; lia|done].
Qed.

(** ** The lists of a base *)

Definition wheel (r : tvec_base) : list Z := concat (tv1 r) ++ concat (tv2 r) ++ concat (tv3 r) ++ concat (tv4 r) ++ concat (tv5 r).

(** Two lists that differ by the exchange of [L] for [L']. *)
Lemma exch_head (A X Y L L' : list Z) : X ++ L ≡ₚ Y ++ L' -> (A ++ X) ++ L ≡ₚ (A ++ Y) ++ L'.
Proof. intros P; rewrite <- !app_assoc; now f_equiv. Qed.
Lemma exch_tail (X Y B L L' : list Z) : X ++ L ≡ₚ Y ++ L' -> (X ++ B) ++ L ≡ₚ (Y ++ B) ++ L'.
Proof.
  intros P; rewrite <- !app_assoc, (Permutation_app_comm B L), (Permutation_app_comm B L'), !app_assoc; now f_equiv.
Qed.

Lemma concat_insert (v : list (list Z)) i L L' : v !! i = Some L -> concat (<[i := L']> v) ++ L ≡ₚ concat v ++ L'.
Proof.
  revert i; induction v as [|l v IH]; intros [|i] H; simpl in *; [done..|injection H as ->|apply exch_head; auto].
  apply exch_tail, Permutation_app_comm.
Qed.

Lemma wheel_set lv i L L' r : vec lv r !! i = Some L -> wheel (set_vec lv (<[i := L']> (vec lv r)) r) ++ L ≡ₚ wheel r ++ L'.
Proof.
  destruct r as [run j v1 v2 v3 v4 v5 w]; unfold wheel; destruct lv; simpl; intros H; pose proof (concat_insert _ _ _ L' H) as P.
  all: repeat (apply exch_head || (apply exch_tail; exact P) || exact P).
Qed.

Lemma vec_set_same lv v r : vec lv (set_vec lv v r) = v.
Proof. now destruct r, lv. Qed.
Lemma vec_set_other lv lv' v r : lv' <> lv -> vec lv' (set_vec lv v r) = vec lv' r.
Proof. destruct r, lv, lv'; done. Qed.
Lemma jiffies_set_vec lv v r : timer_jiffies (set_vec lv v r) = timer_jiffies r.
Proof. now destruct r, lv. Qed.
Lemma work_set_vec lv v r : work_list (set_vec lv v r) = work_list r.
Proof. now destruct r, lv. Qed.
Lemma running_set_vec lv v r : running_timer (set_vec lv v r) = running_timer r.
Proof. now destruct r, lv. Qed.

Lemma in_wheel r a : a ∈ wheel r <-> exists lv i L, vec lv r !! i = Some L /\ a ∈ L.
Proof.
  assert (C : forall v : list (list Z), a ∈ concat v <-> exists i L, v !! i = Some L /\ a ∈ L).
  { intros v; rewrite list_elem_of_In, in_concat; split.
    - intros (L & Hv & Ha); apply list_elem_of_In, list_elem_of_lookup in Hv as [i Hi]; exists i, L; split; [done|now apply list_elem_of_In].
    - intros (i & L & Hi & Ha); exists L; split; apply list_elem_of_In; [eapply list_elem_of_lookup_2|]; eauto. }
  unfold wheel; rewrite !elem_of_app, !C; split.
  - intros [(i & L & H)|[(i & L & H)|[(i & L & H)|[(i & L & H)|(i & L & H)]]]]; [exists TV1|exists TV2|exists TV3|exists TV4|exists TV5]; eauto.
  - intros (lv & i & L & H); destruct lv; simpl in H; eauto 8.
Qed.

(** ** The invariant of a base

    [m] gives the due times of the timers of base [b]; [l] are those among them
    that are on no vector; the slots of vector [lv] that hold a timer are
    cascaded at [lo lv] or later; [ok] is a property of timer, handler and
    argument. *)
Context (ok : Z -> Z -> Z -> Prop).

Record wheel_ok (b T : Z) (lo : tvec -> Z) (m : gmap Z Z) (l : list Z) (r : tvec_base) (tm : gmap Z timer_list) : Prop := {
  w_jiffies : timer_jiffies r = W T;
  w_length : forall lv, Z.of_nat (length (vec lv r)) = slots lv;
  w_perm : wheel r ++ l ≡ₚ (map_to_list m).*1;
  w_timer : forall a D, m !! a = Some D -> exists t, tm !! a = Some t /\ base t = b /\ pending t = true /\ ok a (function t) (data t);
  w_place : forall lv i L a, vec lv r !! i = Some L -> a ∈ L ->
    exists D t, m !! a = Some D /\ tm !! a = Some t /\ placed T (lo lv) D lv (Z.of_nat i) /\
      (lv <> TV1 -> expires t = W D /\ D - T < 2 ^ (BITS - 1)) }.

Lemma ok_in b T lo m l r tm a : wheel_ok b T lo m l r tm -> a ∈ wheel r ++ l <-> is_Some (m !! a).
Proof.
  intros H; rewrite (w_perm _ _ _ _ _ _ _ H), list_elem_of_fmap; split.
  - intros ([a' D] & -> & E%elem_of_map_to_list); eauto.
  - intros [D E]; exists (a, D); split; [done|now apply elem_of_map_to_list].
Qed.
Lemma ok_NoDup b T lo m l r tm : wheel_ok b T lo m l r tm -> NoDup (wheel r ++ l).
Proof. intros H; rewrite (w_perm _ _ _ _ _ _ _ H); apply NoDup_fst_map_to_list. Qed.

(** A slot becomes loose. *)
Lemma ok_take b T lo m l r tm lv i L : wheel_ok b T lo m l r tm -> vec lv r !! i = Some L ->
  wheel_ok b T lo m (L ++ l) (set_vec lv (<[i := []]> (vec lv r)) r) tm.
Proof.
  intros H E; constructor.
  - rewrite jiffies_set_vec; apply H.
  - intros lv'; destruct (decide (lv' = lv)) as [->|N]; [rewrite vec_set_same, length_insert|rewrite vec_set_other by done]; apply H.
  - rewrite <- (w_perm _ _ _ _ _ _ _ H), app_assoc; f_equiv; pose proof (wheel_set lv i L [] r E) as P; now rewrite app_nil_r in P.
  - apply H.
  - intros lv' i' L' a E' Ha; apply (w_place _ _ _ _ _ _ _ H lv' i' L' a); [|done].
    destruct (decide (lv' = lv)) as [->|N]; [|now rewrite vec_set_other in E'].
    rewrite vec_set_same in E'; destruct (decide (i' = i)) as [->|N]; [|now rewrite list_lookup_insert_ne in E'].
    rewrite list_lookup_insert_eq in E' by (eapply lookup_lt_Some; exact E); injection E' as <-; inversion Ha.
Qed.

(** A loose timer is forgotten. *)
Lemma ok_drop b T lo m a l r tm : wheel_ok b T lo m (a :: l) r tm -> wheel_ok b T lo (delete a m) l r tm.
Proof.
  intros H; pose proof (ok_NoDup _ _ _ _ _ _ _ H) as N; rewrite <- Permutation_middle in N; apply NoDup_cons in N as [Na _].
  destruct (proj1 (ok_in _ _ _ _ _ _ _ a H) ltac:(set_solver)) as [D E]; constructor; try apply H.
  - pose proof (w_perm _ _ _ _ _ _ _ H) as P; rewrite <- (map_to_list_delete m a D E) in P; simpl in P.
    rewrite <- Permutation_middle in P; now apply Permutation_cons_inv in P.
  - intros c D' [Nc Ec]%lookup_delete_Some; eapply w_timer; eauto.
  - intros lv i L c El Hc; destruct (w_place _ _ _ _ _ _ _ H lv i L c El Hc) as (D' & t & Em & R); exists D', t; split; [|done].
    rewrite lookup_delete_ne; [done|]; intros <-; apply Na; rewrite elem_of_app; left; apply in_wheel; eauto.
Qed.

(** A timer that is not in the base is added to a slot. *)
Lemma ok_put b T lo m l r tm a t lv i L D :
  wheel_ok b T lo m l r tm -> m !! a = None -> base t = b -> pending t = true -> ok a (function t) (data t) ->
  vec lv r !! i = Some L -> placed T (lo lv) D lv (Z.of_nat i) ->
  (lv <> TV1 -> expires t = W D /\ D - T < 2 ^ (BITS - 1)) ->
  wheel_ok b T lo (<[a := D]> m) l (set_vec lv (<[i := L ++ [a]]> (vec lv r)) r) (<[a := t]> tm).
Proof.
  intros H Na Eb Ep Ok E P Ex; constructor.
  - rewrite jiffies_set_vec; apply H.
  - intros lv'; destruct (decide (lv' = lv)) as [->|N]; [rewrite vec_set_same, length_insert|rewrite vec_set_other by done]; apply H.
  - rewrite map_to_list_insert by done; simpl; rewrite <- (w_perm _ _ _ _ _ _ _ H), Permutation_middle.
    pose proof (wheel_set lv i L (L ++ [a]) r E) as Q; rewrite app_assoc, (Permutation_app_comm (wheel r) L), <- app_assoc in Q.
    rewrite Permutation_app_comm in Q; apply Permutation_app_inv_l in Q; rewrite Q, <- app_assoc; done.
  - intros c D'; destruct (decide (c = a)) as [->|N].
    + intros _; exists t; rewrite lookup_insert_eq; done.
    + rewrite !lookup_insert_ne by done; apply H.
  - assert (Old : forall lv' i' L' c, vec lv' r !! i' = Some L' -> c ∈ L' -> exists D' t', <[a:=D]> m !! c = Some D' /\ <[a:=t]> tm !! c = Some t' /\
      placed T (lo lv') D' lv' (Z.of_nat i') /\ (lv' <> TV1 -> expires t' = W D' /\ D' - T < 2 ^ (BITS - 1))).
    { intros lv' i' L' c El Hc; destruct (w_place _ _ _ _ _ _ _ H lv' i' L' c El Hc) as (D' & t' & Em & R); exists D', t'.
      assert (c <> a) by (intros ->; congruence); now rewrite !lookup_insert_ne by done. }
    intros lv' i' L' c El Hc; destruct (decide (lv' = lv)) as [->|N]; [|rewrite vec_set_other in El by done; eauto].
    rewrite vec_set_same in El; destruct (decide (i' = i)) as [->|N]; [|rewrite list_lookup_insert_ne in El by done; eauto].
    rewrite list_lookup_insert_eq in El by (eapply lookup_lt_Some; exact E); injection El as <-.
    apply elem_of_app in Hc as [Hc|Hc]; [eauto|]; apply list_elem_of_singleton in Hc as ->; exists D, t; rewrite !lookup_insert_eq; done.
Qed.

(** ** Cascading *)

(** The vectors up to rank [k] have been cascaded at [T]. *)
Definition rank (lv : tvec) : Z := match lv with TV1 => 0 | TV2 => 1 | TV3 => 2 | TV4 => 3 | TV5 => 4 end.
Definition lo (T k : Z) (lv : tvec) : Z := if rank lv <=? k then T + 1 else T.

Lemma lo_bound T k lv : T <= lo T k lv <= T + 1.
Proof. unfold lo; case_if; lia. Qed.

Lemma placed_lo T l l' D lv i : l' <= l -> placed T l D lv i -> placed T l' D lv i.
Proof. intros H; destruct lv; simpl; [done|..]; intros (c & Hc & R); exists c; split; (done || lia). Qed.
Lemma placed_due T l D lv i : lv <> TV1 -> placed T l D lv i -> l <= D.
Proof. destruct lv; simpl; [done|intros _ (c & Hc & _); lia..]. Qed.
Lemma placed_raise T D lv i : lv <> TV1 -> placed T T D lv i ->
  T mod 2 ^ shift lv <> 0 \/ i <> (T / 2 ^ shift lv) mod N -> placed T (T + 1) D lv i.
Proof.
  intros Nl P Ne; assert (Q : exists c, T <= c <= D /\ c mod 2 ^ shift lv = 0 /\ i = (c / 2 ^ shift lv) mod N) by (now destruct lv).
  destruct Q as (c & Hc & Hm & Hi); assert (c <> T) by (intros ->; destruct Ne; congruence).
  assert (Q : exists c, T + 1 <= c <= D /\ c mod 2 ^ shift lv = 0 /\ i = (c / 2 ^ shift lv) mod N) by (exists c; split; [lia|done]).
  destruct lv; (done || exact Q).
Qed.

Lemma ok_lo b T lo1 lo2 m l r tm : wheel_ok b T lo1 m l r tm ->
  (forall lv i L a D, vec lv r !! i = Some L -> a ∈ L -> m !! a = Some D -> placed T (lo1 lv) D lv (Z.of_nat i) -> placed T (lo2 lv) D lv (Z.of_nat i)) ->
  wheel_ok b T lo2 m l r tm.
Proof.
  intros H F; constructor; try apply H; intros lv i L a E Ha; destruct (w_place _ _ _ _ _ _ _ H lv i L a E Ha) as (D & t & Em & Et & P & R).
  exists D, t; split; [done|]; split; [done|]; split; [|done]; eapply F; eauto.
Qed.

Lemma shift_rank lv : lv <> TV1 -> shift lv = TVR_BITS + (rank lv - 1) * TVN_BITS.
Proof. destruct lv; simpl; intros; (done || lia). Qed.

Lemma mod_divides T s s' : 0 <= s <= s' -> T mod 2 ^ s' = 0 -> T mod 2 ^ s = 0.
Proof.
  intros H E; apply Z.mod_divide in E as [q ->]; [|pose proof (pow_pos s' ltac:(lia)); lia].
  replace s' with (s' - s + s) by lia; rewrite Z.pow_add_r, Z.mul_assoc by lia; apply Z_mod_mult.
Qed.

(** Nothing above rank [k] is cascaded at [T]. *)
Lemma ok_raise b T k m l r tm : 0 <= k -> T mod 2 ^ (TVR_BITS + k * TVN_BITS) <> 0 ->
  wheel_ok b T (lo T k) m l r tm -> wheel_ok b T (lo T 4) m l r tm.
Proof.
  intros Hk Ne H; eapply ok_lo; [exact H|]; intros lv i L a D E Ha Em P; unfold lo in *.
  rewrite (proj2 (Z.leb_le (rank lv) 4)) by (destruct lv; simpl; lia); destruct (Z.leb_spec (rank lv) k) as [|G]; [done|].
  assert (Nl : lv <> TV1) by (intros ->; simpl in G; lia); apply placed_raise; [done|done|left]; intros Z0; apply Ne.
  eapply mod_divides; [|exact Z0]; rewrite (shift_rank lv Nl); nia.
Qed.

Definition pend (t : timer_list) : timer_list := mktimer_list (expires t) (function t) (data t) (base t) true.
Lemma pend_id t : pending t = true -> pend t = t.
Proof. destruct t; simpl; now intros ->. Qed.

Lemma run_wtimer_at s a t : timers s !! a = Some t -> timer_at a s = Some (t, s).
Proof. intros H; unfold timer_at; now rewrite H. Qed.
Lemma run_tbase_at s b r : bases s !! b = Some r -> base_at b s = Some (r, s).
Proof. intros H; unfold base_at; now rewrite H. Qed.
Lemma run_assert {A} (k : unit -> ST tstate A) s : bind (Timer.assert true) k s = k tt s.
Proof. done. Qed.
Lemma run_put_base s b r : put_base b r s = Some (tt, set_bases (<[b := r]> (bases s)) s).
Proof. done. Qed.
Lemma run_set_pending s a t p : timers s !! a = Some t ->
  set_pending a p s = Some (tt, set_timers (<[a := mktimer_list (expires t) (function t) (data t) (base t) p]> (timers s)) s).
Proof. intros H; unfold set_pending; now rewrite (run_bind_some _ _ _ _ _ (run_wtimer_at _ _ _ H)). Qed.

Lemma run_add b T lw m l r s a t :
  wheel_ok b T lw m l r (timers s) -> bases s !! b = Some r -> (forall lv, lw lv <= T + 1) ->
  m !! a = None -> timers s !! a = Some t -> base t = b -> ok a (function t) (data t) -> 0 <= expires t < 2 ^ BITS ->
  exists r', internal_add_timer BITS TVR_BITS TVN_BITS b a s =
      Some (tt, mkts (<[a := pend t]> (timers s)) (<[b := r']> (bases s)) (ran s)) /\
    wheel_ok b T lw (<[a := arm T (expires t)]> m) l r' (<[a := pend t]> (timers s)) /\
    work_list r' = work_list r /\ running_timer r' = running_timer r.
Proof.
  intros H Hr Lo Na Ht Eb Ok He; unfold internal_add_timer.
  rewrite (run_bind_some _ _ _ _ _ (run_wtimer_at _ _ _ Ht)), (run_bind_some _ _ _ _ _ (run_tbase_at _ _ _ Hr)), (w_jiffies _ _ _ _ _ _ _ H).
  destruct (slot BITS TVR_BITS TVN_BITS (W T) (expires t)) as [lv i] eqn:Es; cbn [fst snd].
  destruct (slot_ok T (expires t) lv i He Es) as (P & Hi & X).
  assert (Li : (Z.to_nat i < length (vec lv r))%nat) by (pose proof (w_length _ _ _ _ _ _ _ H lv); lia).
  destruct (lookup_lt_is_Some_2 _ _ Li) as [L El].
  exists (set_vec lv (<[Z.to_nat i := L ++ [a]]> (vec lv r)) r); split; [|split; [|split; [apply work_set_vec|apply running_set_vec]]].
  - unfold list_add_tail; rewrite (run_bind_some _ _ _ _ _ (run_tbase_at _ _ _ Hr)), El, run_bind_lift, (run_bind_some _ _ _ _ _ (run_put_base _ _ _)).
    exact (run_set_pending (set_bases _ s) a t true Ht).
  - apply ok_put; try done; rewrite Z2Nat.id by lia; eapply placed_lo; [apply Lo|exact P].
Qed.

(** The timers of a cascaded slot go where they belong. *)
Lemma run_cascade_list b T lw m l : forall L r s,
  wheel_ok b T lw m (L ++ l) r (timers s) -> bases s !! b = Some r -> (forall lv, lw lv <= T + 1) ->
  (forall a, a ∈ L -> exists D t, m !! a = Some D /\ timers s !! a = Some t /\ expires t = W D /\ T <= D < T + 2 ^ (BITS - 1)) ->
  exists r', cascade_list BITS TVR_BITS TVN_BITS b L s = Some (tt, set_bases (<[b := r']> (bases s)) s) /\
    wheel_ok b T lw m l r' (timers s) /\ work_list r' = work_list r /\ running_timer r' = running_timer r.
Proof.
  induction L as [|a L IH]; intros r s H Hr Lo Hl.
  { exists r; split; [|done]; simpl; unfold ret, set_bases; rewrite insert_id by done; now destruct s. }
  destruct (Hl a ltac:(now left)) as (D & t & Em & Et & Ex & HD).
  destruct (w_timer _ _ _ _ _ _ _ H a D Em) as (t' & Et' & Eb & Ep & Ok); assert (t' = t) as -> by congruence; clear Et'.
  pose proof (ok_drop _ _ _ _ _ _ _ _ H) as H1.
  destruct (run_add b T lw (delete a m) (L ++ l) r s a t H1 Hr Lo ltac:(apply lookup_delete_eq) Et Eb Ok) as (r1 & R1 & H2 & E1 & E2); [rewrite Ex; apply wrap_bound|].
  rewrite (pend_id t Ep), insert_id in R1, H2 by done; rewrite Ex, (arm_self T D HD), insert_delete_eq, insert_id in H2 by done.
  set (s1 := mkts (timers s) (<[b := r1]> (bases s)) (ran s)) in *.
  destruct (IH r1 s1 H2 ltac:(apply lookup_insert_eq) Lo ltac:(intros c Hc; apply Hl; now right)) as (r2 & R2 & H3 & E3 & E4).
  exists r2; split; [|split; [exact H3|split; congruence]].
  cbn [cascade_list]; rewrite (run_bind_some _ _ _ _ _ (run_wtimer_at _ _ _ Et)), Eb, Z.eqb_refl, run_assert, (run_bind_some _ _ _ _ _ R1), R2.
  unfold s1, set_bases; simpl; now rewrite insert_insert_eq.
Qed.

Lemma run_replace_init b lv i r s L : bases s !! b = Some r -> vec lv r !! Z.to_nat i = Some L ->
  list_replace_init b lv i s = Some (L, set_bases (<[b := set_vec lv (<[Z.to_nat i := []]> (vec lv r)) r]> (bases s)) s).
Proof.
  intros Hr El; unfold list_replace_init; rewrite (run_bind_some _ _ _ _ _ (run_tbase_at _ _ _ Hr)), El, run_bind_lift.
  now rewrite (run_bind_some _ _ _ _ _ (run_put_base _ _ _)).
Qed.
Lemma set_bases_twice b r1 r2 s : set_bases (<[b := r2]> (bases (set_bases (<[b := r1]> (bases s)) s))) (set_bases (<[b := r1]> (bases s)) s)
  = set_bases (<[b := r2]> (bases s)) s.
Proof. unfold set_bases; simpl; now rewrite insert_insert_eq. Qed.

Lemma shift_nonneg lv : 0 <= shift lv.
Proof. destruct lv; simpl; lia. Qed.
Lemma shift_max lv : lv <> TV1 -> shift lv + TVN_BITS <= BITS.
Proof. destruct lv; simpl; intros; (done || lia). Qed.
Lemma rank_inj lv lv' : rank lv = rank lv' -> lv = lv'.
Proof. destruct lv, lv'; simpl; (done || lia). Qed.

Lemma run_cascade b T lv m l r s : lv <> TV1 ->
  wheel_ok b T (lo T (rank lv - 1)) m l r (timers s) -> bases s !! b = Some r ->
  exists r', cascade BITS TVR_BITS TVN_BITS b lv (INDEX TVR_BITS TVN_BITS (W T) (rank lv - 1)) s =
      Some ((T / 2 ^ shift lv) mod N, set_bases (<[b := r']> (bases s)) s) /\
    wheel_ok b T (lo T (rank lv)) m l r' (timers s) /\ work_list r' = work_list r /\ running_timer r' = running_timer r.
Proof.
  intros Nl H Hr; pose proof (pow_pos TVN_BITS ltac:(lia)) as PN.
  assert (Ei : INDEX TVR_BITS TVN_BITS (W T) (rank lv - 1) = (T / 2 ^ shift lv) mod N).
  { unfold INDEX, TVN_MASK, TVN_SIZE; rewrite <- (shift_rank lv Nl); apply field; [apply shift_nonneg|lia|now apply shift_max]. }
  rewrite Ei; set (i := (T / 2 ^ shift lv) mod N) in *; pose proof (Z.mod_pos_bound (T / 2 ^ shift lv) N PN) as Hi; fold i in Hi.
  assert (Li : (Z.to_nat i < length (vec lv r))%nat) by (pose proof (w_length _ _ _ _ _ _ _ H lv) as E; replace (slots lv) with N in E by (now destruct lv); lia).
  destruct (lookup_lt_is_Some_2 _ _ Li) as [L El]; set (r1 := set_vec lv (<[Z.to_nat i := []]> (vec lv r)) r).
  pose proof (ok_take _ _ _ _ _ _ _ _ _ _ H El) as H1; fold r1 in H1.
  assert (H2 : wheel_ok b T (lo T (rank lv)) m (L ++ l) r1 (timers s)).
  { eapply ok_lo; [exact H1|]; intros lv' i' L' a D E' Ha Em P; unfold lo in *; destruct (decide (lv' = lv)) as [->|Nv].
    - rewrite (proj2 (Z.leb_gt (rank lv) (rank lv - 1))) in P by lia; rewrite (proj2 (Z.leb_le (rank lv) (rank lv))) by lia.
      apply placed_raise; [done|done|right]; fold i; intros Ez; unfold r1 in E'; rewrite vec_set_same in E'.
      replace i' with (Z.to_nat i) in E' by lia; rewrite list_lookup_insert_eq in E' by done; injection E' as <-; inversion Ha.
    - assert (rank lv' <> rank lv) by (intros Er; now apply Nv, rank_inj).
      destruct (Z.leb_spec (rank lv') (rank lv - 1)), (Z.leb_spec (rank lv') (rank lv)); (done || lia). }
  destruct (run_cascade_list b T _ m l L r1 (set_bases (<[b := r1]> (bases s)) s) H2 ltac:(apply lookup_insert_eq)) as (r2 & R2 & H3 & E3 & E4).
  - intros; apply lo_bound.
  - intros a Ha; destruct (w_place _ _ _ _ _ _ _ H lv _ L a El Ha) as (D & t & Em & Et & P & X); exists D, t; split; [done|]; split; [done|].
    destruct (X Nl) as [Ex Hd]; split; [done|]; pose proof (placed_due _ _ _ _ _ Nl P); pose proof (lo_bound T (rank lv - 1) lv); lia.
  - exists r2; split; [|split; [exact H3|unfold r1 in *; rewrite E3, E4, work_set_vec, running_set_vec; done]].
    unfold cascade; rewrite (run_bind_some _ _ _ _ _ (run_replace_init b lv i r s L Hr El)); fold r1.
    rewrite (run_bind_some _ _ _ _ _ R2), set_bases_twice; done.
Qed.

(** A non-zero index ends the chain of cascades. *)
Lemma index_stops T lv : lv <> TV1 -> (T / 2 ^ shift lv) mod N <> 0 -> T mod 2 ^ (TVR_BITS + rank lv * TVN_BITS) <> 0.
Proof.
  intros Nl Ni E; apply Ni; pose proof (shift_nonneg lv); pose proof (pow_pos (shift lv) ltac:(lia)).
  replace (TVR_BITS + rank lv * TVN_BITS) with (TVN_BITS + shift lv) in E by (rewrite (shift_rank lv Nl); lia).
  rewrite Z.pow_add_r in E by lia; apply Z.mod_divide in E as [q ->]; [|pose proof (pow_pos TVN_BITS ltac:(lia)); nia].
  rewrite Z.mul_assoc, Z.div_mul by lia; apply Z_mod_mult.
Qed.

(** One cascade, followed by the rest of the chain when its index is zero. *)
Lemma run_chain b T lv m l r s (rest : ST tstate unit) : lv <> TV1 ->
  wheel_ok b T (lo T (rank lv - 1)) m l r (timers s) -> bases s !! b = Some r ->
  (forall r1, wheel_ok b T (lo T (rank lv)) m l r1 (timers s) -> work_list r1 = work_list r -> running_timer r1 = running_timer r ->
    exists r', rest (set_bases (<[b := r1]> (bases s)) s) = Some (tt, set_bases (<[b := r']> (bases s)) s) /\
      wheel_ok b T (lo T 4) m l r' (timers s) /\ work_list r' = work_list r /\ running_timer r' = running_timer r) ->
  exists r', (i <- cascade BITS TVR_BITS TVN_BITS b lv (INDEX TVR_BITS TVN_BITS (W T) (rank lv - 1)) ;; when (negb (tst i)) rest) s =
      Some (tt, set_bases (<[b := r']> (bases s)) s) /\
    wheel_ok b T (lo T 4) m l r' (timers s) /\ work_list r' = work_list r /\ running_timer r' = running_timer r.
Proof.
  intros Nl H Hr Rest; destruct (run_cascade b T lv m l r s Nl H Hr) as (r1 & R1 & H1 & E1 & E2).
  rewrite (run_bind_some _ _ _ _ _ R1); unfold tst; destruct (Z.eqb_spec ((T / 2 ^ shift lv) mod N) 0) as [Z0|NZ]; simpl.
  - apply Rest; done.
  - exists r1; split; [done|]; split; [|done]; eapply ok_raise; [|apply (index_stops T lv Nl NZ)|done]; destruct lv; simpl; lia.
Qed.

Lemma run_cascades b T m l r s :
  wheel_ok b T (lo T 0) m l r (timers s) -> bases s !! b = Some r ->
  exists r', cascades BITS TVR_BITS TVN_BITS b (W T) s = Some (tt, set_bases (<[b := r']> (bases s)) s) /\
    wheel_ok b T (lo T 4) m l r' (timers s) /\ work_list r' = work_list r /\ running_timer r' = running_timer r.
Proof.
  intros H Hr; unfold cascades; apply (run_chain b T TV2); [done|done|done|]; intros r1 H1 W1 U1.
  set (s1 := set_bases (<[b := r1]> (bases s)) s).
  assert (Q : forall r', set_bases (<[b := r']> (bases s)) s = set_bases (<[b := r']> (bases s1)) s1) by (intros; symmetry; apply set_bases_twice).
  setoid_rewrite Q; rewrite <- W1, <- U1.
  apply (run_chain b T TV3 m l r1 s1); [done|done|apply lookup_insert_eq|]; intros r2 H2 W2 U2.
  set (s2 := set_bases (<[b := r2]> (bases s1)) s1).
  assert (Q2 : forall r', set_bases (<[b := r']> (bases s1)) s1 = set_bases (<[b := r']> (bases s2)) s2) by (intros; symmetry; apply set_bases_twice).
  setoid_rewrite Q2; rewrite <- W2, <- U2.
  apply (run_chain b T TV4 m l r2 s2); [done|done|apply lookup_insert_eq|]; intros r3 H3 W3 U3.
  set (s3 := set_bases (<[b := r3]> (bases s2)) s2).
  assert (Q3 : forall r', set_bases (<[b := r']> (bases s2)) s2 = set_bases (<[b := r']> (bases s3)) s3) by (intros; symmetry; apply set_bases_twice).
  setoid_rewrite Q3; rewrite <- W3, <- U3.
  destruct (run_cascade b T TV5 m l r3 s3 ltac:(done) H3 ltac:(apply lookup_insert_eq)) as (r4 & R4 & H4 & E).
  exists r4; split; [change (rank TV5 - 1) with 3 in R4; rewrite (run_bind_some _ _ _ _ _ R4); done|done].
Qed.

(** ** The tick *)

Lemma ok_advance b T m l r tm :
  wheel_ok b T (lo T 4) m l r tm -> vec TV1 r !! Z.to_nat (T mod SIZE) = Some [] ->
  wheel_ok b (T + 1) (fun _ => T + 1) m l (set_jiffies (W (T + 1)) r) tm.
Proof.
  intros H E0; pose proof (pow_pos TVR_BITS ltac:(lia)) as PR; constructor.
  - done.
  - intros lv; rewrite <- (w_length _ _ _ _ _ _ _ H lv); now destruct lv.
  - apply (w_perm _ _ _ _ _ _ _ H).
  - apply (w_timer _ _ _ _ _ _ _ H).
  - intros lv i L a E Ha; assert (E' : vec lv r !! i = Some L) by (now destruct lv).
    destruct (w_place _ _ _ _ _ _ _ H lv i L a E' Ha) as (D & t & Em & Et & P & X); exists D, t; split; [done|]; split; [done|].
    split; [|intros Nl; destruct (X Nl); split; [done|lia]]; destruct lv; simpl in P |- *; [|exact P..].
    destruct P as (HD & Hi); split; [|done]; assert (D <> T); [|lia].
    intros ->; replace i with (Z.to_nat (T mod SIZE)) in E' by lia; rewrite E0 in E'; injection E' as <-; inversion Ha.
Qed.

(** What the slot of the current tick holds. *)
Lemma due_slot b T m r tm L : wheel_ok b T (lo T 4) m [] r tm -> vec TV1 r !! Z.to_nat (T mod SIZE) = Some L ->
  forall a, a ∈ L <-> m !! a = Some T.
Proof.
  intros H E a; pose proof (pow_pos TVR_BITS ltac:(lia)) as PR; pose proof (Z.mod_pos_bound T SIZE PR); split.
  - intros Ha; destruct (w_place _ _ _ _ _ _ _ H TV1 _ L a E Ha) as (D & t & Em & _ & (HD & Hi) & _).
    rewrite Z2Nat.id in Hi by lia; assert (D = T) as ->; [|done].
    pose proof (Z.div_mod D SIZE ltac:(lia)); pose proof (Z.div_mod T SIZE ltac:(lia)); assert (D / SIZE = T / SIZE) by nia; nia.
  - intros Em; pose proof (proj2 (ok_in _ _ _ _ _ _ _ a H) ltac:(eauto)) as Hw; rewrite app_nil_r in Hw.
    apply in_wheel in Hw as (lv & i & L' & E' & Ha); destruct (w_place _ _ _ _ _ _ _ H lv i L' a E' Ha) as (D & t & Em' & _ & P & _).
    assert (D = T) as -> by congruence; destruct (decide (lv = TV1)) as [->|Nl].
    + destruct P as (_ & Hi); replace i with (Z.to_nat (T mod SIZE)) in E' by lia; congruence.
    + pose proof (placed_due _ _ _ _ _ Nl P) as Hl; unfold lo in Hl; rewrite (proj2 (Z.leb_le (rank lv) 4)) in Hl by (destruct lv; simpl; lia); lia.
Qed.

(** ** Deleting *)

Lemma unlist_app a l l' : unlist a (l ++ l') = unlist a l ++ unlist a l'.
Proof. apply filter_app. Qed.
#[local] Instance unlist_proper a : Proper ((≡ₚ) ==> (≡ₚ)) (unlist a).
Proof. intros l l' P; unfold unlist; now rewrite P. Qed.
Lemma unlist_concat a v : concat (map (unlist a) v) = unlist a (concat v).
Proof. induction v as [|l v IH]; simpl; [done|]; now rewrite unlist_app, IH. Qed.
Lemma unlist_id a l : a ∉ l -> unlist a l = l.
Proof.
  unfold unlist; induction l as [|c l IH]; [done|]; intros H; rewrite not_elem_of_cons in H; rewrite filter_cons, decide_True by (intros ->; tauto).
  f_equal; apply IH; tauto.
Qed.
Lemma unlist_head a l : unlist a (a :: l) = unlist a l.
Proof. unfold unlist; rewrite filter_cons, decide_False by tauto; done. Qed.
Lemma wheel_del a r : wheel (list_del a r) = unlist a (wheel r).
Proof. destruct r; unfold wheel; simpl; now rewrite !unlist_app, !unlist_concat. Qed.
Lemma vec_del a lv r : vec lv (list_del a r) = map (unlist a) (vec lv r).
Proof. now destruct r, lv. Qed.

Lemma wheel_frame b T lw m l r tm tm' : wheel_ok b T lw m l r tm -> (forall c D, m !! c = Some D -> tm' !! c = tm !! c) -> wheel_ok b T lw m l r tm'.
Proof.
  intros H F; constructor; try apply H.
  - intros a D E; rewrite (F a D E); eapply w_timer; eauto.
  - intros lv i L a E Ha; destruct (w_place _ _ _ _ _ _ _ H lv i L a E Ha) as (D & t & Em & R); exists D, t; now rewrite (F a D Em).
Qed.

Lemma ok_del b T lw m l r tm a : wheel_ok b T lw m l r tm -> wheel_ok b T lw (delete a m) (unlist a l) (list_del a r) tm.
Proof.
  intros H; constructor.
  - rewrite <- (w_jiffies _ _ _ _ _ _ _ H); now destruct r.
  - intros lv; rewrite vec_del, length_map; apply H.
  - rewrite wheel_del, <- unlist_app, (w_perm _ _ _ _ _ _ _ H); destruct (m !! a) as [D|] eqn:E.
    + rewrite <- (map_to_list_delete m a D E); simpl; rewrite unlist_head, unlist_id; [done|].
      intros ([c D'] & -> & Hin%elem_of_map_to_list)%list_elem_of_fmap; simpl in Hin; now rewrite lookup_delete_eq in Hin.
    + rewrite delete_id by done; rewrite unlist_id; [done|].
      intros ([c D'] & -> & Hin%elem_of_map_to_list)%list_elem_of_fmap; simpl in *; congruence.
  - intros c D [_ E]%lookup_delete_Some; eapply w_timer; eauto.
  - intros lv i L c; rewrite vec_del; change (map (unlist a) (vec lv r)) with (unlist a <$> vec lv r); rewrite list_lookup_fmap; intros (L' & E & ->)%fmap_Some Hc.
    unfold unlist in Hc; apply list_elem_of_filter in Hc as [Nc Hc].
    destruct (w_place _ _ _ _ _ _ _ H lv i L' c E Hc) as (D & t & Em & R); exists D, t; rewrite lookup_delete_ne by done; done.
Qed.

Definition cleared (t : timer_list) : timer_list := mktimer_list (expires t) (function t) (data t) (base t) false.

Lemma run_detach b r s a t (clear : bool) : timers s !! a = Some t -> base t = b -> bases s !! b = Some r ->
  detach_timer a clear s =
    Some (tt, mkts (if clear then <[a := cleared t]> (timers s) else timers s) (<[b := list_del a r]> (bases s)) (ran s)).
Proof.
  intros Ht Eb Hr; unfold detach_timer; rewrite (run_bind_some _ _ _ _ _ (run_wtimer_at _ _ _ Ht)), Eb, (run_bind_some _ _ _ _ _ (run_tbase_at _ _ _ Hr)).
  rewrite (run_bind_some _ _ _ _ _ (run_put_base _ _ _)); destruct clear; simpl; [|done].
  rewrite (run_set_pending _ a t); done.
Qed.

(** ** The operations *)

(** The timers of base [b] at time [T] are due as [m] says; [l] is the work list. *)
Definition inv (b T : Z) (m : gmap Z Z) (l : list Z) (s : tstate) : Prop :=
  b <> 0 /\ exists r, bases s !! b = Some r /\ work_list r = l /\
  wheel_ok b T (fun _ => T) m l r (timers s) /\
  (forall a t, timers s !! a = Some t -> base t = b -> pending t = true -> is_Some (m !! a)).

Lemma inv_pending b T m l s a t : inv b T m l s -> timers s !! a = Some t -> base t = b -> pending t = bool_decide (is_Some (m !! a)).
Proof.
  intros (_ & r & _ & _ & H & P) Ht Eb; case_bool_decide as D.
  - destruct D as [D Em]; destruct (w_timer _ _ _ _ _ _ _ H a D Em) as (t' & Ht' & _ & Ep & _); congruence.
  - destruct (pending t) eqn:Ep; [|done]; exfalso; eauto.
Qed.

Lemma work_del a r : work_list (list_del a r) = unlist a (work_list r).
Proof. now destruct r. Qed.
Lemma running_del a r : running_timer (list_del a r) = running_timer r.
Proof. now destruct r. Qed.
Lemma run_set_texpires s a t e : timers s !! a = Some t ->
  set_expires a e s = Some (tt, set_timers (<[a := mktimer_list e (function t) (data t) (base t) (pending t)]> (timers s)) s).
Proof. intros H; unfold set_expires; now rewrite (run_bind_some _ _ _ _ _ (run_wtimer_at _ _ _ H)). Qed.

(** The pending timer leaves its list. *)
Lemma run_mod_detach b T m l r s a t : inv b T m l s -> bases s !! b = Some r -> timers s !! a = Some t -> base t = b ->
  exists r1, when (pending t) (detach_timer a false) s = Some (tt, set_bases (<[b := r1]> (bases s)) s) /\
    wheel_ok b T (fun _ => T) (delete a m) (unlist a l) r1 (timers s) /\ work_list r1 = unlist a l /\ running_timer r1 = running_timer r.
Proof.
  intros I Hr Ht Eb; rewrite (inv_pending _ _ _ _ _ _ _ I Ht Eb); destruct I as (Nb & r' & Hr' & Hw & H & P); assert (r' = r) as -> by congruence.
  case_bool_decide as Dm; simpl.
  - exists (list_del a r); rewrite (run_detach b r s a t false Ht Eb Hr); split; [done|]; split; [now apply ok_del|].
    now rewrite work_del, running_del, Hw.
  - exists r; split; [unfold ret, set_bases; rewrite insert_id by done; now destruct s|].
    apply eq_None_not_Some in Dm; rewrite delete_id by done; rewrite unlist_id; [done|].
    intros Ha; destruct (proj1 (ok_in _ _ _ _ _ _ _ a H)) as [? ?]; [rewrite elem_of_app; auto|congruence].
Qed.

(** A timer stays on its base when it is started there, or while it runs. *)
Lemma run_mod_timer cpu b T m l s a t e :
  inv b T m l s -> cpu = b \/ (forall r, bases s !! b = Some r -> running_timer r = a) ->
  timers s !! a = Some t -> base t = b -> function t <> 0 -> ok a (function t) (data t) -> 0 <= e < 2 ^ BITS ->
  exists s', __mod_timer BITS TVR_BITS TVN_BITS cpu a e s = Some (b2z (bool_decide (is_Some (m !! a))), s') /\
    inv b T (<[a := arm T e]> m) (unlist a l) s' /\ ran s' = ran s /\
    timers s' = <[a := mktimer_list e (function t) (data t) b true]> (timers s) /\ (forall b', b' <> b -> bases s' !! b' = bases s !! b').
Proof.
  intros I Hc Ht Eb Hf Ok He; pose proof (inv_pending _ _ _ _ _ _ _ I Ht Eb) as Ep; pose proof I as (Nb & r & Hr & Hw & H & P).
  destruct (run_mod_detach b T m l r s a t I Hr Ht Eb) as (r1 & R1 & H1 & W1 & N1).
  rewrite Ep in R1; set (p := bool_decide (is_Some (m !! a))) in *; set (s1 := set_bases (<[b := r1]> (bases s)) s) in *.
  set (t1 := mktimer_list e (function t) (data t) (base t) (pending t)).
  set (s2 := set_timers (<[a := t1]> (timers s)) s1).
  assert (H2 : wheel_ok b T (fun _ => T) (delete a m) (unlist a l) r1 (timers s2)).
  { eapply wheel_frame; [exact H1|]; intros c D [Nc _]%lookup_delete_Some; now apply lookup_insert_ne. }
  destruct (run_add b T _ (delete a m) _ r1 s2 a t1 H2 ltac:(apply lookup_insert_eq) ltac:(intros; cbv beta; lia) ltac:(apply lookup_delete_eq)
    ltac:(apply lookup_insert_eq) Eb Ok He) as (r3 & R3 & H3 & W3 & _).
  assert (Et3 : <[a := pend t1]> (timers s2) = <[a := mktimer_list e (function t) (data t) b true]> (timers s))
    by (unfold s2, t1, pend; simpl; now rewrite insert_insert_eq, Eb).
  rewrite insert_delete_eq, Et3 in H3; rewrite Et3 in R3; change (expires t1) with e in H3.
  exists (mkts (<[a := mktimer_list e (function t) (data t) b true]> (timers s)) (<[b := r3]> (bases s2)) (ran s)).
  split; [|split; [split; [exact Nb|exists r3; split; [apply lookup_insert_eq|split; [now rewrite W3|split; [exact H3|]]]]|split; [done|split; [done|]]]].
  - unfold __mod_timer; rewrite (run_bind_some _ _ _ _ _ (run_wtimer_at _ _ _ Ht)).
    replace (tst (function t)) with true by (unfold tst; now rewrite (proj2 (Z.eqb_neq _ _) Hf)); rewrite run_assert.
    assert (Lk : lock_timer_base a s = Some (b, s)).
    { unfold lock_timer_base; rewrite (run_bind_some _ _ _ _ _ (run_wtimer_at _ _ _ Ht)), Eb; unfold tst; now rewrite (proj2 (Z.eqb_neq _ _) Nb). }
    rewrite (run_bind_some _ _ _ _ _ Lk); unfold timer_pending at 1; rewrite run_bind_bind, (run_bind_some _ _ _ _ _ (run_wtimer_at _ _ _ Ht)), run_bind_ret, Ep.
    rewrite (run_bind_some _ _ _ _ _ R1), (run_bind_some _ _ _ _ _ (run_tbase_at s1 b r1 ltac:(apply lookup_insert_eq))).
    replace (negb (b =? cpu) && negb (running_timer r1 =? a)) with false
      by (destruct Hc as [-> |Hc]; [now rewrite Z.eqb_refl|now rewrite N1, (Hc r Hr), Z.eqb_refl, andb_false_r]).
    rewrite run_bind_ret, (run_bind_some _ _ _ _ _ (run_set_texpires s1 a t e Ht)), (run_bind_some _ _ _ _ _ R3); done.
  - intros c t' Hct Eb' Ep'; simpl in Hct; destruct (decide (c = a)) as [->|Nc]; [rewrite lookup_insert_eq; eauto|].
    rewrite lookup_insert_ne in Hct by done; rewrite lookup_insert_ne by done; eauto.
  - intros b' Nb'; simpl; rewrite !lookup_insert_ne by done; done.
Qed.

Lemma run_clear b T m l s a t : inv b T m l s -> timers s !! a = Some t -> base t = b ->
  exists s', detach_timer a true s = Some (tt, s') /\ inv b T (delete a m) (unlist a l) s' /\ ran s' = ran s /\
    timers s' = <[a := cleared t]> (timers s) /\ (forall b', b' <> b -> bases s' !! b' = bases s !! b').
Proof.
  intros (Nb & r & Hr & Hw & H & P) Ht Eb; rewrite (run_detach b r s a t true Ht Eb Hr); eexists; split; [done|]; split; [|split; [done|split; [done|]]].
  - split; [done|]; exists (list_del a r); split; [apply lookup_insert_eq|]; split; [now rewrite work_del, Hw|]; split.
    + eapply wheel_frame; [apply ok_del, H|]; intros c D [Nc _]%lookup_delete_Some; now apply lookup_insert_ne.
    + intros c t' Hc Eb' Ep'; simpl in Hc; destruct (decide (c = a)) as [->|Nc]; [rewrite lookup_insert_eq in Hc; now injection Hc as <-|].
      rewrite lookup_insert_ne in Hc by done; rewrite lookup_delete_ne by done; eauto.
  - intros b' Nb'; simpl; now apply lookup_insert_ne.
Qed.

Lemma run_del_timer b T m l s a t : inv b T m l s -> timers s !! a = Some t -> base t = b ->
  exists s', del_timer a s = Some (b2z (bool_decide (is_Some (m !! a))), s') /\ inv b T (delete a m) (unlist a l) s' /\ ran s' = ran s /\
    timers s' = <[a := cleared t]> (timers s).
Proof.
  intros I Ht Eb; pose proof (inv_pending _ _ _ _ _ _ _ I Ht Eb) as Ep; unfold del_timer.
  unfold timer_pending at 1; rewrite run_bind_bind, (run_bind_some _ _ _ _ _ (run_wtimer_at _ _ _ Ht)), run_bind_ret, Ep; case_bool_decide as D.
  - assert (Lk : lock_timer_base a s = Some (b, s)).
    { unfold lock_timer_base; rewrite (run_bind_some _ _ _ _ _ (run_wtimer_at _ _ _ Ht)), Eb; unfold tst; now rewrite (proj2 (Z.eqb_neq _ _) (proj1 I)). }
    rewrite (run_bind_some _ _ _ _ _ Lk); unfold timer_pending; rewrite run_bind_bind, (run_bind_some _ _ _ _ _ (run_wtimer_at _ _ _ Ht)), run_bind_ret, Ep; simpl when.
    destruct (run_clear b T m l s a t I Ht Eb) as (s' & R & I' & Er & Et & _); exists s'; now rewrite (run_bind_some _ _ _ _ _ R).
  - pose proof I as (_ & r & Hr & Hw & H & P); exists s; split; [done|].
    apply eq_None_not_Some in D; rewrite delete_id by done; rewrite unlist_id; [split; [done|split; [done|]]|].
    + rewrite insert_id; [done|]; rewrite Ht; f_equal; destruct t; simpl in Ep; unfold cleared; simpl; now rewrite Ep.
    + intros Ha; destruct (proj1 (ok_in _ _ _ _ _ _ _ a H)) as [? ?]; [rewrite elem_of_app; auto|congruence].
Qed.

(** ** Running *)

(** [rearm a now] is the time for which the handler of [a] starts [a] again
    when it runs with [timer_jiffies] equal to [now], if it does. *)
Context (SMP : bool) (b : Z) (call : Z -> Z -> ST tstate unit) (rearm : Z -> Z -> option Z).

Definition behaves (a f d : Z) : Prop := forall s r, bases s !! b = Some r ->
  call f d s = match rearm a (timer_jiffies r) with
               | Some e => (__mod_timer BITS TVR_BITS TVN_BITS b a e ;;; ret tt) s
               | None => Some (tt, s)
               end.
Context (Hok : forall a f d, ok a f d -> f <> 0 /\ behaves a f d).
Context (Hre : forall a now e, rearm a now = Some e -> 0 <= e < 2 ^ BITS).

(** What the handler of [a], called at tick [T], does to the due times. *)
Definition fire (T : Z) (m : gmap Z Z) (a : Z) : gmap Z Z :=
  match rearm a (W (T + 1)) with Some e => <[a := arm (T + 1) e]> m | None => delete a m end.

Lemma inv_set_running T m l s r x : inv b T m l s -> bases s !! b = Some r ->
  inv b T m l (set_bases (<[b := set_running x r]> (bases s)) s).
Proof.
  intros (Nb & r' & Hr' & Hw & H & P) Hr; assert (r' = r) as -> by congruence; split; [done|].
  exists (set_running x r); split; [apply lookup_insert_eq|]; split; [done|]; split; [|done].
  constructor; [apply H| |apply H|apply H|].
  - intros lv; rewrite <- (w_length _ _ _ _ _ _ _ H lv); now destruct lv.
  - intros lv i L a E; apply (w_place _ _ _ _ _ _ _ H lv i L a); now destruct lv.
Qed.
Lemma run_set_running s r x : bases s !! b = Some r -> exists r1, set_running_timer SMP b x s = Some (tt, set_bases (<[b := r1]> (bases s)) s) /\
  r1 = if SMP then set_running x r else r.
Proof.
  intros Hr; exists (if SMP then set_running x r else r); split; [|done]; unfold set_running_timer; destruct SMP.
  - now rewrite (run_bind_some _ _ _ _ _ (run_tbase_at _ _ _ Hr)).
  - unfold ret, set_bases; rewrite insert_id by done; now destruct s.
Qed.

Lemma inv_NoDup T m l s : inv b T m l s -> NoDup l.
Proof. intros (_ & r & _ & _ & H & _); apply ok_NoDup in H; now apply NoDup_app in H as (_ & _ & ?). Qed.

Lemma inv_log T m l s j a : inv b T m l s -> inv b T m l (log_ran j a s).
Proof. done. Qed.

(** One handler. *)
Lemma run_handler T m a l s t r : inv b (T + 1) m (a :: l) s -> timers s !! a = Some t -> base t = b -> ok a (function t) (data t) -> bases s !! b = Some r ->
  exists s', (forall k : ST tstate unit,
      (set_running_timer SMP b a ;;; detach_timer a true ;;; modify (log_ran (W T) a) ;;; call (function t) (data t) ;;; k) s = k s') /\
    inv b (T + 1) (fire T m a) l s' /\ ran s' = ran s ++ [(W T, a)].
Proof.
  intros I Ht Eb Ok Hr; pose proof (inv_NoDup _ _ _ _ I) as [Na _]%NoDup_cons.
  destruct (run_set_running s r a Hr) as (r1 & R1 & Er1).
  assert (I1 : inv b (T + 1) m (a :: l) (set_bases (<[b := r1]> (bases s)) s)).
  { rewrite Er1; destruct SMP; [now apply inv_set_running|]; unfold set_bases; rewrite insert_id by done; now destruct s. }
  destruct (run_clear b (T + 1) m (a :: l) _ a t I1 Ht Eb) as (s2 & R2 & I2 & Er2 & Et2 & _).
  rewrite unlist_head, unlist_id in I2 by done; simpl in Er2, Et2.
  set (s3 := log_ran (W T) a s2); assert (I3 : inv b (T + 1) (delete a m) l s3) by done.
  pose proof I3 as (_ & r3 & Hr3 & _ & H3 & _); destruct (Hok _ _ _ Ok) as [Hf Hb].
  assert (Er3 : ran s3 = ran s ++ [(W T, a)]) by (unfold s3; simpl; now rewrite Er2).
  assert (Call : exists s4, call (function t) (data t) s3 = Some (tt, s4) /\ inv b (T + 1) (fire T m a) l s4 /\ ran s4 = ran s3).
  { rewrite (Hb s3 r3 Hr3), (w_jiffies _ _ _ _ _ _ _ H3); unfold fire; destruct (rearm a (W (T + 1))) as [e|] eqn:Ee; [|exists s3; done].
    destruct (run_mod_timer b b (T + 1) (delete a m) l s3 a (cleared t) e I3 (or_introl eq_refl)) as (s4 & R4 & I4 & Er4 & _);
      [unfold s3; simpl; rewrite Et2; apply lookup_insert_eq|done|done|done|now apply (Hre a (W (T + 1)))|].
    rewrite insert_delete_eq, unlist_id in I4 by done; exists s4; now rewrite (run_bind_some _ _ _ _ _ R4). }
  destruct Call as (s4 & R4 & I4 & Er4); exists s4; split; [|split; [done|congruence]].
  intros k; rewrite (run_bind_some _ _ _ _ _ R1), (run_bind_some _ _ _ _ _ R2), (run_bind_some _ _ s2 tt s3) by done.
  now rewrite (run_bind_some _ _ _ _ _ R4).
Qed.

Lemma run_work_spec T : forall w n m s, inv b (T + 1) m w s -> (length w <= n)%nat ->
  exists s', run_work SMP call n b (W T) s = Some (tt, s') /\ inv b (T + 1) (fold_left (fire T) w m) [] s' /\
    ran s' = ran s ++ map (fun a => (W T, a)) w.
Proof.
  induction w as [|a w IH]; intros n m s I Hn; pose proof I as (_ & r & Hr & Hw & H & _).
  { exists s; split; [|split; [done|now rewrite app_nil_r]]; destruct n; cbn [run_work]; rewrite (run_bind_some _ _ _ _ _ (run_tbase_at _ _ _ Hr)), Hw; done. }
  destruct n as [|n]; [simpl in Hn; lia|].
  destruct (proj1 (ok_in _ _ _ _ _ _ _ a H)) as [D Em]; [rewrite elem_of_app, elem_of_cons; auto|].
  destruct (w_timer _ _ _ _ _ _ _ H a D Em) as (t & Ht & Eb & _ & Ok).
  destruct (run_handler T m a w s t r I Ht Eb Ok Hr) as (s1 & R1 & I1 & E1).
  destruct (IH n _ s1 I1 ltac:(simpl in Hn; lia)) as (s2 & R2 & I2 & E2).
  exists s2; split; [|split; [exact I2|rewrite E2, E1, <- app_assoc; done]].
  cbn [run_work]; rewrite (run_bind_some _ _ _ _ _ (run_tbase_at _ _ _ Hr)), Hw, (run_bind_some _ _ _ _ _ (run_wtimer_at _ _ _ Ht)).
  rewrite R1; exact R2.
Qed.

(** ** The abstract machine

    At tick [T] the timers due at [T] run, once each; they are not pending
    afterwards, unless their handlers have started them again. *)
Definition tick (T : Z) (m : gmap Z Z) : gmap Z Z :=
  map_imap (fun a D => if D =? T then arm (T + 1) <$> rearm a (W (T + 1)) else Some D) m.
Fixpoint ticks (n : nat) (T : Z) (m : gmap Z Z) : gmap Z Z :=
  match n with O => m | S n => ticks n (T + 1) (tick T m) end.

Lemma lookup_tick T m a : tick T m !! a = m !! a ≫= (fun D => if D =? T then arm (T + 1) <$> rearm a (W (T + 1)) else Some D).
Proof. apply map_lookup_imap. Qed.

Lemma fire_other T m a c : c <> a -> fire T m a !! c = m !! c.
Proof. intros N; unfold fire; destruct (rearm _ _); [now apply lookup_insert_ne|now apply lookup_delete_ne]. Qed.
Lemma fire_same T m a : fire T m a !! a = arm (T + 1) <$> rearm a (W (T + 1)).
Proof. unfold fire; destruct (rearm _ _); [apply lookup_insert_eq|apply lookup_delete_eq]. Qed.

Lemma fires T w : NoDup w -> forall m c, fold_left (fire T) w m !! c = if decide (c ∈ w) then arm (T + 1) <$> rearm c (W (T + 1)) else m !! c.
Proof.
  induction 1 as [|a w Na _ IH]; intros m c; simpl; [done|]; rewrite IH; destruct (decide (c = a)) as [->|Nc].
  - rewrite decide_False by done; rewrite decide_True by (now left); apply fire_same.
  - rewrite fire_other by done; assert (E : c ∈ a :: w <-> c ∈ w) by (rewrite elem_of_cons; tauto).
    now rewrite (decide_ext _ _ _ _ E).
Qed.
Lemma fires_tick T w m : NoDup w -> (forall a, a ∈ w <-> m !! a = Some T) -> fold_left (fire T) w m = tick T m.
Proof.
  intros Nw Hw; apply map_eq; intros c; rewrite fires, lookup_tick by done; case_decide as D.
  - apply Hw in D; rewrite D; simpl; now rewrite Z.eqb_refl.
  - rewrite Hw in D; destruct (m !! c) as [x|]; simpl; [|done]; destruct (Z.eqb_spec x T); [congruence|done].
Qed.

Lemma wheel_work w r : wheel (set_work w r) = wheel r.
Proof. done. Qed.
Lemma ok_work c T lw m l r tm w : wheel_ok c T lw m l r tm -> wheel_ok c T lw m l (set_work w r) tm.
Proof.
  intros H; constructor; [apply H| |apply H|apply H|].
  - intros lv; rewrite <- (w_length _ _ _ _ _ _ _ H lv); now destruct lv.
  - intros lv i L a E; apply (w_place _ _ _ _ _ _ _ H lv i L a); now destruct lv.
Qed.

Lemma run_tick_spec n T m s : inv b T m [] s -> (size m <= n)%nat ->
  exists s' w, run_tick BITS TVR_BITS TVN_BITS SMP call n b s = Some (tt, s') /\ inv b (T + 1) (tick T m) [] s' /\
    ran s' = ran s ++ map (fun a => (W T, a)) w /\ NoDup w /\ (forall a, a ∈ w <-> m !! a = Some T).
Proof.
  intros (Nb & r & Hr & Hw & H & P) Hn; pose proof (pow_pos TVR_BITS ltac:(lia)) as PR.
  assert (H0 : wheel_ok b T (lo T 0) m [] r (timers s)).
  { eapply ok_lo; [exact H|]; intros lv i L a D _ _ _ Pl; destruct lv; done. }
  assert (Ei : Z.land (timer_jiffies r) (TVR_MASK TVR_BITS) = T mod SIZE).
  { rewrite (w_jiffies _ _ _ _ _ _ _ H); unfold TVR_MASK, TVR_SIZE; apply field0; lia. }
  assert (C : exists r1, when (negb (tst (T mod SIZE))) (cascades BITS TVR_BITS TVN_BITS b (W T)) s = Some (tt, set_bases (<[b := r1]> (bases s)) s) /\
    wheel_ok b T (lo T 4) m [] r1 (timers s)).
  { unfold tst; destruct (Z.eqb_spec (T mod SIZE) 0) as [Z0|NZ]; simpl.
    - destruct (run_cascades b T m [] r s H0 Hr) as (r1 & R1 & H1 & _); eauto.
    - exists r; split; [unfold ret, set_bases; rewrite insert_id by done; now destruct s|].
      apply (ok_raise b T 0); [lia|now rewrite Z.mul_0_l, Z.add_0_r|done]. }
  destruct C as (r1 & R1 & H1); pose proof (Z.mod_pos_bound T SIZE PR) as Hi.
  assert (Li : (Z.to_nat (T mod SIZE) < length (vec TV1 r1))%nat) by (pose proof (w_length _ _ _ _ _ _ _ H1 TV1) as E; simpl slots in E; lia).
  destruct (lookup_lt_is_Some_2 _ _ Li) as [w El]; pose proof (due_slot _ _ _ _ _ _ H1 El) as Due.
  pose proof (ok_take _ _ _ _ _ _ _ _ _ _ H1 El) as H2; rewrite app_nil_r in H2; set (r2 := set_vec TV1 (<[Z.to_nat (T mod SIZE) := []]> (vec TV1 r1)) r1) in *.
  pose proof (ok_advance b T m w r2 (timers s) H2) as H3; unfold r2 in H3; rewrite vec_set_same, list_lookup_insert_eq in H3 by done; specialize (H3 eq_refl); fold r2 in H3.
  set (r3 := set_jiffies (W (T + 1)) r1); set (r4 := set_work w (set_vec TV1 (<[Z.to_nat (T mod SIZE) := []]> (vec TV1 r3)) r3)).
  assert (E4 : r4 = set_work w (set_jiffies (W (T + 1)) r2)) by (unfold r4, r3, r2; now destruct r1).
  set (s4 := set_bases (<[b := r4]> (bases s)) s).
  assert (Nw : NoDup w) by (apply ok_NoDup in H2; now apply NoDup_app in H2 as (_ & _ & ?)).
  assert (I4 : inv b (T + 1) m w s4).
  { split; [done|]; exists r4; split; [apply lookup_insert_eq|]; split; [done|]; split; [|done]; rewrite E4; now apply ok_work. }
  assert (Lw : (length w <= n)%nat).
  { etrans; [|exact Hn]; rewrite <- length_map_to_list; rewrite <- (length_fmap fst); apply submseteq_length, NoDup_submseteq; [done|].
    intros a Ha%Due; apply list_elem_of_fmap; exists (a, T); split; [done|now apply elem_of_map_to_list]. }
  destruct (run_work_spec T w n m s4 I4 Lw) as (s5 & R5 & I5 & E5).
  exists s5, w; rewrite <- (fires_tick T w m) by done; split; [|done].
  unfold run_tick; rewrite (run_bind_some _ _ _ _ _ (run_tbase_at _ _ _ Hr)); cbv zeta; rewrite Ei, (w_jiffies _ _ _ _ _ _ _ H).
  rewrite (run_bind_some _ _ _ _ _ R1), (run_bind_some _ _ _ _ _ (run_tbase_at (set_bases (<[b := r1]> (bases s)) s) b r1 ltac:(apply lookup_insert_eq))).
  rewrite (run_bind_some _ _ _ _ _ (run_put_base _ _ _)), set_bases_twice.
  replace (wrap BITS (W T + 1)) with (W (T + 1)) by (unfold wrap; now rewrite Zplus_mod_idemp_l); fold r3.
  rewrite (run_bind_some _ _ _ _ _ (run_replace_init b TV1 (T mod SIZE) r3 (set_bases (<[b := r3]> (bases s)) s) w ltac:(apply lookup_insert_eq) El)), set_bases_twice.
  rewrite (run_bind_some _ _ _ _ _ (run_tbase_at (set_bases _ s) b _ ltac:(apply lookup_insert_eq))).
  rewrite (run_bind_some _ _ _ _ _ (run_put_base _ _ _)), set_bases_twice; exact R5.
Qed.

(** The log of [n] ticks from [T]: [ws] are the timers of each. *)
Fixpoint log_of (T : Z) (ws : list (list Z)) : list (Z * Z) :=
  match ws with [] => [] | w :: ws => map (fun a => (W T, a)) w ++ log_of (T + 1) ws end.

Lemma tick_size T m : (size (tick T m) <= size m)%nat.
Proof.
  rewrite <- !size_dom; apply subseteq_size; intros a; rewrite !elem_of_dom, lookup_tick; destruct (m !! a); [eauto|intros [? ?]; done].
Qed.

Lemma swrap_diff J T : - 2 ^ (BITS - 1) <= J - T < 2 ^ (BITS - 1) -> swrap BITS (W J - W T) = J - T.
Proof.
  intros H; assert (E : swrap BITS (W J - W T) = swrap BITS (J - T)) by (unfold swrap, wrap; now rewrite <- Zminus_mod).
  rewrite E; apply swrap_small; lia.
Qed.

Lemma run_loop_spec J k : forall n T m s, inv b T m [] s -> J = T + Z.of_nat n - 1 -> Z.of_nat n <= 2 ^ (BITS - 1) -> (size m <= k)%nat ->
  forall f, (n <= f)%nat ->
  exists s' ws, run_loop BITS TVR_BITS TVN_BITS SMP call (W J) f k b s = Some (tt, s') /\ inv b (J + 1) (ticks n T m) [] s' /\
    ran s' = ran s ++ log_of T ws /\ length ws = n /\
    (forall i w, ws !! i = Some w -> NoDup w /\ forall a, a ∈ w <-> ticks i T m !! a = Some (T + Z.of_nat i)).
Proof.
  induction n as [|n IH]; intros T m s I EJ Hn Hk f Hf; pose proof I as (Nb & r & Hr & Hw & H & P).
  all: assert (Run : run_loop BITS TVR_BITS TVN_BITS SMP call (W J) f k b s =
    if 0 <=? J - T then match f with O => None | S f => (run_tick BITS TVR_BITS TVN_BITS SMP call k b ;;; run_loop BITS TVR_BITS TVN_BITS SMP call (W J) f k b) s end
    else Some (tt, s)) by (pose proof (pow_pos (BITS - 1) ltac:(lia)); destruct f; cbn [run_loop];
      rewrite (run_bind_some _ _ _ _ _ (run_tbase_at _ _ _ Hr)), (w_jiffies _ _ _ _ _ _ _ H); unfold time_after_eq; rewrite swrap_diff by lia; now case_if).
  - exists s, []; rewrite Run, (proj2 (Z.leb_gt 0 (J - T))) by lia; split; [done|]; split; [now replace (J + 1) with T by lia|].
    split; [now rewrite app_nil_r|]; split; [done|]; intros i w E; done.
  - destruct f as [|f]; [lia|]; destruct (run_tick_spec k T m s I Hk) as (s1 & w & R1 & I1 & E1 & Nw & Dw).
    destruct (IH (T + 1) (tick T m) s1 I1 ltac:(lia) ltac:(lia) ltac:(etrans; [apply tick_size|done]) f ltac:(lia)) as (s2 & ws & R2 & I2 & E2 & Lw & Dws).
    exists s2, (w :: ws); split; [|split; [exact I2|]; split; [now rewrite E2, E1, <- app_assoc|]; split; [simpl; lia|]].
    + rewrite Run, (proj2 (Z.leb_le 0 (J - T))) by lia; now rewrite (run_bind_some _ _ _ _ _ R1).
    + intros [|i] w' E; simpl in E.
      * injection E as <-; split; [done|]; simpl; now rewrite Z.add_0_r.
      * destruct (Dws i w' E) as [Nd Dd]; split; [done|]; intros a; rewrite Dd; simpl ticks; do 2 f_equiv; lia.
Qed.

Lemma run_timers_spec J k n T m s f : inv b T m [] s -> J = T + Z.of_nat n - 1 -> Z.of_nat n <= 2 ^ (BITS - 1) -> (size m <= k)%nat -> (n <= f)%nat ->
  exists s' ws, __run_timers BITS TVR_BITS TVN_BITS SMP call (W J) f k b s = Some (tt, s') /\ inv b (J + 1) (ticks n T m) [] s' /\
    ran s' = ran s ++ log_of T ws /\ length ws = n /\
    (forall i w, ws !! i = Some w -> NoDup w /\ forall a, a ∈ w <-> ticks i T m !! a = Some (T + Z.of_nat i)).
Proof.
  intros I EJ Hn Hk Hf; destruct (run_loop_spec J k n T m s I EJ Hn Hk f Hf) as (s1 & ws & R1 & I1 & E1 & R).
  pose proof I1 as (_ & r1 & Hr1 & _); destruct (run_set_running s1 r1 0 Hr1) as (r2 & R2 & Er2).
  exists (set_bases (<[b := r2]> (bases s1)) s1), ws; unfold __run_timers; rewrite (run_bind_some _ _ _ _ _ R1); split; [done|]; split; [|done].
  rewrite Er2; destruct SMP; [now apply inv_set_running|]; unfold set_bases; rewrite insert_id by done; now destruct s1.
Qed.

(** ** The empty wheel *)

Lemma concat_empty n : concat (replicate n ([] : list Z)) = [].
Proof. induction n; done. Qed.

Lemma inv_empty J s run : b <> 0 -> bases s !! b = Some (init_base TVR_BITS TVN_BITS (W J) run) ->
  (forall a t, timers s !! a = Some t -> base t = b -> pending t = false) -> inv b J ∅ [] s.
Proof using HR HN.
  intros Nb Hr Hp; split; [done|]; eexists; split; [exact Hr|]; split; [done|]; split.
  - pose proof (pow_pos TVR_BITS ltac:(lia)); pose proof (pow_pos TVN_BITS ltac:(lia)); constructor.
    + done.
    + intros []; simpl; rewrite length_replicate; unfold TVR_SIZE, TVN_SIZE; lia.
    + unfold wheel; simpl; rewrite !concat_empty; done.
    + intros a D; now rewrite lookup_empty.
    + intros lv i L a E Ha; exfalso; assert (L = []) as ->; [|inversion Ha].
      destruct lv; simpl in E; apply lookup_replicate in E as [-> _]; done.
  - intros a t Ht Eb Ep; rewrite (Hp a t Ht Eb) in Ep; done.
Qed.
Lemma run_init J s r : b <> 0 -> bases s !! b = Some r -> (forall a t, timers s !! a = Some t -> base t = b -> pending t = false) ->
  exists s', init_timers_cpu TVR_BITS TVN_BITS (W J) b s = Some (tt, s') /\ inv b J ∅ [] s' /\ timers s' = timers s /\ ran s' = ran s.
Proof using HR HN.
  intros Nb Hr Hp; unfold init_timers_cpu; rewrite (run_bind_some _ _ _ _ _ (run_tbase_at _ _ _ Hr)); eexists; split; [done|]; split; [|done].
  apply (inv_empty J _ (running_timer r)); [done|apply lookup_insert_eq|exact Hp].
Qed.
End Wheel.
