(* ===== verification/TimerMigrate.v ===== *)
(** * The timer wheel: moving the timers of a dead CPU

    [migrate_timers] takes every timer of one base to another.  The invariants
    of both bases hold after each timer; what has been moved so far is stated
    timer by timer. *)

#[local] Set Warnings "-notation-incompatible-prefix".
From S2P Require Import Prelude.
From stdpp Require Import gmap.
From S2P Require Import Timer TimerWheel.
#[local] Open Scope Z_scope.

(** The timer on its new base. *)
Definition rebased (b : Z) (t : timer_list) : timer_list := mktimer_list (expires t) (function t) (data t) b true.

Section Migrate.
Context (BITS TVR_BITS TVN_BITS : Z).
Context (HR : 0 < TVR_BITS) (HN : 0 < TVN_BITS) (HS : TVR_BITS + 4 * TVN_BITS <= 32) (HB : 32 <= BITS).
Context (ok : Z -> Z -> Z -> Prop) (old new To Tn : Z) (Hne : old <> new).

#[local] Abbreviation inv := (inv BITS TVR_BITS TVN_BITS ok).
#[local] Abbreviation wheel_ok := (wheel_ok BITS TVR_BITS TVN_BITS ok).

(** Part of the timers in [mo0] have moved: [mo] are still to come. *)
Record moving (s0 : tstate) (mo0 mn0 : gmap Z Z) (s : tstate) (mo mn : gmap Z Z) : Prop := {
  g_old : inv old To mo [] s;
  g_new : inv new Tn mn [] s;
  g_ran : ran s = ran s0;
  g_bases : forall b, b <> old -> b <> new -> bases s !! b = bases s0 !! b;
  g_at : forall a,
    (mo !! a = mo0 !! a /\ mn !! a = mn0 !! a /\ timers s !! a = timers s0 !! a) \/
    (is_Some (mo0 !! a) /\ mo !! a = None /\ exists t, timers s0 !! a = Some t /\ mn !! a = Some (arm BITS Tn (expires t)) /\
       timers s !! a = Some (rebased new t)) }.

Lemma run_set_base s a t b : timers s !! a = Some t ->
  set_base a b s = Some (tt, set_timers (<[a := mktimer_list (expires t) (function t) (data t) b (pending t)]> (timers s)) s).
Proof. intros H; unfold set_base; now rewrite (run_bind_some _ _ _ _ _ (run_wtimer_at _ _ _ H)). Qed.

(** The timers of two bases differ. *)
Lemma bases_apart mo mn lo ln s a D : inv old To mo lo s -> inv new Tn mn ln s -> mo !! a = Some D -> mn !! a = None.
Proof using Hne.
  intros (_ & r & _ & _ & H & _) (_ & r' & _ & _ & H' & _) E; apply eq_None_not_Some; intros [D' E'].
  destruct (w_timer _ _ _ _ _ _ _ _ _ _ _ H a D E) as (t & Et & Eb & _), (w_timer _ _ _ _ _ _ _ _ _ _ _ H' a D' E') as (t' & Et' & Eb' & _); congruence.
Qed.

(** ** A timer that is started on another CPU

    It leaves the base [old] it belongs to and goes to the base [new] of the
    current CPU, unless its handler is running on [old]. *)
Lemma run_mod_timer_away mo mn lo ln s a t e r :
  inv old To mo lo s -> inv new Tn mn ln s -> bases s !! old = Some r -> running_timer r <> a ->
  timers s !! a = Some t -> base t = old -> function t <> 0 -> ok a (function t) (data t) -> 0 <= e < 2 ^ BITS ->
  exists s', __mod_timer BITS TVR_BITS TVN_BITS new a e s = Some (b2z (bool_decide (is_Some (mo !! a))), s') /\
    inv old To (delete a mo) (unlist a lo) s' /\ inv new Tn (<[a := arm BITS Tn e]> mn) ln s' /\ ran s' = ran s /\
    timers s' = <[a := mktimer_list e (function t) (data t) new true]> (timers s) /\
    (forall b, b <> old -> b <> new -> bases s' !! b = bases s !! b).
Proof using HR HN HS HB Hne.
  intros I J Hr Hrun Ht Eb Hf Ok He; pose proof (inv_pending _ _ _ _ _ _ _ _ _ _ _ I Ht Eb) as Ep.
  destruct (run_mod_detach _ _ _ _ _ _ _ _ _ _ _ _ I Hr Ht Eb) as (r1 & R1 & H1 & W1 & N1).
  pose proof I as (No & r0 & Hr0 & Hw & H & P); pose proof J as (Nn & r' & Hr' & Hw' & H' & P').
  assert (En : mn !! a = None).
  { apply eq_None_not_Some; intros [D E]; destruct (w_timer _ _ _ _ _ _ _ _ _ _ _ H' a D E) as (t' & Et & Ebt & _); congruence. }
  set (s1 := set_bases (<[old := r1]> (bases s)) s) in *.
  set (t0 := mktimer_list (expires t) (function t) (data t) 0 (pending t)).
  set (t1 := mktimer_list (expires t) (function t) (data t) new (pending t)).
  set (t2 := mktimer_list e (function t) (data t) new (pending t)).
  set (u0 := set_timers (<[a := t0]> (timers s)) s1); set (u1 := set_timers (<[a := t1]> (timers u0)) u0).
  set (s2 := set_timers (<[a := t2]> (timers u1)) u1).
  assert (Et2 : timers s2 = <[a := t2]> (timers s)) by (unfold s2, u1, u0; simpl; now rewrite !insert_insert_eq).
  destruct (run_add BITS TVR_BITS TVN_BITS HR HN HS HB ok new Tn (fun _ => Tn) mn ln r' s2 a t2) as (r2 & R2 & H2 & W2 & _); try done.
  - rewrite Et2; eapply wheel_frame; [exact H'|]; intros c D Ec; apply lookup_insert_ne; congruence.
  - simpl; rewrite lookup_insert_ne by done; done.
  - intros; cbv beta; lia.
  - rewrite Et2; apply lookup_insert_eq.
  - assert (Et : <[a := pend t2]> (timers s2) = <[a := mktimer_list e (function t) (data t) new true]> (timers s))
      by (rewrite Et2; unfold pend; simpl; now rewrite insert_insert_eq).
    rewrite Et in H2, R2; eexists; split; [|split; [|split; [|split; [|split]]]].
    + unfold __mod_timer; rewrite (run_bind_some _ _ _ _ _ (run_wtimer_at _ _ _ Ht)).
      replace (tst (function t)) with true by (unfold tst; now rewrite (proj2 (Z.eqb_neq _ _) Hf)); rewrite run_assert.
      assert (Lk : lock_timer_base a s = Some (old, s)).
      { unfold lock_timer_base; rewrite (run_bind_some _ _ _ _ _ (run_wtimer_at _ _ _ Ht)), Eb; unfold tst; now rewrite (proj2 (Z.eqb_neq _ _) No). }
      rewrite (run_bind_some _ _ _ _ _ Lk); unfold timer_pending at 1; rewrite run_bind_bind, (run_bind_some _ _ _ _ _ (run_wtimer_at _ _ _ Ht)), run_bind_ret.
      rewrite (run_bind_some _ _ _ _ _ R1), (run_bind_some _ _ _ _ _ (run_tbase_at s1 old r1 ltac:(apply lookup_insert_eq))).
      rewrite N1, (proj2 (Z.eqb_neq old new)), (proj2 (Z.eqb_neq _ a)) by done; cbn [negb andb]; rewrite Ep.
      rewrite run_bind_bind, (run_bind_some _ _ _ _ _ (run_set_base s1 a t 0 Ht)), run_bind_bind.
      rewrite (run_bind_some _ _ _ _ _ (run_set_base u0 a t0 new ltac:(apply lookup_insert_eq))), run_bind_ret.
      rewrite (run_bind_some _ _ _ _ _ (run_set_texpires u1 a t1 e ltac:(apply lookup_insert_eq))), (run_bind_some _ _ _ _ _ R2); done.
    + split; [done|]; exists r1; split; [simpl; rewrite lookup_insert_ne, lookup_insert_eq by done; done|]; split; [done|]; split.
      * eapply wheel_frame; [exact H1|]; intros c D [Nc _]%lookup_delete_Some; now apply lookup_insert_ne.
      * intros c t' Hc Eb' Ep'; simpl in Hc; destruct (decide (c = a)) as [-> |Nc].
        -- rewrite lookup_insert_eq in Hc; injection Hc as <-; simpl in Eb'; congruence.
        -- rewrite lookup_insert_ne in Hc by done; rewrite lookup_delete_ne by done; eauto.
    + split; [done|]; exists r2; split; [simpl; apply lookup_insert_eq|]; split; [now rewrite W2|]; split; [exact H2|].
      intros c t' Hc Eb' Ep'; simpl in Hc; destruct (decide (c = a)) as [-> |Nc]; [rewrite lookup_insert_eq; eauto|].
      rewrite lookup_insert_ne in Hc by done; rewrite lookup_insert_ne by done; eauto.
    + done.
    + done.
    + intros b N1' N2'; simpl; now rewrite !lookup_insert_ne by done.
Qed.

(** One timer moves. *)
Definition migrate_one (a : Z) : ST tstate unit :=
  detach_timer a false ;;; set_base a new ;;; internal_add_timer BITS TVR_BITS TVN_BITS new a.

Lemma run_migrate_one mo mn s a t r : inv old To mo [] s -> inv new Tn mn [] s -> bases s !! old = Some r ->
  is_Some (mo !! a) -> timers s !! a = Some t -> 0 <= expires t < 2 ^ BITS ->
  exists s', migrate_one a s = Some (tt, s') /\ inv old To (delete a mo) [] s' /\ inv new Tn (<[a := arm BITS Tn (expires t)]> mn) [] s' /\
    bases s' !! old = Some (list_del a r) /\ ran s' = ran s /\ timers s' = <[a := rebased new t]> (timers s) /\
    (forall b, b <> old -> b <> new -> bases s' !! b = bases s !! b).
Proof using HR HN HS HB Hne.
  intros I J Hr [D Em] Ht He; pose proof (bases_apart _ _ _ _ _ _ _ I J Em) as En.
  destruct I as (No & r0 & Hr0 & Hw & H & P), J as (Nn & r' & Hr' & Hw' & H' & P').
  assert (r0 = r) as -> by congruence.
  destruct (w_timer _ _ _ _ _ _ _ _ _ _ _ H a D Em) as (t' & Ht' & Eb & Ep & Ok); assert (t' = t) as -> by congruence.
  set (s1 := mkts (timers s) (<[old := list_del a r]> (bases s)) (ran s)).
  set (t2 := mktimer_list (expires t) (function t) (data t) new (pending t)).
  set (s2 := set_timers (<[a := t2]> (timers s1)) s1).
  assert (F : forall (m : gmap Z Z) x, m !! a = None -> forall c D, m !! c = Some D -> <[a := x]> (timers s) !! c = timers s !! c)
    by (intros m x Ea c D' Ec; apply lookup_insert_ne; congruence).
  destruct (run_add BITS TVR_BITS TVN_BITS HR HN HS HB ok new Tn (fun _ => Tn) mn [] r' s2 a t2) as (r2 & R2 & H2 & W2 & _); try done.
  - eapply wheel_frame; [exact H'|]; now apply F.
  - simpl; rewrite lookup_insert_ne by done; done.
  - intros; cbv beta; lia.
  - simpl; apply lookup_insert_eq.
  - assert (Et : <[a := pend t2]> (timers s2) = <[a := rebased new t]> (timers s))
      by (unfold s2, pend, rebased; simpl; now rewrite insert_insert_eq).
    rewrite Et in H2, R2; eexists; split; [|split; [|split; [|split; [|split; [|split]]]]].
    + unfold migrate_one; rewrite (run_bind_some _ _ _ _ _ (run_detach old r s a t false Ht Eb Hr)); change (mkts _ _ _) with s1.
      rewrite (run_bind_some _ _ _ _ _ (run_set_base s1 a t new Ht)); exact R2.
    + split; [done|]; exists (list_del a r); split; [simpl; rewrite lookup_insert_ne, lookup_insert_eq by done; done|].
      split; [now rewrite work_del, Hw|]; split; [eapply wheel_frame; [apply (ok_del _ _ _ _ _ _ _ _ []), H|]; apply F, lookup_delete_eq|].
      intros c t' Hc Eb' Ep'; simpl in Hc; destruct (decide (c = a)) as [->|Nc].
      * rewrite lookup_insert_eq in Hc; injection Hc as <-; simpl in Eb'; congruence.
      * rewrite lookup_insert_ne in Hc by done; rewrite lookup_delete_ne by done; eauto.
    + split; [done|]; exists r2; split; [simpl; apply lookup_insert_eq|]; split; [now rewrite W2|]; split; [exact H2|].
      intros c t' Hc Eb' Ep'; simpl in Hc; destruct (decide (c = a)) as [->|Nc]; [rewrite lookup_insert_eq; eauto|].
      rewrite lookup_insert_ne in Hc by done; rewrite lookup_insert_ne by done; eauto.
    + simpl; rewrite lookup_insert_ne, lookup_insert_eq by done; done.
    + done.
    + done.
    + intros b N1 N2; simpl; now rewrite !lookup_insert_ne by done.
Qed.

(** ** A slot *)

Context (s0 : tstate) (mo0 mn0 : gmap Z Z).
Context (Hexp : forall a t, timers s0 !! a = Some t -> 0 <= expires t < 2 ^ BITS).
#[local] Abbreviation moved := (moving s0 mo0 mn0).

(** Slots that are empty stay so. *)
Definition emptier (r r' : tvec_base) : Prop := forall lv i, vec lv r !! i = Some [] -> vec lv r' !! i = Some [].
Lemma emptier_refl r : emptier r r.
Proof. now intros ??. Qed.
#[local] Hint Resolve emptier_refl : core.
Lemma emptier_del a r : emptier r (list_del a r).
Proof. intros lv i E; rewrite vec_del; change (map ?f ?l) with (f <$> l); now rewrite list_lookup_fmap, E. Qed.

Lemma moved_step s mo mn a r : moved s mo mn -> bases s !! old = Some r -> is_Some (mo !! a) ->
  exists s' mo' mn', migrate_one a s = Some (tt, s') /\ moved s' mo' mn' /\ bases s' !! old = Some (list_del a r).
Proof using HR HN HS HB Hne Hexp.
  intros M Hr Ha; destruct (g_at _ _ _ _ _ _ M a) as [(Eo & En & Et)|(_ & Eo & _)]; [|destruct Ha; congruence].
  assert (T : exists t, timers s !! a = Some t).
  { destruct (g_old _ _ _ _ _ _ M) as (_ & r0 & _ & _ & H & _), Ha as [D Em]; destruct (w_timer _ _ _ _ _ _ _ _ _ _ _ H a D Em) as (t & Ht & _); eauto. }
  destruct T as [t Ht]; destruct (run_migrate_one mo mn s a t r (g_old _ _ _ _ _ _ M) (g_new _ _ _ _ _ _ M) Hr Ha Ht
    (Hexp a t ltac:(congruence))) as (s' & R & I & J & Hr' & Er & Ets & Eb).
  exists s', (delete a mo), (<[a := arm BITS Tn (expires t)]> mn); split; [exact R|]; split; [|exact Hr']; constructor; try done.
  - now rewrite Er, (g_ran _ _ _ _ _ _ M).
  - intros b N1 N2; now rewrite Eb, (g_bases _ _ _ _ _ _ M) by done.
  - intros c; rewrite Ets; destruct (decide (c = a)) as [->|N].
    + right; rewrite lookup_delete_eq, !lookup_insert_eq; split; [now rewrite <- Eo|]; split; [done|]; exists t; rewrite <- Et; done.
    + rewrite lookup_delete_ne, !lookup_insert_ne by done; apply M.
Qed.

(** The slot of the old base is emptied. *)
Lemma run_migrate_list lv i : 0 <= i -> forall n s mo mn r L, moved s mo mn -> bases s !! old = Some r -> vec lv r !! Z.to_nat i = Some L ->
  (length L <= n)%nat ->
  exists s' mo' mn' r', migrate_timer_list BITS TVR_BITS TVN_BITS n old new lv i s = Some (tt, s') /\ moved s' mo' mn' /\
    bases s' !! old = Some r' /\ emptier r r' /\ vec lv r' !! Z.to_nat i = Some [].
Proof using HR HN HS HB Hne Hexp.
  intros Hi; induction n as [|n IH]; intros s mo mn r L M Hr El Hn; simpl; rewrite (run_bind_some _ _ _ _ _ (run_tbase_at _ _ _ Hr)), El, run_bind_lift.
  - destruct L; simpl in Hn; [|lia]; exists s, mo, mn, r; done.
  - destruct L as [|a L]; [exists s, mo, mn, r; done|]; simpl in Hn.
    assert (Ha : is_Some (mo !! a)).
    { destruct (g_old _ _ _ _ _ _ M) as (_ & r0 & Hr0 & _ & H & _); assert (r0 = r) as -> by congruence.
      apply (ok_in _ _ _ _ _ _ _ _ _ _ _ a H), elem_of_app; left; apply in_wheel; exists lv, (Z.to_nat i), (a :: L); split; [done|left]. }
    destruct (moved_step s mo mn a r M Hr Ha) as (s1 & mo1 & mn1 & R1 & M1 & Hr1).
    assert (El1 : vec lv (list_del a r) !! Z.to_nat i = Some (unlist a L))
      by (rewrite vec_del; change (map ?f ?l) with (f <$> l); rewrite list_lookup_fmap, El; exact (f_equal Some (unlist_head BITS ok a L))).
    destruct (IH s1 mo1 mn1 _ _ M1 Hr1 El1) as (s2 & mo2 & mn2 & r2 & R2 & M2 & Hr2 & E2 & F2).
    { unfold unlist; pose proof (length_filter (fun c => c <> a) L); lia. }
    exists s2, mo2, mn2, r2; split; [|do 2 (split; [done|]); split; [|done]; intros lv' i' X; now apply E2, emptier_del].
    assert (A : bind (migrate_one a) (fun _ => migrate_timer_list BITS TVR_BITS TVN_BITS n old new lv i) s = Some (tt, s2)) by (rewrite (run_bind_some _ _ _ _ _ R1); exact R2).
    rewrite <- A; unfold migrate_one, bind; repeat (case_match; try done); congruence.
Qed.

(** ** All slots *)

(** A slot holds at most all timers. *)
Lemma slot_size s mo mn r lv i L : moved s mo mn -> bases s !! old = Some r -> vec lv r !! i = Some L -> (length L <= size mo0)%nat.
Proof.
  intros M Hr El; destruct (g_old _ _ _ _ _ _ M) as (_ & r0 & Hr0 & _ & H & _); assert (r0 = r) as -> by congruence.
  pose proof (Permutation_length (w_perm _ _ _ _ _ _ _ _ _ _ _ (ok_take _ _ _ _ _ _ _ _ _ _ _ _ _ _ H El))) as P.
  rewrite length_fmap, length_map_to_list, !length_app in P.
  assert (X : mo ⊆ mo0); [|pose proof (map_subseteq_size mo mo0 X); lia].
  apply map_subseteq_spec; intros a D E; destruct (g_at _ _ _ _ _ _ M a) as [(<- & _)|(_ & X & _)]; congruence.
Qed.

Lemma run_migrate_slots n i lvs : (size mo0 <= n)%nat -> 0 <= i -> (forall lv, lv ∈ lvs -> i < slots TVR_BITS TVN_BITS lv) ->
  forall s mo mn r, moved s mo mn -> bases s !! old = Some r ->
  exists s' mo' mn' r', migrate_slots BITS TVR_BITS TVN_BITS n old new lvs i s = Some (tt, s') /\ moved s' mo' mn' /\
    bases s' !! old = Some r' /\ emptier r r' /\ (forall lv, lv ∈ lvs -> vec lv r' !! Z.to_nat i = Some []).
Proof using HR HN HS HB Hne Hexp.
  intros Hn Hi; induction lvs as [|lv lvs IH]; intros Hl s mo mn r M Hr; simpl.
  - exists s, mo, mn, r; do 4 (split; [done|]); intros lv E; inversion E.
  - destruct (g_old _ _ _ _ _ _ M) as (_ & r0 & Hr0 & _ & H & _); assert (r0 = r) as -> by congruence.
    destruct (lookup_lt_is_Some_2 (vec lv r) (Z.to_nat i)) as [L El].
    { pose proof (w_length _ _ _ _ _ _ _ _ _ _ _ H lv); specialize (Hl lv ltac:(left)); lia. }
    destruct (run_migrate_list lv i Hi n s mo mn r L M Hr El) as (s1 & mo1 & mn1 & r1 & R1 & M1 & Hr1 & E1 & F1).
    { pose proof (slot_size _ _ _ _ _ _ _ M Hr El); lia. }
    destruct (IH ltac:(intros; apply Hl; now right) s1 mo1 mn1 r1 M1 Hr1) as (s2 & mo2 & mn2 & r2 & R2 & M2 & Hr2 & E2 & F2).
    exists s2, mo2, mn2, r2; rewrite (run_bind_some _ _ _ _ _ R1); do 3 (split; [done|]); split.
    + intros lv' i' X; now apply E2, E1.
    + intros lv' [->|X]%elem_of_cons; [now apply E2|now apply F2].
Qed.

Lemma run_migrate_loop n lvs : (size mo0 <= n)%nat -> forall k i s mo mn r, 0 <= i ->
  (forall lv, lv ∈ lvs -> i + Z.of_nat k <= slots TVR_BITS TVN_BITS lv) -> moved s mo mn -> bases s !! old = Some r ->
  exists s' mo' mn' r', migrate_loop BITS TVR_BITS TVN_BITS k n old new lvs i s = Some (tt, s') /\ moved s' mo' mn' /\
    bases s' !! old = Some r' /\ emptier r r' /\
    (forall lv j, lv ∈ lvs -> i <= j < i + Z.of_nat k -> vec lv r' !! Z.to_nat j = Some []).
Proof using HR HN HS HB Hne Hexp.
  intros Hn; induction k as [|k IH]; intros i s mo mn r Hi Hk M Hr; simpl.
  - exists s, mo, mn, r; do 4 (split; [done|]); lia.
  - destruct (run_migrate_slots n i lvs Hn Hi ltac:(intros lv E; specialize (Hk lv E); lia) s mo mn r M Hr)
      as (s1 & mo1 & mn1 & r1 & R1 & M1 & Hr1 & E1 & F1).
    destruct (IH (i + 1) s1 mo1 mn1 r1 ltac:(lia) ltac:(intros lv E; specialize (Hk lv E); lia) M1 Hr1)
      as (s2 & mo2 & mn2 & r2 & R2 & M2 & Hr2 & E2 & F2).
    exists s2, mo2, mn2, r2; rewrite (run_bind_some _ _ _ _ _ R1); do 3 (split; [done|]); split.
    + intros lv' i' X; now apply E2, E1.
    + intros lv j E Hj; destruct (decide (j = i)) as [->|N]; [now apply E2, F1|apply F2; [done|lia]].
Qed.

(** An empty wheel has no timers. *)
Lemma moved_all s mo mn r : moved s mo mn -> bases s !! old = Some r ->
  (forall lv j, 0 <= j < slots TVR_BITS TVN_BITS lv -> vec lv r !! Z.to_nat j = Some []) -> mo = ∅.
Proof.
  intros M Hr E; destruct (g_old _ _ _ _ _ _ M) as (_ & r0 & Hr0 & _ & H & _); assert (r0 = r) as -> by congruence.
  apply map_eq; intros a; rewrite lookup_empty; apply eq_None_not_Some; intros Ha%(ok_in _ _ _ _ _ _ _ _ _ _ _ a H).
  rewrite app_nil_r in Ha; apply in_wheel in Ha as (lv & i & L & El & Ha).
  pose proof (lookup_lt_Some _ _ _ El); pose proof (w_length _ _ _ _ _ _ _ _ _ _ _ H lv).
  specialize (E lv (Z.of_nat i) ltac:(lia)); rewrite Nat2Z.id, El in E; injection E as ->; inversion Ha.
Qed.

Lemma run_migrate_timers n : (size mo0 <= n)%nat -> inv old To mo0 [] s0 -> inv new Tn mn0 [] s0 ->
  (forall r, bases s0 !! old = Some r -> running_timer r = 0) ->
  exists s' mn', migrate_timers BITS TVR_BITS TVN_BITS new n false old s0 = Some (tt, s') /\ moved s' ∅ mn'.
Proof using HR HN HS HB Hne Hexp.
  intros Hn I J Hz; assert (M : moved s0 mo0 mn0) by (constructor; auto).
  pose proof I as (_ & r & Hr & _); pose proof (pow_pos TVR_BITS ltac:(lia)); pose proof (pow_pos TVN_BITS ltac:(lia)).
  unfold migrate_timers; rewrite run_assert, (run_bind_some _ _ _ _ _ (run_tbase_at _ _ _ Hr)), (Hz r Hr), run_assert; unfold TVR_SIZE, TVN_SIZE.
  destruct (run_migrate_loop n [TV1] Hn (Z.to_nat (2 ^ TVR_BITS)) 0 s0 mo0 mn0 r ltac:(lia)) as (s1 & mo1 & mn1 & r1 & R1 & M1 & Hr1 & _ & F1); try done.
  { intros lv ->%list_elem_of_singleton; unfold slots; lia. }
  destruct (run_migrate_loop n [TV2; TV3; TV4; TV5] Hn (Z.to_nat (2 ^ TVN_BITS)) 0 s1 mo1 mn1 r1 ltac:(lia)) as (s2 & mo2 & mn2 & r2 & R2 & M2 & Hr2 & E2 & F2); try done.
  { intros lv Hl; repeat (apply elem_of_cons in Hl as [->|Hl]; [unfold slots; lia|]); inversion Hl. }
  exists s2, mn2; rewrite (run_bind_some _ _ _ _ _ R1); split; [done|].
  rewrite <- (moved_all s2 mo2 mn2 r2 M2 Hr2); [done|]; intros lv j Hj; destruct (decide (lv = TV1)) as [->|N].
  - apply E2, F1; [left|simpl in Hj; lia].
  - apply F2; [rewrite !elem_of_cons; destruct lv; tauto|destruct lv; simpl in Hj; (done || lia)].
Qed.
End Migrate.
