(* ===== verification/TimerCorrect.v ===== *)
(** * The timer wheel: the properties, with witnesses *)

#[local] Set Warnings "-notation-incompatible-prefix".
From S2P Require Import Prelude.
From stdpp Require Import gmap.
From S2P Require Import Timer TimerWheel TimerMigrate.
#[local] Open Scope Z_scope.

(** [TVR_BITS] and [TVN_BITS]; [small] is [CONFIG_BASE_SMALL]. *)
Definition tvr (small : bool) : Z := if small then 6 else 8.
Definition tvn (small : bool) : Z := if small then 4 else 6.

Lemma tv_config small BITS : BITS = 32 \/ BITS = 64 ->
  0 < tvr small /\ 0 < tvn small /\ tvr small + 4 * tvn small <= 32 /\ 32 <= BITS.
Proof. destruct small; simpl; lia. Qed.

(** Handlers that restart their own timer, or not, as [rearm] says. *)
Definition handled (small : bool) (BITS b : Z) (call : Z -> Z -> ST tstate unit) (rearm : Z -> Z -> option Z) (a f d : Z) : Prop :=
  f <> 0 /\ behaves BITS (tvr small) (tvn small) b call rearm a f d.

(** A timer that is due later keeps its due time. *)
Lemma ticks_keep BITS rearm i : forall T m a D, m !! a = Some D -> T + Z.of_nat i <= D -> ticks BITS rearm i T m !! a = Some D.
Proof.
  induction i as [|i IH]; intros T m a D E H; simpl; [done|]; apply IH; [|lia].
  rewrite lookup_tick, E; simpl; now rewrite (proj2 (Z.eqb_neq D T)) by lia.
Qed.
Lemma in_log BITS ws : forall T i w a, ws !! i = Some w -> a ∈ w -> (wrap BITS (T + Z.of_nat i), a) ∈ log_of BITS T ws.
Proof.
  induction ws as [|w' ws IH]; intros T [|i] w a E Ha; simpl in *; [done..|injection E as ->|]; apply elem_of_app.
  - left; apply list_elem_of_In, in_map_iff; exists a; rewrite Z.add_0_r; split; [done|now apply list_elem_of_In].
  - right; replace (T + Z.of_nat (S i)) with (T + 1 + Z.of_nat i) by lia; eauto.
Qed.

(** C24: The timer wheel is a map from timers to due times.  Let the wheel of base
    [b] stand at time [T] with the due times [m], and let the current time be
    [n] - 1 ticks later.  If each handler restarts at most its own timer,
    [__run_timers] ends after [n] ticks, and its effect is that of [n] ticks of
    the abstract machine, in which every timer that is due at a tick runs at
    that tick, once: cascading through the vectors neither loses, delays nor
    hastens a timer, whatever its distance, and although all times wrap around.
    In particular every timer that is due by now has run at its due time.
    Holds for 32- and 64-bit kernels and both sizes of the vectors. *)
Theorem timer_wheel_correct small BITS SMP b call rearm J k n T m s f :
  BITS = 32 \/ BITS = 64 -> (forall a now e, rearm a now = Some e -> 0 <= e < 2 ^ BITS) ->
  inv BITS (tvr small) (tvn small) (handled small BITS b call rearm) b T m [] s ->
  J = T + Z.of_nat n - 1 -> Z.of_nat n <= 2 ^ (BITS - 1) -> (size m <= k)%nat -> (n <= f)%nat ->
  exists s' ws, __run_timers BITS (tvr small) (tvn small) SMP call (wrap BITS J) f k b s = Some (tt, s') /\
    inv BITS (tvr small) (tvn small) (handled small BITS b call rearm) b (J + 1) (ticks BITS rearm n T m) [] s' /\
    ran s' = ran s ++ log_of BITS T ws /\ length ws = n /\
    (forall i w, ws !! i = Some w -> NoDup w /\ forall a, a ∈ w <-> ticks BITS rearm i T m !! a = Some (T + Z.of_nat i)) /\
    (forall a D, m !! a = Some D -> T <= D <= J -> (wrap BITS D, a) ∈ log_of BITS T ws).
Proof.
  intros HB Hre I EJ Hn Hk Hf; destruct (tv_config small BITS HB) as (C1 & C2 & C3 & C4).
  destruct (run_timers_spec BITS _ _ C1 C2 C3 C4 _ SMP b call rearm (fun _ _ _ H => H) Hre J k n T m s f I EJ Hn Hk Hf)
    as (s' & ws & R & I' & Er & Lw & Dw).
  exists s', ws; do 5 (split; [done|]); intros a D Em HD.
  destruct (lookup_lt_is_Some_2 ws (Z.to_nat (D - T)) ltac:(lia)) as [w Ew].
  replace D with (T + Z.of_nat (Z.to_nat (D - T))) at 1 by lia; apply (in_log BITS ws T _ w); [done|].
  apply (Dw _ _ Ew), ticks_keep; [replace (T + _) with D by lia; done|lia].
Qed.

(** C25: Starting and deleting a timer, on any CPU.  [__mod_timer] returns whether
    the timer was pending.  When the timer belongs to the base of the current
    CPU [cpu], or its handler is running on its base [b], it stays on [b] and
    becomes due at [e], or at the next tick of [b] when [e] is in the past, that
    is when it is at least half the range of [long] ahead.  Otherwise it leaves
    [b] and becomes due in the same way on the base of the current CPU, to which
    it then belongs.  [del_timer] returns the same and makes it due never.  None
    of this calls a handler or changes another timer or another base. *)
Theorem mod_timer_correct small BITS ok b T m l s a t e :
  BITS = 32 \/ BITS = 64 -> inv BITS (tvr small) (tvn small) ok b T m l s ->
  timers s !! a = Some t -> base t = b -> function t <> 0 -> ok a (function t) (data t) -> 0 <= e < 2 ^ BITS ->
  (forall cpu, cpu = b \/ (forall r, bases s !! b = Some r -> running_timer r = a) ->
   exists s', __mod_timer BITS (tvr small) (tvn small) cpu a e s = Some (b2z (bool_decide (is_Some (m !! a))), s') /\
     inv BITS (tvr small) (tvn small) ok b T (<[a := arm BITS T e]> m) (unlist a l) s' /\ ran s' = ran s /\
     timers s' = <[a := mktimer_list e (function t) (data t) b true]> (timers s) /\
     (forall b', b' <> b -> bases s' !! b' = bases s !! b')) /\
  (forall cpu Tc mc lc, cpu <> b -> inv BITS (tvr small) (tvn small) ok cpu Tc mc lc s ->
   (forall r, bases s !! b = Some r -> running_timer r <> a) ->
   exists s', __mod_timer BITS (tvr small) (tvn small) cpu a e s = Some (b2z (bool_decide (is_Some (m !! a))), s') /\
     inv BITS (tvr small) (tvn small) ok b T (delete a m) (unlist a l) s' /\
     inv BITS (tvr small) (tvn small) ok cpu Tc (<[a := arm BITS Tc e]> mc) lc s' /\ ran s' = ran s /\
     timers s' = <[a := mktimer_list e (function t) (data t) cpu true]> (timers s) /\
     (forall b', b' <> b -> b' <> cpu -> bases s' !! b' = bases s !! b')) /\
  (exists s', del_timer a s = Some (b2z (bool_decide (is_Some (m !! a))), s') /\
     inv BITS (tvr small) (tvn small) ok b T (delete a m) (unlist a l) s' /\ ran s' = ran s /\
     timers s' = <[a := cleared t]> (timers s)).
Proof.
  intros HB I Ht Eb Hf Ok He; destruct (tv_config small BITS HB) as (C1 & C2 & C3 & C4); split; [|split].
  - intros cpu Hc; now apply run_mod_timer.
  - intros cpu Tc mc lc Nc J Hr; pose proof I as (_ & r & Er & _).
    apply (run_mod_timer_away BITS _ _ C1 C2 C3 C4 ok b cpu T Tc ltac:(congruence) m mc l lc s a t e r); auto.
  - now apply run_del_timer.
Qed.

(** C26: Moving the timers of a dead CPU.  When the CPU is offline, no timer of its
    base [old] runs and both bases are sound, [migrate_timers] ends, leaves the
    base of the dead CPU empty and takes each of its timers, with its handler and
    its expiry, to the base of the current CPU, where the timer is due as if it
    had been started there; every other timer and base is unchanged, no handler
    is called.  When the CPU is online it stops. *)
Theorem migrate_timers_correct small BITS ok old new To Tn mo mn s n :
  BITS = 32 \/ BITS = 64 -> old <> new ->
  inv BITS (tvr small) (tvn small) ok old To mo [] s -> inv BITS (tvr small) (tvn small) ok new Tn mn [] s ->
  (forall a t, timers s !! a = Some t -> 0 <= expires t < 2 ^ BITS) ->
  (forall r, bases s !! old = Some r -> running_timer r = 0) -> (size mo <= n)%nat ->
  migrate_timers BITS (tvr small) (tvn small) new n true old s = None /\
  exists s' mn', migrate_timers BITS (tvr small) (tvn small) new n false old s = Some (tt, s') /\
    inv BITS (tvr small) (tvn small) ok old To ∅ [] s' /\ inv BITS (tvr small) (tvn small) ok new Tn mn' [] s' /\ ran s' = ran s /\
    (forall b, b <> old -> b <> new -> bases s' !! b = bases s !! b) /\
    (forall a, is_Some (mo !! a) -> exists t, timers s !! a = Some t /\ mn' !! a = Some (arm BITS Tn (expires t)) /\
       timers s' !! a = Some (rebased new t)) /\
    (forall a, mo !! a = None -> mn' !! a = mn !! a /\ timers s' !! a = timers s !! a).
Proof.
  intros HB Hne I J He Hz Hn; destruct (tv_config small BITS HB) as (C1 & C2 & C3 & C4); split; [done|].
  destruct (run_migrate_timers BITS _ _ C1 C2 C3 C4 ok old new To Tn Hne s mo mn He n Hn I J Hz) as (s' & mn' & R & M).
  exists s', mn'; split; [exact R|]; do 4 (split; [apply M|]); split; intros a Ha; destruct (g_at _ _ _ _ _ _ _ _ _ _ _ _ _ _ M a) as [(Eo & En & Et)|(So & _ & X)].
  - rewrite lookup_empty in Eo; destruct Ha; congruence.
  - exact X.
  - now split.
  - destruct So; congruence.
Qed.

(** ** Witnesses: an empty wheel at time 0, a timer for time 1000 *)

Definition demo_base : tvec_base := mktvec_base 0 0 [] [] [] [] [] [].
Definition demo_state : tstate := mkts {[8 := mktimer_list 0 1 0 100 false]} {[100 := demo_base]} [].
Definition demo_rearm : Z -> Z -> option Z := fun _ _ => None.
Definition demo_handler : Z -> Z -> ST tstate unit := fun _ _ => ret tt.

Lemma demo_handled : handled false 32 100 demo_handler demo_rearm 8 1 0.
Proof. split; [lia|]; intros s r _; reflexivity. Qed.

Lemma demo_start : exists s0, inv 32 (tvr false) (tvn false) (handled false 32 100 demo_handler demo_rearm) 100 0 ∅ [] s0 /\
  timers s0 !! 8 = Some (mktimer_list 0 1 0 100 false) /\ ran s0 = [].
Proof.
  destruct (tv_config false 32 ltac:(now left)) as (C1 & C2 & C3 & C4).
  destruct (run_init 32 _ _ C1 C2 (handled false 32 100 demo_handler demo_rearm) 100 0 demo_state demo_base ltac:(lia) eq_refl)
    as (s0 & _ & I & Et & Er).
  - intros a t H _; unfold demo_state in H; simpl in H; apply lookup_singleton_Some in H as [_ <-]; reflexivity.
  - exists s0; rewrite Et, Er; done.
Qed.

Lemma timer_wheel_correct_witness : exists s1 s2,
  __run_timers 32 (tvr false) (tvn false) true demo_handler 1000 1001 1 100 s1 = Some (tt, s2) /\ (1000, 8) ∈ ran s2.
Proof.
  destruct demo_start as (s0 & I & Ht & _); destruct (tv_config false 32 ltac:(now left)) as (C1 & C2 & C3 & C4).
  destruct (run_mod_timer 32 _ _ C1 C2 C3 C4 _ 100 100 0 ∅ [] s0 8 _ 1000 I (or_introl eq_refl) Ht eq_refl ltac:(simpl; lia) demo_handled ltac:(lia))
    as (s1 & _ & I1 & _).
  change (arm 32 0 1000) with 1000 in I1; change (unlist 8 []) with (@nil Z) in I1.
  destruct (timer_wheel_correct false 32 true 100 demo_handler demo_rearm 1000 1 1001 0 (<[8 := 1000]> ∅) s1 1001
    ltac:(now left) ltac:(intros a now e H; discriminate H) I1 ltac:(lia) ltac:(lia) ltac:(reflexivity) ltac:(lia))
    as (s2 & ws & R & _ & Er & _ & _ & F).
  exists s1, s2; split; [exact R|]; rewrite Er; apply elem_of_app; right.
  exact (F 8 1000 eq_refl ltac:(lia)).
Defined.

(** Two bases; timer 8 is pending on base 100, whose CPU dies. *)
Definition demo_pair : tstate :=
  mkts {[8 := mktimer_list 0 1 0 100 false]} (<[100 := init_base (tvr false) (tvn false) 0 0]> {[200 := init_base (tvr false) (tvn false) 0 0]}) [].
Definition demo_ok (a f d : Z) : Prop := True.

Lemma demo_two : exists s1, inv 32 (tvr false) (tvn false) demo_ok 100 0 (<[8 := 1000]> ∅) [] s1 /\
  inv 32 (tvr false) (tvn false) demo_ok 200 0 ∅ [] s1 /\
  timers s1 = {[8 := mktimer_list 1000 1 0 100 true]} /\ (forall r, bases s1 !! 100 = Some r -> running_timer r = 0).
Proof.
  destruct (tv_config false 32 ltac:(now left)) as (C1 & C2 & C3 & C4).
  assert (I : inv 32 (tvr false) (tvn false) demo_ok 100 0 ∅ [] demo_pair).
  { apply (inv_empty 32 _ _ C1 C2 _ _ _ _ 0); [lia|reflexivity|]; intros a t H; unfold demo_pair in H; simpl in H.
    apply lookup_singleton_Some in H as [_ <-]; reflexivity. }
  destruct (run_mod_timer 32 _ _ C1 C2 C3 C4 demo_ok 100 100 0 ∅ [] demo_pair 8 _ 1000 I (or_introl eq_refl) eq_refl eq_refl ltac:(simpl; lia) Logic.I ltac:(lia))
    as (s1 & R & I1 & _ & Et & Eb).
  assert (Et' : timers s1 = {[8 := mktimer_list 1000 1 0 100 true]}) by (rewrite Et; unfold demo_pair; simpl; apply insert_singleton_eq).
  exists s1; split; [exact I1|]; split; [|split; [exact Et'|]].
  - apply (inv_empty 32 _ _ C1 C2 _ _ _ _ 0); [lia|rewrite Eb by lia; reflexivity|]; intros a t H; rewrite Et' in H.
    apply lookup_singleton_Some in H as [_ <-]; simpl; lia.
  - assert (X : option_map (fun x => running_timer <$> bases (snd x) !! 100) (__mod_timer 32 (tvr false) (tvn false) 100 8 1000 demo_pair) = Some (Some 0))
      by (vm_compute; reflexivity).
    rewrite R in X; simpl in X; intros r Hr; rewrite Hr in X; now injection X.
Qed.

Lemma migrate_timers_correct_witness : exists s1 s2 mn,
  migrate_timers 32 (tvr false) (tvn false) 200 1 false 100 s1 = Some (tt, s2) /\
  inv 32 (tvr false) (tvn false) demo_ok 200 0 mn [] s2 /\ mn !! 8 = Some 1000.
Proof.
  destruct demo_two as (s1 & I & J & Et & Hz); exists s1.
  destruct (migrate_timers_correct false 32 demo_ok 100 200 0 0 (<[8 := 1000]> ∅) ∅ s1 1 ltac:(now left) ltac:(lia) I J
    ltac:(intros a t H; rewrite Et in H; apply lookup_singleton_Some in H as [_ <-]; simpl; lia) Hz ltac:(reflexivity))
    as (_ & s2 & mn & R & _ & J2 & _ & _ & X & _).
  exists s2, mn; split; [exact R|]; split; [exact J2|].
  destruct (X 8 ltac:(now eexists)) as (t & Ht & Em & _); rewrite Et in Ht; apply lookup_singleton_Some in Ht as [_ <-]; exact Em.
Defined.

(** Timer 8 of base 100 is started on the CPU with base 200. *)
Lemma mod_timer_correct_witness : exists s1 s2,
  __mod_timer 32 (tvr false) (tvn false) 200 8 2000 s1 = Some (1, s2) /\
  inv 32 (tvr false) (tvn false) demo_ok 100 0 (delete 8 (<[8 := 1000]> ∅)) [] s2 /\
  inv 32 (tvr false) (tvn false) demo_ok 200 0 (<[8 := 2000]> ∅) [] s2.
Proof.
  destruct demo_two as (s1 & I & J & Et & Hz); exists s1.
  assert (Ht : timers s1 !! 8 = Some (mktimer_list 1000 1 0 100 true)) by (rewrite Et; reflexivity).
  destruct (mod_timer_correct false 32 demo_ok 100 0 (<[8 := 1000]> ∅) [] s1 8 _ 2000 ltac:(now left) I Ht eq_refl ltac:(simpl; lia)
    Logic.I ltac:(lia)) as (_ & A & _).
  destruct (A 200 0 ∅ [] ltac:(lia) J ltac:(intros r Hr; rewrite (Hz r Hr); lia)) as (s2 & R & I2 & J2 & _).
  exists s2; split; [exact R|]; split; [exact I2|exact J2].
Defined.
